(* ===== verification/_CoqProject ===== *)
-Q . S2P
Prelude.v
Proto.v
Topic.v
Graph.v
GraphFacts.v
Dijkstra.v
DijkstraFacts.v
TreeFacts.v
RoutingFacts.v
OverflowFacts.v
Frame.v
FrameFacts.v
Stream.v
Reconciliation.v
Backpressure.v
Registry.v
Connection.v
Quic.v
QuicFacts.v
Locks.v
Discovery.v
DiscoveryFacts.v
FlowNode.v
Publish.v
PublishFacts.v
FlowFacts.v
ControlFacts.v
Handshake.v
HandshakeFacts.v
Lifecycle.v
SessionFacts.v
Network.v
TopologySync.v
NetworkSync.v
Circulation.v
MergeFacts.v
KeepAlive.v
KeepAliveFacts.v
Http.v
HttpTests.v
Tower.v
ServiceCodec.v
TowerFacts.v
TowerApps.v
TowerStack.v
TowerWitnesses.v
TowerAppWitnesses.v
Serve.v
FlowWitnesses.v
FlowApps.v
UnitTests.v
FlowWorld.v
MeshWitnesses.v
