(* ===== verification/Prelude.v ===== *)
(** * A verification of Stric

    Stric is a Rust workspace for peer-to-peer networking over QUIC.  [stric-core]
    keeps connections and their heartbeats; [stric-flow] is a mesh: nodes gossip the
    topology and their subscriptions over one control stream per peer, compute
    shortest-path forwarding trees, forward envelopes along them, throttle flows, and
    share session state; [stric-tower] is a request-response layer with a router and
    middleware.  The development models the logic of the three crates.

    ** Files, and what they model

    - [Prelude]: the results of Rust code ([outcome]: a value, a panic, or no fuel;
      [result]), machine integers with the two build profiles (an overflow panics in
      [Debug], wraps in [Release]), loops, the iteration order of hash maps, and the
      lemmas and tactics the other files share.
    - [Proto]: the message types of [stric-flow/proto/stric_flow.proto].
    - [Topic]: [match_topic] of [stric-flow/src/routing.rs].
    - [Graph], [GraphFacts]: [GlobalGraph] of [routing.rs] over petgraph's interface, and
      that it refines a mesh kept by node names.
    - [Dijkstra], [DijkstraFacts], [TreeFacts], [RoutingFacts], [OverflowFacts]:
      [compute_forwarding_table] of [routing.rs], and what it does when costs overflow.
    - [Frame], [FrameFacts]: [stric-flow/src/frame.rs], the writer and reader loops of a
      control stream in [stric-flow/src/node.rs], and the framing of
      [stric-tower/src/codec.rs].
    - [Stream]: [stric-core/src/stream.rs] over quinn's streams.
    - [Reconciliation]: [ExponentialBackoff], [Session] and [gc_inactive_sessions] of
      [stric-flow/src/reconciliation.rs].
    - [Backpressure]: [TokenBucketRateLimiter] of [stric-flow/src/backpressure.rs].
    - [Registry]: [MessageRegistry] of [stric-flow/src/registry.rs].
    - [Connection]: [stric-core/src/connection.rs], [connection_wrapper.rs] and the
      registration of connections in [stric-core/src/node.rs].
    - [Quic], [QuicFacts]: [QuicNode] of [stric-core/src/node.rs] with [node_config.rs] and
      [handler_types.rs]: its configuration, and the running node with its tasks.
    - [Locks]: what the tasks of a flow node do with its locks and its control channel.
    - [KeepAlive], [KeepAliveFacts]: [stric-core/src/keep_alive.rs].
    - [Discovery], [DiscoveryFacts]: [stric-flow/src/discovery.rs].
    - [FlowNode], [FlowFacts], [ControlFacts], [SessionFacts]: the state of [FlowNode],
      every branch of [run_control_loop], and the public operations of
      [stric-flow/src/node.rs].
    - [Publish], [PublishFacts]: [publish], the task for incoming data streams, and the tasks
      that send envelopes, with their waits for the flow's limiter.
    - [Handshake], [HandshakeFacts]: [handle_new_connection], [connect] and the
      reconnection task.
    - [Lifecycle]: [FlowNode::new], and a peer connection from its registration in the core
      node to the redialling of the peer.
    - [Network]: several nodes with control messages in flight; [TopologySync]: the mesh
      topology in a network; [NetworkSync]: session state in a network; [Circulation]:
      messages that never come to rest; [MergeFacts]: session writes under a merge function.
    - [Http]: the request and response types, extractors, handlers, router and [http]
      conversions of [stric-tower/src/http.rs], [handler.rs] and [routing.rs].
    - [Tower], [TowerFacts], [TowerWitnesses]: an exchange between the client and the
      server of [stric-tower/src/client.rs] and [server.rs], and [adapter.rs].
    - [ServiceCodec]: the codecs of [stric-tower/src/codec.rs] over bidirectional streams.
    - [Serve]: the connection handler and the development server of [server.rs].
    - [FlowApps]: the handlers, message types and routing metric of the programs in
      [stric-flow/examples]; [FlowWorld]: these programs and the session test of [node.rs],
      run on a simulated mesh of complete nodes.
    - [UnitTests], [HttpTests]: the test functions inside the sources of stric-flow and
      stric-tower, and the example [node_discovery.rs].
    - [TowerApps], [TowerStack]: the handlers, routers and clients of
      [stric-tower/examples], and the client stack of [tower_middleware.rs].
    - [FlowWitnesses], [MeshWitnesses], [TowerAppWitnesses]: the theorems about nodes, networks
      and applications at concrete inputs.

    ** How the code is modelled

    A Rust function is a Rocq function on the values it reads and writes.  A method of
    a shared object takes the object's state and returns the new one.  Sends, spawned
    tasks and calls of user code are effects in the result, in the order of the code.
    Code that awaits while others run is a step per stretch between awaits
    ([Backpressure.wait_step], [KeepAlive.pool_step], [Quic.node_step], [Network.net_step],
    [Publish.data_step], [Locks.step]), so that a theorem over all runs covers all interleavings.
    Clock readings, random jitter, what the transport returns and the iteration order of
    hash maps are arguments.  Third-party code is a class of operations with its
    documented laws: [PetGraph] (petgraph, including the swap on removal), [BinaryHeap],
    [Governor], [Codec] (prost, serde), [HttpCrate] (http), [Quinn] and [QuinnStreams] (quinn
    and rustls), and the hash function of [Discovery]; each class has an instance that the
    concrete examples run on.

    ** What is shown

    - Routing: the search ends; when path costs fit 32 bits the table is a tree over
      existing links that reaches every reachable subscriber at least cost; next to a source
      whose first two links overflow, in any graph, the computation loops for ever or panics.
    - Mesh state: updates refine the mesh specification, keep links symmetric, and a
      snapshot rebuilds the mesh.
    - Data plane: in every interleaving of senders, receivers and limiter operations a published
      envelope is read at no node twice; if it fits a frame and no stream breaks off it reaches
      every reachable subscriber, unless a task waits for its flow to be resumed; above 16 MiB
      nobody reads it.
    - Topology: in a mesh that has settled (no node has recorded a later epoch of a member than
      the member has counted, which leaves out the bootstrap) every link measured comes to be known
      to every node it can reach; no node ever forgets one, not even of a peer that is gone.
    - Control engine: the loop never panics in the release build and keeps the node's
      invariant; updates are applied and passed on once; a subscription floods the mesh
      and the flood ends.
    - Sessions: in a network, with writes at any node between any deliveries, last write wins is
      eventually consistent when no clock is behind the session it writes to and no two writes
      tie; creating, closing, syncing and garbage collection do what
      their branches say, including where copies diverge; with a merge function, writes in order fold into
      every copy, and concurrent writes need not.
    - Streams: frames and codecs round-trip, a broken control stream yields a prefix.
    - Core node: the configuration is what was asked for; every attempt to connect is
      accounted for in every interleaving; the development server ends at the first
      failed handshake.
    - Peering: a peer is registered exactly when the handshake completes; reconnection
      goes on until the peer is back, and where it gives up too early; losing one of two
      connections to a peer cuts it off from the control loop.
    - Locks: tasks that keep to the lock order never deadlock; two tasks do not keep to it,
      and the deadlocks they cause are permanent.
    - Limits: pausing holds every waiting task; a wake-up can be missed.
    - Keep-alive: no stream is invented or duplicated, every loss is accounted for.
    - Request-response: a call over the network is a call of the service, up to the
      headers the wire keeps; typed calls through the router; the adapter is transparent.
    - Discovery: the table keeps its shape, lookups return the closest contacts.
    - Applications: the example programs and the unit tests run to their end with every
      assertion true; the statistics handler counts exactly; retries happen exactly after
      a 503; typed clients get their handlers' answers.

    ** Fuel

    [run_loop k] runs a loop for [2 ^ k] rounds.  The Dijkstra search is given fuel
    computed from the graph, proved sufficient for every graph ([shortest_paths_ends]);
    the walk along predecessors is given a fuel argument, and any with more rounds than
    the mesh has nodes is enough ([forwarding_table_least_cost]).  [reader_loop] and
    [ping_loop] take one more round than there are bytes or streams.  [FlowWorld.settle] runs
    until nothing is in flight: 200 deliveries are enough for the programs with two or three
    nodes, [2 ^ 13] for the large network with 14.

    ** What is not modelled

    The bounds of channels other than the error channel, those of the example handlers and,
    for deadlocks, the control channel (a full channel delays its sender); the guards of
    [DashMap]s; the protobuf encoding itself; SHA-256; the making of certificates and TLS
    configurations; logging; the integration tests under [tests], which exercise quinn. *)
From stdpp Require Export base gmap strings list sets relations.
From Stdlib Require Export Lia NArith ZArith.
From Stdlib Require Strings.Byte.
From stdpp Require Import options.

(** ** Outcomes of Rust code *)

Inductive outcome (A : Type) :=
| Ret (a : A)
| Panic
| OutOfFuel.
Arguments Ret {A} _.
Arguments Panic {A}.
Arguments OutOfFuel {A}.

Global Instance outcome_ret : MRet outcome := @Ret.
Global Instance outcome_bind : MBind outcome := λ A B f m,
  match m with
  | Ret a => f a
  | Panic => Panic
  | OutOfFuel => OutOfFuel
  end.

Lemma bind_Ret {A B} (m : outcome A) (f : A → outcome B) b :
  m ≫= f = Ret b ↔ ∃ a, m = Ret a ∧ f a = Ret b.
Proof. destruct m; simpl; naive_solver. Qed.

(** [inv_ret H] takes apart [H : m = Ret x]: every bind of [m] returned, and every
    match on the way took one of its branches. *)
Ltac inv_ret H :=
  lazymatch type of H with
  | Ret _ = Ret _ => injection H; clear H; intros; subst
  | Panic = _ => discriminate H
  | OutOfFuel = _ => discriminate H
  | mbind _ _ = Ret _ => apply bind_Ret in H as (? & ? & H); cbn beta in H; inv_ret H
  | (let x := _ in _) = Ret _ => cbv zeta in H; inv_ret H
  | match ?x with _ => _ end = _ => destruct x eqn:?; inv_ret H
  | _ => idtac
  end.

(** Lemmas of the form "the operation keeps the invariant". *)
Create HintDb stric.

(** [Result<A, E>]. *)
Inductive result (A E : Type) :=
| Ok (a : A)
| Err (e : E).
Arguments Ok {A E} _.
Arguments Err {A E} _.

(** ** Machine integers *)

Inductive profile := Debug | Release.

Definition u32_max : N := 4294967295.
Definition u64_max : N := 18446744073709551615.

Definition u32_add (p : profile) (a b : N) : outcome N :=
  if (a + b <=? u32_max)%N then Ret (a + b)%N
  else match p with
       | Debug => Panic
       | Release => Ret ((a + b) mod (u32_max + 1))%N
       end.

Definition u64_add (p : profile) (a b : N) : outcome N :=
  if (a + b <=? u64_max)%N then Ret (a + b)%N
  else match p with
       | Debug => Panic
       | Release => Ret ((a + b) mod (u64_max + 1))%N
       end.

Definition u64_mul (p : profile) (a b : N) : outcome N :=
  if (a * b <=? u64_max)%N then Ret (a * b)%N
  else match p with
       | Debug => Panic
       | Release => Ret ((a * b) mod (u64_max + 1))%N
       end.

(** ** Loops *)

Section loops.
Context {S R : Type} (step : S → outcome (S + R)).

Fixpoint iterate (k : nat) (s : S) : outcome (S + R) :=
  match k with
  | O => step s
  | Datatypes.S k' =>
      r ← iterate k' s;
      match r with
      | inl s' => iterate k' s'
      | inr x => Ret (inr x)
      end
  end.

Definition run_loop (k : nat) (s : S) : outcome R :=
  r ← iterate k s;
  match r with
  | inl _ => OutOfFuel
  | inr x => Ret x
  end.
End loops.

Section foldM.
Context {A B : Type} (f : B → A → outcome B).

Fixpoint foldM (b : B) (l : list A) : outcome B :=
  match l with
  | [] => Ret b
  | a :: l' => b' ← f b a; foldM b' l'
  end.
End foldM.

(** [assert!]. *)
Definition assert (b : bool) : outcome () := if b then Ret () else Panic.

(** [runs k s x]: the loop started in [s] returns [x] after [k] more rounds. *)
Inductive runs {S R : Type} (step : S → outcome (S + R)) : nat → S → R → Prop :=
| runs_done s x : step s = Ret (inr x) → runs step 0 s x
| runs_more k s s' x : step s = Ret (inl s') → runs step k s' x → runs step (Datatypes.S k) s x.

Section loop_lemmas.
Context {S R : Type} (step : S → outcome (S + R)).

Lemma iterate_inv (P : S → Prop) (Q : R → Prop) k s r :
  P s →
  (∀ s s', P s → step s = Ret (inl s') → P s') →
  (∀ s x, P s → step s = Ret (inr x) → Q x) →
  iterate step k s = Ret r →
  match r with inl s' => P s' | inr x => Q x end.
Proof.
  intros HP Hstep Hdone. revert s r HP.
  induction k as [|k IH]; intros s r HP; simpl.
  - destruct r; eauto.
  - destruct (iterate step k s) as [[s'|x]| |] eqn:E; simpl; try done.
    + apply IH in E; [|done]. apply IH, E.
    + intros [= <-]. by apply (IH s (inr x)).
Qed.

Lemma run_loop_inv (P : S → Prop) (Q : R → Prop) k s x :
  P s →
  (∀ s s', P s → step s = Ret (inl s') → P s') →
  (∀ s x, P s → step s = Ret (inr x) → Q x) →
  run_loop step k s = Ret x → Q x.
Proof.
  intros HP H1 H2. unfold run_loop.
  destruct (iterate step k s) as [[s'|y]| |] eqn:E; simpl; try done.
  intros [= ->]. by apply (iterate_inv P Q k s (inr x)).
Qed.

(** A loop whose steps decrease a measure ends within its fuel. *)
Lemma iterate_measure (P : S → Prop) (m : S → N) k s :
  P s →
  (∀ s, P s → match step s with
              | Ret (inl s') => P s' ∧ (m s' < m s)%N
              | OutOfFuel => False
              | _ => True end) →
  match iterate step k s with
  | Ret (inl s') => P s' ∧ (m s' + 2 ^ N.of_nat k <= m s)%N
  | OutOfFuel => False
  | _ => True
  end.
Proof.
  intros HP Hs. revert s HP. induction k as [|k IH]; intros s HP.
  - specialize (Hs s HP). cbn [iterate].
    destruct (step s) as [[s'|]| |]; try done.
    destruct Hs. split; [done|]. change (2 ^ N.of_nat 0)%N with 1%N. lia.
  - cbn [iterate]. pose proof (IH s HP) as H1.
    destruct (iterate step k s) as [[s'|]| |]; cbn; try done.
    destruct H1 as [HP' H1]. pose proof (IH s' HP') as H2.
    destruct (iterate step k s') as [[s''|]| |]; try done.
    destruct H2. split; [done|].
    rewrite Nat2N.inj_succ, N.pow_succ_r'. lia.
Qed.

Lemma run_loop_measure (P : S → Prop) (m : S → N) k s :
  P s →
  (∀ s, P s → match step s with
              | Ret (inl s') => P s' ∧ (m s' < m s)%N
              | OutOfFuel => False
              | _ => True end) →
  (m s < 2 ^ N.of_nat k)%N →
  run_loop step k s ≠ OutOfFuel.
Proof.
  intros HP Hs Hm. pose proof (iterate_measure P m k s HP Hs) as H.
  unfold run_loop. destruct (iterate step k s) as [[s'|]| |]; cbn; try done. lia.
Qed.

(** A loop that never leaves an invariant never returns, whatever its fuel. *)
Lemma run_loop_diverges (P : S → Prop) k s :
  P s →
  (∀ s, P s → ∃ s', step s = Ret (inl s') ∧ P s') →
  run_loop step k s = OutOfFuel.
Proof.
  intros HP Hs.
  assert (∃ s', iterate step k s = Ret (inl s') ∧ P s') as (s' & E & _).
  { revert s HP. induction k as [|k IH]; intros s HP; simpl; [by apply Hs|].
    destruct (IH s HP) as (s' & -> & HP'). simpl. by apply IH. }
  unfold run_loop. by rewrite E.
Qed.

Lemma iterate_runs k j s x :
  runs step j s x →
  if decide (j < 2 ^ k) then iterate step k s = Ret (inr x)
  else ∃ s', iterate step k s = Ret (inl s') ∧ runs step (j - 2 ^ k) s' x.
Proof.
  revert j s. induction k as [|k IH]; intros j s Hr; simpl.
  - destruct Hr as [s x E|j s s' x E Hr]; case_decide; try lia; [done|].
    exists s'. split; [done|]. by replace (Datatypes.S j - 1) with j by lia.
  - rewrite Nat.add_0_r. specialize (IH j s Hr) as H1.
    destruct (decide (j < 2 ^ k)) as [Hlt|Hge].
    + rewrite H1. simpl. rewrite decide_True by lia. done.
    + destruct H1 as (s' & -> & Hr'). simpl. specialize (IH _ s' Hr') as H2.
      destruct (decide (j - 2 ^ k < 2 ^ k)).
      * rewrite decide_True by lia. done.
      * rewrite decide_False by lia. destruct H2 as (s'' & E & Hr'').
        exists s''. split; [done|].
        by replace (j - (2 ^ k + 2 ^ k)) with (j - 2 ^ k - 2 ^ k) by lia.
Qed.

(** A run of [j] rounds fits any fuel [k] with [j < 2 ^ k]. *)
Lemma run_loop_runs k j s x : runs step j s x → j < 2 ^ k → run_loop step k s = Ret x.
Proof.
  intros Hr Hj. pose proof (iterate_runs k j s x Hr) as H.
  rewrite decide_True in H by done. unfold run_loop. by rewrite H.
Qed.

Lemma run_loop_no_panic (P : S → Prop) k s :
  P s →
  (∀ s, P s → match step s with
              | Ret (inl s') => P s' | Panic => False | _ => True end) →
  run_loop step k s ≠ Panic.
Proof.
  intros HP Hs.
  assert (match iterate step k s with
          | Ret (inl s') => P s' | Panic => False | _ => True end) as H.
  { revert s HP. induction k as [|k IH]; intros s HP; simpl; [by apply Hs|].
    pose proof (IH s HP) as H.
    destruct (iterate step k s) as [[s'|]| |]; simpl; try done. by apply IH. }
  unfold run_loop. by destruct (iterate step k s) as [[s'|]| |].
Qed.
End loop_lemmas.

Lemma foldM_app {A B} (f : B → A → outcome B) b l l' :
  foldM f b (l ++ l') = (b' ← foldM f b l; foldM f b' l').
Proof.
  revert b. induction l as [|a l IH]; intros b; simpl; [done|].
  destruct (f b a); simpl; [apply IH|done..].
Qed.

Section foldM_lemmas.
Context {A B : Type} (f : B → A → outcome B).

Lemma foldM_inv (P : B → Prop) b l b' :
  P b →
  (∀ b a b', a ∈ l → P b → f b a = Ret b' → P b') →
  foldM f b l = Ret b' → P b'.
Proof.
  revert b. induction l as [|a l IH]; intros b HP Hf; simpl.
  - by intros [= <-].
  - destruct (f b a) as [b1| |] eqn:E; simpl; try done. apply IH.
    + eapply Hf; [|done|done]. by left.
    + intros ????. apply Hf. by right.
Qed.

Lemma foldM_total (P : B → Prop) b l :
  P b →
  (∀ b a, a ∈ l → P b → ∃ b', f b a = Ret b' ∧ P b') →
  ∃ b', foldM f b l = Ret b' ∧ P b'.
Proof.
  revert b. induction l as [|a l IH]; intros b HP Hf; simpl; [by eauto|].
  destruct (Hf b a) as (b1 & -> & HP1); [by left|done|]. simpl.
  apply IH; [done|]. intros ???. apply Hf. by right.
Qed.

Lemma foldM_not_fuel b l :
  (∀ b a, f b a ≠ OutOfFuel) → foldM f b l ≠ OutOfFuel.
Proof.
  intros Hf. revert b. induction l as [|a l IH]; intros b; simpl; [done|].
  destruct (f b a) eqn:E; simpl; [apply IH|done|by destruct (Hf b a)].
Qed.
End foldM_lemmas.

(** ** Bytes *)

Global Instance byte_eq_dec : EqDecision Byte.byte := Strings.Byte.byte_eq_dec.

(** ** Lists *)

Section list_lemmas.
Context {A : Type}.
Implicit Types l : list A.

Lemma delete_insert_list l i x : delete i (<[i := x]> l) = delete i l.
Proof. revert i. induction l as [|y l IH]; intros [|i]; simpl; try done. by rewrite IH. Qed.

Lemma insert_Permutation l i x y :
  l !! i = Some x → <[i := y]> l ≡ₚ y :: delete i l.
Proof.
  intros Hi. rewrite <- (delete_insert_list l i y).
  apply delete_Permutation. apply list_lookup_insert_eq.
  by apply lookup_lt_Some in Hi.
Qed.

Lemma elem_of_list_insert_inv l i x y : y ∈ <[i := x]> l → y = x ∨ y ∈ l.
Proof.
  intros [j Hj]%list_elem_of_lookup. rewrite list_lookup_insert in Hj.
  case_decide; [left; congruence|right; by eapply list_elem_of_lookup_2].
Qed.

Lemma NoDup_lookup_inj l :
  (∀ i j x, l !! i = Some x → l !! j = Some x → i = j) → NoDup l.
Proof. apply NoDup_alt. Qed.
End list_lemmas.

Lemma NoDup_range_length n (l : list nat) :
  NoDup l → Forall (λ v, v < n) l → length l <= n.
Proof.
  intros Hnd Hr. rewrite <- (length_seq n 0).
  apply submseteq_length, NoDup_submseteq; [done|].
  intros x Hx. apply elem_of_seq. rewrite Forall_forall in Hr. specialize (Hr x Hx). lia.
Qed.

Lemma map_to_list_filter_perm `{Countable K} {V} (P : K * V → Prop) `{∀ x, Decision (P x)}
    (m : gmap K V) :
  map_to_list (filter P m) ≡ₚ filter P (map_to_list m).
Proof.
  apply NoDup_Permutation.
  - apply NoDup_map_to_list.
  - apply NoDup_filter, NoDup_map_to_list.
  - intros [k v]. rewrite list_elem_of_filter, !elem_of_map_to_list, map_lookup_filter_Some.
    naive_solver.
Qed.

(** ** Sums over maps *)

Section sum_map.
Context `{Countable K} {V : Type}.
Implicit Types (f g : K → V → nat) (m : gmap K V).

Definition sum_map f m : nat := sum_list_with (λ kv, f kv.1 kv.2) (map_to_list m).

Lemma sum_map_insert f m k v : sum_map f (<[k := v]> m) = f k v + sum_map f (delete k m).
Proof.
  unfold sum_map. rewrite <- insert_delete_eq.
  by rewrite map_to_list_insert by apply lookup_delete_eq.
Qed.

Lemma sum_map_delete f m k v : m !! k = Some v → sum_map f m = f k v + sum_map f (delete k m).
Proof. intros Hk. rewrite <- sum_map_insert. by rewrite insert_id. Qed.

Lemma sum_map_le f g m :
  (∀ k v, m !! k = Some v → f k v <= g k v) → sum_map f m <= sum_map g m.
Proof.
  intros Hle. unfold sum_map.
  assert (∀ kv, kv ∈ map_to_list m → f kv.1 kv.2 <= g kv.1 kv.2) as Hl.
  { intros [k v]. rewrite elem_of_map_to_list. apply Hle. }
  revert Hl. generalize (map_to_list m) as l. induction l as [|kv l IH]; intros Hl; simpl; [done|].
  apply Nat.add_le_mono; [apply Hl; by left|apply IH; intros ??; apply Hl; by right].
Qed.

Lemma sum_map_add f g m : sum_map (λ k v, f k v + g k v) m = sum_map f m + sum_map g m.
Proof. unfold sum_map. induction (map_to_list m) as [|kv l IH]; simpl; lia. Qed.
End sum_map.

(** ** Iteration order of [HashMap] and [HashSet] *)

Class HashOrder := {
  map_iter `{Countable K} {V} : gmap K V → list (K * V);
  set_iter : gset string → list string;
}.

Class HashOrderSpec (H : HashOrder) : Prop := {
  map_iter_perm `{Countable K} {V} (m : gmap K V) : map_iter m ≡ₚ map_to_list m;
  set_iter_perm (s : gset string) : set_iter s ≡ₚ elements s;
}.

(** One order that satisfies the specification, for concrete inputs. *)
Definition key_order : HashOrder :=
  {| map_iter K _ _ V m := map_to_list m; set_iter s := elements s |}.

Lemma key_order_spec : HashOrderSpec key_order.
Proof. by split. Qed.

Section mapM_outcome.
Context {A B : Type} (f : A → outcome B).

Lemma mapM_outcome_fmap (h : A → B) l :
  (∀ a, a ∈ l → f a = Ret (h a)) → mapM f l = Ret (h <$> l).
Proof.
  induction l as [|a l IH]; intros Hf; [done|]. simpl.
  rewrite Hf by by left. simpl. rewrite IH; [done|].
  intros ??. apply Hf. by right.
Qed.
End mapM_outcome.

(** ** Strings *)

Lemma prefix_append s1 s2 : String.prefix s1 s2 = true ↔ ∃ t, s2 = s1 +:+ t.
Proof.
  revert s2. induction s1 as [|a s1 IH]; intros s2.
  - split; [intros _; by exists s2|by destruct s2].
  - destruct s2 as [|b s2]; cbn [String.prefix]; [split; [done|by intros [??]]|].
    destruct (Ascii.ascii_dec a b) as [->|Hne].
    + rewrite IH. split; intros [t Ht]; exists t; [by rewrite Ht|by injection Ht].
    + split; [done|]. intros [t [= <- _]]. done.
Qed.
