(* ===== verification/Proto.v ===== *)
(** * Wire messages of stric-flow

    The Rust types that prost generates from [stric-flow/proto/stric_flow.proto].
    [uint32] and [uint64] fields are [N], enumeration fields are [Z] (prost
    stores them as [i32]), [map<string, _>] fields are [gmap string _], a
    [oneof] is an inductive type under an [option]. *)
From S2P Require Import Prelude.
From stdpp Require Import options.

Abbreviation bytes := (list Byte.byte).

(** ** Enumerations, as their [i32] discriminants *)

Definition CODEC_PROTOBUF : Z := 0.
Definition CODEC_JSON : Z := 1.
Definition CODEC_BINCODE : Z := 2.
Definition CODEC_RAW : Z := 3.
Definition DELIVERY_GUARANTEED : Z := 0.
Definition NODE_ROLE_FLOW : Z := 0.
Definition NODE_ROLE_AGGREGATOR : Z := 1.
Definition IDENTITY_TLS_DERIVED : Z := 0.
Definition SUBSCRIBE : Z := 0.
Definition UNSUBSCRIBE : Z := 1.
Definition PAUSE : Z := 0.
Definition RESUME : Z := 1.
Definition THROTTLE : Z := 2.
Definition SNAPSHOT : Z := 0.
Definition DIFF : Z := 1.

(** ** Data plane *)

Record ForwardingTargets := mkForwardingTargets { send_to : list string }.

Record RoutingHeader := mkRoutingHeader {
  rh_source_node_id : string;
  rh_flow_id : string;
  rh_topic_id : string;
  rh_session_id : string;
  rh_nonce : string;
  rh_timestamp : N;
  rh_deadline : N;
  rh_delivery_mode : Z;
  rh_forwarding_table : gmap string ForwardingTargets;
}.

Record Envelope := mkEnvelope {
  env_header : option RoutingHeader;
  env_message_type : string;
  env_codec : Z;
  env_payload : bytes;
}.

(** ** Heartbeats, handshake and identity *)

Record Ping := mkPing { ping_at : N }.

Record Pong := mkPong { ping_sent_at : N; pong_sent_at : N }.

Record FlowHandshake := mkFlowHandshake {
  hs_protocol_version : N;
  hs_node_id : string;
  hs_role : Z;
  hs_capabilities : gmap string string;
  hs_supported_codecs : list string;
  hs_subscribed_topics : list string;
  hs_identity_mode : Z;
}.

Record HandshakeAck := mkHandshakeAck {
  accepted : bool;
  reject_reason : string;
  ack_protocol_version : N;
}.

Record IdentityChallenge := mkIdentityChallenge { challenge_nonce : bytes }.

Record IdentityProof := mkIdentityProof {
  ip_node_id : string;
  ip_signature : bytes;
  ip_public_key : bytes;
}.

(** ** Topology and subscriptions *)

Record NodeDescriptor := mkNodeDescriptor {
  nd_node_id : string;
  nd_role : Z;
  nd_capabilities : gmap string string;
  nd_last_seen : N;
}.

Record LinkDescriptor := mkLinkDescriptor {
  node_a : string;
  node_b : string;
  ld_hop_cost : N;
  ld_rtt_micros : N;
}.

Record LinkRemoved := mkLinkRemoved { lr_node_a : string; lr_node_b : string }.

Record TopologyUpdate := mkTopologyUpdate {
  origin_node_id : string;
  tu_epoch : N;
  nodes_added : list NodeDescriptor;
  nodes_removed : list string;
  links_added : list LinkDescriptor;
  links_removed : list LinkRemoved;
}.

Record SubscriptionEntry := mkSubscriptionEntry {
  se_flow_id : string;
  se_pattern : string;
  se_action : Z;
}.

Record SubscriptionUpdate := mkSubscriptionUpdate {
  su_node_id : string;
  su_entries : list SubscriptionEntry;
  su_epoch : N;
}.

(** ** Backpressure and sessions *)

Record BackpressureSignal := mkBackpressureSignal {
  bp_flow_id : string;
  bp_topic_id : string;
  bp_action : Z;
  bp_max_rate : N;
}.

Record SessionCreate := mkSessionCreate {
  sc_session_id : string;
  sc_creator_node : string;
  sc_flow_ids : list string;
  sc_created_at : N;
  sc_metadata : gmap string string;
}.

Record SessionJoin := mkSessionJoin { sj_session_id : string; sj_node_id : string }.

Record SessionLeave := mkSessionLeave { sl_session_id : string; sl_node_id : string }.

Record SessionClose := mkSessionClose {
  scl_session_id : string;
  closed_by : string;
  reason : string;
}.

Record SessionStateSync := mkSessionStateSync {
  ss_session_id : string;
  ss_sender : string;
  ss_mode : Z;
  ss_timestamp : N;
  ss_version : N;
  ss_data : bytes;
  ss_codec : Z;
}.

Inductive SessionControlMessage :=
| Create (create : SessionCreate)
| Join (join : SessionJoin)
| Leave (leave : SessionLeave)
| Close (close : SessionClose)
| StateSync (state_sync : SessionStateSync).

Record SessionControl := mkSessionControl {
  session_message : option SessionControlMessage
}.

(** ** The control stream's envelope *)

Inductive ControlPayload :=
| MHandshake (h : FlowHandshake)
| MHandshakeAck (a : HandshakeAck)
| MIdentityProof (p : IdentityProof)
| MIdentityChallenge (c : IdentityChallenge)
| MTopologyUpdate (u : TopologyUpdate)
| MSubscriptionUpdate (u : SubscriptionUpdate)
| MBackpressure (s : BackpressureSignal)
| MSessionControl (s : SessionControl)
| MPing (p : Ping)
| MPong (p : Pong).

Record ControlMessage := mkControlMessage { message : option ControlPayload }.
