(* ===== verification/Topic.v ===== *)
(** * Topic patterns

    [match_topic] of [stric-flow/src/routing.rs], with the [str::split] it
    calls.  [match_topic_spec] proves it equivalent to an inductive reading of
    the pattern language ([*] one level, [#] everything that remains). *)
From S2P Require Import Prelude.
From stdpp Require Import options.
From Stdlib Require Import Ascii.

Definition dot : ascii := "."%char.

(** [s.split('.')]: at least one part, and an empty part between two dots. *)
Fixpoint split_dot (s : string) : list string :=
  match s with
  | EmptyString => [EmptyString]
  | String c s' =>
      if decide (c = dot) then EmptyString :: split_dot s'
      else match split_dot s' with
           | [] => [String c EmptyString]
           | part :: parts => String c part :: parts
           end
  end.

(** The loop of [match_topic]: [p_parts] is what is left of the pattern from
    [p_idx] on, [t_idx] the index into the topic's parts. *)
Fixpoint match_parts (p_parts t_parts : list string) (t_idx : nat) : bool :=
  match p_parts with
  | [] => bool_decide (t_idx = length t_parts)
  | p_part :: p_rest =>
      if decide (p_part = "#") then true
      else match t_parts !! t_idx with
           | None => false
           | Some t_part =>
               if decide (p_part = "*") then match_parts p_rest t_parts (S t_idx)
               else if decide (p_part ≠ t_part) then false
               else match_parts p_rest t_parts (S t_idx)
           end
  end.

Definition match_topic (pattern topic : string) : bool :=
  match_parts (split_dot pattern) (split_dot topic) 0.

(** ** The pattern language *)

Inductive matches : list string → list string → Prop :=
| matches_nil : matches [] []
| matches_hash p t : matches ("#" :: p) t
| matches_star x p t : matches p t → matches ("*" :: p) (x :: t)
| matches_part x p t : matches p t → matches (x :: p) (x :: t).

Fixpoint join_dot (parts : list string) : string :=
  match parts with
  | [] => EmptyString
  | [part] => part
  | part :: parts => part +:+ String dot (join_dot parts)
  end.

Definition literal (pattern : string) : Prop :=
  ("#" ∉ split_dot pattern) ∧ ("*" ∉ split_dot pattern).

Global Instance literal_dec pattern : Decision (literal pattern).
Proof. unfold literal. apply _. Defined.

(** ** Lemmas *)

Lemma split_dot_ne s : split_dot s ≠ [].
Proof.
  destruct s as [|c s]; simpl; [done|].
  case_decide; [done|]. by destruct (split_dot s).
Qed.

Lemma join_split s : join_dot (split_dot s) = s.
Proof.
  induction s as [|c s IH]; simpl; [done|]. case_decide.
  - destruct (split_dot s) eqn:E; [by apply split_dot_ne in E|].
    subst c. simpl in *. by rewrite IH.
  - destruct (split_dot s) as [|part parts] eqn:E; [by apply split_dot_ne in E|].
    destruct parts; simpl in *; by rewrite <- IH.
Qed.

Global Instance split_dot_inj : Inj (=) (=) split_dot.
Proof. intros s t H. by rewrite <- (join_split s), <- (join_split t), H. Qed.

Lemma match_parts_spec p ts i :
  i ≤ length ts → match_parts p ts i = true ↔ matches p (drop i ts).
Proof.
  revert i. induction p as [|x p IH]; intros i Hi; simpl.
  - rewrite bool_decide_eq_true. split.
    + intros ->. rewrite drop_all. constructor.
    + intros H. assert (length (drop i ts) = 0) as Hl by by inversion H.
      rewrite length_drop in Hl. lia.
  - destruct (decide (x = "#")) as [->|Hh]; [split; [constructor|done]|].
    destruct (ts !! i) as [y|] eqn:E.
    + rewrite (drop_S ts y i) by done.
      assert (S i ≤ length ts) by (apply lookup_lt_Some in E; lia).
      destruct (decide (x = "*")) as [->|Hs].
      { rewrite IH by done. split; [by constructor|].
        by inversion 1; subst. }
      destruct (decide (x ≠ y)) as [Hn|He].
      { split; [done|]. inversion 1; subst; done. }
      rewrite IH by done.
      assert (x = y) as -> by (destruct (decide (x = y)); tauto).
      split; [by constructor|]. by inversion 1; subst.
    + apply lookup_ge_None in E. rewrite drop_ge by done.
      split; [done|]. by inversion 1.
Qed.

Lemma matches_literal p t :
  "#" ∉ p → "*" ∉ p → matches p t ↔ p = t.
Proof.
  intros Hh Hs. split.
  - induction 1; set_solver.
  - intros <-. clear Hh Hs. induction p; by constructor.
Qed.

(** ** Properties *)

(** The multi-level example of RFC 2026-0005 matches only when it is written with a dot. *)
Lemma slash_is_no_separator :
  match_topic "sensor/#" "sensor.temperature.celsius" = false ∧
  match_topic "sensor.#" "sensor.temperature.celsius" = true.
Proof. split; vm_compute; reflexivity. Qed.

(** C12. [match_topic] accepts exactly the topics the pattern language allows:
    part by part, [*] for any one level, [#] for all that remains, any other part
    for itself.  Only [.] separates parts: with a slash, as in the example [sensor/#] of RFC
    2026-0005, a pattern is one literal part ([slash_is_no_separator]). *)
Theorem match_topic_spec pattern topic :
  match_topic pattern topic = true ↔ matches (split_dot pattern) (split_dot topic).
Proof. unfold match_topic. rewrite match_parts_spec by lia. by rewrite drop_0. Qed.

(** A pattern without wildcard parts matches exactly the topic spelled
    like it. *)
Lemma match_topic_literal pattern topic :
  literal pattern → match_topic pattern topic = true ↔ pattern = topic.
Proof.
  intros [Hh Hs]. unfold match_topic. rewrite match_parts_spec by lia.
  rewrite drop_0, matches_literal by done. split; [apply (inj _)|by intros ->].
Qed.

Lemma match_topic_literal_witness :
  literal "a.b" ∧ (match_topic "a.b" "a.b" = true ↔ "a.b" = "a.b").
Proof.
  assert (literal "a.b") as H
    by (apply (bool_decide_unpack (literal "a.b")); vm_compute; exact I).
  split; [done|]. by apply (match_topic_literal "a.b" "a.b").
Defined.
