(* ===== verification/Graph.v ===== *)
(** * The mesh graph

    [GlobalGraph] of [stric-flow/src/routing.rs] over petgraph's interface, with the
    laws of petgraph the code relies on; the mesh by node names, which is the
    specification; and a graph on lists that satisfies the laws. *)
From S2P Require Import Prelude Proto.
From stdpp Require Import options.

Record LinkWeight := mkLinkWeight { hop_cost : N; rtt_micros : N }.

(** ** petgraph's [DiGraph] *)

Class PetGraph (V E : Type) := {
  pgraph : Type;
  pg_new : pgraph;
  pg_node_weights : pgraph → list V;
  pg_raw_edges : pgraph → list (nat * nat * E);
  pg_add_node : V → pgraph → pgraph * nat;
  pg_remove_node : nat → pgraph → pgraph;
  pg_find_edge : nat → nat → pgraph → option nat;
  pg_remove_edge : nat → pgraph → pgraph;
  pg_update_edge : nat → nat → E → pgraph → pgraph;
  pg_edges : nat → pgraph → list (nat * nat * E);
}.

Definition edge_ends {E} (e : nat * nat * E) : nat * nat := e.1.

Definition adopt (last i x : nat) : nat := if decide (x = last) then i else x.

Definition adopt_edge {E} (last i : nat) (e : nat * nat * E) : nat * nat * E :=
  (adopt last i e.1.1, adopt last i e.1.2, e.2).

Definition swap_remove {A} (i : nat) (l : list A) : list A :=
  match last l with
  | Some x => take (length l - 1) (<[i := x]> l)
  | None => []
  end.

Class PetGraphSpec {V E} (PG : PetGraph V E) : Prop := {
  pg_new_nodes : pg_node_weights pg_new = [];
  pg_new_edges : pg_raw_edges pg_new = [];
  pg_add_node_spec v g :
    pg_node_weights (pg_add_node v g).1 = pg_node_weights g ++ [v] ∧
    pg_raw_edges (pg_add_node v g).1 ≡ₚ pg_raw_edges g ∧
    (pg_add_node v g).2 = length (pg_node_weights g);
  pg_remove_node_spec i g :
    i < length (pg_node_weights g) →
    pg_node_weights (pg_remove_node i g) = swap_remove i (pg_node_weights g) ∧
    pg_raw_edges (pg_remove_node i g) ≡ₚ
      adopt_edge (length (pg_node_weights g) - 1) i <$>
        filter (λ e, e.1.1 ≠ i ∧ e.1.2 ≠ i) (pg_raw_edges g);
  pg_find_edge_Some a b g e :
    pg_find_edge a b g = Some e → edge_ends <$> pg_raw_edges g !! e = Some (a, b);
  pg_find_edge_None a b g :
    pg_find_edge a b g = None → (a, b) ∉ edge_ends <$> pg_raw_edges g;
  pg_remove_edge_spec e g :
    e < length (pg_raw_edges g) →
    pg_node_weights (pg_remove_edge e g) = pg_node_weights g ∧
    pg_raw_edges (pg_remove_edge e g) ≡ₚ delete e (pg_raw_edges g);
  pg_update_edge_spec a b w g :
    a < length (pg_node_weights g) → b < length (pg_node_weights g) →
    pg_node_weights (pg_update_edge a b w g) = pg_node_weights g ∧
    pg_raw_edges (pg_update_edge a b w g) ≡ₚ
      match pg_find_edge a b g with
      | Some e => <[e := (a, b, w)]> (pg_raw_edges g)
      | None => (a, b, w) :: pg_raw_edges g
      end;
  pg_edges_spec a g :
    pg_edges a g ≡ₚ filter (λ e, e.1.1 = a) (pg_raw_edges g);
}.

Section global_graph.
Context `{PG : PetGraph string LinkWeight}.

(** ** [GlobalGraph] *)

Record GlobalGraph := mkGlobalGraph {
  graph : pgraph;
  node_indices : gmap string nat;
  node_metadata : gmap string NodeDescriptor;
}.

(** [GlobalGraph::new]. *)
Definition new_graph : GlobalGraph := mkGlobalGraph pg_new ∅ ∅.

Definition add_node (descriptor : NodeDescriptor) (g : GlobalGraph) : GlobalGraph :=
  let node_id := nd_node_id descriptor in
  let g :=
    match node_indices g !! node_id with
    | None =>
        let '(gr, idx) := pg_add_node node_id (graph g) in
        mkGlobalGraph gr (<[node_id := idx]> (node_indices g)) (node_metadata g)
    | Some _ => g
    end in
  mkGlobalGraph (graph g) (node_indices g)
    (<[node_id := descriptor]> (node_metadata g)).

(** The [for node_idx in self.graph.node_indices()] loop of [remove_node]. *)
Definition reindex (gr : pgraph) : gmap string nat :=
  foldl (λ m '(node_idx, name), <[name := node_idx]> m) ∅
    (imap pair (pg_node_weights gr)).

Definition remove_node (node_id : string) (g : GlobalGraph) : GlobalGraph :=
  match node_indices g !! node_id with
  | Some idx =>
      let gr := pg_remove_node idx (graph g) in
      mkGlobalGraph gr (reindex gr) (delete node_id (node_metadata g))
  | None => g
  end.

(** [node_indices.entry(name).or_insert_with(|| graph.add_node(name))]. *)
Definition entry_or_add (name : string) (g : GlobalGraph) : GlobalGraph * nat :=
  match node_indices g !! name with
  | Some idx => (g, idx)
  | None =>
      let '(gr, idx) := pg_add_node name (graph g) in
      (mkGlobalGraph gr (<[name := idx]> (node_indices g)) (node_metadata g), idx)
  end.

(** [Graph::update_edge] panics when an endpoint does not exist. *)
Definition update_edge (a b : nat) (w : LinkWeight) (gr : pgraph) : outcome pgraph :=
  if decide (a < length (pg_node_weights gr) ∧ b < length (pg_node_weights gr))
  then Ret (pg_update_edge a b w gr) else Panic.

Definition add_link (link : LinkDescriptor) (g : GlobalGraph) : outcome GlobalGraph :=
  let '(g, idx_a) := entry_or_add (node_a link) g in
  let '(g, idx_b) := entry_or_add (node_b link) g in
  let weight := mkLinkWeight (ld_hop_cost link) (ld_rtt_micros link) in
  gr ← update_edge idx_a idx_b weight (graph g);
  gr ← update_edge idx_b idx_a weight gr;
  Ret (mkGlobalGraph gr (node_indices g) (node_metadata g)).

(** [if let Some(edge) = graph.find_edge(a, b) { graph.remove_edge(edge); }] *)
Definition remove_edge_between (a b : nat) (gr : pgraph) : pgraph :=
  match pg_find_edge a b gr with
  | Some edge => pg_remove_edge edge gr
  | None => gr
  end.

Definition remove_link (a b : string) (g : GlobalGraph) : GlobalGraph :=
  match node_indices g !! a, node_indices g !! b with
  | Some idx_a, Some idx_b =>
      let gr := remove_edge_between idx_a idx_b (graph g) in
      let gr := remove_edge_between idx_b idx_a gr in
      mkGlobalGraph gr (node_indices g) (node_metadata g)
  | _, _ => g
  end.

Definition apply_update (update : TopologyUpdate) (g : GlobalGraph) : outcome GlobalGraph :=
  let g := foldl (λ g node, add_node node g) g (nodes_added update) in
  let g := foldl (λ g node_id, remove_node node_id g) g (nodes_removed update) in
  g ← foldM (λ g link, add_link link g) g (links_added update);
  Ret (foldl (λ g lr, remove_link (lr_node_a lr) (lr_node_b lr) g) g
         (links_removed update)).

(** [self.graph[idx]]: panics for an index with no node. *)
Definition graph_index (gr : pgraph) (i : nat) : outcome string :=
  match pg_node_weights gr !! i with
  | Some x => Ret x
  | None => Panic
  end.

Definition get_descriptors `{HashOrder} (g : GlobalGraph) :
    outcome (list NodeDescriptor * list LinkDescriptor) :=
  links ← mapM (λ edge : nat * nat * LinkWeight,
    u ← graph_index (graph g) edge.1.1;
    v ← graph_index (graph g) edge.1.2;
    Ret (mkLinkDescriptor u v (hop_cost edge.2) (rtt_micros edge.2)))
    (pg_raw_edges (graph g));
  Ret ((map_iter (node_metadata g)).*2, links).

(** ** The graph by names *)

Definition nodes (g : GlobalGraph) : list string := pg_node_weights (graph g).

Definition name (g : GlobalGraph) (i : nat) : string := default EmptyString (nodes g !! i).

Definition named_edge (g : GlobalGraph) (e : nat * nat * LinkWeight) :
    string * string * LinkWeight :=
  (name g e.1.1, name g e.1.2, e.2).

Definition named (g : GlobalGraph) : list (string * string * LinkWeight) :=
  named_edge g <$> pg_raw_edges (graph g).

Record wf (g : GlobalGraph) : Prop := {
  wf_index x i : node_indices g !! x = Some i ↔ nodes g !! i = Some x;
  wf_range e : e ∈ pg_raw_edges (graph g) →
    e.1.1 < length (nodes g) ∧ e.1.2 < length (nodes g);
  wf_simple : NoDup (named g).*1;
  wf_meta : dom (node_metadata g) ⊆ dom (node_indices g);
  wf_meta_id x d : node_metadata g !! x = Some d → nd_node_id d = x;
}.

Definition links (g : GlobalGraph) : gmap (string * string) LinkWeight :=
  list_to_map (named g).

(** The specification: a set of names, a map of directed links, the metadata. *)
Record Mesh := mkMesh {
  mesh_nodes : gset string;
  mesh_links : gmap (string * string) LinkWeight;
  mesh_meta : gmap string NodeDescriptor;
}.

Definition abs (g : GlobalGraph) : Mesh :=
  mkMesh (dom (node_indices g)) (links g) (node_metadata g).
End global_graph.

Definition mesh_add_node (d : NodeDescriptor) (m : Mesh) : Mesh :=
  mkMesh ({[nd_node_id d]} ∪ mesh_nodes m) (mesh_links m)
    (<[nd_node_id d := d]> (mesh_meta m)).

Definition mesh_remove_node (x : string) (m : Mesh) : Mesh :=
  mkMesh (mesh_nodes m ∖ {[x]})
    (filter (λ kv, kv.1.1 ≠ x ∧ kv.1.2 ≠ x) (mesh_links m))
    (delete x (mesh_meta m)).

Definition mesh_add_link (l : LinkDescriptor) (m : Mesh) : Mesh :=
  let w := mkLinkWeight (ld_hop_cost l) (ld_rtt_micros l) in
  mkMesh ({[node_a l; node_b l]} ∪ mesh_nodes m)
    (<[(node_b l, node_a l) := w]> (<[(node_a l, node_b l) := w]> (mesh_links m)))
    (mesh_meta m).

Definition mesh_remove_link (a b : string) (m : Mesh) : Mesh :=
  mkMesh (mesh_nodes m) (delete (b, a) (delete (a, b) (mesh_links m))) (mesh_meta m).

Definition mesh_apply_update (u : TopologyUpdate) (m : Mesh) : Mesh :=
  let m := foldl (λ m d, mesh_add_node d m) m (nodes_added u) in
  let m := foldl (λ m x, mesh_remove_node x m) m (nodes_removed u) in
  let m := foldl (λ m l, mesh_add_link l m) m (links_added u) in
  foldl (λ m lr, mesh_remove_link (lr_node_a lr) (lr_node_b lr) m) m (links_removed u).

(** Both directions of a peer link carry the same weight. *)
Definition symmetric (m : Mesh) : Prop :=
  ∀ a b, mesh_links m !! (a, b) = mesh_links m !! (b, a).

Definition ends (m : Mesh) : gset string :=
  set_map fst (dom (mesh_links m)) ∪ set_map snd (dom (mesh_links m)).

(** ** A reference [PetGraph], for concrete inputs *)

Record list_graph (V E : Type) := mkListGraph {
  lg_nodes : list V;
  lg_edges : list (nat * nat * E);
}.
Arguments mkListGraph {V E} _ _.
Arguments lg_nodes {V E} _.
Arguments lg_edges {V E} _.

Definition list_find_edge {V E} (a b : nat) (g : list_graph V E) : option nat :=
  fst <$> list_find (λ e, edge_ends e = (a, b)) (lg_edges g).

Definition list_petgraph (V E : Type) : PetGraph V E := {|
  pgraph := list_graph V E;
  pg_new := mkListGraph [] [];
  pg_node_weights := lg_nodes;
  pg_raw_edges := lg_edges;
  pg_add_node v g := (mkListGraph (lg_nodes g ++ [v]) (lg_edges g), length (lg_nodes g));
  pg_remove_node i g :=
    if decide (i < length (lg_nodes g)) then
      mkListGraph (swap_remove i (lg_nodes g))
        (adopt_edge (length (lg_nodes g) - 1) i <$>
           filter (λ e, e.1.1 ≠ i ∧ e.1.2 ≠ i) (lg_edges g))
    else g;
  pg_find_edge := list_find_edge;
  pg_remove_edge e g := mkListGraph (lg_nodes g) (delete e (lg_edges g));
  pg_update_edge a b w g :=
    mkListGraph (lg_nodes g)
      match list_find_edge a b g with
      | Some e => <[e := (a, b, w)]> (lg_edges g)
      | None => (a, b, w) :: lg_edges g
      end;
  pg_edges a g := filter (λ e, e.1.1 = a) (lg_edges g);
|}.

(** The topology of the unit test [test_dijkstra_routing_tree]. *)
Definition flow_node (x : string) : NodeDescriptor := mkNodeDescriptor x NODE_ROLE_FLOW ∅ 0.

Definition unit_link (a b : string) : LinkDescriptor := mkLinkDescriptor a b 1 0.

Definition sample_update : TopologyUpdate :=
  mkTopologyUpdate "A" 1 (flow_node <$> ["A"; "B"; "C"; "D"]) []
    [unit_link "A" "B"; unit_link "B" "C"; unit_link "B" "D"] [].
