(* ===== verification/GraphFacts.v ===== *)
(** * Facts about the mesh graph

    The invariant of [GlobalGraph] (the index map and petgraph agree, and no link is
    doubled), and that every operation keeps it and refines the mesh by node names. *)
From S2P Require Import Prelude Proto Graph.
From stdpp Require Import options.

(** ** Lemmas *)

Lemma swap_remove_length {A} i (l : list A) : length (swap_remove i l) = length l - 1.
Proof.
  unfold swap_remove. destruct (last l) eqn:E.
  - rewrite length_take, length_insert. lia.
  - by apply last_None in E as ->.
Qed.

Lemma swap_remove_lookup {A} i (l : list A) x :
  x ≠ i → x < length l → i < length l →
  swap_remove i l !! adopt (length l - 1) i x = l !! x.
Proof.
  intros Hne Hx Hi. unfold swap_remove, adopt.
  destruct (last l) as [y|] eqn:E; [|apply last_None in E; subst; simpl in *; lia].
  rewrite last_lookup in E.
  case_decide.
  - rewrite lookup_take_lt by lia. rewrite list_lookup_insert_eq by lia.
    rewrite <- E. f_equal. lia.
  - rewrite lookup_take_lt by lia. by rewrite list_lookup_insert_ne.
Qed.

Lemma swap_remove_lookup_inv {A} i (l : list A) x y :
  i < length l → swap_remove i l !! x = Some y →
  x < length l - 1 ∧ l !! (if decide (x = i) then length l - 1 else x) = Some y.
Proof.
  intros Hi Hx. assert (Hlt := lookup_lt_Some _ _ _ Hx).
  rewrite swap_remove_length in Hlt. split; [done|]. case_decide as Heq.
  - pose proof (swap_remove_lookup i l (length l - 1)) as H.
    unfold adopt in H. rewrite decide_True in H by done. subst x.
    by rewrite <- H by lia.
  - pose proof (swap_remove_lookup i l x) as H. unfold adopt in H.
    rewrite decide_False in H by lia. by rewrite <- H by lia.
Qed.

Lemma elem_of_swap_remove {A} i (l : list A) y :
  NoDup l → i < length l → y ∈ swap_remove i l ↔ y ∈ l ∧ l !! i ≠ Some y.
Proof.
  intros Hnd Hi. rewrite !list_elem_of_lookup. split.
  - intros [x [Hlt Hx]%swap_remove_lookup_inv]; [|done]. split; [eauto|].
    intros H'. pose proof (NoDup_lookup _ _ _ _ Hnd Hx H'). case_decide; lia.
  - intros [[x Hx] Hni]. exists (adopt (length l - 1) i x).
    rewrite swap_remove_lookup; [done| |by apply lookup_lt_Some in Hx|done].
    intros ->. done.
Qed.

Lemma swap_remove_NoDup {A} i (l : list A) :
  NoDup l → i < length l → NoDup (swap_remove i l).
Proof.
  intros Hnd Hi. apply NoDup_lookup_inj.
  intros x y z [Hlx Hx]%swap_remove_lookup_inv [Hly Hy]%swap_remove_lookup_inv; try done.
  pose proof (NoDup_lookup _ _ _ _ Hnd Hx Hy). repeat case_decide; lia.
Qed.

Lemma list_to_map_filter_ends {V} (x : string) (l : list (string * string * V)) :
  NoDup l.*1 →
  list_to_map (filter (λ e, e.1.1 ≠ x ∧ e.1.2 ≠ x) l) =@{gmap (string * string) V}
    filter (λ kv, kv.1.1 ≠ x ∧ kv.1.2 ≠ x) (list_to_map l).
Proof.
  intros Hnd. induction l as [|[k v] l IH]; simpl.
  - by rewrite map_filter_empty.
  - inversion Hnd; subst.
    destruct (decide (k.1 ≠ x ∧ k.2 ≠ x)) as [Hk|Hk].
    + rewrite filter_cons_True by done. simpl. rewrite IH by done.
      by rewrite map_filter_insert_True.
    + rewrite filter_cons_False by done. rewrite IH by done.
      rewrite map_filter_insert_False by done.
      rewrite delete_id; [done|]. by apply not_elem_of_list_to_map_1.
Qed.

(** ** Well-formedness *)

Section facts.
#[local] Set Default Proof Using "Type*".
Context `{PS : PetGraphSpec string LinkWeight}.
Implicit Types g : GlobalGraph.

Lemma wf_nodes_NoDup g : wf g → NoDup (nodes g).
Proof.
  intros Hwf. apply NoDup_lookup_inj. intros i j x Hi Hj.
  apply (wf_index g Hwf) in Hi, Hj. congruence.
Qed.

Lemma name_Some g i x : nodes g !! i = Some x → name g i = x.
Proof. unfold name. by intros ->. Qed.

Lemma index_lt g x i : wf g → node_indices g !! x = Some i → i < length (nodes g).
Proof. intros Hwf Hi. by apply (wf_index g Hwf), lookup_lt_Some in Hi. Qed.

Lemma name_index g i : wf g → i < length (nodes g) → node_indices g !! name g i = Some i.
Proof.
  intros Hwf [x Hx]%lookup_lt_is_Some. apply (wf_index g Hwf).
  by rewrite (name_Some _ _ _ Hx).
Qed.

Lemma name_inj g i j :
  wf g → i < length (nodes g) → j < length (nodes g) → name g i = name g j → i = j.
Proof.
  intros Hwf Hi Hj He. apply (name_index g) in Hi, Hj; try done. congruence.
Qed.

Lemma elem_of_nodes g x : wf g → x ∈ dom (node_indices g) ↔ x ∈ nodes g.
Proof.
  intros Hwf. rewrite elem_of_dom, list_elem_of_lookup. split.
  - intros [i Hi]. exists i. by apply (wf_index g Hwf).
  - intros [i Hi]. exists i. by apply (wf_index g Hwf).
Qed.

(** Membership in the link map, by indices. *)
Lemma links_edge g i j w :
  wf g → i < length (nodes g) → j < length (nodes g) →
  links g !! (name g i, name g j) = Some w ↔ (i, j, w) ∈ pg_raw_edges (graph g).
Proof.
  intros Hwf Hi Hj. unfold links.
  rewrite <- elem_of_list_to_map by apply (wf_simple g Hwf).
  unfold named. rewrite list_elem_of_fmap. split.
  - intros ([[i' j'] w'] & [= Hni Hnj ->] & He).
    destruct (wf_range g Hwf _ He) as [Hi' Hj']. simpl in *.
    apply name_inj in Hni, Hnj; try done. by subst.
  - intros He. by exists (i, j, w).
Qed.

Lemma links_nodes g a b w :
  wf g → links g !! (a, b) = Some w →
  ∃ i j, node_indices g !! a = Some i ∧ node_indices g !! b = Some j ∧
         (i, j, w) ∈ pg_raw_edges (graph g).
Proof.
  intros Hwf Hl. unfold links in Hl.
  rewrite <- elem_of_list_to_map in Hl by apply (wf_simple g Hwf).
  apply list_elem_of_fmap in Hl as ([[i j] w'] & [= -> -> ->] & He).
  destruct (wf_range g Hwf _ He). exists i, j. split_and!; [by apply name_index..|done].
Qed.

Lemma named_perm g g' :
  nodes g' = nodes g → pg_raw_edges (graph g') ≡ₚ pg_raw_edges (graph g) →
  named g' ≡ₚ named g.
Proof.
  intros Hn He. unfold named. rewrite He. by unfold named_edge, name; rewrite Hn.
Qed.

Lemma links_perm g g' :
  NoDup (named g).*1 → named g' ≡ₚ named g → links g' = links g.
Proof.
  intros Hnd Hp. unfold links. apply list_to_map_proper; [|done].
  by rewrite Hp.
Qed.

(** *** Adding a node *)

Lemma wf_fresh_node g x :
  wf g → node_indices g !! x = None →
  let '(gr, idx) := pg_add_node x (graph g) in
  let g' := mkGlobalGraph gr (<[x := idx]> (node_indices g)) (node_metadata g) in
  wf g' ∧ links g' = links g.
Proof.
  intros Hwf Hx. pose proof (pg_add_node_spec x (graph g)) as (Hn & He & Hi).
  destruct (pg_add_node x (graph g)) as [gr idx]. simpl in *. subst idx.
  set (g' := mkGlobalGraph _ _ _).
  assert (nodes g' = nodes g ++ [x]) as Hnodes by done.
  assert (named g' ≡ₚ named g) as Hnamed.
  { unfold named. simpl. rewrite He. apply reflexive_eq.
    apply list_fmap_ext. intros k e Hk. apply list_elem_of_lookup_2 in Hk.
    destruct (wf_range g Hwf _ Hk).
    unfold named_edge, name. by rewrite Hnodes, !lookup_app_l by done. }
  split; [|apply links_perm; [apply (wf_simple g Hwf)|done]].
  split.
  - intros y i. rewrite Hnodes. simpl. rewrite lookup_insert, lookup_snoc_Some.
    rewrite <- (wf_index g Hwf). case_decide.
    + subst y. split.
      * intros [= <-]. by right.
      * intros [[_ ?]|[-> _]]; [congruence|done].
    + split.
      * intros Hy. left. split; [|done]. by apply (index_lt g y).
      * intros [[_ ?]|[_ ?]]; [done|congruence].
  - intros e. simpl. rewrite He, Hnodes, length_app. intros Hk.
    destruct (wf_range g Hwf _ Hk). lia.
  - rewrite Hnamed. apply (wf_simple g Hwf).
  - simpl. rewrite dom_insert_L. pose proof (wf_meta g Hwf). set_solver.
  - apply (wf_meta_id g Hwf).
Qed.

Lemma wf_new : wf new_graph.
Proof.
  split; simpl; unfold named, nodes; simpl; rewrite ?pg_new_edges, ?pg_new_nodes.
  - intros x i. by rewrite lookup_empty, lookup_nil.
  - set_solver.
  - constructor.
  - set_solver.
  - intros x d. by rewrite lookup_empty.
Qed.

Lemma entry_or_add_spec g x :
  wf g →
  let '(g', i) := entry_or_add x g in
  wf g' ∧ node_indices g' !! x = Some i ∧ node_indices g ⊆ node_indices g' ∧
  dom (node_indices g') = {[x]} ∪ dom (node_indices g) ∧
  links g' = links g ∧ node_metadata g' = node_metadata g.
Proof.
  intros Hwf. unfold entry_or_add. destruct (node_indices g !! x) as [i|] eqn:E.
  - split_and!; try done. apply elem_of_dom_2 in E. set_solver.
  - pose proof (wf_fresh_node g x Hwf E) as H.
    destruct (pg_add_node x (graph g)) as [gr i]. destruct H as [Hwf' Hl].
    split_and!; simpl; try done.
    + by rewrite lookup_insert_eq.
    + by apply insert_subseteq.
    + by rewrite dom_insert_L.
Qed.

Lemma wf_set_meta g d :
  wf g → nd_node_id d ∈ dom (node_indices g) →
  wf (mkGlobalGraph (graph g) (node_indices g)
        (<[nd_node_id d := d]> (node_metadata g))).
Proof.
  intros [H1 H2 H3 H4 H5] Hd. split; try done; simpl.
  - rewrite dom_insert_L. set_solver.
  - intros x d'. rewrite lookup_insert. case_decide; [congruence|apply H5].
Qed.

Lemma add_node_refines g d :
  wf g → wf (add_node d g) ∧ abs (add_node d g) = mesh_add_node d (abs g).
Proof.
  intros Hwf. pose proof (entry_or_add_spec g (nd_node_id d) Hwf) as H.
  unfold add_node. unfold entry_or_add in H.
  destruct (node_indices g !! nd_node_id d) as [i|] eqn:E.
  - apply elem_of_dom_2 in E. split; [by apply wf_set_meta|].
    unfold abs, mesh_add_node. simpl. f_equal. set_solver.
  - destruct (pg_add_node _ _) as [gr i]. simpl in *.
    destruct H as (Hwf' & Hi & _ & Hdom & Hl & _).
    split.
    + apply (wf_set_meta _ d Hwf'). by apply elem_of_dom_2 in Hi.
    + unfold abs, mesh_add_node. simpl. f_equal; [done|].
      rewrite <- Hl. done.
Qed.

(** *** Updating and removing an edge *)

Lemma wf_edges g g' :
  wf g → nodes g' = nodes g → node_indices g' = node_indices g →
  node_metadata g' = node_metadata g →
  NoDup (named g').*1 →
  (∀ e, e ∈ pg_raw_edges (graph g') →
        e.1.1 < length (nodes g) ∧ e.1.2 < length (nodes g)) →
  wf g'.
Proof.
  intros Hwf Hn Hi Hm Hnd Hr. split.
  - intros x i. rewrite Hi, Hn. apply (wf_index g Hwf).
  - by rewrite Hn.
  - done.
  - rewrite Hi, Hm. apply (wf_meta g Hwf).
  - rewrite Hm. apply (wf_meta_id g Hwf).
Qed.

Definition set_graph (gr : pgraph) (g : GlobalGraph) : GlobalGraph :=
  mkGlobalGraph gr (node_indices g) (node_metadata g).

Lemma find_edge_split g i j e :
  pg_find_edge i j (graph g) = Some e →
  ∃ w, pg_raw_edges (graph g) !! e = Some (i, j, w).
Proof.
  intros H%pg_find_edge_Some.
  destruct (pg_raw_edges (graph g) !! e) as [[[i' j'] w]|]; [|done].
  injection H as -> ->. eauto.
Qed.

Lemma key_not_named g i j :
  wf g → i < length (nodes g) → j < length (nodes g) →
  pg_find_edge i j (graph g) = None → (name g i, name g j) ∉ (named g).*1.
Proof.
  intros Hwf Hi Hj Hf. apply pg_find_edge_None in Hf. intros Hin. apply Hf.
  apply list_elem_of_fmap in Hin as ([k w] & Hk & Hin). simpl in Hk. subst k.
  apply (elem_of_list_to_map (M := gmap (string * string))) in Hin;
    [|apply (wf_simple g Hwf)].
  apply links_edge in Hin; try done.
  by apply list_elem_of_fmap_2' with (x := (i, j, w)).
Qed.

Lemma set_graph_named g gr :
  pg_node_weights gr = nodes g →
  named (set_graph gr g) = named_edge g <$> pg_raw_edges gr.
Proof. intros Hn. unfold named, named_edge, name, nodes. simpl. by rewrite Hn. Qed.

Lemma update_edge_refines g i j w :
  wf g → i < length (nodes g) → j < length (nodes g) →
  ∃ gr, update_edge i j w (graph g) = Ret gr ∧
    wf (set_graph gr g) ∧ nodes (set_graph gr g) = nodes g ∧
    links (set_graph gr g) = <[(name g i, name g j) := w]> (links g).
Proof.
  intros Hwf Hi Hj. exists (pg_update_edge i j w (graph g)).
  unfold update_edge. rewrite decide_True by done. split; [done|].
  destruct (pg_update_edge_spec i j w (graph g) Hi Hj) as [Hn He].
  set (gr := pg_update_edge i j w (graph g)) in *.
  pose proof (set_graph_named g gr Hn) as Hnamed.
  pose proof (wf_simple g Hwf) as Hnd. unfold named in Hnd.
  assert (∃ R, pg_raw_edges gr ≡ₚ (i, j, w) :: R ∧
     ((∃ w0, pg_raw_edges (graph g) ≡ₚ (i, j, w0) :: R) ∨
      (pg_raw_edges (graph g) = R ∧ (name g i, name g j) ∉ (named g).*1)))
    as (R & HR & Hold).
  { destruct (pg_find_edge i j (graph g)) as [e|] eqn:E.
    - apply find_edge_split in E as [w0 E]. exists (delete e (pg_raw_edges (graph g))).
      rewrite He. split; [by eapply insert_Permutation|].
      left. exists w0. by apply delete_Permutation.
    - exists (pg_raw_edges (graph g)). rewrite He. split; [done|]. right.
      split; [done|]. by apply key_not_named. }
  assert (NoDup (named (set_graph gr g)).*1) as Hnd'.
  { rewrite Hnamed, HR. destruct Hold as [[w0 Hold]|[<- Hnot]].
    - by rewrite Hold in Hnd.
    - constructor; [done|]. by unfold named in Hnot. }
  assert (wf (set_graph gr g)) as Hwf'.
  { apply (wf_edges g); try done. simpl. intros e. rewrite HR.
    intros [->|Hin]%elem_of_cons; [done|]. apply (wf_range g Hwf).
    destruct Hold as [[w0 ->]|[-> _]]; [by right|done]. }
  split; [done|]. split; [done|].
  unfold links at 1. rewrite Hnamed in Hnd' |- *.
  rewrite (list_to_map_proper _ ((name g i, name g j, w) ::
    (named_edge g <$> R))); [|done|by rewrite HR].
  simpl. unfold links, named. destruct Hold as [[w0 Hold]|[-> _]]; [|done].
  rewrite (list_to_map_proper (named_edge g <$> pg_raw_edges (graph g))
    ((name g i, name g j, w0) :: (named_edge g <$> R))); [|done|by rewrite Hold].
  simpl. by rewrite insert_insert_eq.
Qed.

Lemma remove_edge_refines g i j :
  wf g → i < length (nodes g) → j < length (nodes g) →
  let gr := remove_edge_between i j (graph g) in
  wf (set_graph gr g) ∧ nodes (set_graph gr g) = nodes g ∧
  links (set_graph gr g) = delete (name g i, name g j) (links g).
Proof.
  intros Hwf Hi Hj gr. unfold gr, remove_edge_between. clear gr.
  destruct (pg_find_edge i j (graph g)) as [e|] eqn:E.
  2: { assert (set_graph (graph g) g = g) as -> by by destruct g.
       split_and!; try done. rewrite delete_id; [done|].
       apply not_elem_of_list_to_map_1. by apply key_not_named. }
  apply find_edge_split in E as [w E].
  destruct (pg_remove_edge_spec e (graph g)) as [Hn He];
    [by apply lookup_lt_Some in E|].
  set (gr := pg_remove_edge e (graph g)) in *.
  pose proof (set_graph_named g gr Hn) as Hnamed.
  pose proof (wf_simple g Hwf) as Hnd.
  assert (named g ≡ₚ (name g i, name g j, w) :: named (set_graph gr g)) as Hp.
  { unfold named at 1. rewrite (delete_Permutation _ _ _ E).
    rewrite Hnamed, He. done. }
  assert (NoDup (named (set_graph gr g)).*1 ∧
          (name g i, name g j) ∉ (named (set_graph gr g)).*1) as [Hnd' Hnot].
  { rewrite Hp in Hnd. by inversion Hnd. }
  split_and!; [|done|].
  - apply (wf_edges g); try done. simpl. intros e' Hin. apply (wf_range g Hwf).
    rewrite (delete_Permutation _ _ _ E). right. by rewrite <- He.
  - unfold links. rewrite (list_to_map_proper (named g) _ Hnd Hp). simpl.
    rewrite delete_insert_id; [done|]. by apply not_elem_of_list_to_map_1.
Qed.

(** *** Links *)

Lemma add_link_refines g l :
  wf g → ∃ g', add_link l g = Ret g' ∧ wf g' ∧ abs g' = mesh_add_link l (abs g).
Proof.
  intros Hwf. unfold add_link.
  pose proof (entry_or_add_spec g (node_a l) Hwf) as H.
  destruct (entry_or_add (node_a l) g) as [g1 i].
  destruct H as (Hwf1 & Hi & _ & Hd1 & Hl1 & Hm1).
  pose proof (entry_or_add_spec g1 (node_b l) Hwf1) as H.
  destruct (entry_or_add (node_b l) g1) as [g2 j].
  destruct H as (Hwf2 & Hj & Hsub & Hd2 & Hl2 & Hm2).
  eapply lookup_weaken in Hi; [|done].
  assert (name g2 i = node_a l) as Hni by by apply name_Some, (wf_index g2 Hwf2).
  assert (name g2 j = node_b l) as Hnj by by apply name_Some, (wf_index g2 Hwf2).
  apply (index_lt g2) in Hi, Hj; try done.
  set (w := mkLinkWeight _ _).
  destruct (update_edge_refines g2 i j w) as (gr & -> & Hwf3 & Hn3 & Hl3); try done.
  destruct (update_edge_refines (set_graph gr g2) j i w)
    as (gr' & Hu & Hwf4 & Hn4 & Hl4); [done|by rewrite Hn3..|].
  simpl in *. rewrite Hu. eexists. split; [done|]. split; [done|].
  unfold abs, mesh_add_link. simpl. fold w. f_equal.
  - rewrite Hd2, Hd1. set_solver.
  - etrans; [exact Hl4|]. rewrite Hl3, Hl2, Hl1. unfold name. rewrite Hn3. fold (name g2 i) (name g2 j).
    by rewrite Hni, Hnj.
  - by rewrite Hm2, Hm1.
Qed.

Lemma remove_link_refines g a b :
  wf g → wf (remove_link a b g) ∧ abs (remove_link a b g) = mesh_remove_link a b (abs g).
Proof.
  intros Hwf. unfold remove_link.
  assert (∀ x y, node_indices g !! x = None ∨ node_indices g !! y = None →
                 links g !! (x, y) = None) as Hnone.
  { intros x y Hxy. destruct (links g !! (x, y)) eqn:E; [|done].
    apply links_nodes in E as (i & j & ? & ? & _); [|done]. by destruct Hxy; simplify_eq. }
  destruct (node_indices g !! a) as [i|] eqn:Ha, (node_indices g !! b) as [j|] eqn:Hb.
  2-4: split; [done|]; unfold mesh_remove_link, abs; simpl;
    rewrite !delete_id; rewrite ?lookup_delete; try done; repeat case_decide; eauto.
  assert (name g i = a) as Hni by by apply name_Some, (wf_index g Hwf).
  assert (name g j = b) as Hnj by by apply name_Some, (wf_index g Hwf).
  apply (index_lt g) in Ha, Hb; try done.
  destruct (remove_edge_refines g i j) as (Hwf1 & Hn1 & Hl1); try done.
  destruct (remove_edge_refines (set_graph (remove_edge_between i j (graph g)) g) j i)
    as (Hwf2 & Hn2 & Hl2); [done|by rewrite Hn1..|].
  simpl in *. split; [done|]. unfold abs, mesh_remove_link. simpl. f_equal.
  etrans; [exact Hl2|]. rewrite Hl1. unfold name. rewrite Hn1.
  fold (name g i) (name g j). by rewrite Hni, Hnj.
Qed.

(** *** Removing a node *)

Lemma reindex_spec gr x i :
  NoDup (pg_node_weights gr) →
  reindex gr !! x = Some i ↔ pg_node_weights gr !! i = Some x.
Proof.
  unfold reindex. generalize (pg_node_weights gr) as l. intros l.
  induction l as [|y l IH] using rev_ind; intros Hnd.
  { simpl. by rewrite lookup_empty, lookup_nil. }
  rewrite imap_app. simpl. rewrite foldl_app. simpl.
  apply NoDup_app in Hnd as (Hnd & Hy & _).
  specialize (IH Hnd). rewrite lookup_insert, lookup_snoc_Some, <- IH.
  rewrite Nat.add_0_r. case_decide; subst.
  - split; [intros [= <-]; by right|]. intros [[? Hx]|[-> _]]; [|done].
    apply IH, list_elem_of_lookup_2 in Hx. set_solver.
  - split; [intros; left|by intros [[_ ?]|[_ ?]]]. split; [|done].
    by eapply lookup_lt_Some, IH.
Qed.

Lemma remove_node_named_edges g x i (l : list (nat * nat * LinkWeight)) :
  wf g → node_indices g !! x = Some i →
  (∀ e, e ∈ l → e.1.1 < length (nodes g) ∧ e.1.2 < length (nodes g)) →
  named_edge (remove_node x g) <$>
    (adopt_edge (length (nodes g) - 1) i <$> filter (λ e, e.1.1 ≠ i ∧ e.1.2 ≠ i) l) =
  filter (λ e, e.1.1 ≠ x ∧ e.1.2 ≠ x) (named_edge g <$> l).
Proof.
  intros Hwf Hi. pose proof (index_lt g x i Hwf Hi) as Hlt.
  destruct (pg_remove_node_spec i (graph g) Hlt) as [Hn _].
  assert (∀ k, k < length (nodes g) → name g k = x ↔ k = i) as Hx.
  { intros k Hk. split; [|intros ->; by apply name_Some, (wf_index g Hwf)].
    intros <-. rewrite name_index in Hi by done. congruence. }
  assert (∀ k, k < length (nodes g) → k ≠ i →
    name (remove_node x g) (adopt (length (nodes g) - 1) i k) = name g k) as Hname.
  { intros k Hk Hne. unfold remove_node. rewrite Hi. unfold name, nodes. simpl.
    rewrite Hn. f_equal. by apply swap_remove_lookup. }
  induction l as [|[[u v] w] l IH]; intros Hr; [done|].
  destruct (Hr (u, v, w)) as [Hu Hv]; [by left|]. simpl in Hu, Hv.
  assert (Hl := IH (λ e He, Hr e (list_elem_of_further _ _ _ He))). clear IH.
  rewrite fmap_cons, !filter_cons.
  destruct (decide ((u, v, w).1.1 ≠ i ∧ (u, v, w).1.2 ≠ i)) as [[Hui Hvi]|Hno];
    simpl in *.
  - rewrite decide_True by (rewrite !Hx by done; done). rewrite <- Hl.
    f_equal. unfold named_edge, adopt_edge. simpl.
    by rewrite !Hname by done.
  - rewrite decide_False by (rewrite !Hx by done; done). done.
Qed.

Section removal.
Variables (g : GlobalGraph) (x : string) (i : nat).
Hypothesis Hwf : wf g.
Hypothesis Hi : node_indices g !! x = Some i.

Lemma remove_node_nodes : nodes (remove_node x g) = swap_remove i (nodes g).
Proof.
  unfold remove_node. rewrite Hi.
  apply (pg_remove_node_spec i (graph g)), (index_lt g x i Hwf Hi).
Qed.

Lemma remove_node_raw :
  pg_raw_edges (graph (remove_node x g)) ≡ₚ
    adopt_edge (length (nodes g) - 1) i <$>
      filter (λ e, e.1.1 ≠ i ∧ e.1.2 ≠ i) (pg_raw_edges (graph g)).
Proof.
  unfold remove_node. rewrite Hi.
  apply (pg_remove_node_spec i (graph g)), (index_lt g x i Hwf Hi).
Qed.

Lemma remove_node_named :
  named (remove_node x g) ≡ₚ filter (λ e, e.1.1 ≠ x ∧ e.1.2 ≠ x) (named g).
Proof.
  unfold named. rewrite <- (remove_node_named_edges g x i) by
    (try apply (wf_range g Hwf); done).
  by rewrite remove_node_raw.
Qed.

Lemma remove_node_indices y k :
  node_indices (remove_node x g) !! y = Some k ↔ nodes (remove_node x g) !! k = Some y.
Proof.
  unfold nodes at 1. rewrite <- reindex_spec.
  - unfold remove_node. by rewrite Hi.
  - fold (nodes (remove_node x g)). rewrite remove_node_nodes.
    apply swap_remove_NoDup; [by apply wf_nodes_NoDup|by apply (index_lt g x)].
Qed.

Lemma remove_node_dom : dom (node_indices (remove_node x g)) = dom (node_indices g) ∖ {[x]}.
Proof.
  pose proof (index_lt g x i Hwf Hi) as Hlt.
  apply set_eq. intros y. rewrite elem_of_difference, (elem_of_nodes g) by done.
  rewrite elem_of_singleton, elem_of_dom. unfold is_Some.
  setoid_rewrite remove_node_indices. rewrite <- list_elem_of_lookup.
  rewrite remove_node_nodes, elem_of_swap_remove by (try done; by apply wf_nodes_NoDup).
  apply (wf_index g Hwf) in Hi. rewrite Hi. naive_solver.
Qed.

Lemma wf_remove_node : wf (remove_node x g).
Proof.
  split.
  - apply remove_node_indices.
  - intros e. rewrite remove_node_nodes, swap_remove_length, remove_node_raw.
    intros (e' & -> & [[Hu Hv] Hin]%list_elem_of_filter)%list_elem_of_fmap.
    destruct (wf_range g Hwf _ Hin). unfold adopt_edge, adopt. simpl.
    pose proof (index_lt g x i Hwf Hi). repeat case_decide; lia.
  - rewrite remove_node_named. eapply sublist_NoDup; [apply (wf_simple g Hwf)|].
    apply fmap_sublist, sublist_filter.
  - rewrite remove_node_dom. pose proof (wf_meta g Hwf).
    unfold remove_node. rewrite Hi. simpl. rewrite dom_delete_L. set_solver.
  - intros y d. unfold remove_node. rewrite Hi. simpl.
    intros [_ Hd]%lookup_delete_Some. by apply (wf_meta_id g Hwf).
Qed.
End removal.

Lemma remove_node_refines g x :
  wf g → wf (remove_node x g) ∧ abs (remove_node x g) = mesh_remove_node x (abs g).
Proof.
  intros Hwf. unfold abs, mesh_remove_node. simpl.
  destruct (node_indices g !! x) as [i|] eqn:Hi.
  - split; [by eapply wf_remove_node|]. erewrite remove_node_dom by done. f_equal.
    + unfold links. rewrite (list_to_map_proper (named (remove_node x g))
        (filter (λ e, e.1.1 ≠ x ∧ e.1.2 ≠ x) (named g)));
        [|by apply wf_simple; eapply wf_remove_node|by eapply remove_node_named].
      apply list_to_map_filter_ends, (wf_simple g Hwf).
    + unfold remove_node. by rewrite Hi.
  - unfold remove_node. rewrite Hi. split; [done|].
    apply not_elem_of_dom in Hi. pose proof (wf_meta g Hwf). f_equal.
    + set_solver.
    + apply map_eq. intros [a b]. apply option_eq. intros w.
      rewrite map_lookup_filter_Some. split; [|by intros []]. intros Hl.
      split; [done|]. simpl.
      apply links_nodes in Hl as (? & ? & ?%elem_of_dom_2 & ?%elem_of_dom_2 & _);
        [|done]. set_solver.
    + rewrite delete_id; [done|]. apply not_elem_of_dom. set_solver.
Qed.

(** *** Batches *)

Lemma foldl_refines {A} (f : GlobalGraph → A → GlobalGraph) (h : Mesh → A → Mesh) g l :
  (∀ g a, wf g → wf (f g a) ∧ abs (f g a) = h (abs g) a) →
  wf g → wf (foldl f g l) ∧ abs (foldl f g l) = foldl h (abs g) l.
Proof.
  intros Hf. revert g. induction l as [|a l IH]; intros g Hwf; simpl; [done|].
  destruct (Hf g a Hwf) as [Hwf' <-]. by apply IH.
Qed.

Lemma add_links_refines g l :
  wf g → ∃ g', foldM (λ g link, add_link link g) g l = Ret g' ∧ wf g' ∧
               abs g' = foldl (λ m l, mesh_add_link l m) (abs g) l.
Proof.
  revert g. induction l as [|a l IH]; intros g Hwf; simpl; [by eauto|].
  destruct (add_link_refines g a Hwf) as (g' & -> & Hwf' & <-). simpl. by apply IH.
Qed.

Lemma apply_update_refines u g :
  wf g → ∃ g', apply_update u g = Ret g' ∧ wf g' ∧ abs g' = mesh_apply_update u (abs g).
Proof.
  intros Hwf. unfold apply_update, mesh_apply_update.
  assert (H1 := foldl_refines (λ g node, add_node node g) (λ m d, mesh_add_node d m)
    g (nodes_added u) (λ g d, add_node_refines g d) Hwf).
  revert H1. generalize (foldl (λ g node, add_node node g) g (nodes_added u)).
  intros g1 [Hwf1 <-].
  assert (H2 := foldl_refines (λ g x, remove_node x g) (λ m x, mesh_remove_node x m)
    g1 (nodes_removed u) (λ g x, remove_node_refines g x) Hwf1).
  revert H2. generalize (foldl (λ g x, remove_node x g) g1 (nodes_removed u)).
  intros g2 [Hwf2 <-].
  destruct (add_links_refines g2 (links_added u) Hwf2) as (g3 & -> & Hwf3 & <-).
  eexists. split; [done|].
  apply (foldl_refines (λ g lr, remove_link (lr_node_a lr) (lr_node_b lr) g)
    (λ m lr, mesh_remove_link (lr_node_a lr) (lr_node_b lr) m)); [|done].
  intros; by apply remove_link_refines.
Qed.
End facts.

(** ** The specification's own laws *)

Lemma foldl_preserves {A B} (P : B → Prop) (f : B → A → B) b l :
  (∀ b a, P b → P (f b a)) → P b → P (foldl f b l).
Proof. intros Hf. revert b. induction l; simpl; eauto. Qed.

Lemma mesh_apply_update_symmetric u m : symmetric m → symmetric (mesh_apply_update u m).
Proof.
  intros Hm. unfold mesh_apply_update.
  apply foldl_preserves; [|apply foldl_preserves; [|apply foldl_preserves;
    [|apply foldl_preserves; [|exact Hm]]]]; clear; unfold symmetric; simpl.
  - intros m lr Hm a b. rewrite !lookup_delete, Hm. repeat case_decide; naive_solver.
  - intros m l Hm a b. rewrite !lookup_insert, Hm. repeat case_decide; naive_solver.
  - intros m x Hm a b. apply option_eq. intros w.
    rewrite !map_lookup_filter_Some, Hm. simpl. tauto.
  - intros m d Hm. done.
Qed.

Lemma mesh_add_nodes ds m :
  foldl (λ m d, mesh_add_node d m) m ds =
  mkMesh (list_to_set (nd_node_id <$> ds) ∪ mesh_nodes m) (mesh_links m)
    (foldl (λ mm d, <[nd_node_id d := d]> mm) (mesh_meta m) ds).
Proof.
  revert m. induction ds as [|d ds IH]; intros m; simpl.
  - destruct m. simpl. f_equal. set_solver.
  - rewrite IH. simpl. f_equal. set_solver.
Qed.

Lemma foldl_insert_descriptors (mm : gmap string NodeDescriptor) ds :
  NoDup (nd_node_id <$> ds) →
  foldl (λ mm d, <[nd_node_id d := d]> mm) mm ds =
  list_to_map ((λ d, (nd_node_id d, d)) <$> ds) ∪ mm.
Proof.
  revert mm. induction ds as [|d ds IH]; intros mm Hnd; simpl.
  - by rewrite map_empty_union.
  - inversion Hnd as [|?? Hd Hnd']; subst. rewrite IH by done.
    rewrite <- insert_union_l, <- insert_union_r; [done|].
    apply not_elem_of_list_to_map_1. rewrite <- list_fmap_compose. done.
Qed.

(** Replaying links taken from a symmetric map rebuilds that map. *)
Lemma mesh_add_links_sub (T : gmap (string * string) LinkWeight) ls m :
  (∀ a b, T !! (a, b) = T !! (b, a)) →
  (∀ l, l ∈ ls →
     T !! (node_a l, node_b l) = Some (mkLinkWeight (ld_hop_cost l) (ld_rtt_micros l))) →
  mesh_links m ⊆ T →
  let m' := foldl (λ m l, mesh_add_link l m) m ls in
  mesh_links m ⊆ mesh_links m' ∧ mesh_links m' ⊆ T ∧
  (∀ l, l ∈ ls → is_Some (mesh_links m' !! (node_a l, node_b l))) ∧
  mesh_meta m' = mesh_meta m ∧
  mesh_nodes m' = list_to_set (node_a <$> ls) ∪ list_to_set (node_b <$> ls) ∪ mesh_nodes m.
Proof.
  intros Hsym. revert m. induction ls as [|l ls IH]; intros m Hin Hsub; simpl.
  { split_and!; set_solver. }
  pose proof (Hin l (list_elem_of_here _ _)) as Hl.
  pose proof (Hsym (node_a l) (node_b l)) as Hl'. rewrite Hl in Hl'. symmetry in Hl'.
  assert (mesh_links m ⊆ mesh_links (mesh_add_link l m) ∧
          mesh_links (mesh_add_link l m) ⊆ T ∧
          is_Some (mesh_links (mesh_add_link l m) !! (node_a l, node_b l)))
    as (Hs1 & Hs2 & Hs3).
  { simpl. split_and!.
    - apply map_subseteq_spec. intros k w Hk. pose proof (lookup_weaken _ _ _ _ Hk Hsub).
      rewrite !lookup_insert. repeat case_decide; subst; congruence.
    - apply insert_subseteq_l; [done|]. by apply insert_subseteq_l.
    - rewrite !lookup_insert. repeat case_decide; naive_solver. }
  destruct (IH (mesh_add_link l m)) as (H1 & H2 & H3 & H4 & H5); [set_solver|done|].
  split_and!.
  - by etrans.
  - done.
  - intros l' [->|?]%elem_of_cons; [|by apply H3].
    destruct Hs3 as [w Hw]. exists w. by eapply lookup_weaken.
  - done.
  - rewrite H5. simpl. set_solver.
Qed.

Section snapshot.
#[local] Set Default Proof Using "Type*".
Context `{PS : PetGraphSpec string LinkWeight} `{HS : !HashOrderSpec HO}.
Implicit Types g : GlobalGraph.

Definition descriptor_of (g : GlobalGraph) (e : nat * nat * LinkWeight) : LinkDescriptor :=
  mkLinkDescriptor (name g e.1.1) (name g e.1.2) (hop_cost e.2) (rtt_micros e.2).

Lemma get_descriptors_spec g :
  wf g → get_descriptors g =
    Ret ((map_iter (node_metadata g)).*2, descriptor_of g <$> pg_raw_edges (graph g)).
Proof.
  intros Hwf. unfold get_descriptors.
  rewrite (mapM_outcome_fmap _ (descriptor_of g)); [done|].
  intros e He. destruct (wf_range g Hwf e He) as [[u Hu]%lookup_lt_is_Some
    [v Hv]%lookup_lt_is_Some]. unfold graph_index. fold (nodes g).
  rewrite Hu, Hv. simpl. unfold descriptor_of.
  by rewrite (name_Some _ _ _ Hu), (name_Some _ _ _ Hv).
Qed.

Lemma descriptor_link g e :
  wf g → e ∈ pg_raw_edges (graph g) →
  links g !! (name g e.1.1, name g e.1.2) = Some (mkLinkWeight (hop_cost e.2) (rtt_micros e.2)).
Proof.
  intros Hwf He. destruct (wf_range g Hwf e He). destruct e as [[i j] [hc rtt]].
  by apply links_edge.
Qed.

Lemma metadata_replay g :
  wf g →
  foldl (λ mm d, <[nd_node_id d := d]> mm) ∅ (map_iter (node_metadata g)).*2 =
    node_metadata g ∧
  list_to_set (nd_node_id <$> (map_iter (node_metadata g)).*2) =@{gset string}
    dom (node_metadata g).
Proof.
  intros Hwf. pose proof (map_iter_perm (node_metadata g)) as Hp.
  assert (nd_node_id <$> (map_iter (node_metadata g)).*2 = (map_iter (node_metadata g)).*1)
    as Hids.
  { rewrite <- list_fmap_compose. apply list_fmap_ext. intros i [x d] Hi. simpl.
    apply (wf_meta_id g Hwf). apply elem_of_map_to_list.
    rewrite <- Hp. by eapply list_elem_of_lookup_2. }
  rewrite Hids. split.
  - rewrite foldl_insert_descriptors.
    2: { rewrite Hids, Hp. apply NoDup_fst_map_to_list. }
    rewrite map_union_empty.
    transitivity (list_to_map (map_iter (node_metadata g)) : gmap string NodeDescriptor).
    + f_equal. rewrite <- list_fmap_compose.
      rewrite <- (list_fmap_id (map_iter (node_metadata g))) at 2.
      apply list_fmap_ext. intros i [x d] Hi. simpl. f_equal.
      apply (wf_meta_id g Hwf). apply elem_of_map_to_list.
      rewrite <- Hp. by eapply list_elem_of_lookup_2.
    + rewrite <- (list_to_map_to_list (node_metadata g)) at 2.
      apply list_to_map_proper; [|done]. rewrite Hp. apply NoDup_fst_map_to_list.
  - apply set_eq. intros x. rewrite elem_of_list_to_set, Hp, list_elem_of_fmap, elem_of_dom.
    split.
    + intros ([y d] & -> & Hd%elem_of_map_to_list). by exists d.
    + intros [d Hd]. exists (x, d). split; [done|]. by apply elem_of_map_to_list.
Qed.

Lemma snapshot_replay g origin epoch :
  wf g → symmetric (abs g) →
  ∃ ds ls g',
    get_descriptors g = Ret (ds, ls) ∧
    apply_update (mkTopologyUpdate origin epoch ds [] ls []) new_graph = Ret g' ∧ wf g' ∧
    abs g' = mkMesh (dom (node_metadata g) ∪ ends (abs g)) (links g) (node_metadata g).
Proof.
  intros Hwf Hsym. rewrite get_descriptors_spec by done. eexists _, _.
  destruct (apply_update_refines (mkTopologyUpdate origin epoch
    (map_iter (node_metadata g)).*2 [] (descriptor_of g <$> pg_raw_edges (graph g)) [])
    new_graph wf_new) as (g' & Hg' & Hwf' & Habs).
  exists g'. split_and!; try done. rewrite Habs. unfold mesh_apply_update. simpl.
  rewrite mesh_add_nodes. simpl. destruct (metadata_replay g Hwf) as [-> ->].
  destruct (mesh_add_links_sub (links g) (descriptor_of g <$> pg_raw_edges (graph g))
    (mkMesh (dom (node_metadata g) ∪ dom (node_indices new_graph)) (links new_graph)
       (node_metadata g))) as (_ & Hsub & Hall & Hmeta & Hnodes).
  - intros a b. apply Hsym.
  - intros l (e & -> & He)%list_elem_of_fmap. by apply descriptor_link.
  - unfold links, named. simpl. rewrite pg_new_edges. apply map_empty_subseteq.
  - assert (∀ k, is_Some (links g !! k) → ∃ e, e ∈ pg_raw_edges (graph g) ∧
              k = (name g e.1.1, name g e.1.2)) as Hedge.
    { intros [x y] [w (i & j & Hi & Hj & He)%links_nodes]; [|done].
      exists (i, j, w). split; [done|]. simpl.
      by rewrite (name_Some g i x), (name_Some g j y) by by apply (wf_index g Hwf). }
    set (m' := foldl _ _ _) in *. destruct m' as [mn ml mm]. simpl in *. f_equal.
    + rewrite Hnodes. unfold ends. simpl. rewrite <- !list_fmap_compose.
      apply set_eq. intros x. rewrite !elem_of_union, !elem_of_list_to_set.
      rewrite !list_elem_of_fmap, !elem_of_map. setoid_rewrite elem_of_dom. split.
      * intros [[(e & -> & He)|(e & -> & He)]|[Hd|Hd]].
        -- right. left. apply descriptor_link in He; [|done]. by eexists (_, _).
        -- right. right. apply descriptor_link in He; [|done]. by eexists (_, _).
        -- by left.
        -- by destruct Hd.
      * intros [Hd|[(k & -> & (e & He & ->)%Hedge)|(k & -> & (e & He & ->)%Hedge)]];
          simpl; eauto.
    + apply (anti_symm (⊆)); [done|]. apply map_subseteq_spec. intros k w Hk.
      destruct (Hedge k) as (e & He & ->); [by eexists|].
      destruct (Hall (descriptor_of g e)) as [w' Hw']; [by apply list_elem_of_fmap_2|].
      simpl in Hw'. rewrite Hw'. symmetry. rewrite <- Hk.
      by eapply lookup_weaken.
    + done.
Qed.
End snapshot.

(** ** The reference graph *)

Lemma list_petgraph_spec V E : PetGraphSpec (list_petgraph V E).
Proof.
  split; simpl; try done.
  - intros i g Hi. by rewrite decide_True.
  - intros a b g e H. unfold list_find_edge in H.
    destruct (list_find _ _) as [[e' x]|] eqn:F; [|done]. simpl in H. simplify_eq.
    apply list_find_Some in F as (-> & Hx & _). simpl. by rewrite Hx.
  - intros a b g H. unfold list_find_edge in H.
    destruct (list_find _ _) as [[e' x]|] eqn:F; [done|].
    apply list_find_None in F. rewrite Forall_forall in F.
    intros (e & He & Hin)%list_elem_of_fmap. by apply (F e).
Qed.

(** ** Properties *)

Section properties.
#[local] Set Default Proof Using "Type*".
Context `{PS : PetGraphSpec string LinkWeight}.
Implicit Types g : GlobalGraph.

(** C7. Applying a [TopologyUpdate] to a well-formed graph never panics, keeps it
    well-formed (the index map is the exact inverse of petgraph's node table,
    edges are simple and in range, metadata only for known nodes) and refines the
    specification: the result, read by names, is [mesh_apply_update] of the
    graph's meaning. *)
Theorem apply_update_correct u g :
  wf g →
  ∃ g', apply_update u g = Ret g' ∧ wf g' ∧ abs g' = mesh_apply_update u (abs g).
Proof. apply apply_update_refines. Qed.

(** C13. [remove_node] removes exactly the node and its links: although petgraph
    moves the last node into the freed index, the rebuilt index map is again the
    inverse of the node table, and every other node and every link between other
    nodes is still there under its name, with its weight. *)
Theorem remove_node_correct x g :
  wf g →
  wf (remove_node x g) ∧
  (∀ y, y ∈ dom (node_indices (remove_node x g)) ↔ y ∈ dom (node_indices g) ∧ y ≠ x) ∧
  (∀ a b w, links (remove_node x g) !! (a, b) = Some w ↔
            links g !! (a, b) = Some w ∧ a ≠ x ∧ b ≠ x).
Proof.
  intros Hwf. destruct (remove_node_refines g x Hwf) as [Hwf' Habs].
  injection Habs as Hdom Hlinks _. split_and!; [done|set_solver|].
  intros a b w. rewrite Hlinks. by rewrite map_lookup_filter_Some.
Qed.

(** Peer links stay symmetric: if both directions of every link carry the
    same weight before a topology update, they do so after it. *)
Lemma apply_update_keeps_symmetry u g :
  wf g → symmetric (abs g) →
  ∃ g', apply_update u g = Ret g' ∧ symmetric (abs g').
Proof.
  intros Hwf Hsym. destruct (apply_update_refines u g Hwf) as (g' & -> & _ & Habs).
  exists g'. split; [done|]. rewrite Habs. by apply mesh_apply_update_symmetric.
Qed.

(** C18. The full-graph snapshot of [get_descriptors], applied to an empty graph,
    rebuilds the sender's links and metadata exactly; of its nodes it rebuilds
    those with metadata or with a link (a node with neither is lost). *)
Theorem snapshot_round_trip `{HS : !HashOrderSpec HO} g origin epoch :
  wf g → symmetric (abs g) →
  ∃ ds ls g',
    get_descriptors g = Ret (ds, ls) ∧
    apply_update (mkTopologyUpdate origin epoch ds [] ls []) new_graph = Ret g' ∧
    abs g' = mkMesh (dom (node_metadata g) ∪ ends (abs g)) (links g) (node_metadata g).
Proof.
  intros Hwf Hsym. destruct (snapshot_replay g origin epoch Hwf Hsym)
    as (ds & ls & g' & H1 & H2 & _ & H3). by exists ds, ls, g'.
Qed.
End properties.

Section witnesses.
#[local] Existing Instance list_petgraph.
#[local] Existing Instance list_petgraph_spec.
#[local] Existing Instance key_order.
#[local] Existing Instance key_order_spec.

Lemma symmetric_new : symmetric (abs new_graph).
Proof. intros a b. reflexivity. Qed.

Definition sample_graph : GlobalGraph :=
  match apply_update sample_update new_graph with
  | Ret g => g
  | _ => new_graph
  end.

Lemma sample_graph_wf : wf sample_graph.
Proof.
  destruct (apply_update_refines sample_update new_graph wf_new) as (g & Hg & Hwf & _).
  unfold sample_graph. by rewrite Hg.
Qed.

Lemma sample_graph_symmetric : symmetric (abs sample_graph).
Proof.
  destruct (apply_update_refines sample_update new_graph wf_new) as (g & Hg & _ & Ha).
  unfold sample_graph. rewrite Hg, Ha.
  apply mesh_apply_update_symmetric, symmetric_new.
Qed.

Lemma apply_update_correct_witness :
  ∃ g', apply_update sample_update new_graph = Ret g' ∧ wf g' ∧
        mesh_links (abs g') !! ("C", "B") = Some (mkLinkWeight 1 0).
Proof.
  destruct (apply_update_correct sample_update new_graph wf_new) as (g' & H1 & H2 & H3).
  exists g'. split; [exact H1|]. split; [exact H2|]. rewrite H3. vm_compute. reflexivity.
Defined.

Lemma remove_node_correct_witness :
  wf (remove_node "B" sample_graph) ∧
  links sample_graph !! ("B", "C") = Some (mkLinkWeight 1 0) ∧
  links (remove_node "B" sample_graph) !! ("B", "C") = None.
Proof.
  destruct (remove_node_correct "B" sample_graph sample_graph_wf) as (H1 & _ & _).
  split; [exact H1|]. split; vm_compute; reflexivity.
Defined.

Lemma apply_update_keeps_symmetry_witness :
  ∃ g', apply_update sample_update new_graph = Ret g' ∧ symmetric (abs g').
Proof.
  apply (apply_update_keeps_symmetry sample_update new_graph wf_new symmetric_new).
Defined.

Lemma snapshot_round_trip_witness :
  ∃ ds ls g',
    get_descriptors sample_graph = Ret (ds, ls) ∧ length ls = 6 ∧
    apply_update (mkTopologyUpdate "B" 1 ds [] ls []) new_graph = Ret g' ∧
    links g' = links sample_graph.
Proof.
  destruct (snapshot_round_trip sample_graph "B" 1 sample_graph_wf sample_graph_symmetric)
    as (ds & ls & g' & H1 & H2 & H3).
  exists ds, ls, g'. split; [exact H1|]. split; [|split; [exact H2|]].
  - vm_compute in H1. injection H1 as _ <-. reflexivity.
  - exact (f_equal mesh_links H3).
Defined.
End witnesses.
