(* ===== verification/Dijkstra.v ===== *)
(** * Forwarding tables

    [compute_forwarding_table] of [stric-flow/src/routing.rs]: Dijkstra's
    search over the mesh graph with the aggregator penalty, then the walk from
    every subscriber back to the source that collects the forwarding tree.

    [BinaryHeap] states what the standard library's heap promises: [pop] returns
    a greatest element under [Ord], and nothing says which one of several.  The
    32-bit additions keep their width and depend on the build profile.  The two
    loops run on fuel: [dijkstra_fuel] is proved enough for every graph and both
    profiles, the walk back takes its fuel as an argument because an overflow
    can make it endless. *)
From S2P Require Import Prelude Proto Graph.
From stdpp Require Import options.

(** ** The search's queue entries *)

Record DijkstraState := mkDijkstraState { cost : N; node_idx : nat }.

(** [impl Ord for DijkstraState]: reversed, so that the max-heap pops the
    cheapest entry. *)
Definition ds_cmp (self other : DijkstraState) : comparison :=
  N.compare (cost other) (cost self).

Definition ds_partial_cmp (self other : DijkstraState) : option comparison :=
  Some (ds_cmp self other).

(** ** [std::collections::BinaryHeap] *)

Class BinaryHeap (A : Type) := {
  heap : Type;
  heap_new : heap;
  heap_push : A → heap → heap;
  heap_pop : heap → option (A * heap);
  heap_items : heap → list A;
}.

Class BinaryHeapSpec {A} (BH : BinaryHeap A) (cmp : A → A → comparison) : Prop := {
  heap_new_items : heap_items heap_new = [];
  heap_push_items x h : heap_items (heap_push x h) ≡ₚ x :: heap_items h;
  heap_pop_None h : heap_pop h = None → heap_items h = [];
  heap_pop_Some h x h' :
    heap_pop h = Some (x, h') →
    heap_items h ≡ₚ x :: heap_items h' ∧ ∀ y, y ∈ heap_items h → cmp y x ≠ Gt;
}.

Section dijkstra.
Context `{PG : PetGraph string LinkWeight} `{BH : BinaryHeap DijkstraState}.

(** ** The search *)

Record Search := mkSearch {
  distances : gmap nat N;
  predecessors : gmap nat nat;
  frontier : heap;
}.

(** The edge's hop cost, with the penalty for entering an aggregator. *)
Definition edge_cost (p : profile) (g : GlobalGraph) (target_name : string)
    (w : LinkWeight) : outcome N :=
  match node_metadata g !! target_name with
  | Some target_meta =>
      if decide (nd_role target_meta = NODE_ROLE_AGGREGATOR)
      then u32_add p (hop_cost w) 10000
      else Ret (hop_cost w)
  | None => Ret (hop_cost w)
  end.

(** The body of [for edge in self.graph.edges(node_idx)]. *)
Definition relax_edge (p : profile) (g : GlobalGraph) (c : N) (u : nat)
    (st : Search) (edge : nat * nat * LinkWeight) : outcome Search :=
  let target_idx := edge.1.2 in
  target_name ← graph_index (graph g) target_idx;
  ec ← edge_cost p g target_name edge.2;
  next_cost ← u32_add p c ec;
  let current_target_dist := default u32_max (distances st !! target_idx) in
  if (next_cost <? current_target_dist)%N then
    Ret (mkSearch (<[target_idx := next_cost]> (distances st))
           (<[target_idx := u]> (predecessors st))
           (heap_push (mkDijkstraState next_cost target_idx) (frontier st)))
  else Ret st.

(** The body of [while let Some(..) = heap.pop()]. *)
Definition dijkstra_step (p : profile) (g : GlobalGraph) (st : Search) :
    outcome (Search + Search) :=
  match heap_pop (frontier st) with
  | None => Ret (inr st)
  | Some (mkDijkstraState c u, rest) =>
      let st := mkSearch (distances st) (predecessors st) rest in
      let current_dist := default u32_max (distances st !! u) in
      if (current_dist <? c)%N then Ret (inl st)
      else st ← foldM (relax_edge p g c u) st (pg_edges u (graph g)); Ret (inl st)
  end.

Definition initial_search (source_idx : nat) : Search :=
  mkSearch {[source_idx := 0%N]} ∅ (heap_push (mkDijkstraState 0 source_idx) heap_new).

(** The loop gets [2 ^ dijkstra_fuel g] iterations. *)
Definition dijkstra_fuel (g : GlobalGraph) : nat := 34 + length (nodes g).

Definition shortest_paths (p : profile) (g : GlobalGraph) (source_idx : nat) :
    outcome Search :=
  run_loop (dijkstra_step p g) (dijkstra_fuel g) (initial_search source_idx).

(** ** The forwarding tree *)

Abbreviation tree := (gmap string (gset string)).

(** [forwarding_tree.entry(parent).or_default().insert(child)]. *)
Definition add_child (parent child : string) (t : tree) : tree :=
  <[parent := {[child]} ∪ default ∅ (t !! parent)]> t.

(** The body of [while let Some(&parent_idx) = predecessors.get(&current_idx)]. *)
Definition walk_step (g : GlobalGraph) (preds : gmap nat nat) (source_idx : nat)
    (s : nat * tree) : outcome (nat * tree + tree) :=
  match preds !! s.1 with
  | None => Ret (inr s.2)
  | Some parent_idx =>
      parent_name ← graph_index (graph g) parent_idx;
      current_name ← graph_index (graph g) s.1;
      let t := add_child parent_name current_name s.2 in
      if decide (parent_idx = source_idx) then Ret (inr t) else Ret (inl (parent_idx, t))
  end.

(** The body of [for sub in subscribers]. *)
Definition add_subscriber (fuel : nat) (g : GlobalGraph) (preds : gmap nat nat)
    (source_idx : nat) (t : tree) (sub : string) : outcome tree :=
  match node_indices g !! sub with
  | None => Ret t
  | Some idx => run_loop (walk_step g preds source_idx) fuel (idx, t)
  end.

(** [forwarding_tree.into_iter().map(..).collect()]. *)
Definition into_targets `{HashOrder} (t : tree) : gmap string ForwardingTargets :=
  (λ targets : gset string, mkForwardingTargets (set_iter targets)) <$> t.

Definition compute_forwarding_table `{HashOrder} (p : profile) (fuel : nat)
    (g : GlobalGraph) (source : string) (subscribers : gset string) :
    outcome (gmap string ForwardingTargets) :=
  if decide (subscribers = ∅) then Ret ∅
  else match node_indices g !! source with
       | None => Ret ∅
       | Some source_idx =>
           search ← shortest_paths p g source_idx;
           t ← foldM (add_subscriber fuel g (predecessors search) source_idx) ∅
                 (set_iter subscribers);
           Ret (into_targets t)
       end.

(** ** What a route costs *)

(** The cost of a link into [v], with exact arithmetic. *)
Definition link_cost (g : GlobalGraph) (v : string) (w : LinkWeight) : N :=
  match node_metadata g !! v with
  | Some d => if decide (nd_role d = NODE_ROLE_AGGREGATOR)
              then (hop_cost w + 10000)%N else hop_cost w
  | None => hop_cost w
  end.

(** [route g s (v :: .. :: [s]) c]: a way along links from [s] to [v] of cost [c]
    (the nodes are listed from the end). *)
Inductive route (g : GlobalGraph) (s : string) : list string → N → Prop :=
| route_source : route g s [s] 0
| route_link u v w l c :
    route g s (u :: l) c → links g !! (u, v) = Some w →
    route g s (v :: u :: l) (c + link_cost g v w).

Definition reachable (g : GlobalGraph) (s v : string) : Prop :=
  ∃ l c, route g s (v :: l) c.

(** No path of distinct nodes overflows: every link costs at most [M], and
    [M] times the number of nodes is below [u32::MAX]. *)
Definition costs_fit (g : GlobalGraph) : Prop :=
  ∃ M, Forall (λ e, (link_cost g e.1.2 e.2 <= M)%N) (named g) ∧
       (N.of_nat (length (nodes g)) * M < u32_max)%N.
End dijkstra.

(** ** Reading a forwarding table *)

Definition sends (table : gmap string ForwardingTargets) (u v : string) : Prop :=
  ∃ targets, table !! u = Some targets ∧ v ∈ send_to targets.

(** The nodes an envelope from [s] passes on its way, listed from the end. *)
Inductive delivery (table : gmap string ForwardingTargets) (s : string) :
    list string → Prop :=
| delivery_source : delivery table s [s]
| delivery_hop u v l :
    delivery table s (u :: l) → sends table u v → delivery table s (v :: u :: l).

(** A table in which envelopes from [s] cannot meet: a tree rooted at [s]. *)
Record tree_table (table : gmap string ForwardingTargets) (s : string) : Prop := {
  tt_unique u u' v : sends table u v → sends table u' v → u = u';
  tt_root u : ¬ sends table u s;
  tt_path u v : sends table u v → ∃ l, delivery table s (v :: u :: l);
  tt_nodup u targets : table !! u = Some targets → NoDup (send_to targets);
}.

(** ** A reference heap, for concrete inputs *)

Fixpoint pop_best {A} (cmp : A → A → comparison) (l : list A) : option (A * list A) :=
  match l with
  | [] => None
  | x :: l' =>
      match pop_best cmp l' with
      | None => Some (x, [])
      | Some (y, r) =>
          match cmp x y with
          | Lt => Some (y, x :: r)
          | _ => Some (x, y :: r)
          end
      end
  end.

Definition list_heap {A} (cmp : A → A → comparison) : BinaryHeap A := {|
  heap := list A;
  heap_new := [];
  heap_push := cons;
  heap_pop := pop_best cmp;
  heap_items l := l;
|}.

(** ** Costs near the limit, for concrete inputs *)

(** Three nodes in a line; the link [S]-[A] costs [2^32 - 2], [A]-[B] costs 2. *)
Definition overflow_update : TopologyUpdate :=
  mkTopologyUpdate "S" 1 (flow_node <$> ["S"; "A"; "B"]) []
    [mkLinkDescriptor "S" "A" 4294967294 0; mkLinkDescriptor "A" "B" 2 0] [].
