(* ===== verification/DijkstraFacts.v ===== *)
(** * Facts about forwarding tables

    The search of [compute_forwarding_table]: routes and their costs, the loop's
    invariant (distances are costs of routes, settled nodes are cheapest), and its
    termination in both build profiles. *)
From S2P Require Import Prelude Proto Graph GraphFacts Dijkstra.
From stdpp Require Import options.

(** ** The sum of all distances *)

Definition sum_dist (n : nat) (dist : gmap nat N) : N :=
  foldr (λ v acc, (default u32_max (dist !! v) + acc)%N) 0%N (seq 0 n).

Lemma sum_dist_insert n dist v c :
  v < n → (c < default u32_max (dist !! v))%N →
  (sum_dist n (<[v := c]> dist) < sum_dist n dist)%N.
Proof.
  intros Hv Hc. unfold sum_dist.
  assert (NoDup (seq 0 n)) as Hnd by apply NoDup_seq.
  assert (v ∈ seq 0 n) as Hin by (apply elem_of_seq; lia).
  assert (∀ l, v ∉ l →
    foldr (λ x acc, (default u32_max (<[v := c]> dist !! x) + acc)%N) 0%N l =
    foldr (λ x acc, (default u32_max (dist !! x) + acc)%N) 0%N l) as Hsame.
  { induction l as [|x l IH]; simpl; [done|]. intros Hnot.
    rewrite lookup_insert_ne, IH by set_solver. done. }
  revert Hnd Hin. generalize (seq 0 n) as l.
  induction l as [|x l IH]; intros Hnd Hin; simpl; [set_solver|].
  inversion Hnd as [|?? Hx Hnd']; subst. destruct (decide (x = v)) as [->|Hne].
  - rewrite lookup_insert_eq, Hsame by done. simpl. lia.
  - rewrite lookup_insert_ne by done.
    assert (v ∈ l) as Hv' by set_solver. specialize (IH Hnd' Hv'). lia.
Qed.

Lemma sum_dist_bound n dist :
  (∀ v c, dist !! v = Some c → (c <= u32_max)%N) →
  (sum_dist n dist <= N.of_nat n * u32_max)%N.
Proof.
  intros Hb. unfold sum_dist.
  assert (∀ l : list nat, (foldr (λ v acc, (default u32_max (dist !! v) + acc)%N) 0%N l
    <= N.of_nat (length l) * u32_max)%N) as H.
  { induction l as [|x l IH]; simpl; [lia|].
    assert (default u32_max (dist !! x) <= u32_max)%N.
    { destruct (dist !! x) eqn:E; simpl; [by eapply Hb|done]. }
    rewrite Nat2N.inj_succ, N.mul_succ_l. lia. }
  specialize (H (seq 0 n)). by rewrite length_seq in H.
Qed.

Lemma N_lt_pow2 n : (N.of_nat n < 2 ^ N.of_nat n)%N.
Proof. apply N.pow_gt_lin_r. lia. Qed.

(** ** Termination of the search, in both profiles *)

Section termination.
#[local] Set Default Proof Using "Type*".
Context `{PG : PetGraph string LinkWeight} `{BH : BinaryHeap DijkstraState}.
Context `{BS : !BinaryHeapSpec BH ds_cmp}.
Implicit Types g : GlobalGraph.

Definition search_measure (g : GlobalGraph) (st : Search) : N :=
  (2 * sum_dist (length (nodes g)) (distances st) +
   N.of_nat (length (heap_items (frontier st))))%N.

Lemma relax_edge_measure p g c u st e st' :
  relax_edge p g c u st e = Ret st' →
  (search_measure g st' <= search_measure g st)%N.
Proof.
  unfold relax_edge, graph_index. fold (nodes g).
  destruct (nodes g !! e.1.2) as [x|] eqn:Hx; simpl; [|done].
  destruct (edge_cost p g x e.2) as [ec| |]; simpl; try done.
  destruct (u32_add p c ec) as [nc| |]; simpl; try done.
  destruct (N.ltb_spec nc (default u32_max (distances st !! e.1.2))) as [Hlt|];
    [|by intros [= <-]].
  intros [= <-]. unfold search_measure. simpl.
  rewrite heap_push_items. simpl. apply lookup_lt_Some in Hx.
  pose proof (sum_dist_insert _ _ _ _ Hx Hlt). lia.
Qed.

Lemma u32_add_not_fuel p a b : u32_add p a b ≠ OutOfFuel.
Proof. unfold u32_add. case_match; [done|]. by destruct p. Qed.

Lemma edge_cost_not_fuel p g x w : edge_cost p g x w ≠ OutOfFuel.
Proof. unfold edge_cost. repeat case_match; try done. apply u32_add_not_fuel. Qed.

Lemma relax_edge_not_fuel p g c u st e : relax_edge p g c u st e ≠ OutOfFuel.
Proof.
  unfold relax_edge, graph_index.
  destruct (pg_node_weights (graph g) !! e.1.2) as [x|]; simpl; [|done].
  pose proof (edge_cost_not_fuel p g x e.2).
  destruct (edge_cost p g x e.2) as [ec| |]; simpl; try done.
  pose proof (u32_add_not_fuel p c ec).
  destruct (u32_add p c ec); simpl; try done. by case_match.
Qed.

Lemma dijkstra_step_measure p g st :
  match dijkstra_step p g st with
  | Ret (inl st') => (search_measure g st' < search_measure g st)%N
  | OutOfFuel => False
  | _ => True
  end.
Proof.
  unfold dijkstra_step. destruct (heap_pop (frontier st)) as [[[c u] rest]|] eqn:E; [|done].
  apply heap_pop_Some in E as [Hitems _]. cbv zeta.
  set (st0 := mkSearch _ _ rest).
  assert (search_measure g st0 < search_measure g st)%N as H0.
  { unfold search_measure. simpl. rewrite Hitems. simpl. lia. }
  simpl. destruct (_ <? c)%N; [done|].
  destruct (foldM (relax_edge p g c u) st0 (pg_edges u (graph g))) as [st1| |] eqn:F;
    simpl; [|done|].
  - eapply (foldM_inv _ (λ st', (search_measure g st' <= search_measure g st0)%N)) in F;
      [lia|done|]. intros b e b' _ Hb Hr. apply relax_edge_measure in Hr. lia.
  - by eapply foldM_not_fuel in F; [|intros; apply relax_edge_not_fuel].
Qed.

Lemma initial_measure g src :
  (search_measure g (initial_search src) < 2 ^ N.of_nat (dijkstra_fuel g))%N.
Proof.
  unfold search_measure, initial_search. simpl.
  rewrite heap_push_items, heap_new_items. simpl.
  pose proof (sum_dist_bound (length (nodes g)) {[src := 0%N]}) as Hb.
  specialize (Hb ltac:(intros v c [-> <-]%lookup_singleton_Some; unfold u32_max; lia)).
  pose proof (N_lt_pow2 (length (nodes g))). unfold dijkstra_fuel.
  rewrite Nat2N.inj_add, N.pow_add_r. change (2 ^ N.of_nat 34)%N with 17179869184%N.
  unfold u32_max in *. lia.
Qed.

Lemma shortest_paths_eq p g src :
  shortest_paths p g src =
  run_loop (dijkstra_step p g) (dijkstra_fuel g) (initial_search src).
Proof. unfold shortest_paths. reflexivity. Qed.

Lemma shortest_paths_not_fuel p g src : shortest_paths p g src ≠ OutOfFuel.
Proof.
  apply (run_loop_measure _ (λ _, True) (search_measure g)); [done| |apply initial_measure].
  intros st _. pose proof (dijkstra_step_measure p g st) as H.
  by destruct (dijkstra_step p g st) as [[|]| |].
Qed.
End termination.

(** ** Correctness of the search *)

Section correctness.
#[local] Set Default Proof Using "All".
Context `{PS : PetGraphSpec string LinkWeight} `{BH : BinaryHeap DijkstraState}.
Context `{BS : !BinaryHeapSpec BH ds_cmp}.
Variables (p : profile) (g : GlobalGraph) (src : nat) (M : N).
Hypothesis Hwf : wf g.
Hypothesis Hsrc : src < length (nodes g).
Hypothesis HM : ∀ e, e ∈ pg_raw_edges (graph g) → (link_cost g (name g e.1.2) e.2 <= M)%N.
Hypothesis Hfit : (N.of_nat (length (nodes g)) * M < u32_max)%N.

Abbreviation edge := (nat * nat * LinkWeight)%type.
Implicit Types (e : edge) (es : list edge) (dist : gmap nat N) (preds : gmap nat nat).

(** *** Exact costs *)

Definition ecost (e : edge) : N := link_cost g (name g e.1.2) e.2.

Definition is_edge (e : edge) : Prop := e ∈ pg_raw_edges (graph g).

(** A walk by indices, listed from its end. *)
Inductive iwalk : list nat → N → Prop :=
| iwalk_src : iwalk [src] 0
| iwalk_edge u v w l c :
    iwalk (u :: l) c → is_edge (u, v, w) → iwalk (v :: u :: l) (c + ecost (u, v, w)).

(** A walk without repetition whose every prefix costs at least the current
    distance of its end. *)
Inductive traced dist : list nat → N → Prop :=
| traced_src : traced dist [src] 0
| traced_edge u v w l c dv :
    traced dist (u :: l) c → is_edge (u, v, w) → v ∉ u :: l →
    dist !! v = Some dv → (dv <= c + ecost (u, v, w))%N →
    traced dist (v :: u :: l) (c + ecost (u, v, w)).

(** The predecessor chain of a node, back to the source. *)
Inductive chain preds : list nat → Prop :=
| chain_src : chain preds [src]
| chain_pred u v l : preds !! v = Some u → chain preds (u :: l) → chain preds (v :: u :: l).

Definition relaxed dist (d : N) (e : edge) : Prop :=
  ∃ dv, dist !! e.1.2 = Some dv ∧ (dv <= d + ecost e)%N.

(** The loop invariant, with [es] the edges of the visited node still to relax. *)
Record inv es (st : Search) : Prop := {
  inv_src : distances st !! src = Some 0%N;
  inv_heap c u : mkDijkstraState c u ∈ heap_items (frontier st) →
    ∃ d, distances st !! u = Some d ∧ (d <= c)%N;
  inv_traced u d : distances st !! u = Some d → ∃ l, traced (distances st) (u :: l) d;
  inv_pred v u : predecessors st !! v = Some u →
    ∃ w du dv, is_edge (u, v, w) ∧ distances st !! u = Some du ∧
      distances st !! v = Some dv ∧ (du + ecost (u, v, w) <= dv)%N;
  inv_root : predecessors st !! src = None;
  inv_chain u d : distances st !! u = Some d → ∃ l, chain (predecessors st) (u :: l);
  inv_relaxed u d e : distances st !! u = Some d → is_edge e → e.1.1 = u →
    mkDijkstraState d u ∈ heap_items (frontier st) ∨ e ∈ es ∨ relaxed (distances st) d e;
}.

Lemma is_edge_range e : is_edge e → e.1.1 < length (nodes g) ∧ e.1.2 < length (nodes g).
Proof. apply (wf_range g Hwf). Qed.

Lemma traced_iwalk dist l c : traced dist l c → iwalk l c.
Proof. induction 1; by constructor. Qed.

Lemma traced_NoDup dist l c : traced dist l c → NoDup l.
Proof. induction 1; [apply NoDup_singleton|by constructor]. Qed.

Lemma traced_range dist l c : traced dist l c → Forall (λ v, v < length (nodes g)) l.
Proof.
  induction 1 as [|u v w l c dv _ IH He _ _ _]; constructor; try done.
  by apply is_edge_range in He as [].
Qed.

Lemma traced_bound dist l c : traced dist l c → (c + M <= N.of_nat (length l) * M)%N.
Proof.
  induction 1 as [|u v w l c dv _ IH He _ _ _].
  - simpl. lia.
  - simpl in *. pose proof (HM _ He). unfold ecost. simpl in *. lia.
Qed.

(** The next cost the code computes is exact and below [u32::MAX]. *)
Lemma traced_fits dist l d e :
  traced dist l d → is_edge e → (d + ecost e < u32_max)%N.
Proof.
  intros Ht He. pose proof (traced_bound _ _ _ Ht). pose proof (HM e He).
  pose proof (NoDup_range_length _ l (traced_NoDup _ _ _ Ht) (traced_range _ _ _ Ht)).
  unfold ecost. nia.
Qed.

Lemma traced_elem dist l c x :
  dist !! src = Some 0%N → traced dist l c → x ∈ l →
  ∃ dx, dist !! x = Some dx ∧ (dx <= c)%N.
Proof.
  intros H0. induction 1 as [|u v w l c dv _ IH He Hv Hdv Hle]; intros Hx.
  - apply list_elem_of_singleton in Hx as ->. eauto.
  - apply elem_of_cons in Hx as [->|Hx]; [by eauto|].
    destruct (IH Hx) as (dx & ? & ?). exists dx. split; [done|lia].
Qed.

(** Lowering a distance keeps the traces. *)
Lemma traced_insert dist l c v d :
  (∀ dv, dist !! v = Some dv → (d <= dv)%N) →
  traced dist l c → traced (<[v := d]> dist) l c.
Proof.
  intros Hd. induction 1 as [|u x w l c dx _ IH He Hx Hdx Hle]; [constructor|].
  destruct (decide (x = v)) as [->|Hne].
  - eapply (traced_edge _ _ _ _ _ _ d); try done.
    + by rewrite lookup_insert_eq.
    + specialize (Hd dx Hdx). lia.
  - eapply (traced_edge _ _ _ _ _ _ dx); try done. by rewrite lookup_insert_ne.
Qed.

Lemma edge_cost_exact e :
  is_edge e → edge_cost p g (name g e.1.2) e.2 = Ret (ecost e).
Proof.
  intros He. pose proof (HM e He) as Hle. unfold edge_cost, ecost, link_cost in *.
  assert (M <= u32_max)%N.
  { destruct (length (nodes g)) eqn:En; [lia|]. rewrite <- En in *. nia. }
  destruct (node_metadata g !! name g e.1.2) as [d|]; [|done].
  case_decide; [|done]. unfold u32_add.
  destruct (N.leb_spec (hop_cost e.2 + 10000) u32_max); [done|lia].
Qed.

(** *** Chains *)

Lemma chain_elem es st l x v d :
  inv es st → chain (predecessors st) (v :: l) → distances st !! v = Some d →
  x ∈ v :: l → ∃ dx, distances st !! x = Some dx ∧ (dx <= d)%N.
Proof.
  intros Hinv Hc. remember (v :: l) as vl eqn:Evl. revert v l d Evl.
  induction Hc as [|u v' l' Hp Hc IH]; intros v l d [= <- <-] Hd Hx.
  - apply list_elem_of_singleton in Hx as ->. eauto.
  - apply elem_of_cons in Hx as [->|Hx]; [by eauto|].
    destruct (inv_pred _ _ Hinv _ _ Hp) as (w & du & dv & _ & Hdu & Hdv & Hle).
    simplify_eq. destruct (IH u l' du) as (dx & ? & ?); try done.
    exists dx. split; [done|lia].
Qed.

Lemma chain_insert preds v u l :
  v ∉ l → chain preds l → chain (<[v := u]> preds) l.
Proof.
  intros Hv. induction 1 as [|x y l Hp Hc IH]; constructor.
  - rewrite lookup_insert_ne by set_solver. done.
  - apply IH. set_solver.
Qed.

Lemma chain_redirect preds v u lu x l :
  v ∉ u :: lu → chain preds (u :: lu) → chain preds (x :: l) →
  ∃ l', chain (<[v := u]> preds) (x :: l').
Proof.
  intros Hv Hu Hx. remember (x :: l) as xl eqn:Exl. revert x l Exl.
  induction Hx as [|z x l' Hp Hc IH]; intros ? l [= <- <-].
  - exists []. constructor.
  - destruct (IH z l' eq_refl) as [lz Hz].
    destruct (decide (x = v)) as [->|Hne].
    + exists (u :: lu). constructor; [by rewrite lookup_insert_eq|]. by apply chain_insert.
    + exists (z :: lz). constructor; [|done]. by rewrite lookup_insert_ne.
Qed.

(** *** One edge *)

Lemma relaxed_insert dist d e v c :
  (∀ dv, dist !! v = Some dv → (c <= dv)%N) → relaxed dist d e →
  relaxed (<[v := c]> dist) d e.
Proof.
  intros Hc (dv & Hdv & Hle). unfold relaxed.
  destruct (decide (e.1.2 = v)) as [<-|Hne].
  - exists c. rewrite lookup_insert_eq. split; [done|]. specialize (Hc dv Hdv). lia.
  - exists dv. by rewrite lookup_insert_ne.
Qed.

(** What an improvement of [v] through the edge [(u, v, w)] does to the state. *)
Definition improve (st : Search) (u v : nat) (c : N) : Search :=
  mkSearch (<[v := c]> (distances st)) (<[v := u]> (predecessors st))
    (heap_push (mkDijkstraState c v) (frontier st)).

Section improve.
Variables (es : list edge) (st : Search) (u v : nat) (w : LinkWeight) (du : N).
Let c : N := (du + ecost (u, v, w))%N.
Hypothesis Hinv : inv ((u, v, w) :: es) st.
Hypothesis Hdu : distances st !! u = Some du.
Hypothesis He : is_edge (u, v, w).
Hypothesis Hlt : (c < default u32_max (distances st !! v))%N.

Lemma improve_lt dv : distances st !! v = Some dv → (c < dv)%N.
Proof. intros Hdv. by rewrite Hdv in Hlt. Qed.

Lemma improve_le dv : distances st !! v = Some dv → (c <= dv)%N.
Proof. intros H%improve_lt. lia. Qed.

Lemma improve_ne x dx : distances st !! x = Some dx → (dx <= du)%N → x ≠ v.
Proof. intros Hdx Hle ->. apply improve_lt in Hdx. lia. Qed.

Lemma improve_heap c' x :
  mkDijkstraState c' x ∈ heap_items (heap_push (mkDijkstraState c v) (frontier st)) →
  ∃ d, <[v := c]> (distances st) !! x = Some d ∧ (d <= c')%N.
Proof.
  rewrite heap_push_items. intros [[= -> ->]|Hx]%elem_of_cons.
  { exists c. by rewrite lookup_insert_eq. }
  destruct (inv_heap _ _ Hinv _ _ Hx) as (d & Hd & Hle).
  destruct (decide (x = v)) as [->|]; [|exists d; by rewrite lookup_insert_ne].
  exists c. rewrite lookup_insert_eq. split; [done|]. apply improve_le in Hd. lia.
Qed.

Lemma improve_traced x d :
  <[v := c]> (distances st) !! x = Some d →
  ∃ l, traced (<[v := c]> (distances st)) (x :: l) d.
Proof.
  rewrite lookup_insert. case_decide.
  - intros [= <-]. subst x. destruct (inv_traced _ _ Hinv _ _ Hdu) as [l Hl].
    exists (u :: l). eapply (traced_edge _ _ _ _ _ _ c); try done.
    + apply traced_insert; [apply improve_le|done].
    + intros Hin. destruct (traced_elem _ _ _ v (inv_src _ _ Hinv) Hl Hin)
        as (dx & Hdx & Hle). by eapply improve_ne.
    + by rewrite lookup_insert_eq.
  - intros Hd. destruct (inv_traced _ _ Hinv _ _ Hd) as [l' Hl'].
    exists l'. apply traced_insert; [apply improve_le|done].
Qed.

Lemma improve_pred x y :
  <[v := u]> (predecessors st) !! x = Some y →
  ∃ w' dy dx, is_edge (y, x, w') ∧ <[v := c]> (distances st) !! y = Some dy ∧
    <[v := c]> (distances st) !! x = Some dx ∧ (dy + ecost (y, x, w') <= dx)%N.
Proof.
  rewrite lookup_insert. case_decide as Hx.
  - intros [= <-]. subst x. exists w, du, c.
    assert (u ≠ v) by (eapply improve_ne; [done|lia]).
    rewrite lookup_insert_ne, lookup_insert_eq by done. split_and!; try done; lia.
  - intros Hp. destruct (inv_pred _ _ Hinv _ _ Hp) as (w' & dy & dx & Hey & Hdy & Hdx & Hle).
    destruct (decide (y = v)) as [->|].
    + exists w', c, dx. rewrite lookup_insert_eq, lookup_insert_ne by done.
      split_and!; try done. apply improve_le in Hdy. lia.
    + exists w', dy, dx. by rewrite !lookup_insert_ne by done.
Qed.

Lemma improve_chain x d :
  <[v := c]> (distances st) !! x = Some d →
  ∃ l, chain (<[v := u]> (predecessors st)) (x :: l).
Proof.
  destruct (inv_chain _ _ Hinv _ _ Hdu) as [lc Hlc].
  assert (v ∉ u :: lc) as Hvlc.
  { intros Hin. destruct (chain_elem _ _ _ v _ _ Hinv Hlc Hdu Hin) as (dx & Hdx & Hle).
    by eapply improve_ne. }
  rewrite lookup_insert. case_decide.
  - intros _. subst x. exists (u :: lc). constructor; [by rewrite lookup_insert_eq|].
    by apply chain_insert.
  - intros Hd. destruct (inv_chain _ _ Hinv _ _ Hd) as [l' Hl']. by eapply chain_redirect.
Qed.

Lemma improve_relaxed x d e :
  <[v := c]> (distances st) !! x = Some d → is_edge e → e.1.1 = x →
  mkDijkstraState d x ∈ heap_items (heap_push (mkDijkstraState c v) (frontier st)) ∨
  e ∈ es ∨ relaxed (<[v := c]> (distances st)) d e.
Proof.
  rewrite heap_push_items, lookup_insert. case_decide.
  - intros [= <-] _ _. subst x. left. by left.
  - intros Hd Hex Hx. destruct (inv_relaxed _ _ Hinv _ _ _ Hd Hex Hx) as [Hh|[Hin|Hr]].
    + left. by right.
    + apply elem_of_cons in Hin as [->|Hin]; [|by right; left].
      right. right. simpl in Hx. subst x. simplify_eq. exists c.
      split; [apply lookup_insert_eq|done].
    + right. right. apply relaxed_insert; [apply improve_le|done].
Qed.

Lemma improve_inv : inv es (improve st u v c).
Proof.
  assert (src ≠ v) by (eapply improve_ne; [apply (inv_src _ _ Hinv)|lia]).
  split; simpl.
  - rewrite lookup_insert_ne by done. apply (inv_src _ _ Hinv).
  - apply improve_heap.
  - apply improve_traced.
  - apply improve_pred.
  - rewrite lookup_insert_ne by done. apply (inv_root _ _ Hinv).
  - apply improve_chain.
  - apply improve_relaxed.
Qed.
End improve.

Lemma relax_edge_inv es st e d :
  inv (e :: es) st → distances st !! e.1.1 = Some d → is_edge e →
  ∃ st', relax_edge p g d e.1.1 st e = Ret st' ∧ inv es st' ∧
         distances st' !! e.1.1 = Some d.
Proof.
  intros Hinv Hd He. destruct e as [[u v] w]. simpl in *.
  destruct (is_edge_range _ He) as [_ Hv]. simpl in Hv.
  destruct (inv_traced _ _ Hinv _ _ Hd) as [l Hl].
  pose proof (traced_fits _ _ _ _ Hl He) as Hfits.
  unfold relax_edge, graph_index. simpl. fold (nodes g).
  apply lookup_lt_is_Some in Hv as [x Hx]. rewrite Hx. simpl.
  rewrite <- (name_Some _ _ _ Hx).
  pose proof (edge_cost_exact (u, v, w) He) as Hec. simpl in Hec. rewrite Hec. simpl.
  unfold u32_add. destruct (N.leb_spec (d + ecost (u, v, w)) u32_max); [|lia]. simpl.
  destruct (N.ltb_spec (d + ecost (u, v, w)) (default u32_max (distances st !! v)))
    as [Hlt|Hge].
  - eexists. split; [done|]. split; [by apply improve_inv|]. simpl.
    rewrite lookup_insert_ne; [done|]. intros ->. rewrite Hd in Hlt. simpl in Hlt. lia.
  - exists st. split; [done|]. split; [|done]. destruct Hinv. split; try done.
    intros x' d' e' Hd' He' Hx'. edestruct inv_relaxed0 as [|[Hin|]]; eauto.
    apply elem_of_cons in Hin as [->|]; [|by eauto]. right. right.
    simpl in Hx'. subst x'. simplify_eq. unfold relaxed. simpl.
    destruct (distances st !! v) as [dv|] eqn:Hdv; simpl in Hge; [by eauto|lia].
Qed.

Lemma relax_edges_inv es st u d :
  inv es st → distances st !! u = Some d →
  (∀ e, e ∈ es → is_edge e ∧ e.1.1 = u) →
  ∃ st', foldM (relax_edge p g d u) st es = Ret st' ∧ inv [] st'.
Proof.
  revert st. induction es as [|e es IH]; intros st Hinv Hd Hes; simpl; [by eauto|].
  destruct (Hes e) as [He <-]; [by left|].
  destruct (relax_edge_inv es st e d) as (st' & -> & Hinv' & Hd'); try done. simpl.
  apply IH; try done. intros e' Hin. apply Hes. by right.
Qed.

(** *** One round *)

Lemma elem_of_pg_edges u e : e ∈ pg_edges u (graph g) ↔ is_edge e ∧ e.1.1 = u.
Proof. rewrite (pg_edges_spec u (graph g)), list_elem_of_filter. tauto. Qed.

Lemma dijkstra_step_inv st :
  inv [] st → ∃ r, dijkstra_step p g st = Ret r ∧
  match r with inl st' => inv [] st' | inr st' => inv [] st' ∧ heap_items (frontier st') = [] end.
Proof.
  intros Hinv. unfold dijkstra_step.
  destruct (heap_pop (frontier st)) as [[[c u] rest]|] eqn:E.
  2: { apply heap_pop_None in E. by eexists. }
  apply heap_pop_Some in E as [Hitems _]. simpl.
  destruct (inv_heap _ _ Hinv c u) as (d & Hd & Hle); [rewrite Hitems; by left|].
  rewrite Hd. simpl. set (st0 := mkSearch (distances st) (predecessors st) rest).
  assert (∀ c' x, mkDijkstraState c' x ∈ heap_items rest →
            mkDijkstraState c' x ∈ heap_items (frontier st)) as Hrest.
  { intros. rewrite Hitems. by right. }
  assert (∀ es, (∀ e, is_edge e → e.1.1 = u → d = c → e ∈ es) → inv es st0) as Hinv0.
  { intros es Hes. destruct Hinv as [H1 H2 H3 H4 H5 H6 H7]. split; simpl; eauto.
    intros x dx e Hdx He Hx. destruct (H7 _ _ _ Hdx He Hx) as [Hh|[Hin|Hr]].
    - rewrite Hitems in Hh. apply elem_of_cons in Hh as [[= -> ->]|Hh]; [|by left].
      right. left. apply Hes; try done. congruence.
    - by apply elem_of_nil in Hin.
    - by right; right. }
  destruct (N.ltb_spec d c) as [Hlt|Hge].
  - exists (inl st0). split; [done|]. apply Hinv0. intros; lia.
  - assert (d = c) as -> by lia.
    destruct (relax_edges_inv (pg_edges u (graph g)) st0 u c) as (st' & -> & Hinv').
    + apply Hinv0. intros e He Hu _. by apply elem_of_pg_edges.
    + done.
    + intros e He. by apply elem_of_pg_edges.
    + by exists (inl st').
Qed.

Lemma initial_inv : inv [] (initial_search src).
Proof.
  split; simpl.
  - by rewrite lookup_singleton_eq.
  - intros c u. rewrite heap_push_items, heap_new_items.
    intros [= -> ->]%list_elem_of_singleton. exists 0%N. by rewrite lookup_singleton_eq.
  - intros u d [<- <-]%lookup_singleton_Some. exists []. constructor.
  - intros v u. by rewrite lookup_empty.
  - done.
  - intros u d [<- <-]%lookup_singleton_Some. exists []. constructor.
  - intros u d e [<- <-]%lookup_singleton_Some _ _. left.
    rewrite heap_push_items. by left.
Qed.

(** *** The result *)

Lemma search_loop_inv k st :
  run_loop (dijkstra_step p g) k (initial_search src) = Ret st →
  inv [] st ∧ heap_items (frontier st) = [].
Proof.
  apply (run_loop_inv _ (inv []) (λ st, inv [] st ∧ heap_items (frontier st) = []));
    [apply initial_inv| |];
    intros s s' Hs Es; destruct (dijkstra_step_inv s Hs) as (r & Er & Hr);
    rewrite Es in Er; by injection Er as <-.
Qed.

Lemma search_loop_no_panic k :
  run_loop (dijkstra_step p g) k (initial_search src) ≠ Panic.
Proof.
  apply (run_loop_no_panic _ (inv [])); [apply initial_inv|].
  intros s Hs. destruct (dijkstra_step_inv s Hs) as (r & -> & Hr). by destruct r.
Qed.

Lemma search_loop_returns k :
  run_loop (dijkstra_step p g) k (initial_search src) ≠ OutOfFuel →
  ∃ st, run_loop (dijkstra_step p g) k (initial_search src) = Ret st ∧
    inv [] st ∧ heap_items (frontier st) = [].
Proof.
  intros Hfuel. pose proof (search_loop_inv k) as Hok.
  pose proof (search_loop_no_panic k) as Hno.
  destruct (run_loop _ k _) as [st| |]; try done. eauto.
Qed.

Lemma shortest_paths_inv :
  ∃ st, shortest_paths p g src = Ret st ∧ inv [] st ∧ heap_items (frontier st) = [].
Proof.
  pose proof (shortest_paths_not_fuel p g src) as Hfuel.
  rewrite shortest_paths_eq in Hfuel |- *. exact (search_loop_returns _ Hfuel).
Qed.

(** The distances are the costs of the cheapest walks. *)
Lemma iwalk_distance st v l c :
  inv [] st → heap_items (frontier st) = [] → iwalk (v :: l) c →
  ∃ d, distances st !! v = Some d ∧ (d <= c)%N.
Proof.
  intros Hinv Hh Hw. remember (v :: l) as vl eqn:Evl. revert v l Evl.
  induction Hw as [|u v' w l' c Hw IH He]; intros v l [= <- <-].
  - exists 0%N. split; [apply (inv_src _ _ Hinv)|done].
  - destruct (IH u l' eq_refl) as (d & Hd & Hle).
    destruct (inv_relaxed _ _ Hinv _ _ _ Hd He eq_refl) as [Hin|[Hin|(dv & Hdv & Hle')]].
    + rewrite Hh in Hin. by apply elem_of_nil in Hin.
    + by apply elem_of_nil in Hin.
    + exists dv. split; [done|]. lia.
Qed.

(** Along a predecessor chain the walk costs exactly the distance. *)
Lemma chain_iwalk st v l d :
  inv [] st → heap_items (frontier st) = [] → chain (predecessors st) (v :: l) →
  distances st !! v = Some d → iwalk (v :: l) d.
Proof.
  intros Hinv Hh Hc. remember (v :: l) as vl eqn:Evl. revert v l d Evl.
  induction Hc as [|u v' l' Hp Hc IH]; intros v l d [= <- <-] Hd.
  - rewrite (inv_src _ _ Hinv) in Hd. injection Hd as <-. constructor.
  - destruct (inv_pred _ _ Hinv _ _ Hp) as (w & du & dv & He & Hdu & Hdv & Hle).
    assert (d = dv) as -> by congruence.
    assert (iwalk (u :: l') du) as Hw by by eapply IH.
    pose proof (iwalk_edge u v' w l' du Hw He) as Hw'.
    destruct (iwalk_distance st _ _ _ Hinv Hh Hw') as (dv' & Hdv' & Hle').
    assert (dv' = dv) as -> by congruence.
    assert (dv = du + ecost (u, v', w))%N as -> by lia. done.
Qed.
(** What the walk back relies on. *)
Lemma shortest_paths_spec :
  ∃ st, shortest_paths p g src = Ret st ∧
    predecessors st !! src = None ∧
    (∀ v u, predecessors st !! v = Some u →
      (∃ w, (u, v, w) ∈ pg_raw_edges (graph g)) ∧
      ∃ l, chain (predecessors st) (v :: l)) ∧
    (∀ v l c, iwalk (v :: l) c →
      ∃ l0 c0, chain (predecessors st) (v :: l0) ∧ iwalk (v :: l0) c0 ∧
        ∀ l' c', iwalk (v :: l') c' → (c0 <= c')%N).
Proof.
  destruct shortest_paths_inv as (st & E & Hinv & Hh). exists st. split; [done|].
  split; [apply (inv_root _ _ Hinv)|]. split.
  - intros v u Hp. destruct (inv_pred _ _ Hinv _ _ Hp) as (w & du & dv & He & _ & Hdv & _).
    split; [by exists w|]. by eapply inv_chain.
  - intros v l c Hw. destruct (iwalk_distance _ _ _ _ Hinv Hh Hw) as (d & Hd & _).
    destruct (inv_chain _ _ Hinv _ _ Hd) as [l0 Hl0]. exists l0, d.
    split; [done|]. split; [by apply (chain_iwalk st)|].
    intros l' c' Hw'. destruct (iwalk_distance _ _ _ _ Hinv Hh Hw') as (d' & Hd' & Hle).
    congruence.
Qed.
End correctness.
