(* ===== verification/TreeFacts.v ===== *)
(** * Facts about the forwarding tree

    The walks from the subscribers back to the source, over any predecessor map
    whose chains all end at the source: they return, and the tree they collect
    holds exactly the links of the subscribers' chains. *)
From S2P Require Import Prelude Proto Graph GraphFacts Dijkstra DijkstraFacts.
From stdpp Require Import options.

Definition tree_edge (t : gmap string (gset string)) (a b : string) : Prop :=
  b ∈ default ∅ (t !! a).

Lemma tree_edge_empty a b : ¬ tree_edge ∅ a b.
Proof. unfold tree_edge. rewrite lookup_empty. set_solver. Qed.

Lemma tree_edge_add_child x y t a b :
  tree_edge (add_child x y t) a b ↔ (a = x ∧ b = y) ∨ tree_edge t a b.
Proof.
  unfold tree_edge, add_child. rewrite lookup_insert. case_decide as Ha; simpl.
  - subst. set_solver.
  - naive_solver.
Qed.

Lemma tree_edge_sends `{HS : HashOrderSpec} t a b :
  sends (into_targets t) a b ↔ tree_edge t a b.
Proof.
  unfold sends, tree_edge, into_targets. rewrite lookup_fmap.
  destruct (t !! a) as [s|]; simpl.
  - split.
    + intros (? & [= <-] & Hb). simpl in Hb. rewrite (set_iter_perm s) in Hb. set_solver.
    + intros Hb. eexists. split; [done|]. simpl. rewrite (set_iter_perm s). set_solver.
  - split; [intros (? & ? & _); done|set_solver].
Qed.

Section tree.
#[local] Set Default Proof Using "All".
Context `{PS : PetGraphSpec string LinkWeight}.
Variables (g : GlobalGraph) (preds : gmap nat nat) (src : nat).
Hypothesis Hwf : wf g.
Hypothesis Hsrc : src < length (nodes g).
Hypothesis Hroot : preds !! src = None.
Hypothesis Hlink : ∀ v u, preds !! v = Some u → ∃ w, (u, v, w) ∈ pg_raw_edges (graph g).
Hypothesis Hchain : ∀ v u, preds !! v = Some u → ∃ l, chain src preds (v :: l).

Abbreviation chain := (chain src preds).
Abbreviation bounded := (Forall (λ v, v < length (nodes g))).
Abbreviation names := (fmap (name g)).

(** ** Chains *)

Lemma pred_range v u : preds !! v = Some u → u < length (nodes g) ∧ v < length (nodes g).
Proof. intros [w Hw]%Hlink. by apply (wf_range g Hwf) in Hw. Qed.

Lemma chain_head v l : chain (v :: l) → v = src ∧ l = [] ∨
  ∃ u l', l = u :: l' ∧ preds !! v = Some u ∧ chain (u :: l').
Proof. inversion 1; subst; eauto 10. Qed.

Lemma chain_root l : chain (src :: l) → l = [].
Proof. intros [[_ ->]|(u & l' & _ & Hp & _)]%chain_head; [done|congruence]. Qed.

Lemma chain_unique v l l' : chain (v :: l) → chain (v :: l') → l = l'.
Proof.
  intros Hc. remember (v :: l) as vl eqn:E. revert v l l' E.
  induction Hc as [|u v' l0 Hp Hc IH]; intros v l l' [= <- <-] Hc'.
  - by apply chain_root in Hc'.
  - apply chain_head in Hc' as [[-> _]|(u' & l1 & -> & Hp' & Hc')]; [congruence|].
    assert (u' = u) as -> by congruence. f_equal. by eapply IH.
Qed.

Lemma chain_suffix l x : chain l → x ∈ l → ∃ l1 l2, l = l1 ++ x :: l2 ∧ chain (x :: l2).
Proof.
  induction 1 as [|u v l Hp Hc IH]; intros Hx.
  - apply list_elem_of_singleton in Hx as ->. exists [], []. split; [done|constructor].
  - apply elem_of_cons in Hx as [->|Hx].
    + exists [], (u :: l). split; [done|]. by constructor.
    + destruct (IH Hx) as (l1 & l2 & -> & ?). by exists (v :: l1), l2.
Qed.

Lemma chain_NoDup l : chain l → NoDup l.
Proof.
  induction 1 as [|u v l Hp Hc IH]; [apply NoDup_singleton|].
  constructor; [|done]. intros Hin.
  destruct (chain_suffix _ _ Hc Hin) as (l1 & l2 & El & Hc2).
  assert (u :: l = l2) as Eq.
  { apply (chain_unique v); [by constructor|done]. }
  rewrite El in Eq. apply (f_equal length) in Eq. rewrite length_app in Eq. simpl in Eq. lia.
Qed.

Lemma chain_bounded l : chain l → bounded l.
Proof.
  induction 1 as [|u v l Hp Hc IH]; constructor; try done. by apply pred_range in Hp as [].
Qed.

Lemma chain_length l : chain l → length l <= length (nodes g).
Proof.
  intros Hc. apply NoDup_range_length; [by apply chain_NoDup|by apply chain_bounded].
Qed.

Lemma name_bounded_inj l x y :
  bounded l → x ∈ l → y ∈ l → name g x = name g y → x = y.
Proof.
  rewrite Forall_forall. intros Hl Hx Hy. apply name_inj; auto.
Qed.

(** ** One walk back *)

(** The links a subscriber with index [v] contributes. *)
Definition chain_edge (v : nat) (a b : string) : Prop :=
  ∃ l x y, chain (v :: l) ∧ y ∈ v :: l ∧ preds !! y = Some x ∧ a = name g x ∧ b = name g y.

Lemma graph_index_name i : i < length (nodes g) → graph_index (graph g) i = Ret (name g i).
Proof.
  intros [x Hx]%lookup_lt_is_Some. unfold graph_index. fold (nodes g). rewrite Hx.
  by rewrite (name_Some _ _ _ Hx).
Qed.

Lemma walk_step_pred v u t :
  preds !! v = Some u →
  walk_step g preds src (v, t) =
    let t' := add_child (name g u) (name g v) t in
    if decide (u = src) then Ret (inr t') else Ret (inl (u, t')).
Proof.
  intros Hp. destruct (pred_range _ _ Hp). unfold walk_step. simpl. rewrite Hp.
  by rewrite !graph_index_name by done.
Qed.

Lemma chain_edge_root a b : ¬ chain_edge src a b.
Proof.
  intros (l & x & y & Hc & Hy & Hp & _). apply chain_root in Hc as ->.
  apply list_elem_of_singleton in Hy as ->. congruence.
Qed.

Lemma chain_edge_pred v u a b l :
  preds !! v = Some u → chain (u :: l) →
  chain_edge v a b ↔ (a = name g u ∧ b = name g v) ∨ chain_edge u a b.
Proof.
  intros Hp Hc. split.
  - intros (l' & x & y & Hc' & Hy & Hxy & -> & ->).
    apply chain_head in Hc' as [[-> ->]|(u' & l1 & -> & Hp' & Hc')]; [congruence|].
    assert (u' = u) as -> by congruence. apply elem_of_cons in Hy as [->|Hy].
    + left. assert (x = u) as -> by congruence. done.
    + right. by exists l1, x, y.
  - intros [[-> ->]|(l' & x & y & Hc' & Hy & Hxy & -> & ->)].
    + exists (u :: l), u, v. split_and!; try done; [by constructor|by left].
    + exists (u :: l'), x, y. split_and!; try done; [by constructor|by right].
Qed.

Lemma walk_runs v l t :
  chain (v :: l) →
  ∃ k t', runs (walk_step g preds src) k (v, t) t' ∧ k <= length l ∧
    ∀ a b, tree_edge t' a b ↔ tree_edge t a b ∨ chain_edge v a b.
Proof.
  intros Hc. remember (v :: l) as vl eqn:E. revert v l t E.
  induction Hc as [|u v' l' Hp Hc IH]; intros v l t [= <- <-].
  - exists 0, t. split; [|split; [lia|]].
    + constructor. unfold walk_step. simpl. by rewrite Hroot.
    + intros a b. pose proof (chain_edge_root a b). tauto.
  - pose proof (walk_step_pred _ _ t Hp) as Hstep. simpl in Hstep.
    set (t1 := add_child (name g u) (name g v') t) in *. case_decide as Hu.
    + subst u. exists 0, t1. split; [by constructor|]. split; [lia|]. intros a b.
      rewrite (chain_edge_pred _ _ _ _ _ Hp Hc). unfold t1. rewrite tree_edge_add_child.
      pose proof (chain_edge_root a b). tauto.
    + destruct (IH u l' t1 eq_refl) as (k & t' & Hr & Hk & Ht').
      exists (S k), t'. split; [by econstructor|]. split; [simpl; lia|]. intros a b.
      rewrite Ht', (chain_edge_pred _ _ _ _ _ Hp Hc). unfold t1.
      rewrite tree_edge_add_child. tauto.
Qed.

(** ** All subscribers *)

Definition sub_edge (sub a b : string) : Prop :=
  ∃ v, node_indices g !! sub = Some v ∧ chain_edge v a b.

Lemma add_subscriber_spec fuel t sub :
  length (nodes g) < 2 ^ fuel →
  ∃ t', add_subscriber fuel g preds src t sub = Ret t' ∧
    ∀ a b, tree_edge t' a b ↔ tree_edge t a b ∨ sub_edge sub a b.
Proof.
  intros Hfuel. unfold add_subscriber, sub_edge.
  destruct (node_indices g !! sub) as [v|]; [|by exists t; naive_solver].
  assert ((∃ l, chain (v :: l)) ∨ preds !! v = None ∧ v ≠ src) as [[l Hc]|[Hv Hne]].
  { destruct (preds !! v) as [u|] eqn:Hp; [left; by eapply Hchain|].
    destruct (decide (v = src)) as [->|]; [left; exists []; constructor|by right]. }
  - destruct (walk_runs v l t Hc) as (k & t' & Hr & Hk & Ht').
    apply chain_length in Hc. simpl in Hc. exists t'. split.
    + eapply run_loop_runs; [done|lia].
    + naive_solver.
  - exists t. split.
    + apply (run_loop_runs _ _ 0); [|lia]. constructor. unfold walk_step. simpl. by rewrite Hv.
    + intros a b. split; [by left|]. intros [?|(v' & [= <-] & l & x & y & Hc & _)]; [done|].
      apply chain_head in Hc as [[? _]|(u & ? & _ & ? & _)]; congruence.
Qed.

Lemma add_subscribers_spec fuel t subs :
  length (nodes g) < 2 ^ fuel →
  ∃ t', foldM (add_subscriber fuel g preds src) t subs = Ret t' ∧
    ∀ a b, tree_edge t' a b ↔ tree_edge t a b ∨ ∃ sub, sub ∈ subs ∧ sub_edge sub a b.
Proof.
  intros Hfuel. revert t. induction subs as [|sub subs IH]; intros t; simpl.
  - exists t. set_solver.
  - destruct (add_subscriber_spec fuel t sub Hfuel) as (t1 & -> & H1). simpl.
    destruct (IH t1) as (t' & -> & H2). exists t'. split; [done|].
    intros a b. rewrite H2, H1. set_solver.
Qed.

(** ** The collected tree *)

Section collected.
Variables (subs : gset string) (table : gmap string ForwardingTargets).
Hypothesis Htable : ∀ a b, sends table a b ↔ ∃ sub, sub ∈ subs ∧ sub_edge sub a b.

Lemma sends_pred a b :
  sends table a b → ∃ x y, preds !! y = Some x ∧ a = name g x ∧ b = name g y.
Proof. intros (? & _ & v & _ & l & x & y & _ & _ & ? & ? & ?)%Htable. eauto. Qed.

Lemma sends_name x y :
  y < length (nodes g) → x < length (nodes g) →
  sends table (name g x) (name g y) → preds !! y = Some x.
Proof.
  intros Hy Hx (x' & y' & Hp & Ex & Ey)%sends_pred. destruct (pred_range _ _ Hp).
  apply name_inj in Ex as ->; try done. by apply name_inj in Ey as ->.
Qed.

Lemma chain_sends v l sub :
  sub ∈ subs → node_indices g !! sub = Some v → chain (v :: l) →
  ∀ x y, y ∈ v :: l → preds !! y = Some x → sends table (name g x) (name g y).
Proof.
  intros Hsub Hv Hc x y Hy Hp. apply Htable. exists sub. split; [done|].
  exists v. split; [done|]. by exists l, x, y.
Qed.

Lemma chain_delivery l :
  (∀ x y, y ∈ l → preds !! y = Some x → sends table (name g x) (name g y)) →
  chain l → delivery table (name g src) (names l).
Proof.
  intros Hs. induction 1 as [|u v l Hp Hc IH]; [constructor|]. simpl. constructor.
  - apply IH. intros x y Hy. apply Hs. by right.
  - apply Hs; [by left|done].
Qed.

Lemma chain_leads v l y :
  (∀ x y, y ∈ v :: l → preds !! y = Some x → sends table (name g x) (name g y)) →
  chain (v :: l) → y ∈ v :: l → rtc (sends table) (name g y) (name g v).
Proof.
  intros Hs Hc. remember (v :: l) as vl eqn:E. revert v l E Hs.
  induction Hc as [|u v' l' Hp Hc IH]; intros v l [= <- <-] Hs Hy.
  - apply list_elem_of_singleton in Hy as ->. apply rtc_refl.
  - apply elem_of_cons in Hy as [->|Hy]; [apply rtc_refl|].
    eapply rtc_r; [apply (IH u l')|]; try done.
    + intros x z Hz. apply Hs. by right.
    + apply Hs; [by left|done].
Qed.

Lemma delivery_chain l :
  delivery table (name g src) l → ∃ il, l = names il ∧ chain il.
Proof.
  induction 1 as [|u v l Hd (il & E & Hc) Hs].
  - exists [src]. split; [done|constructor].
  - destruct (sends_pred _ _ Hs) as (x & y & Hp & Eu & ->).
    destruct il as [|x' il]; [done|]. injection E as Ex Eil.
    assert (x' = x) as ->.
    { pose proof (chain_bounded _ Hc) as Hb. inversion Hb; subst.
      destruct (pred_range _ _ Hp). apply (name_inj g); congruence. }
    exists (y :: x :: il). split; [simpl; congruence|]. by constructor.
Qed.

Lemma delivery_NoDup l : delivery table (name g src) l → NoDup l.
Proof.
  intros (il & -> & Hc)%delivery_chain. apply NoDup_fmap_2_strong; [|by apply chain_NoDup].
  intros x y Hx Hy. apply (name_bounded_inj il); try done. by apply chain_bounded.
Qed.

Lemma sends_not_source u : ¬ sends table u (name g src).
Proof.
  intros (x & y & Hp & _ & Ey)%sends_pred. destruct (pred_range _ _ Hp).
  apply name_inj in Ey as <-; try done. congruence.
Qed.

Lemma sends_unique u u' v : sends table u v → sends table u' v → u = u'.
Proof.
  intros (x & y & Hp & -> & ->)%sends_pred (x' & y' & Hp' & -> & Ey)%sends_pred.
  destruct (pred_range _ _ Hp), (pred_range _ _ Hp').
  apply name_inj in Ey as <-; try done. congruence.
Qed.

Lemma sends_link u v : sends table u v → is_Some (links g !! (u, v)).
Proof.
  intros (x & y & Hp & -> & ->)%sends_pred. destruct (pred_range _ _ Hp).
  apply Hlink in Hp as [w Hw]. exists w. by apply links_edge.
Qed.

Lemma sends_on_path u v :
  sends table u v →
  ∃ sub l, sub ∈ subs ∧ delivery table (name g src) (v :: u :: l) ∧ rtc (sends table) v sub.
Proof.
  intros (sub & Hsub & i & Hi & l & x & y & Hc & Hy & Hp & -> & ->)%Htable.
  destruct (chain_suffix _ _ Hc Hy) as (l1 & l2 & El & Hc2).
  apply chain_head in Hc2 as Hc3.
  destruct Hc3 as [[-> _]|(x' & l3 & -> & Hp' & Hc3)]; [congruence|].
  assert (x' = x) as -> by congruence.
  pose proof (chain_sends _ _ _ Hsub Hi Hc) as Hs.
  exists sub, (names l3). split; [done|]. split.
  - apply (chain_delivery (y :: x :: l3)); [|done].
    intros a b Hb. apply Hs. rewrite El. set_solver.
  - apply wf_index in Hi; [|done]. rewrite <- (name_Some _ _ _ Hi). by eapply chain_leads.
Qed.
End collected.
End tree.
