(* ===== verification/RoutingFacts.v ===== *)
(** * Correctness of forwarding tables

    The search and the walks back put together, stated by node names: what
    [compute_forwarding_table] returns when no path overflows, and that the search
    returns on every graph. *)
From S2P Require Import Prelude Proto Graph GraphFacts Dijkstra DijkstraFacts TreeFacts.
From stdpp Require Import options.

(** ** Walks by index and routes by name *)

Section routes.
#[local] Set Default Proof Using "Type*".
Context `{PS : PetGraphSpec string LinkWeight}.
Implicit Types g : GlobalGraph.

Lemma iwalk_bounded g src l c :
  wf g → src < length (nodes g) → iwalk g src l c → Forall (λ v, v < length (nodes g)) l.
Proof.
  intros Hwf Hsrc. induction 1 as [|u v w l c _ IH He]; constructor; try done.
  by apply (wf_range g Hwf) in He as [].
Qed.

Lemma iwalk_route g src l c :
  wf g → src < length (nodes g) → iwalk g src l c → route g (name g src) (name g <$> l) c.
Proof.
  intros Hwf Hsrc. induction 1 as [|u v w l c Hw IH He]; [constructor|].
  simpl. unfold ecost. simpl. constructor; [done|].
  apply (wf_range g Hwf) in He as Hr. destruct Hr. by apply links_edge.
Qed.

Lemma route_iwalk g src l c :
  wf g → src < length (nodes g) → route g (name g src) l c →
  ∃ il, l = name g <$> il ∧ iwalk g src il c.
Proof.
  intros Hwf Hsrc. induction 1 as [|u v w l c _ (il & E & Hw) Hl].
  - exists [src]. split; [done|constructor].
  - destruct il as [|i il]; [done|]. injection E as -> ->.
    apply links_nodes in Hl as Hn; [|done]. destruct Hn as (_ & j & _ & Hj & _).
    apply wf_index in Hj as Hj'; [|done].
    pose proof (name_Some _ _ _ Hj') as <-. apply lookup_lt_Some in Hj'.
    exists (j :: i :: il). split; [done|].
    apply (iwalk_bounded g src) in Hw as Hb; try done. inversion Hb; subst.
    apply (iwalk_edge g src i j w il c Hw). by apply links_edge.
Qed.
End routes.

(** ** The table *)

Section table.
#[local] Set Default Proof Using "Type*".
Context `{PS : PetGraphSpec string LinkWeight} `{BH : BinaryHeap DijkstraState}.
Context `{BS : !BinaryHeapSpec BH ds_cmp} `{HS : HashOrderSpec}.
Implicit Types g : GlobalGraph.

(** The result in terms of one predecessor map. *)
Lemma compute_forwarding_table_spec p fuel g source src subs :
  wf g → costs_fit g → node_indices g !! source = Some src →
  length (nodes g) < 2 ^ fuel →
  ∃ table preds,
    compute_forwarding_table p fuel g source subs = Ret table ∧
    (∀ a b, sends table a b ↔ ∃ sub, sub ∈ subs ∧ sub_edge g preds src sub a b) ∧
    (∀ a targets, table !! a = Some targets → NoDup (send_to targets)) ∧
    preds !! src = None ∧
    (∀ v u, preds !! v = Some u →
      (∃ w, (u, v, w) ∈ pg_raw_edges (graph g)) ∧ ∃ l, chain src preds (v :: l)) ∧
    (∀ v l c, iwalk g src (v :: l) c →
      ∃ l0 c0, chain src preds (v :: l0) ∧ iwalk g src (v :: l0) c0 ∧
        ∀ l' c', iwalk g src (v :: l') c' → (c0 <= c')%N).
Proof.
  intros Hwf (M & HM & Hfit) Hs Hfuel. apply index_lt in Hs as Hsrc; [|done].
  assert (∀ e, e ∈ pg_raw_edges (graph g) → (link_cost g (name g e.1.2) e.2 <= M)%N) as HM'.
  { intros e He. rewrite Forall_forall in HM.
    by apply (HM (named_edge g e)), list_elem_of_fmap_2. }
  destruct (shortest_paths_spec p g src M Hwf Hsrc HM' Hfit) as (st & E & Hroot & Hp & Hopt).
  destruct (add_subscribers_spec g (predecessors st) src Hwf Hsrc Hroot
    (λ v u H, proj1 (Hp v u H)) (λ v u H, proj2 (Hp v u H)) fuel ∅ (set_iter subs) Hfuel)
    as (t & Et & Ht).
  unfold compute_forwarding_table. rewrite Hs, E. simpl. rewrite Et. simpl.
  case_decide as Hsubs.
  - subst subs. exists ∅, (predecessors st). split; [done|]. split; [|done].
    intros a b. split; [|set_solver]. intros (? & Ha & _). by rewrite lookup_empty in Ha.
  - exists (into_targets t), (predecessors st). split; [done|]. split; [|split; [|done]].
    + intros a b. rewrite tree_edge_sends, Ht. setoid_rewrite (set_iter_perm subs).
      setoid_rewrite elem_of_elements. pose proof (tree_edge_empty a b). tauto.
    + intros a targets. unfold into_targets. rewrite lookup_fmap.
      destruct (t !! a) as [s|]; [|done]. simpl. intros [= <-]. simpl.
      rewrite (set_iter_perm s). apply NoDup_elements.
Qed.

Lemma least_cost_delivery g src preds (subs : gset string) table v l c :
  wf g → src < length (nodes g) → preds !! src = None →
  (∀ v u, preds !! v = Some u →
    (∃ w, (u, v, w) ∈ pg_raw_edges (graph g)) ∧ ∃ l, chain src preds (v :: l)) →
  (∀ v l c, iwalk g src (v :: l) c →
    ∃ l0 c0, chain src preds (v :: l0) ∧ iwalk g src (v :: l0) c0 ∧
      ∀ l' c', iwalk g src (v :: l') c' → (c0 <= c')%N) →
  (∀ a b, sends table a b ↔ ∃ sub, sub ∈ subs ∧ sub_edge g preds src sub a b) →
  v ∈ subs → route g (name g src) (v :: l) c →
  ∃ l c, delivery table (name g src) (v :: l) ∧ route g (name g src) (v :: l) c ∧
    ∀ l' c', route g (name g src) (v :: l') c' → (c <= c')%N.
Proof.
  intros Hwf Hsrc Hroot Hp Hopt Ht Hsub Hr.
  pose proof (λ v u H, proj1 (Hp v u H)) as H1. pose proof (λ v u H, proj2 (Hp v u H)) as H2.
  destruct (route_iwalk _ _ _ _ Hwf Hsrc Hr) as ([|i il] & Eq & Hw); [done|].
  injection Eq as Ev El. destruct (Hopt _ _ _ Hw) as (l0 & c0 & Hc & Hw0 & Hbest).
  exists (name g <$> l0), c0. subst v. split; [|split].
  - apply (chain_delivery g preds src Hwf Hsrc Hroot H1 H2 subs table Ht (i :: l0)); [|done].
    apply (chain_sends g preds src Hwf Hsrc Hroot H1 H2 subs table Ht i l0 (name g i)); try done.
    apply name_index; [done|]. apply (iwalk_bounded g src) in Hw; try done. by inversion Hw.
  - by apply (iwalk_route g src (i :: l0)).
  - intros l' c' Hr'. destruct (route_iwalk _ _ _ _ Hwf Hsrc Hr') as ([|i' il'] & Eq & Hw'); [done|].
    injection Eq as Ei _. apply (Hbest il'). replace i with i'; [done|].
    apply (iwalk_bounded g src) in Hw, Hw'; try done. inversion Hw; inversion Hw'; subst.
    by apply (name_inj g).
Qed.

(** The table delivers along cheapest routes and is a pruned tree. *)
Lemma forwarding_table_correct p fuel g source subs :
  wf g → costs_fit g → is_Some (node_indices g !! source) → length (nodes g) < 2 ^ fuel →
  ∃ table, compute_forwarding_table p fuel g source subs = Ret table ∧
    (∀ sub, sub ∈ subs → reachable g source sub →
      ∃ l c, delivery table source (sub :: l) ∧ route g source (sub :: l) c ∧
        ∀ l' c', route g source (sub :: l') c' → (c <= c')%N) ∧
    tree_table table source ∧
    (∀ u v, sends table u v → is_Some (links g !! (u, v))) ∧
    (∀ l, delivery table source l → NoDup l) ∧
    (∀ u v, sends table u v → ∃ sub, sub ∈ subs ∧ rtc (sends table) v sub).
Proof.
  intros Hwf Hfit [src Hs] Hfuel.
  destruct (compute_forwarding_table_spec p fuel g source src subs Hwf Hfit Hs Hfuel)
    as (table & preds & E & Ht & Hnd & Hroot & Hp & Hopt).
  exists table. split; [done|]. apply index_lt in Hs as Hsrc; [|done].
  apply wf_index in Hs; [|done]. pose proof (name_Some _ _ _ Hs) as <-.
  pose proof (λ v u H, proj1 (Hp v u H)) as H1. pose proof (λ v u H, proj2 (Hp v u H)) as H2.
  split_and!.
  - intros sub Hsub (l & c & Hr). by eapply least_cost_delivery.
  - split.
    + by apply (sends_unique g preds src Hwf Hsrc Hroot H1 H2 subs).
    + by apply (sends_not_source g preds src Hwf Hsrc Hroot H1 H2 subs).
    + intros u v Hs'.
      destruct (sends_on_path g preds src Hwf Hsrc Hroot H1 H2 subs table Ht u v Hs')
        as (sub & l & _ & Hd & _). eauto.
    + done.
  - by apply (sends_link g preds src Hwf Hsrc Hroot H1 H2 subs).
  - by apply (delivery_NoDup g preds src Hwf Hsrc Hroot H1 H2 subs).
  - intros u v Hs'.
    destruct (sends_on_path g preds src Hwf Hsrc Hroot H1 H2 subs table Ht u v Hs')
      as (sub & l & Hsub & _ & Hr). eauto.
Qed.

(** C1. When no path of the mesh overflows 32 bits, the forwarding table delivers
    an envelope from the source to every reachable subscriber, along a route that
    is a cheapest one between the two (aggregator penalty included), in both build
    profiles. *)
Theorem forwarding_table_least_cost p fuel g source subs :
  wf g → costs_fit g → is_Some (node_indices g !! source) → length (nodes g) < 2 ^ fuel →
  ∃ table, compute_forwarding_table p fuel g source subs = Ret table ∧
    ∀ sub, sub ∈ subs → reachable g source sub →
    ∃ l c, delivery table source (sub :: l) ∧ route g source (sub :: l) c ∧
      ∀ l' c', route g source (sub :: l') c' → (c <= c')%N.
Proof.
  intros Hwf Hfit Hs Hfuel.
  destruct (forwarding_table_correct p fuel g source subs Hwf Hfit Hs Hfuel)
    as (table & E & Hd & _). eauto.
Qed.

(** C2. When no path overflows, the forwarding table is a tree rooted at the source
    and pruned to the subscribers: it uses existing links only, no node has two
    parents, the source is nobody's child, no delivery path repeats a node, every
    entry lies on a delivery path and leads to a subscriber, and no target is
    listed twice. *)
Theorem forwarding_table_tree p fuel g source subs :
  wf g → costs_fit g → is_Some (node_indices g !! source) → length (nodes g) < 2 ^ fuel →
  ∃ table, compute_forwarding_table p fuel g source subs = Ret table ∧
    (∀ u v, sends table u v → is_Some (links g !! (u, v))) ∧
    (∀ u u' v, sends table u v → sends table u' v → u = u') ∧
    (∀ u, ¬ sends table u source) ∧
    (∀ l, delivery table source l → NoDup l) ∧
    (∀ u v, sends table u v → ∃ l, delivery table source (v :: u :: l)) ∧
    (∀ u v, sends table u v → ∃ sub, sub ∈ subs ∧ rtc (sends table) v sub) ∧
    (∀ u targets, table !! u = Some targets → NoDup (send_to targets)).
Proof.
  intros Hwf Hfit Hs Hfuel.
  destruct (forwarding_table_correct p fuel g source subs Hwf Hfit Hs Hfuel)
    as (table & E & _ & [? ? ? ?] & ? & ? & ?).
  exists table. by split_and!.
Qed.

(** *** The search returns on every graph *)

Lemma u32_add_release a b : ∃ n, u32_add Release a b = Ret n.
Proof. unfold u32_add. case_match; eauto. Qed.

Lemma edge_cost_release g x w : ∃ n, edge_cost Release g x w = Ret n.
Proof. unfold edge_cost. repeat case_match; eauto using u32_add_release. Qed.

Lemma relax_edge_release g c u st e :
  wf g → e ∈ pg_raw_edges (graph g) → ∃ st', relax_edge Release g c u st e = Ret st'.
Proof.
  intros Hwf He. apply (wf_range g Hwf) in He as [_ [x Hx]%lookup_lt_is_Some].
  unfold relax_edge, graph_index. fold (nodes g). rewrite Hx. simpl.
  destruct (edge_cost_release g x e.2) as [ec ->]. simpl.
  destruct (u32_add_release c ec) as [nc ->]. simpl. case_match; eauto.
Qed.

Lemma dijkstra_step_release g st : wf g → dijkstra_step Release g st ≠ Panic.
Proof.
  intros Hwf. unfold dijkstra_step.
  destruct (heap_pop (frontier st)) as [[[c u] rest]|]; [|done]. simpl.
  case_match; [done|].
  destruct (foldM_total (relax_edge Release g c u) (λ _, True)
    (mkSearch (distances st) (predecessors st) rest) (pg_edges u (graph g)))
    as (st' & -> & _); [done| |done].
  intros b e He _. rewrite pg_edges_spec in He. apply list_elem_of_filter in He as [_ He].
  destruct (relax_edge_release g c u b e Hwf He) as [b' ->]. eauto.
Qed.

Lemma shortest_paths_release g src : wf g → shortest_paths Release g src ≠ Panic.
Proof.
  intros Hwf. rewrite shortest_paths_eq. apply (run_loop_no_panic _ (λ _, True)); [done|].
  intros s _. pose proof (dijkstra_step_release g s Hwf).
  by destruct (dijkstra_step Release g s) as [[|]| |].
Qed.

(** C35. The search of [compute_forwarding_table] ends on every well-formed graph,
    whatever the link costs: the release build returns a result even when the
    32-bit additions wrap around, the debug build returns one or stops at an
    overflow. *)
Theorem shortest_paths_ends g src :
  wf g →
  (∃ st, shortest_paths Release g src = Ret st) ∧
  ((∃ st, shortest_paths Debug g src = Ret st) ∨ shortest_paths Debug g src = Panic).
Proof.
  intros Hwf. pose proof (shortest_paths_release g src Hwf) as Hp.
  pose proof (shortest_paths_not_fuel Release g src) as Hr.
  pose proof (shortest_paths_not_fuel Debug g src) as Hd.
  destruct (shortest_paths Release g src) as [st| |]; [|done|done].
  destruct (shortest_paths Debug g src) as [st'| |]; [|by eauto|done]. eauto.
Qed.
End table.

(** ** Concrete meshes *)

Lemma pop_best_None {A} cmp (l : list A) : pop_best cmp l = None → l = [].
Proof. destruct l as [|x l]; simpl; [done|]. repeat case_match; done. Qed.

Lemma pop_best_Some (l : list DijkstraState) x r :
  pop_best ds_cmp l = Some (x, r) → l ≡ₚ x :: r ∧ ∀ y, y ∈ l → ds_cmp y x ≠ Gt.
Proof.
  unfold ds_cmp. revert x r. induction l as [|z l IH]; intros x r; simpl; [done|].
  destruct (pop_best _ l) as [[y r']|] eqn:E.
  - destruct (IH y r' eq_refl) as [Hp Hmax].
    destruct (N.compare (cost y) (cost z)) eqn:Ec; intros [= <- <-]; split.
    + by rewrite Hp.
    + intros v [->|Hv]%elem_of_cons; [by rewrite N.compare_refl|].
      specialize (Hmax v Hv). rewrite N.compare_gt_iff in Hmax |- *.
      apply N.compare_eq_iff in Ec. lia.
    + rewrite Hp. constructor.
    + intros v [->|Hv]%elem_of_cons; [by rewrite Ec|by apply Hmax].
    + by rewrite Hp.
    + intros v [->|Hv]%elem_of_cons; [by rewrite N.compare_refl|].
      specialize (Hmax v Hv). rewrite N.compare_gt_iff in Hmax |- *.
      apply N.compare_gt_iff in Ec. lia.
  - intros [= <- <-]. apply pop_best_None in E as ->. split; [done|].
    intros v [->|Hv]%elem_of_cons; [by rewrite N.compare_refl|by apply elem_of_nil in Hv].
Qed.

Lemma list_heap_spec : BinaryHeapSpec (list_heap ds_cmp) ds_cmp.
Proof.
  split; simpl; try done.
  - intros h. apply pop_best_None.
  - apply pop_best_Some.
Qed.

Section concrete.
#[local] Existing Instance list_petgraph_spec.
#[local] Existing Instance key_order.
#[local] Existing Instance key_order_spec.
#[local] Instance graph_impl : PetGraph string LinkWeight := list_petgraph string LinkWeight.
#[local] Instance heap_impl : BinaryHeap DijkstraState := list_heap ds_cmp.
#[local] Existing Instance list_heap_spec.

Lemma sample_costs_fit : costs_fit sample_graph.
Proof.
  exists 1%N. split; [|by vm_compute].
  apply (bool_decide_unpack _). vm_compute. exact I.
Qed.

Lemma forwarding_table_least_cost_witness :
  ∃ table, compute_forwarding_table Debug 3 sample_graph "A" {["C"; "D"]} = Ret table ∧
    ∃ l c, delivery table "A" ("D" :: l) ∧ route sample_graph "A" ("D" :: l) c.
Proof.
  destruct (forwarding_table_least_cost Debug 3 sample_graph "A" {["C"; "D"]}) as (t & E & H).
  - exact sample_graph_wf.
  - exact sample_costs_fit.
  - vm_compute. eexists. reflexivity.
  - vm_compute. lia.
  - exists t. split; [exact E|]. destruct (H "D") as (l & c & H1 & H2 & _).
    + set_solver.
    + exists ["B"; "A"]. eexists. apply (route_link _ _ _ _ (mkLinkWeight 1 0)).
      * apply (route_link _ _ _ _ (mkLinkWeight 1 0)); [constructor|].
        vm_compute. reflexivity.
      * vm_compute. reflexivity.
    + exists l, c. split; [exact H1|exact H2].
Defined.

Lemma forwarding_table_tree_witness :
  ∃ table, compute_forwarding_table Debug 3 sample_graph "A" {["C"; "D"]} = Ret table ∧
    ∀ u, ¬ sends table u "A".
Proof.
  destruct (forwarding_table_tree Debug 3 sample_graph "A" {["C"; "D"]})
    as (t & E & _ & _ & H & _).
  - exact sample_graph_wf.
  - exact sample_costs_fit.
  - vm_compute. eexists. reflexivity.
  - vm_compute. lia.
  - exists t. split; [exact E|exact H].
Defined.

Lemma shortest_paths_ends_witness : ∃ st, shortest_paths Release sample_graph 0 = Ret st.
Proof. exact (proj1 (shortest_paths_ends sample_graph 0 sample_graph_wf)). Defined.
End concrete.
