(* ===== verification/OverflowFacts.v ===== *)
(** * Link costs that overflow

    What [compute_forwarding_table] does when the sum of two link costs does not fit 32 bits,
    for any graph, heap and hash order: in the release build the wrapped distance turns the
    predecessor of the node next to the source away from the source, and the walk back never
    ends; the debug build panics. *)
From S2P Require Import Prelude Proto Graph GraphFacts Dijkstra DijkstraFacts TreeFacts.
From S2P Require Import RoutingFacts.
From stdpp Require Import options.

Lemma u32_add_wraps a b : u32_add Release a b = Ret ((a + b) mod (u32_max + 1))%N.
Proof.
  unfold u32_add. destruct (N.leb_spec (a + b) u32_max); [|done].
  rewrite N.mod_small by lia. done.
Qed.

(** ** Folds that stop *)

Lemma foldM_stops {A B} (f : B → A → outcome B) b l x :
  (∀ b y, y ∈ l → f b y ≠ Panic) → x ∈ l → (∀ b, f b x = OutOfFuel) → foldM f b l = OutOfFuel.
Proof.
  intros Hp Hx Hf. revert b. induction l as [|y l IH]; intros b; [by apply elem_of_nil in Hx|].
  simpl. destruct (f b y) as [b'| |] eqn:E; simpl; [|by destruct (Hp b y); [left|]|done].
  apply elem_of_cons in Hx as [->|Hx]; [by rewrite Hf in E|].
  apply IH; [|done]. intros b1 z Hz. apply Hp. by right.
Qed.

Lemma foldM_panics {A B} (f : B → A → outcome B) b l x :
  (∀ b y, f b y ≠ OutOfFuel) → x ∈ l → (∀ b, f b x = Panic) → foldM f b l = Panic.
Proof.
  intros Hf Hx Hp. revert b. induction l as [|y l IH]; intros b; [by apply elem_of_nil in Hx|].
  simpl. destruct (f b y) as [b'| |] eqn:E; simpl; [|done|by destruct (Hf b y)].
  apply elem_of_cons in Hx as [->|Hx]; [by rewrite Hp in E|by apply IH].
Qed.

Section overflow.
#[local] Set Default Proof Using "All".
Context `{PS : PetGraphSpec string LinkWeight} `{BH : BinaryHeap DijkstraState}.
Context `{BS : !BinaryHeapSpec BH ds_cmp}.
Variables (g : GlobalGraph) (src ia : nat) (c1 : N).
Abbreviation edge := (nat * nat * LinkWeight)%type.
Implicit Types (e : edge) (es : list edge) (st : Search).

(** What the release build computes for an edge, and for the end of an edge. *)
Definition wcost e : N :=
  match edge_cost Release g (name g e.1.2) e.2 with Ret c => c | _ => 0%N end.
Definition wnext (d : N) e : N := ((d + wcost e) mod (u32_max + 1))%N.

Hypothesis Hwf : wf g.
Hypothesis Hsrc : src < length (nodes g).
Hypothesis Hc1 : (c1 < u32_max)%N.

(** The source has edges to one node only. *)
Hypothesis Hsole : ∀ e, is_edge g e → e.1.1 = src →
  e.1.2 = ia ∧ link_cost g (name g ia) e.2 = c1.

Lemma wcost_eq e : edge_cost Release g (name g e.1.2) e.2 = Ret (wcost e).
Proof using PS.
  unfold wcost. by destruct (edge_cost_release g (name g e.1.2) e.2) as [n ->].
Qed.

Lemma edge_cost_fits p v w : (link_cost g v w <= u32_max)%N → edge_cost p g v w = Ret (link_cost g v w).
Proof using Type.
  unfold link_cost, edge_cost. intros Hle. destruct (node_metadata g !! v) as [d|]; [|done].
  case_decide; [|done]. unfold u32_add. by rewrite (proj2 (N.leb_le _ _) Hle).
Qed.

Lemma wcost_fits e :
  (link_cost g (name g e.1.2) e.2 <= u32_max)%N → wcost e = link_cost g (name g e.1.2) e.2.
Proof using Type. intros Hle. unfold wcost. by rewrite edge_cost_fits. Qed.

Lemma graph_index_lt i : i < length (nodes g) → graph_index (graph g) i = Ret (name g i).
Proof using PS.
  intros [x Hx]%lookup_lt_is_Some. unfold graph_index. fold (nodes g). rewrite Hx.
  by rewrite (name_Some _ _ _ Hx).
Qed.

Lemma elem_of_out_edges u e : e ∈ pg_edges u (graph g) ↔ is_edge g e ∧ e.1.1 = u.
Proof using PS. rewrite (pg_edges_spec u (graph g)), list_elem_of_filter. tauto. Qed.

(** An edge without a penalty that is too large, in either profile. *)
Lemma relax_edge_eq p c u st v w :
  v < length (nodes g) → (link_cost g (name g v) w <= u32_max)%N →
  relax_edge p g c u st (u, v, w) =
    (next_cost ← u32_add p c (link_cost g (name g v) w);
     if (next_cost <? default u32_max (distances st !! v))%N
     then Ret (improve st u v next_cost) else Ret st).
Proof using PS.
  intros Hv Hle. unfold relax_edge. cbn [fst snd]. rewrite graph_index_lt by done.
  simpl. by rewrite edge_cost_fits.
Qed.

(** ** The search of the release build *)

(** The invariant of the search with wrapped sums; [es] are the edges still to relax with the
    distance [d0]. *)
Record winv (d0 : N) es st : Prop := {
  wi_src : distances st !! src = Some 0%N;
  wi_root : predecessors st !! src = None;
  wi_pred v : v ≠ src → is_Some (distances st !! v) → is_Some (predecessors st !! v);
  wi_range v u : predecessors st !! v = Some u →
    v < length (nodes g) ∧ u < length (nodes g) ∧ is_Some (distances st !! u);
  wi_first v : predecessors st !! v = Some src → v = ia ∧ distances st !! v = Some c1;
  wi_heap c u : mkDijkstraState c u ∈ heap_items (frontier st) →
    ∃ d, distances st !! u = Some d ∧ (d <= c)%N;
  wi_relaxed u d e : distances st !! u = Some d → is_edge g e → e.1.1 = u →
    mkDijkstraState d u ∈ heap_items (frontier st) ∨ d = d0 ∧ e ∈ es ∨
    (default u32_max (distances st !! e.1.2) <= wnext d e)%N;
}.

Lemma wnext_first e : is_edge g e → e.1.1 = src → e.1.2 = ia ∧ wnext 0 e = c1.
Proof.
  intros He Hu. destruct (Hsole e He Hu) as [Hv Hl]. split; [done|].
  unfold wnext. rewrite wcost_fits by (rewrite Hv, Hl; lia). rewrite Hv, Hl, N.add_0_l.
  apply N.mod_small. lia.
Qed.

Section better.
Variables (d0 : N) (es : list edge) (st : Search) (u v : nat) (w : LinkWeight).
Let e : edge := (u, v, w).
Hypothesis Hinv : winv d0 (e :: es) st.
Hypothesis He : is_edge g e.
Hypothesis Hu : is_Some (distances st !! u).
Hypothesis H0 : u = src → d0 = 0%N.
Hypothesis Hlt : (wnext d0 e < default u32_max (distances st !! v))%N.

Lemma better_relaxed x d e' :
  <[v := wnext d0 e]> (distances st) !! x = Some d → is_edge g e' → e'.1.1 = x →
  mkDijkstraState d x ∈ mkDijkstraState (wnext d0 e) v :: heap_items (frontier st) ∨
  d = d0 ∧ e' ∈ es ∨
  (default u32_max (<[v := wnext d0 e]> (distances st) !! e'.1.2) <= wnext d e')%N.
Proof.
  intros Hd He' Hx. rewrite lookup_insert in Hd. case_decide as Hvx.
  { injection Hd as <-. subst x. left. left. }
  assert ((default u32_max (<[v := wnext d0 e]> (distances st) !! e'.1.2) <=
    default u32_max (distances st !! e'.1.2))%N) as Hmono.
  { rewrite lookup_insert. case_decide as Ht; [|done]. rewrite <- Ht. simpl. lia. }
  destruct (wi_relaxed _ _ _ Hinv x d e' Hd He' Hx) as [Hh|[[-> Hin]|Hr]].
  - left. by right.
  - apply elem_of_cons in Hin as [->|Hin]; [|by right; left]. right. right.
    cbn [e fst snd]. by rewrite lookup_insert_eq.
  - right. right. lia.
Qed.

Lemma better_winv : winv d0 es (improve st u v (wnext d0 e)).
Proof.
  assert (src ≠ v) as Hv.
  { intros <-. rewrite (wi_src _ _ _ Hinv) in Hlt. simpl in Hlt. lia. }
  destruct (wf_range g Hwf e He) as [Hur Hvr]. cbn [e fst snd] in Hur, Hvr.
  split; cbn [improve distances predecessors frontier].
  - rewrite lookup_insert_ne by done. apply (wi_src _ _ _ Hinv).
  - rewrite lookup_insert_ne by done. apply (wi_root _ _ _ Hinv).
  - intros x Hx. rewrite !lookup_insert. case_decide; [by eauto|by apply (wi_pred _ _ _ Hinv)].
  - intros x y Hp. assert (∀ z, is_Some (distances st !! z) →
      is_Some (<[v := wnext d0 e]> (distances st) !! z)) as Hmono.
    { intros z. rewrite lookup_insert. by case_decide; eauto. }
    rewrite lookup_insert in Hp. case_decide as Hvx.
    + injection Hp as <-. subst x. auto.
    + destruct (wi_range _ _ _ Hinv x y Hp) as (? & ? & ?). auto.
  - intros x Hp. rewrite lookup_insert in Hp. rewrite lookup_insert. case_decide as Hvx.
    + injection Hp as ->. subst x. rewrite (H0 eq_refl). destruct (wnext_first e He eq_refl) as [? ->].
      done.
    + by apply (wi_first _ _ _ Hinv).
  - intros c x. rewrite heap_push_items, elem_of_cons. rewrite lookup_insert.
    intros [[= -> ->]|Hin]; [rewrite decide_True by done; by eauto|].
    destruct (wi_heap _ _ _ Hinv c x Hin) as (d & Hd & Hle). case_decide as Hvx; [|by eauto].
    subst x. rewrite Hd in Hlt. simpl in Hlt. eexists. split; [done|lia].
  - intros x d e' Hd He' Hx. rewrite heap_push_items. by apply better_relaxed.
Qed.
End better.

Lemma relax_edge_winv d0 es st e st' :
  winv d0 (e :: es) st → is_edge g e → is_Some (distances st !! e.1.1) → (e.1.1 = src → d0 = 0%N) →
  relax_edge Release g d0 e.1.1 st e = Ret st' →
  winv d0 es st' ∧ is_Some (distances st' !! e.1.1).
Proof.
  intros Hinv He Hu H0. destruct e as [[u v] w]. cbn [fst snd] in *.
  destruct (wf_range g Hwf _ He) as [_ Hv]. cbn [fst snd] in Hv.
  unfold relax_edge. cbn [fst snd]. rewrite graph_index_lt by done.
  simpl.
  pose proof (wcost_eq (u, v, w)) as Hc. cbn [fst snd] in Hc. rewrite Hc. simpl.
  rewrite u32_add_wraps. simpl. fold (wnext d0 (u, v, w)).
  destruct (N.ltb_spec (wnext d0 (u, v, w)) (default u32_max (distances st !! v))) as [Hlt|Hge];
    intros [= <-].
  - split; [by apply better_winv|]. simpl. rewrite lookup_insert. case_decide; eauto.
  - split; [|done]. destruct Hinv. split; try done.
    intros x d e' Hd He' Hx. destruct (wi_relaxed0 x d e' Hd He' Hx) as [?|[[-> Hin]|?]]; [by auto| |by auto].
    apply elem_of_cons in Hin as [->|Hin]; [right; right; done|by auto].
Qed.

Lemma relax_edges_winv d0 es st u st' :
  winv d0 es st → (∀ e, e ∈ es → is_edge g e ∧ e.1.1 = u) → is_Some (distances st !! u) →
  (u = src → d0 = 0%N) → foldM (relax_edge Release g d0 u) st es = Ret st' → winv d0 [] st'.
Proof.
  revert st. induction es as [|e es IH]; intros st Hinv Hes Hu H0; simpl; [by intros [= <-]|].
  destruct (Hes e) as [He <-]; [by left|].
  destruct (relax_edge Release g d0 e.1.1 st e) as [st1| |] eqn:E; simpl; try done.
  apply relax_edge_winv with (es := es) in E as [Hinv1 Hu1]; try done.
  apply IH; try done. intros e' Hin. apply Hes. by right.
Qed.

Lemma winv_done d0 d1 st : winv d0 [] st → winv d1 [] st.
Proof.
  intros Hi. destruct Hi. split; try done.
  intros u d e Hd He Hu. destruct (wi_relaxed0 u d e Hd He Hu) as [|[[_ []%elem_of_nil]|]]; auto.
Qed.

Lemma dijkstra_step_winv st r :
  winv 0 [] st → dijkstra_step Release g st = Ret r →
  match r with inl st' => winv 0 [] st' | inr st' => winv 0 [] st' ∧ heap_items (frontier st') = [] end.
Proof.
  intros Hinv. unfold dijkstra_step.
  destruct (heap_pop (frontier st)) as [[[c u] rest]|] eqn:E.
  2: { apply heap_pop_None in E. by intros [= <-]. }
  apply heap_pop_Some in E as [Hitems _]. simpl.
  destruct (wi_heap _ _ _ Hinv c u) as (d & Hd & Hle); [rewrite Hitems; by left|].
  rewrite Hd. simpl. set (st0 := mkSearch (distances st) (predecessors st) rest).
  assert (∀ es, (∀ e, is_edge g e → e.1.1 = u → d = c → e ∈ es) → winv c es st0) as Hinv0.
  { intros es Hes. destruct Hinv as [H1 H2 H3 H4 H5 H6 H7]. split; simpl; eauto.
    { intros c' x Hin. apply H6. rewrite Hitems. by right. }
    intros x dx e Hdx He Hx. destruct (H7 _ _ _ Hdx He Hx) as [Hh|[[_ Hin]|Hr]].
    - rewrite Hitems in Hh. apply elem_of_cons in Hh as [[= -> ->]|Hh]; [|by left].
      right. left. split; [done|]. apply Hes; try done. congruence.
    - by apply elem_of_nil in Hin.
    - by right; right. }
  destruct (N.ltb_spec d c) as [Hlt|Hge].
  - intros [= <-]. apply (winv_done c), Hinv0. intros; lia.
  - assert (d = c) as -> by lia.
    destruct (foldM _ st0 _) as [st'| |] eqn:F; simpl; try done. intros [= <-].
    apply (winv_done c). apply (relax_edges_winv c (pg_edges u (graph g)) st0 u); try done.
    + apply Hinv0. intros e He Hu _. by apply elem_of_out_edges.
    + intros e He. by apply elem_of_out_edges.
    + intros ->. rewrite (wi_src _ _ _ Hinv) in Hd. congruence.
Qed.

Lemma initial_winv : winv 0 [] (initial_search src).
Proof.
  split; simpl.
  - by rewrite lookup_singleton_eq.
  - done.
  - intros v Hv [d [<- _]%lookup_singleton_Some]. done.
  - intros v u. by rewrite lookup_empty.
  - intros v. by rewrite lookup_empty.
  - intros c u. rewrite heap_push_items, heap_new_items.
    intros [= -> ->]%list_elem_of_singleton. exists 0%N. by rewrite lookup_singleton_eq.
  - intros u d e [<- <-]%lookup_singleton_Some _ _. left. rewrite heap_push_items. by left.
Qed.

Lemma shortest_paths_winv :
  ∃ st, shortest_paths Release g src = Ret st ∧ winv 0 [] st ∧ heap_items (frontier st) = [].
Proof.
  pose proof (shortest_paths_not_fuel Release g src) as Hfuel.
  pose proof (shortest_paths_release g src Hwf) as Hp.
  destruct (shortest_paths Release g src) as [st| |] eqn:E; try done. exists st. split; [done|].
  rewrite shortest_paths_eq in E. revert E.
  apply (run_loop_inv _ (winv 0 []) (λ st, winv 0 [] st ∧ heap_items (frontier st) = []));
    [apply initial_winv| |]; intros s s' Hs Es; by apply (dijkstra_step_winv s _ Hs Es).
Qed.

(** ** The walk back *)

Section detour.
Variables (st : Search) (ib : nat) (wsa wab wba : LinkWeight).
Hypothesis Hinv : winv 0 [] st.
Hypothesis Hheap : heap_items (frontier st) = [].
Hypothesis Hsa : is_edge g (src, ia, wsa).
Hypothesis Hab : is_edge g (ia, ib, wab).
Hypothesis Hba : is_edge g (ib, ia, wba).
Hypothesis Hover : (u32_max < c1 + link_cost g (name g ib) wab)%N.
Hypothesis Hback : (link_cost g (name g ib) wab + link_cost g (name g ia) wba <= u32_max)%N.

Lemma final_relaxed u v w d :
  distances st !! u = Some d → is_edge g (u, v, w) →
  (default u32_max (distances st !! v) <= wnext d (u, v, w))%N.
Proof.
  intros Hd He. destruct (wi_relaxed _ _ _ Hinv u d _ Hd He eq_refl) as [Hh|[[_ Hin]|]]; [| |done].
  - rewrite Hheap in Hh. by apply elem_of_nil in Hh.
  - by apply elem_of_nil in Hin.
Qed.

(** The way over the second link, wrapped, is shorter than the first link. *)
Lemma detour_taken : ∃ da, distances st !! ia = Some da ∧ (da < c1)%N.
Proof.
  destruct (wnext_first _ Hsa eq_refl) as [_ H1].
  pose proof (final_relaxed src ia wsa 0 (wi_src _ _ _ Hinv) Hsa) as Ha. rewrite H1 in Ha.
  destruct (distances st !! ia) as [da|] eqn:Hda; simpl in Ha; [|lia]. exists da. split; [done|].
  destruct (N.lt_ge_cases da c1) as [|Hge]; [done|]. assert (da = c1) as -> by lia.
  pose proof (final_relaxed ia ib wab c1 Hda Hab) as Hb.
  unfold wnext in Hb. rewrite wcost_fits in Hb by (simpl; lia). simpl in Hb.
  set (c2 := link_cost g (name g ib) wab) in *. set (c3 := link_cost g (name g ia) wba) in *.
  assert ((c1 + c2) mod (u32_max + 1) = c1 + c2 - (u32_max + 1))%N as Hw.
  { symmetry. apply (N.mod_unique _ _ 1); lia. }
  rewrite Hw in Hb. destruct (distances st !! ib) as [db|] eqn:Hdb; simpl in Hb; [|lia].
  pose proof (final_relaxed ib ia wba db Hdb Hba) as Hc. rewrite Hda in Hc.
  unfold wnext in Hc. rewrite wcost_fits in Hc by (simpl; fold c3; lia). simpl in Hc. fold c3 in Hc.
  rewrite N.mod_small in Hc by lia. lia.
Qed.

Lemma source_apart : ia ≠ src.
Proof using Hsrc Hc1 Hsole Hab Hba Hover Hback.
  intros Heq. destruct (Hsole _ Hab Heq) as [Hib Hl2]. simpl in Hib, Hl2.
  destruct (Hsole (ib, ia, wba) Hba) as [_ Hl3]; [simpl; congruence|]. simpl in Hl3.
  rewrite Hib in Hover, Hback. lia.
Qed.

Lemma walk_endless fuel t : run_loop (walk_step g (predecessors st) src) fuel (ia, t) = OutOfFuel.
Proof.
  destruct detour_taken as (da & Hda & Hlt).
  apply (run_loop_diverges _ (λ s, s.1 ≠ src ∧ is_Some (distances st !! s.1))).
  { split; [apply source_apart|by exists da]. }
  intros [v t'] [Hv Hd]. simpl in Hv, Hd. destruct (wi_pred _ _ _ Hinv v Hv Hd) as [u Hu].
  destruct (wi_range _ _ _ Hinv v u Hu) as (Hvr & Hur & Hud).
  assert (u ≠ src) as Hus.
  { intros ->. destruct (wi_first _ _ _ Hinv v Hu) as [-> ?]. simplify_eq. lia. }
  unfold walk_step. simpl. rewrite Hu, !graph_index_lt by done. simpl.
  rewrite decide_False by done. by eexists.
Qed.

Lemma walk_no_panic fuel s : run_loop (walk_step g (predecessors st) src) fuel s ≠ Panic.
Proof using PS Hinv.
  apply (run_loop_no_panic _ (λ _, True)); [done|]. intros [v t] _. unfold walk_step. simpl.
  destruct (predecessors st !! v) as [u|] eqn:Hu; [|done].
  destruct (wi_range _ _ _ Hinv v u Hu) as (Hvr & Hur & _).
  rewrite !graph_index_lt by done. simpl. by case_decide.
Qed.
End detour.

(** ** The debug build *)

Section debug.
Variables (ib : nat) (wsa wab : LinkWeight).
Hypothesis Hsa : is_edge g (src, ia, wsa).
Hypothesis Hab : is_edge g (ia, ib, wab).
Hypothesis Hover : (u32_max < c1 + link_cost g (name g ib) wab)%N.
Hypothesis Hfits : (link_cost g (name g ib) wab <= u32_max)%N.
Hypothesis Hne : ia ≠ src.

Lemma pop_single h x :
  heap_items h = [x] → ∃ h', heap_pop h = Some (x, h') ∧ heap_items h' = [].
Proof.
  intros Hh. destruct (heap_pop h) as [[y h']|] eqn:E.
  - apply heap_pop_Some in E as [Hp _]. rewrite Hh in Hp.
    apply Permutation_singleton_l in Hp. injection Hp as -> Hp. eauto.
  - apply heap_pop_None in E. congruence.
Qed.

(** The state after the first round. *)
Definition only_neighbour st : Prop :=
  heap_items (frontier st) = [mkDijkstraState c1 ia] ∧ distances st !! ia = Some c1.

(** Relaxing the edges of the source: each leaves the start or leads to that state. *)
Lemma relax_source st es st' :
  (∀ e, e ∈ es → is_edge g e ∧ e.1.1 = src) →
  (heap_items (frontier st) = [] ∧ distances st !! ia = None ∧ es ≠ [] ∨ only_neighbour st) →
  foldM (relax_edge Debug g 0 src) st es = Ret st' → only_neighbour st'.
Proof.
  revert st. induction es as [|[[u v] w] es IH]; intros st Hes Hst; simpl.
  { intros [= <-]. destruct Hst as [(_ & _ & ?)|?]; done. }
  destruct (Hes (u, v, w)) as [He Hu]; [by left|]. simpl in Hu. subst u.
  destruct (Hsole _ He eq_refl) as [Hv Hl]. simpl in Hv, Hl. subst v.
  destruct (wf_range g Hwf _ He) as [_ Hvr]. simpl in Hvr.
  rewrite (relax_edge_eq Debug 0 src st ia w Hvr) by lia. rewrite Hl.
  unfold u32_add. rewrite (proj2 (N.leb_le _ _)) by lia. simpl. rewrite N.add_0_l.
  assert (∀ e, e ∈ es → is_edge g e ∧ e.1.1 = src) as Hes' by (intros e ?; apply Hes; by right).
  destruct Hst as [(Hh & Hd & _)|[Hh Hd]]; rewrite Hd; simpl.
  - rewrite (proj2 (N.ltb_lt _ _)) by done. simpl. apply IH; [done|right]. split; simpl.
    + apply Permutation_singleton_r. by rewrite heap_push_items, Hh.
    + by rewrite lookup_insert_eq.
  - rewrite N.ltb_irrefl. simpl. apply IH; [done|]. by right.
Qed.

Lemma first_round (r : Search + Search) :
  dijkstra_step Debug g (initial_search src) = Ret r → ∃ st, r = inl st ∧ only_neighbour st.
Proof.
  unfold dijkstra_step.
  destruct (pop_single (frontier (initial_search src)) (mkDijkstraState 0 src)) as (h & Hp & Hh).
  { apply Permutation_singleton_r. simpl. by rewrite heap_push_items, heap_new_items. }
  rewrite Hp. simpl. rewrite lookup_singleton_eq. simpl.
  destruct (foldM _ _ _) as [st| |] eqn:F; simpl; try done. intros [= <-].
  exists st. split; [done|]. eapply relax_source; [| |exact F].
  - intros e He. by apply elem_of_out_edges.
  - left. split; [done|]. split; [simpl; by rewrite lookup_singleton_ne|].
    intros Hnil. assert ((src, ia, wsa) ∈ pg_edges src (graph g)) as Hin by by apply elem_of_out_edges.
    rewrite Hnil in Hin. by apply elem_of_nil in Hin.
Qed.

Lemma second_round st : only_neighbour st → dijkstra_step Debug g st = Panic.
Proof.
  intros [Hh Hd]. unfold dijkstra_step. destruct (pop_single _ _ Hh) as (h & -> & _). simpl.
  rewrite Hd. simpl. rewrite N.ltb_irrefl.
  rewrite (foldM_panics _ _ _ (ia, ib, wab)); [done| | |].
  - intros st1 e. apply relax_edge_not_fuel.
  - by apply elem_of_out_edges.
  - intros st1. destruct (wf_range g Hwf _ Hab) as [_ Hbr]. simpl in Hbr.
    rewrite relax_edge_eq by done. unfold u32_add.
    destruct (N.leb_spec (c1 + link_cost g (name g ib) wab) u32_max); [lia|done].
Qed.

Lemma shortest_paths_debug : shortest_paths Debug g src = Panic.
Proof.
  pose proof (shortest_paths_not_fuel Debug g src) as Hfuel.
  destruct (shortest_paths Debug g src) as [st| |] eqn:E; try done. exfalso.
  rewrite shortest_paths_eq in E. revert E.
  apply (run_loop_inv _ (λ s, s = initial_search src ∨ only_neighbour s) (λ _, False)); [by left| |];
    intros s s' [->|Hs] Es.
  - apply first_round in Es as (st1 & [= <-] & ?). by right.
  - by rewrite second_round in Es.
  - by apply first_round in Es as (st1 & ? & ?).
  - by rewrite second_round in Es.
Qed.
End debug.
End overflow.

Section table.
Context `{PS : PetGraphSpec string LinkWeight} `{BH : BinaryHeap DijkstraState}.
Context `{BS : !BinaryHeapSpec BH ds_cmp} `{HS : HashOrderSpec}.

(** C39. Link costs are taken from peers unchecked.  Suppose the only neighbour of the source is
    [a], the link to it costs less than [u32::MAX], its cost plus that of a link from [a] to [b]
    does not fit 32 bits, and that link and the one back to [a] together do (costs with the
    aggregator penalty).  Then, whatever the rest of the graph and in whatever order the heap pops
    equal entries, the release build never returns a table for subscribers among which is [a]: the
    wrapped distance leaves a predecessor map in which no walk leads back to the source.  The debug
    build panics in the search. *)
Theorem forwarding_table_overflow fuel g s a b wsa wab wba subs :
  wf g → (∀ x w, links g !! (s, x) = Some w → x = a) →
  links g !! (s, a) = Some wsa → links g !! (a, b) = Some wab → links g !! (b, a) = Some wba →
  (link_cost g a wsa < u32_max)%N →
  (u32_max < link_cost g a wsa + link_cost g b wab)%N →
  (link_cost g b wab + link_cost g a wba <= u32_max)%N → a ∈ subs →
  compute_forwarding_table Release fuel g s subs = OutOfFuel ∧
  compute_forwarding_table Debug fuel g s subs = Panic.
Proof using PS BS HS.
  intros Hwf Hsole Hsa Hab Hba Hc1 Hover Hback Hsub.
  destruct (links_nodes _ _ _ _ Hwf Hsa) as (i0 & ia & His & Hia & Esa).
  destruct (links_nodes _ _ _ _ Hwf Hab) as (ia' & ib & Hia' & Hib & Eab).
  destruct (links_nodes _ _ _ _ Hwf Hba) as (ib' & ia'' & Hib' & Hia'' & Eba).
  assert (ia' = ia) as -> by congruence. assert (ia'' = ia) as -> by congruence.
  assert (ib' = ib) as -> by congruence. clear Hia' Hia'' Hib'.
  pose proof (proj1 (wf_index g Hwf _ _) His) as Ns. pose proof (proj1 (wf_index g Hwf _ _) Hia) as Na.
  pose proof (proj1 (wf_index g Hwf _ _) Hib) as Nb.
  pose proof (index_lt g s i0 Hwf His) as Rs. pose proof (index_lt g a ia Hwf Hia) as Ra.
  pose proof (name_Some _ _ _ Ns) as <-. pose proof (name_Some _ _ _ Na) as <-.
  pose proof (name_Some _ _ _ Nb) as <-.
  set (c1 := link_cost g (name g ia) wsa) in *.
  assert (∀ e, is_edge g e → e.1.1 = i0 → e.1.2 = ia ∧ link_cost g (name g ia) e.2 = c1) as Hone.
  { intros [[u v] w] He Hu. simpl in *. subst u. destruct (wf_range g Hwf _ He) as [_ Hv]. simpl in Hv.
    pose proof (proj2 (links_edge g i0 v w Hwf Rs Hv) He) as Hl.
    assert (v = ia) as -> by (apply (name_inj g); try done; by eapply Hsole).
    split; [done|]. unfold c1. do 2 f_equal. congruence. }
  assert (ia ≠ i0) as Hne by (by eapply (source_apart g i0 ia c1 Rs Hc1 Hone ib wab wba)).
  unfold compute_forwarding_table. rewrite His. rewrite !decide_False by set_solver.
  rewrite (shortest_paths_debug g i0 ia c1 Hwf Rs Hc1 Hone ib wsa wab) by (try done; lia).
  split; [|done].
  destruct (shortest_paths_winv g i0 ia c1 Hwf Rs Hc1 Hone) as (st & -> & Hinv & Hheap). simpl.
  rewrite (foldM_stops _ _ _ (name g ia)); [done| | |].
  - intros t x _. unfold add_subscriber. destruct (node_indices g !! x); [|done].
    by eapply (walk_no_panic g i0 ia c1).
  - by rewrite set_iter_perm, elem_of_elements.
  - intros t. unfold add_subscriber. rewrite Hia.
    by apply (walk_endless g i0 ia c1 Hwf Rs Hc1 Hone st ib wsa wab wba).
Qed.
End table.

(** ** A concrete graph *)

Section concrete.
#[local] Existing Instance list_petgraph_spec.
#[local] Existing Instance key_order.
#[local] Existing Instance key_order_spec.
#[local] Instance graph_impl : PetGraph string LinkWeight := list_petgraph string LinkWeight.
#[local] Instance heap_impl : BinaryHeap DijkstraState := list_heap ds_cmp.
#[local] Existing Instance list_heap_spec.

Definition overflow_graph : GlobalGraph :=
  match apply_update overflow_update new_graph with
  | Ret g => g
  | _ => new_graph
  end.

Lemma overflow_graph_wf : wf overflow_graph.
Proof.
  destruct (apply_update_refines overflow_update new_graph wf_new) as (g & Hg & Hwf & _).
  unfold overflow_graph. by rewrite Hg.
Qed.

Lemma forwarding_table_overflow_witness :
  compute_forwarding_table Release 20 overflow_graph "S" {["A"; "B"]} = OutOfFuel ∧
  compute_forwarding_table Debug 20 overflow_graph "S" {["A"; "B"]} = Panic.
Proof.
  apply (forwarding_table_overflow 20 overflow_graph "S" "A" "B" (mkLinkWeight 4294967294 0)
    (mkLinkWeight 2 0) (mkLinkWeight 2 0)).
  - exact overflow_graph_wf.
  - assert (map_Forall (λ k _, k.1 = "S" → k.2 = "A") (links overflow_graph)) as Hall
      by (apply (bool_decide_unpack _); vm_compute; exact I).
    intros x w Hx. exact (Hall ("S", x) w Hx eq_refl).
  - vm_compute. reflexivity.
  - vm_compute. reflexivity.
  - vm_compute. reflexivity.
  - vm_compute. reflexivity.
  - vm_compute. reflexivity.
  - vm_compute. discriminate.
  - set_solver.
Defined.
End concrete.
