(* ===== verification/Frame.v ===== *)
(** * Length-prefixed frames

    [write_frame] and [read_frame] of [stric-flow/src/frame.rs], the loops of
    [handle_new_connection] in [stric-flow/src/node.rs] that write and read a
    peer's control stream, and the codecs of [stric-tower/src/codec.rs].

    A stream is the sequence of bytes that went into it.  The transport may cut
    it: [w_limit] is the number of bytes after which writing fails, so a failed
    write leaves a truncated frame for the reader.  The serialisation libraries
    (prost, bincode) are the parameter [Codec]. *)
From S2P Require Import Prelude Proto.
From stdpp Require Import options.

(** ** Big-endian [u32] *)

Definition byte_of (n : N) : Byte.byte := default Byte.x00 (Byte.of_N (n mod 256)).

(** [u32::to_be_bytes]. *)
Definition u32_to_be (n : N) : bytes :=
  [byte_of (n / 16777216); byte_of (n / 65536); byte_of (n / 256); byte_of n].

(** [u32::from_be_bytes]. *)
Definition u32_from_be (l : bytes) : N :=
  foldl (λ acc b, (acc * 256 + Byte.to_N b)%N) 0%N l.

(** ** Stream operations *)

Inductive IoError := UnexpectedEof | StreamClosed.

Inductive FrameError (E : Type) :=
| Io (e : IoError)
| TooLarge (len : N)
| CodecError (e : E).
Arguments Io {E} _.
Arguments TooLarge {E} _.
Arguments CodecError {E} _.

(** A computation on a stream of state [S] that may fail. *)
Definition io (S E A : Type) : Type := S → S * result A (FrameError E).

Global Instance io_ret S E : MRet (io S E) := λ A a s, (s, Ok a).
Global Instance io_bind S E : MBind (io S E) := λ A B f m s,
  match m s with
  | (s', Ok a) => f a s'
  | (s', Err e) => (s', Err e)
  end.

Definition fail {S E A} (e : FrameError E) : io S E A := λ s, (s, Err e).

Record Writer := mkWriter { w_sent : bytes; w_limit : option nat }.

(** [AsyncWriteExt::write_all]: when the stream breaks, a prefix has gone out. *)
Definition write_all {E} (b : bytes) : io Writer E () := λ w,
  match w_limit w with
  | Some n =>
      if decide (length (w_sent w) + length b <= n)
      then (mkWriter (w_sent w ++ b) (w_limit w), Ok ())
      else (mkWriter (take n (w_sent w ++ b)) (w_limit w), Err (Io StreamClosed))
  | None => (mkWriter (w_sent w ++ b) (w_limit w), Ok ())
  end.

(** [AsyncReadExt::read_exact]: the bytes read before the end are lost. *)
Definition read_exact {E} (n : nat) : io bytes E bytes := λ r,
  if decide (n <= length r) then (drop n r, Ok (take n r))
  else ([], Err (Io UnexpectedEof)).

(** ** Serialisation *)

Class Codec (T E : Type) := {
  encode : T → result bytes E;
  decode : bytes → result T E;
}.

Class CodecSpec {T E} (C : Codec T E) : Prop := {
  decode_encode m b : encode m = Ok b → decode b = Ok m;
}.

Definition io_result {S E A} (r : result A E) : io S E A :=
  match r with
  | Ok a => mret a
  | Err e => fail (CodecError e)
  end.

(** [buf.len() as u32]. *)
Definition len_u32 (buf : bytes) : N := (N.of_nat (length buf) mod 4294967296)%N.

Definition max_frame : N := 16777216.

Section codec.
Context `{C : Codec T E}.

Definition write_frame (msg : T) : io Writer E () :=
  buf ← io_result (encode msg);
  _ ← write_all (u32_to_be (len_u32 buf));
  _ ← write_all buf;
  mret ().

Definition read_frame : io bytes E bytes :=
  len_buf ← read_exact 4;
  let len := u32_from_be len_buf in
  if (max_frame <? len)%N then fail (TooLarge len)
  else read_exact (N.to_nat len).

(** ** The control stream's loops *)

(** [while let Some(msg) = peer_control_rx.recv()]: stops at the first failed write. *)
Fixpoint writer_loop (msgs : list T) (w : Writer) : Writer :=
  match msgs with
  | [] => w
  | msg :: msgs' =>
      match write_frame msg w with
      | (w', Ok _) => writer_loop msgs' w'
      | (w', Err _) => w'
      end
  end.

(** The reader: a frame that does not decode is skipped, an error ends the loop.
    Every frame takes four bytes or more of the input. *)
Fixpoint reader_loop_fuel (fuel : nat) (r : bytes) : list T :=
  match fuel with
  | O => []
  | S fuel' =>
      match read_frame r with
      | (r', Ok b) =>
          match decode b with
          | Ok msg => msg :: reader_loop_fuel fuel' r'
          | Err _ => reader_loop_fuel fuel' r'
          end
      | (_, Err _) => []
      end
  end.

Definition reader_loop (r : bytes) : list T := reader_loop_fuel (S (length r)) r.

(** ** The codecs of stric-tower *)

Definition write_length_prefixed (buf : bytes) : io Writer E () :=
  _ ← write_all (u32_to_be (len_u32 buf));
  _ ← write_all buf;
  mret ().

Definition read_length_prefixed : io bytes E bytes :=
  len_buf ← read_exact 4;
  read_exact (N.to_nat (u32_from_be len_buf)).

(** [ProstCodec] and [SerdeCodec], for requests and responses alike, and the
    request and response envelopes. *)
Definition encode_message (msg : T) : io Writer E () :=
  buf ← io_result (encode msg);
  write_length_prefixed buf.

Definition decode_message : io bytes E T :=
  buf ← read_length_prefixed;
  io_result (decode buf).
End codec.
