(* ===== verification/FrameFacts.v ===== *)
(** * Facts about frames

    Big-endian lengths, the exact behaviour of the frame readers and writers on a
    transport that may break, and the loops of a control stream. *)
From S2P Require Import Prelude Proto Frame.
From stdpp Require Import options.

(** ** Big-endian integers *)

Lemma byte_of_to_N n : Byte.to_N (byte_of n) = (n mod 256)%N.
Proof.
  unfold byte_of. destruct (Byte.of_N (n mod 256)) as [b|] eqn:Eb; simpl.
  - by apply Byte.to_of_N in Eb.
  - apply Byte.of_N_None_iff in Eb. pose proof (N.mod_lt n 256). lia.
Qed.

Lemma to_N_byte_of b k : byte_of (k * 256 + Byte.to_N b) = b.
Proof.
  unfold byte_of. pose proof (Byte.to_N_bounded b).
  rewrite N.add_comm, N.Div0.mod_add, N.mod_small by lia. by rewrite Byte.of_to_N.
Qed.

Lemma u32_round_trip n : (n < 4294967296)%N → u32_from_be (u32_to_be n) = n.
Proof.
  intros Hn. unfold u32_from_be, u32_to_be. simpl. rewrite !byte_of_to_N.
  pose proof (N.div_mod n 256). pose proof (N.div_mod (n / 256) 256).
  pose proof (N.div_mod (n / 65536) 256).
  replace (n / 65536)%N with (n / 256 / 256)%N in * by by rewrite N.Div0.div_div.
  replace (n / 16777216)%N with (n / 256 / 256 / 256)%N by by rewrite !N.Div0.div_div.
  rewrite (N.mod_small (n / 256 / 256 / 256)); [lia|].
  rewrite !N.Div0.div_div. by apply N.Div0.div_lt_upper_bound.
Qed.

Lemma u32_from_be_bound l : length l = 4 → (u32_from_be l < 4294967296)%N.
Proof.
  destruct l as [|a [|b [|c [|d [|]]]]]; try done. intros _. unfold u32_from_be. simpl.
  pose proof (Byte.to_N_bounded a). pose proof (Byte.to_N_bounded b).
  pose proof (Byte.to_N_bounded c). pose proof (Byte.to_N_bounded d). lia.
Qed.

Lemma u32_to_from l : length l = 4 → u32_to_be (u32_from_be l) = l.
Proof.
  destruct l as [|a [|b [|c [|d [|]]]]]; try done. intros _.
  unfold u32_from_be. simpl.
  pose proof (Byte.to_N_bounded b). pose proof (Byte.to_N_bounded c).
  pose proof (Byte.to_N_bounded d). unfold u32_to_be.
  f_equal; [|f_equal; [|f_equal; [|f_equal]]].
  - erewrite <- (to_N_byte_of a 0) at 2. f_equal. symmetry.
    apply (N.div_unique _ _ _ (Byte.to_N b * 65536 + Byte.to_N c * 256 + Byte.to_N d)); lia.
  - erewrite <- (to_N_byte_of b (Byte.to_N a)) at 2. f_equal. symmetry.
    apply (N.div_unique _ _ _ (Byte.to_N c * 256 + Byte.to_N d)); lia.
  - erewrite <- (to_N_byte_of c (Byte.to_N a * 256 + Byte.to_N b)) at 2. f_equal. symmetry.
    apply (N.div_unique _ _ _ (Byte.to_N d)); lia.
  - apply to_N_byte_of.
Qed.

Lemma len_u32_small buf :
  (N.of_nat (length buf) < 4294967296)%N → len_u32 buf = N.of_nat (length buf).
Proof. intros. by apply N.mod_small. Qed.

Lemma len_u32_bound buf : (len_u32 buf < 4294967296)%N.
Proof. by apply N.mod_lt. Qed.

Lemma length_u32_to_be n : length (u32_to_be n) = 4.
Proof. done. Qed.

#[local] Opaque u32_to_be.

(** ** One frame *)

Definition frame_of (buf : bytes) : bytes := u32_to_be (len_u32 buf) ++ buf.

Definition fits (buf : bytes) : Prop := (N.of_nat (length buf) <= max_frame)%N.

Lemma fits_u32 buf : fits buf → (N.of_nat (length buf) < 4294967296)%N.
Proof. unfold fits, max_frame. lia. Qed.

Lemma read_exact_app {E} (b r : bytes) : read_exact (E := E) (length b) (b ++ r) = (r, Ok b).
Proof.
  unfold read_exact. rewrite length_app, decide_True by lia.
  by rewrite drop_app_length, take_app_length.
Qed.

Lemma read_exact_Ok {E} n r r' b :
  read_exact (E := E) n r = (r', Ok b) → r = b ++ r' ∧ length b = n.
Proof.
  unfold read_exact. case_decide; [|done]. intros [= <- <-].
  split; [symmetry; apply take_drop|]. rewrite length_take. lia.
Qed.

Lemma read_exact_short {E} n (r : bytes) :
  length r < n → read_exact (E := E) n r = ([], Err (Io UnexpectedEof)).
Proof. intros. unfold read_exact. by rewrite decide_False by lia. Qed.

Section frames.
#[local] Set Default Proof Using "Type*".
Context `{C : Codec T E}.
Implicit Types (buf r : bytes) (w : Writer).

Lemma read_frame_frame_of buf r : fits buf → read_frame (E := E) (frame_of buf ++ r) = (r, Ok buf).
Proof.
  intros Hf. unfold read_frame, frame_of, mbind, io_bind. rewrite <- app_assoc.
  rewrite (read_exact_app (u32_to_be _)). cbv zeta.
  rewrite u32_round_trip by apply len_u32_bound. rewrite len_u32_small by by apply fits_u32.
  destruct (N.ltb_spec max_frame (N.of_nat (length buf))); [unfold fits in Hf; lia|].
  rewrite Nat2N.id. apply read_exact_app.
Qed.

Lemma read_frame_Ok r r' buf :
  read_frame (E := E) r = (r', Ok buf) → fits buf ∧ r = frame_of buf ++ r'.
Proof.
  unfold read_frame, mbind, io_bind.
  destruct (read_exact 4 r) as [r1 [len_buf|]] eqn:E1; [|done].
  apply read_exact_Ok in E1 as [-> Hlen]. cbv zeta.
  destruct (N.ltb_spec max_frame (u32_from_be len_buf)); [done|].
  intros [-> Hbuf]%read_exact_Ok.
  assert (N.of_nat (length buf) = u32_from_be len_buf) as Hn by (rewrite Hbuf; apply N2Nat.id).
  assert (fits buf) as Hf by (unfold fits; lia). split; [done|].
  unfold frame_of. rewrite len_u32_small, Hn, u32_to_from by auto using fits_u32.
  by rewrite app_assoc.
Qed.

(** A frame that was cut short is not read. *)
Lemma read_frame_cut buf n :
  fits buf → n < length (frame_of buf) →
  ∃ e, read_frame (E := E) (take n (frame_of buf)) = ([], Err e).
Proof.
  intros Hf Hn. unfold read_frame, mbind, io_bind, frame_of in *.
  rewrite length_app, length_u32_to_be in Hn. destruct (decide (n < 4)) as [Hs|Hs].
  - rewrite read_exact_short; [by eexists|]. rewrite length_take. lia.
  - rewrite take_app, length_u32_to_be, take_ge by (rewrite length_u32_to_be; lia).
    rewrite (read_exact_app (u32_to_be _)). cbv zeta.
    rewrite u32_round_trip by apply len_u32_bound. rewrite len_u32_small by by apply fits_u32.
    destruct (N.ltb_spec max_frame (N.of_nat (length buf))); [unfold fits in Hf; lia|].
    rewrite Nat2N.id, read_exact_short; [by eexists|]. rewrite length_take. lia.
Qed.

(** A frame whose announced length is over the limit is refused. *)
Lemma read_frame_large buf r :
  (max_frame < len_u32 buf)%N →
  read_frame (E := E) (frame_of buf ++ r) = (buf ++ r, Err (TooLarge (len_u32 buf))).
Proof.
  intros Hl. unfold read_frame, frame_of, mbind, io_bind. rewrite <- app_assoc.
  rewrite (read_exact_app (u32_to_be _)). cbv zeta.
  rewrite u32_round_trip by apply len_u32_bound.
  by destruct (N.ltb_spec max_frame (len_u32 buf)); [|lia].
Qed.

(** ** Writing *)

Definition within (w : Writer) : Prop :=
  match w_limit w with Some n => length (w_sent w) <= n | None => True end.

Lemma write_frame_spec msg buf w :
  encode msg = Ok buf → within w →
  (w_limit w = None ∨ (∃ n, w_limit w = Some n ∧ length (w_sent w ++ frame_of buf) <= n)) ∧
    write_frame msg w = (mkWriter (w_sent w ++ frame_of buf) (w_limit w), Ok ()) ∨
  ∃ n w', w_limit w = Some n ∧ n < length (w_sent w ++ frame_of buf) ∧
    write_frame msg w = (w', Err (Io StreamClosed)) ∧
    w_sent w' = take n (w_sent w ++ frame_of buf).
Proof.
  intros He Hw. unfold write_frame, mbind, io_bind. rewrite He. simpl.
  unfold write_all, frame_of, within in *. destruct w as [sent [n|]]; simpl in *.
  2: { left. split; [by left|]. by rewrite <- app_assoc. }
  rewrite !length_app, !length_u32_to_be in *. case_decide; simpl.
  - rewrite !length_app, !length_u32_to_be. case_decide; simpl.
    + left. split; [|by rewrite <- app_assoc]. right. exists n. split; [done|]. lia.
    + right. exists n. eexists. split_and!; [done|lia|done|]. simpl. by rewrite <- app_assoc.
  - right. exists n. eexists. split_and!; [done|lia|done|]. simpl.
    rewrite app_assoc, (take_app_le (sent ++ _)); [done|]. rewrite length_app, length_u32_to_be. lia.
Qed.

(** ** The loops *)

Lemma reader_loop_fuel_frame fuel msg buf r :
  fits buf → decode buf = Ok msg →
  reader_loop_fuel (S fuel) (frame_of buf ++ r) = msg :: reader_loop_fuel fuel r.
Proof. intros Hf Hd. cbn [reader_loop_fuel]. by rewrite read_frame_frame_of, Hd by done. Qed.

Lemma reader_loop_fuel_cut fuel buf n :
  fits buf → n < length (frame_of buf) → reader_loop_fuel fuel (take n (frame_of buf)) = [].
Proof.
  intros Hf Hn. destruct fuel as [|fuel]; [done|]. cbn [reader_loop_fuel].
  by destruct (read_frame_cut buf n Hf Hn) as [e ->].
Qed.

Lemma writer_loop_reads `{CS : !CodecSpec C} fuel msgs w :
  within w → Forall (λ m, ∃ buf, encode m = Ok buf ∧ fits buf) msgs →
  ∃ tail, w_sent (writer_loop msgs w) = w_sent w ++ tail ∧
    (length tail < fuel →
      reader_loop_fuel fuel tail `prefix_of` msgs ∧
      (w_limit w = None → reader_loop_fuel fuel tail = msgs)).
Proof.
  intros Hw Hm. revert fuel w Hw. induction Hm as [|msg msgs (buf & He & Hf) _ IH]; intros fuel w Hw.
  - exists []. rewrite app_nil_r. split; [done|]. intros _. by destruct fuel.
  - simpl. apply decode_encode in He as Hd.
    destruct (write_frame_spec msg buf w He Hw) as [[Hlim ->]|(n & w' & Hlim & Hn & -> & Hs)].
    + destruct (IH (pred fuel) (mkWriter (w_sent w ++ frame_of buf) (w_limit w)))
        as (tail & Ht & Hr).
      { unfold within. simpl. by destruct Hlim as [->|(n & -> & ?)]. }
      exists (frame_of buf ++ tail). split; [by rewrite Ht; simpl; rewrite app_assoc|].
      rewrite length_app. unfold frame_of at 1. rewrite length_app, length_u32_to_be.
      intros Hlen. destruct fuel as [|fuel]; [lia|]. simpl in Hr.
      rewrite (reader_loop_fuel_frame fuel msg) by done.
      destruct Hr as [Hp Hall]; [lia|]. split; [by apply prefix_cons|].
      intros Hnone. by rewrite Hall.
    + exists (take (n - length (w_sent w)) (frame_of buf)).
      unfold within in Hw. rewrite Hlim in Hw. rewrite length_app in Hn. split.
      * rewrite Hs, take_app, (take_ge (w_sent w)) by done. done.
      * intros _. rewrite reader_loop_fuel_cut by (done || lia).
        split; [apply prefix_nil|congruence].
Qed.
End frames.

(** ** The codecs of stric-tower *)

Section tower_codec.
#[local] Set Default Proof Using "Type*".
Context `{C : Codec T E}.

Lemma encode_message_sent msg buf sent :
  encode msg = Ok buf →
  encode_message msg (mkWriter sent None) = (mkWriter (sent ++ frame_of buf) None, Ok ()).
Proof.
  intros He. unfold encode_message, write_length_prefixed, mbind, io_bind. rewrite He. simpl.
  unfold frame_of. by rewrite app_assoc.
Qed.

Lemma read_length_prefixed_frame buf rest :
  read_length_prefixed (E := E) (frame_of buf ++ rest) =
    read_exact (N.to_nat (len_u32 buf)) (buf ++ rest).
Proof.
  unfold read_length_prefixed, frame_of, mbind, io_bind. rewrite <- app_assoc.
  rewrite (read_exact_app (u32_to_be _)). by rewrite u32_round_trip by apply len_u32_bound.
Qed.

Lemma decode_message_frame `{CS : !CodecSpec C} msg buf rest :
  encode msg = Ok buf → (N.of_nat (length buf) < 4294967296)%N →
  decode_message (frame_of buf ++ rest) = (rest, Ok msg).
Proof.
  intros He Hlt. unfold decode_message, mbind, io_bind. rewrite read_length_prefixed_frame.
  rewrite len_u32_small, Nat2N.id, read_exact_app by done.
  by rewrite (decode_encode _ _ He).
Qed.

Lemma decode_message_closed : decode_message (T := T) [] = ([], Err (Io UnexpectedEof)).
Proof. done. Qed.
End tower_codec.

(** ** Theorems *)

Section theorems.
#[local] Set Default Proof Using "Type*".
Context `{C : Codec T E} `{CS : !CodecSpec C}.

(** C15. A control stream delivers messages in order and unaltered.  Whatever point
    the transport breaks at, the peer's reader loop sees a prefix of the messages
    the writer loop was given; on a stream that does not break it sees all of
    them.  Every message must encode to at most 16 MiB. *)
Theorem control_stream_in_order msgs limit :
  Forall (λ m, ∃ buf, encode m = Ok buf ∧ fits buf) msgs →
  reader_loop (w_sent (writer_loop msgs (mkWriter [] limit))) `prefix_of` msgs ∧
  (limit = None → reader_loop (w_sent (writer_loop msgs (mkWriter [] limit))) = msgs).
Proof.
  intros Hm. set (sent := w_sent (writer_loop msgs (mkWriter [] limit))).
  destruct (writer_loop_reads (S (length sent)) msgs (mkWriter [] limit))
    as (tail & Ht & Hr); [|done|].
  { unfold within. simpl. destruct limit; [lia|done]. }
  simpl in Ht. fold sent in Ht. rewrite <- Ht in Hr. apply Hr. lia.
Qed.

(** C34. [read_frame] returns a payload exactly when the input starts with the
    payload's length as four big-endian bytes and then the payload, and the
    payload is at most 16 MiB; it leaves the rest of the input unread. *)
Theorem read_frame_exact r r' buf :
  read_frame (E := E) r = (r', Ok buf) ↔
  (N.of_nat (length buf) <= max_frame)%N ∧
  r = u32_to_be (N.of_nat (length buf)) ++ buf ++ r'.
Proof.
  split.
  - intros [Hf ->]%read_frame_Ok. split; [done|]. unfold frame_of.
    by rewrite len_u32_small, app_assoc by by apply fits_u32.
  - intros [Hf ->]. rewrite <- (len_u32_small buf) by by apply fits_u32.
    rewrite app_assoc. by apply read_frame_frame_of.
Qed.

(** [write_frame] has no size check: a message that encodes to more than 16 MiB
    (and less than 4 GiB) is written without an error, the peer refuses it, and the
    peer's reader loop ends, losing every message after it. *)
Lemma oversize_message_ends_reader msg buf msgs :
  encode msg = Ok buf → (max_frame < N.of_nat (length buf) < 4294967296)%N →
  (write_frame msg (mkWriter [] None)).2 = Ok () ∧
  reader_loop (w_sent (writer_loop (msg :: msgs) (mkWriter [] None))) = [].
Proof.
  intros He [Hlo Hhi].
  destruct (write_frame_spec msg buf (mkWriter [] None) He I) as [[_ Ew]|(? & ? & ? & _)]; [|done].
  simpl in Ew. split; [by rewrite Ew|]. simpl. rewrite Ew.
  assert (∃ tail, w_sent (writer_loop msgs (mkWriter (frame_of buf) None)) = frame_of buf ++ tail)
    as [tail ->].
  { generalize (frame_of buf) as sent. induction msgs as [|m msgs IH]; intros sent; simpl.
    - exists []. by rewrite app_nil_r.
    - destruct (encode m) as [b|e] eqn:Em.
      + destruct (write_frame_spec m b (mkWriter sent None) Em I) as [[_ ->]|(? & ? & ? & _)]; [|done].
        simpl. destruct (IH (sent ++ frame_of b)) as [t ->]. exists (frame_of b ++ t).
        by rewrite app_assoc.
      + unfold write_frame, mbind, io_bind. rewrite Em. simpl. exists []. by rewrite app_nil_r. }
  unfold reader_loop. cbn [reader_loop_fuel].
  by rewrite read_frame_large by by rewrite len_u32_small.
Qed.

(** A stric-tower codec reads back the message it wrote, whatever follows on
    the stream, when the encoding is below 4 GiB; at exactly 4 GiB or more the
    length prefix is truncated and only a prefix of the payload is handed to the
    decoder. *)
Lemma tower_codec_round_trip msg buf rest :
  encode msg = Ok buf →
  let sent := w_sent (encode_message msg (mkWriter [] None)).1 in
  ((N.of_nat (length buf) < 4294967296)%N →
   decode_message (sent ++ rest) = (rest, Ok msg)) ∧
  ((4294967296 <= N.of_nat (length buf))%N →
   ∃ n, n < length buf ∧
     read_length_prefixed (E := E) (sent ++ rest) = (drop n buf ++ rest, Ok (take n buf))).
Proof.
  intros He sent.
  assert (sent = frame_of buf) as ->.
  { unfold sent. by rewrite (encode_message_sent msg buf [] He). }
  split; [by apply decode_message_frame|].
  intros Hge. exists (N.to_nat (len_u32 buf)). pose proof (len_u32_bound buf).
  assert (N.to_nat (len_u32 buf) < length buf) as Hlt by lia. split; [done|].
  rewrite read_length_prefixed_frame. unfold read_exact.
  rewrite decide_True by (rewrite length_app; lia). by rewrite drop_app_le, take_app_le by lia.
Qed.
End theorems.

(** ** Concrete messages *)

(** Messages that are their own encoding. *)
Definition raw_codec : Codec bytes () := {| encode b := Ok b; decode b := Ok b |}.

Lemma raw_codec_spec : CodecSpec raw_codec.
Proof. split. by intros m b [= ->]. Qed.

Section concrete.
#[local] Existing Instance raw_codec.
#[local] Existing Instance raw_codec_spec.

Lemma control_stream_in_order_witness :
  reader_loop (w_sent (writer_loop [[Byte.x01; Byte.x02]; []; [Byte.x03]] (mkWriter [] None)))
    = [[Byte.x01; Byte.x02]; []; [Byte.x03]].
Proof.
  apply (control_stream_in_order [[Byte.x01; Byte.x02]; []; [Byte.x03]] None); [|reflexivity].
  repeat constructor; eexists; (split; [reflexivity|]); unfold fits, max_frame; simpl; lia.
Defined.

Lemma length_oversize : N.of_nat (length (replicate (N.to_nat 16777217) Byte.x00)) = 16777217%N.
Proof. rewrite length_replicate. apply N2Nat.id. Qed.

Lemma oversize_message_ends_reader_witness :
  reader_loop (w_sent (writer_loop [replicate (N.to_nat 16777217) Byte.x00; [Byte.x01]]
    (mkWriter [] None))) = [].
Proof.
  refine (proj2 (oversize_message_ends_reader _ (replicate (N.to_nat 16777217) Byte.x00)
    [[Byte.x01]] eq_refl _)).
  rewrite length_oversize. unfold max_frame. lia.
Defined.

Lemma read_frame_exact_witness :
  read_frame (E := ()) [Byte.x00; Byte.x00; Byte.x00; Byte.x01; Byte.x07; Byte.x09] =
    ([Byte.x09], Ok [Byte.x07]).
Proof.
  apply (read_frame_exact (C := raw_codec)). split; [vm_compute; discriminate|].
  vm_compute. reflexivity.
Defined.

Lemma tower_codec_round_trip_witness :
  decode_message (w_sent (encode_message [Byte.x07] (mkWriter [] None)).1 ++ [Byte.x09])
    = ([Byte.x09], Ok [Byte.x07]).
Proof.
  apply (tower_codec_round_trip (C := raw_codec) [Byte.x07] [Byte.x07] [Byte.x09] eq_refl).
  simpl. lia.
Defined.
End concrete.
