(* ===== verification/Stream.v ===== *)
(** * Streams

    [SendUniStream], [RecvUniStream] and [BiStream] of [stric-core/src/stream.rs].  They
    forward to the streams of quinn, which are the class [QuinnStreams] with its
    documented laws [QuinnStreamsSpec]; streams kept as bytes ([Frame.Writer]) are an
    instance.  A read into a buffer takes the buffer's length and returns the bytes that
    were put into it. *)
From S2P Require Import Prelude Proto Frame.
From stdpp Require Import options.

(** ** The streams of quinn *)

Inductive WriteError := Stopped (code : N) | WriteConnectionLost | WriteClosedStream.
Inductive ClosedStream := ClosedStreamError.
Inductive StoppedError := StoppedConnectionLost.
Inductive ReadError := ReadReset (code : N) | ReadConnectionLost | ReadClosedStream.
Inductive ReadExactError := FinishedEarly (got : nat) | ReadExactFailed (e : ReadError).
Inductive ReadToEndError := TooLong | ReadToEndFailed (e : ReadError).

Class QuinnStreams (SendStream RecvStream : Type) := {
  q_write : bytes → SendStream → SendStream * result nat WriteError;
  q_write_all : bytes → SendStream → SendStream * result () WriteError;
  q_finish : SendStream → SendStream * result () ClosedStream;
  q_stopped : SendStream → result (option N) StoppedError;
  q_read : nat → RecvStream → RecvStream * result (option bytes) ReadError;
  q_read_exact : nat → RecvStream → RecvStream * result bytes ReadExactError;
  q_read_to_end : nat → RecvStream → RecvStream * result bytes ReadToEndError;
  q_stop : N → RecvStream → RecvStream * result () ClosedStream;
}.

(** [sent s] is what has been accepted for sending; [complete r b]: the peer has finished
    the stream and [b] is left to read. *)
Class QuinnStreamsSpec {S R} (Q : QuinnStreams S R) := {
  sent : S → bytes;
  finished : S → bool;
  complete : R → bytes → Prop;
  q_write_ok buf s s' n :
    q_write buf s = (s', Ok n) →
    n <= length buf ∧ sent s' = sent s ++ take n buf ∧ finished s' = finished s;
  q_write_all_ok buf s s' :
    q_write_all buf s = (s', Ok ()) → sent s' = sent s ++ buf ∧ finished s' = finished s;
  q_finish_ok s s' :
    q_finish s = (s', Ok ()) → finished s = false ∧ finished s' = true ∧ sent s' = sent s;
  q_read_complete n r b :
    complete r b → 0 < n →
    (b = [] → ∃ r', q_read n r = (r', Ok None)) ∧
    (b ≠ [] → ∃ r' k, q_read n r = (r', Ok (Some (take k b))) ∧ 0 < k ∧ k <= n ∧
       k <= length b ∧ complete r' (drop k b));
  q_read_exact_complete n r b :
    complete r b →
    (n <= length b → ∃ r', q_read_exact n r = (r', Ok (take n b)) ∧ complete r' (drop n b)) ∧
    (length b < n → ∃ r', q_read_exact n r = (r', Err (FinishedEarly (length b))));
  q_read_to_end_complete limit r b :
    complete r b →
    (length b <= limit → ∃ r', q_read_to_end limit r = (r', Ok b)) ∧
    (limit < length b → ∃ r', q_read_to_end limit r = (r', Err TooLong));
}.

Section streams.
Context `{Q : QuinnStreams SendStream RecvStream}.

(** ** Unidirectional streams *)

Record SendUniStream := mkSendUni { su_stream : SendStream }.

(** The write and finish operations take the stream by reference: the changed stream is
    put back. *)
Definition on_send {A} (op : SendStream → SendStream * A) (s : SendUniStream) :
    SendUniStream * A :=
  let '(s', a) := op (su_stream s) in (mkSendUni s', a).

Definition send_write (buf : bytes) : SendUniStream → SendUniStream * result nat WriteError :=
  on_send (q_write buf).

Definition send_write_all (buf : bytes) : SendUniStream → SendUniStream * result () WriteError :=
  on_send (q_write_all buf).

Definition send_finish : SendUniStream → SendUniStream * result () ClosedStream :=
  on_send q_finish.

Definition send_stopped (s : SendUniStream) : result (option N) StoppedError :=
  q_stopped (su_stream s).

Record RecvUniStream := mkRecvUni { ru_stream : RecvStream }.

Definition on_recv {A} (op : RecvStream → RecvStream * A) (r : RecvUniStream) :
    RecvUniStream * A :=
  let '(r', a) := op (ru_stream r) in (mkRecvUni r', a).

Definition recv_read (len : nat) : RecvUniStream → RecvUniStream * result (option bytes) ReadError :=
  on_recv (q_read len).

Definition recv_read_exact (len : nat) :
    RecvUniStream → RecvUniStream * result bytes ReadExactError :=
  on_recv (q_read_exact len).

Definition recv_read_to_end (size_limit : nat) :
    RecvUniStream → RecvUniStream * result bytes ReadToEndError :=
  on_recv (q_read_to_end size_limit).

Definition recv_stop (error_code : N) : RecvUniStream → RecvUniStream * result () ClosedStream :=
  on_recv (q_stop error_code).

(** ** Bidirectional streams *)

Record BiStream := mkBiStream {
  responder_initiated : bool;
  recv_stream : RecvStream;
  send_stream : SendStream;
}.

Definition new_bistream (responder : bool) (s : SendStream) (r : RecvStream) : BiStream :=
  mkBiStream responder r s.

Definition is_responder_initiated (b : BiStream) : bool := responder_initiated b.

Definition on_send_half {A} (op : SendStream → SendStream * A) (b : BiStream) : BiStream * A :=
  let '(s', a) := op (send_stream b) in
  (mkBiStream (responder_initiated b) (recv_stream b) s', a).

Definition on_recv_half {A} (op : RecvStream → RecvStream * A) (b : BiStream) : BiStream * A :=
  let '(r', a) := op (recv_stream b) in
  (mkBiStream (responder_initiated b) r' (send_stream b), a).

Definition bi_write (buf : bytes) : BiStream → BiStream * result nat WriteError :=
  on_send_half (q_write buf).

Definition bi_write_all (buf : bytes) : BiStream → BiStream * result () WriteError :=
  on_send_half (q_write_all buf).

Definition bi_finish : BiStream → BiStream * result () ClosedStream := on_send_half q_finish.

Definition bi_read (len : nat) : BiStream → BiStream * result (option bytes) ReadError :=
  on_recv_half (q_read len).

Definition bi_read_exact (len : nat) : BiStream → BiStream * result bytes ReadExactError :=
  on_recv_half (q_read_exact len).

Definition bi_read_to_end (size_limit : nat) : BiStream → BiStream * result bytes ReadToEndError :=
  on_recv_half (q_read_to_end size_limit).

(** ** A transfer *)

(** Writing a list of buffers with [write_all], stopping at the first failure. *)
Fixpoint bi_write_chunks (chunks : list bytes) (b : BiStream) : BiStream * result () WriteError :=
  match chunks with
  | [] => (b, Ok ())
  | c :: chunks' =>
      match bi_write_all c b with
      | (b', Ok _) => bi_write_chunks chunks' b'
      | (b', Err e) => (b', Err e)
      end
  end.

(** Reading with a buffer of [len] bytes until the stream ends, for at most [fuel] reads. *)
Fixpoint bi_read_chunks (fuel len : nat) (b : BiStream) : BiStream * option bytes :=
  match fuel with
  | O => (b, None)
  | S fuel' =>
      match bi_read len b with
      | (b', Ok None) => (b', Some [])
      | (b', Ok (Some d)) =>
          let '(b'', rest) := bi_read_chunks fuel' len b' in (b'', (d ++.) <$> rest)
      | (b', Err _) => (b', None)
      end
  end.

Section facts.
Context {QS : QuinnStreamsSpec Q}.
#[local] Set Default Proof Using "Type*".

Lemma bi_write_chunks_sent chunks b b' :
  bi_write_chunks chunks b = (b', Ok ()) →
  sent (send_stream b') = sent (send_stream b) ++ concat chunks ∧
  recv_stream b' = recv_stream b ∧ responder_initiated b' = responder_initiated b.
Proof.
  revert b. induction chunks as [|c chunks IH]; intros b; simpl.
  - intros [= <-]. by rewrite app_nil_r.
  - unfold bi_write_all, on_send_half.
    destruct (q_write_all c (send_stream b)) as [s' [[]|e]] eqn:E; [|done].
    intros (H1 & H2 & H3)%IH. simpl in *. apply q_write_all_ok in E as [E _].
    by rewrite H1, E, (assoc_L (++)).
Qed.

Lemma bi_read_chunks_complete len fuel b data :
  0 < len → length data < fuel → complete (recv_stream b) data →
  (bi_read_chunks fuel len b).2 = Some data.
Proof.
  intros Hlen. revert b data. induction fuel as [|fuel IH]; intros b data Hf Hc; [lia|].
  simpl. unfold bi_read, on_recv_half.
  destruct (q_read_complete len _ _ Hc Hlen) as [Hnil Hcons].
  destruct (decide (data = [])) as [->|Hne].
  - destruct Hnil as [r' ->]; done.
  - destruct Hcons as (r' & k & -> & Hk0 & _ & Hk & Hc'); [done|].
    specialize (IH (mkBiStream (responder_initiated b) r' (send_stream b)) (drop k data)).
    rewrite length_drop in IH. specialize (IH ltac:(lia) Hc').
    destruct (bi_read_chunks fuel len _) as [b'' rest]. simpl in *. rewrite IH. simpl.
    by rewrite take_drop.
Qed.

(** A stream carries what is written to it: when one side has written any list of
    buffers and finished, and its bytes have been delivered, the other side's
    [read_to_end] returns their concatenation when it fits the limit and
    [TooLong] otherwise, reading piece by piece returns the same bytes, and neither
    side's other half or flag is touched. *)
Lemma bistream_transfer chunks len limit a a1 a2 b :
  sent (send_stream a) = [] → 0 < len →
  bi_write_chunks chunks a = (a1, Ok ()) →
  bi_finish a1 = (a2, Ok ()) →
  complete (recv_stream b) (sent (send_stream a2)) →
  let data := concat chunks in
  (bi_read_to_end limit b).2 = (if decide (length data <= limit) then Ok data else Err TooLong) ∧
  (bi_read_chunks (S (length data)) len b).2 = Some data ∧
  finished (send_stream a2) = true ∧ recv_stream a2 = recv_stream a ∧
  send_stream (bi_read_to_end limit b).1 = send_stream b ∧
  responder_initiated a2 = responder_initiated a.
Proof.
  intros H0 Hlen Hw Hf Hc data. apply bi_write_chunks_sent in Hw as (Hs & Hr & Hi).
  rewrite H0, app_nil_l in Hs. unfold bi_finish, on_send_half in Hf.
  destruct (q_finish (send_stream a1)) as [s [[]|]] eqn:Ef; [|done]. injection Hf as <-.
  apply q_finish_ok in Ef as (_ & Hfin & Hsent). simpl in *.
  rewrite Hsent, Hs in Hc. fold data in Hc.
  unfold bi_read_to_end, on_recv_half.
  destruct (q_read_to_end_complete limit _ _ Hc) as [Hok Hlong].
  split_and!; try done; [| |].
  - case_decide as Hd; [destruct (Hok Hd) as [r' ->]|destruct Hlong as [r' ->]; [lia|]]; done.
  - apply (bi_read_chunks_complete len (S (length data))); [done|lia|done].
  - by destruct (q_read_to_end limit _) as [r' x].
Qed.
End facts.
End streams.

Arguments SendUniStream : clear implicits.
Arguments RecvUniStream : clear implicits.
Arguments BiStream : clear implicits.

(** ** Streams as bytes *)

(** The sender is a writer with its finished flag; the receiver holds what is left of a
    finished stream. *)
Global Instance byte_streams : QuinnStreams (Writer * bool) bytes := {
  q_write buf s :=
    match write_all (E := ()) buf s.1 with
    | (w, Ok _) => ((w, s.2), Ok (length buf))
    | (w, Err _) => ((w, s.2), Err WriteConnectionLost)
    end;
  q_write_all buf s :=
    match write_all (E := ()) buf s.1 with
    | (w, Ok _) => ((w, s.2), Ok ())
    | (w, Err _) => ((w, s.2), Err WriteConnectionLost)
    end;
  q_finish s := if s.2 then (s, Err ClosedStreamError) else ((s.1, true), Ok ());
  q_stopped s := Ok None;
  q_read n r := match r with [] => ([], Ok None) | _ => (drop n r, Ok (Some (take n r))) end;
  q_read_exact n r :=
    match read_exact (E := ()) n r with
    | (r', Ok b) => (r', Ok b)
    | (r', Err _) => (r', Err (FinishedEarly (length r)))
    end;
  q_read_to_end limit r := if decide (length r <= limit) then ([], Ok r) else ([], Err TooLong);
  q_stop code r := ([], Ok ());
}.

Lemma write_all_sent {E} buf w w' :
  write_all (E := E) buf w = (w', Ok ()) → w_sent w' = w_sent w ++ buf.
Proof.
  unfold write_all. destruct (w_limit w); [case_decide; [|done]|]; by intros [= <-].
Qed.

Global Program Instance byte_streams_spec : QuinnStreamsSpec byte_streams := {
  sent s := w_sent s.1;
  finished s := s.2;
  complete r b := r = b;
}.
Next Obligation.
  intros buf s s' n. simpl. destruct (write_all buf s.1) as [w [[]|]] eqn:E; [|done].
  intros [= <- <-]. rewrite take_ge by lia. by apply write_all_sent in E.
Qed.
Next Obligation.
  intros buf s s'. simpl. destruct (write_all buf s.1) as [w [[]|]] eqn:E; [|done].
  intros [= <-]. by apply write_all_sent in E.
Qed.
Next Obligation. intros [w [|]] s'; simpl; [done|]. by intros [= <-]. Qed.
Next Obligation.
  intros n r b -> Hn. split; [intros ->; by eexists|]. intros Hb.
  exists (drop n b), (n `min` length b). destruct b as [|x b]; [done|].
  rewrite <- take_take, (take_ge (x :: b)) by done. split; [done|].
  destruct (decide (n <= length (x :: b))).
  - rewrite Nat.min_l by done. simpl in *. split_and!; [lia|lia|lia|done].
  - rewrite Nat.min_r, !drop_ge by lia. simpl in *. split_and!; [lia|lia|lia|done].
Qed.
Next Obligation.
  intros n r b ->. simpl. unfold read_exact.
  split; intros; [rewrite decide_True by done|rewrite decide_False by lia]; eauto.
Qed.
Next Obligation.
  intros limit r b ->. simpl.
  split; intros; [rewrite decide_True by done|rewrite decide_False by lia]; eauto.
Qed.

Lemma bistream_transfer_witness :
  let a := new_bistream false (mkWriter [] None, false) ([] : bytes) in
  let b := new_bistream true (mkWriter [] None, false) [Byte.x01; Byte.x02; Byte.x03] in
  (bi_read_to_end 3 b).2 = Ok [Byte.x01; Byte.x02; Byte.x03].
Proof.
  intros a b.
  refine (proj1 (bistream_transfer [[Byte.x01; Byte.x02]; [Byte.x03]] 2 3 a
    (bi_write_chunks [[Byte.x01; Byte.x02]; [Byte.x03]] a).1
    (bi_finish (bi_write_chunks [[Byte.x01; Byte.x02]; [Byte.x03]] a).1).1 b _ _ _ _ _));
    [reflexivity|lia|reflexivity|reflexivity|reflexivity].
Defined.
