(* ===== verification/Reconciliation.v ===== *)
(** * Sessions, their garbage collection and the reconnection backoff

    [stric-flow/src/reconciliation.rs].  Durations are nanoseconds; an [Instant]
    is the nanoseconds since the node's clock started.  The floating-point jitter
    of [next_backoff] is the parameter [jitter]: what is modelled is the delay it
    is applied to. *)
From S2P Require Import Prelude Proto.
From stdpp Require Import options.

Abbreviation Duration := N (only parsing).
Abbreviation Instant := N (only parsing).

Definition secs (n : N) : Duration := (n * 1000000000)%N.

(** [Duration::MAX]. *)
Definition duration_max : Duration := (secs u64_max + 999999999)%N.

(** ** Backoff *)

Record ExponentialBackoff := mkBackoff { base : Duration; max : Duration; attempts : N }.

Definition new_backoff (base max : Duration) : ExponentialBackoff := mkBackoff base max 0.

(** [2u32.saturating_pow(e)]. *)
Definition saturating_pow2 (e : N) : N := if (e <? 32)%N then (2 ^ e)%N else u32_max.

(** [Duration::saturating_mul]. *)
Definition duration_saturating_mul (d : Duration) (k : N) : Duration :=
  N.min (d * k) duration_max.

(** The delay before the jitter. *)
Definition raw_backoff (eb : ExponentialBackoff) : Duration :=
  let factor := saturating_pow2 (attempts eb - 1) in
  let next := duration_saturating_mul (base eb) factor in
  if (max eb <? next)%N then max eb else next.

Definition next_backoff (p : profile) (jitter : Duration → Duration)
    (eb : ExponentialBackoff) : outcome (ExponentialBackoff * Duration) :=
  n ← u32_add p (attempts eb) 1;
  let eb := mkBackoff (base eb) (max eb) n in
  Ret (eb, jitter (raw_backoff eb)).

Definition reset (eb : ExponentialBackoff) : ExponentialBackoff :=
  mkBackoff (base eb) (max eb) 0.

(** The delays of the first [n] failed attempts. *)
Fixpoint delays (p : profile) (jitter : Duration → Duration) (n : nat)
    (eb : ExponentialBackoff) : outcome (list Duration) :=
  match n with
  | O => Ret []
  | S n' =>
      '(eb, d) ← next_backoff p jitter eb;
      ds ← delays p jitter n' eb;
      Ret (d :: ds)
  end.

(** ** Sessions *)

Abbreviation StateMergeFn := (bytes → bytes → result bytes string).

Record Session := mkSession {
  session_id : string;
  creator_node : string;
  flow_ids : list string;
  created_at : N;
  metadata : gmap string string;
  state_data : bytes;
  state_version : N;
  state_timestamp : N;
}.

(** The condition of [retain]'s closure; [duration_since] is zero for a later instant. *)
Definition expired (now : Instant) (node_last_seen : gmap string Instant)
    (session_ttl : Duration) (s : Session) : bool :=
  match node_last_seen !! creator_node s with
  | Some last_seen => (session_ttl <? now - last_seen)%N
  | None => false
  end.

Definition gc_inactive_sessions `{HashOrder} (now : Instant) (sessions : gmap string Session)
    (node_last_seen : gmap string Instant) (session_ttl : Duration) :
    gmap string Session * list string :=
  (filter (λ kv, expired now node_last_seen session_ttl kv.2 = false) sessions,
   (filter (λ kv, expired now node_last_seen session_ttl kv.2 = true) (map_iter sessions)).*1).

(** ** Facts *)

Lemma raw_backoff_min eb :
  (1 <= attempts eb)%N → (max eb <= duration_max)%N →
  raw_backoff eb = N.min (max eb) (base eb * N.min (2 ^ (attempts eb - 1)) u32_max).
Proof.
  intros Ha Hm. unfold raw_backoff, duration_saturating_mul.
  assert (saturating_pow2 (attempts eb - 1) = N.min (2 ^ (attempts eb - 1)) u32_max) as ->.
  { unfold saturating_pow2. destruct (N.ltb_spec (attempts eb - 1) 32) as [Hlt|Hge].
    - assert (2 ^ (attempts eb - 1) <= 2 ^ 31)%N by (apply N.pow_le_mono_r; lia).
      unfold u32_max. change (2 ^ 31)%N with 2147483648%N in *. lia.
    - assert (2 ^ 32 <= 2 ^ (attempts eb - 1))%N by (apply N.pow_le_mono_r; lia).
      unfold u32_max. change (2 ^ 32)%N with 4294967296%N in *. lia. }
  destruct (N.ltb_spec (max eb) (N.min (base eb * N.min (2 ^ (attempts eb - 1)) u32_max)
    duration_max)); lia.
Qed.

Lemma delays_spec p jitter n eb :
  (attempts eb + N.of_nat n <= u32_max)%N → (max eb <= duration_max)%N →
  delays p jitter n eb = Ret ((λ i, jitter (N.min (max eb)
    (base eb * N.min (2 ^ (attempts eb + N.of_nat i)) u32_max)))
    <$> seq 0 n).
Proof.
  revert eb. induction n as [|n IH]; intros eb Ha Hm; [done|].
  cbn [delays]. unfold next_backoff, u32_add.
  destruct (N.leb_spec (attempts eb + 1) u32_max); [|lia]. cbn [mbind outcome_bind].
  rewrite IH by (simpl; lia). cbn [mbind outcome_bind]. f_equal.
  rewrite raw_backoff_min by (simpl; lia). cbn [seq fmap list_fmap base max attempts].
  f_equal.
  - do 5 f_equal. lia.
  - rewrite <- (fmap_S_seq 0 n), <- list_fmap_compose. apply list_fmap_ext.
    intros i x Hx. simpl. do 5 f_equal. lia.
Qed.

(** The delays between reconnection attempts, before jitter, double from [base]
    and are capped at [max]: the [i]-th one is [min max (base * 2^i)], with the
    power saturated at [u32::MAX].  Nothing overflows in the first [2^32 - 1]
    attempts, in either build profile. *)
Lemma backoff_doubles p jitter n b m :
  (N.of_nat n <= u32_max)%N → (m <= duration_max)%N →
  delays p jitter n (new_backoff b m) =
    Ret ((λ i, jitter (N.min m (b * N.min (2 ^ N.of_nat i) u32_max))) <$> seq 0 n).
Proof. intros. by apply (delays_spec p jitter n (new_backoff b m)). Qed.

(** The schedule of [PeerDisconnected]: 1 s to 60 s. *)
Lemma backoff_doubles_witness :
  delays Debug id 8 (new_backoff (secs 1) (secs 60)) =
    Ret (secs <$> [1; 2; 4; 8; 16; 32; 60; 60]%N).
Proof.
  rewrite (backoff_doubles Debug id 8 (secs 1) (secs 60)).
  - vm_compute. reflexivity.
  - unfold u32_max. simpl. lia.
  - unfold duration_max, secs, u64_max. lia.
Defined.

Section gc.
#[local] Set Default Proof Using "Type*".
Context `{HS : HashOrderSpec}.

(** Garbage collection removes exactly the sessions whose creator was last
    heard of longer ago than the time to live, keeps every other session
    unchanged (also those whose creator was never heard of), and returns the
    removed identifiers without repetition. *)
Lemma gc_exact now sessions last_seen ttl :
  let '(kept, evicted) := gc_inactive_sessions now sessions last_seen ttl in
  (∀ id s, kept !! id = Some s ↔ sessions !! id = Some s ∧
     ∀ t, last_seen !! creator_node s = Some t → (now - t <= ttl)%N) ∧
  (∀ id, id ∈ evicted ↔ is_Some (sessions !! id) ∧ kept !! id = None) ∧
  NoDup evicted.
Proof.
  unfold gc_inactive_sessions. set (f := expired now last_seen ttl).
  assert (∀ s, f s = false ↔ ∀ t, last_seen !! creator_node s = Some t → (now - t <= ttl)%N) as Hf.
  { intros s. unfold f, expired. destruct (last_seen !! creator_node s) as [t|]; [|naive_solver].
    rewrite N.ltb_ge. naive_solver. }
  split_and!.
  - intros id s. rewrite map_lookup_filter_Some. simpl. by rewrite Hf.
  - intros id. rewrite list_elem_of_fmap, map_lookup_filter_None. simpl. split.
    + intros ([id' s] & -> & [Hs Hin]%list_elem_of_filter). simpl in *.
      rewrite (map_iter_perm sessions), elem_of_map_to_list in Hin.
      split; [by exists s|]. right. intros s' Hs'. rewrite Hin in Hs'. injection Hs' as <-. by rewrite Hs.
    + intros [[s Hs] [Hn|Hn]]; [congruence|]. exists (id, s). split; [done|].
      apply list_elem_of_filter. split; [|by rewrite (map_iter_perm sessions), elem_of_map_to_list].
      simpl. specialize (Hn s Hs). by destruct (f s).
  - eapply sublist_NoDup; [|apply fmap_sublist, sublist_filter].
    rewrite (map_iter_perm sessions). apply NoDup_fst_map_to_list.
Qed.
End gc.

Lemma gc_exact_witness :
  let '(kept, evicted) := gc_inactive_sessions (H := key_order) (secs 400)
    {["sess1" := mkSession "sess1" "node_a" [] 0 ∅ [] 0 0]} {["node_a" := 0%N]} (secs 300) in
  kept !! "sess1" = None ∧ "sess1" ∈ evicted.
Proof.
  pose proof (gc_exact (HS := key_order_spec) (secs 400)
    {["sess1" := mkSession "sess1" "node_a" [] 0 ∅ [] 0 0]} {["node_a" := 0%N]} (secs 300)) as H.
  destruct (gc_inactive_sessions (secs 400) _ _ _) as [kept evicted] eqn:Eg.
  vm_compute in Eg. injection Eg as <- <-. split; [reflexivity|].
  apply (proj1 (proj2 H)). split; [eexists; reflexivity|reflexivity].
Defined.
