(* ===== verification/Backpressure.v ===== *)
(** * Backpressure

    [TokenBucketRateLimiter] of [stric-flow/src/backpressure.rs].  The rate
    limiter of the governor crate is the parameter [Governor].  The fields behind
    [Arc]s are one shared state: every clone of a limiter reads and writes the
    same record.

    [wait_for_bytes] awaits in the middle, so it is a program with a counter
    ([point]) that runs interleaved with the other operations; [resume] clears the
    flag and then notifies, [set_rate] stores the rate and then replaces the inner
    limiter, each in two steps. *)
From S2P Require Import Prelude.
From stdpp Require Import options.

(** ** governor *)

Inductive check_result := Allowed | NotUntil (wait : N) | InsufficientCapacity.

Class Governor := {
  InnerLimiter : Type;
  (** [RateLimiter::direct(Quota::per_second(rate))] *)
  direct : N → InnerLimiter;
  (** [check_n], at a time *)
  check_n : N → N → InnerLimiter → InnerLimiter * check_result;
  (** the burst size the limiter was created with *)
  rate_of : InnerLimiter → N;
}.

(** What governor documents of [check_n]: a request above the burst size (the
    rate, for [per_second]) is refused for good, no other request is. *)
Class GovernorSpec (G : Governor) : Prop := {
  rate_direct r : rate_of (direct r) = r;
  rate_check t n l : rate_of (check_n t n l).1 = rate_of l;
  check_capacity t n l : (check_n t n l).2 = InsufficientCapacity ↔ (rate_of l < n)%N;
}.

Section limiter.
Context `{G : Governor}.

Record TokenBucketRateLimiter := mkLimiter {
  limiter : InnerLimiter;
  paused : bool;
  max_rate : N;
}.

(** The rate given to the inner limiter; [NonZeroU32::new(rate)] always succeeds. *)
Definition inner_rate (max_rate : N) : N :=
  let rate := if decide (max_rate = 0%N) then u32_max else max_rate in
  if decide (rate = 0%N) then 1%N else rate.

Definition new_limiter (max_rate : N) : TokenBucketRateLimiter :=
  mkLimiter (direct (inner_rate max_rate)) false max_rate.

Definition store_rate (r : N) (l : TokenBucketRateLimiter) : TokenBucketRateLimiter :=
  mkLimiter (limiter l) (paused l) r.

Definition replace_inner (r : N) (l : TokenBucketRateLimiter) : TokenBucketRateLimiter :=
  mkLimiter (direct (inner_rate r)) (paused l) (max_rate l).

Definition set_rate (r : N) (l : TokenBucketRateLimiter) : TokenBucketRateLimiter :=
  replace_inner r (store_rate r l).

Definition get_rate (l : TokenBucketRateLimiter) : N := max_rate l.

Definition set_paused (b : bool) (l : TokenBucketRateLimiter) : TokenBucketRateLimiter :=
  mkLimiter (limiter l) b (max_rate l).

Definition pause : TokenBucketRateLimiter → TokenBucketRateLimiter := set_paused true.

(** The flag; the notification concerns the waiting tasks only. *)
Definition resume : TokenBucketRateLimiter → TokenBucketRateLimiter := set_paused false.

Definition is_paused (l : TokenBucketRateLimiter) : bool := paused l.

(** ** [wait_for_bytes] as a program *)

Inductive point :=
| CheckPaused       (* before the first [is_paused] *)
| BeforeNotified    (* it returned true, [notified()] is not called yet *)
| AwaitNotified
| ReadRate
| CheckN
| Sleep (wait : N)
| RecheckPaused     (* the [while] at the end of the loop *)
| BeforeRenotified
| AwaitRenotified
| Returned.

(** One step of the task at time [t]; [None] when it cannot run by itself. *)
Definition wait_step (t bytes : N) (pc : point) (l : TokenBucketRateLimiter) :
    option (point * TokenBucketRateLimiter) :=
  match pc with
  | CheckPaused => Some (if is_paused l then BeforeNotified else ReadRate, l)
  | BeforeNotified => Some (AwaitNotified, l)
  | AwaitNotified => None
  | ReadRate =>
      Some (if decide (get_rate l = 0%N ∨ bytes = 0%N) then Returned else CheckN, l)
  | CheckN =>
      let '(inner, res) := check_n t bytes (limiter l) in
      let l := mkLimiter inner (paused l) (max_rate l) in
      Some (match res with
            | Allowed => Returned
            | NotUntil w => Sleep w
            | InsufficientCapacity => Returned
            end, l)
  | Sleep w => Some (RecheckPaused, l)
  | RecheckPaused => Some (if is_paused l then BeforeRenotified else CheckN, l)
  | BeforeRenotified => Some (AwaitRenotified, l)
  | AwaitRenotified => None
  | Returned => None
  end.

(** [notify_waiters] wakes the tasks that are waiting at that moment. *)
Definition wake (pc : point) : point :=
  match pc with
  | AwaitNotified => CheckPaused
  | AwaitRenotified => RecheckPaused
  | _ => pc
  end.

(** ** A waiting task among the other operations *)

(** What a concurrent operation still has to do. *)
Inductive pending := NotifyWaiters | ReplaceInner (r : N).

Record World := mkWorld {
  shared : TokenBucketRateLimiter;
  task : point;
  pendings : list pending;
}.

Inductive world_step (bytes : N) : World → World → Prop :=
| step_task t l pc pc' l' ps :
    wait_step t bytes pc l = Some (pc', l') →
    world_step bytes (mkWorld l pc ps) (mkWorld l' pc' ps)
| step_pause l pc ps :
    world_step bytes (mkWorld l pc ps) (mkWorld (pause l) pc ps)
| step_resume l pc ps :
    world_step bytes (mkWorld l pc ps) (mkWorld (resume l) pc (ps ++ [NotifyWaiters]))
| step_notify l pc ps1 ps2 :
    world_step bytes (mkWorld l pc (ps1 ++ NotifyWaiters :: ps2))
      (mkWorld l (wake pc) (ps1 ++ ps2))
| step_set_rate r l pc ps :
    world_step bytes (mkWorld l pc ps) (mkWorld (store_rate r l) pc (ps ++ [ReplaceInner r]))
| step_replace r l pc ps1 ps2 :
    world_step bytes (mkWorld l pc (ps1 ++ ReplaceInner r :: ps2))
      (mkWorld (replace_inner r l) pc (ps1 ++ ps2)).

(** Without concurrent operations the task runs by itself. *)
Fixpoint run_alone (times : list N) (bytes : N) (pc : point) (l : TokenBucketRateLimiter) :
    point * TokenBucketRateLimiter :=
  match times with
  | [] => (pc, l)
  | t :: times' =>
      match wait_step t bytes pc l with
      | Some (pc', l') => run_alone times' bytes pc' l'
      | None => (pc, l)
      end
  end.
End limiter.

(** A bucket that refills once a second, for concrete inputs: the state is the
    rate, the second of the last request and what was used in it. *)
Definition second_governor : Governor := {|
  InnerLimiter := (N * N * N);
  direct r := (r, 0%N, 0%N);
  check_n t n l :=
    let '(r, s, used) := l in
    let now := (t / 1000000000)%N in
    let used := if decide (now = s) then used else 0%N in
    if (r <? n)%N then ((r, s, used), InsufficientCapacity)
    else if (used + n <=? r)%N then ((r, now, (used + n)%N), Allowed)
    else ((r, s, used), NotUntil (1000000000 - t mod 1000000000));
  rate_of l := l.1.1;
|}.

(** ** Facts *)

Section facts.
#[local] Set Default Proof Using "Type*".
Context {G : Governor} {GS : GovernorSpec G}.
Implicit Types (w : World) (l : TokenBucketRateLimiter).

(** Where a task is that has not passed the pause check. *)
Definition held (pc : point) : Prop :=
  pc = CheckPaused ∨ pc = BeforeNotified ∨ pc = AwaitNotified.

Lemma world_step_held bytes w w' :
  world_step bytes w w' → paused (shared w) = true → held (task w) → held (task w').
Proof.
  intros Hstep Hp Hh. unfold held in *. destruct Hstep as [t l pc pc' l' ps Hs| | | | |]; simpl in *;
    try done.
  - destruct pc; simpl in Hs; try naive_solver.
    unfold is_paused in Hs. rewrite Hp in Hs. naive_solver.
  - destruct Hh as [->|[->| ->]]; simpl; auto.
Qed.

(** A task that calls [wait_for_bytes] on a paused limiter does not get past
    the pause check, whatever other operations run, as long as the limiter stays
    paused. *)
Lemma pause_holds_tasks bytes l ps w :
  rtc (λ w w', world_step bytes w w' ∧ paused (shared w') = true)
    (mkWorld (pause l) CheckPaused ps) w →
  task w = CheckPaused ∨ task w = BeforeNotified ∨ task w = AwaitNotified.
Proof.
  intros Hr. enough (paused (shared w) = true ∧ held (task w)) as [_ H] by exact H.
  refine (rtc_ind_r (λ w, paused (shared w) = true ∧ held (task w)) _ _ _ _ Hr).
  - split; [done|by left].
  - intros w1 w2 _ [Hs Hp] [Hp1 Hh]. split; [done|]. by eapply world_step_held.
Qed.

Lemma stuck_step bytes w w' :
  task w = AwaitNotified → NotifyWaiters ∉ pendings w →
  world_step bytes w w' → task w' = AwaitNotified.
Proof.
  intros Ht Hp Hs. destruct Hs as [t l pc pc' l' ps Hs| | | | |]; simpl in *; try done.
  - by subst pc.
  - set_solver.
Qed.

(** C40. [wait_for_bytes] can miss a wake-up, so that a send of a resumed flow stays blocked:
    when [resume] runs between the pause check and the registration with [notified()], the task
    waits on a limiter that is not paused and has nothing left to notify it; whatever other
    operations run, until another [resume] notifies it stays there. *)
Theorem resume_can_be_missed bytes l :
  ∃ w, rtc (world_step bytes) (mkWorld (pause l) CheckPaused []) w ∧
    paused (shared w) = false ∧ pendings w = [] ∧ task w = AwaitNotified ∧
    ∀ w', rtc (λ a b, world_step bytes a b ∧ NotifyWaiters ∉ pendings b) w w' →
      task w' = AwaitNotified.
Proof.
  exists (mkWorld (resume (pause l)) AwaitNotified []). split_and!; try done.
  - eapply rtc_l; [by apply (step_task bytes 0 _ CheckPaused BeforeNotified)|].
    eapply rtc_l; [apply step_resume|].
    eapply rtc_l; [apply (step_notify bytes _ _ [] [])|].
    apply rtc_once. by apply (step_task bytes 0 _ BeforeNotified AwaitNotified).
  - intros w' Hr.
    enough (task w' = AwaitNotified ∧ NotifyWaiters ∉ pendings w') as [H _] by exact H.
    refine (rtc_ind_r (λ w, task w = AwaitNotified ∧ NotifyWaiters ∉ pendings w) _ _ _ _ Hr).
    + split; [done|]. simpl. set_solver.
    + intros w1 w2 _ [Hs Hp] [Ht Hp1]. split; [|done]. by eapply stuck_step.
Qed.

(** Left alone on a limiter that is not paused, [wait_for_bytes] returns without
    touching the bucket when the rate or the request is zero, returns at once when
    the request exceeds the burst size, and otherwise returns at its first try or
    sleeps for the time governor reports, as governor decides. *)
Lemma wait_for_bytes_alone t1 t2 t3 bytes l :
  paused l = false →
  let '(pc, l') := run_alone [t1; t2; t3] bytes CheckPaused l in
  if decide (max_rate l = 0%N ∨ bytes = 0%N) then pc = Returned ∧ l' = l
  else limiter l' = (check_n t3 bytes (limiter l)).1 ∧ max_rate l' = max_rate l ∧
    ((rate_of (limiter l) < bytes)%N → pc = Returned) ∧
    ((bytes <= rate_of (limiter l))%N →
      pc = Returned ∧ (check_n t3 bytes (limiter l)).2 = Allowed ∨
      ∃ wait, pc = Sleep wait ∧ (check_n t3 bytes (limiter l)).2 = NotUntil wait).
Proof.
  intros Hp. simpl. unfold is_paused, get_rate. rewrite Hp. simpl. unfold get_rate.
  case_decide as Hz; simpl; [done|].
  pose proof (check_capacity t3 bytes (limiter l)) as Hc.
  destruct (check_n t3 bytes (limiter l)) as [inner res]. simpl in *.
  split_and!; try done.
  - intros Hlt. apply Hc in Hlt as ->. done.
  - intros Hle. destruct res as [|wt|]; [by left|right; by exists wt|].
    destruct Hc as [Hc _]. specialize (Hc eq_refl). lia.
Qed.
End facts.

Lemma second_governor_spec : GovernorSpec second_governor.
Proof.
  split; [done| |].
  - intros t n [[r s] used]. simpl. repeat case_match; done.
  - intros t n [[r s] used]. simpl. destruct (N.ltb_spec r n); simpl; [done|].
    case_match; simpl; (split; [done|lia]).
Qed.

Section concrete.
#[local] Existing Instance second_governor.
#[local] Existing Instance second_governor_spec.

Lemma pause_holds_tasks_witness :
  task (mkWorld (pause (new_limiter 1000)) AwaitNotified []) = CheckPaused ∨
  task (mkWorld (pause (new_limiter 1000)) AwaitNotified []) = BeforeNotified ∨
  task (mkWorld (pause (new_limiter 1000)) AwaitNotified []) = AwaitNotified.
Proof.
  apply (pause_holds_tasks 10 (new_limiter 1000) []).
  eapply rtc_l; [split; [apply (step_task 10 0 _ CheckPaused BeforeNotified); reflexivity|reflexivity]|].
  apply rtc_once. split; [apply (step_task 10 0 _ BeforeNotified AwaitNotified); reflexivity|reflexivity].
Defined.

Lemma resume_can_be_missed_witness :
  ∃ w, rtc (world_step 10) (mkWorld (pause (new_limiter 1000)) CheckPaused []) w ∧
    paused (shared w) = false ∧ task w = AwaitNotified.
Proof.
  destruct (resume_can_be_missed 10 (new_limiter 1000)) as (w & H1 & H2 & _ & H3 & _).
  exists w. split; [exact H1|]. split; [exact H2|exact H3].
Defined.

Lemma wait_for_bytes_alone_witness :
  (run_alone [0; 1; 2]%N 2000 CheckPaused (new_limiter 1000)).1 = Returned.
Proof.
  pose proof (wait_for_bytes_alone 0 1 2 2000 (new_limiter 1000) eq_refl) as H.
  destruct (run_alone [0; 1; 2]%N 2000 CheckPaused (new_limiter 1000)) as [pc l'].
  vm_compute in H. apply H. reflexivity.
Defined.
End concrete.
