(* ===== verification/Registry.v ===== *)
(** * The message registry

    [MessageRegistry] of [stric-flow/src/registry.rs].  [Box<dyn Any>] is a value
    paired with the tag of its type ([TypeId]); the application's types are a
    family over the tags. *)
From S2P Require Import Prelude Proto.
From Stdlib Require Import Eqdep_dec.
From stdpp Require Import options.

Section registry.
Context {Tag : Type} `{EqDecision Tag} (type_of : Tag → Type).

Definition Any : Type := { tag : Tag & type_of tag }.

(** [downcast_ref::<T>()]. *)
Definition downcast_ref (tag : Tag) (a : Any) : option (type_of tag) :=
  match decide (projT1 a = tag) with
  | left e => Some (eq_rect _ type_of (projT2 a) _ e)
  | right _ => None
  end.

Abbreviation MessageRegistry := (gmap string (bytes → result Any string)).

Definition new_registry : MessageRegistry := ∅.

Definition register (tag : Tag) (message_type : string)
    (parser : bytes → result (type_of tag) string) (r : MessageRegistry) : MessageRegistry :=
  <[message_type := λ b,
      match parser b with
      | Ok parsed => Ok (existT tag parsed)
      | Err e => Err e
      end]> r.

Definition registry_decode (r : MessageRegistry) (message_type : string) (data : bytes) :
    result Any string :=
  match r !! message_type with
  | Some parser => parser data
  | None => Err ("No parser registered for message type: " +:+ message_type)
  end.

Lemma downcast_same tag (x : type_of tag) : downcast_ref tag (existT tag x) = Some x.
Proof.
  unfold downcast_ref. simpl. destruct (decide (tag = tag)) as [e|]; [|done].
  f_equal. symmetry. apply eq_rect_eq_dec. intros a b. exact (decide (a = b)).
Qed.

(** C37. Decoding uses the parser registered last for the message type: its value
    comes back at its own type and at no other, its error comes back unchanged;
    other message types are unaffected, and an unknown one is an error that names
    it. *)
Theorem registry_decode_spec tag ty parser r data :
  (∀ x, parser data = Ok x → ∃ a, registry_decode (register tag ty parser r) ty data = Ok a ∧
     ∀ tag' y, downcast_ref tag' a = Some y ↔ existT tag x = existT tag' y) ∧
  (∀ e, parser data = Err e → registry_decode (register tag ty parser r) ty data = Err e) ∧
  (∀ ty', ty' ≠ ty →
     registry_decode (register tag ty parser r) ty' data = registry_decode r ty' data) ∧
  registry_decode new_registry ty data =
    Err ("No parser registered for message type: " +:+ ty).
Proof.
  unfold registry_decode, register. split_and!.
  - intros x Hx. rewrite lookup_insert_eq, Hx. eexists. split; [done|].
    intros tag' y. split.
    + unfold downcast_ref. simpl. destruct (decide (tag = tag')) as [e|]; [|done].
      destruct e. simpl. by intros [= <-].
    + intros Heq. rewrite Heq. apply downcast_same.
  - intros e He. by rewrite lookup_insert_eq, He.
  - intros ty' Hne. by rewrite lookup_insert_ne by done.
  - unfold new_registry. by rewrite lookup_empty.
Qed.
End registry.

(** Two application types: [false] is for byte strings, [true] for numbers. *)
Definition sample_types (tag : bool) : Type := if tag then N else bytes.

Lemma registry_decode_spec_witness :
  ∃ a, registry_decode sample_types
         (register sample_types false "raw" (λ b, Ok b) (new_registry sample_types))
         "raw" [Byte.x61] = Ok a ∧
       downcast_ref sample_types false a = Some [Byte.x61] ∧
       downcast_ref sample_types true a = None.
Proof.
  destruct (registry_decode_spec sample_types false "raw" (λ b, Ok b)
    (new_registry sample_types) [Byte.x61]) as (H & _).
  destruct (H [Byte.x61] eq_refl) as (a & H1 & H2). exists a. split; [exact H1|].
  split; [apply H2; reflexivity|].
  vm_compute in H1. injection H1 as <-. reflexivity.
Defined.
