(* ===== verification/Connection.v ===== *)
(** * Connections of a node

    [ConnectionManager] of [stric-core/src/connection.rs], the connection context of
    [connection_wrapper.rs], and the part of [QuicNode] in [stric-core/src/node.rs]
    that registers connections and opens streams on them.  A [quinn::Connection] is
    the parameter [Conn]; what its operations return is an argument. *)
From S2P Require Import Prelude.
From stdpp Require Import options.

Record ConnectionContext := mkContext {
  id : N;
  keep_alive : bool;
  initiator_uni : bool;
  initiator_bi : bool;
  responder_uni : bool;
  responder_bi : bool;
}.

Inductive ConnectionManagerError := IdNotFound (conn_id : N).

Section manager.
Context {Conn Metadata : Type}.

Record ConnectionWrapper := mkWrapper {
  conn : Conn;
  context : ConnectionContext;
  metadata : Metadata;
}.

(** [idle_timeout] is in nanoseconds.  Of the keep-alive pool the manager holds the limit of
    streams per worker it was created with; the pool's own state is [KeepAlive]'s. *)
Record ConnectionManager := mkManager {
  store : gmap N ConnectionWrapper;
  default_conn_context : ConnectionContext;
  keep_alive_limit : N;
  idle_timeout : N;
}.

Definition new_manager (ctx : ConnectionContext) (keep_alive_limit_per_thread : N)
    (timeout : option N) : ConnectionManager :=
  mkManager ∅ ctx keep_alive_limit_per_thread (default 30000000000%N timeout).

Definition with_store (s : gmap N ConnectionWrapper) (m : ConnectionManager) :
    ConnectionManager :=
  mkManager s (default_conn_context m) (keep_alive_limit m) (idle_timeout m).

Definition with_context (c : ConnectionContext) (w : ConnectionWrapper) : ConnectionWrapper :=
  mkWrapper (conn w) c (metadata w).

(** [self.store.get_mut(&id).ok_or(IdNotFound(id))?], then a change of the context. *)
Definition update_context (k : N) (f : ConnectionContext → ConnectionContext)
    (m : ConnectionManager) : ConnectionManager * result () ConnectionManagerError :=
  match store m !! k with
  | Some w => (with_store (<[k := with_context (f (context w)) w]> (store m)) m, Ok ())
  | None => (m, Err (IdNotFound k))
  end.

(** The task [set_keep_alive] spawns: open a stream on the connection and ping it at
    the interval. *)
Inductive KeepAliveTask := SpawnKeepAlive (c : Conn) (interval : N).

Definition set_keep_alive (k : N) (val : bool) (m : ConnectionManager) :
    ConnectionManager * result (list KeepAliveTask) ConnectionManagerError :=
  match store m !! k with
  | Some w =>
      let c := context w in
      (with_store (<[k := with_context (mkContext (id c) val (initiator_uni c) (initiator_bi c)
         (responder_uni c) (responder_bi c)) w]> (store m)) m,
       Ok (if val then [SpawnKeepAlive (conn w) (idle_timeout m / 2)%N] else []))
  | None => (m, Err (IdNotFound k))
  end.

Definition set_initiator_uni (k : N) (val : bool) :=
  update_context k (λ c, mkContext (id c) (keep_alive c) val (initiator_bi c)
    (responder_uni c) (responder_bi c)).

Definition set_initiator_bi (k : N) (val : bool) :=
  update_context k (λ c, mkContext (id c) (keep_alive c) (initiator_uni c) val
    (responder_uni c) (responder_bi c)).

Definition set_responder_uni (k : N) (val : bool) :=
  update_context k (λ c, mkContext (id c) (keep_alive c) (initiator_uni c) (initiator_bi c)
    val (responder_bi c)).

Definition set_responder_bi (k : N) (val : bool) :=
  update_context k (λ c, mkContext (id c) (keep_alive c) (initiator_uni c) (initiator_bi c)
    (responder_uni c) val).

Definition add_connection (w : ConnectionWrapper) (m : ConnectionManager) : ConnectionManager :=
  with_store (<[id (context w) := w]> (store m)) m.

Definition remove_connection (k : N) (m : ConnectionManager) :
    ConnectionManager * option ConnectionWrapper :=
  (with_store (delete k (store m)) m, store m !! k).

(** ** Registering a connection *)

(** [setup_connection], with the handler's run as a function: it may change the
    wrapper and may fail.  Returns the tasks spawned and the errors reported. *)
Definition setup_connection {E} (connection : Conn) (stable_id : N) (dflt : Metadata)
    (handler : option (ConnectionWrapper → ConnectionWrapper * result () E))
    (m : ConnectionManager) : ConnectionManager * list KeepAliveTask * list E :=
  let d := default_conn_context m in
  let ctx := mkContext stable_id (keep_alive d) (initiator_uni d) (initiator_bi d)
    (responder_uni d) (responder_bi d) in
  let wrapper := mkWrapper connection ctx dflt in
  let run := match handler with
             | Some func => func wrapper
             | None => (wrapper, Ok ())
             end in
  match run with
  | (wrapper, Err e) => (m, [], [e])
  | (wrapper, Ok _) =>
      let alive := keep_alive (context wrapper) in
      let m := add_connection wrapper m in
      if alive then
        match set_keep_alive stable_id true m with
        | (m, Ok tasks) => (m, tasks, [])
        | (m, Err _) => (m, [], [])
        end
      else (m, [], [])
  end.

(** ** Opening streams *)

Inductive NodeStreamError (E : Type) :=
| StreamManager (e : ConnectionManagerError)
| StreamOpen (e : E).

(** [get_unistream], [get_bistream]: [open] is what quinn returns. *)
Definition get_stream {A E} (open : Conn → result A E) (k : N) (m : ConnectionManager) :
    result A (NodeStreamError E) :=
  match store m !! k with
  | Some w => match open (conn w) with
              | Ok s => Ok s
              | Err e => Err (StreamOpen E e)
              end
  | None => Err (StreamManager E (IdNotFound k))
  end.

(** ** The invariant: a connection is stored under its own identifier *)

Definition store_wf (m : ConnectionManager) : Prop :=
  ∀ k w, store m !! k = Some w → id (context w) = k.

Lemma update_context_wf k f m :
  (∀ c, id (f c) = id c) → store_wf m → store_wf (update_context k f m).1.
Proof.
  intros Hf Hm. unfold update_context. destruct (store m !! k) as [w|] eqn:E; [|done].
  intros k' w'. simpl. rewrite lookup_insert. case_decide; [|apply Hm].
  intros [= <-]. subst k'. simpl. rewrite Hf. by apply Hm.
Qed.

Lemma add_connection_wf w m : store_wf m → store_wf (add_connection w m).
Proof.
  intros Hm k' w'. simpl. rewrite lookup_insert. case_decide; [naive_solver|apply Hm].
Qed.

#[local] Hint Resolve add_connection_wf : stric.

Lemma set_keep_alive_wf k val m : store_wf m → store_wf (set_keep_alive k val m).1.
Proof.
  intros Hm. unfold set_keep_alive. destruct (store m !! k) as [w|] eqn:E; [|done].
  intros k' w'. simpl. rewrite lookup_insert. case_decide; [|apply Hm].
  intros [= <-]. subst k'. simpl. by apply Hm.
Qed.

#[local] Hint Resolve set_keep_alive_wf update_context_wf : stric.

(** The setters of the connection manager change one flag of one connection: on an
    unknown identifier they fail and change nothing, on a known one the flag is
    set, the other flags, the connection, the metadata and every other connection
    stay, and connections stay stored under their own identifiers. *)
Lemma context_setters_frame k val m :
  store_wf m →
  Forall (λ op : (ConnectionManager → ConnectionManager * result () ConnectionManagerError) *
                 (ConnectionContext → bool),
    let '(set, flag) := op in
    (store m !! k = None → set m = (m, Err (IdNotFound k))) ∧
    ∀ w, store m !! k = Some w →
      ∃ m' w', set m = (m', Ok ()) ∧ store_wf m' ∧ store m' = <[k := w']> (store m) ∧
        conn w' = conn w ∧ metadata w' = metadata w ∧ flag (context w') = val ∧
        keep_alive (context w') = keep_alive (context w))
    [(set_initiator_uni k val, initiator_uni); (set_initiator_bi k val, initiator_bi);
     (set_responder_uni k val, responder_uni); (set_responder_bi k val, responder_bi)].
Proof.
  intros Hm.
  assert (∀ f (flag : ConnectionContext → bool), (∀ c, id (f c) = id c) →
    (∀ c, flag (f c) = val) → (∀ c, keep_alive (f c) = keep_alive c) →
    (store m !! k = None → update_context k f m = (m, Err (IdNotFound k))) ∧
    ∀ w, store m !! k = Some w →
      ∃ m' w', update_context k f m = (m', Ok ()) ∧ store_wf m' ∧ store m' = <[k := w']> (store m) ∧
        conn w' = conn w ∧ metadata w' = metadata w ∧ flag (context w') = val ∧
        keep_alive (context w') = keep_alive (context w)) as Hgen.
  { intros f flag Hid Hflag Hka. pose proof (update_context_wf k f m Hid Hm) as Hwf.
    unfold update_context in *. destruct (store m !! k) as [w|]; (split; [done|]);
      [|done]. intros w' [= <-]. eexists _, _. split; [done|]. split; [done|].
    split; [done|]. simpl. auto. }
  do 4 (constructor; [by apply Hgen|]). constructor.
Qed.

(** A connection is registered exactly when its handler succeeds (or there is
    none): it is then stored under its stable identifier with the handler's
    changes, and a keep-alive task at half the idle timeout is started when its
    flag asks for one; when the handler fails nothing is registered and the error is
    reported. *)
Lemma setup_connection_registers {E} connection k dflt
    (handler : option (ConnectionWrapper → ConnectionWrapper * result () E)) m :
  store_wf m →
  (∀ f w, handler = Some f → id (context (f w).1) = id (context w)) →
  let '(m', tasks, errors) := setup_connection connection k dflt handler m in
  store_wf m' ∧
  ((∃ w, store m' = <[k := w]> (store m) ∧ id (context w) = k ∧ errors = [] ∧
      tasks = (if keep_alive (context w) then [SpawnKeepAlive (conn w) (idle_timeout m / 2)%N] else [])) ∨
   (∃ e, m' = m ∧ tasks = [] ∧ errors = [e] ∧ handler ≠ None)).
Proof.
  intros Hm Hid. unfold setup_connection.
  set (w0 := mkWrapper connection _ dflt).
  set (run := match handler with Some func => func w0 | None => (w0, Ok ()) end).
  assert (id (context run.1) = k) as Hk.
  { unfold run. destruct handler as [f|]; [|done]. by rewrite (Hid f w0 eq_refl). }
  destruct run as [w [u|e]] eqn:Er; simpl in Hk.
  - destruct (keep_alive (context w)) eqn:Hka.
    + assert (store_wf (set_keep_alive k true (add_connection w m)).1) as Hwf by eauto with stric.
      unfold set_keep_alive in *. simpl in *. rewrite Hk, lookup_insert_eq in *.
      split; [done|]. left. eexists. split; [simpl; by rewrite insert_insert_eq|]. by simpl.
    + split; [eauto with stric|]. left. exists w. simpl. rewrite Hk, Hka. done.
  - split; [done|]. right. exists e. split_and!; try done.
    unfold run in Er. by destruct handler.
Qed.
End manager.

#[export] Hint Resolve update_context_wf add_connection_wf set_keep_alive_wf : stric.

(** A handler that accepts the connection and marks it to be kept alive. *)
Lemma setup_connection_registers_witness :
  let ctx := mkContext 0 false true true true true in
  let keep (w : ConnectionWrapper (Conn := nat) (Metadata := nat)) :=
    (with_context (mkContext (id (context w)) true true true true true) w, Ok (E := string) ()) in
  let '(m', tasks, errors) := setup_connection 5 9 0 (Some keep) (new_manager ctx 10 None) in
  store_wf m' ∧ is_Some (store m' !! 9%N) ∧ tasks = [SpawnKeepAlive 5 15000000000] ∧ errors = [].
Proof.
  intros ctx keep.
  pose proof (setup_connection_registers 5 9 0 (Some keep) (new_manager ctx 10 None)) as H.
  destruct (setup_connection 5 9 0 (Some keep) (new_manager ctx 10 None)) as [[m' tasks] errors] eqn:E.
  destruct H as [Hwf _].
  - intros k w Hk. simpl in Hk. rewrite lookup_empty in Hk. discriminate.
  - intros f w [= <-]. reflexivity.
  - split; [exact Hwf|]. vm_compute in E. injection E as <- <- <-.
    split; [eexists; reflexivity|]. split; reflexivity.
Defined.
