(* ===== verification/Quic.v ===== *)
(** * The QUIC node

    [QuicNode] of [stric-core/src/node.rs] with [NodeConfig] of [node_config.rs] and
    [ConnectionHandlerFn] of [handler_types.rs]: how a node is configured, and how it
    accepts, dials, registers and reports.

    quinn and rustls are the class [Quinn]: the types they export and the calls [new]
    makes, with what the calls promise in [QuinnSpec].  The running node is a state with
    its spawned tasks; an event is a stretch of one task between two awaits, so runs
    cover every interleaving. *)
From S2P Require Import Prelude Proto Reconciliation Connection Stream.
From stdpp Require Import options.

(** ** quinn and rustls *)

Class TlsTypes := {
  CertificateDer : Type;
  PrivateKeyDer : Type;
  RootCertStore : Type;
  ServerName : Type;
  UnixTime : Type;
  DigitallySignedStruct : Type;
  TlsError : Type;
}.

Class QuinnTypes `{TT : TlsTypes} := {
  SocketAddr : Type;
  RustlsServerConfig : Type;
  RustlsClientConfig : Type;
  QuicServerConfig : Type;
  QuicClientConfig : Type;
  ServerConfig : Type;
  ClientConfig : Type;
  TransportConfig : Type;
  IdleTimeout : Type;
  Endpoint : Type;
  Error : Type;
}.

Inductive SignatureScheme :=
| RSA_PSS_SHA256 | RSA_PSS_SHA384 | RSA_PSS_SHA512 | ED25519
| ECDSA_NISTP256_SHA256 | ECDSA_NISTP384_SHA384 | ECDSA_NISTP521_SHA512
| RSA_PKCS1_SHA256 | RSA_PKCS1_SHA384 | RSA_PKCS1_SHA512.

(** The trait [ServerCertVerifier]. *)
Record ServerCertVerifier `{TlsTypes} := mkVerifier {
  verify_server_cert : CertificateDer → list CertificateDer → ServerName → bytes → UnixTime →
    result () TlsError;
  verify_tls12_signature : bytes → CertificateDer → DigitallySignedStruct → result () TlsError;
  verify_tls13_signature : bytes → CertificateDer → DigitallySignedStruct → result () TlsError;
  supported_verify_schemes : list SignatureScheme;
}.

Class Quinn `{QT : QuinnTypes} := {
  (** Whether a process-wide crypto provider is installed. *)
  crypto_provider : bool;
  with_single_cert : list CertificateDer → PrivateKeyDer → result RustlsServerConfig Error;
  set_server_alpn : list bytes → RustlsServerConfig → RustlsServerConfig;
  quic_server_config : RustlsServerConfig → result QuicServerConfig Error;
  server_with_crypto : QuicServerConfig → ServerConfig;
  server_transport : TransportConfig → ServerConfig → ServerConfig;
  root_store_empty : RootCertStore;
  with_custom_certificate_verifier : ServerCertVerifier → RustlsClientConfig;
  with_root_certificates : RootCertStore → RustlsClientConfig;
  set_client_alpn : list bytes → RustlsClientConfig → RustlsClientConfig;
  quic_client_config : RustlsClientConfig → result QuicClientConfig Error;
  client_new : QuicClientConfig → ClientConfig;
  client_transport : TransportConfig → ClientConfig → ClientConfig;
  transport_default : TransportConfig;
  idle_timeout_try_from : Duration → result IdleTimeout Error;
  max_idle_timeout : option IdleTimeout → TransportConfig → TransportConfig;
  endpoint_server : ServerConfig → SocketAddr → result Endpoint Error;
  endpoint_client : SocketAddr → result Endpoint Error;
  set_default_client_config : ClientConfig → Endpoint → Endpoint;
  endpoint_local_addr : Endpoint → result SocketAddr Error;
}.

(** Whom a client trusts. *)
Inductive Trust `{TlsTypes} :=
| TrustVerifier (v : ServerCertVerifier)
| TrustRoots (roots : RootCertStore).

(** What the built values hold. *)
Class QuinnSpec `(Q : Quinn) := {
  server_identity : ServerConfig → list CertificateDer * PrivateKeyDer;
  server_alpn : ServerConfig → list bytes;
  server_idle : ServerConfig → option IdleTimeout;
  client_trust : ClientConfig → Trust;
  client_alpn : ClientConfig → list bytes;
  client_idle : ClientConfig → option IdleTimeout;
  default_idle : option IdleTimeout;
  accepts_with : Endpoint → option ServerConfig;
  dials_with : Endpoint → option ClientConfig;
  bound_to : Endpoint → SocketAddr;
  server_built certs key alpn tls crypto :
    with_single_cert certs key = Ok tls → quic_server_config (set_server_alpn alpn tls) = Ok crypto →
    let sc := server_with_crypto crypto in
    server_identity sc = (certs, key) ∧ server_alpn sc = alpn ∧ server_idle sc = default_idle;
  server_transport_idle t sc :
    let sc' := server_transport (max_idle_timeout t transport_default) sc in
    server_identity sc' = server_identity sc ∧ server_alpn sc' = server_alpn sc ∧
    server_idle sc' = t;
  client_built_verifier v alpn crypto :
    quic_client_config (set_client_alpn alpn (with_custom_certificate_verifier v)) = Ok crypto →
    let cc := client_new crypto in
    client_trust cc = TrustVerifier v ∧ client_alpn cc = alpn ∧ client_idle cc = default_idle;
  client_built_roots r alpn crypto :
    quic_client_config (set_client_alpn alpn (with_root_certificates r)) = Ok crypto →
    let cc := client_new crypto in
    client_trust cc = TrustRoots r ∧ client_alpn cc = alpn ∧ client_idle cc = default_idle;
  client_transport_idle t cc :
    let cc' := client_transport (max_idle_timeout t transport_default) cc in
    client_trust cc' = client_trust cc ∧ client_alpn cc' = client_alpn cc ∧ client_idle cc' = t;
  endpoint_server_ok sc addr ep :
    endpoint_server sc addr = Ok ep → accepts_with ep = Some sc ∧ bound_to ep = addr;
  endpoint_client_ok addr ep :
    endpoint_client addr = Ok ep → accepts_with ep = None ∧ bound_to ep = addr;
  set_default_client_config_ok cc ep :
    let ep' := set_default_client_config cc ep in
    dials_with ep' = Some cc ∧ accepts_with ep' = accepts_with ep ∧ bound_to ep' = bound_to ep;
}.

(** ** Configuration *)

Record NodeConfig `{QuinnTypes} := mkNodeConfig {
  certs : option (list CertificateDer);
  key : option PrivateKeyDer;
  socket_addr : SocketAddr;
  alpn_protocol_names : list bytes;
  error_channel_len : N;
  config_conn_context : ConnectionContext;
  keep_alive_limit_per_thread : N;
  config_idle_timeout : option Duration;
  root_cert_store : option RootCertStore;
  danger_accept_invalid_certs : bool;
}.

(** A bounded channel of tokio with its receiver alive or dropped. *)
Record ErrorChannel (E : Type) := mkChannel {
  capacity : N;
  queue : list E;
  receiver_alive : bool;
}.
Arguments mkChannel {E} _ _ _.
Arguments capacity {E} _.
Arguments queue {E} _.
Arguments receiver_alive {E} _.

(** [Semaphore::MAX_PERMITS], the largest capacity of a channel. *)
Definition max_permits : N := 2305843009213693951.

(** [mpsc::channel] panics on a capacity of zero or above the limit. *)
Definition channel {E} (n : N) : outcome (ErrorChannel E) :=
  if (0 <? n)%N && (n <=? max_permits)%N then Ret (mkChannel n [] true) else Panic.

(** [try_send]: fails when the channel is full or the receiver dropped. *)
Definition try_send {E} (e : E) (ch : ErrorChannel E) : ErrorChannel E * bool :=
  if receiver_alive ch && (N.of_nat (length (queue ch)) <? capacity ch)%N
  then (mkChannel (capacity ch) (queue ch ++ [e]) true, true)
  else (ch, false).

(** [r?] in a function that may also panic. *)
Definition and_then {A B E} (r : result A E) (f : A → outcome (result B E)) :
    outcome (result B E) :=
  match r with
  | Ok a => f a
  | Err e => Ret (Err e)
  end.

Notation "x ←? r ; k" := (and_then r (λ x, k))
  (at level 20, r at level 100, k at level 200, right associativity).

Lemma and_then_Ok {A B E} (r : result A E) (f : A → outcome (result B E)) b :
  and_then r f = Ret (Ok b) ↔ ∃ a, r = Ok a ∧ f a = Ret (Ok b).
Proof. destruct r; simpl; naive_solver. Qed.

Section node.
Context `{Q : Quinn} {Conn Metadata : Type}.

Abbreviation ConnectionWrapper := (ConnectionWrapper (Conn := Conn) (Metadata := Metadata)).
Abbreviation ConnectionManager := (ConnectionManager (Conn := Conn) (Metadata := Metadata)).

Definition DangerNoCertificateVerification : ServerCertVerifier :=
  mkVerifier _ (λ _ _ _ _ _, Ok ()) (λ _ _ _, Ok ()) (λ _ _ _, Ok ())
    [RSA_PSS_SHA256; RSA_PSS_SHA384; RSA_PSS_SHA512; ED25519; ECDSA_NISTP256_SHA256;
     ECDSA_NISTP384_SHA384; ECDSA_NISTP521_SHA512; RSA_PKCS1_SHA256; RSA_PKCS1_SHA384;
     RSA_PKCS1_SHA512].

(** The handler of a connection: its run changes the wrapper and may fail. *)
Definition ConnectionHandlerFn : Type := ConnectionWrapper → ConnectionWrapper * result () Error.

Record QuicNode := mkNode {
  endpoint : Endpoint;
  conn_manager : ConnectionManager;
  inbound_handler : option ConnectionHandlerFn;
  outbound_handler : option ConnectionHandlerFn;
  error_tx : ErrorChannel Error;
}.

(** [if let Some(timeout) = config.idle_timeout], for the server's and the client's
    configuration. *)
Definition with_idle {C} (set : TransportConfig → C → C) (timeout : option Duration) (c : C) :
    result C Error :=
  match timeout with
  | Some t =>
      match idle_timeout_try_from t with
      | Ok it => Ok (set (max_idle_timeout (Some it) transport_default) c)
      | Err e => Err e
      end
  | None => Ok c
  end.

(** [builder()] of rustls panics without a crypto provider. *)
Definition builder : outcome () := if crypto_provider then Ret () else Panic.

(** The responder's configuration. *)
Definition quinn_server_config (config : NodeConfig) : outcome (result (option ServerConfig) Error) :=
  match certs config, key config with
  | Some certs, Some key =>
      _ ← builder;
      server_config ←? with_single_cert certs key;
      crypto ←? quic_server_config (set_server_alpn (alpn_protocol_names config) server_config);
      quinn_config ←? with_idle server_transport (config_idle_timeout config)
        (server_with_crypto crypto);
      Ret (Ok (Some quinn_config))
  | _, _ => Ret (Ok None)
  end.

(** The initiator's configuration. *)
Definition quinn_client_config (config : NodeConfig) : outcome (result ClientConfig Error) :=
  _ ← builder;
  let client_config :=
    if danger_accept_invalid_certs config
    then with_custom_certificate_verifier DangerNoCertificateVerification
    else with_root_certificates (default root_store_empty (root_cert_store config)) in
  crypto ←? quic_client_config (set_client_alpn (alpn_protocol_names config) client_config);
  cc ←? with_idle client_transport (config_idle_timeout config) (client_new crypto);
  Ret (Ok cc).

(** [QuicNode::new]; the receiver is the other end of [error_tx]. *)
Definition new (config : NodeConfig) : outcome (result QuicNode Error) :=
  server ← quinn_server_config config;
  server_config ←? server;
  client ← quinn_client_config config;
  client_config ←? client;
  ep ←? match server_config with
        | Some sc => endpoint_server sc (socket_addr config)
        | None => endpoint_client (socket_addr config)
        end;
  ch ← channel (error_channel_len config);
  Ret (Ok (mkNode (set_default_client_config client_config ep)
    (new_manager (config_conn_context config) (keep_alive_limit_per_thread config)
       (config_idle_timeout config)) None None ch)).

(** ** The running node *)

(** [handle_incoming] before its handshake, and [setup_connection] before its handler
    returns; each holds the handler registered when it was spawned. *)
Inductive NodeTask :=
| Incoming (handler : option ConnectionHandlerFn)
| Setup (connection : Conn) (stable_id : N) (handler : option ConnectionHandlerFn).

Record NodeState := mkState {
  node : QuicNode;
  tasks : list NodeTask;
}.

Definition with_manager (m : ConnectionManager) (n : QuicNode) : QuicNode :=
  mkNode (endpoint n) m (inbound_handler n) (outbound_handler n) (error_tx n).
Definition with_channel (c : ErrorChannel Error) (n : QuicNode) : QuicNode :=
  mkNode (endpoint n) (conn_manager n) (inbound_handler n) (outbound_handler n) c.

Definition on_inbound (h : ConnectionHandlerFn) (n : QuicNode) : QuicNode :=
  mkNode (endpoint n) (conn_manager n) (Some h) (outbound_handler n) (error_tx n).
Definition on_outbound (h : ConnectionHandlerFn) (n : QuicNode) : QuicNode :=
  mkNode (endpoint n) (conn_manager n) (inbound_handler n) (Some h) (error_tx n).

(** What an observer of the node sees: a registered connection with the keep-alive task it
    starts, a failure and whether it was reported, a removal, an error taken from the
    channel, the receiver dropped, what [connect] returns. *)
Inductive LogEntry :=
| Registered (w : ConnectionWrapper) (alive : list (KeepAliveTask (Conn := Conn)))
| Failed (e : Error) (reported : bool)
| Removed (k : N)
| Received (e : Error)
| ReceiverDropped
| ConnectReturned (r : result N Error).

(** [let _ = error_tx.try_send(e)]. *)
Definition report (e : Error) (n : QuicNode) : QuicNode * LogEntry :=
  let '(ch, sent) := try_send e (error_tx n) in (with_channel ch n, Failed e sent).

(** One iteration of [listen]: [accept] has yielded an attempt. *)
Definition listen_accept (st : NodeState) : NodeState :=
  mkState (node st) (tasks st ++ [Incoming (inbound_handler (node st))]).

(** The rest of [handle_incoming]: [r] is what awaiting the attempt returns. *)
Definition handle_incoming (r : result (Conn * N) Error) (i : nat)
    (handler : option ConnectionHandlerFn) (st : NodeState) : NodeState * list LogEntry :=
  match r with
  | Ok (connection, stable_id) =>
      (mkState (node st) (<[i := Setup connection stable_id handler]> (tasks st)), [])
  | Err e =>
      let '(n, entry) := report e (node st) in (mkState n (delete i (tasks st)), [entry])
  end.

(** [connect], [r] being what dialling returns. *)
Definition connect (r : result (Conn * N) Error) (st : NodeState) : NodeState * list LogEntry :=
  match r with
  | Ok (connection, stable_id) =>
      (mkState (node st) (tasks st ++ [Setup connection stable_id (outbound_handler (node st))]),
       [ConnectReturned (Ok stable_id)])
  | Err e => (st, [ConnectReturned (Err e)])
  end.

Context (dflt : Metadata).

(** The wrapper [setup_connection] registers, or the error of its handler. *)
Definition handled (connection : Conn) (k : N) (handler : option ConnectionHandlerFn)
    (m : ConnectionManager) : ConnectionWrapper * result () Error :=
  let d := default_conn_context m in
  let w := mkWrapper connection (mkContext k (keep_alive d) (initiator_uni d) (initiator_bi d)
    (responder_uni d) (responder_bi d)) dflt in
  match handler with Some func => func w | None => (w, Ok ()) end.

(** The end of [setup_connection]: its handler has returned. *)
Definition finish_setup (connection : Conn) (k : N) (handler : option ConnectionHandlerFn)
    (i : nat) (st : NodeState) : NodeState * list LogEntry :=
  let '(m, spawned, errors) :=
    setup_connection connection k dflt handler (conn_manager (node st)) in
  let n := with_manager m (node st) in
  match errors with
  | [] =>
      (mkState n (delete i (tasks st)),
       [Registered (handled connection k handler (conn_manager (node st))).1 spawned])
  | e :: _ => let '(n, entry) := report e n in (mkState n (delete i (tasks st)), [entry])
  end.

Inductive NodeEvent :=
| Accept
| HandshakeDone (i : nat) (r : result (Conn * N) Error)
| Dialled (r : result (Conn * N) Error)
| HandlerDone (i : nat)
| RemoveConnection (k : N)
| RecvError
| DropReceiver.

(** An event on a running node; [None] when it cannot happen there. *)
Definition node_step (ev : NodeEvent) (st : NodeState) : option (NodeState * list LogEntry) :=
  match ev with
  | Accept => Some (listen_accept st, [])
  | HandshakeDone i r =>
      match tasks st !! i with
      | Some (Incoming h) => Some (handle_incoming r i h st)
      | _ => None
      end
  | Dialled r => Some (connect r st)
  | HandlerDone i =>
      match tasks st !! i with
      | Some (Setup c k h) => Some (finish_setup c k h i st)
      | _ => None
      end
  | RemoveConnection k =>
      Some (mkState (with_manager (remove_connection k (conn_manager (node st))).1 (node st))
              (tasks st), [Removed k])
  | RecvError =>
      let ch := error_tx (node st) in
      match queue ch with
      | e :: rest =>
          if receiver_alive ch
          then Some (mkState (with_channel (mkChannel (capacity ch) rest true) (node st)) (tasks st),
                     [Received e])
          else None
      | [] => None
      end
  | DropReceiver =>
      let ch := error_tx (node st) in
      Some (mkState (with_channel (mkChannel (capacity ch) [] false) (node st)) (tasks st),
            [ReceiverDropped])
  end.

Inductive node_run : NodeState → list NodeEvent → list LogEntry → NodeState → Prop :=
| run_nil st : node_run st [] [] st
| run_snoc st0 evs log st ev st' entries :
    node_run st0 evs log st →
    node_step ev st = Some (st', entries) →
    node_run st0 (evs ++ [ev]) (log ++ entries) st'.

(** ** Streams on registered connections *)

Section open_streams.
Context {SendStream RecvStream OpenError : Type}.

(** [get_unistream] and [get_bistream]; [open_uni] and [open_bi] are what quinn returns. *)
Definition get_unistream (open_uni : Conn → result SendStream OpenError) (k : N) (n : QuicNode) :
    result (SendUniStream SendStream) (NodeStreamError OpenError) :=
  match get_stream open_uni k (conn_manager n) with
  | Ok s => Ok (mkSendUni s)
  | Err e => Err e
  end.

Definition get_bistream (open_bi : Conn → result (SendStream * RecvStream) OpenError) (k : N)
    (n : QuicNode) : result (BiStream SendStream RecvStream) (NodeStreamError OpenError) :=
  match get_stream open_bi k (conn_manager n) with
  | Ok (s, r) => Ok (new_bistream true s r)
  | Err e => Err e
  end.
End open_streams.

Definition local_addr (n : QuicNode) : result SocketAddr Error := endpoint_local_addr (endpoint n).
Definition connection_manager (n : QuicNode) : ConnectionManager := conn_manager n.
End node.

Arguments NodeConfig {_ _}.
Arguments QuicNode {_ _} _ _.
Arguments NodeState {_ _} _ _.
Arguments NodeTask {_ _} _ _.
Arguments LogEntry {_ _} _ _.
Arguments NodeEvent {_ _} _.
Arguments ConnectionHandlerFn {_ _} _ _.
