(* ===== verification/QuicFacts.v ===== *)
(** * Facts about the QUIC node

    What [QuicNode::new] configures, and the accounting of a running node: every
    connection attempt ends registered, reported or dropped with its error, in every
    interleaving of the node's tasks. *)
From S2P Require Import Prelude Proto Reconciliation Connection Stream Frame Quic.
From stdpp Require Import options.

(** ** Configuration *)

Section configuration.
Context `{Q : Quinn} {Conn Metadata : Type}.
Abbreviation QuicNode := (QuicNode Conn Metadata).

Section spec.
Context {QS : QuinnSpec Q}.
#[local] Set Default Proof Using "Type*".

Definition idle_set (timeout : option Duration) (it : option IdleTimeout) : Prop :=
  match timeout with
  | Some t => ∃ i, idle_timeout_try_from t = Ok i ∧ it = Some i
  | None => it = default_idle
  end.

Lemma quinn_server_config_ok config sc :
  quinn_server_config config = Ret (Ok sc) →
  match sc with
  | Some sc =>
      ∃ cs k, certs config = Some cs ∧ key config = Some k ∧ server_identity sc = (cs, k) ∧
        server_alpn sc = alpn_protocol_names config ∧
        idle_set (config_idle_timeout config) (server_idle sc)
  | None => certs config = None ∨ key config = None
  end.
Proof.
  unfold quinn_server_config.
  destruct (certs config) as [cs|]; [|intros H; inv_ret H; by left].
  destruct (key config) as [k|]; [|intros H; inv_ret H; by right].
  intros (_ & _ & (tls & Htls & (crypto & Hc & (c & Hi & H)%and_then_Ok)%and_then_Ok)%and_then_Ok)%bind_Ret.
  inv_ret H. exists cs, k. destruct (server_built _ _ _ _ _ Htls Hc) as (H1 & H2 & H3).
  unfold with_idle in Hi. unfold idle_set. destruct (config_idle_timeout config) as [t|].
  - destruct (idle_timeout_try_from t) as [it|] eqn:Et; [|done]. injection Hi as <-.
    destruct (server_transport_idle (Some it) (server_with_crypto crypto)) as (-> & -> & ->).
    eauto 10.
  - injection Hi as <-. eauto 10.
Qed.

Lemma quinn_client_config_ok config cc :
  quinn_client_config config = Ret (Ok cc) →
  client_trust cc =
    (if danger_accept_invalid_certs config then TrustVerifier DangerNoCertificateVerification
     else TrustRoots (default root_store_empty (root_cert_store config))) ∧
  client_alpn cc = alpn_protocol_names config ∧
  idle_set (config_idle_timeout config) (client_idle cc).
Proof.
  unfold quinn_client_config.
  intros (_ & _ & (crypto & Hc & (c & Hi & H)%and_then_Ok)%and_then_Ok)%bind_Ret.
  inv_ret H.
  assert (client_trust (client_new crypto) =
    (if danger_accept_invalid_certs config then TrustVerifier DangerNoCertificateVerification
     else TrustRoots (default root_store_empty (root_cert_store config))) ∧
    client_alpn (client_new crypto) = alpn_protocol_names config ∧
    client_idle (client_new crypto) = default_idle) as (<- & <- & Hd).
  { destruct (danger_accept_invalid_certs config);
      [by apply client_built_verifier|by apply client_built_roots]. }
  unfold with_idle in Hi. unfold idle_set. destruct (config_idle_timeout config) as [t|].
  - destruct (idle_timeout_try_from t) as [it|] eqn:Et; [|done]. injection Hi as <-.
    destruct (client_transport_idle (Some it) (client_new crypto)) as (-> & -> & ->). eauto.
  - injection Hi as <-. eauto.
Qed.

Lemma node_configured config (n : QuicNode) :
  new config = Ret (Ok n) →
  let ep := endpoint n in
  bound_to ep = socket_addr config ∧
  (is_Some (accepts_with ep) ↔ is_Some (certs config) ∧ is_Some (key config)) ∧
  (∀ sc, accepts_with ep = Some sc →
     certs config = Some (server_identity sc).1 ∧ key config = Some (server_identity sc).2 ∧
     server_alpn sc = alpn_protocol_names config ∧
     idle_set (config_idle_timeout config) (server_idle sc)) ∧
  (∃ cc, dials_with ep = Some cc ∧
     client_trust cc =
       (if danger_accept_invalid_certs config then TrustVerifier DangerNoCertificateVerification
        else TrustRoots (default root_store_empty (root_cert_store config))) ∧
     client_alpn cc = alpn_protocol_names config ∧
     idle_set (config_idle_timeout config) (client_idle cc)) ∧
  store (conn_manager n) = ∅ ∧ inbound_handler n = None ∧ outbound_handler n = None ∧
  error_tx n = mkChannel (error_channel_len config) [] true ∧ (0 < error_channel_len config)%N ∧
  keep_alive_limit (conn_manager n) = keep_alive_limit_per_thread config ∧
  idle_timeout (conn_manager n) = default 30000000000%N (config_idle_timeout config).
Proof.
  unfold new. intros (s & Hs & (sc & -> & (c & Hc & (cc & -> & H)%and_then_Ok)%bind_Ret)%and_then_Ok)%bind_Ret.
  apply and_then_Ok in H as (ep & Hep & (ch & Hch & H)%bind_Ret). inv_ret H. simpl.
  destruct (set_default_client_config_ok cc ep) as (-> & -> & ->).
  apply quinn_client_config_ok in Hc. apply quinn_server_config_ok in Hs.
  unfold channel in Hch. destruct (_ && _) eqn:Ech in Hch; [|done]. injection Hch as <-.
  apply andb_prop in Ech as [Ech _]. apply N.ltb_lt in Ech.
  destruct sc as [sc|].
  - destruct Hs as (cs & k & -> & -> & Hid & Halpn & Hidle).
    destruct (endpoint_server_ok _ _ _ Hep) as [-> ->].
    split_and!; try done; [|by eauto].
    intros sc' [= <-]. rewrite Hid. auto.
  - destruct (endpoint_client_ok _ _ Hep) as [-> ->].
    split_and!; try done; [|by eauto].
    split; [by intros [? ?]|]. destruct Hs as [-> | ->]; [by intros [[? ?] ?]|by intros [? [? ?]]].
Qed.

(** C29. A node built by [QuicNode::new] accepts connections exactly when it was given both
    certificates and a key, and presents those; it skips the verification of a server's
    certificate exactly when the danger flag is set and otherwise trusts the given roots
    (none when no store is given); both directions offer the configured protocols and use
    the configured idle timeout; it starts bound to its address, without handlers or
    connections, with an empty error channel of the configured positive length, and with the
    configured keep-alive limit and idle timeout (30 seconds by default). *)
Theorem new_node_configured config (n : QuicNode) :
  new config = Ret (Ok n) →
  let ep := endpoint n in
  bound_to ep = socket_addr config ∧
  (is_Some (accepts_with ep) ↔ is_Some (certs config) ∧ is_Some (key config)) ∧
  (∀ sc, accepts_with ep = Some sc →
     certs config = Some (server_identity sc).1 ∧ key config = Some (server_identity sc).2 ∧
     server_alpn sc = alpn_protocol_names config ∧
     idle_set (config_idle_timeout config) (server_idle sc)) ∧
  (∃ cc, dials_with ep = Some cc ∧
     client_trust cc =
       (if danger_accept_invalid_certs config then TrustVerifier DangerNoCertificateVerification
        else TrustRoots (default root_store_empty (root_cert_store config))) ∧
     client_alpn cc = alpn_protocol_names config ∧
     idle_set (config_idle_timeout config) (client_idle cc)) ∧
  store (conn_manager n) = ∅ ∧ inbound_handler n = None ∧ outbound_handler n = None ∧
  error_tx n = mkChannel (error_channel_len config) [] true ∧ (0 < error_channel_len config)%N ∧
  keep_alive_limit (conn_manager n) = keep_alive_limit_per_thread config ∧
  idle_timeout (conn_manager n) = default 30000000000%N (config_idle_timeout config).
Proof. apply node_configured. Qed.
End spec.

(** Building a node panics only when no crypto provider is installed or the length of the
    error channel is not one tokio accepts. *)
Lemma new_panics config :
  new (Conn := Conn) (Metadata := Metadata) config = Panic →
  crypto_provider = false ∨
  (error_channel_len config = 0 ∨ max_permits < error_channel_len config)%N.
Proof.
  unfold new, quinn_server_config, quinn_client_config, channel, builder.
  destruct crypto_provider; [|by left]. intros H. right. revert H.
  destruct (0 <? error_channel_len config)%N eqn:E1; [|apply N.ltb_ge in E1; lia].
  destruct (error_channel_len config <=? max_permits)%N eqn:E2; [|apply N.leb_gt in E2; lia].
  unfold and_then. simpl. intros H.
  repeat (case_match; simplify_eq/=).
Qed.
End configuration.

(** ** The running node *)

Section running.
Context `{Q : Quinn} {Conn Metadata : Type} (dflt : Metadata).
Abbreviation QuicNode := (QuicNode Conn Metadata).
Abbreviation NodeState := (NodeState Conn Metadata).
Abbreviation LogEntry := (LogEntry Conn Metadata).
Abbreviation Handler := (ConnectionHandlerFn Conn Metadata).
Implicit Types (st : NodeState) (log : list LogEntry).

(** The abstract node: what the log says the store holds, and the errors reported and
    received. *)
Definition apply_entry (s : gmap N (ConnectionWrapper (Conn := Conn) (Metadata := Metadata)))
    (e : LogEntry) :=
  match e with
  | Registered w _ => <[id (context w) := w]> s
  | Removed k => delete k s
  | _ => s
  end.
Definition log_store log := foldl apply_entry ∅ log.

Definition reported_errors log : list Error :=
  omap (λ e, match e with Failed e true => Some e | _ => None end) log.
Definition received_errors log : list Error :=
  omap (λ e, match e with Received e => Some e | _ => None end) log.
Definition receiver_dropped log : bool :=
  existsb (λ e, match e with ReceiverDropped => true | _ => false end) log.
Definition settled log : nat :=
  sum_list_with (λ e, match e with Registered _ _ | Failed _ _ => 1 | _ => 0 end) log.
Definition attempts (evs : list (NodeEvent Conn)) : nat :=
  sum_list_with (λ ev, match ev with Accept | Dialled (Ok _) => 1 | _ => 0 end) evs.

(** Handlers leave the connection's identifier alone. *)
Definition keeps_id (h : option Handler) : Prop :=
  ∀ f w, h = Some f → id (context (f w).1) = id (context w).
Definition task_handler (t : NodeTask Conn Metadata) : option Handler :=
  match t with Incoming h | Setup _ _ h => h end.

Record node_inv (evs : list (NodeEvent Conn)) log st : Prop := {
  inv_in : keeps_id (inbound_handler (node st));
  inv_out : keeps_id (outbound_handler (node st));
  inv_tasks : Forall (λ t, keeps_id (task_handler t)) (tasks st);
  inv_store : store (conn_manager (node st)) = log_store log;
  inv_bound : (N.of_nat (length (queue (error_tx (node st)))) <= capacity (error_tx (node st)))%N;
  inv_alive : receiver_alive (error_tx (node st)) = negb (receiver_dropped log);
  inv_fifo : receiver_dropped log = false → reported_errors log = received_errors log ++ queue (error_tx (node st));
  inv_lost l1 e l2 :
    log = l1 ++ Failed e false :: l2 → receiver_dropped l1 = true ∨
    N.of_nat (length (reported_errors l1)) = (N.of_nat (length (received_errors l1)) + capacity (error_tx (node st)))%N;
  inv_count : attempts evs = length (tasks st) + settled log;
}.

(** A freshly built node, or one whose handlers have been set. *)
Definition fresh st : Prop :=
  keeps_id (inbound_handler (node st)) ∧ keeps_id (outbound_handler (node st)) ∧
  tasks st = [] ∧ store (conn_manager (node st)) = ∅ ∧ queue (error_tx (node st)) = [] ∧
  receiver_alive (error_tx (node st)) = true.

Lemma fresh_inv st : fresh st → node_inv [] [] st.
Proof.
  intros (Hi & Ho & Ht & Hs & Hq & Ha). split; rewrite ?Ht, ?Hq; try done.
  - simpl. lia.
  - intros [] ??; discriminate.
Qed.

(** A successful setup registers the handled wrapper; a failed one leaves the store. *)
Lemma setup_connection_log c k h (m : ConnectionManager (Conn := Conn) (Metadata := Metadata)) :
  keeps_id h →
  let '(m', spawned, errors) := setup_connection c k dflt h m in
  match (handled dflt c k h m).2 with
  | Ok _ => errors = [] ∧ store m' = apply_entry (store m) (Registered (handled dflt c k h m).1 spawned)
  | Err e => errors = [e] ∧ m' = m
  end.
Proof.
  intros Hk.
  change (setup_connection c k dflt h m) with
    (match handled dflt c k h m with
     | (w, Err e) => (m, [], [e])
     | (w, Ok _) =>
         let m := add_connection w m in
         if keep_alive (context w) then
           match set_keep_alive k true m with
           | (m, Ok tasks) => (m, tasks, [])
           | (m, Err _) => (m, [], [])
           end
         else (m, [], [])
     end).
  assert (id (context (handled dflt c k h m).1) = k) as Hid.
  { unfold handled. destruct h as [f|]; [|done]. by rewrite (Hk f _ eq_refl). }
  destruct (handled dflt c k h m) as [w [[]|e]]; simpl in *; [|done].
  destruct (keep_alive (context w)) eqn:Ha; [|done].
  unfold set_keep_alive. simpl. rewrite Hid, lookup_insert_eq. simpl.
  split; [done|]. rewrite insert_insert_eq. f_equal.
  destruct w as [cw [] mw]; simpl in *. by subst.
Qed.

Lemma reported_errors_app l1 l2 : reported_errors (l1 ++ l2) = reported_errors l1 ++ reported_errors l2.
Proof. apply omap_app. Qed.
Lemma received_errors_app l1 l2 : received_errors (l1 ++ l2) = received_errors l1 ++ received_errors l2.
Proof. apply omap_app. Qed.
Lemma settled_app l1 l2 : settled (l1 ++ l2) = settled l1 + settled l2.
Proof. apply sum_list_with_app. Qed.
Lemma log_store_app l1 l2 : log_store (l1 ++ l2) = foldl apply_entry (log_store l1) l2.
Proof. apply foldl_app. Qed.
Lemma attempts_app l1 l2 : attempts (l1 ++ l2) = attempts l1 + attempts l2.
Proof. apply sum_list_with_app. Qed.
Lemma receiver_dropped_app l1 l2 :
  receiver_dropped (l1 ++ l2) = receiver_dropped l1 || receiver_dropped l2.
Proof. apply existsb_app. Qed.

(** An entry that is not a failure keeps the account of lost errors. *)
Lemma lost_snoc (cap : N) log e :
  (∀ l1 x l2, log = l1 ++ Failed x false :: l2 → receiver_dropped l1 = true ∨
     N.of_nat (length (reported_errors l1)) = (N.of_nat (length (received_errors l1)) + cap)%N) →
  (∀ x, e = Failed x false → receiver_dropped log = true ∨
     N.of_nat (length (reported_errors log)) = (N.of_nat (length (received_errors log)) + cap)%N) →
  ∀ l1 x l2, log ++ [e] = l1 ++ Failed x false :: l2 → receiver_dropped l1 = true ∨
     N.of_nat (length (reported_errors l1)) = (N.of_nat (length (received_errors l1)) + cap)%N.
Proof.
  intros Hlog He l1 x l2. destruct l2 as [|y l2 _] using rev_ind.
  - intros [-> [= ->]]%app_inj_tail. by eapply He.
  - rewrite (app_comm_cons l2), (assoc_L (++)). intros [-> ->]%app_inj_tail. by eapply Hlog.
Qed.

(** Reporting an error keeps the books: it is queued, or the channel is full or closed. *)
Lemma report_inv evs log st e n' entry i :
  node_inv evs log st → i < length (tasks st) → report e (node st) = (n', entry) →
  ∀ ev, attempts [ev] = 0 →
  node_inv (evs ++ [ev]) (log ++ [entry]) (mkState n' (delete i (tasks st))).
Proof.
  intros [Hi Ho Ht Hs Hb Ha Hf Hl Hc] Hlt Hr ev Hev. unfold report, try_send in Hr.
  set (ch := error_tx (node st)) in *.
  assert (length (delete i (tasks st)) = pred (length (tasks st))) as Hdel
    by (rewrite length_delete; [lia|by apply lookup_lt_is_Some]).
  assert (Forall (λ t, keeps_id (task_handler t)) (delete i (tasks st))) as Ht'
    by by apply Forall_delete.
  destruct (receiver_alive ch && (N.of_nat (length (queue ch)) <? capacity ch)%N) eqn:E;
    injection Hr as <- <-.
  - apply andb_prop in E as [E1 E2]. apply N.ltb_lt in E2. split; simpl; try done.
    + by rewrite log_store_app.
    + rewrite length_app. simpl. lia.
    + by rewrite receiver_dropped_app, orb_false_r, <- Ha.
    + rewrite receiver_dropped_app, orb_false_r, reported_errors_app, received_errors_app. intros Hnd. simpl.
      rewrite app_nil_r, (assoc_L (++)), <- Hf; done.
    + by apply lost_snoc.
    + rewrite attempts_app, settled_app, Hev, Hc, Hdel. cbn. lia.
  - split; simpl; try done.
    + by rewrite log_store_app.
    + by rewrite receiver_dropped_app, orb_false_r.
    + rewrite receiver_dropped_app, orb_false_r, reported_errors_app, received_errors_app. intros Hnd. simpl.
      rewrite !app_nil_r. by apply Hf.
    + apply lost_snoc; [done|]. intros x [= ->].
      destruct (receiver_dropped log) eqn:Ed; [by left|right]. rewrite Ha in E.
      apply N.ltb_ge in E. rewrite Hf, length_app by done. fold ch. fold ch in Hb. lia.
    + rewrite attempts_app, settled_app, Hev, Hc, Hdel. cbn. lia.
Qed.

(** An entry that is not about the error channel keeps the books when the store follows
    it and the tasks are counted. *)
Lemma quiet_inv evs log st ev entry st' :
  node_inv evs log st →
  inbound_handler (node st') = inbound_handler (node st) →
  outbound_handler (node st') = outbound_handler (node st) →
  error_tx (node st') = error_tx (node st) →
  Forall (λ t, keeps_id (task_handler t)) (tasks st') →
  store (conn_manager (node st')) = apply_entry (store (conn_manager (node st))) entry →
  match entry with Registered _ _ | Removed _ | ConnectReturned _ => True | _ => False end →
  attempts [ev] + length (tasks st) = length (tasks st') + settled [entry] →
  node_inv (evs ++ [ev]) (log ++ [entry]) st'.
Proof.
  intros [Hi Ho Ht Hs Hb Ha Hf Hl Hc] Ei Eo Ee Ht' Es Hentry Hn.
  assert (reported_errors [entry] = [] ∧ received_errors [entry] = [] ∧ receiver_dropped [entry] = false ∧
    (∀ x, entry ≠ Failed x false)) as (E1 & E2 & E3 & E4) by by destruct entry.
  split; rewrite ?Ei, ?Eo, ?Ee, ?log_store_app, ?receiver_dropped_app, ?reported_errors_app,
    ?received_errors_app, ?E1, ?E2, ?E3, ?orb_false_r, ?app_nil_r; try done.
  - simpl. by rewrite Es, Hs.
  - apply lost_snoc; [done|]. intros x ->. by destruct (E4 x).
  - rewrite attempts_app, settled_app. lia.
Qed.

(** Every event keeps the books. *)
Lemma node_step_inv evs log st ev st' entries :
  node_inv evs log st → node_step dflt ev st = Some (st', entries) →
  node_inv (evs ++ [ev]) (log ++ entries) st'.
Proof.
  intros Hinv Hstep. pose proof Hinv as [Hi Ho Ht Hs Hb Ha Hf Hl Hc].
  destruct ev as [|i r|[[c k]|e]|i|k| |]; simpl in Hstep.
  - injection Hstep as <- <-. rewrite app_nil_r. split; simpl; try done.
    + by rewrite Forall_app, Forall_singleton.
    + rewrite attempts_app, length_app, Hc. cbn. lia.
  - destruct (tasks st !! i) as [[h|]|] eqn:Ei; try done.
    pose proof (Forall_lookup_1 _ _ _ _ Ht Ei) as Hh.
    assert (i < length (tasks st)) by by eapply lookup_lt_Some.
    destruct r as [[c k]|e]; simpl in Hstep.
    + injection Hstep as <- <-. rewrite app_nil_r. split; simpl; try done.
      * by apply Forall_insert.
      * rewrite attempts_app, length_insert, Hc. cbn. lia.
    + destruct (report e (node st)) as [n entry] eqn:Er. injection Hstep as <- <-.
      by eapply report_inv.
  - injection Hstep as <- <-. eapply quiet_inv; try done; simpl.
    + by rewrite Forall_app, Forall_singleton.
    + rewrite length_app. cbn. lia.
  - injection Hstep as <- <-. by eapply quiet_inv.
  - destruct (tasks st !! i) as [[|c k h]|] eqn:Ei; try done.
    pose proof (Forall_lookup_1 _ _ _ _ Ht Ei) as Hh.
    assert (i < length (tasks st)) by by eapply lookup_lt_Some.
    injection Hstep as Hstep. unfold finish_setup in Hstep.
    pose proof (setup_connection_log c k h (conn_manager (node st)) Hh) as Hlog.
    destruct (setup_connection c k dflt h _) as [[m spawned] errors].
    destruct (handled dflt c k h _).2.
    + destruct Hlog as [-> Hstore]. injection Hstep as <- <-.
      eapply quiet_inv; try done; simpl.
      * by apply Forall_delete.
      * rewrite length_delete by by rewrite Ei. cbn. lia.
    + destruct Hlog as [-> ->]. replace (with_manager _ _) with (node st) in Hstep by by destruct (node st).
      destruct (report e (node st)) as [n entry] eqn:Er. injection Hstep as <- <-.
      by eapply report_inv.
  - injection Hstep as <- <-. by eapply quiet_inv.
  - destruct (queue (error_tx (node st))) as [|e rest] eqn:Eq; [done|].
    destruct (receiver_alive (error_tx (node st))) eqn:Er; [|done]. injection Hstep as <- <-.
    split; simpl; rewrite ?log_store_app, ?receiver_dropped_app, ?reported_errors_app, ?received_errors_app,
      ?orb_false_r, ?app_nil_r; try done.
    + simpl in Hb. lia.
    + intros Hd. rewrite (Hf Hd). by rewrite <- (assoc_L (++)).
    + by apply lost_snoc.
    + rewrite attempts_app, settled_app, Hc. cbn. lia.
  - injection Hstep as <- <-.
    split; simpl; rewrite ?log_store_app, ?receiver_dropped_app, ?orb_true_r; try done.
    + lia.
    + by apply lost_snoc.
    + rewrite attempts_app, settled_app, Hc. cbn. lia.
Qed.

Lemma node_run_inv evs log st0 st :
  fresh st0 → node_run dflt st0 evs log st → node_inv evs log st.
Proof.
  intros Hfresh Hrun. induction Hrun as [st|st0 evs log st ev st' entries _ IH Hstep].
  - by apply fresh_inv.
  - eapply node_step_inv; eauto.
Qed.

Lemma node_store_log evs log st0 st :
  fresh st0 → node_run dflt st0 evs log st → store (conn_manager (node st)) = log_store log.
Proof. intros Hf Hr. by apply (inv_store _ _ _ (node_run_inv _ _ _ _ Hf Hr)). Qed.

(** C10. In every run of a node, with any interleaving of its tasks, the registered
    connections are exactly those whose setup succeeded and that were not removed since;
    every attempt, accepted or dialled, is pending, registered or failed; the error channel
    never exceeds its length and hands out the reported errors in order; and a failure
    goes unreported only while the channel is full or after its receiver was dropped. *)
Theorem node_accounts evs log st0 st :
  fresh st0 → node_run dflt st0 evs log st →
  store (conn_manager (node st)) = log_store log ∧
  attempts evs = length (tasks st) + settled log ∧
  (N.of_nat (length (queue (error_tx (node st)))) <= capacity (error_tx (node st)))%N ∧
  (receiver_dropped log = false → reported_errors log = received_errors log ++ queue (error_tx (node st))) ∧
  (∀ l1 e l2, log = l1 ++ Failed e false :: l2 → receiver_dropped l1 = true ∨
     N.of_nat (length (reported_errors l1)) =
     (N.of_nat (length (received_errors l1)) + capacity (error_tx (node st)))%N).
Proof.
  intros Hfresh Hrun. by destruct (node_run_inv _ _ _ _ Hfresh Hrun).
Qed.

(** ** Streams on registered connections *)

(** [connect] returns the identifier before its connection is registered: until the
    handler of the spawned task has returned, opening a stream fails. *)
Lemma connect_returns_unregistered {S R E} (open : Conn → result (S * R) E) st c k :
  store (conn_manager (node st)) !! k = None →
  let '(st', log) := connect (Ok (c, k)) st in
  log = [ConnectReturned (Ok k)] ∧
  get_bistream open k (node st') = Err (StreamManager E (IdNotFound k)).
Proof. intros Hk. simpl. unfold get_bistream, get_stream. by rewrite Hk. Qed.

(** The four permissions of a connection's context are never consulted: with every one
    of them off, both kinds of stream are opened all the same, and a stream opened on a
    connection this node dialled is still marked as opened by the responder. *)
Lemma stream_permissions_ignored {S R E} (open_uni : Conn → result S E)
    (open_bi : Conn → result (S * R) E) k (n : QuicNode) w s s' r :
  store (conn_manager n) !! k = Some w →
  context w = mkContext k false false false false false →
  open_uni (conn w) = Ok s → open_bi (conn w) = Ok (s', r) →
  get_unistream open_uni k n = Ok (mkSendUni s) ∧
  ∃ b, get_bistream open_bi k n = Ok b ∧ is_responder_initiated b = true.
Proof.
  intros Hk _ Hu Hb. unfold get_unistream, get_bistream, get_stream. rewrite Hk, Hu, Hb. eauto.
Qed.
End running.

(** ** Executing events *)

Section executing.
Context `{Q : Quinn} {Conn Metadata : Type} (dflt : Metadata).

Fixpoint node_exec (evs : list (NodeEvent Conn)) (st : NodeState Conn Metadata) :
    option (NodeState Conn Metadata * list (LogEntry Conn Metadata)) :=
  match evs with
  | [] => Some (st, [])
  | ev :: evs' =>
      '(st1, l1) ← node_step dflt ev st;
      '(st2, l2) ← node_exec evs' st1;
      Some (st2, l1 ++ l2)
  end.

Lemma node_exec_run evs st st' log :
  node_exec evs st = Some (st', log) → ∀ st0 evs0 log0,
  node_run dflt st0 evs0 log0 st → node_run dflt st0 (evs0 ++ evs) (log0 ++ log) st'.
Proof.
  revert st log. induction evs as [|ev evs IH]; intros st log; simpl.
  - intros [= <- <-] st0 evs0 log0. by rewrite !app_nil_r.
  - intros ([st1 l1] & E1 & ([st2 l2] & E2 & [= <- <-])%bind_Some)%bind_Some st0 evs0 log0 Hr.
    rewrite (cons_middle ev), !(assoc_L (++)). eapply IH; [done|]. by eapply run_snoc.
Qed.
End executing.

(** ** Concrete nodes *)

(** Builders that keep what they are given. *)
#[global] Instance sample_tls : TlsTypes := {|
  CertificateDer := N; PrivateKeyDer := N; RootCertStore := list N; ServerName := string;
  UnixTime := N; DigitallySignedStruct := bytes; TlsError := string |}.

#[global] Instance sample_types : @QuinnTypes sample_tls := {|
  SocketAddr := N; RustlsServerConfig := list N * N * list bytes;
  RustlsClientConfig := Trust * list bytes; QuicServerConfig := list N * N * list bytes;
  QuicClientConfig := Trust * list bytes; ServerConfig := list N * N * list bytes * option N;
  ClientConfig := Trust * list bytes * option N; TransportConfig := option N;
  IdleTimeout := N; Endpoint := N * option (list N * N * list bytes * option N) *
    option (Trust * list bytes * option N); Error := string |}.

(** The key must be the one of the first certificate; timeouts count milliseconds in 62
    bits. *)
#[global] Instance sample_quinn : @Quinn sample_tls sample_types := {
  crypto_provider := true;
  with_single_cert := λ (cs : list N) (k : N),
    match cs with c :: _ => if (c =? k)%N then Ok (cs, k, []) else Err "key mismatch"
    | [] => Err "no certificate" end;
  set_server_alpn := λ alpn c, (c.1, alpn);
  quic_server_config := Ok;
  server_with_crypto := λ c, (c, Some 30000%N);
  server_transport := λ t c, (c.1, t);
  root_store_empty := [];
  with_custom_certificate_verifier := λ v, (TrustVerifier v, []);
  with_root_certificates := λ r, (TrustRoots r, []);
  set_client_alpn := λ alpn c, (c.1, alpn);
  quic_client_config := Ok;
  client_new := λ c, (c, Some 30000%N);
  client_transport := λ t c, (c.1, t);
  transport_default := Some 30000%N;
  idle_timeout_try_from := λ d,
    if (d / 1000000 <? 4611686018427387904)%N then Ok (d / 1000000)%N else Err "too large";
  max_idle_timeout := λ t _, t;
  endpoint_server := λ c addr, Ok (addr, Some c, None);
  endpoint_client := λ addr, Ok (addr, None, None);
  set_default_client_config := λ c ep, (ep.1, Some c);
  endpoint_local_addr := λ ep, Ok ep.1.1 }.

#[global] Program Instance sample_quinn_spec : QuinnSpec sample_quinn := {|
  server_identity := λ c, c.1.1; server_alpn := λ c, c.1.2; server_idle := λ c, c.2;
  client_trust := λ c, c.1.1; client_alpn := λ c, c.1.2; client_idle := λ c, c.2;
  default_idle := Some 30000%N; accepts_with := λ ep, ep.1.2; dials_with := λ ep, ep.2;
  bound_to := λ ep, ep.1.1 |}.
Solve Obligations with (simpl; intros; repeat case_match; naive_solver).

Definition sample_context : ConnectionContext := mkContext 0 false true true true true.

(** A node that can accept, with two slots for errors. *)
Definition sample_config : NodeConfig :=
  mkNodeConfig _ _ (Some [7%N]) (Some 7%N) 4433%N [[Byte.x73]] 2 sample_context 0
    (Some 60000000000%N) None true.

Lemma new_node_configured_witness :
  ∃ n : QuicNode N (), new sample_config = Ret (Ok n) ∧ is_Some (accepts_with (endpoint n)) ∧
    ∃ cc, dials_with (endpoint n) = Some cc ∧
      client_trust cc = TrustVerifier DangerNoCertificateVerification.
Proof.
  destruct (new (Conn := N) (Metadata := ()) sample_config) as [[n|]| |] eqn:E; try discriminate E.
  exists n. split; [reflexivity|].
  destruct (new_node_configured sample_config n E) as (_ & Ha & _ & (cc & Hc & Ht & _) & _).
  split; [apply Ha; split; eexists; reflexivity|]. exists cc. split; [exact Hc|exact Ht].
Defined.

(** A handler that refuses odd connections. *)
Definition sample_handler : ConnectionHandlerFn N () :=
  λ w, (w, if N.odd (conn w) then Err "odd" else Ok ()).

Definition sample_node : NodeState N () :=
  mkState (mkNode (4433%N, None, None) (new_manager sample_context 0 None) (Some sample_handler)
    None (mkChannel 2 [] true)) [].

(** Three attempts fail, the third when the channel is full; one connection is dialled. *)
Definition sample_events : list (NodeEvent N) :=
  [Accept; Accept; Accept; HandshakeDone 0 (Err "refused"); HandshakeDone 0 (Ok (3%N, 30%N));
   Dialled (Ok (5%N, 50%N)); HandlerDone 0; HandshakeDone 0 (Err "lost"); HandlerDone 0; RecvError].

Lemma node_accounts_witness :
  ∃ st log, node_run () sample_node sample_events log st ∧
    reported_errors log = ["refused"; "odd"] ∧ received_errors log = ["refused"] ∧
    queue (error_tx (node st)) = ["odd"] ∧
    store (conn_manager (node st)) = log_store log ∧ is_Some (log_store log !! 50%N).
Proof.
  destruct (node_exec () sample_events sample_node) as [[st log]|] eqn:E; [|discriminate E].
  pose proof (node_exec_run _ _ _ _ _ E sample_node [] [] (run_nil _ _)) as Hrun.
  simpl app in Hrun. exists st, log. split; [exact Hrun|].
  destruct (node_accounts () sample_events log sample_node st) as (Hs & _); [|exact Hrun|].
  - split; [intros f w [= <-]; reflexivity|]. split; [intros f w [=]|].
    split; [reflexivity|]. split; [reflexivity|]. split; reflexivity.
  - split_and!; [| | |exact Hs|]; vm_compute in E; injection E as <- <-;
      [reflexivity|reflexivity|reflexivity|eexists; reflexivity].
Defined.
