(* ===== verification/Locks.v ===== *)
(** * Locks of a flow node

    The two [tokio::sync::RwLock]s of [FlowNode] ([graph] and [local_subscriptions]) and its
    bounded control channel, and what the tasks of [stric-flow/src/node.rs] do with them.
    A task is the sequence of its lock operations, of its sends and receives on the control
    channel, and of its other awaits ([Await]: the network, a peer's channel, user code).

    tokio's lock is fair: requests queue in order, and a request is granted when it is at
    the head of the queue and compatible with the guards that are held. *)
From S2P Require Import Prelude.
From stdpp Require Import options.

Inductive lock := Graph | Subs.
Inductive mode := Rd | Wr.

Global Instance lock_eq_dec : EqDecision lock.
Proof. solve_decision. Defined.
Global Instance mode_eq_dec : EqDecision mode.
Proof. solve_decision. Defined.

Inductive instr :=
| Lock (l : lock) (m : mode)
| Unlock (l : lock) (m : mode)
| Push
| Pop
| Await.

Definition Task := list instr.

(** ** The tasks of the node *)

(** [handle_new_connection] after the stream is open: the guard of line 274 lives to the end
    of the function. *)
Definition connection_task : Task :=
  [Lock Subs Rd; Await; Push; Lock Graph Rd; Unlock Graph Rd; Lock Subs Rd; Await;
   Unlock Subs Rd; Unlock Subs Rd].

(** The task spawned by [subscribe]. *)
Definition subscribing_task : Task := [Lock Subs Wr; Push; Unlock Subs Wr].

(** [publish]: both guards live to its end. *)
Definition publish_task : Task :=
  [Lock Graph Rd; Lock Subs Rd; Await; Unlock Subs Rd; Unlock Graph Rd].

(** An iteration of the control loop for an update, for a new link, and for the rest. *)
Definition update_iteration : Task := [Pop; Lock Graph Wr; Unlock Graph Wr; Await].
Definition pong_iteration : Task :=
  [Pop; Lock Graph Wr; Unlock Graph Wr; Lock Graph Rd; Unlock Graph Rd; Await].
Definition other_iteration : Task := [Pop; Await].

(** [print_debug_info]. *)
Definition debug_task : Task := [Lock Graph Rd; Unlock Graph Rd].

(** ** Running them *)

Abbreviation tid := string.

Record RwLock := mkRwLock {
  holders : list (tid * mode);
  waiting : list (tid * mode);
}.

Record Sys := mkSys {
  rwlocks : lock → RwLock;
  chan : nat;
  progs : gmap tid Task;
}.

Definition incompatible (m m' : mode) : bool :=
  match m, m' with Rd, Rd => false | _, _ => true end.

(** The guard can be given out beside those held. *)
Definition admissible (m : mode) (l : RwLock) : bool :=
  forallb (λ tm, negb (incompatible m tm.2)) (holders l).

Definition set_lock (l : lock) (x : RwLock) (s : Sys) : Sys :=
  mkSys (λ l', if decide (l' = l) then x else rwlocks s l') (chan s) (progs s).
Definition set_prog (t : tid) (p : Task) (s : Sys) : Sys :=
  mkSys (rwlocks s) (chan s) (<[t := p]> (progs s)).
Definition set_chan (n : nat) (s : Sys) : Sys := mkSys (rwlocks s) n (progs s).

(** Drops one guard. *)
Fixpoint drop_guard (x : tid * mode) (l : list (tid * mode)) : list (tid * mode) :=
  match l with
  | [] => []
  | y :: l' => if decide (y = x) then l' else y :: drop_guard x l'
  end.

Section run.
(** The capacity of the control channel, and the task of the control loop, which is its
    only receiver. *)
Variables (cap : nat) (consumer : tid).

Inductive step : Sys → Sys → Prop :=
| step_lock s t l m p :
    progs s !! t = Some (Lock l m :: p) →
    waiting (rwlocks s l) = [] → admissible m (rwlocks s l) = true →
    step s (set_prog t p (set_lock l (mkRwLock ((t, m) :: holders (rwlocks s l)) []) s))
| step_enqueue s t l m p :
    progs s !! t = Some (Lock l m :: p) → t ∉ (waiting (rwlocks s l)).*1 →
    waiting (rwlocks s l) ≠ [] ∨ admissible m (rwlocks s l) = false →
    step s (set_lock l (mkRwLock (holders (rwlocks s l)) (waiting (rwlocks s l) ++ [(t, m)])) s)
| step_grant s t l m p q :
    waiting (rwlocks s l) = (t, m) :: q → admissible m (rwlocks s l) = true →
    progs s !! t = Some (Lock l m :: p) →
    step s (set_prog t p (set_lock l (mkRwLock ((t, m) :: holders (rwlocks s l)) q) s))
| step_unlock s t l m p :
    progs s !! t = Some (Unlock l m :: p) →
    step s (set_prog t p (set_lock l
      (mkRwLock (drop_guard (t, m) (holders (rwlocks s l))) (waiting (rwlocks s l))) s))
| step_push s t p :
    progs s !! t = Some (Push :: p) → chan s < cap →
    step s (set_prog t p (set_chan (S (chan s)) s))
| step_pop s p n :
    progs s !! consumer = Some (Pop :: p) → chan s = S n →
    step s (set_prog consumer p (set_chan n s))
| step_await s t p :
    progs s !! t = Some (Await :: p) → step s (set_prog t p s).

(** ** Deadlock *)

(** Every task of [T] waits for another one of [T]: for a guard that one of them holds, for
    its turn behind one of them, or for room in a channel whose receiver is one of
    them. *)
Definition deadlocked (T : gset tid) (s : Sys) : Prop := ∀ t, t ∈ T →
  ∃ i p, progs s !! t = Some (i :: p) ∧
  match i with
  | Lock l m =>
      (∀ l', t ∈ (waiting (rwlocks s l')).*1 → l' = l) ∧
      ∃ q1 q2, waiting (rwlocks s l) = q1 ++ (t, m) :: q2 ∧ t ∉ q1.*1 ∧
        ((∃ u m', (u, m') ∈ holders (rwlocks s l) ∧ incompatible m m' = true ∧ u ∈ T) ∨
         ∃ u, u ∈ q1.*1 ∧ u ∈ T)
  | Push => (∀ l', t ∉ (waiting (rwlocks s l')).*1) ∧ chan s = cap ∧ consumer ∈ T
  | _ => False
  end.

(** What the step of one task leaves to the others. *)
Definition stepping (s : Sys) (t : tid) (s' : Sys) : Prop :=
  (∀ u, u ≠ t → progs s' !! u = progs s !! u) ∧
  (chan s = cap → consumer ≠ t → chan s' = cap) ∧
  ∀ l, (∀ u m, u ≠ t → (u, m) ∈ holders (rwlocks s l) → (u, m) ∈ holders (rwlocks s' l)) ∧
    (waiting (rwlocks s' l) = waiting (rwlocks s l) ∨
     (∃ m, waiting (rwlocks s' l) = waiting (rwlocks s l) ++ [(t, m)]) ∨
     ∃ m, waiting (rwlocks s l) = (t, m) :: waiting (rwlocks s' l)).

Lemma elem_of_drop_guard x y l : y ≠ x → y ∈ l → y ∈ drop_guard x l.
Proof.
  intros Hne. induction l as [|z l IH]; simpl; [done|].
  case_decide; rewrite ?elem_of_cons; intros [->|?]; try done; auto.
Qed.

Lemma admissible_false m l u m' :
  (u, m') ∈ holders l → incompatible m m' = true → admissible m l = false.
Proof.
  intros Hin Hi. unfold admissible. destruct (forallb _ _) eqn:E; [|done].
  rewrite forallb_forall in E. specialize (E (u, m')). simpl in E. rewrite Hi in E.
  by discriminate E; apply list_elem_of_In.
Qed.

Lemma step_stepping s s' :
  step s s' → ∃ t i p, progs s !! t = Some (i :: p) ∧ stepping s t s' ∧
  match i with
  | Lock l m => t ∉ (waiting (rwlocks s l)).*1 ∨
      ∃ q, waiting (rwlocks s l) = (t, m) :: q ∧ admissible m (rwlocks s l) = true
  | Push => chan s < cap
  | _ => True
  end.
Proof.
  intros Hstep. destruct Hstep as [s t l m p Hp Hw Ha|s t l m p Hp Hnw Hw|s t l m p q Hw Ha Hp
    |s t l m p Hp|s t p Hp Hc|s p n Hp Hc|s t p Hp];
    eexists _, _, p; (split; [exact Hp|]); (split; [split_and!|]); simpl;
    try (by intros; rewrite ?lookup_insert_ne by done); try done; eauto; try (intros; lia).
  - intros l'. case_decide; subst; simpl; [|by auto]. rewrite Hw. split; [|by auto].
    intros u m' _ ?. by right.
  - left. rewrite Hw. apply not_elem_of_nil.
  - intros l'. case_decide; subst; simpl; eauto.
  - intros l'. case_decide; subst; simpl; [|by auto]. split; [|by eauto].
    intros u m' _ ?. by right.
  - intros l'. case_decide; subst; simpl; [|by auto]. split; [|by auto].
    intros u m' Hu ?. apply elem_of_drop_guard; [congruence|done].
Qed.

(** A task of a deadlocked set cannot take a step. *)
Lemma deadlocked_outside T s t i p :
  deadlocked T s → progs s !! t = Some (i :: p) →
  match i with
  | Lock l m => t ∉ (waiting (rwlocks s l)).*1 ∨
      ∃ q, waiting (rwlocks s l) = (t, m) :: q ∧ admissible m (rwlocks s l) = true
  | Push => chan s < cap
  | _ => True
  end → t ∉ T.
Proof.
  intros Hd Hp Hen Ht. destruct (Hd t Ht) as (i' & p' & Hp' & Hi).
  rewrite Hp in Hp'. injection Hp' as <- <-. destruct i as [l m| | | |]; try done.
  - destruct Hi as (_ & q1 & q2 & Hw & Hq1 & Hb). rewrite Hw in Hen.
    destruct Hen as [Hnot|(q & Hq & Ha)].
    { destruct Hnot. rewrite fmap_app. apply elem_of_app. right. by left. }
    destruct q1 as [|[u mu] q1].
    + destruct Hb as [(u & m' & Hu & Hinc & _)|(u & Hu & _)]; [|by apply elem_of_nil in Hu].
      by rewrite (admissible_false m _ u m') in Ha.
    + simplify_eq/=. destruct Hq1. by left.
  - destruct Hi as (_ & Hi & _). lia.
Qed.

Lemma deadlocked_step T s s' :
  deadlocked T s → step s s' → deadlocked T s' ∧ ∀ t, t ∈ T → progs s' !! t = progs s !! t.
Proof.
  intros Hd Hstep. destruct (step_stepping s s' Hstep) as (v & i & p & Hv & (Hpr & Hch & Hl) & Hen).
  pose proof (deadlocked_outside T s v i p Hd Hv Hen) as HvT. clear i p Hv Hen Hstep.
  assert (∀ t, t ∈ T → t ≠ v) as Hne by (intros t Ht ->; done).
  split; [|intros t Ht; auto]. intros t Ht. destruct (Hd t Ht) as (i & p & Hp & Hi).
  exists i, p. rewrite Hpr by auto. split; [done|].
  assert (∀ l', t ∈ (waiting (rwlocks s' l')).*1 → t ∈ (waiting (rwlocks s l')).*1) as Hwait.
  { intros l'. destruct (Hl l') as [_ [->|[[m ->]|[m ->]]]]; [done| |by right].
    rewrite fmap_app, elem_of_app. intros [|Hin]; [done|].
    simpl in Hin. apply list_elem_of_singleton in Hin. by destruct (Hne t Ht). }
  destruct i as [l m| | | |]; try done.
  - destruct Hi as (Honly & q1 & q2 & Hw & Hq1 & Hb). split; [by auto|].
    destruct (Hl l) as [Hhold Hcase].
    assert (∃ q1' q2', waiting (rwlocks s' l) = q1' ++ (t, m) :: q2' ∧ t ∉ q1'.*1 ∧
      ∀ u, u ∈ q1.*1 → u ≠ v → u ∈ q1'.*1) as (q1' & q2' & Hw' & Hq1' & Hsub).
    { destruct Hcase as [Heq|[[mv Heq]|[mv Heq]]].
      - exists q1, q2. rewrite Heq, Hw. auto.
      - exists q1, (q2 ++ [(v, mv)]). rewrite Heq, Hw, <- (assoc_L (++)). auto.
      - rewrite Hw in Heq. destruct q1 as [|[u mu] q1]; simplify_eq/=; [by destruct (Hne v Ht)|].
        exists q1, q2. split_and!; [done|set_solver|]. intros u [->|?]%elem_of_cons; done. }
    exists q1', q2'. split; [done|]. split; [done|].
    destruct Hb as [(u & m' & Hu & Hinc & HuT)|(u & Hu & HuT)]; [left|right; eauto].
    exists u, m'. auto.
  - destruct Hi as (Hnw & Hc & Hcons). split_and!; [naive_solver| |done].
    apply Hch; [done|]. auto.
Qed.

(** Deadlocked tasks never move again, whatever the other tasks do. *)
Lemma deadlocked_forever T s s' :
  deadlocked T s → rtc step s s' → ∀ t, t ∈ T → progs s' !! t = progs s !! t.
Proof.
  intros Hd Hr. induction Hr as [s|s s1 s2 Hstep _ IH]; [done|]. intros t Ht.
  destruct (deadlocked_step T s s1 Hd Hstep) as [Hd1 Hp]. rewrite IH by done. auto.
Qed.

(** ** Executing schedules *)

(** The next move of a task, if it has one. *)
Definition move (t : tid) (s : Sys) : option Sys :=
  match progs s !! t with
  | Some (Lock l m :: p) =>
      let x := rwlocks s l in
      match waiting x with
      | [] =>
          if admissible m x then Some (set_prog t p (set_lock l (mkRwLock ((t, m) :: holders x) []) s))
          else Some (set_lock l (mkRwLock (holders x) [(t, m)]) s)
      | _ =>
          if decide (t ∈ (waiting x).*1) then None
          else Some (set_lock l (mkRwLock (holders x) (waiting x ++ [(t, m)])) s)
      end
  | Some (Unlock l m :: p) =>
      let x := rwlocks s l in
      Some (set_prog t p (set_lock l (mkRwLock (drop_guard (t, m) (holders x)) (waiting x)) s))
  | Some (Push :: p) =>
      if decide (chan s < cap) then Some (set_prog t p (set_chan (S (chan s)) s)) else None
  | Some (Pop :: p) =>
      match chan s with
      | S n => if decide (t = consumer) then Some (set_prog t p (set_chan n s)) else None
      | O => None
      end
  | Some (Await :: p) => Some (set_prog t p s)
  | _ => None
  end.

Fixpoint schedule (ts : list tid) (s : Sys) : option Sys :=
  match ts with
  | [] => Some s
  | t :: ts' => s' ← move t s; schedule ts' s'
  end.

Lemma move_step t s s' : move t s = Some s' → step s s'.
Proof.
  unfold move. destruct (progs s !! t) as [[|[l m|l m| | |] p]|] eqn:Hp; try done.
  - destruct (waiting (rwlocks s l)) as [|w q] eqn:Hw.
    + destruct (admissible m (rwlocks s l)) eqn:Ha; intros [= <-].
      * by apply step_lock.
      * replace [(t, m)] with (waiting (rwlocks s l) ++ [(t, m)]) by by rewrite Hw.
        eapply step_enqueue; [done| |by right]. rewrite Hw. apply not_elem_of_nil.
    + rewrite <- Hw. case_decide as Hd; [done|]. intros [= <-].
      eapply step_enqueue; [done|done|]. left. by rewrite Hw.
  - intros [= <-]. by apply step_unlock.
  - case_decide; [|done]. intros [= <-]. by apply step_push.
  - destruct (chan s) eqn:Hc; [done|]. case_decide; [|done]. intros [= <-]. subst.
    by apply step_pop.
  - intros [= <-]. by apply step_await.
Qed.

Lemma schedule_run ts s s' : schedule ts s = Some s' → rtc step s s'.
Proof.
  revert s. induction ts as [|t ts IH]; intros s; simpl; [by intros [= <-]|].
  intros (s1 & E & Hs)%bind_Some. eapply rtc_l; [by eapply move_step|auto].
Qed.

(** A run is a run beside other tasks. *)
Definition beside (rest : gmap tid Task) (s : Sys) : Sys :=
  mkSys (rwlocks s) (chan s) (progs s ∪ rest).

Lemma step_beside rest s s' : step s s' → step (beside rest s) (beside rest s').
Proof.
  intros Hstep. destruct Hstep as [s t l m p Hp Hw Ha|s t l m p Hp Hnw Hw|s t l m p q Hw Ha Hp
    |s t l m p Hp|s t p Hp Hc|s p n Hp Hc|s t p Hp];
    unfold beside, set_prog, set_lock, set_chan; simpl; rewrite <- ?insert_union_l;
    apply (lookup_union_Some_l _ rest) in Hp.
  - by apply (step_lock (beside rest s)).
  - by apply (step_enqueue (beside rest s) t l m p).
  - by apply (step_grant (beside rest s)).
  - by apply (step_unlock (beside rest s)).
  - by apply (step_push (beside rest s)).
  - by apply (step_pop (beside rest s)).
  - by apply (step_await (beside rest s)).
Qed.

Lemma run_beside rest s s' : rtc step s s' → rtc step (beside rest s) (beside rest s').
Proof.
  induction 1 as [s|s s1 s2 Hstep _ IH]; [done|]. eapply rtc_l; [by apply step_beside|done].
Qed.
End run.

(** All locks free, [n] events in the control channel. *)
Definition start (n : nat) (tasks : gmap tid Task) : Sys := mkSys (λ _, mkRwLock [] []) n tasks.

(** [mpsc::channel(100)]. *)
Definition control_cap : nat := 100.

(** ** A connection, a subscription, and the node stands still *)

Definition stalled_tasks : gmap tid Task :=
  {["connection" := connection_task; "subscribe" := subscribing_task; "publish" := publish_task;
    "control" := update_iteration]}.

Definition stalled_schedule : list tid :=
  ["control"; "connection"; "subscribe"; "connection"; "connection"; "connection"; "connection";
   "connection"; "publish"; "publish"; "control"].

(** C8. A subscription made while a peer connects stops the node for good.  While
    [handle_new_connection] runs it holds a read guard on the local subscriptions, from before
    the handshake to its end, and asks for a second one; a [subscribe] in between
    queues for the write guard, and the lock is fair.  Whatever other tasks there
    are, a run leads to a state after which the connection, the subscription, a publish
    call and the control loop never move again. *)
Theorem connect_subscribe_deadlock rest :
  ∃ s, rtc (step control_cap "control") (beside rest (start 1 stalled_tasks)) s ∧
  ∀ s', rtc (step control_cap "control") s s' →
    progs s' !! "connection" = Some [Lock Subs Rd; Await; Unlock Subs Rd; Unlock Subs Rd] ∧
    progs s' !! "subscribe" = Some subscribing_task ∧
    progs s' !! "publish" = Some [Lock Subs Rd; Await; Unlock Subs Rd; Unlock Graph Rd] ∧
    progs s' !! "control" = Some [Lock Graph Wr; Unlock Graph Wr; Await].
Proof.
  destruct (schedule control_cap "control" stalled_schedule (start 1 stalled_tasks)) as [s|] eqn:E;
    [|vm_compute in E; discriminate].
  assert (rwlocks s Graph = mkRwLock [("publish", Rd)] [("control", Wr)] ∧
    rwlocks s Subs = mkRwLock [("connection", Rd)] [("subscribe", Wr); ("connection", Rd); ("publish", Rd)] ∧
    progs s !! "connection" = Some [Lock Subs Rd; Await; Unlock Subs Rd; Unlock Subs Rd] ∧
    progs s !! "subscribe" = Some subscribing_task ∧
    progs s !! "publish" = Some [Lock Subs Rd; Await; Unlock Subs Rd; Unlock Graph Rd] ∧
    progs s !! "control" = Some [Lock Graph Wr; Unlock Graph Wr; Await])
    as (HG & HS & H1 & H2 & H3 & H4).
  { clear -E. vm_compute in E. injection E as <-. split_and!; reflexivity. }
  exists (beside rest s). split; [by eapply run_beside, schedule_run|]. clear E.
  apply (lookup_union_Some_l _ rest) in H1, H2, H3, H4.
  set (T := {["connection"; "subscribe"; "publish"; "control"]} : gset tid).
  assert (deadlocked control_cap "control" T (beside rest s)) as Hd.
  { intros t Ht. unfold T in Ht. rewrite !elem_of_union, !elem_of_singleton in Ht.
    destruct Ht as [[[->| ->]| ->]| ->]; eexists _, _; (split; [eassumption|]);
      (split; [intros []; simpl; rewrite ?HG, ?HS; set_solver|]); simpl; rewrite ?HG, ?HS.
    - exists [("subscribe", Wr)], [("publish", Rd)]. split_and!; [done|set_solver|].
      right. exists "subscribe". set_solver.
    - exists [], [("connection", Rd); ("publish", Rd)]. split_and!; [done|set_solver|].
      left. exists "connection", Rd. set_solver.
    - exists [("subscribe", Wr); ("connection", Rd)], []. split_and!; [done|set_solver|].
      right. exists "subscribe". set_solver.
    - exists [], []. split_and!; [done|set_solver|]. left. exists "publish", Rd. set_solver. }
  intros s' Hr. pose proof (deadlocked_forever _ _ _ _ _ Hd Hr) as Hstay.
  split_and!; rewrite Hstay by (unfold T; set_solver); assumption.
Qed.

(** ** A full control channel *)

Definition full_tasks : gmap tid Task :=
  {["reader" := [Push]; "subscribe" := subscribing_task; "publish" := publish_task;
    "control" := update_iteration]}.

Definition full_schedule : list tid :=
  ["subscribe"; "publish"; "publish"; "control"; "control"; "reader"].

(** A full control channel can stop the node too, without any connection being set up:
    [subscribe] waits for room in the channel while it holds the write guard on the local
    subscriptions, [publish] waits for that lock while it holds the graph, and the control
    loop, which would make room, waits for the graph. *)
Lemma full_channel_deadlock rest :
  ∃ s, rtc (step control_cap "control") (beside rest (start control_cap full_tasks)) s ∧
  ∀ s', rtc (step control_cap "control") s s' →
    progs s' !! "subscribe" = Some [Push; Unlock Subs Wr] ∧
    progs s' !! "publish" = Some [Lock Subs Rd; Await; Unlock Subs Rd; Unlock Graph Rd] ∧
    progs s' !! "control" = Some [Lock Graph Wr; Unlock Graph Wr; Await].
Proof.
  destruct (schedule control_cap "control" full_schedule (start control_cap full_tasks)) as [s|] eqn:E;
    [|vm_compute in E; discriminate].
  assert (rwlocks s Graph = mkRwLock [("publish", Rd)] [("control", Wr)] ∧
    rwlocks s Subs = mkRwLock [("subscribe", Wr)] [("publish", Rd)] ∧ chan s = control_cap ∧
    progs s !! "subscribe" = Some [Push; Unlock Subs Wr] ∧
    progs s !! "publish" = Some [Lock Subs Rd; Await; Unlock Subs Rd; Unlock Graph Rd] ∧
    progs s !! "control" = Some [Lock Graph Wr; Unlock Graph Wr; Await])
    as (HG & HS & Hc & H2 & H3 & H4).
  { clear -E. vm_compute in E. injection E as <-. split_and!; reflexivity. }
  exists (beside rest s). split; [by eapply run_beside, schedule_run|]. clear E.
  apply (lookup_union_Some_l _ rest) in H2, H3, H4.
  set (T := {["subscribe"; "publish"; "control"]} : gset tid).
  assert (deadlocked control_cap "control" T (beside rest s)) as Hd.
  { intros t Ht. unfold T in Ht. rewrite !elem_of_union, !elem_of_singleton in Ht.
    destruct Ht as [[->| ->]| ->]; eexists _, _; (split; [eassumption|]);
      (split; [intros []; simpl; rewrite ?HG, ?HS; set_solver|]); simpl; rewrite ?HG, ?HS.
    - unfold T. set_solver.
    - exists [], []. split_and!; [done|set_solver|]. left. exists "subscribe", Wr. set_solver.
    - exists [], []. split_and!; [done|set_solver|]. left. exists "publish", Rd. set_solver. }
  intros s' Hr. pose proof (deadlocked_forever _ _ _ _ _ Hd Hr) as Hstay.
  split_and!; rewrite Hstay by (unfold T; set_solver); assumption.
Qed.

(** ** Freedom from deadlock by lock order *)

Definition lock_rank (l : lock) : nat := match l with Graph => 0 | Subs => 1 end.

(** With the guards [h] held, the task takes locks in ascending order, sends and receives
    on the control channel without a guard, and gives every guard back. *)
Fixpoint ordered (h : list (lock * mode)) (p : Task) : bool :=
  match p with
  | [] => bool_decide (h = [])
  | Lock l m :: p' =>
      forallb (λ lm, lock_rank lm.1 <? lock_rank l) h && ordered ((l, m) :: h) p'
  | Unlock l m :: p' => bool_decide ((l, m) ∈ h) && ordered (filter (λ lm, lm ≠ (l, m)) h) p'
  | Push :: p' | Pop :: p' => bool_decide (h = []) && ordered h p'
  | Await :: p' => ordered h p'
  end.

(** The tasks of the node that keep to the order. *)
Definition ordered_tasks : list Task :=
  [publish_task; update_iteration; pong_iteration; other_iteration; debug_task].

Section progress.
Variables (cap : nat) (consumer : tid).
Abbreviation step := (step cap consumer).

Record ordered_sys (s : Sys) : Prop := {
  os_task t p : progs s !! t = Some p → ∃ h, ordered h p = true ∧
    ∀ l m, (t, m) ∈ holders (rwlocks s l) ↔ (l, m) ∈ h;
  os_holder l t m : (t, m) ∈ holders (rwlocks s l) → is_Some (progs s !! t);
  os_guards l : NoDup (holders (rwlocks s l));
  os_waiting l t m : (t, m) ∈ waiting (rwlocks s l) → ∃ p, progs s !! t = Some (Lock l m :: p);
  os_queue l : NoDup (waiting (rwlocks s l)).*1;
}.

Lemma start_ordered n tasks :
  (∀ t p, tasks !! t = Some p → ordered [] p = true) → ordered_sys (start n tasks).
Proof.
  intros Ho. split; simpl; try by (intros; constructor).
  - intros t p Hp. exists []. split; [by eapply Ho|]. set_solver.
  - set_solver.
  - set_solver.
Qed.

(** A task moves on: only its own guards change, and it waits no more. *)
Lemma ordered_moves s s' t p h :
  ordered_sys s → progs s' = <[t := p]> (progs s) →
  ordered h p = true → (∀ l m, (t, m) ∈ holders (rwlocks s' l) ↔ (l, m) ∈ h) →
  (∀ l u m, u ≠ t → (u, m) ∈ holders (rwlocks s' l) ↔ (u, m) ∈ holders (rwlocks s l)) →
  (∀ l, NoDup (holders (rwlocks s' l))) →
  (∀ l u m, (u, m) ∈ waiting (rwlocks s' l) → u ≠ t ∧ (u, m) ∈ waiting (rwlocks s l)) →
  (∀ l, NoDup (waiting (rwlocks s' l)).*1) → ordered_sys s'.
Proof.
  intros [Ht Hh Hg Hw Hq] Hp Ho Hnew Hold Hg' Hw' Hq'. split; try done; rewrite Hp.
  - intros u p'. rewrite lookup_insert. case_decide as Hu.
    + intros [= <-]. subst u. by exists h.
    + intros (hu & Hou & Hhu)%Ht. exists hu. split; [done|]. intros l m.
      by rewrite Hold by auto.
  - intros l u m Hin. rewrite lookup_insert. case_decide as Hu; [by eexists|].
    rewrite Hold in Hin by auto. by eapply Hh.
  - intros l u m [Hu Hin]%Hw'. rewrite lookup_insert_ne by auto. by apply Hw.
Qed.

(** A task that is not asking for a lock, or is not in its queue, waits nowhere. *)
Lemma not_waiting s t i p :
  ordered_sys s → progs s !! t = Some (i :: p) →
  (∀ l m, i = Lock l m → t ∉ (waiting (rwlocks s l)).*1) →
  ∀ l u m, (u, m) ∈ waiting (rwlocks s l) → u ≠ t ∧ (u, m) ∈ waiting (rwlocks s l).
Proof.
  intros Hs Hp Hi l u m Hin. split; [|done]. intros ->.
  destruct (os_waiting _ Hs l t m Hin) as [p' Hp']. rewrite Hp in Hp'. injection Hp' as -> ->.
  apply (Hi l m); [done|]. apply list_elem_of_fmap. by exists (t, m).
Qed.

Lemma elem_of_drop_guard_NoDup x y l : NoDup l → y ∈ drop_guard x l ↔ y ∈ l ∧ y ≠ x.
Proof.
  intros Hnd. induction Hnd as [|z l Hz Hnd IH]; simpl; [set_solver|].
  case_decide as Hzx; [subst; set_solver|]. rewrite !elem_of_cons, IH. naive_solver.
Qed.

Lemma NoDup_drop_guard x l : NoDup l → NoDup (drop_guard x l).
Proof.
  induction 1 as [|z l Hz Hnd IH]; simpl; [constructor|]. case_decide; [done|].
  constructor; [|done]. rewrite elem_of_drop_guard_NoDup by done. naive_solver.
Qed.

(** Taking a guard keeps the order. *)
Lemma ordered_takes s t l m p q :
  ordered_sys s → progs s !! t = Some (Lock l m :: p) →
  (∀ u m', (u, m') ∈ q → u ≠ t ∧ (u, m') ∈ waiting (rwlocks s l)) → NoDup q.*1 →
  (∀ l' u m', l' ≠ l → (u, m') ∈ waiting (rwlocks s l') → u ≠ t) →
  ordered_sys (set_prog t p (set_lock l (mkRwLock ((t, m) :: holders (rwlocks s l)) q) s)).
Proof.
  intros Hs Hp Hq Hnd Hother. destruct (os_task _ Hs t _ Hp) as (h & Ho & Hh).
  simpl in Ho. apply andb_prop in Ho as [Hr Ho].
  assert (∀ m', (t, m') ∉ holders (rwlocks s l)) as Hfree.
  { intros m' Hin%Hh. rewrite forallb_forall in Hr. apply list_elem_of_In, Hr in Hin.
    apply Nat.ltb_lt in Hin. simpl in Hin. lia. }
  apply (ordered_moves s _ t p ((l, m) :: h)); simpl; try done.
  - intros l' m'. case_decide as Hl; [subst l'; simpl|].
    + rewrite !elem_of_cons, Hh. naive_solver.
    + rewrite elem_of_cons, Hh. naive_solver.
  - intros l' u m' Hu. case_decide; [subst l'; simpl|done].
    rewrite elem_of_cons. naive_solver.
  - intros l'. case_decide; [subst l'; simpl|apply (os_guards _ Hs)].
    constructor; [apply Hfree|apply (os_guards _ Hs)].
  - intros l' u m'. case_decide; [subst l'; simpl; apply Hq|]. eauto.
  - intros l'. case_decide; [done|apply (os_queue _ Hs)].
Qed.

Lemma ordered_step s s' : ordered_sys s → step s s' → ordered_sys s'.
Proof.
  intros Hs Hstep. destruct Hstep as [s t l m p Hp Hw Ha|s t l m p Hp Hnw Hw|s t l m p q Hw Ha Hp
    |s t l m p Hp|s t p Hp Hc|s p n Hp Hc|s t p Hp].
  - apply ordered_takes; [done|done|set_solver|constructor|].
    intros l' u m' Hl Hin ->. destruct (os_waiting _ Hs l' t m' Hin) as [p' Hp'].
    rewrite Hp in Hp'. by injection Hp' as ->.
  - destruct Hs as [Ht Hh Hg Hwt Hq]. split; simpl; try done.
    + intros u p' Hu. destruct (Ht u p' Hu) as (h & Ho & Hhu). exists h. split; [done|].
      intros l' m'. case_decide; subst; simpl; apply Hhu.
    + intros l' u m'. case_decide; subst; simpl; apply Hh.
    + intros l'. case_decide; subst; simpl; apply Hg.
    + intros l' u m'. case_decide; [subst l'; simpl|apply Hwt].
      rewrite elem_of_app, list_elem_of_singleton. intros [?|[= -> ->]]; [by apply Hwt|by eauto].
    + intros l'. case_decide; [subst l'; simpl|apply Hq]. rewrite fmap_app. simpl.
      apply NoDup_app. split_and!; [apply Hq|set_solver|apply NoDup_singleton].
  - pose proof (os_queue _ Hs l) as Hnd. rewrite Hw in Hnd. simpl in Hnd.
    apply NoDup_cons in Hnd as [Hnot Hnd]. apply ordered_takes; try done.
    + intros u m' Hin. rewrite Hw. split; [|by right]. intros ->. apply Hnot.
      apply list_elem_of_fmap. by exists (t, m').
    + intros l' u m' Hl Hin ->. destruct (os_waiting _ Hs l' t m' Hin) as [p' Hp'].
      rewrite Hp in Hp'. by injection Hp' as ->.
  - destruct (os_task _ Hs t _ Hp) as (h & Ho & Hh). simpl in Ho.
    apply andb_prop in Ho as [_ Ho].
    apply (ordered_moves s _ t p (filter (λ lm, lm ≠ (l, m)) h)); simpl; try done.
    + intros l' m'. rewrite list_elem_of_filter. case_decide as Hl; [subst l'; simpl|].
      * rewrite elem_of_drop_guard_NoDup, Hh by apply (os_guards _ Hs). naive_solver.
      * rewrite Hh. naive_solver.
    + intros l' u m' Hu. case_decide; [subst l'; simpl|done].
      rewrite elem_of_drop_guard_NoDup by apply (os_guards _ Hs). naive_solver.
    + intros l'. case_decide; [simpl; apply NoDup_drop_guard|]; apply (os_guards _ Hs).
    + intros l' u m'. case_decide; [subst l'; simpl|]; by eapply not_waiting.
    + intros l'. case_decide; [subst l'; simpl|]; apply (os_queue _ Hs).
  - destruct (os_task _ Hs t _ Hp) as (h & Ho & Hh). simpl in Ho.
    apply andb_prop in Ho as [_ Ho].
    apply (ordered_moves s _ t p h); simpl; try done; [apply (os_guards _ Hs)| |apply (os_queue _ Hs)].
    by eapply not_waiting.
  - destruct (os_task _ Hs consumer _ Hp) as (h & Ho & Hh). simpl in Ho.
    apply andb_prop in Ho as [_ Ho].
    apply (ordered_moves s _ consumer p h); simpl; try done;
      [apply (os_guards _ Hs)| |apply (os_queue _ Hs)].
    by eapply not_waiting.
  - destruct (os_task _ Hs t _ Hp) as (h & Ho & Hh). simpl in Ho.
    apply (ordered_moves s _ t p h); simpl; try done; [apply (os_guards _ Hs)| |apply (os_queue _ Hs)].
    by eapply not_waiting.
Qed.

(** A task that holds a guard on [l] can move, unless it waits for a later lock. *)
Lemma holder_moves s l u m :
  ordered_sys s → (u, m) ∈ holders (rwlocks s l) →
  (∀ l', lock_rank l < lock_rank l' → waiting (rwlocks s l') = []) → ∃ s', step s s'.
Proof.
  intros Hs Hu Hlater. destruct (os_holder _ Hs l u m Hu) as [p Hp].
  destruct (os_task _ Hs u p Hp) as (h & Ho & Hh). apply Hh in Hu.
  destruct p as [|[l' m'|l' m'| | |] p]; simpl in Ho;
    repeat match goal with H : _ && _ = true |- _ => apply andb_prop in H as [? ?] end;
    try (match goal with H : bool_decide (h = []) = true |- _ =>
      apply bool_decide_eq_true in H; subst h; by apply elem_of_nil in Hu end).
  - match goal with H : forallb _ _ = true |- _ => rename H into Hr end.
    rewrite forallb_forall in Hr. apply list_elem_of_In, Hr, Nat.ltb_lt in Hu. simpl in Hu.
    specialize (Hlater l' Hu). destruct (admissible m' (rwlocks s l')) eqn:Ha.
    + eexists. by eapply step_lock.
    + eexists. eapply step_enqueue; [done| |by right]. rewrite Hlater. apply not_elem_of_nil.
  - eexists. by eapply step_unlock.
  - eexists. by eapply step_await.
Qed.

Lemma waiting_moves s l :
  ordered_sys s → waiting (rwlocks s l) ≠ [] →
  (∀ l', lock_rank l < lock_rank l' → waiting (rwlocks s l') = []) → ∃ s', step s s'.
Proof.
  intros Hs Hne Hlater. destruct (waiting (rwlocks s l)) as [|[t m] q] eqn:Hw; [done|].
  destruct (os_waiting _ Hs l t m) as [p Hp]; [rewrite Hw; by left|].
  destruct (admissible m (rwlocks s l)) eqn:Ha; [eexists; by eapply step_grant|].
  unfold admissible in Ha. destruct (holders (rwlocks s l)) as [|[u mu] hs] eqn:Hh; [done|].
  eapply (holder_moves s l u mu); [done| |done]. rewrite Hh. by left.
Qed.

(** C27. The lock order graph before subscriptions, with the control channel used without a
    guard, rules out deadlock: in every run of any number of tasks that keep to it, as long
    as a task waits for a lock some task can move.  [publish], every iteration of the control
    loop and [print_debug_info] keep to it; [handle_new_connection] and [subscribe] do not. *)
Theorem ordered_tasks_progress :
  Forall (λ p, ordered [] p = true) ordered_tasks ∧
  ordered [] connection_task = false ∧ ordered [] subscribing_task = false ∧
  ∀ n tasks s, (∀ t p, tasks !! t = Some p → ordered [] p = true) →
    rtc step (start n tasks) s → (∃ l, waiting (rwlocks s l) ≠ []) → ∃ s', step s s'.
Proof.
  split; [by repeat constructor|]. split; [done|]. split; [done|]. intros n tasks s Htasks Hr Hl.
  assert (ordered_sys s) as Hs.
  { refine (rtc_ind_r (λ x, ordered_sys x) (start n tasks) _ _ s Hr); [by apply start_ordered|].
    intros x y _ Hstep Hx. by eapply ordered_step. }
  destruct (decide (waiting (rwlocks s Subs) = [])) as [Hsubs|Hsubs].
  - destruct Hl as [[] Hl]; [|done]. eapply (waiting_moves s Graph); [done|done|].
    intros []; simpl; [lia|done].
  - eapply (waiting_moves s Subs); [done|done|]. intros []; simpl; lia.
Qed.
End progress.

(** A publish call and the control loop, which waits for it. *)
Lemma ordered_tasks_progress_witness :
  ∃ s s', rtc (step control_cap "control")
      (start 1 {["publish" := publish_task; "control" := update_iteration]}) s ∧
    waiting (rwlocks s Graph) = [("control", Wr)] ∧ step control_cap "control" s s'.
Proof.
  destruct (schedule control_cap "control" ["publish"; "control"; "control"]
    (start 1 {["publish" := publish_task; "control" := update_iteration]})) as [s|] eqn:E;
    [|vm_compute in E; discriminate E].
  assert (waiting (rwlocks s Graph) = [("control", Wr)]) as Hw
    by (vm_compute in E; injection E as <-; reflexivity).
  pose proof (schedule_run _ _ _ _ _ E) as Hr.
  destruct (proj2 (proj2 (proj2 (ordered_tasks_progress control_cap "control"))) 1
    {["publish" := publish_task; "control" := update_iteration]} s) as [s' Hs'].
  - intros t p. rewrite lookup_insert. case_decide; [intros [= <-]; reflexivity|].
    intros [_ <-]%lookup_singleton_Some. reflexivity.
  - exact Hr.
  - exists Graph. rewrite Hw. discriminate.
  - exists s, s'. split; [exact Hr|]. split; [exact Hw|exact Hs'].
Defined.
