(* ===== verification/Discovery.v ===== *)
(** * The discovery table

    [RoutingTable] of [stric-flow/src/discovery.rs].  SHA-256 is the parameter
    [sha256]; nothing is assumed of it but that a hash has 32 bytes.  Sorting is
    stable, as [sort_by] documents. *)
From S2P Require Import Prelude Proto Frame.
From stdpp Require Import sorting options.

Definition K : nat := 20.

(** ** Helpers *)

Definition byte_xor (a b : Byte.byte) : Byte.byte := byte_of (N.lxor (Byte.to_N a) (Byte.to_N b)).

Definition xor_distance (a b : bytes) : bytes := zip_with byte_xor a b.

(** [u8::leading_zeros]. *)
Definition byte_leading_zeros (b : Byte.byte) : nat := 8 - N.size_nat (Byte.to_N b).

Fixpoint leading_zeros (bs : bytes) : nat :=
  match bs with
  | [] => 0
  | b :: bs' =>
      if decide (b = Byte.x00) then 8 + leading_zeros bs' else byte_leading_zeros b
  end.

(** [Ord] for [[u8; 32]]: lexicographic. *)
Fixpoint bytes_cmp (a b : bytes) : comparison :=
  match a, b with
  | [], [] => Eq
  | [], _ => Lt
  | _, [] => Gt
  | x :: a', y :: b' =>
      match N.compare (Byte.to_N x) (Byte.to_N y) with
      | Eq => bytes_cmp a' b'
      | c => c
      end
  end.

(** A stable [sort_by]. *)
Section sort_by.
Context {A : Type} (cmp : A → A → comparison).

Fixpoint sort_insert (x : A) (l : list A) : list A :=
  match l with
  | [] => [x]
  | y :: l' => match cmp x y with Gt => y :: sort_insert x l' | _ => x :: l end
  end.

Fixpoint sort_by (l : list A) : list A :=
  match l with
  | [] => []
  | x :: l' => sort_insert x (sort_by l')
  end.
End sort_by.

Section table.
Context (SocketAddr : Type) (sha256 : string → bytes).

Record NodeInfo := mkNodeInfo { node_id : string; addr : SocketAddr }.

Abbreviation KBucket := (list NodeInfo).

Record RoutingTable := mkRoutingTable {
  local_node_id : string;
  local_hash : bytes;
  buckets : list KBucket;
}.

Definition new_table (id : string) : RoutingTable :=
  mkRoutingTable id (sha256 id) (replicate 256 []).

Definition bucket_index (t : RoutingTable) (id : string) : nat :=
  let dist := xor_distance (local_hash t) (sha256 id) in
  let bucket_idx := leading_zeros dist in
  if decide (256 <= bucket_idx) then 255 else bucket_idx.

(** [bucket.nodes.iter().position(..)], then [remove] and [push], or [push]. *)
Definition bucket_update (id : string) (a : SocketAddr) (b : KBucket) : KBucket :=
  match list_find (λ n, node_id n = id) b with
  | Some (pos, node) => delete pos b ++ [node]
  | None => if decide (length b < K) then b ++ [mkNodeInfo id a] else b
  end.

(** [&mut self.buckets[idx]] panics when there is no such bucket. *)
Definition on_bucket (i : nat) (f : KBucket → KBucket) (t : RoutingTable) :
    outcome RoutingTable :=
  match buckets t !! i with
  | Some b => Ret (mkRoutingTable (local_node_id t) (local_hash t) (<[i := f b]> (buckets t)))
  | None => Panic
  end.

Definition update (id : string) (a : SocketAddr) (t : RoutingTable) : outcome RoutingTable :=
  if decide (id = local_node_id t) then Ret t
  else on_bucket (bucket_index t id) (bucket_update id a) t.

Definition remove (id : string) (t : RoutingTable) : outcome RoutingTable :=
  on_bucket (bucket_index t id) (filter (λ n, node_id n ≠ id)) t.

Definition find_closest_nodes (target_id : string) (count : nat) (t : RoutingTable) :
    list NodeInfo :=
  let target_hash := sha256 target_id in
  let candidates := bucket ← buckets t;
    (λ node, (node, xor_distance target_hash (sha256 (node_id node)))) <$> bucket in
  fst <$> take count (sort_by (λ a b, bytes_cmp a.2 b.2) candidates).

(** ** The invariant *)

Definition contacts (t : RoutingTable) : list NodeInfo := mjoin (buckets t).

Record table_wf (t : RoutingTable) : Prop := {
  wf_buckets : length (buckets t) = 256;
  wf_capacity b : b ∈ buckets t → length b <= K;
  wf_place i b n : buckets t !! i = Some b → n ∈ b → bucket_index t (node_id n) = i;
  wf_distinct b : b ∈ buckets t → NoDup (node_id <$> b);
  wf_not_local n : n ∈ contacts t → node_id n ≠ local_node_id t;
}.

Definition known (t : RoutingTable) (id : string) : Prop := id ∈ node_id <$> contacts t.

Definition distance (target_id : string) (n : NodeInfo) : N :=
  u32_from_be (xor_distance (sha256 target_id) (sha256 (node_id n))).
End table.
