(* ===== verification/DiscoveryFacts.v ===== *)
(** * Facts about the discovery table

    XOR distances as numbers, the sort, the table's invariant under [update] and
    [remove], and what [find_closest_nodes] returns. *)
From S2P Require Import Prelude Proto Frame FrameFacts Discovery.
From stdpp Require Import sorting options.

(** ** Distances as numbers *)

Lemma from_be_acc acc l :
  foldl (λ acc b, (acc * 256 + Byte.to_N b)%N) acc l =
  (acc * 256 ^ N.of_nat (length l) + u32_from_be l)%N.
Proof.
  revert acc. induction l as [|x l IH]; intros acc; cbn [foldl length].
  - change (256 ^ N.of_nat 0)%N with 1%N. unfold u32_from_be. simpl. lia.
  - unfold u32_from_be. cbn [foldl]. rewrite !IH, Nat2N.inj_succ, N.pow_succ_r'. lia.
Qed.

Lemma from_be_cons x l :
  u32_from_be (x :: l) = (Byte.to_N x * 256 ^ N.of_nat (length l) + u32_from_be l)%N.
Proof. unfold u32_from_be at 1. cbn [foldl]. rewrite from_be_acc. lia. Qed.

Lemma from_be_bound l : (u32_from_be l < 256 ^ N.of_nat (length l))%N.
Proof.
  induction l as [|x l IH]; [done|]. rewrite from_be_cons.
  pose proof (Byte.to_N_bounded x). cbn [length]. rewrite Nat2N.inj_succ, N.pow_succ_r'. nia.
Qed.

(** The order of the arrays is the order of the numbers they spell. *)
Lemma bytes_cmp_value a b :
  length a = length b → bytes_cmp a b = N.compare (u32_from_be a) (u32_from_be b).
Proof.
  revert b. induction a as [|x a IH]; intros [|y b] Hl; try done.
  injection Hl as Hl. cbn [bytes_cmp]. rewrite IH by done. rewrite !from_be_cons, Hl.
  pose proof (from_be_bound a) as Ha. pose proof (from_be_bound b) as Hb. rewrite Hl in Ha.
  generalize dependent (256 ^ N.of_nat (length b))%N. intros B Ha Hb.
  destruct (N.compare_spec (Byte.to_N x) (Byte.to_N y)) as [He|He|He].
  - rewrite He. destruct (N.compare_spec (u32_from_be a) (u32_from_be b)); symmetry;
      [apply N.compare_eq_iff|apply N.compare_lt_iff|apply N.compare_gt_iff]; lia.
  - symmetry. apply N.compare_lt_iff. nia.
  - symmetry. apply N.compare_gt_iff. nia.
Qed.

(** ** Sorting *)

Lemma StronglySorted_take {A} (f : A → N) n (l : list A) :
  StronglySorted (λ a b, (f a <= f b)%N) l →
  StronglySorted (λ a b, (f a <= f b)%N) (take n l) ∧
  ∀ a b, a ∈ take n l → b ∈ drop n l → (f a <= f b)%N.
Proof.
  intros Hs. revert n. induction Hs as [|x l Hs IH Hx]; intros [|n]; simpl;
    try (split; [constructor|set_solver]).
  destruct (IH n) as [H1 H2]. split.
  - constructor; [done|]. by apply Forall_take.
  - intros a b [->|Ha]%elem_of_cons Hb; [|by apply H2].
    rewrite Forall_forall in Hx. apply Hx.
    rewrite <- (take_drop n l). set_solver.
Qed.
Section sort.
Context {A : Type} (cmp : A → A → comparison) (f : A → N) (P : A → Prop).
Hypothesis Hcmp : ∀ a b, P a → P b → cmp a b = N.compare (f a) (f b).
Implicit Types l : list A.

Lemma sort_insert_perm x l : sort_insert cmp x l ≡ₚ x :: l.
Proof.
  induction l as [|y l IH]; simpl; [done|]. destruct (cmp x y); try done.
  rewrite IH. constructor.
Qed.

Lemma sort_by_perm l : sort_by cmp l ≡ₚ l.
Proof. induction l as [|x l IH]; simpl; [done|]. by rewrite sort_insert_perm, IH. Qed.

Lemma sort_insert_sorted x l :
  P x → Forall P l → StronglySorted (λ a b, (f a <= f b)%N) l →
  StronglySorted (λ a b, (f a <= f b)%N) (sort_insert cmp x l).
Proof using Hcmp.
  intros Hx HP Hs. induction Hs as [|y l Hs IH Hy]; simpl; [by repeat constructor|].
  inversion HP; subst. rewrite Hcmp by done.
  destruct (N.compare_spec (f x) (f y)) as [He|He|He].
  - constructor; [by constructor|]. constructor; [lia|].
    eapply Forall_impl; [exact Hy|]. simpl. lia.
  - constructor; [by constructor|]. constructor; [lia|].
    eapply Forall_impl; [exact Hy|]. simpl. lia.
  - constructor; [by apply IH|]. rewrite sort_insert_perm. constructor; [lia|done].
Qed.

Lemma sort_by_sorted l :
  Forall P l → StronglySorted (λ a b, (f a <= f b)%N) (sort_by cmp l).
Proof using Hcmp.
  induction 1 as [|x l Hx HP IH]; simpl; [constructor|].
  apply sort_insert_sorted; [done| |done]. by rewrite sort_by_perm.
Qed.

End sort.

(** ** The table *)

Section table.
#[local] Set Default Proof Using "All".
Context (SocketAddr : Type) (sha256 : string → bytes).

Abbreviation RoutingTable := (RoutingTable SocketAddr).
Abbreviation NodeInfo := (NodeInfo SocketAddr).
Abbreviation bucket_index := (bucket_index SocketAddr sha256).
Abbreviation table_wf := (table_wf SocketAddr sha256).
Abbreviation node_id := (node_id SocketAddr).
Abbreviation contacts := (contacts SocketAddr).
Abbreviation buckets := (buckets SocketAddr).
Abbreviation update := (update SocketAddr sha256).
Abbreviation remove := (Discovery.remove SocketAddr sha256).
Abbreviation bucket_update := (bucket_update SocketAddr).
Implicit Types (t : RoutingTable) (b : list NodeInfo).

Lemma bucket_index_bound t id : bucket_index t id < 256.
Proof. unfold Discovery.bucket_index. case_decide; lia. Qed.

Lemma elem_of_contacts t n : n ∈ contacts t ↔ ∃ i b, buckets t !! i = Some b ∧ n ∈ b.
Proof.
  unfold Discovery.contacts. rewrite list_elem_of_join. split.
  - intros (b & Hn & Hb). apply list_elem_of_lookup in Hb as [i Hi]. eauto.
  - intros (i & b & Hi & Hn). apply list_elem_of_lookup_2 in Hi. eauto.
Qed.

Lemma bucket_exists t id : table_wf t → is_Some (buckets t !! bucket_index t id).
Proof. intros Hwf. apply lookup_lt_is_Some. rewrite (wf_buckets _ _ t Hwf). apply bucket_index_bound. Qed.

(** A known node is in the bucket of its index. *)
Lemma known_in_bucket t b n :
  table_wf t → buckets t !! bucket_index t (node_id n) = Some b → n ∈ contacts t ↔ n ∈ b.
Proof.
  intros Hwf Hb. rewrite elem_of_contacts. split; [|eauto].
  intros (i & b' & Hi & Hn). pose proof (wf_place _ _ t Hwf _ _ _ Hi Hn) as <-. naive_solver.
Qed.

(** A change of one bucket that respects the placement keeps the invariant. *)
Lemma on_bucket_wf t i b f :
  table_wf t → buckets t !! i = Some b → length (f b) <= K → NoDup (node_id <$> f b) →
  (∀ n, n ∈ f b → bucket_index t (node_id n) = i ∧ node_id n ≠ local_node_id SocketAddr t) →
  ∃ t', on_bucket SocketAddr i f t = Ret t' ∧ table_wf t' ∧
    (∀ id, bucket_index t' id = bucket_index t id) ∧ buckets t' !! i = Some (f b) ∧
    local_node_id SocketAddr t' = local_node_id SocketAddr t ∧
    ∀ n, n ∈ contacts t' ↔ n ∈ f b ∨ n ∉ b ∧ n ∈ contacts t.
Proof.
  intros Hwf Hi Hlen Hnd Hplace. unfold on_bucket. rewrite Hi. eexists. split; [done|].
  pose proof (lookup_lt_Some _ _ _ Hi) as Hlt.
  assert (∀ n, n ∈ mjoin (<[i := f b]> (buckets t)) ↔ n ∈ f b ∨ n ∉ b ∧ n ∈ contacts t) as Hin.
  { intros n. rewrite list_elem_of_join. split.
    - intros (b' & Hn & Hb'). apply list_elem_of_lookup in Hb' as [j Hj].
      rewrite list_lookup_insert in Hj. case_decide; [naive_solver|]. right. split.
      + intros Hnb. pose proof (wf_place _ _ t Hwf _ _ _ Hi Hnb).
        pose proof (wf_place _ _ t Hwf _ _ _ Hj Hn). naive_solver.
      + apply elem_of_contacts. eauto.
    - intros [Hn|[Hnb (j & b' & Hj & Hn)%elem_of_contacts]].
      + exists (f b). split; [done|]. apply (list_elem_of_lookup_2 _ i).
        by apply list_lookup_insert_eq.
      + exists b'. split; [done|]. apply (list_elem_of_lookup_2 _ j).
        rewrite list_lookup_insert_ne; [done|]. naive_solver. }
  split_and!; try done; simpl.
  - split; simpl.
    + rewrite length_insert. apply (wf_buckets _ _ t Hwf).
    + intros b' Hb'. apply elem_of_list_insert_inv in Hb' as [->|Hb']; [done|].
      by apply (wf_capacity _ _ t Hwf).
    + intros j b' n Hj Hn. rewrite list_lookup_insert in Hj. case_decide as Hd.
      * destruct Hd as [<- _]. injection Hj as <-. by apply Hplace.
      * by eapply (wf_place _ _ t Hwf).
    + intros b' Hb'. apply elem_of_list_insert_inv in Hb' as [->|Hb']; [done|].
      by apply (wf_distinct _ _ t Hwf).
    + intros n Hn. unfold Discovery.contacts in Hn. simpl in Hn. apply Hin in Hn as [Hn|[_ Hn]].
      * by apply Hplace.
      * by apply (wf_not_local _ _ t Hwf).
  - by apply list_lookup_insert_eq.
Qed.

(** *** One bucket *)

Lemma bucket_update_spec id a b :
  NoDup (node_id <$> b) → length b <= K →
  (id ∈ node_id <$> b ∧ bucket_update id a b ≡ₚ b ∧
     ∃ n, last (bucket_update id a b) = Some n ∧ node_id n = id) ∨
  (id ∉ node_id <$> b ∧ length b < K ∧ bucket_update id a b = b ++ [mkNodeInfo _ id a]) ∨
  (id ∉ node_id <$> b ∧ length b = K ∧ bucket_update id a b = b).
Proof.
  intros Hnd Hlen. unfold Discovery.bucket_update.
  destruct (list_find _ b) as [[pos n]|] eqn:Ef.
  - apply list_find_Some in Ef as (Hp & Hid & _). left. split_and!.
    + rewrite <- Hid. apply list_elem_of_fmap_2. by eapply list_elem_of_lookup_2.
    + rewrite Permutation_app_comm. simpl. symmetry. by apply delete_Permutation.
    + exists n. by rewrite last_snoc.
  - apply list_find_None in Ef. right.
    assert (id ∉ node_id <$> b) as Hnot.
    { intros (n & -> & Hn)%list_elem_of_fmap. rewrite Forall_forall in Ef. by apply (Ef n). }
    case_decide; [by left|]. right. split_and!; try done. lia.
Qed.

Lemma bucket_update_keeps id a b :
  NoDup (node_id <$> b) → length b <= K →
  length (bucket_update id a b) <= K ∧ NoDup (node_id <$> bucket_update id a b) ∧
  ∀ n, n ∈ bucket_update id a b ↔
    n ∈ b ∨ n = mkNodeInfo _ id a ∧ id ∉ node_id <$> b ∧ length b < K.
Proof.
  intros Hnd Hlen.
  destruct (bucket_update_spec id a b Hnd Hlen) as [(Hin & Hp & _)|[(Hnot & Hlt & ->)|(Hnot & Heq & ->)]].
  - rewrite Hp. split_and!; try done. intros n. rewrite Hp. naive_solver.
  - rewrite length_app, fmap_app. simpl. split_and!; [lia| |].
    + apply NoDup_app. split_and!; [done|set_solver|apply NoDup_singleton].
    + intros n. rewrite elem_of_app, list_elem_of_singleton. naive_solver.
  - split_and!; try done. intros n. split; [by left|]. intros [|(_ & _ & ?)]; [done|lia].
Qed.

Lemma update_spec id a t :
  table_wf t →
  ∃ t', update id a t = Ret t' ∧ table_wf t' ∧
    (∀ n, n ∈ contacts t' ↔ n ∈ contacts t ∨
      n = mkNodeInfo _ id a ∧ id ≠ local_node_id SocketAddr t ∧
      ¬ known SocketAddr t id ∧
      ∃ b, buckets t !! bucket_index t id = Some b ∧ length b < K) ∧
    (known SocketAddr t' id → ∃ b n,
      buckets t' !! bucket_index t' id = Some b ∧ last b = Some n ∧ node_id n = id).
Proof.
  intros Hwf. unfold Discovery.update. case_decide as Hl.
  { exists t. split_and!; try done; [naive_solver|].
    intros (n & Hid & Hn)%list_elem_of_fmap.
    destruct (wf_not_local _ _ t Hwf n Hn). congruence. }
  destruct (bucket_exists t id Hwf) as [b Hb].
  apply list_elem_of_lookup_2 in Hb as Hbin.
  pose proof (wf_distinct _ _ t Hwf b Hbin) as Hnd. pose proof (wf_capacity _ _ t Hwf b Hbin) as Hcap.
  destruct (bucket_update_keeps id a b Hnd Hcap) as (Hlen' & Hnd' & Hin').
  destruct (on_bucket_wf t _ b (bucket_update id a) Hwf Hb Hlen' Hnd') as (t' & Et & Hwf' & Hidx & Hb' & _ & Hc).
  { intros n Hn. apply Hin' in Hn as [Hn|(-> & _)]; [|done]. split.
    - by eapply (wf_place _ _ t Hwf).
    - apply (wf_not_local _ _ t Hwf). apply elem_of_contacts. eauto. }
  assert (known SocketAddr t id ↔ id ∈ node_id <$> b) as Hk.
  { unfold known. rewrite !list_elem_of_fmap. split; intros (n & Hid & Hn); exists n;
      (split; [done|]); (apply (known_in_bucket t b n); [done|by rewrite <- Hid|done]). }
  exists t'. split_and!; try done.
  - intros n. rewrite Hc, Hin', Hk. split.
    + intros [[Hn|(-> & Hnot & Hlt)]|[_ Hn]]; [left|right; eauto 10|by left].
      apply elem_of_contacts. eauto.
    + intros [Hn|(-> & _ & Hnot & b0 & Hb0 & Hlt)].
      * destruct (decide (bucket_index t (node_id n) = bucket_index t id)) as [He|Hne].
        -- left. left. rewrite <- He in Hb. by apply (known_in_bucket t b n).
        -- right. split; [|done]. intros Hnb. apply Hne. by eapply (wf_place _ _ t Hwf).
      * left. right. naive_solver.
  - intros (n & Hid & Hn)%list_elem_of_fmap. exists (bucket_update id a b). rewrite Hidx.
    subst id. apply (known_in_bucket t' (bucket_update (node_id n) a b)) in Hn; [|done|by rewrite Hidx].
    destruct (bucket_update_spec (node_id n) a b Hnd Hcap)
      as [(_ & _ & m & Hm & Hid)|[(_ & _ & Heq)|(Hnot & _ & Heq)]].
    + by exists m.
    + rewrite Heq. eexists. split_and!; [congruence|apply last_snoc|done].
    + rewrite Heq in Hn. destruct Hnot. by apply list_elem_of_fmap_2.
Qed.

Lemma remove_spec id t :
  table_wf t →
  ∃ t', remove id t = Ret t' ∧ table_wf t' ∧
    ∀ n, n ∈ contacts t' ↔ n ∈ contacts t ∧ node_id n ≠ id.
Proof.
  intros Hwf. unfold Discovery.remove. destruct (bucket_exists t id Hwf) as [b Hb].
  apply list_elem_of_lookup_2 in Hb as Hbin.
  pose proof (wf_distinct _ _ t Hwf b Hbin) as Hnd. pose proof (wf_capacity _ _ t Hwf b Hbin) as Hcap.
  destruct (on_bucket_wf t _ b (filter (λ n, node_id n ≠ id)) Hwf Hb) as (t' & Et & Hwf' & _ & _ & _ & Hc).
  - pose proof (length_filter (λ n, node_id n ≠ id) b). lia.
  - eapply sublist_NoDup; [exact Hnd|]. apply fmap_sublist, sublist_filter.
  - intros n [_ Hn]%list_elem_of_filter. split; [by eapply (wf_place _ _ t Hwf)|].
    apply (wf_not_local _ _ t Hwf). apply elem_of_contacts. eauto.
  - exists t'. split_and!; try done. intros n. rewrite Hc, list_elem_of_filter. split.
    + intros [[Hne Hn]|[Hnb Hn]].
      * split; [|done]. apply elem_of_contacts. eauto.
      * split; [done|]. intros <-. apply Hnb. by apply (known_in_bucket t b).
    + intros [Hn Hne]. destruct (decide (bucket_index t (node_id n) = bucket_index t id)) as [He|He].
      * left. split; [done|]. rewrite <- He in Hb. by apply (known_in_bucket t b).
      * right. split; [|done]. intros Hnb. apply He. by eapply (wf_place _ _ t Hwf).
Qed.

Lemma new_table_wf id : table_wf (new_table SocketAddr sha256 id).
Proof.
  assert (∀ i b, replicate 256 ([] : list NodeInfo) !! i = Some b → b = []) as He.
  { intros i b [-> _]%lookup_replicate. done. }
  split; cbn [Discovery.buckets new_table].
  - apply length_replicate.
  - intros b [i Hi]%list_elem_of_lookup. apply He in Hi as ->. simpl. lia.
  - intros i b n Hi Hn. apply He in Hi as ->. set_solver.
  - intros b [i Hi]%list_elem_of_lookup. apply He in Hi as ->. constructor.
  - intros n (i & b & Hi & Hn)%elem_of_contacts. apply He in Hi as ->. set_solver.
Qed.

(** C30. The discovery table keeps its shape: 256 buckets of at most [K] contacts,
    every contact in the bucket of its XOR distance, no identifier twice and never
    the node itself.  Updating never indexes out of range; it adds a contact exactly
    when it is new, not the node itself and its bucket has room, loses nobody, and
    leaves the contact last (most recently seen) in its bucket.  A contact that is
    already known keeps its old address.  A new contact for a full bucket is dropped, whether or
    not the oldest one still answers (RFC 2026-0008 has it pinged, and evicted when it does not). *)
Theorem routing_table_update id a t :
  table_wf t →
  ∃ t', update id a t = Ret t' ∧ table_wf t' ∧
    (∀ n, n ∈ contacts t' ↔ n ∈ contacts t ∨
      n = mkNodeInfo _ id a ∧ id ≠ local_node_id SocketAddr t ∧
      ¬ known SocketAddr t id ∧
      ∃ b, buckets t !! bucket_index t id = Some b ∧ length b < K) ∧
    (known SocketAddr t' id → ∃ b n,
      buckets t' !! bucket_index t' id = Some b ∧ last b = Some n ∧ node_id n = id).
Proof. apply update_spec. Qed.

(** Removing a node from the discovery table never indexes out of range, keeps
    the table's shape and removes exactly the contacts with that identifier. *)
Lemma routing_table_remove id t :
  table_wf t →
  ∃ t', remove id t = Ret t' ∧ table_wf t' ∧
    ∀ n, n ∈ contacts t' ↔ n ∈ contacts t ∧ node_id n ≠ id.
Proof. apply remove_spec. Qed.
End table.

(** ** Closest nodes *)

Section closest.
#[local] Set Default Proof Using "Type*".
Context (SocketAddr : Type) (sha256 : string → bytes).
Hypothesis sha_len : ∀ s, length (sha256 s) = 32.

Abbreviation dist target n := (distance SocketAddr sha256 target n).

Lemma closest_spec target count t :
  let found := find_closest_nodes SocketAddr sha256 target count t in
  ∃ others, found ++ others ≡ₚ contacts SocketAddr t ∧
    length found = min count (length (contacts SocketAddr t)) ∧
    StronglySorted (λ a b, (dist target a <= dist target b)%N) found ∧
    ∀ a b, a ∈ found → b ∈ others → (dist target a <= dist target b)%N.
Proof.
  intros found.
  set (d := λ node, xor_distance (sha256 target) (sha256 (node_id SocketAddr node))).
  set (cands := bucket ← buckets SocketAddr t; (λ node, (node, d node)) <$> bucket).
  assert (cands = (λ node, (node, d node)) <$> contacts SocketAddr t) as Hc.
  { unfold cands, contacts. induction (buckets SocketAddr t) as [|b bs IH]; simpl; [done|].
    by rewrite fmap_app, <- IH. }
  set (f := λ x : NodeInfo SocketAddr * bytes, u32_from_be x.2).
  set (sorted := sort_by (λ a b, bytes_cmp a.2 b.2) cands).
  assert (found = fst <$> take count sorted) as -> by reflexivity.
  assert (StronglySorted (λ a b, (f a <= f b)%N) sorted) as Hs.
  { apply (sort_by_sorted _ f (λ x, length x.2 = 32)).
    - intros a b Ha Hb. apply bytes_cmp_value. congruence.
    - rewrite Hc. apply Forall_fmap, Forall_true. intros n. simpl. unfold d, xor_distance.
      by rewrite length_zip_with, !sha_len. }
  assert (sorted ≡ₚ cands) as Hp by apply sort_by_perm.
  assert (∀ x, x ∈ sorted → f x = dist target x.1) as Hf.
  { intros x. rewrite Hp, Hc. by intros (n & -> & _)%list_elem_of_fmap. }
  destruct (StronglySorted_take f count sorted Hs) as [Hs1 Hs2].
  exists (fst <$> drop count sorted). split_and!.
  - rewrite <- fmap_app, take_drop, Hp, Hc, <- list_fmap_compose. simpl.
    by rewrite list_fmap_id.
  - rewrite length_fmap, length_take, Hp, Hc, length_fmap. done.
  - assert (∀ x, x ∈ take count sorted → f x = dist target x.1) as Hft.
    { intros x Hx. apply Hf. rewrite <- (take_drop count sorted). set_solver. }
    clear -Hs1 Hft. induction Hs1 as [|x l Hs IH Hx]; simpl; constructor.
    + apply IH. set_solver.
    + apply Forall_fmap. rewrite Forall_forall in Hx |- *. intros y Hy. simpl.
      rewrite <- !Hft by set_solver. by apply Hx.
  - intros a b (x & -> & Hx)%list_elem_of_fmap (y & -> & Hy)%list_elem_of_fmap.
    rewrite <- !Hf; [by apply Hs2| |]; rewrite <- (take_drop count sorted); set_solver.
Qed.

(** C28. [find_closest_nodes] returns as many contacts as asked for, or all of them,
    in ascending order of their XOR distance to the target, and no contact it
    leaves out is closer than one it returns. *)
Theorem find_closest_nodes_closest target count t :
  let found := find_closest_nodes SocketAddr sha256 target count t in
  ∃ others, found ++ others ≡ₚ contacts SocketAddr t ∧
    length found = min count (length (contacts SocketAddr t)) ∧
    StronglySorted (λ a b, (dist target a <= dist target b)%N) found ∧
    ∀ a b, a ∈ found → b ∈ others → (dist target a <= dist target b)%N.
Proof. apply closest_spec. Qed.
End closest.

(** ** Concrete tables *)

(** A hash for concrete inputs: the name's bytes, padded or cut to 32. *)
Definition pad_hash (s : string) : bytes := take 32 (String.list_byte_of_string s ++ replicate 32 Byte.x00).

Lemma pad_hash_length s : length (pad_hash s) = 32.
Proof. unfold pad_hash. rewrite length_take, length_app, length_replicate. lia. Qed.

Lemma routing_table_update_witness :
  ∃ t', update N pad_hash "peer1" 8001%N (new_table N pad_hash "local") = Ret t' ∧
    table_wf N pad_hash t' ∧ mkNodeInfo N "peer1" 8001%N ∈ contacts N t'.
Proof.
  destruct (routing_table_update N pad_hash "peer1" 8001%N (new_table N pad_hash "local")
    (new_table_wf N pad_hash "local")) as (t' & H1 & H2 & _).
  exists t'. split; [exact H1|]. split; [exact H2|].
  vm_compute in H1. injection H1 as <-. apply (elem_of_contacts N pad_hash).
  exists 3; eexists. split; [vm_compute; reflexivity|]. left.
Defined.

Lemma routing_table_remove_witness :
  ∃ t', Discovery.remove N pad_hash "peer1" (new_table N pad_hash "local") = Ret t' ∧
    table_wf N pad_hash t'.
Proof.
  destruct (routing_table_remove N pad_hash "peer1" (new_table N pad_hash "local")
    (new_table_wf N pad_hash "local")) as (t' & H1 & H2 & _).
  exists t'. split; [exact H1|exact H2].
Defined.

Lemma find_closest_nodes_closest_witness :
  let t := mkRoutingTable N "local" (pad_hash "local")
    [[mkNodeInfo N "peer2" 2%N; mkNodeInfo N "peer1" 1%N]] in
  ∃ others, find_closest_nodes N pad_hash "peer1" 1 t ++ others ≡ₚ contacts N t ∧
    find_closest_nodes N pad_hash "peer1" 1 t = [mkNodeInfo N "peer1" 1%N].
Proof.
  intros t. destruct (find_closest_nodes_closest N pad_hash pad_hash_length "peer1" 1 t)
    as (others & H & _).
  exists others. split; [exact H|]. vm_compute. reflexivity.
Defined.
