(* ===== verification/FlowNode.v ===== *)
(** * The flow node's control engine

    The state of [FlowNode] in [stric-flow/src/node.rs], one definition per branch
    of [run_control_loop], and the operations of its public interface that change
    the state or send control messages.

    [DashMap]s and locked collections are fields of one record; a handler is a
    function from the state to the new state and the effects it has, in order.
    Sending on a peer's channel is the effect [Send]; a channel is identified by a
    number.  A handler reads the clocks several times: [instant i] and [system i]
    are the [i]-th readings of [Instant::now] and [SystemTime::now] (in
    milliseconds) while it runs. *)
From S2P Require Import Prelude Proto Topic Graph Dijkstra Reconciliation Backpressure.
From stdpp Require Import options.

(** ** Errors of the public interface *)

Inductive FlowError :=
| ETransport (e : string)
| EDecode (e : string)
| EEncode (e : string)
| EHandshake (e : string)
| EIdentity (e : string)
| ESession (e : string)
| ERegistry (e : string)
| ERouting (e : string)
| EInternal (e : string)
| EConnection (e : string)
| EAnyhow (e : string).

Abbreviation Chan := nat (only parsing).

Record Clock := mkClock { instant : nat → Instant; system : nat → N }.

Inductive ControlEvent :=
| PeerConnected (peer : string) (tx : Chan)
| PeerDisconnected (peer : string)
| ControlMsgReceived (from : string) (msg : ControlMessage).

Section node.
Context `{PG : PetGraph string LinkWeight} `{HO : HashOrder} `{G : Governor}.
Context {SocketAddr : Type} `{Countable SocketAddr} {Handler : Type}.

Inductive Effect :=
| Send (tx : Chan) (msg : ControlMessage)
| SpawnReconnect (peer : string) (addr : SocketAddr) (server_name : string).

(** ** The state *)

Record FlowNode := mkFlowNode {
  node_id : string;
  fgraph : GlobalGraph;
  sessions : gmap string Session;
  merge_fns : gmap string StateMergeFn;
  topic_handlers : gmap string Handler;
  peer_writers : gmap string Chan;
  local_subscriptions : gset string;
  last_epochs : gmap string N;
  last_subscription_epochs : gmap string N;
  flow_limiters : gmap string TokenBucketRateLimiter;
  peer_addresses : gmap string (SocketAddr * string);
  pending_connects : gmap SocketAddr string;
  reconnecting_peers : gset string;
  node_last_seen : gmap string Instant;
}.

Definition new_node (id : string) : FlowNode :=
  mkFlowNode id new_graph ∅ ∅ ∅ ∅ ∅ ∅ ∅ ∅ ∅ ∅ ∅ ∅.

Definition with_graph (f : GlobalGraph) (n : FlowNode) : FlowNode :=
  mkFlowNode (node_id n) f (sessions n) (merge_fns n) (topic_handlers n) (peer_writers n)
    (local_subscriptions n) (last_epochs n) (last_subscription_epochs n) (flow_limiters n)
    (peer_addresses n) (pending_connects n) (reconnecting_peers n) (node_last_seen n).

Definition with_sessions (f : gmap string Session) (n : FlowNode) : FlowNode :=
  mkFlowNode (node_id n) (fgraph n) f (merge_fns n) (topic_handlers n) (peer_writers n)
    (local_subscriptions n) (last_epochs n) (last_subscription_epochs n) (flow_limiters n)
    (peer_addresses n) (pending_connects n) (reconnecting_peers n) (node_last_seen n).

Definition with_merge_fns (f : gmap string StateMergeFn) (n : FlowNode) : FlowNode :=
  mkFlowNode (node_id n) (fgraph n) (sessions n) f (topic_handlers n) (peer_writers n)
    (local_subscriptions n) (last_epochs n) (last_subscription_epochs n) (flow_limiters n)
    (peer_addresses n) (pending_connects n) (reconnecting_peers n) (node_last_seen n).

Definition with_handlers (f : gmap string Handler) (n : FlowNode) : FlowNode :=
  mkFlowNode (node_id n) (fgraph n) (sessions n) (merge_fns n) f (peer_writers n)
    (local_subscriptions n) (last_epochs n) (last_subscription_epochs n) (flow_limiters n)
    (peer_addresses n) (pending_connects n) (reconnecting_peers n) (node_last_seen n).

Definition with_writers (f : gmap string Chan) (n : FlowNode) : FlowNode :=
  mkFlowNode (node_id n) (fgraph n) (sessions n) (merge_fns n) (topic_handlers n) f
    (local_subscriptions n) (last_epochs n) (last_subscription_epochs n) (flow_limiters n)
    (peer_addresses n) (pending_connects n) (reconnecting_peers n) (node_last_seen n).

Definition with_subscriptions (f : gset string) (n : FlowNode) : FlowNode :=
  mkFlowNode (node_id n) (fgraph n) (sessions n) (merge_fns n) (topic_handlers n)
    (peer_writers n) f (last_epochs n) (last_subscription_epochs n) (flow_limiters n)
    (peer_addresses n) (pending_connects n) (reconnecting_peers n) (node_last_seen n).

Definition with_epochs (f : gmap string N) (n : FlowNode) : FlowNode :=
  mkFlowNode (node_id n) (fgraph n) (sessions n) (merge_fns n) (topic_handlers n)
    (peer_writers n) (local_subscriptions n) f (last_subscription_epochs n) (flow_limiters n)
    (peer_addresses n) (pending_connects n) (reconnecting_peers n) (node_last_seen n).

Definition with_subscription_epochs (f : gmap string N) (n : FlowNode) : FlowNode :=
  mkFlowNode (node_id n) (fgraph n) (sessions n) (merge_fns n) (topic_handlers n)
    (peer_writers n) (local_subscriptions n) (last_epochs n) f (flow_limiters n)
    (peer_addresses n) (pending_connects n) (reconnecting_peers n) (node_last_seen n).

Definition with_limiters (f : gmap string TokenBucketRateLimiter) (n : FlowNode) : FlowNode :=
  mkFlowNode (node_id n) (fgraph n) (sessions n) (merge_fns n) (topic_handlers n)
    (peer_writers n) (local_subscriptions n) (last_epochs n) (last_subscription_epochs n) f
    (peer_addresses n) (pending_connects n) (reconnecting_peers n) (node_last_seen n).

Definition with_addresses (f : gmap string (SocketAddr * string))
    (c : gmap SocketAddr string) (n : FlowNode) : FlowNode :=
  mkFlowNode (node_id n) (fgraph n) (sessions n) (merge_fns n) (topic_handlers n)
    (peer_writers n) (local_subscriptions n) (last_epochs n) (last_subscription_epochs n)
    (flow_limiters n) f c (reconnecting_peers n) (node_last_seen n).

Definition with_reconnecting (f : gset string) (n : FlowNode) : FlowNode :=
  mkFlowNode (node_id n) (fgraph n) (sessions n) (merge_fns n) (topic_handlers n)
    (peer_writers n) (local_subscriptions n) (last_epochs n) (last_subscription_epochs n)
    (flow_limiters n) (peer_addresses n) (pending_connects n) f (node_last_seen n).

Definition with_seen (f : gmap string Instant) (n : FlowNode) : FlowNode :=
  mkFlowNode (node_id n) (fgraph n) (sessions n) (merge_fns n) (topic_handlers n)
    (peer_writers n) (local_subscriptions n) (last_epochs n) (last_subscription_epochs n)
    (flow_limiters n) (peer_addresses n) (pending_connects n) (reconnecting_peers n) f.

(** [self.node_last_seen.insert(id, Instant::now())]. *)
Definition touch (id : string) (now : Instant) (n : FlowNode) : FlowNode :=
  with_seen (<[id := now]> (node_last_seen n)) n.

(** ** Sending to peers *)

Definition get_peer_writers (n : FlowNode) : list (string * Chan) := map_iter (peer_writers n).

Definition to_message (p : ControlPayload) : ControlMessage := mkControlMessage (Some p).

(** [for (peer, tx) in peers { if peer != from && peer != origin { tx.send(gossip) } }]. *)
Definition gossip (from origin : string) (p : ControlPayload) (n : FlowNode) : list Effect :=
  (λ pt : string * Chan, Send pt.2 (to_message p)) <$>
    filter (λ pt, pt.1 ≠ from ∧ pt.1 ≠ origin) (get_peer_writers n).

Definition broadcast_control_message (p : ControlPayload) (n : FlowNode) : list Effect :=
  (λ pt : string * Chan, Send pt.2 (to_message p)) <$> get_peer_writers n.

(** ** The branches of the control loop *)

(** [!has_epoch || update.epoch > current_epoch]. *)
Definition is_newer (epochs : gmap string N) (origin : string) (epoch : N) : bool :=
  let has_epoch := bool_decide (is_Some (epochs !! origin)) in
  let current_epoch := default 0%N (epochs !! origin) in
  negb has_epoch || (current_epoch <? epoch)%N.

Definition handle_topology_update (clk : Clock) (from : string) (update : TopologyUpdate)
    (n : FlowNode) : outcome (FlowNode * list Effect) :=
  let n := touch (origin_node_id update) (instant clk 1) n in
  let n := foldl (λ n '(i, node), touch (nd_node_id node) (instant clk (2 + i)) n) n
             (imap pair (nodes_added update)) in
  if is_newer (last_epochs n) (origin_node_id update) (tu_epoch update) then
    let n := with_epochs (<[origin_node_id update := tu_epoch update]> (last_epochs n)) n in
    g ← apply_update update (fgraph n);
    let n := with_graph g n in
    Ret (n, gossip from (origin_node_id update) (MTopologyUpdate update) n)
  else Ret (n, []).

(** The capabilities of [SubscriptionUpdate]: one key per subscribed pattern. *)
Definition subscription_capabilities (entries : list SubscriptionEntry) : gmap string string :=
  foldl (λ c entry,
    if decide (se_action entry = SUBSCRIBE)
    then <["sub:" +:+ se_pattern entry := ""]> c else c) ∅ entries.

Definition handle_subscription_update (clk : Clock) (from : string)
    (update : SubscriptionUpdate) (n : FlowNode) : outcome (FlowNode * list Effect) :=
  let n := touch (su_node_id update) (instant clk 1) n in
  if is_newer (last_subscription_epochs n) (su_node_id update) (su_epoch update) then
    let n := with_subscription_epochs
               (<[su_node_id update := su_epoch update]> (last_subscription_epochs n)) n in
    let capabilities := subscription_capabilities (su_entries update) in
    let n := with_graph (add_node (mkNodeDescriptor (su_node_id update) NODE_ROLE_FLOW
               capabilities (system clk 0)) (fgraph n)) n in
    Ret (n, gossip from (su_node_id update) (MSubscriptionUpdate update) n)
  else Ret (n, []).

Definition handle_ping (clk : Clock) (from : string) (ping : Ping) (n : FlowNode) :
    outcome (FlowNode * list Effect) :=
  match peer_writers n !! from with
  | Some tx => Ret (n, [Send tx (to_message (MPong (mkPong (ping_at ping) (system clk 0))))])
  | None => Ret (n, [])
  end.

Definition link_exists (a b : string) (g : GlobalGraph) : bool :=
  match node_indices g !! a, node_indices g !! b with
  | Some i, Some j => bool_decide (is_Some (pg_find_edge i j (graph g)))
  | _, _ => false
  end.

Definition handle_pong (p : profile) (clk : Clock) (from : string) (pong : Pong)
    (n : FlowNode) : outcome (FlowNode * list Effect) :=
  let rtt := (system clk 0 - ping_sent_at pong)%N in
  let is_new_link := negb (link_exists (node_id n) from (fgraph n)) in
  rtt_micros ← u64_mul p rtt 1000;
  g ← add_link (mkLinkDescriptor (node_id n) from 1 rtt_micros) (fgraph n);
  let n := with_graph g n in
  if is_new_link then
    my_epoch ← u64_add p (default 0%N (last_epochs n !! node_id n)) 1;
    let n := with_epochs (<[node_id n := my_epoch]> (last_epochs n)) n in
    '(nodes_added, links_added) ← get_descriptors (fgraph n);
    let update := mkTopologyUpdate (node_id n) my_epoch nodes_added [] links_added [] in
    Ret (n, broadcast_control_message (MTopologyUpdate update) n)
  else Ret (n, []).

Definition handle_backpressure (signal : BackpressureSignal) (n : FlowNode) :
    outcome (FlowNode * list Effect) :=
  let limiter := default (new_limiter 0) (flow_limiters n !! bp_flow_id signal) in
  let limiter :=
    if decide (bp_action signal = 0%Z) then pause limiter
    else if decide (bp_action signal = 1%Z) then resume limiter
    else if decide (bp_action signal = 2%Z) then set_rate (bp_max_rate signal) (resume limiter)
    else limiter in
  Ret (with_limiters (<[bp_flow_id signal := limiter]> (flow_limiters n)) n, []).

(** *** Sessions *)

Definition session_payload (m : SessionControlMessage) : ControlPayload :=
  MSessionControl (mkSessionControl (Some m)).

Definition handle_create (from : string) (create : SessionCreate) (n : FlowNode) :
    outcome (FlowNode * list Effect) :=
  match sessions n !! sc_session_id create with
  | Some _ => Ret (n, [])
  | None =>
      let session := mkSession (sc_session_id create) (sc_creator_node create)
        (sc_flow_ids create) (sc_created_at create) (sc_metadata create) [] 0 0 in
      let n := with_sessions (<[sc_session_id create := session]> (sessions n)) n in
      Ret (n, gossip from (sc_creator_node create) (session_payload (Create create)) n)
  end.

Definition handle_join (from : string) (join : SessionJoin) (n : FlowNode) :
    outcome (FlowNode * list Effect) :=
  Ret (n, gossip from (sj_node_id join) (session_payload (Join join)) n).

Definition handle_leave (from : string) (leave : SessionLeave) (n : FlowNode) :
    outcome (FlowNode * list Effect) :=
  Ret (n, gossip from (sl_node_id leave) (session_payload (Leave leave)) n).

Definition handle_close (from : string) (close : SessionClose) (n : FlowNode) :
    outcome (FlowNode * list Effect) :=
  let removed := bool_decide (is_Some (sessions n !! scl_session_id close)) in
  let n := with_sessions (delete (scl_session_id close) (sessions n)) n in
  if removed || bool_decide (closed_by close = node_id n)
  then Ret (n, gossip from (closed_by close) (session_payload (Close close)) n)
  else Ret (n, []).

Definition with_state (data : bytes) (version timestamp : N) (s : Session) : Session :=
  mkSession (session_id s) (creator_node s) (flow_ids s) (created_at s) (metadata s)
    data version timestamp.

(** Last write wins: the later timestamp, then the higher version. *)
Definition lww_wins (timestamp version : N) (s : Session) : bool :=
  (state_timestamp s <? timestamp)%N ||
  ((timestamp =? state_timestamp s)%N && (state_version s <? version)%N).

(** The session after a remote update, or [None] when it is left alone. *)
Definition merge_state (p : profile) (merge_fn : option StateMergeFn) (sync : SessionStateSync)
    (s : Session) : outcome (option Session) :=
  match merge_fn with
  | Some merge_fn =>
      match merge_fn (state_data s) (ss_data sync) with
      | Ok merged =>
          version ← u64_add p (N.max (state_version s) (ss_version sync)) 1;
          Ret (Some (with_state merged version
                       (N.max (state_timestamp s) (ss_timestamp sync)) s))
      | Err _ => Ret None
      end
  | None =>
      if lww_wins (ss_timestamp sync) (ss_version sync) s
      then Ret (Some (with_state (ss_data sync) (ss_version sync) (ss_timestamp sync) s))
      else Ret None
  end.

Definition handle_state_sync (p : profile) (from : string) (sync : SessionStateSync)
    (n : FlowNode) : outcome (FlowNode * list Effect) :=
  match sessions n !! ss_session_id sync with
  | None => Ret (n, [])
  | Some session =>
      updated ← merge_state p (merge_fns n !! ss_session_id sync) sync session;
      match updated with
      | None => Ret (n, [])
      | Some s =>
          let n := with_sessions (<[ss_session_id sync := s]> (sessions n)) n in
          let msg := mkSessionStateSync (ss_session_id sync) (node_id n) (ss_mode sync)
            (state_timestamp s) (state_version s) (state_data s) (ss_codec sync) in
          Ret (n, gossip from (ss_sender sync) (session_payload (StateSync msg)) n)
      end
  end.

Definition handle_session_control (p : profile) (from : string) (m : SessionControlMessage)
    (n : FlowNode) : outcome (FlowNode * list Effect) :=
  match m with
  | Create create => handle_create from create n
  | Join join => handle_join from join n
  | Leave leave => handle_leave from leave n
  | Close close => handle_close from close n
  | StateSync sync => handle_state_sync p from sync n
  end.

(** *** Dispatch *)

Definition handle_payload (p : profile) (clk : Clock) (from : string)
    (payload : ControlPayload) (n : FlowNode) : outcome (FlowNode * list Effect) :=
  match payload with
  | MTopologyUpdate update => handle_topology_update clk from update n
  | MSubscriptionUpdate update => handle_subscription_update clk from update n
  | MPing ping => handle_ping clk from ping n
  | MPong pong => handle_pong p clk from pong n
  | MBackpressure signal => handle_backpressure signal n
  | MSessionControl (mkSessionControl (Some m)) => handle_session_control p from m n
  | MSessionControl (mkSessionControl None) => Ret (n, [])
  | MHandshake _ | MHandshakeAck _ | MIdentityProof _ | MIdentityChallenge _ => Ret (n, [])
  end.

Definition handle_peer_disconnected (peer : string) (n : FlowNode) :
    outcome (FlowNode * list Effect) :=
  let n := with_writers (delete peer (peer_writers n)) n in
  match peer_addresses n !! peer with
  | Some (addr, server_name) =>
      let fresh := bool_decide (peer ∉ reconnecting_peers n) in
      let n := with_reconnecting ({[peer]} ∪ reconnecting_peers n) n in
      Ret (n, if fresh then [SpawnReconnect peer addr server_name] else [])
  | None => Ret (n, [])
  end.

(** One iteration of [run_control_loop]. *)
Definition handle_event (p : profile) (clk : Clock) (event : ControlEvent) (n : FlowNode) :
    outcome (FlowNode * list Effect) :=
  match event with
  | PeerConnected peer tx => Ret (with_writers (<[peer := tx]> (peer_writers n)) n, [])
  | PeerDisconnected peer => handle_peer_disconnected peer n
  | ControlMsgReceived from msg =>
      let n := touch from (instant clk 0) n in
      match message msg with
      | Some payload => handle_payload p clk from payload n
      | None => Ret (n, [])
      end
  end.

(** ** The public interface *)

Definition subscribe (topic_pattern : string) (handler : Handler) (n : FlowNode) : FlowNode :=
  with_handlers (<[topic_pattern := handler]> (topic_handlers n)) n.

Definition subscription_entries (subs : gset string) : list SubscriptionEntry :=
  (λ pattern, mkSubscriptionEntry "" pattern SUBSCRIBE) <$> set_iter subs.

(** The task that [subscribe] spawns: it ends by sending an event to the node's own
    control loop. *)
Definition subscribe_task (p : profile) (topic_pattern : string) (n : FlowNode) :
    outcome (FlowNode * ControlEvent) :=
  let n := with_subscriptions ({[topic_pattern]} ∪ local_subscriptions n) n in
  my_epoch ← u64_add p (default 0%N (last_subscription_epochs n !! node_id n)) 1;
  let update := mkSubscriptionUpdate (node_id n)
    (subscription_entries (local_subscriptions n)) my_epoch in
  Ret (n, ControlMsgReceived (node_id n) (to_message (MSubscriptionUpdate update))).

Definition register_merge_fn (id : string) (f : StateMergeFn) (n : FlowNode) : FlowNode :=
  with_merge_fns (<[id := f]> (merge_fns n)) n.

Definition create_session (clk : Clock) (id : string) (flows : list string)
    (meta : gmap string string) (n : FlowNode) : FlowNode * list Effect :=
  let session := mkSession id (node_id n) flows (system clk 0) meta [] 0 0 in
  let n := with_sessions (<[id := session]> (sessions n)) n in
  let create := mkSessionCreate id (node_id n) flows (system clk 1) meta in
  (n, broadcast_control_message (session_payload (Create create)) n).

Definition join_session (id : string) (n : FlowNode) : list Effect :=
  broadcast_control_message (session_payload (Join (mkSessionJoin id (node_id n)))) n.

Definition leave_session (id : string) (n : FlowNode) : list Effect :=
  broadcast_control_message (session_payload (Leave (mkSessionLeave id (node_id n)))) n.

Definition close_session (id reason : string) (n : FlowNode) :
    FlowNode * result (list Effect) FlowError :=
  match sessions n !! id with
  | Some _ =>
      let n := with_sessions (delete id (sessions n)) n in
      let close := mkSessionClose id (node_id n) reason in
      (n, Ok (broadcast_control_message (session_payload (Close close)) n))
  | None => (n, Err (ESession ("Session " +:+ id +:+ " not found")))
  end.

(** The state is written before the merge: an error leaves the new version and
    timestamp behind. *)
Definition sync_session_state (p : profile) (clk : Clock) (id : string) (data : bytes)
    (n : FlowNode) : outcome (FlowNode * result (list Effect) FlowError) :=
  match sessions n !! id with
  | None => Ret (n, Err (ESession ("Session " +:+ id +:+ " not found")))
  | Some s =>
      version ← u64_add p (state_version s) 1;
      let s := with_state (state_data s) version (system clk 0) s in
      let stamped := with_sessions (<[id := s]> (sessions n)) n in
      match (match merge_fns n !! id with
             | Some merge_fn => merge_fn (state_data s) data
             | None => Ok data
             end) with
      | Err e => Ret (stamped, Err (ESession ("Local merge error: " +:+ e)))
      | Ok merged =>
          let s := with_state merged (state_version s) (state_timestamp s) s in
          let n := with_sessions (<[id := s]> (sessions n)) n in
          let sync := mkSessionStateSync id (node_id n) SNAPSHOT (state_timestamp s)
            (state_version s) data CODEC_RAW in
          Ret (n, Ok (broadcast_control_message (session_payload (StateSync sync)) n))
      end
  end.

Definition get_session_state (id : string) (n : FlowNode) : option bytes :=
  state_data <$> sessions n !! id.

Definition session_ids (n : FlowNode) : list string := (map_iter (sessions n)).*1.

Definition send_backpressure (flow_id : string) (action : Z) (rate : N) (n : FlowNode) :
    list Effect :=
  broadcast_control_message (MBackpressure (mkBackpressureSignal flow_id "" action rate)) n.

(** One tick of the garbage collection task: the evicted sessions are closed
    through the node's own control loop. *)
Definition gc_tick (clk : Clock) (n : FlowNode) : FlowNode * list ControlEvent :=
  let '(kept, evicted) :=
    gc_inactive_sessions (instant clk 0) (sessions n) (node_last_seen n) (secs 300) in
  (with_sessions kept n,
   (λ id, ControlMsgReceived (node_id n) (to_message (session_payload (Close
      (mkSessionClose id (node_id n) "Session TTL expired (creator inactive)"))))) <$> evicted).

(** Handling the queued events one after the other. *)
Fixpoint run_control_loop (p : profile) (events : list (Clock * ControlEvent)) (n : FlowNode) :
    outcome (FlowNode * list Effect) :=
  match events with
  | [] => Ret (n, [])
  | (clk, event) :: events' =>
      '(n, effects) ← handle_event p clk event n;
      '(n, effects') ← run_control_loop p events' n;
      Ret (n, effects ++ effects')
  end.
End node.
