(* ===== verification/Publish.v ===== *)
(** * The data plane

    [publish] of [stric-flow/src/node.rs] and the task that [handle_new_connection]
    spawns for every incoming data stream: the frame is read and decoded, the envelope is
    forwarded along the table it carries, then delivered locally.

    Sending an envelope and calling a handler are effects; [SendEnvelope] spawns the task that
    sends it.  [DataNet] is a network of such tasks: each looks up the limiter of its flow at the
    node it runs at, waits for it ([Backpressure.wait_step], interleaved with the operations on
    the limiters), opens a stream and writes the envelope as a frame ([Frame.write_frame], which
    may break off); a stream that arrives is read by the receiving node.  prost's encoding of
    envelopes is the parameter [Codec]. *)
From S2P Require Import Prelude Proto Topic Graph Dijkstra Reconciliation Frame Backpressure.
From S2P Require Import Registry Connection FlowNode.
From stdpp Require Import options.

Record FlowConnectionMetadata := mkFlowMetadata { peer_node_id : option string }.

Section data.
Context `{PG : PetGraph string LinkWeight} `{BH : BinaryHeap DijkstraState} `{HO : HashOrder}.
Context `{G : Governor} {SocketAddr : Type} `{Countable SocketAddr} {Handler : Type}.
Context {Tag : Type} `{EqDecision Tag} (type_of : Tag → Type) {Conn : Type}.
Context {DecodeError : Type} `{EC : !Codec Envelope DecodeError}.

Abbreviation FlowNode := (FlowNode (SocketAddr := SocketAddr) (Handler := Handler)).
Abbreviation Manager := (ConnectionManager (Conn := Conn) (Metadata := FlowConnectionMetadata)).
Abbreviation Registry := (gmap string (bytes → result (Any type_of) string)).

(** [SendEnvelope c env] spawns the task that sends [env] on the connection [c]. *)
Inductive DataEffect :=
| SendEnvelope (c : Conn) (env : Envelope)
| HandleMessage (h : Handler) (flow_id topic_id : string) (msg : Any type_of).

(** ** Forwarding *)

(** [store.iter().find(|e| e.metadata.peer_node_id == Some(next_hop)).map(|e| e.conn)]. *)
Definition next_conn (m : Manager) (next_hop : string) : option Conn :=
  (λ found : nat * (N * ConnectionWrapper), conn found.2.2) <$>
    list_find (λ kw : N * ConnectionWrapper, peer_node_id (metadata kw.2) = Some next_hop)
      (map_iter (store m)).

(** The loop over [targets.send_to]: a next hop without a connection is skipped. *)
Definition forward (me : string) (m : Manager) (header : RoutingHeader) (env : Envelope) :
    list DataEffect :=
  match rh_forwarding_table header !! me with
  | Some targets =>
      omap (λ next_hop, (λ c, SendEnvelope c env) <$> next_conn m next_hop) (send_to targets)
  | None => []
  end.

(** ** Local delivery *)

(** The first handler, in the map's order, whose pattern matches. *)
Definition matched_handler (handlers : gmap string Handler) (topic_id : string) : option Handler :=
  (λ found : nat * (string * Handler), found.2.2) <$>
    list_find (λ entry : string * Handler, match_topic entry.1 topic_id = true) (map_iter handlers).

Definition deliver_local (reg : Registry) (n : FlowNode)
    (flow_id topic_id message_type : string) (payload : bytes) : list DataEffect :=
  match registry_decode type_of reg message_type payload with
  | Ok decoded =>
      match matched_handler (topic_handlers n) topic_id with
      | Some handler => [HandleMessage handler flow_id topic_id decoded]
      | None => []
      end
  | Err _ => []
  end.

(** What the task for an incoming data stream does with the decoded envelope. *)
Definition receive_envelope (reg : Registry) (n : FlowNode) (m : Manager) (env : Envelope) :
    list DataEffect :=
  match env_header env with
  | Some header =>
      forward (node_id n) m header env ++
      deliver_local reg n (rh_flow_id header) (rh_topic_id header) (env_message_type env)
        (env_payload env)
  | None => []
  end.

(** [read_frame], then [Envelope::decode]; a failure of either ends the task. *)
Definition decode_stream (b : bytes) : option Envelope :=
  match (read_frame (E := DecodeError) b).2 with
  | Ok buf => match decode buf with Ok env => Some env | Err _ => None end
  | Err _ => None
  end.

(** The task for one incoming data stream. *)
Definition receive_stream (reg : Registry) (n : FlowNode) (m : Manager) (b : bytes) :
    list DataEffect :=
  match decode_stream b with
  | Some env => receive_envelope reg n m env
  | None => []
  end.

(** ** Publishing *)

(** [pattern.starts_with("sub:") && match_topic(&pattern[4..], topic_id)]. *)
Definition capability_matches (topic_id key : string) : bool :=
  String.prefix "sub:" key &&
  match_topic (String.substring 4 (String.length key - 4) key) topic_id.

Definition find_subscribers (g : GlobalGraph) (topic_id : string) : gset string :=
  list_to_set (omap (λ nd : string * NodeDescriptor,
    if existsb (capability_matches topic_id) (map_iter (nd_capabilities nd.2)).*1
    then Some nd.1 else None) (map_iter (node_metadata g))).

Definition publish (p : profile) (fuel : nat) (nonce : string) (now : N) (reg : Registry)
    (n : FlowNode) (m : Manager) (flow_id topic_id message_type : string) (codec : Z)
    (payload : bytes) : outcome (list DataEffect) :=
  let subscribers := find_subscribers (fgraph n) topic_id in
  let local_interested :=
    existsb (λ pattern, match_topic pattern topic_id) (set_iter (local_subscriptions n)) in
  let local := if local_interested
               then deliver_local reg n flow_id topic_id message_type payload else [] in
  if decide (subscribers = ∅) then Ret local
  else
    table ← compute_forwarding_table p fuel (fgraph n) (node_id n) subscribers;
    let header := mkRoutingHeader (node_id n) flow_id topic_id "" nonce now 0
      DELIVERY_GUARANTEED table in
    let envelope := mkEnvelope (Some header) message_type codec payload in
    Ret (local ++ forward (node_id n) m header envelope).

(** ** The tasks that send *)

(** Before the lookup of the limiter, in [wait_for_bytes], before [open_uni]. *)
Inductive stage := Lookup | Waiting (pc : point) | Open.

Record SendTask := mkSendTask {
  task_from : string;
  task_conn : Conn;
  task_env : Envelope;
  task_stage : stage;
}.

Definition at_stage (s : stage) (t : SendTask) : SendTask :=
  mkSendTask (task_from t) (task_conn t) (task_env t) s.

(** The limiter a task uses: that of the envelope's flow, at the node the task runs at. *)
Definition task_key (t : SendTask) : string * string :=
  (task_from t, from_option rh_flow_id "" (env_header (task_env t))).

(** [envelope_clone.encoded_len() as u32]. *)
Definition task_size (t : SendTask) : N :=
  match encode (task_env t) with
  | Ok buf => len_u32 buf
  | Err _ => 0
  end.

(** The tasks that a node's effects spawn. *)
Definition spawned (from : string) (effects : list DataEffect) : list SendTask :=
  omap (λ e, match e with
             | SendEnvelope c env => Some (mkSendTask from c env Lookup)
             | HandleMessage _ _ _ _ => None
             end) effects.

(** A task that only [notify_waiters] can move. *)
Definition blocked (t : SendTask) : Prop :=
  task_stage t = Waiting AwaitNotified ∨ task_stage t = Waiting AwaitRenotified.

Definition wake_task (key : string * string) (t : SendTask) : SendTask :=
  match task_stage t with
  | Waiting pc => if decide (task_key t = key) then at_stage (Waiting (wake pc)) t else t
  | _ => t
  end.

(** ** A network that carries envelopes *)

(** [received]: the nodes that have read an envelope, in order; [lost]: the nodes that a task
    or a stream was meant for that came to nothing; the limiters of all nodes by node and flow,
    and what operations on them still have to do. *)
Record DataNet := mkDataNet {
  received : list string;
  lost : list string;
  sending : list SendTask;
  streams : list (string * bytes);
  net_limiters : gmap (string * string) TokenBucketRateLimiter;
  net_pendings : list ((string * string) * pending);
}.

(** What an arriving stream does to the log. *)
Definition log_arrival (d : string) (b : bytes) (log gone : list string) :
    list string * list string :=
  match decode_stream b with
  | Some _ => (log ++ [d], gone)
  | None => (log, gone ++ [d])
  end.

(** [peer_of] is the node at the other end of a connection.  On a [reliable] transport
    [open_uni] does not fail and no stream breaks off. *)
Inductive data_step (reliable : bool) (reg : Registry) (nodes : gmap string (FlowNode * Manager))
    (peer_of : Conn → string) : DataNet → DataNet → Prop :=
| send_lookup t log gone l1 l2 ss ls ps :
    task_stage t = Lookup →
    data_step reliable reg nodes peer_of (mkDataNet log gone (l1 ++ t :: l2) ss ls ps)
      (mkDataNet log gone
         (l1 ++ at_stage (match ls !! task_key t with
                          | Some _ => Waiting CheckPaused
                          | None => Open
                          end) t :: l2) ss ls ps)
| send_waits t time pc pc' l l' log gone l1 l2 ss ls ps :
    task_stage t = Waiting pc → ls !! task_key t = Some l →
    wait_step time (task_size t) pc l = Some (pc', l') →
    data_step reliable reg nodes peer_of (mkDataNet log gone (l1 ++ t :: l2) ss ls ps)
      (mkDataNet log gone
         (l1 ++ at_stage (match pc' with Returned => Open | _ => Waiting pc' end) t :: l2)
         ss (<[task_key t := l']> ls) ps)
| send_writes t limit w res log gone l1 l2 ss ls ps :
    task_stage t = Open → (reliable = true → limit = None) →
    write_frame (task_env t) (mkWriter [] limit) = (w, res) →
    data_step reliable reg nodes peer_of (mkDataNet log gone (l1 ++ t :: l2) ss ls ps)
      (mkDataNet log gone (l1 ++ l2) (ss ++ [(peer_of (task_conn t), w_sent w)]) ls ps)
| send_refused t log gone l1 l2 ss ls ps :
    task_stage t = Open → reliable = false →
    data_step reliable reg nodes peer_of (mkDataNet log gone (l1 ++ t :: l2) ss ls ps)
      (mkDataNet log (gone ++ [peer_of (task_conn t)]) (l1 ++ l2) ss ls ps)
| stream_arrives d b n m log gone ts s1 s2 ls ps :
    nodes !! d = Some (n, m) →
    data_step reliable reg nodes peer_of (mkDataNet log gone ts (s1 ++ (d, b) :: s2) ls ps)
      (mkDataNet (log_arrival d b log gone).1 (log_arrival d b log gone).2
         (ts ++ spawned d (receive_stream reg n m b)) (s1 ++ s2) ls ps).

(** The operations on the limiters, which the control loops run at any time: a limiter is made
    on demand and never removed; [resume] and [set_rate] have two steps each. *)
Inductive limiter_step : DataNet → DataNet → Prop :=
| limiter_made k log gone ts ss ls ps :
    ls !! k = None →
    limiter_step (mkDataNet log gone ts ss ls ps)
      (mkDataNet log gone ts ss (<[k := new_limiter 0]> ls) ps)
| limiter_paused k l log gone ts ss ls ps :
    ls !! k = Some l →
    limiter_step (mkDataNet log gone ts ss ls ps)
      (mkDataNet log gone ts ss (<[k := pause l]> ls) ps)
| limiter_resumed k l log gone ts ss ls ps :
    ls !! k = Some l →
    limiter_step (mkDataNet log gone ts ss ls ps)
      (mkDataNet log gone ts ss (<[k := resume l]> ls) (ps ++ [(k, NotifyWaiters)]))
| limiter_notifies k log gone ts ss ls p1 p2 :
    limiter_step (mkDataNet log gone ts ss ls (p1 ++ (k, NotifyWaiters) :: p2))
      (mkDataNet log gone (wake_task k <$> ts) ss ls (p1 ++ p2))
| limiter_rated k r l log gone ts ss ls ps :
    ls !! k = Some l →
    limiter_step (mkDataNet log gone ts ss ls ps)
      (mkDataNet log gone ts ss (<[k := store_rate r l]> ls) (ps ++ [(k, ReplaceInner r)]))
| limiter_replaced k r l log gone ts ss ls p1 p2 :
    ls !! k = Some l →
    limiter_step (mkDataNet log gone ts ss ls (p1 ++ (k, ReplaceInner r) :: p2))
      (mkDataNet log gone ts ss (<[k := replace_inner r l]> ls) (p1 ++ p2)).

(** Any interleaving of the two. *)
Definition net_runs (reliable : bool) (reg : Registry) (nodes : gmap string (FlowNode * Manager))
    (peer_of : Conn → string) (a b : DataNet) : Prop :=
  data_step reliable reg nodes peer_of a b ∨ limiter_step a b.

(** Every link of the mesh is a connection of its first node to its second. *)
Record connected (g : GlobalGraph) (nodes : gmap string (FlowNode * Manager))
    (peer_of : Conn → string) : Prop := {
  cn_id u n m : nodes !! u = Some (n, m) → node_id n = u;
  cn_link u v : is_Some (links g !! (u, v)) →
    ∃ n m c, nodes !! u = Some (n, m) ∧ is_Some (nodes !! v) ∧
      next_conn m v = Some c ∧ peer_of c = v;
}.
End data.
