(* ===== verification/PublishFacts.v ===== *)
(** * Facts about the data plane

    Who the subscribers are, and that an envelope spreads along the forwarding tree: at any
    time the nodes that have read it, those it was lost on the way to, and those that a task
    or a stream is meant for, are a part of the tree closed under parents. *)
From S2P Require Import Prelude Proto Topic Graph GraphFacts Dijkstra DijkstraFacts TreeFacts.
From S2P Require Import RoutingFacts Reconciliation Frame FrameFacts Backpressure Registry.
From S2P Require Import Connection FlowNode Publish.
From stdpp Require Import options.

(** ** Subscribers *)

Lemma capability_matches_spec topic key :
  capability_matches topic key = true ↔
  ∃ pat, key = "sub:" +:+ pat ∧ match_topic pat topic = true.
Proof.
  unfold capability_matches. rewrite andb_true_iff.
  assert (∀ s n, String.length s <= n → String.substring 0 n s = s) as Hsub.
  { induction s as [|c s IH]; intros [|n] Hn; simpl in *; try done; [lia|].
    f_equal. apply IH. lia. }
  assert (∀ pat, String.substring 4 (String.length ("sub:" +:+ pat) - 4) ("sub:" +:+ pat) = pat) as Hdrop.
  { intros pat. apply Hsub. change (String.length ("sub:" +:+ pat)) with (4 + String.length pat). lia. }
  split.
  - intros [[pat ->]%prefix_append Hm]. exists pat. split; [done|]. by rewrite Hdrop in Hm.
  - intros (pat & -> & Hm). split; [|by rewrite Hdrop]. apply prefix_append. by exists pat.
Qed.

(** ** Reading a stream *)

Section stream.
Context {DecodeError : Type} `{EC : !Codec Envelope DecodeError} `{CS : !CodecSpec EC}.
Variables (env : Envelope) (buf : bytes).
Hypothesis Henc : encode env = Ok buf.
Hypothesis Hlen : (N.of_nat (length buf) < 4294967296)%N.

(** A stream that breaks off is not mistaken for a shorter one. *)
Lemma decode_stream_cut k e :
  decode_stream (take k (frame_of buf)) = Some e → e = env ∧ fits buf.
Proof using Henc Hlen CS.
  unfold decode_stream. destruct (read_frame _) as [r [b|]] eqn:E; [|done]. simpl.
  apply read_frame_Ok in E as [Hf Heq]. intros He.
  assert (b = buf) as ->.
  { unfold frame_of in Heq. pose proof (take_drop k (u32_to_be (len_u32 buf) ++ buf)) as Hall.
    rewrite Heq, <- !app_assoc in Hall. apply app_inj_1 in Hall as [Hlens Hall]; [|done].
    apply (f_equal u32_from_be) in Hlens. rewrite !u32_round_trip in Hlens by apply len_u32_bound.
    rewrite !len_u32_small in Hlens by (done || by apply fits_u32). apply Nat2N.inj in Hlens.
    revert Hall. generalize (r ++ drop k (u32_to_be (len_u32 buf) ++ buf)) as x. intros x Hall.
    rewrite <- (app_nil_r buf) in Hall. by apply app_inj_1 in Hall as [-> _]. }
  rewrite (decode_encode env buf Henc) in He. split; [congruence|done].
Qed.

Lemma decode_stream_frame : fits buf → decode_stream (frame_of buf) = Some env.
Proof using Henc CS.
  intros Hf. unfold decode_stream. rewrite <- (app_nil_r (frame_of buf)), read_frame_frame_of by done.
  simpl. by rewrite (decode_encode env buf Henc).
Qed.

(** What a task writes: the frame, or a part of it when the stream breaks off. *)
Lemma write_frame_sent limit w res :
  write_frame env (mkWriter [] limit) = (w, res) →
  (∃ k, w_sent w = take k (frame_of buf)) ∧ (limit = None → w_sent w = frame_of buf).
Proof using Henc CS.
  intros Hw. assert (within (mkWriter [] limit)) as Hin by (destruct limit; [apply Nat.le_0_l|exact I]).
  destruct (write_frame_spec env buf (mkWriter [] limit) Henc Hin) as
    [[_ Heq]|(k & w' & Hl & _ & Heq & Hs)]; rewrite Heq in Hw.
  - injection Hw as <- _. simpl. split; [|done]. exists (length (frame_of buf)). by rewrite firstn_all.
  - injection Hw as <- _. simpl in Hl, Hs. split; [by eauto|]. by rewrite Hl.
Qed.
End stream.

(** ** One envelope on its way *)

Section tree.
Variables (s : string) (header : RoutingHeader).
Let table := rh_forwarding_table header.
Hypothesis Htree : tree_table table s.

Definition children (u : string) : list string :=
  match table !! u with Some t => send_to t | None => [] end.

Lemma elem_of_children u v : v ∈ children u ↔ sends table u v.
Proof.
  unfold children, sends. destruct (table !! u) as [t|]; [naive_solver|].
  split; [by intros ?%elem_of_nil|]. by intros (? & ? & _).
Qed.

Lemma NoDup_children u : NoDup (children u).
Proof using Htree.
  unfold children. destruct (table !! u) as [t|] eqn:E; [|constructor].
  by apply (tt_nodup _ _ Htree) in E.
Qed.

(** The envelope has been read by [log], was lost on its way to [gone], and is meant for [tg]. *)
Record spread (log gone tg : list string) : Prop := {
  sp_once : NoDup (s :: log ++ gone ++ tg);
  sp_parent v : v ∈ log ++ gone ++ tg → ∃ u, u ∈ s :: log ∧ sends table u v;
  sp_sent u v : u ∈ s :: log → sends table u v → v ∈ log ++ gone ++ tg;
}.

Lemma spread_start : spread [] [] (children s).
Proof using Htree.
  split; simpl.
  - constructor; [|apply NoDup_children]. rewrite elem_of_children. apply (tt_root _ _ Htree).
  - intros v Hv. exists s. split; [by left|]. by apply elem_of_children.
  - intros u v ->%list_elem_of_singleton. by rewrite elem_of_children.
Qed.

Lemma spread_perm log gone tg gone' tg' :
  gone ++ tg ≡ₚ gone' ++ tg' → spread log gone tg → spread log gone' tg'.
Proof.
  intros Hp [H1 H2 H3]. split.
  - by rewrite <- Hp.
  - intros v. rewrite <- Hp. apply H2.
  - intros u v. rewrite <- Hp. apply H3.
Qed.

(** No child of a node the envelope is meant for has been sent it before. *)
Lemma spread_fresh log gone tg d v :
  spread log gone (d :: tg) → sends table d v → v ∉ s :: log ++ gone ++ d :: tg.
Proof using Htree.
  intros Hsp Hv Hin. apply elem_of_cons in Hin as [->|Hin]; [by apply (tt_root _ _ Htree) in Hv|].
  destruct (sp_parent _ _ _ Hsp v Hin) as (u & Hu & Huv).
  assert (u = d) as -> by by eapply (tt_unique _ _ Htree).
  pose proof (sp_once _ _ _ Hsp) as Hnd. rewrite app_comm_cons in Hnd.
  apply NoDup_app in Hnd as (_ & Hdisj & _). apply (Hdisj d Hu). set_solver.
Qed.

Lemma spread_receive log gone tg d :
  spread log gone (d :: tg) → spread (log ++ [d]) gone (tg ++ children d).
Proof using Htree.
  intros Hsp. pose proof (sp_once _ _ _ Hsp) as Hnd.
  assert (s :: (log ++ [d]) ++ gone ++ tg ++ children d ≡ₚ
    (s :: log ++ gone ++ d :: tg) ++ children d) as Hperm by solve_Permutation.
  split.
  - rewrite Hperm. apply NoDup_app. split_and!; [done| |apply NoDup_children].
    intros v Hv Hc%elem_of_children. by apply (spread_fresh _ _ _ _ _ Hsp Hc).
  - intros v Hv.
    assert (v ∈ log ++ gone ++ d :: tg ∨ v ∈ children d) as [Hold|Hnew] by set_solver.
    + destruct (sp_parent _ _ _ Hsp v Hold) as (u & Hu & Huv). exists u. split; [set_solver|done].
    + exists d. split; [set_solver|]. by apply elem_of_children.
  - intros u v Hu Huv. assert (u ∈ s :: log ∨ u = d) as [Hu'| ->] by set_solver.
    + pose proof (sp_sent _ _ _ Hsp u v Hu' Huv). set_solver.
    + apply elem_of_children in Huv. set_solver.
Qed.

Lemma spread_done log l :
  spread log [] [] → delivery table s l → ∀ v, v ∈ l → v ∈ s :: log.
Proof using Htree.
  intros Hsp. induction 1 as [|u v l _ IH Hs]; intros x Hx; [set_solver|].
  apply elem_of_cons in Hx as [->|Hx]; [|by apply IH].
  right. pose proof (sp_sent _ _ _ Hsp u v (IH u ltac:(by left)) Hs) as Hin.
  by rewrite !app_nil_r in Hin.
Qed.

(** Everybody the envelope has reached or is meant for is a node of the mesh. *)
Lemma spread_bound `{PS : PetGraphSpec string LinkWeight} g log gone tg :
  wf g → (∀ u v, sends table u v → is_Some (links g !! (u, v))) →
  spread log gone tg → length (log ++ gone ++ tg) <= length (Graph.nodes g).
Proof.
  intros Hwf Hlinks Hsp. pose proof (sp_once _ _ _ Hsp) as Hnd.
  inversion_clear Hnd as [|?? _ Hnd'].
  apply submseteq_length, NoDup_submseteq; [done|]. intros v Hv.
  destruct (sp_parent _ _ _ Hsp v Hv) as (u & _ & [w Hw]%Hlinks).
  apply links_nodes in Hw as (i & j & _ & Hj & _); [|done].
  apply wf_index in Hj; [|done]. by eapply list_elem_of_lookup_2.
Qed.
End tree.

Section facts.
#[local] Set Default Proof Using "All".
Context `{PS : PetGraphSpec string LinkWeight} `{BH : BinaryHeap DijkstraState}.
Context `{BS : !BinaryHeapSpec BH ds_cmp} `{HS : HashOrderSpec} `{G : Governor}.
Context {SocketAddr : Type} `{Countable SocketAddr} {Handler : Type}.
Context {Tag : Type} `{EqDecision Tag} (type_of : Tag → Type) {Conn : Type}.

Abbreviation FlowNode := (FlowNode (SocketAddr := SocketAddr) (Handler := Handler)).
Abbreviation Manager := (ConnectionManager (Conn := Conn) (Metadata := FlowConnectionMetadata)).
Abbreviation Registry := (gmap string (bytes → result (Any type_of) string)).
Implicit Types (n : FlowNode) (m : Manager) (reg : Registry) (g : GlobalGraph).

Lemma find_subscribers_spec g topic v :
  v ∈ find_subscribers g topic ↔
  ∃ d pat, node_metadata g !! v = Some d ∧ "sub:" +:+ pat ∈ dom (nd_capabilities d) ∧
    match_topic pat topic = true.
Proof.
  unfold find_subscribers. rewrite elem_of_list_to_set, list_elem_of_omap. split.
  - intros ([v' d] & Hin & Hv). rewrite (map_iter_perm (node_metadata g)), elem_of_map_to_list in Hin.
    simpl in Hv. destruct (existsb _ _) eqn:Ex; [|done]. injection Hv as ->.
    apply existsb_exists in Ex as (key & Hkey & (pat & -> & Hm)%capability_matches_spec).
    apply list_elem_of_In in Hkey. rewrite (map_iter_perm (nd_capabilities d)) in Hkey.
    apply list_elem_of_fmap in Hkey as ([k x] & Hk & Hx%elem_of_map_to_list).
    exists d, pat. split_and!; try done. rewrite Hk. by apply elem_of_dom_2 in Hx.
  - intros (d & pat & Hd & [x Hx]%elem_of_dom & Hm). exists (v, d).
    rewrite (map_iter_perm (node_metadata g)), elem_of_map_to_list. split; [done|]. simpl.
    assert (existsb (capability_matches topic) (map_iter (nd_capabilities d)).*1 = true) as ->; [|done].
    apply existsb_exists. exists ("sub:" +:+ pat). split.
    + apply list_elem_of_In. rewrite (map_iter_perm (nd_capabilities d)).
      apply list_elem_of_fmap. exists ("sub:" +:+ pat, x). by rewrite elem_of_map_to_list.
    + apply capability_matches_spec. eauto.
Qed.

Lemma spawned_local reg (from : string) n flow topic mt payload :
  spawned (Conn := Conn) type_of from (deliver_local type_of reg n flow topic mt payload) = [].
Proof using Type. unfold deliver_local. by repeat case_match. Qed.

Lemma spawned_app (from : string) e1 e2 :
  spawned (Handler := Handler) (Conn := Conn) type_of from (e1 ++ e2) =
  spawned type_of from e1 ++ spawned type_of from e2.
Proof using Type. apply omap_app. Qed.

(** ** The network *)

Section envelope.
Context {DecodeError : Type} `{EC : !Codec Envelope DecodeError} `{CS : !CodecSpec EC}.
Variables (reliable : bool) (reg : Registry) (nodes : gmap string (FlowNode * Manager)).
Variables (peer_of : Conn → string) (s : string) (header : RoutingHeader) (env : Envelope).
Variables (buf : bytes).
Let table := rh_forwarding_table header.
Hypothesis Henv : env_header env = Some header.
Hypothesis Henc : encode env = Ok buf.
Hypothesis Hlen : (N.of_nat (length buf) < 4294967296)%N.
Hypothesis Htree : tree_table table s.
Hypothesis Hid : ∀ u n m, nodes !! u = Some (n, m) → node_id n = u.
Hypothesis Hconn : ∀ u v, sends table u v →
  ∃ n m c, nodes !! u = Some (n, m) ∧ is_Some (nodes !! v) ∧
    next_conn m v = Some c ∧ peer_of c = v.

Abbreviation step := (data_step type_of reliable reg nodes peer_of).
Abbreviation SendTask := (SendTask (Conn := Conn)).
Abbreviation DataNet := (DataNet (Conn := Conn)).
Implicit Types (t : SendTask) (net : DataNet).

Definition target t : string := peer_of (task_conn t).

(** The nodes that a task or a stream is meant for. *)
Definition targets net : list string := (target <$> sending net) ++ (streams net).*1.

Lemma spawned_forward u n m :
  nodes !! u = Some (n, m) →
  ∃ cs, spawned type_of u (forward (Handler := Handler) type_of u m header env) =
    (λ c, mkSendTask u c env Lookup) <$> cs ∧ peer_of <$> cs = children header u.
Proof using Hconn.
  intros Hu. pose proof (elem_of_children header u) as Hch.
  unfold forward, children in *. fold table in Hch |- *.
  destruct (table !! u) as [t|]; [|by exists []].
  assert (∀ v, v ∈ send_to t → ∃ c, next_conn m v = Some c ∧ peer_of c = v) as Hc.
  { intros v Hv. apply Hch, Hconn in Hv as (n' & m' & c & Hu' & _ & Hnc & Hp).
    assert (m' = m) as -> by congruence. eauto. }
  clear Hch. induction (send_to t) as [|v l IH]; [by exists []|]. csimpl.
  destruct (Hc v) as (c & -> & <-); [by left|]. simpl.
  destruct IH as (cs & -> & <-); [intros v Hv; apply Hc; by right|]. by exists (c :: cs).
Qed.

Lemma spawned_receive u n m :
  nodes !! u = Some (n, m) →
  ∃ cs, spawned type_of u (receive_envelope type_of reg n m env) =
    (λ c, mkSendTask u c env Lookup) <$> cs ∧ peer_of <$> cs = children header u.
Proof using Henv Hid Hconn.
  intros Hu. unfold receive_envelope.
  rewrite Henv, spawned_app, spawned_local, app_nil_r, (Hid u n m Hu).
  by eapply spawned_forward.
Qed.

(** A task of the run: it sends the envelope, and has found the limiter it waits for. *)
Definition sound_task (ls : gmap (string * string) TokenBucketRateLimiter) t : Prop :=
  task_env t = env ∧
  ∀ pc, task_stage t = Waiting pc → pc ≠ Returned ∧ is_Some (ls !! task_key t).

Record carrying net : Prop := {
  ca_spread : spread s header (received net) (lost net) (targets net);
  ca_task t : t ∈ sending net → sound_task (net_limiters net) t;
  ca_stream d b : (d, b) ∈ streams net →
    (∃ k, b = take k (frame_of buf)) ∧ (reliable = true → b = frame_of buf);
  ca_lost : reliable = true → fits buf → lost net = [];
  ca_big : ¬ fits buf → received net = [];
}.

Lemma carrying_start cs ls ps :
  peer_of <$> cs = children header s →
  carrying (mkDataNet [] [] ((λ c, mkSendTask s c env Lookup) <$> cs) [] ls ps).
Proof.
  intros Hcs. split; simpl.
  - unfold targets. simpl. rewrite app_nil_r, <- list_fmap_compose.
    replace (target ∘ (λ c, mkSendTask s c env Lookup) <$> cs) with (children header s) by done.
    by apply spread_start.
  - intros t (c & -> & _)%list_elem_of_fmap. by split.
  - by intros d b ?%elem_of_nil.
  - done.
  - done.
Qed.

(** A task goes on, and limiters change. *)
Lemma carrying_retask log gone l1 t l2 ss ls ls' ps ps' st :
  (∀ k, is_Some (ls !! k) → is_Some (ls' !! k)) →
  (∀ pc, st = Waiting pc → pc ≠ Returned ∧ is_Some (ls' !! task_key t)) →
  carrying (mkDataNet log gone (l1 ++ t :: l2) ss ls ps) →
  carrying (mkDataNet log gone (l1 ++ at_stage st t :: l2) ss ls' ps').
Proof.
  intros Hls Hst [H1 H2 H3 H4 H5]. split; simpl in *; try done.
  - unfold targets in *. simpl in *. rewrite fmap_app in *. done.
  - intros t' Hin. assert (∀ t0, sound_task ls t0 → sound_task ls' t0) as Hmono.
    { intros t0 [? Hw]. split; [done|]. intros pc Hpc. destruct (Hw pc Hpc). auto. }
    apply elem_of_app in Hin as [Hin|[->|Hin]%elem_of_cons];
      [apply Hmono, H2; set_solver| |apply Hmono, H2; set_solver].
    destruct (H2 t) as [He _]; [set_solver|]. by split.
Qed.

Lemma carrying_limiters log gone ts ss ls ls' ps ps' :
  (∀ k, is_Some (ls !! k) → is_Some (ls' !! k)) →
  carrying (mkDataNet log gone ts ss ls ps) → carrying (mkDataNet log gone ts ss ls' ps').
Proof.
  intros Hls [H1 H2 H3 H4 H5]. split; simpl in *; try done.
  intros t [? Hw]%H2. split; [done|]. intros pc Hpc. destruct (Hw pc Hpc). auto.
Qed.

Lemma insert_mono (ls : gmap (string * string) TokenBucketRateLimiter) k l :
  ∀ k', is_Some (ls !! k') → is_Some (<[k := l]> ls !! k').
Proof. intros k' Hk. rewrite lookup_insert. by case_decide. Qed.

Lemma carrying_limiter_step net net' : carrying net → limiter_step net net' → carrying net'.
Proof.
  intros Hca Hs. destruct Hs; try (by eapply carrying_limiters; [apply insert_mono|]).
  destruct Hca as [H1 H2 H3 H4 H5]. split; simpl in *; try done.
  - unfold targets in *. simpl in *. rewrite <- list_fmap_compose.
    replace (target ∘ wake_task k <$> ts) with (target <$> ts); [done|].
    apply list_fmap_ext. intros _ t _. unfold wake_task, target. simpl. by repeat case_match.
  - intros t (t0 & -> & [He Hw]%H2)%list_elem_of_fmap. unfold wake_task.
    destruct (task_stage t0) as [|pc|] eqn:E; [by split; rewrite ?E| |by split; rewrite ?E].
    case_decide; [|by split; rewrite ?E]. split; [done|]. intros pc' [= <-]. simpl.
    destruct (Hw pc eq_refl) as [Hpc ?]. split; [|done]. by destruct pc.
Qed.
Lemma carrying_writes t limit w res log gone l1 l2 ss ls ps :
  (reliable = true → limit = None) → write_frame (task_env t) (mkWriter [] limit) = (w, res) →
  carrying (mkDataNet log gone (l1 ++ t :: l2) ss ls ps) →
  carrying (mkDataNet log gone (l1 ++ l2) (ss ++ [(target t, w_sent w)]) ls ps).
Proof.
  intros Hlim Hw [H1 H2 H3 H4 H5]. destruct (H2 t) as [He _]; [simpl; set_solver|]. rewrite He in Hw.
  destruct (write_frame_sent env buf Henc limit w res Hw) as [Hk Hfull].
  split; simpl in *; try done.
  - eapply spread_perm; [|exact H1]. unfold targets. simpl. rewrite !fmap_app. simpl. solve_Permutation.
  - intros t' Hin. apply H2. set_solver.
  - intros d b [Hin|[= -> ->]%list_elem_of_singleton]%elem_of_app; [by apply (H3 d)|]. auto.
Qed.

Lemma carrying_refused t log gone l1 l2 ss ls ps :
  reliable = false → carrying (mkDataNet log gone (l1 ++ t :: l2) ss ls ps) →
  carrying (mkDataNet log (gone ++ [target t]) (l1 ++ l2) ss ls ps).
Proof.
  intros Hr [H1 H2 H3 H4 H5]. split; simpl in *; try done; [| |congruence].
  - eapply spread_perm; [|exact H1]. unfold targets. simpl. rewrite !fmap_app. simpl. solve_Permutation.
  - intros t' Hin. apply H2. set_solver.
Qed.

Lemma carrying_arrives d b n m log gone ts s1 s2 ls ps :
  nodes !! d = Some (n, m) →
  carrying (mkDataNet log gone ts (s1 ++ (d, b) :: s2) ls ps) →
  carrying (mkDataNet (log_arrival d b log gone).1 (log_arrival d b log gone).2
    (ts ++ spawned type_of d (receive_stream type_of reg n m b)) (s1 ++ s2) ls ps).
Proof.
  intros Hd [H1 H2 H3 H4 H5]. unfold targets in H1. simpl in *.
  destruct (H3 d b) as [[k Hk] Hrel]; [set_solver|].
  assert (∀ d' b', (d', b') ∈ s1 ++ s2 → (d', b') ∈ s1 ++ (d, b) :: s2) as Hss by set_solver.
  unfold log_arrival, receive_stream. destruct (decode_stream b) as [e|] eqn:Eb.
  - rewrite Hk in Eb. apply (decode_stream_cut env buf Henc Hlen) in Eb as [-> Hfits].
    destruct (spawned_receive d n m Hd) as (cs & -> & Hcs). split; simpl; try done.
    + unfold targets. simpl. rewrite fmap_app, <- list_fmap_compose.
      change (target ∘ (λ c, mkSendTask d c env Lookup) <$> cs) with (peer_of <$> cs). rewrite Hcs.
      eapply spread_perm; [|apply (spread_receive s header Htree log gone
        ((target <$> ts) ++ s1.*1 ++ s2.*1) d)].
      * rewrite fmap_app. solve_Permutation.
      * eapply spread_perm; [|exact H1]. rewrite fmap_app. simpl. solve_Permutation.
    + intros t [Hin|(c & -> & _)%list_elem_of_fmap]%elem_of_app; [by apply H2|by split].
    + intros d' b' Hin. by apply (H3 d'), Hss.
  - split; simpl; try done.
    + rewrite app_nil_r. eapply spread_perm; [|exact H1].
      unfold targets. simpl. rewrite !fmap_app. simpl. solve_Permutation.
    + rewrite app_nil_r. done.
    + intros d' b' Hin. by apply (H3 d'), Hss.
    + intros Hr Hf. rewrite (Hrel Hr), (decode_stream_frame env buf Henc Hf) in Eb. done.
Qed.

Lemma carrying_step net net' : carrying net → step net net' → carrying net'.
Proof.
  intros Hca Hs. destruct Hs as [t log gone l1 l2 ss ls ps Ht
    |t time pc pc' l l' log gone l1 l2 ss ls ps Ht Hl Hw
    |t limit w res log gone l1 l2 ss ls ps Ht Hlim Hw|t log gone l1 l2 ss ls ps Ht Hr
    |d b n m log gone ts s1 s2 ls ps Hd].
  - eapply carrying_retask; [done| |exact Hca].
    intros pc Hpc. destruct (ls !! task_key t) as [l|]; [|done]. injection Hpc as <-. eauto.
  - eapply carrying_retask; [apply insert_mono| |exact Hca].
    intros pc1 Hpc. rewrite lookup_insert_eq. destruct pc'; try done; injection Hpc as <-; eauto.
  - by eapply carrying_writes.
  - by apply carrying_refused.
  - by apply carrying_arrives.
Qed.

Abbreviation runs := (net_runs type_of reliable reg nodes peer_of).

Lemma carrying_runs net net' : carrying net → rtc runs net net' → carrying net'.
Proof.
  intros Hca Hr. induction Hr as [|net1 net2 net3 [Hs|Hs] _ IH]; [done|..]; apply IH.
  - by apply (carrying_step net1).
  - by apply (carrying_limiter_step net1).
Qed.

(** A task that is not blocked can go on. *)
Lemma task_progress t l1 l2 log gone ss ls ps :
  sound_task ls t → blocked t ∨
  ∃ net', data_step type_of true reg nodes peer_of (mkDataNet log gone (l1 ++ t :: l2) ss ls ps) net'.
Proof.
  intros [He Hw]. destruct (task_stage t) as [|pc|] eqn:Et.
  - right. eexists. by apply send_lookup.
  - destruct (Hw pc eq_refl) as [Hpc [l Hl]].
    destruct (wait_step 0 (task_size t) pc l) as [[pc' l']|] eqn:Es.
    + right. eexists. by eapply send_waits.
    + left. unfold blocked. rewrite Et. destruct pc; simpl in Es; try done; [by left| |by right].
      by destruct (check_n _ _ _).
  - right. destruct (write_frame (task_env t) (mkWriter [] None)) as [w res] eqn:Ew.
    eexists. by eapply send_writes.
Qed.

Lemma carrying_progress net :
  carrying net →
  sending net = [] ∧ streams net = [] ∨
  (∃ net', data_step type_of true reg nodes peer_of net net') ∨
  streams net = [] ∧ Forall blocked (sending net).
Proof.
  intros [H1 H2 _ _ _]. destruct net as [log gone ts [|[d b] ss] ls ps]; simpl in *.
  - assert ((∃ net', data_step type_of true reg nodes peer_of (mkDataNet log gone ts [] ls ps) net') ∨
      ∀ t, t ∈ ts → blocked t) as [?|Hb]; [|by auto|by right; right; rewrite Forall_forall].
    assert (∀ l : list SendTask, (∀ t, t ∈ l → t ∈ ts) → (∃ net', data_step type_of true reg nodes peer_of
      (mkDataNet log gone ts [] ls ps) net') ∨ ∀ t, t ∈ l → blocked t) as Hind; [|by apply (Hind ts)].
    induction l as [|t l IH]; intros Hl; [by right; intros ? ?%elem_of_nil|].
    destruct IH as [?|IH]; [intros; apply Hl; by right|by left|].
    destruct (list_elem_of_split ts t) as (l1 & l2 & ->); [apply Hl; by left|].
    destruct (task_progress t l1 l2 log gone [] ls ps) as [?|?]; [apply H2; set_solver| |by left].
    right. by intros t' [->|?]%elem_of_cons; auto.
  - right. left. destruct (sp_parent _ _ _ _ _ H1 d) as (u & _ & Hu).
    { unfold targets. simpl. set_solver. }
    destruct (Hconn u d Hu) as (_ & _ & _ & _ & [[n m] Hd] & _). eexists.
    exact (stream_arrives type_of true reg nodes peer_of d b n m log gone ts [] ss ls ps Hd).
Qed.

(** *** A flow without a limiter *)

(** How far the envelope has come: three steps for every node. *)
Definition task_work t : nat := match task_stage t with Lookup => 0 | _ => 1 end.

Definition steps_done net : nat :=
  3 * length (received net ++ lost net) + sum_list_with task_work (sending net) +
  2 * length (streams net).

Definition unlimited net : Prop :=
  (∀ u, net_limiters net !! (u, rh_flow_id header) = None) ∧
  ∀ t pc, t ∈ sending net → task_stage t ≠ Waiting pc.

Lemma unlimited_key net t : carrying net → unlimited net → t ∈ sending net →
  net_limiters net !! task_key t = None.
Proof.
  intros Hca [Hu _] Hin. destruct (ca_task _ Hca t Hin) as [He _].
  unfold task_key. rewrite He, Henv. apply Hu.
Qed.

Lemma unlimited_step net net' :
  carrying net → unlimited net → step net net' →
  unlimited net' ∧ steps_done net < steps_done net'.
Proof.
  intros Hca Hun Hs. pose proof (unlimited_key net) as Hkey. unfold steps_done.
  destruct Hun as [Hls Hts]. destruct Hs as [t log gone l1 l2 ss ls ps Ht
    |t time pc pc' l l' log gone l1 l2 ss ls ps Ht Hl Hw
    |t limit w res log gone l1 l2 ss ls ps Ht Hlim Hw|t log gone l1 l2 ss ls ps Ht Hr
    |d b n m log gone ts s1 s2 ls ps Hd]; simpl in *.
  - rewrite Hkey by (done || set_solver). split.
    + split; [done|]. simpl. intros t' pc Hin. assert (t' = at_stage Open t ∨ t' ∈ l1 ++ t :: l2) as [->|?]
        by set_solver; [done|by apply Hts].
    + assert (task_work t = 0) as Hz by (unfold task_work; by rewrite Ht).
      rewrite !sum_list_with_app. cbn [sum_list_with]. rewrite Hz.
      change (task_work (at_stage Open t)) with 1. lia.
  - destruct (Hts t pc); [set_solver|done].
  - split.
    + split; [done|]. simpl. intros t' pc' Hin. apply Hts. set_solver.
    + assert (task_work t = 1) as Hz by (unfold task_work; by rewrite Ht).
      rewrite !sum_list_with_app, !length_app. cbn [sum_list_with length]. lia.
  - split.
    + split; [done|]. simpl. intros t' pc' Hin. apply Hts. set_solver.
    + assert (task_work t = 1) as Hz by (unfold task_work; by rewrite Ht).
      rewrite !sum_list_with_app, !length_app. cbn [sum_list_with length]. lia.
  - split.
    + split; [done|]. simpl. intros t' pc' [Hin|Hin]%elem_of_app; [by apply Hts|].
      unfold spawned in Hin. apply list_elem_of_omap in Hin as ([c e|] & _ & [= <-]). done.
    + rewrite !sum_list_with_app, !length_app. simpl. unfold log_arrival.
      destruct (decode_stream b); simpl; rewrite !length_app; simpl; lia.
Qed.

Lemma unlimited_steps k net net' :
  carrying net → unlimited net → nsteps step k net net' →
  carrying net' ∧ k + steps_done net <= steps_done net'.
Proof.
  intros Hca Hun Hs. revert Hca Hun. induction Hs as [|k net1 net2 net3 Hs _ IH]; intros Hca Hun; [done|].
  destruct (unlimited_step net1 net2 Hca Hun Hs) as [Hun2 ?].
  destruct IH as [? ?]; [by apply (carrying_step net1)|done|]. split; [done|lia].
Qed.

Lemma steps_done_bound net :
  steps_done net <= 3 * length (received net ++ lost net ++ targets net).
Proof.
  unfold steps_done, targets. rewrite !length_app, !length_fmap.
  assert (∀ l, sum_list_with task_work l <= length l); [|specialize (H1 (sending net)); lia].
  induction l as [|t l IH]; simpl; [done|]. unfold task_work at 1. case_match; lia.
Qed.
End envelope.

(** ** Publishing *)

Lemma empty_tree s : tree_table ∅ s.
Proof.
  assert (∀ u v, ¬ sends ∅ u v) as Hno.
  { intros u v (t & Ht & _). by rewrite lookup_empty in Ht. }
  split; [naive_solver..|]. intros u t. by rewrite lookup_empty.
Qed.

(** What [publish] puts on the network, in terms of one forwarding table. *)
Lemma publish_start p fuel nonce now reg n m flow topic mt codec payload nodes peer_of :
  wf (fgraph n) → costs_fit (fgraph n) → is_Some (node_indices (fgraph n) !! node_id n) →
  length (Graph.nodes (fgraph n)) < 2 ^ fuel →
  nodes !! node_id n = Some (n, m) → connected (fgraph n) nodes peer_of →
  ∃ effs header,
    let env := mkEnvelope (Some header) mt codec payload in
    publish type_of p fuel nonce now reg n m flow topic mt codec payload = Ret effs ∧
    rh_flow_id header = flow ∧
    let table := rh_forwarding_table header in
    tree_table table (node_id n) ∧
    (∀ u v, sends table u v → is_Some (links (fgraph n) !! (u, v))) ∧
    (∀ sub, sub ∈ find_subscribers (fgraph n) topic →
      reachable (fgraph n) (node_id n) sub → ∃ l, delivery table (node_id n) (sub :: l)) ∧
    ∃ cs, spawned type_of (node_id n) effs = (λ c, mkSendTask (node_id n) c env Lookup) <$> cs ∧
      peer_of <$> cs = children header (node_id n).
Proof.
  intros Hwf Hfit Hknown Hfuel Hn Hconn. unfold publish.
  set (local := if existsb _ _ then _ else []).
  assert (spawned (Conn := Conn) type_of (node_id n) local = []) as Hlocal.
  { unfold local. case_match; [|done]. apply spawned_local. }
  destruct (forwarding_table_correct p fuel (fgraph n) (node_id n)
    (find_subscribers (fgraph n) topic) Hwf Hfit Hknown Hfuel)
    as (table & E & Hleast & Htree & Hlinks & _ & _).
  rewrite E. cbn [mbind outcome_bind].
  set (header := mkRoutingHeader _ _ _ _ _ _ _ _ table). set (env := mkEnvelope _ _ _ _).
  case_decide as Hsubs.
  - set (header0 := mkRoutingHeader (node_id n) flow topic "" nonce now 0 DELIVERY_GUARANTEED ∅).
    exists local, header0. cbv zeta.
    split; [done|]. split; [done|]. cbn [rh_forwarding_table header0]. split_and!.
    + apply empty_tree.
    + intros u v (t & Ht & _). by rewrite lookup_empty in Ht.
    + rewrite Hsubs. set_solver.
    + exists []. rewrite Hlocal. done.
  - exists (local ++ forward type_of (node_id n) m header env), header. cbv zeta. fold env.
    split; [done|]. split; [done|]. split_and!; try done.
    + intros sub Hsub Hr. destruct (Hleast sub Hsub Hr) as (l & c & Hd & _). by exists l.
    + rewrite spawned_app, Hlocal. simpl.
      eapply (spawned_forward nodes peer_of header env); [|done].
      intros u v Huv. apply (cn_link _ _ _ Hconn). by apply Hlinks.
Qed.

Context {DecodeError : Type} `{EC : !Codec Envelope DecodeError} `{CS : !CodecSpec EC}.

(** C3. Publishing delivers exactly once.  In a mesh whose links are live connections and whose
    path costs do not overflow, let a node publish a message whose envelope takes less than 4 GiB.
    In every run of the tasks that send and receive it, with the operations on the flow's rate
    limiters at any time and streams that may be refused or break off: the envelope is read at no
    node twice and never by the publisher, and at most as many nodes read or lose it as the mesh
    has; an envelope above the 16 MiB a frame may have is read by nobody; and while anything is
    left some task or stream can go on, except that all remaining tasks may be waiting to be
    notified by a [resume] of their flow.  When no stream is refused or breaks off and the envelope fits a frame,
    nothing is lost, and once nothing is left every subscriber of the topic that the mesh connects
    to the publisher has read it.  For a flow without a limiter the whole delivery takes at most
    three steps for every node of the mesh. *)
Theorem publish_exactly_once p fuel nonce now reg n m flow topic mt codec payload nodes peer_of :
  wf (fgraph n) → costs_fit (fgraph n) → is_Some (node_indices (fgraph n) !! node_id n) →
  length (Graph.nodes (fgraph n)) < 2 ^ fuel →
  nodes !! node_id n = Some (n, m) → connected (fgraph n) nodes peer_of →
  ∃ effs header, let env := mkEnvelope (Some header) mt codec payload in
    publish type_of p fuel nonce now reg n m flow topic mt codec payload = Ret effs ∧
    rh_flow_id header = flow ∧ (∀ c e, SendEnvelope type_of c e ∈ effs → e = env) ∧
    ∀ buf limiters pendings, encode env = Ok buf → (N.of_nat (length buf) < 4294967296)%N →
    let start := mkDataNet [] [] (spawned type_of (node_id n) effs) [] limiters pendings in
    (∀ reliable net, rtc (net_runs type_of reliable reg nodes peer_of) start net →
       NoDup (node_id n :: received net ++ lost net) ∧
       length (received net ++ lost net) <= length (Graph.nodes (fgraph n)) ∧
       ((max_frame < N.of_nat (length buf))%N → received net = []) ∧
       (sending net = [] ∧ streams net = [] ∨
        (∃ net', data_step type_of true reg nodes peer_of net net') ∨
        streams net = [] ∧ Forall blocked (sending net))) ∧
    (∀ net, rtc (net_runs type_of true reg nodes peer_of) start net →
       (N.of_nat (length buf) <= max_frame)%N →
       lost net = [] ∧
       (sending net = [] → streams net = [] → ∀ sub, sub ∈ find_subscribers (fgraph n) topic →
          reachable (fgraph n) (node_id n) sub → sub = node_id n ∨ sub ∈ received net)) ∧
    ((∀ u, limiters !! (u, flow) = None) →
     ∀ reliable k net, nsteps (data_step type_of reliable reg nodes peer_of) k start net →
       k <= 3 * length (Graph.nodes (fgraph n))).
Proof.
  intros Hwf Hfit Hknown Hfuel Hn Hconn.
  destruct (publish_start p fuel nonce now reg n m flow topic mt codec payload nodes peer_of
    Hwf Hfit Hknown Hfuel Hn Hconn) as (effs & header & E & Hflow & Htree & Hlinks & Hdel & cs & Hsp & Hcs).
  exists effs, header. cbv zeta. set (env := mkEnvelope _ _ _ _) in *. split; [done|]. split; [done|].
  split.
  { intros c e Hin. assert (mkSendTask (node_id n) c e Lookup ∈ spawned type_of (node_id n) effs) as Hin'.
    { apply list_elem_of_omap. by exists (SendEnvelope type_of c e). }
    rewrite Hsp in Hin'. by apply list_elem_of_fmap in Hin' as (c' & [= _ ->] & _). }
  intros buf limiters pendings Henc Hlen. rewrite Hsp. set (start := mkDataNet _ _ _ _ _ _).
  assert (∀ u v, sends (rh_forwarding_table header) u v →
    ∃ n m c, nodes !! u = Some (n, m) ∧ is_Some (nodes !! v) ∧ next_conn m v = Some c ∧ peer_of c = v)
    as Hc by (intros u v Huv; apply (cn_link _ _ _ Hconn); by apply Hlinks).
  pose proof (cn_id _ _ _ Hconn) as Hid.
  pose proof (λ reliable, carrying_start reliable reg nodes peer_of (node_id n) header env buf
    eq_refl Henc Hlen Htree Hid Hc cs limiters pendings Hcs) as Hstart. fold start in Hstart.
  assert (∀ reliable net, rtc (net_runs type_of reliable reg nodes peer_of) start net →
    carrying reliable peer_of (node_id n) header env buf net) as Hrun.
  { intros reliable net Hr. by eapply (carrying_runs reliable reg nodes peer_of). }
  split; [|split].
  - intros reliable net Hca%Hrun. pose proof (ca_spread _ _ _ _ _ _ _ Hca) as Hs. split_and!.
    + pose proof (sp_once _ _ _ _ _ Hs) as Hnd. rewrite app_assoc, app_comm_cons in Hnd.
      by apply NoDup_app in Hnd as (? & _).
    + apply (spread_bound _ _ (fgraph n)) in Hs; [|done..]. rewrite !length_app in *. lia.
    + intros Hbig. apply (ca_big _ _ _ _ _ _ _ Hca). unfold fits. lia.
    + by eapply (carrying_progress reliable reg nodes peer_of (node_id n) header env buf).
  - intros net Hca%Hrun Hf. pose proof (ca_lost _ _ _ _ _ _ _ Hca eq_refl Hf) as Hlost.
    split; [done|]. intros Hts Hss sub Hsub Hr. destruct (Hdel sub Hsub Hr) as [l Hl].
    pose proof (ca_spread _ _ _ _ _ _ _ Hca) as Hs. unfold targets in Hs.
    rewrite Hlost, Hts, Hss in Hs.
    apply elem_of_cons. eapply (spread_done (node_id n) header); [done..|by left].
  - intros Hno reliable k net Hs.
    destruct (unlimited_steps reliable reg nodes peer_of (node_id n) header env buf
      eq_refl Henc Hlen Htree Hid Hc k start net) as [Hca Hk]; [done| |done|].
    { split; [by rewrite Hflow|]. intros t pc (c & -> & _)%list_elem_of_fmap. done. }
    pose proof (steps_done_bound reliable reg nodes peer_of (node_id n) header env buf
      eq_refl Henc Hlen Htree Hid Hc net) as Hb.
    pose proof (spread_bound _ _ (fgraph n) _ _ _ Hwf Hlinks (ca_spread _ _ _ _ _ _ _ Hca)). lia.
Qed.
End facts.

(** ** A concrete mesh *)

Section concrete.
#[local] Existing Instance list_petgraph_spec.
#[local] Existing Instance key_order.
#[local] Existing Instance key_order_spec.
#[local] Existing Instance second_governor.
#[local] Instance graph_impl : PetGraph string LinkWeight := list_petgraph string LinkWeight.
#[local] Instance heap_impl : BinaryHeap DijkstraState := list_heap ds_cmp.
#[local] Existing Instance list_heap_spec.

(** Two nodes, [B] subscribed to [t]. *)
Definition duo_update : TopologyUpdate :=
  mkTopologyUpdate "A" 1 [flow_node "A"; mkNodeDescriptor "B" NODE_ROLE_FLOW {["sub:t" := ""]} 0] []
    [unit_link "A" "B"] [].

Definition duo_graph : GlobalGraph :=
  match apply_update duo_update new_graph with
  | Ret g => g
  | _ => new_graph
  end.

Lemma duo_graph_wf : wf duo_graph.
Proof.
  destruct (apply_update_refines duo_update new_graph wf_new) as (g & Hg & Hwf & _).
  unfold duo_graph. by rewrite Hg.
Qed.

Definition duo_node (id : string) : FlowNode (SocketAddr := string) (Handler := nat) :=
  with_graph duo_graph (new_node id).

(** A connection is named after the node at its end. *)
Definition duo_manager (peer : string) :
    ConnectionManager (Conn := string) (Metadata := FlowConnectionMetadata) :=
  mkManager {[1%N := mkWrapper peer (mkContext 1 false true true true true)
    (mkFlowMetadata (Some peer))]} (mkContext 0 false true true true true) 0 0.

Definition duo_peer (c : string) : string := c.

Definition duo_nodes : gmap string (FlowNode (SocketAddr := string) (Handler := nat) *
    ConnectionManager (Conn := string) (Metadata := FlowConnectionMetadata)) :=
  {["A" := (duo_node "A", duo_manager "B"); "B" := (duo_node "B", duo_manager "A")]}.

Lemma duo_links : links duo_graph = {[("A", "B") := mkLinkWeight 1 0; ("B", "A") := mkLinkWeight 1 0]}.
Proof. vm_compute. reflexivity. Qed.

Lemma duo_connected : connected duo_graph duo_nodes duo_peer.
Proof.
  split.
  - intros u n m. unfold duo_nodes. rewrite lookup_insert. case_decide; [naive_solver|].
    intros [? ?]%lookup_singleton_Some. naive_solver.
  - intros u v [w Hw]. rewrite duo_links, lookup_insert in Hw. case_decide as Hd.
    + injection Hd as <- <-. eexists _, _, "B". split_and!; try reflexivity.
      eexists. reflexivity.
    + apply lookup_singleton_Some in Hw as [[= <- <-] _].
      eexists _, _, "A". split_and!; try reflexivity. eexists. reflexivity.
Qed.

Lemma duo_costs_fit : costs_fit duo_graph.
Proof.
  exists 1%N. split; [|by vm_compute]. apply (bool_decide_unpack _). vm_compute. exact I.
Qed.

(** What [A] publishes on [t]. *)
Definition duo_publish := publish (Conn := string) sample_types Debug 3 "0" 0
  (new_registry sample_types) (duo_node "A") (duo_manager "B") "f" "t" "raw" CODEC_RAW [].

Definition duo_env : Envelope :=
  match duo_publish with
  | Ret (SendEnvelope _ _ env :: _) => env
  | _ => mkEnvelope None "" 0 []
  end.

#[local] Instance targets_eq_dec : EqDecision ForwardingTargets.
Proof. solve_decision. Defined.

#[local] Instance header_eq_dec : EqDecision RoutingHeader.
Proof. solve_decision. Defined.

#[local] Instance envelope_eq_dec : EqDecision Envelope.
Proof. solve_decision. Defined.

(** A codec for that one envelope. *)
#[local] Instance duo_codec : Codec Envelope string := {|
  encode e := if decide (e = duo_env) then Ok [Byte.x01] else Err "other";
  decode b := if decide (b = [Byte.x01]) then Ok duo_env else Err "other";
|}.

#[local] Instance duo_codec_spec : CodecSpec duo_codec.
Proof. split. intros m b. simpl. case_decide; [|done]. intros [= <-]. by subst m. Qed.

Lemma duo_encode : encode duo_env = Ok [Byte.x01].
Proof. simpl. by rewrite decide_True. Qed.

Definition duo_start (stage : stage) : DataNet :=
  mkDataNet [] [] [mkSendTask "A" "B" duo_env stage] [] ∅ [].

Definition duo_runs : DataNet → DataNet → Prop :=
  net_runs sample_types true (new_registry sample_types) duo_nodes duo_peer.

(** The task looks up the limiter, of which there is none, and writes; [B] reads. *)
Lemma duo_delivers : ∃ net, rtc duo_runs (duo_start Lookup) net ∧ received net = ["B"].
Proof.
  destruct (write_frame duo_env (mkWriter [] None)) as [w res] eqn:Hw.
  destruct (write_frame_sent duo_env _ duo_encode None w res Hw) as [_ Hs].
  pose proof (stream_arrives sample_types true (new_registry sample_types) duo_nodes duo_peer
    "B" (w_sent w) (duo_node "B") (duo_manager "A") [] [] [] [] [] ∅ [] eq_refl) as H3.
  eexists. split.
  - eapply (rtc_l _ _ (duo_start Open)).
    { left. exact (send_lookup sample_types true (new_registry sample_types) duo_nodes duo_peer
        (mkSendTask "A" "B" duo_env Lookup) [] [] [] [] [] ∅ [] eq_refl). }
    eapply rtc_l.
    { left. exact (send_writes sample_types true (new_registry sample_types) duo_nodes duo_peer
        (mkSendTask "A" "B" duo_env Open) None w res [] [] [] [] [] ∅ [] eq_refl (λ _, eq_refl) Hw). }
    apply rtc_once. left. exact H3.
  - cbn [received]. unfold log_arrival. rewrite (Hs eq_refl), (decode_stream_frame _ _ duo_encode); [done|].
    unfold fits, max_frame. simpl. lia.
Qed.

Lemma publish_exactly_once_witness :
  ∃ effs, duo_publish = Ret effs ∧
    ∃ net, rtc duo_runs (mkDataNet [] [] (spawned sample_types "A" effs) [] ∅ []) net ∧
      NoDup ("A" :: received net ++ lost net) ∧ lost net = [] ∧ received net = ["B"].
Proof.
  destruct (publish_exactly_once sample_types Debug 3 "0" 0 (new_registry sample_types)
    (duo_node "A") (duo_manager "B") "f" "t" "raw" CODEC_RAW [] duo_nodes duo_peer)
    as (effs & header & E & _ & Hsent & H).
  - exact duo_graph_wf.
  - exact duo_costs_fit.
  - vm_compute. eexists. reflexivity.
  - vm_compute. lia.
  - reflexivity.
  - exact duo_connected.
  - exists effs. split; [exact E|].
    assert (effs = [SendEnvelope sample_types "B" duo_env]) as ->.
    { assert (duo_publish = Ret [SendEnvelope sample_types "B" duo_env]) as E' by (vm_compute; reflexivity).
      unfold duo_publish in E'. rewrite E in E'. injection E' as ->. reflexivity. }
    assert (mkEnvelope (Some header) "raw" CODEC_RAW [] = duo_env) as Henv
      by (symmetry; apply (Hsent "B" duo_env); left).
    rewrite Henv in H. destruct duo_delivers as (net & Hr & Hlog). exists net.
    destruct (H [Byte.x01] ∅ [] duo_encode ltac:(simpl; lia)) as (H1 & H2 & _).
    split; [exact Hr|]. split; [exact (proj1 (H1 true net Hr))|].
    split; [|exact Hlog]. apply (H2 net Hr). unfold max_frame. simpl. lia.
Defined.
End concrete.
