(* ===== verification/FlowFacts.v ===== *)
(** * Facts about the control engine

    The node's invariant and its preservation by every branch of the control loop,
    the absence of panics in the release build, and the growth of epochs. *)
From S2P Require Import Prelude Proto Topic Graph GraphFacts Dijkstra Reconciliation.
From S2P Require Import Backpressure FlowNode.
From stdpp Require Import options.

(** ** Epochs *)

Lemma is_newer_spec epochs o e :
  is_newer epochs o e = true ↔ ∀ e', epochs !! o = Some e' → (e' < e)%N.
Proof.
  unfold is_newer. destruct (epochs !! o) as [e'|]; simpl.
  - rewrite N.ltb_lt. naive_solver.
  - naive_solver.
Qed.

Lemma is_newer_false epochs o e :
  is_newer epochs o e = false ↔ ∃ e', epochs !! o = Some e' ∧ (e <= e')%N.
Proof.
  unfold is_newer. destruct (epochs !! o) as [e'|]; simpl.
  - rewrite N.ltb_ge. naive_solver.
  - naive_solver.
Qed.

Lemma insert_epoch_mono epochs o e o' e' :
  is_newer epochs o e = true → epochs !! o' = Some e' →
  ∃ e'', <[o := e]> epochs !! o' = Some e'' ∧ (e' <= e'')%N.
Proof.
  intros Hn Ho. rewrite lookup_insert. case_decide as Heq; [|by eauto].
  subst. rewrite is_newer_spec in Hn. specialize (Hn e' Ho). exists e. split; [done|lia].
Qed.

Section facts.
#[local] Set Default Proof Using "Type*".
Context `{PS : PetGraphSpec string LinkWeight} `{HS : HashOrderSpec} `{G : Governor}.
Context {SocketAddr : Type} `{Countable SocketAddr} {Handler : Type}.

Abbreviation FlowNode := (FlowNode (SocketAddr := SocketAddr) (Handler := Handler)).
Abbreviation Effect := (Effect (SocketAddr := SocketAddr)).
Implicit Types (n : FlowNode) (eff : list Effect).

(** ** Sending *)

Lemma elem_of_gossip from origin p n (e : Effect) :
  e ∈ gossip from origin p n ↔
  ∃ peer tx, e = Send tx (to_message p) ∧ peer_writers n !! peer = Some tx ∧
    peer ≠ from ∧ peer ≠ origin.
Proof.
  unfold gossip, get_peer_writers. rewrite list_elem_of_fmap. split.
  - intros ([peer tx] & -> & [Hne Hin]%list_elem_of_filter).
    rewrite (map_iter_perm (peer_writers n)), elem_of_map_to_list in Hin. simpl in *. eauto 10.
  - intros (peer & tx & -> & Hw & Hne). exists (peer, tx). split; [done|].
    apply list_elem_of_filter. split; [done|].
    by rewrite (map_iter_perm (peer_writers n)), elem_of_map_to_list.
Qed.

Lemma elem_of_broadcast p n (e : Effect) :
  e ∈ broadcast_control_message p n ↔
  ∃ peer tx, e = Send tx (to_message p) ∧ peer_writers n !! peer = Some tx.
Proof.
  unfold broadcast_control_message, get_peer_writers. rewrite list_elem_of_fmap. split.
  - intros ([peer tx] & -> & Hin).
    rewrite (map_iter_perm (peer_writers n)), elem_of_map_to_list in Hin. simpl in *. eauto.
  - intros (peer & tx & -> & Hw). exists (peer, tx). split; [done|].
    by rewrite (map_iter_perm (peer_writers n)), elem_of_map_to_list.
Qed.

(** One copy per peer. *)
Lemma length_gossip from origin p n :
  length (gossip (SocketAddr := SocketAddr) from origin p n) =
  size (filter (λ pt : string * nat, pt.1 ≠ from ∧ pt.1 ≠ origin) (peer_writers n)).
Proof.
  unfold gossip, get_peer_writers. rewrite length_fmap, (map_iter_perm (peer_writers n)).
  by rewrite <- length_map_to_list, map_to_list_filter_perm.
Qed.

Lemma length_broadcast p n :
  length (broadcast_control_message (SocketAddr := SocketAddr) p n) = size (peer_writers n).
Proof.
  unfold broadcast_control_message, get_peer_writers.
  by rewrite length_fmap, (map_iter_perm (peer_writers n)), length_map_to_list.
Qed.

(** ** The node's invariant *)

Record node_wf (n : FlowNode) : Prop := {
  nw_graph : wf (fgraph n);
  nw_sessions id s : sessions n !! id = Some s → session_id s = id;
}.

Lemma touches_seen (ts : list (nat * NodeDescriptor)) (now : nat → Instant) n :
  ∃ seen, foldl (λ n '(i, d), touch (nd_node_id d) (now (2 + i)) n) n ts = with_seen seen n.
Proof.
  revert n. induction ts as [|[i d] ts IH]; intros n; cbn [foldl].
  - exists (node_last_seen n). by destruct n.
  - destruct (IH (touch (nd_node_id d) (now (2 + i)) n)) as [seen ->]. by exists seen.
Qed.

Lemma handle_topology_update_eq clk from u n :
  ∃ seen, handle_topology_update clk from u n =
    if is_newer (last_epochs n) (origin_node_id u) (tu_epoch u) then
      g ← apply_update u (fgraph n);
      let n' := with_graph g (with_epochs
        (<[origin_node_id u := tu_epoch u]> (last_epochs n)) (with_seen seen n)) in
      Ret (n', gossip from (origin_node_id u) (MTopologyUpdate u) n')
    else Ret (with_seen seen n, []).
Proof.
  unfold handle_topology_update.
  destruct (touches_seen (imap pair (nodes_added u)) (instant clk)
    (touch (origin_node_id u) (instant clk 1) n)) as [seen ->].
  by exists seen.
Qed.

Lemma insert_session_wf (m : gmap string Session) id s :
  (∀ id s, m !! id = Some s → session_id s = id) → session_id s = id →
  ∀ id' s', <[id := s]> m !! id' = Some s' → session_id s' = id'.
Proof. intros Hm Hs id' s'. rewrite lookup_insert. case_decide; naive_solver. Qed.

Lemma delete_session_wf (m : gmap string Session) id :
  (∀ id s, m !! id = Some s → session_id s = id) →
  ∀ id' s', delete id m !! id' = Some s' → session_id s' = id'.
Proof. intros Hm id' s' [_ Hs]%lookup_delete_Some. by apply Hm. Qed.

Lemma merge_state_id p f sync s s' :
  merge_state p f sync s = Ret (Some s') → session_id s' = session_id s.
Proof.
  unfold merge_state. destruct f as [f|].
  - destruct (f _ _); [|done]. intros (v & _ & [= <-])%bind_Ret. done.
  - case_match; [|done]. by intros [= <-].
Qed.

Lemma handle_pong_wf p clk from pong n n' eff :
  node_wf n → handle_pong p clk from pong n = Ret (n', eff) →
  node_wf n' ∧ node_id n' = node_id n.
Proof.
  intros [Hg Hs]. unfold handle_pong.
  intros (rtt & _ & (g & Hal & Hk)%bind_Ret)%bind_Ret.
  destruct (add_link_refines (fgraph n) (mkLinkDescriptor (node_id n) from 1 rtt) Hg)
    as (g' & Hal' & Hwf' & _).
  assert (g' = g) as -> by congruence.
  assert (node_wf (with_graph g n)) as Hn by by split.
  destruct (negb _); [|by injection Hk as <- <-].
  apply bind_Ret in Hk as (e & _ & ([ns ls] & _ & Hk)%bind_Ret). injection Hk as <- <-.
  by destruct Hn.
Qed.

Lemma handle_session_control_wf p from m n n' eff :
  node_wf n → handle_session_control p from m n = Ret (n', eff) →
  node_wf n' ∧ node_id n' = node_id n.
Proof.
  intros [Hg Hs]. destruct m as [c|j|l|c|s]; simpl.
  - unfold handle_create. case_match; intros [= <- <-]; [done|]. split; [|done].
    split; [done|]. simpl. by apply insert_session_wf.
  - by intros [= <- <-].
  - by intros [= <- <-].
  - unfold handle_close. case_match; intros [= <- <-]; (split; [|done]);
      (split; [done|]); simpl; by apply delete_session_wf.
  - unfold handle_state_sync. destruct (sessions n !! _) as [s0|] eqn:E; [|by intros [= <- <-]].
    intros ([s1|] & Hm & Hk)%bind_Ret; injection Hk as <- <-; [|done]. split; [|done].
    split; [done|]. simpl. apply insert_session_wf; [done|].
    apply merge_state_id in Hm. rewrite Hm. by apply Hs.
Qed.

Lemma handle_payload_wf p clk from payload n n' eff :
  node_wf n → handle_payload p clk from payload n = Ret (n', eff) →
  node_wf n' ∧ node_id n' = node_id n.
Proof.
  intros Hn. pose proof Hn as [Hg Hs]. destruct payload as [| | | |u|u|b|[[m|]]|pi|po]; simpl;
    try by intros [= <- <-].
  - destruct (handle_topology_update_eq clk from u n) as [seen ->].
    destruct (is_newer _ _ _); [|by intros [= <- <-]].
    destruct (apply_update_refines u (fgraph n) Hg) as (g & -> & Hwf & _).
    by intros [= <- <-].
  - unfold handle_subscription_update. case_match; intros [= <- <-]; [|done]. split; [|done].
    split; [|done]. simpl. by apply add_node_refines.
  - by apply handle_session_control_wf.
  - unfold handle_ping. case_match; by intros [= <- <-].
  - by apply handle_pong_wf.
Qed.

Lemma handle_event_wf p clk ev n n' eff :
  node_wf n → handle_event p clk ev n = Ret (n', eff) →
  node_wf n' ∧ node_id n' = node_id n.
Proof.
  intros Hn. pose proof Hn as [Hg Hs]. destruct ev as [peer tx|peer|from [payload]]; simpl.
  - by intros [= <- <-].
  - unfold handle_peer_disconnected. simpl. destruct (peer_addresses n !! peer) as [[addr name]|];
      by intros [= <- <-].
  - destruct payload as [payload|]; [|by intros [= <- <-]].
    apply (handle_payload_wf p clk from payload (touch from (instant clk 0) n)). done.
Qed.

(** ** Who is sent to *)

Definition sends_to_peers n (eff : list Effect) : Prop :=
  ∀ tx msg, Send tx msg ∈ eff → ∃ peer, peer_writers n !! peer = Some tx.

Lemma sends_nil n : sends_to_peers n [].
Proof. by intros tx msg ?%elem_of_nil. Qed.

Lemma sends_gossip from o q n n' :
  peer_writers n' = peer_writers n → sends_to_peers n (gossip from o q n').
Proof.
  intros Hpw tx msg (peer & tx' & [= -> _] & Hp & _)%elem_of_gossip. rewrite Hpw in Hp. eauto.
Qed.

Lemma sends_broadcast q n n' :
  peer_writers n' = peer_writers n → sends_to_peers n (broadcast_control_message q n').
Proof.
  intros Hpw tx msg (peer & tx' & [= -> _] & Hp)%elem_of_broadcast. rewrite Hpw in Hp. eauto.
Qed.

#[local] Hint Resolve sends_nil sends_gossip sends_broadcast : stric.

(** Handling a message leaves the peers' channels alone and sends only on them. *)
Lemma handle_payload_writers p clk from payload n n' eff :
  handle_payload p clk from payload n = Ret (n', eff) →
  peer_writers n' = peer_writers n ∧ sends_to_peers n eff.
Proof.
  intros Hev. destruct payload as [| | | |u|u|b|[[m|]]|pi|po]; simpl in Hev;
    try (injection Hev as <- <-; by auto with stric).
  - destruct (handle_topology_update_eq clk from u n) as [seen Heq]. rewrite Heq in Hev.
    inv_ret Hev; simpl; auto with stric.
  - unfold handle_subscription_update in Hev. inv_ret Hev; simpl; auto with stric.
  - destruct m; simpl in Hev; unfold handle_create, handle_join, handle_leave, handle_close,
      handle_state_sync in Hev; cbn -[merge_state] in Hev; inv_ret Hev; simpl; auto with stric.
  - unfold handle_ping in Hev. destruct (peer_writers n !! from) as [tx|] eqn:Ep; inv_ret Hev;
      [|by auto with stric]. split; [done|].
    intros tx' msg [= -> ->]%list_elem_of_singleton. eauto.
  - unfold handle_pong in Hev. inv_ret Hev; simpl; auto with stric.
Qed.

(** ** No panic in the release profile *)

Lemma u64_release a b :
  (∃ r, u64_add Release a b = Ret r) ∧ (∃ r, u64_mul Release a b = Ret r).
Proof. unfold u64_add, u64_mul. split; case_match; eauto. Qed.

Lemma merge_state_release f sync s : ∃ r, merge_state Release f sync s = Ret r.
Proof.
  unfold merge_state. destruct f as [f|]; [|case_match; eauto].
  destruct (f _ _); [|by eauto].
  destruct (u64_release (N.max (state_version s) (ss_version sync)) 1) as [[v ->] _].
  simpl. eauto.
Qed.

Lemma handle_pong_release clk from pong n :
  node_wf n → ∃ r, handle_pong Release clk from pong n = Ret r.
Proof.
  intros [Hg Hs]. unfold handle_pong.
  destruct (u64_release (system clk 0 - ping_sent_at pong) 1000) as [_ [rtt ->]]. simpl.
  destruct (add_link_refines (fgraph n) (mkLinkDescriptor (node_id n) from 1 rtt) Hg)
    as (g & -> & Hwf & _). simpl. destruct (negb _); [|by eauto].
  destruct (u64_release (default 0%N (last_epochs n !! node_id n)) 1) as [[e ->] _]. simpl.
  rewrite (get_descriptors_spec g Hwf). simpl. eauto.
Qed.

Lemma handle_event_release clk ev n :
  node_wf n → ∃ r, handle_event Release clk ev n = Ret r.
Proof.
  intros [Hg Hs]. destruct ev as [peer tx|peer|from [[payload|]]]; simpl; [by eauto| | |by eauto].
  { unfold handle_peer_disconnected. case_match; [|by eauto]. case_match; eauto. }
  assert (node_wf (touch from (instant clk 0) n)) as Hn by by split.
  revert Hn. generalize (touch from (instant clk 0) n). clear n Hg Hs. intros n Hn.
  pose proof Hn as [Hg Hs]. destruct payload as [| | | |u|u|b|[[m|]]|pi|po]; simpl; try by eauto.
  - destruct (handle_topology_update_eq clk from u n) as [seen ->].
    destruct (is_newer _ _ _); [|by eauto].
    destruct (apply_update_refines u (fgraph n) Hg) as (g & -> & Hwf & _). simpl. eauto.
  - unfold handle_subscription_update. case_match; eauto.
  - destruct m; simpl; unfold handle_create, handle_join, handle_leave, handle_close,
      handle_state_sync; try (repeat case_match; by eauto).
    destruct (sessions n !! _) as [s0|]; [|by eauto].
    destruct (merge_state_release (merge_fns n !! ss_session_id state_sync) state_sync s0) as [r ->].
    simpl. destruct r; eauto.
  - unfold handle_ping. case_match; eauto.
  - by apply handle_pong_release.
Qed.

Lemma run_control_loop_release events n :
  node_wf n → ∃ n' eff, run_control_loop Release events n = Ret (n', eff) ∧
    node_wf n' ∧ node_id n' = node_id n.
Proof.
  revert n. induction events as [|[clk ev] events IH]; intros n Hn; simpl; [by eauto 10|].
  destruct (handle_event_release clk ev n Hn) as [[n1 eff1] E]. rewrite E. simpl.
  destruct (handle_event_wf _ _ _ _ _ _ Hn E) as [Hn1 Hid].
  destruct (IH n1 Hn1) as (n2 & eff2 & -> & Hn2 & Hid2). simpl.
  eexists _, _. split; [done|]. split; [done|congruence].
Qed.

(** ** Epochs only grow *)

Lemma handle_session_control_epochs p from m n n' eff :
  handle_session_control p from m n = Ret (n', eff) →
  last_epochs n' = last_epochs n ∧ last_subscription_epochs n' = last_subscription_epochs n.
Proof.
  intros Hev. destruct m; simpl in Hev;
    unfold handle_create, handle_join, handle_leave, handle_close, handle_state_sync in Hev;
    by inv_ret Hev.
Qed.

Lemma handle_event_epochs p clk ev n n' eff o e :
  handle_event p clk ev n = Ret (n', eff) → p = Debug ∨ o ≠ node_id n →
  last_epochs n !! o = Some e → ∃ e', last_epochs n' !! o = Some e' ∧ (e <= e')%N.
Proof.
  intros Hev Hp Ho.
  assert (last_epochs n' = last_epochs n → ∃ e', last_epochs n' !! o = Some e' ∧ (e <= e')%N)
    as Hsame by (intros ->; eauto).
  destruct ev as [peer tx|peer|from [[payload|]]]; simpl in Hev.
  - by injection Hev as <- <-; apply Hsame.
  - unfold handle_peer_disconnected in Hev. repeat case_match; injection Hev as <- <-; by apply Hsame.
  - set (n0 := touch from (instant clk 0) n) in *.
    destruct payload as [| | | |u|u|b|[[m|]]|pi|po]; simpl in Hev;
      try (by injection Hev as <- <-; apply Hsame).
    + destruct (handle_topology_update_eq clk from u n0) as [seen Eq]. rewrite Eq in Hev.
      destruct (is_newer _ _ _) eqn:En; [|by injection Hev as <- <-; apply Hsame].
      apply bind_Ret in Hev as (g & _ & Hev). injection Hev as <- <-. simpl.
      by apply insert_epoch_mono.
    + unfold handle_subscription_update in Hev.
      case_match; injection Hev as <- <-; by apply Hsame.
    + apply handle_session_control_epochs in Hev as [Hev _]. by apply Hsame.
    + unfold handle_ping in Hev. case_match; injection Hev as <- <-; by apply Hsame.
    + unfold handle_pong in Hev. apply bind_Ret in Hev as (rtt & _ & (g & _ & Hev)%bind_Ret).
      destruct (negb _); [|by injection Hev as <- <-; apply Hsame].
      apply bind_Ret in Hev as (e1 & He1 & ([ns ls] & _ & Hev)%bind_Ret).
      injection Hev as <- <-. simpl. rewrite lookup_insert.
      case_decide as Heq; [|by eauto]. simpl in *. subst o. exists e1. split; [done|].
      destruct Hp as [->|]; [|done]. rewrite Ho in He1. simpl in He1.
      unfold u64_add in He1. case_match; [|done]. injection He1 as <-. lia.
  - by injection Hev as <- <-; apply Hsame.
Qed.

Lemma handle_event_node_id p clk ev n n' eff :
  handle_event p clk ev n = Ret (n', eff) → node_id n' = node_id n.
Proof.
  intros Hev. destruct ev as [peer tx|peer|from [[payload|]]]; simpl in Hev;
    [by inv_ret Hev|unfold handle_peer_disconnected in Hev; by inv_ret Hev| |by inv_ret Hev].
  set (n0 := touch from (instant clk 0) n) in *.
  destruct payload as [| | | |u|u|b|[[[]|]]|pi|po]; simpl in Hev;
    try destruct (handle_topology_update_eq clk from u n0) as [seen Eq];
    try rewrite Eq in Hev;
    unfold handle_subscription_update, handle_create, handle_join, handle_leave, handle_close,
      handle_state_sync, handle_ping, handle_pong, handle_backpressure in Hev;
    by inv_ret Hev.
Qed.

Lemma run_control_loop_epochs p events n n' eff o e :
  run_control_loop p events n = Ret (n', eff) → p = Debug ∨ o ≠ node_id n →
  last_epochs n !! o = Some e → ∃ e', last_epochs n' !! o = Some e' ∧ (e <= e')%N.
Proof.
  revert n eff e. induction events as [|[clk ev] events IH]; intros n eff e; simpl.
  - intros [= <- <-] _ ?. eauto.
  - intros ([n1 eff1] & E1 & ([n2 eff2] & E2 & Hk)%bind_Ret)%bind_Ret Hp Ho.
    injection Hk as <- <-. pose proof (handle_event_node_id _ _ _ _ _ _ E1) as Hid.
    destruct (handle_event_epochs _ _ _ _ _ _ _ _ E1 Hp Ho) as (e1 & Ho1 & Hle).
    destruct (IH n1 eff2 e1) as (e2 & Ho2 & Hle2); [done|by rewrite Hid|done|].
    exists e2. split; [done|lia].
Qed.
End facts.
