(* ===== verification/ControlFacts.v ===== *)
(** * What the control engine does with topology, subscription and backpressure
      messages *)
From S2P Require Import Prelude Proto Topic Graph GraphFacts Dijkstra Reconciliation.
From S2P Require Import Backpressure FlowNode FlowFacts.
From stdpp Require Import options.

(** ** Subscriptions *)

Lemma subscription_capabilities_spec entries k :
  k ∈ dom (subscription_capabilities entries) ↔
  ∃ e, e ∈ entries ∧ se_action e = SUBSCRIBE ∧ k = "sub:" +:+ se_pattern e.
Proof.
  unfold subscription_capabilities.
  assert (∀ c : gmap string string,
    k ∈ dom (foldl (λ c entry, if decide (se_action entry = SUBSCRIBE)
      then <["sub:" +:+ se_pattern entry := ""]> c else c) c entries) ↔
    k ∈ dom c ∨ ∃ e, e ∈ entries ∧ se_action e = SUBSCRIBE ∧ k = "sub:" +:+ se_pattern e) as Hg.
  { induction entries as [|e es IH]; intros c; simpl; [set_solver|]. rewrite IH.
    case_decide; [rewrite dom_insert_L|]; set_solver. }
  rewrite Hg, dom_empty_L. set_solver.
Qed.

Section facts.
#[local] Set Default Proof Using "Type*".
Context `{PS : PetGraphSpec string LinkWeight} `{HS : HashOrderSpec} `{G : Governor}.
Context {SocketAddr : Type} `{Countable SocketAddr} {Handler : Type}.

Abbreviation FlowNode := (FlowNode (SocketAddr := SocketAddr) (Handler := Handler)).
Abbreviation Effect := (Effect (SocketAddr := SocketAddr)).
Implicit Types (n : FlowNode) (eff : list Effect).

(** A control message from a peer. *)
Definition received (from : string) (p : ControlPayload) : ControlEvent :=
  ControlMsgReceived from (to_message p).

Lemma subscription_entries_spec subs k :
  k ∈ dom (subscription_capabilities (subscription_entries subs)) ↔
  ∃ pat, pat ∈ subs ∧ k = "sub:" +:+ pat.
Proof.
  rewrite subscription_capabilities_spec. unfold subscription_entries.
  setoid_rewrite list_elem_of_fmap. setoid_rewrite (set_iter_perm subs).
  setoid_rewrite elem_of_elements. naive_solver.
Qed.

Lemma sub_prefix_inj a b : "sub:" +:+ a = "sub:" +:+ b → a = b.
Proof. by intros [= ?]. Qed.

Lemma add_node_metadata d (g : GlobalGraph) :
  wf g → node_metadata (add_node d g) = <[nd_node_id d := d]> (node_metadata g).
Proof. intros Hwf. by destruct (add_node_refines g d Hwf) as [_ [= _ _ ?]]. Qed.

(** Handling a subscription update, by cases. *)
Lemma handle_subscription_eq p clk from u n :
  ∃ seen, handle_event p clk (received from (MSubscriptionUpdate u)) n =
    if is_newer (last_subscription_epochs n) (su_node_id u) (su_epoch u) then
      let n' := with_graph (add_node (mkNodeDescriptor (su_node_id u) NODE_ROLE_FLOW
                  (subscription_capabilities (su_entries u)) (system clk 0)) (fgraph n))
                (with_subscription_epochs
                  (<[su_node_id u := su_epoch u]> (last_subscription_epochs n))
                  (with_seen seen n)) in
      Ret (n', gossip from (su_node_id u) (MSubscriptionUpdate u) n')
    else Ret (with_seen seen n, []).
Proof. eexists. reflexivity. Qed.

Lemma subscribe_task_eq p pat n :
  (default 0 (last_subscription_epochs n !! node_id n) < u64_max)%N →
  subscribe_task p pat n = Ret
    (with_subscriptions ({[pat]} ∪ local_subscriptions n) n,
     received (node_id n) (MSubscriptionUpdate (mkSubscriptionUpdate (node_id n)
       (subscription_entries ({[pat]} ∪ local_subscriptions n))
       (default 0 (last_subscription_epochs n !! node_id n) + 1)%N))).
Proof.
  intros He. unfold subscribe_task, u64_add. simpl.
  destruct (N.leb_spec (default 0 (last_subscription_epochs n !! node_id n) + 1)%N u64_max); [done|lia].
Qed.

Lemma own_epoch_newer n :
  is_newer (last_subscription_epochs n) (node_id n)
    (default 0 (last_subscription_epochs n !! node_id n) + 1)%N = true.
Proof. apply is_newer_spec. intros e He. rewrite He. simpl. lia. Qed.

(** ** Theorems *)

(** C9. The control loop of the release build handles every sequence of events
    without a panic and keeps the node's invariant: the mesh graph stays well
    formed and every session is stored under its own identifier. *)
Theorem control_loop_total events n :
  node_wf n → ∃ n' eff, run_control_loop Release events n = Ret (n', eff) ∧
    node_wf n' ∧ node_id n' = node_id n.
Proof. apply run_control_loop_release. Qed.

(** C11. A topology update whose epoch is above the epoch the node has recorded for its origin,
    or whose origin the node has no record of, is applied to the graph, its epoch is recorded
    and it is passed on once to every peer but the sender and the origin; one whose epoch is
    recorded already, or is below the recorded one, changes neither graph nor epochs and is
    passed on to nobody. *)
Theorem topology_update_handled p clk from u n :
  node_wf n →
  ∃ n' eff, handle_event p clk (received from (MTopologyUpdate u)) n = Ret (n', eff) ∧
    sessions n' = sessions n ∧ peer_writers n' = peer_writers n ∧
    ((∀ e, last_epochs n !! origin_node_id u = Some e → (e < tu_epoch u)%N) →
      abs (fgraph n') = mesh_apply_update u (abs (fgraph n)) ∧
      last_epochs n' = <[origin_node_id u := tu_epoch u]> (last_epochs n) ∧
      (∀ e, e ∈ eff ↔ ∃ peer tx, e = Send tx (to_message (MTopologyUpdate u)) ∧
         peer_writers n !! peer = Some tx ∧ peer ≠ from ∧ peer ≠ origin_node_id u) ∧
      length eff = size (filter (λ pt : string * nat, pt.1 ≠ from ∧ pt.1 ≠ origin_node_id u)
                     (peer_writers n))) ∧
    (∀ e, last_epochs n !! origin_node_id u = Some e → (tu_epoch u <= e)%N →
      fgraph n' = fgraph n ∧ last_epochs n' = last_epochs n ∧ eff = []).
Proof.
  intros [Hg _]. unfold received. simpl.
  destruct (handle_topology_update_eq clk from u (touch from (instant clk 0) n)) as [seen ->].
  simpl. destruct (is_newer _ _ _) eqn:En.
  - pose proof (proj1 (is_newer_spec _ _ _) En) as Hnew. clear En.
    destruct (apply_update_refines u (fgraph n) Hg) as (g & -> & Hwf & Habs). simpl.
    eexists _, _. split; [done|]. split_and!; try done.
    + intros _. split_and!; try done; [intros e; by rewrite elem_of_gossip|by rewrite length_gossip].
    + intros e He Hle. specialize (Hnew _ He). lia.
  - apply is_newer_false in En as (e & He & Hle). eexists _, _. split_and!; try done.
    intros Hnew. specialize (Hnew e He). lia.
Qed.

(** Gossip dies out: a node that has handled a topology update never applies it
    or passes it on again, whoever sends it and whatever happened in between.  (In
    the release build an update in the node's own name is excepted, since its own
    epoch counter may wrap around.) *)
Lemma topology_update_once p clk clk' from from' u events n n1 eff1 n2 eff2 :
  p = Debug ∨ origin_node_id u ≠ node_id n →
  handle_event p clk (received from (MTopologyUpdate u)) n = Ret (n1, eff1) →
  run_control_loop p events n1 = Ret (n2, eff2) →
  ∃ seen, handle_event p clk' (received from' (MTopologyUpdate u)) n2 =
    Ret (with_seen seen n2, []).
Proof.
  intros Hp H1 H2. pose proof (handle_event_node_id _ _ _ _ _ _ H1) as Hid.
  assert (∃ e, last_epochs n1 !! origin_node_id u = Some e ∧ (tu_epoch u <= e)%N) as (e & He & Hle).
  { unfold received in H1. simpl in H1.
    destruct (handle_topology_update_eq clk from u (touch from (instant clk 0) n)) as [seen Eq].
    rewrite Eq in H1. simpl in H1. destruct (is_newer _ _ _) eqn:En.
    - apply bind_Ret in H1 as (g & _ & H1). injection H1 as <- <-. simpl.
      exists (tu_epoch u). by rewrite lookup_insert_eq.
    - injection H1 as <- <-. by apply is_newer_false in En. }
  destruct (run_control_loop_epochs p events n1 n2 eff2 (origin_node_id u) e)
    as (e2 & He2 & Hle2); [done|by rewrite Hid|done|].
  unfold received. simpl.
  destruct (handle_topology_update_eq clk' from' u (touch from' (instant clk' 0) n2)) as [seen ->].
  simpl. assert (is_newer (last_epochs n2) (origin_node_id u) (tu_epoch u) = false) as ->.
  { apply is_newer_false. exists e2. split; [done|lia]. }
  by exists seen.
Qed.

(** Subscribing takes effect: once the update that [subscribe]'s task queued is
    handled, the node's own descriptor announces exactly the patterns it is
    subscribed to, and every peer is sent the update. *)
Lemma subscribe_announces p clk pat n :
  node_wf n → (default 0 (last_subscription_epochs n !! node_id n) < u64_max)%N →
  ∃ n1 ev n2 eff u, subscribe_task p pat n = Ret (n1, ev) ∧
    handle_event p clk ev n1 = Ret (n2, eff) ∧
    (∃ d, node_metadata (fgraph n2) !! node_id n = Some d ∧
       ∀ k, k ∈ dom (nd_capabilities d) ↔
         ∃ pat', k = "sub:" +:+ pat' ∧ (pat' = pat ∨ pat' ∈ local_subscriptions n)) ∧
    (∀ peer tx, peer_writers n !! peer = Some tx → peer ≠ node_id n →
       Send tx (to_message (MSubscriptionUpdate u)) ∈ eff) ∧
    su_node_id u = node_id n.
Proof.
  intros [Hg _] He. eexists _, _.
  set (n1 := with_subscriptions ({[pat]} ∪ local_subscriptions n) n).
  set (u := mkSubscriptionUpdate (node_id n)
    (subscription_entries ({[pat]} ∪ local_subscriptions n))
    (default 0 (last_subscription_epochs n !! node_id n) + 1)%N).
  destruct (handle_subscription_eq p clk (node_id n) u n1) as [seen Hev].
  assert (is_newer (last_subscription_epochs n1) (su_node_id u) (su_epoch u) = true) as Hnew
    by exact (own_epoch_newer n).
  rewrite Hnew in Hev. set (n2 := with_graph _ _) in Hev.
  exists n2, (gossip (node_id n) (node_id n) (MSubscriptionUpdate u) n2), u.
  split; [by apply subscribe_task_eq|]. split; [exact Hev|]. split_and!; try done.
  - cbn [n2 fgraph with_graph with_subscription_epochs with_seen n1 with_subscriptions].
    rewrite add_node_metadata by done. simpl. rewrite lookup_insert_eq.
    eexists. split; [done|]. intros k. simpl. rewrite subscription_entries_spec. set_solver.
  - intros peer tx Hpeer Hne. apply elem_of_gossip. by exists peer, tx.
Qed.

(** Two subscriptions in quick succession: when the second task runs before the
    control loop has handled the first one's update, both updates carry the same
    epoch, so the second is dropped: it is sent to nobody and the node never
    announces the second pattern. *)
Lemma second_subscription_lost p c1 c2 a b n :
  node_wf n → (default 0 (last_subscription_epochs n !! node_id n) < u64_max)%N →
  b ≠ a → b ∉ local_subscriptions n →
  ∃ n1 ev1 n2 ev2 n3 eff3 seen,
    subscribe_task p a n = Ret (n1, ev1) ∧ subscribe_task p b n1 = Ret (n2, ev2) ∧
    handle_event p c1 ev1 n2 = Ret (n3, eff3) ∧
    handle_event p c2 ev2 n3 = Ret (with_seen seen n3, []) ∧
    b ∈ local_subscriptions n3 ∧
    ∃ d, node_metadata (fgraph n3) !! node_id n = Some d ∧
      "sub:" +:+ b ∉ dom (nd_capabilities d).
Proof.
  intros [Hg _] He Hab Hb.
  set (n1 := with_subscriptions ({[a]} ∪ local_subscriptions n) n).
  pose proof (subscribe_task_eq p a n He) as E1. fold n1 in E1.
  pose proof (subscribe_task_eq p b n1 He) as E2. set (n2 := with_subscriptions _ n1) in E2.
  set (u1 := mkSubscriptionUpdate (node_id n) (subscription_entries ({[a]} ∪ local_subscriptions n))
    (default 0 (last_subscription_epochs n !! node_id n) + 1)%N) in *.
  destruct (handle_subscription_eq p c1 (node_id n) u1 n2) as [seen Hev1].
  assert (is_newer (last_subscription_epochs n2) (su_node_id u1) (su_epoch u1) = true) as Hnew
    by exact (own_epoch_newer n).
  rewrite Hnew in Hev1. set (n3 := with_graph _ _) in Hev1.
  set (u2 := mkSubscriptionUpdate (node_id n1) _ _) in E2.
  destruct (handle_subscription_eq p c2 (node_id n) u2 n3) as [seen' Hev2].
  assert (is_newer (last_subscription_epochs n3) (su_node_id u2) (su_epoch u2) = false) as Hold.
  { apply is_newer_false. simpl. rewrite lookup_insert_eq. eexists. split; [done|]. lia. }
  rewrite Hold in Hev2. eexists n1, _, n2, _, n3, _, seen'. split_and!; try done.
  - simpl. set_solver.
  - cbn [n3 fgraph with_graph with_subscription_epochs with_seen n2 n1 with_subscriptions].
    rewrite add_node_metadata by done. simpl. rewrite lookup_insert_eq.
    eexists. split; [done|]. simpl. rewrite subscription_entries_spec.
    intros (pat & Hpat & ->%sub_prefix_inj). set_solver.
Qed.

(** A backpressure signal changes the limiter of its flow only (creating an
    unlimited one if there is none): action 0 pauses it, 1 resumes it, 2 resumes it
    and sets its rate, any other value leaves it as it is. *)
Lemma backpressure_handled p clk from s n :
  ∃ n' l, handle_event p clk (received from (MBackpressure s)) n = Ret (n', []) ∧
    flow_limiters n' = <[bp_flow_id s := l]> (flow_limiters n) ∧
    fgraph n' = fgraph n ∧ sessions n' = sessions n ∧
    let l0 := default (new_limiter 0) (flow_limiters n !! bp_flow_id s) in
    is_paused l = (if decide (bp_action s = PAUSE) then true
                   else if decide (bp_action s = RESUME ∨ bp_action s = THROTTLE) then false
                   else is_paused l0) ∧
    get_rate l = (if decide (bp_action s = THROTTLE) then bp_max_rate s else get_rate l0).
Proof.
  eexists _, _. split; [reflexivity|]. simpl. split_and!; try done;
    unfold PAUSE, RESUME, THROTTLE; repeat case_decide; try done; naive_solver lia.
Qed.
End facts.
