(* ===== verification/Handshake.v ===== *)
(** * Setting up a peer connection

    [handle_new_connection] and [connect] of [stric-flow/src/node.rs]: the exchange of
    handshakes on the control stream, the registration of the peer, and the initial
    synchronisation, up to the point where the stream's tasks are spawned; and the
    task that reconnects to a lost peer.

    What the connection and the control stream return is an argument, a
    [Transcript]: the results of opening or accepting the stream, of the [i]-th write,
    and of the [i]-th read with its decoding. *)
From S2P Require Import Prelude Proto Topic Graph Dijkstra Reconciliation Backpressure.
From S2P Require Import Connection FlowNode Publish.
From stdpp Require Import options.

Section handshake.
Context `{PG : PetGraph string LinkWeight} `{HO : HashOrder} `{G : Governor}.
Context {SocketAddr : Type} `{Countable SocketAddr} {Handler Conn : Type}.

Abbreviation FlowNode := (FlowNode (SocketAddr := SocketAddr) (Handler := Handler)).
Abbreviation Manager := (ConnectionManager (Conn := Conn) (Metadata := FlowConnectionMetadata)).

(** ** The exchange *)

Record Transcript := mkTranscript {
  open_bi : result () string;
  accept_bi : result () string;
  write : nat → result () string;
  read : nat → result ControlMessage string;
}.

Definition local_handshake (n : FlowNode) : FlowHandshake :=
  mkFlowHandshake 1 (node_id n) NODE_ROLE_FLOW ∅ ["protobuf"; "json"]
    (set_iter (local_subscriptions n)) IDENTITY_TLS_DERIVED.

Definition accept_ack : HandshakeAck := mkHandshakeAck true "" 1.
Definition reject_ack : HandshakeAck := mkHandshakeAck false "Unsupported protocol version" 1.

(** Phase 2: the messages written, and the peer's identifier or an error. *)
Definition exchange (n : FlowNode) (t : Transcript) :
    list ControlMessage * result string string :=
  let hello := to_message (MHandshake (local_handshake n)) in
  match write t 0 with
  | Err e => ([], Err e)
  | Ok _ =>
      match read t 0 with
      | Err e => ([hello], Err e)
      | Ok peer_msg =>
          match message peer_msg with
          | Some (MHandshake h) =>
              if decide (hs_protocol_version h ≠ 1%N) then
                (hello :: match write t 1 with
                          | Ok _ => [to_message (MHandshakeAck reject_ack)]
                          | Err _ => []
                          end, Err "Protocol version mismatch")
              else
                match write t 1 with
                | Err e => ([hello], Err e)
                | Ok _ =>
                    let written := [hello; to_message (MHandshakeAck accept_ack)] in
                    match read t 1 with
                    | Err e => (written, Err e)
                    | Ok peer_ack =>
                        match message peer_ack with
                        | Some (MHandshakeAck a) =>
                            if accepted a then (written, Ok (hs_node_id h))
                            else (written, Err ("Handshake rejected: " +:+ reject_reason a))
                        | _ => (written, Err "Expected HandshakeAck")
                        end
                    end
                end
          | _ => ([hello], Err "Expected FlowHandshake")
          end
      end
  end.

(** ** Registration and initial synchronisation *)

Definition topology_snapshot (n : FlowNode) : outcome ControlPayload :=
  '(nodes_added, links_added) ← get_descriptors (fgraph n);
  Ret (MTopologyUpdate (mkTopologyUpdate (node_id n) 1 nodes_added [] links_added [])).

Definition subscription_snapshot (n : FlowNode) : ControlPayload :=
  MSubscriptionUpdate (mkSubscriptionUpdate (node_id n)
    (subscription_entries (local_subscriptions n))
    (default 0%N (last_subscription_epochs n !! node_id n))).

(** What a set-up connection leaves behind. *)
Record Peering := mkPeering {
  peering_metadata : FlowConnectionMetadata;
  peering_event : ControlEvent;
  peering_sent : list (Effect (SocketAddr := SocketAddr));
}.

(** [handle_new_connection], with [tx] the new channel to the peer's writer task. *)
Definition handle_new_connection (n : FlowNode) (remote_addr : SocketAddr) (tx : nat)
    (is_initiator : bool) (t : Transcript) :
    outcome (FlowNode * list ControlMessage * result Peering string) :=
  match (if is_initiator then open_bi t else accept_bi t) with
  | Err e => Ret (n, [], Err e)
  | Ok _ =>
      match exchange n t with
      | (written, Err e) => Ret (n, written, Err e)
      | (written, Ok peer_id) =>
          let server_name := default peer_id (pending_connects n !! remote_addr) in
          let n := with_addresses (<[peer_id := (remote_addr, server_name)]> (peer_addresses n))
                     (delete remote_addr (pending_connects n)) n in
          topo_sync ← topology_snapshot n;
          Ret (n, written,
            Ok (mkPeering (mkFlowMetadata (Some peer_id)) (PeerConnected peer_id tx)
              [Send tx (to_message topo_sync); Send tx (to_message (subscription_snapshot n))]))
      end
  end.

(** One tick of the task that pings the peer every second. *)
Definition ping_tick (clk : Clock) (tx : nat) : Effect (SocketAddr := SocketAddr) :=
  Send tx (to_message (MPing (mkPing (system clk 0)))).

(** [connect]: [dial] is what the transport returns. *)
Definition connect (addr : SocketAddr) (server_name : string) (dial : result N string)
    (n : FlowNode) : FlowNode * result N FlowError :=
  let n := with_addresses (peer_addresses n) (<[addr := server_name]> (pending_connects n)) n in
  match dial with
  | Ok conn_id => (n, Ok conn_id)
  | Err e => (with_addresses (peer_addresses n) (delete addr (pending_connects n)) n,
              Err (EAnyhow e))
  end.

(** ** Reconnecting *)

(** [connection_manager().store.iter().any(|e| e.metadata.peer_node_id == Some(peer))]. *)
Definition is_connected (peer : string) (m : Manager) : bool :=
  existsb (λ kw : N * ConnectionWrapper,
    bool_decide (peer_node_id (metadata kw.2) = Some peer)) (map_iter (store m)).

(** What one round of the reconnection task observes: the connections before and
    after the delay, and what the transport returns when [connect] dials. *)
Record Round := mkRound {
  before : Manager;
  after : Manager;
  dialled : result N string;
}.

(** The loop of the task that [SpawnReconnect] starts: the delays it waits for, the
    node without the [reconnecting_peers] mark once it is over, and whether it is. *)
Fixpoint reconnect_loop (p : profile) (jitter : Duration → Duration) (peer : string)
    (addr : SocketAddr) (server_name : string) (rounds : list Round)
    (eb : ExponentialBackoff) (n : FlowNode) : outcome (FlowNode * list Duration * bool) :=
  match rounds with
  | [] => Ret (n, [], false)
  | r :: rounds' =>
      if is_connected peer (before r)
      then Ret (with_reconnecting (reconnecting_peers n ∖ {[peer]}) n, [], true)
      else
        '(eb, delay) ← next_backoff p jitter eb;
        if is_connected peer (after r)
        then Ret (with_reconnecting (reconnecting_peers n ∖ {[peer]}) n, [delay], true)
        else
          match connect addr server_name (dialled r) n with
          | (n, Ok _) => Ret (with_reconnecting (reconnecting_peers n ∖ {[peer]}) n, [delay], true)
          | (n, Err _) =>
              '(n, delays, over) ← reconnect_loop p jitter peer addr server_name rounds' eb n;
              Ret (n, delay :: delays, over)
          end
  end.

(** The task: from the first backoff on. *)
Definition reconnect_task (p : profile) (jitter : Duration → Duration) (peer : string)
    (addr : SocketAddr) (server_name : string) (rounds : list Round) (n : FlowNode) :
    outcome (FlowNode * list Duration * bool) :=
  reconnect_loop p jitter peer addr server_name rounds (new_backoff (secs 1) (secs 60)) n.
End handshake.
