(* ===== verification/HandshakeFacts.v ===== *)
(** * Facts about setting up peers

    When a peer is registered, what the initial snapshots do at the peer, and when
    the reconnection task ends. *)
From S2P Require Import Prelude Proto Topic Graph GraphFacts Dijkstra Reconciliation.
From S2P Require Import Backpressure Connection FlowNode Publish FlowFacts ControlFacts.
From S2P Require Import Handshake.
From stdpp Require Import options.

Section facts.
#[local] Set Default Proof Using "Type*".
Context `{PS : PetGraphSpec string LinkWeight} `{HS : HashOrderSpec} `{G : Governor}.
Context {SocketAddr : Type} `{Countable SocketAddr} {Handler Conn : Type}.

Abbreviation FlowNode := (FlowNode (SocketAddr := SocketAddr) (Handler := Handler)).
Implicit Types (a b n : FlowNode).

Definition hello (n : FlowNode) : ControlMessage := to_message (MHandshake (local_handshake n)).

(** Two flow nodes on a working stream agree: what each writes is what the other
    reads, in order, both exchanges succeed, and each learns the other's
    identifier. *)
Lemma handshake_agrees a b ta tb :
  (∀ i, write ta i = Ok ()) → (∀ i, write tb i = Ok ()) →
  (∀ i m, (exchange a ta).1 !! i = Some m → read tb i = Ok m) →
  (∀ i m, (exchange b tb).1 !! i = Some m → read ta i = Ok m) →
  exchange a ta = ([hello a; to_message (MHandshakeAck accept_ack)], Ok (node_id b)) ∧
  exchange b tb = ([hello b; to_message (MHandshakeAck accept_ack)], Ok (node_id a)).
Proof.
  intros Wa Wb Rb Ra.
  assert (read tb 0 = Ok (hello a)) as Hb0.
  { apply Rb. unfold exchange. rewrite Wa. by repeat (case_match; simpl). }
  assert (read ta 0 = Ok (hello b)) as Ha0.
  { apply Ra. unfold exchange. rewrite Wb. by repeat (case_match; simpl). }
  assert (read tb 1 = Ok (to_message (MHandshakeAck accept_ack))) as Hb1.
  { apply Rb. unfold exchange. rewrite !Wa, Ha0. simpl. by repeat (case_match; simpl). }
  assert (read ta 1 = Ok (to_message (MHandshakeAck accept_ack))) as Ha1.
  { apply Ra. unfold exchange. rewrite !Wb, Hb0. simpl. by repeat (case_match; simpl). }
  unfold exchange. by rewrite !Wa, !Wb, Ha0, Hb0, Ha1, Hb1.
Qed.

(** Both writes succeed, the peer's first message is a handshake of version 1, and
    its second an acknowledgement that accepts. *)
Definition complete_handshake (t : Transcript) (h : FlowHandshake) : Prop :=
  write t 0 = Ok () ∧ write t 1 = Ok () ∧ hs_protocol_version h = 1%N ∧
  (∃ m1, read t 0 = Ok m1 ∧ message m1 = Some (MHandshake h)) ∧
  ∃ m2 ack, read t 1 = Ok m2 ∧ message m2 = Some (MHandshakeAck ack) ∧ accepted ack = true.

#[local] Ltac refute_handshake :=
  intros h' (? & ? & ? & (? & ? & ?) & ? & ? & ? & ? & ?); simplify_eq/=; congruence.

Lemma exchange_spec n t :
  match (exchange n t).2 with
  | Ok peer => ∃ h, complete_handshake t h ∧ peer = hs_node_id h
  | Err _ => ∀ h, ¬ complete_handshake t h
  end.
Proof.
  unfold exchange, complete_handshake.
  destruct (write t 0) as [[]|]; simpl; [|refute_handshake].
  destruct (read t 0) as [[[[]|]]|]; simpl; try refute_handshake.
  case_decide as Hv; simpl; [refute_handshake|].
  destruct (write t 1) as [[]|]; simpl; [|refute_handshake].
  destruct (read t 1) as [[[[]|]]|]; simpl; try refute_handshake.
  destruct (accepted a) eqn:Ha; simpl; [|refute_handshake].
  eexists. split; [|done].
  split_and!; [done|done|exact Hv|by eexists|by eexists _, _].
Qed.

(** C31. A peer is registered exactly when the handshake completes:
    [handle_new_connection] never panics; if the control stream opens, both writes
    succeed, the peer's first message is a handshake of version 1 and its second an
    accepting acknowledgement, the peering names the peer of the handshake, its
    address is recorded and the two snapshots are queued; in every other case there
    is no peering and the node's state is unchanged.  The peer's identity is the one it declares
    in the handshake: neither its certificate nor a challenge is consulted, although the protocol
    file derives it from the certificate in the identity mode sent, and RFC 2026-0006 has a phase
    that proves it. *)
Theorem peering_needs_handshake n addr tx (is_initiator : bool) (t : Transcript) :
  node_wf n →
  let opened := if is_initiator then open_bi t else accept_bi t in
  ∃ n' written res,
    handle_new_connection n addr tx is_initiator t = Ret (n', written, res) ∧
    match res with
    | Ok pe => ∃ h, opened = Ok () ∧ complete_handshake t h ∧
        peer_node_id (peering_metadata pe) = Some (hs_node_id h) ∧
        peering_event pe = PeerConnected (hs_node_id h) tx ∧
        fst <$> peer_addresses n' !! hs_node_id h = Some addr ∧
        pending_connects n' !! addr = None ∧
        length (peering_sent pe) = 2
    | Err _ => n' = n ∧ ∀ h, ¬ (opened = Ok () ∧ complete_handshake t h)
    end.
Proof.
  intros [Hg _] opened. unfold handle_new_connection. fold opened.
  destruct opened as [[]|e]; [|eexists _, _, _; split; [done|]; naive_solver].
  pose proof (exchange_spec n t) as Hs.
  destruct (exchange n t) as [written [peer|e]]; simpl in Hs;
    [|eexists _, _, _; split; [done|]; naive_solver].
  destruct Hs as (h & Hh & ->). unfold topology_snapshot. cbn [fgraph with_addresses].
  rewrite (get_descriptors_spec (fgraph n) Hg). cbn [mbind outcome_bind].
  eexists _, _, _. split; [done|]. exists h. simpl.
  rewrite lookup_insert_eq, lookup_delete_eq. by split_and!.
Qed.

(** A peer of another protocol version is turned away with an acknowledgement that
    refuses. *)
Lemma version_mismatch_rejected n h t :
  write t 0 = Ok () → write t 1 = Ok () → read t 0 = Ok (to_message (MHandshake h)) →
  hs_protocol_version h ≠ 1%N →
  exchange n t =
    ([hello n; to_message (MHandshakeAck reject_ack)], Err "Protocol version mismatch").
Proof. intros W0 W1 R0 Hv. unfold exchange. rewrite W0, R0, W1. simpl. by rewrite decide_True. Qed.

(** ** The initial snapshot *)

Lemma topology_snapshot_eq n :
  node_wf n → ∃ u, topology_snapshot n = Ret (MTopologyUpdate u) ∧
    origin_node_id u = node_id n ∧ tu_epoch u = 1%N.
Proof.
  intros [Hg _]. unfold topology_snapshot. rewrite (get_descriptors_spec (fgraph n) Hg).
  simpl. eexists. by split_and!.
Qed.

Lemma stale_topology_ignored p clk from u b e :
  last_epochs b !! origin_node_id u = Some e → (tu_epoch u <= e)%N →
  ∃ seen, handle_event p clk (received from (MTopologyUpdate u)) b = Ret (with_seen seen b, []).
Proof.
  intros He Hle. unfold received. simpl.
  destruct (handle_topology_update_eq clk from u (touch from (instant clk 0) b)) as [seen ->].
  simpl. rewrite (proj2 (is_newer_false (last_epochs b) (origin_node_id u) (tu_epoch u))) by eauto.
  by exists seen.
Qed.

(** The snapshot sent to a new peer always carries epoch 1.  A peer that has
    recorded an epoch of 1 or more for the node, as any peer has that was connected
    before, ignores it: after a reconnection the topology is not synchronised. *)
Lemma reconnect_snapshot_ignored p clk n b u e :
  node_wf n → topology_snapshot n = Ret (MTopologyUpdate u) →
  last_epochs b !! node_id n = Some e → (1 <= e)%N →
  ∃ seen, handle_event p clk (received (node_id n) (MTopologyUpdate u)) b =
    Ret (with_seen seen b, []).
Proof.
  intros Hn Hu He Hle. destruct (topology_snapshot_eq n Hn) as (u' & Hu' & Ho & Hep).
  assert (u' = u) as -> by congruence. apply (stale_topology_ignored _ _ _ _ _ e).
  - by rewrite Ho.
  - by rewrite Hep.
Qed.

(** The snapshot also shadows the node's first real update: a node that has not
    counted any topology change yet announces its first new link with epoch 1 too,
    so a peer that took the snapshot drops the announcement. *)
Lemma first_link_announcement_lost p clk clk' clk'' n b b1 eff1 u from pong :
  node_wf n → last_epochs n !! node_id n = None →
  link_exists (node_id n) from (fgraph n) = false →
  ((system clk 0 - ping_sent_at pong) * 1000 <= u64_max)%N →
  topology_snapshot n = Ret (MTopologyUpdate u) →
  handle_event p clk' (received (node_id n) (MTopologyUpdate u)) b = Ret (b1, eff1) →
  ∃ n1 u1 seen,
    handle_event p clk (received from (MPong pong)) n =
      Ret (n1, broadcast_control_message (MTopologyUpdate u1) n1) ∧
    handle_event p clk'' (received (node_id n) (MTopologyUpdate u1)) b1 =
      Ret (with_seen seen b1, []).
Proof.
  intros Hn Hep Hnew Hrtt Hu Hb. pose proof Hn as [Hg _].
  destruct (topology_snapshot_eq n Hn) as (u' & Hu' & Ho & He1).
  assert (u' = u) as -> by congruence.
  assert (∃ e, last_epochs b1 !! node_id n = Some e ∧ (1 <= e)%N) as (e & He & Hle).
  { unfold received in Hb. simpl in Hb.
    destruct (handle_topology_update_eq clk' (node_id n) u (touch (node_id n) (instant clk' 0) b))
      as [seen Eq]. rewrite Eq in Hb. simpl in Hb. destruct (is_newer _ _ _) eqn:En.
    - apply bind_Ret in Hb as (g & _ & Hb). injection Hb as <- <-. simpl.
      exists 1%N. by rewrite Ho, He1, lookup_insert_eq.
    - injection Hb as <- <-. apply is_newer_false in En as (e & He & Hle).
      exists e. rewrite Ho, He1 in *. done. }
  unfold received. simpl. unfold handle_pong. simpl.
  unfold u64_mul at 1. destruct (N.leb_spec ((system clk 0 - ping_sent_at pong) * 1000) u64_max); [|lia].
  simpl. destruct (add_link_refines (fgraph n) (mkLinkDescriptor (node_id n) from 1
    ((system clk 0 - ping_sent_at pong) * 1000)) Hg) as (g & -> & Hwf & _).
  simpl. rewrite Hnew, Hep. simpl. rewrite (get_descriptors_spec g Hwf). simpl.
  match goal with |- context [mkTopologyUpdate ?a ?b ?c ?d ?e ?f] =>
    set (u1 := mkTopologyUpdate a b c d e f) end.
  destruct (stale_topology_ignored p clk'' (node_id n) u1 b1 e He Hle) as [seen Hs].
  exists (with_graph g (with_epochs (<[node_id n := 1%N]> (last_epochs n))
    (touch from (instant clk 0) n))), u1, seen. split; [reflexivity|exact Hs].
Qed.

(** ** Reconnecting *)

Lemma connect_reconnecting addr name d n :
  reconnecting_peers (connect addr name d n).1 = reconnecting_peers n.
Proof. by destruct d. Qed.

(** A round that ends the task: the peer is found connected, or dialling works. *)
Definition ends_task (peer : string) (r : Round (Conn := Conn)) : Prop :=
  is_connected peer (before r) = true ∨ is_connected peer (after r) = true ∨
  ∃ c, dialled r = Ok c.

Lemma reconnect_loop_spec p jitter peer addr name rounds eb n :
  (attempts eb + N.of_nat (length rounds) <= u32_max)%N →
  ∃ n' delays over,
    reconnect_loop p jitter peer addr name rounds eb n = Ret (n', delays, over) ∧
    (over = true ↔ ∃ r, r ∈ rounds ∧ ends_task peer r) ∧
    reconnecting_peers n' =
      (if over then reconnecting_peers n ∖ {[peer]} else reconnecting_peers n) ∧
    length delays <= length rounds.
Proof using All.
  revert eb n. induction rounds as [|r rounds IH]; intros eb n Ha; simpl.
  { eexists n, [], false. split; [done|]. split; [|done]. set_solver. }
  assert (ends_task peer r → true = true ↔ ∃ r', r' ∈ r :: rounds ∧ ends_task peer r') as Hend.
  { intros He. split; [|done]. intros _. exists r. split; [by left|done]. }
  destruct (is_connected peer (before r)) eqn:Hb.
  { eexists _, [], true. split; [done|]. split; [apply Hend; by left|].
    split; [done|simpl; lia]. }
  unfold next_backoff, u32_add. simpl in Ha.
  destruct (N.leb_spec (attempts eb + 1) u32_max); [|lia]. cbn [mbind outcome_bind].
  destruct (is_connected peer (after r)) eqn:Haf.
  { eexists _, [_], true. split; [done|]. split; [apply Hend; by right; left|].
    split; [done|simpl; lia]. }
  pose proof (connect_reconnecting addr name (dialled r) n) as Hrec.
  destruct (connect addr name (dialled r) n) as [n1 [c|e]] eqn:Ec; simpl in Hrec.
  { eexists _, [_], true. split; [done|]. simpl. rewrite Hrec.
    split; [|split; [done|simpl; lia]]. apply Hend. right. right.
    destruct (dialled r) as [c'|]; [by exists c'|done]. }
  destruct (IH (mkBackoff (base eb) (max eb) (attempts eb + 1)) n1) as (n' & ds & over & E & Hover & Hm & Hl).
  { simpl. lia. }
  rewrite E. cbn [mbind outcome_bind]. eexists _, _, over. split; [done|]. split; [|split].
  - rewrite Hover. split.
    + intros (r' & Hr' & Hc). exists r'. split; [by right|done].
    + intros (r' & [->|Hr']%elem_of_cons & Hc); [|by eauto].
      destruct Hc as [Hc|[Hc|[c Hc]]]; [congruence|congruence|].
      rewrite Hc in Ec. done.
  - by rewrite Hm, Hrec.
  - simpl. lia.
Qed.

(** C38. The reconnection task does not give up before the peer is back: it goes on as
    long as no round finds the peer connected or connects to it, and when it ends it
    clears the peer's mark, so that the next loss of the peer starts a new task.  (The
    bound is where the attempt counter would overflow.) *)
Theorem reconnect_until_connected p jitter peer addr name rounds n :
  (N.of_nat (length rounds) <= u32_max)%N →
  ∃ n' delays over,
    reconnect_task p jitter peer addr name rounds n = Ret (n', delays, over) ∧
    (over = true ↔ ∃ r, r ∈ rounds ∧ ends_task peer r) ∧
    reconnecting_peers n' =
      (if over then reconnecting_peers n ∖ {[peer]} else reconnecting_peers n) ∧
    length delays <= length rounds.
Proof using All. intros Hl. by apply reconnect_loop_spec. Qed.
End facts.
