(* ===== verification/Lifecycle.v ===== *)
(** * The life of a peer connection

    [FlowNode::new] and the handlers it installs, and how the pieces that see a peer
    connection come and go fit together: the core node that registers it ([Quic]), the
    reader task that removes it, the control loop that forgets the peer's channel
    ([FlowNode]), and the task that redials ([Handshake]); all in [stric-flow/src/node.rs]. *)
From S2P Require Import Prelude Proto Topic Graph GraphFacts Dijkstra Reconciliation.
From S2P Require Import Backpressure Connection Stream Quic QuicFacts FlowNode Publish FlowFacts.
From S2P Require Import ControlFacts Handshake HandshakeFacts.
From stdpp Require Import options.

(** [RoutingMetric] and its implementation by hop count; an implementation may panic. *)
Class RoutingMetric := { estimate_cost : string → string → N → N → outcome N }.

Definition HopCountMetric : RoutingMetric :=
  {| estimate_cost _ _ base_hop_cost _ := Ret base_hop_cost |}.

(** ** Building a flow node *)

(** [b"stric-flow"]. *)
Definition flow_alpn : bytes :=
  [Byte.x73; Byte.x74; Byte.x72; Byte.x69; Byte.x63; Byte.x2d; Byte.x66; Byte.x6c; Byte.x6f; Byte.x77].

Definition flow_config `{QuinnTypes} (c : NodeConfig) : NodeConfig :=
  match alpn_protocol_names c with
  | [] => mkNodeConfig _ _ (certs c) (key c) (socket_addr c) [flow_alpn] (error_channel_len c)
            (config_conn_context c) (keep_alive_limit_per_thread c) (config_idle_timeout c)
            (root_cert_store c) (danger_accept_invalid_certs c)
  | _ => c
  end.

Section lifecycle.
Context `{Q : Quinn} `{PG : PetGraph string LinkWeight} `{HO : HashOrder} `{G : Governor}.
Context {Addr : Type} `{Countable Addr} {Handler Conn : Type}.
Abbreviation FlowNode := (FlowNode (SocketAddr := Addr) (Handler := Handler)).
Abbreviation Wrapper := (ConnectionWrapper (Conn := Conn) (Metadata := FlowConnectionMetadata)).
Abbreviation Manager := (ConnectionManager (Conn := Conn) (Metadata := FlowConnectionMetadata)).
Abbreviation CoreNode := (QuicNode Conn FlowConnectionMetadata).

(** [anyhow!] of a message, and what a new connection meets: the node's state, its address,
    the channel made for it, and the transcript of its control stream. *)
Context (anyhow : string → Error) (meets : Conn → FlowNode * Addr * nat * Transcript).

(** The handlers: [handle_new_connection] on the wrapper, whose metadata it sets.  (It does
    not panic on a node whose graph is well-formed.) *)
Definition flow_handler (is_initiator : bool) :
    ConnectionHandlerFn Conn FlowConnectionMetadata := λ w,
  let '(n, addr, tx, t) := meets (conn w) in
  match handle_new_connection n addr tx is_initiator t with
  | Ret (_, _, Ok peering) => (mkWrapper (conn w) (context w) (peering_metadata peering), Ok ())
  | Ret (_, _, Err e) => (w, Err (anyhow e))
  | _ => (w, Err (anyhow "task failed"))
  end.

(** [FlowNode::new]: the flow node's state and its core node. *)
Definition flow_new (node_id : string) (config : NodeConfig) :
    outcome (result (FlowNode * CoreNode) Error) :=
  core_node ← new (flow_config config);
  core_node ←? core_node;
  Ret (Ok (new_node node_id,
    on_outbound (flow_handler true) (on_inbound (flow_handler false) core_node))).

(** The configuration of the nodes in the tests and the example programs: one self-signed
    certificate, which is also the only root, and no verification of servers.  rustls parses
    the key and takes the root. *)
Definition make_node_config (certificate : bytes → CertificateDer)
    (key_try_from : bytes → result PrivateKeyDer Error)
    (add_root : RootCertStore → CertificateDer → result RootCertStore Error)
    (localhost : N → SocketAddr) (port : N) (cert_der key_der : bytes) : outcome NodeConfig :=
  match key_try_from key_der with
  | Err _ => Panic
  | Ok key =>
      match add_root root_store_empty (certificate cert_der) with
      | Err _ => Panic
      | Ok roots =>
          Ret (mkNodeConfig _ _ (Some [certificate cert_der]) (Some key) (localhost port) [flow_alpn]
                 100 (mkContext 0 true true true true true) 0 None (Some roots) true)
      end
  end.

(** ** Peers *)

Definition peer_connections (m : Manager) : list string :=
  omap (λ kw : N * Wrapper, peer_node_id (metadata kw.2)) (map_iter (store m)).

Section facts.
Context {QS : QuinnSpec Q} {PS : PetGraphSpec PG} {HS : HashOrderSpec HO}.

(** The handlers leave the connection's identifier alone, so that the accounts of the core
    node hold for a flow node. *)
Lemma flow_handler_keeps_id is_initiator : keeps_id (Some (flow_handler is_initiator)).
Proof.
  intros f w [= <-]. unfold flow_handler. destruct (meets (conn w)) as [[[n addr] tx] t].
  by destruct (handle_new_connection _ _ _ _ _) as [[[? ?] []]| |].
Qed.

(** A flow node starts empty, and its core node is ready for peers: both directions offer a
    protocol name, [stric-flow] when the configuration names none; inbound and outbound
    connections are negotiated as responder and as initiator; and no connection is registered
    under another identifier than its own. *)
Lemma flow_node_configured node_id config n core :
  flow_new node_id config = Ret (Ok (n, core)) →
  n = new_node node_id ∧
  (∃ cc, dials_with (endpoint core) = Some cc ∧ client_alpn cc ≠ [] ∧
     client_alpn cc =
       (if decide (alpn_protocol_names config = []) then [flow_alpn] else alpn_protocol_names config) ∧
     ∀ sc, accepts_with (endpoint core) = Some sc → server_alpn sc = client_alpn cc) ∧
  inbound_handler core = Some (flow_handler false) ∧
  outbound_handler core = Some (flow_handler true) ∧ fresh (Quic.mkState core []).
Proof using QS.
  unfold flow_new. intros (c & Hc & (c' & -> & Hr)%and_then_Ok)%bind_Ret. inv_ret Hr.
  destruct (node_configured _ _ Hc) as (_ & _ & Hsc & (cc & Hcc & _ & Halpn & _) & Hst & _ & _ & Hch & _).
  split; [done|]. split; [|split; [done|split; [done|]]].
  - exists cc. split; [done|]. rewrite Halpn. unfold flow_config.
    assert (∀ sc, accepts_with (endpoint c') = Some sc →
      server_alpn sc = alpn_protocol_names (flow_config config)) as Hs by (intros sc ?; by eapply Hsc).
    unfold flow_config in Hs. by destruct (alpn_protocol_names config) eqn:E; simpl in *; rewrite ?E in *.
  - split; [apply flow_handler_keeps_id|]. split; [apply flow_handler_keeps_id|].
    simpl. rewrite Hst, Hch. done.
Qed.

(** A node with the example configuration accepts connections with its certificate on the
    local address, and dials without verifying the server, with the same protocol name. *)
Lemma example_node_configured certificate key_try_from add_root localhost port cert_der key_der config
    node_id n core :
  make_node_config certificate key_try_from add_root localhost port cert_der key_der = Ret config →
  flow_new node_id config = Ret (Ok (n, core)) →
  n = new_node node_id ∧ bound_to (endpoint core) = localhost port ∧
  (∃ sc, accepts_with (endpoint core) = Some sc ∧ (server_identity sc).1 = [certificate cert_der] ∧
     key_try_from key_der = Ok (server_identity sc).2 ∧ server_alpn sc = [flow_alpn]) ∧
  (∃ cc, dials_with (endpoint core) = Some cc ∧
     client_trust cc = TrustVerifier DangerNoCertificateVerification ∧ client_alpn cc = [flow_alpn]).
Proof using QS.
  unfold make_node_config. destruct (key_try_from key_der) as [k|] eqn:Ek; [|done].
  destruct (add_root _ _) as [roots|]; [|done]. intros [= <-]. unfold flow_new, flow_config. simpl.
  intros (c & Hc & (c' & -> & Hr)%and_then_Ok)%bind_Ret. inv_ret Hr. simpl.
  destruct (node_configured _ _ Hc) as (Hb & Hacc & Hsc & (cc & Hcc & Ht & Ha & _) & _). simpl in *.
  split; [done|]. split; [done|]. split; [|by eauto].
  destruct (proj2 Hacc) as [sc Hs]; [by eauto|]. exists sc. split; [done|].
  destruct (Hsc sc Hs) as ([= <-] & [= ->] & Hal & _). done.
Qed.

Lemma is_connected_spec peer (m : Manager) :
  is_connected peer m = true ↔
  ∃ k w, store m !! k = Some w ∧ peer_node_id (metadata w) = Some peer.
Proof using HS.
  unfold is_connected. rewrite existsb_exists. split.
  - intros ([k w] & Hin & Hp). apply list_elem_of_In in Hin. simpl in Hp.
    rewrite (map_iter_perm (store m)), elem_of_map_to_list in Hin.
    apply bool_decide_eq_true in Hp. eauto.
  - intros (k & w & Hk & Hp). exists (k, w). split; [|by apply bool_decide_eq_true].
    apply list_elem_of_In. by rewrite (map_iter_perm (store m)), elem_of_map_to_list.
Qed.

Lemma elem_of_peer_connections peer (m : Manager) :
  peer ∈ peer_connections m ↔ is_connected peer m = true.
Proof using HS.
  rewrite is_connected_spec. unfold peer_connections. rewrite list_elem_of_omap. split.
  - intros ([k w] & Hin & Hp). rewrite (map_iter_perm (store m)), elem_of_map_to_list in Hin. eauto.
  - intros (k & w & Hk & Hp). exists (k, w).
    by rewrite (map_iter_perm (store m)), elem_of_map_to_list.
Qed.

(** ** Redialling *)

(** A connection to the peer in the store, alive or not, ends the task before it dials. *)
Lemma reconnect_stops p jitter peer addr name (m a : Manager) d rounds (n : FlowNode) :
  is_connected peer m = true →
  reconnect_task p jitter peer addr name (mkRound m a d :: rounds) n =
    Ret (with_reconnecting (reconnecting_peers n ∖ {[peer]}) n, [], true).
Proof. intros Hc. unfold reconnect_task. simpl. by rewrite Hc. Qed.

(** An entry of the log that does not concern a connection leaves its registration. *)
Lemma log_store_keeps k (l : list (LogEntry Conn FlowConnectionMetadata)) s :
  (∀ e, e ∈ l → e ≠ Removed k ∧ ∀ w al, e = Registered w al → id (context w) ≠ k) →
  foldl apply_entry s l !! k = s !! k.
Proof.
  revert s. induction l as [|e l IH]; intros s He; [done|]. simpl.
  rewrite IH by (intros; apply He; by right).
  destruct (He e) as [Hr Hw]; [by left|]. destruct e as [w al|e b|k'|e| |r]; simpl; try done.
  - by rewrite lookup_insert_ne by by eapply Hw.
  - rewrite lookup_delete_ne; [done|]. by intros ->.
Qed.

(** Only a removal after its registration makes a lost connection count as lost.  The reader
    task of a control stream removes the connection when the stream ends; when that comes
    before the core node has registered the connection, the entry stays, and from then on
    every reconnection task for the peer ends at once without dialling, although the
    connection is dead. *)
Lemma unremoved_connection_not_redialled evs log l1 w al l2 st0 st peer
    p jitter addr name a d rounds (n : FlowNode) :
  fresh st0 → node_run (mkFlowMetadata None) st0 evs log st →
  log = l1 ++ Registered w al :: l2 → peer_node_id (metadata w) = Some peer →
  (∀ e, e ∈ l2 → e ≠ Removed (id (context w)) ∧
     ∀ w' al', e = Registered w' al' → id (context w') ≠ id (context w)) →
  peer ∈ peer_connections (conn_manager (node st)) ∧
  reconnect_task p jitter peer addr name (mkRound (conn_manager (node st)) a d :: rounds) n =
    Ret (with_reconnecting (reconnecting_peers n ∖ {[peer]}) n, [], true).
Proof using HS.
  intros Hf Hrun -> Hp Hl2.
  pose proof (node_store_log _ _ _ _ _ Hf Hrun) as Hs.
  assert (is_connected peer (conn_manager (node st)) = true) as Hc.
  { apply is_connected_spec. exists (id (context w)), w. split; [|done].
    rewrite Hs, log_store_app. simpl. rewrite log_store_keeps by done. by rewrite lookup_insert_eq. }
  split; [by apply elem_of_peer_connections|by apply reconnect_stops].
Qed.

(** ** Two connections to one peer *)

(** Events that are about other peers' connections, on other channels. *)
Definition elsewhere (b : string) (tx : nat) (ev : ControlEvent) : Prop :=
  ∀ peer tx', ev = PeerConnected peer tx' → peer ≠ b ∧ tx' ≠ tx.

(** No channel leads to the peer, and the channel is nobody's. *)
Definition unreachable (b : string) (tx : nat) (n : FlowNode) : Prop :=
  peer_writers n !! b = None ∧ ∀ peer, peer_writers n !! peer ≠ Some tx.

Lemma event_unreachable p clk ev n n' eff b tx :
  unreachable b tx n → elsewhere b tx ev → handle_event p clk ev n = Ret (n', eff) →
  unreachable b tx n' ∧ ∀ msg, Send tx msg ∉ eff.
Proof using PS HS.
  intros [Hb Htx] Hev Hh. destruct ev as [peer tx'|peer|from msg]; simpl in Hh.
  - injection Hh as <- <-. destruct (Hev peer tx' eq_refl) as [Hne Htx'].
    split; [|intros ? ?%elem_of_nil; done]. split; simpl.
    + by rewrite lookup_insert_ne.
    + intros q. rewrite lookup_insert. case_decide; [congruence|apply Htx].
  - assert (peer_writers n' = delete peer (peer_writers n) ∧ ∀ msg, Send tx msg ∉ eff) as [Hpw Hno].
    { unfold handle_peer_disconnected in Hh. simpl in Hh. inv_ret Hh; (split; [done|]);
        intros msg' Hin; repeat case_match; by (apply list_elem_of_singleton in Hin || apply elem_of_nil in Hin). }
    split; [|done]. split; rewrite Hpw.
    + rewrite lookup_delete. by case_decide.
    + intros q [_ Hq]%lookup_delete_Some. by apply (Htx q).
  - destruct (message msg) as [payload|].
    + apply handle_payload_writers in Hh as [Hpw Hs]. split; [by split; rewrite Hpw|].
      intros msg' Hin. destruct (Hs tx msg' Hin) as [q Hq]. by apply (Htx q).
    + injection Hh as <- <-. split; [done|]. by intros ? ?%elem_of_nil.
Qed.

Lemma loop_unreachable p evs n n' eff b tx :
  unreachable b tx n → Forall (λ ce, elsewhere b tx ce.2) evs →
  run_control_loop p evs n = Ret (n', eff) → unreachable b tx n' ∧ ∀ msg, Send tx msg ∉ eff.
Proof using PS HS.
  intros Hu He. revert n eff Hu. induction He as [|[clk ev] evs Hev _ IH]; intros n eff Hu Hr; simpl in Hr.
  - injection Hr as <- <-. split; [done|]. by intros ? ?%elem_of_nil.
  - apply bind_Ret in Hr as ([n1 eff1] & H1 & ([n2 eff2] & H2 & Hr)%bind_Ret). injection Hr as <- <-.
    destruct (event_unreachable _ _ _ _ _ _ b tx Hu Hev H1) as [Hu1 Hs1].
    destruct (IH n1 eff2 Hu1 H2) as [Hu2 Hs2]. split; [done|].
    intros msg [?|?]%elem_of_app; [by eapply Hs1|by eapply Hs2].
Qed.

(** A peer without a channel gets no answer to its pings. *)
Lemma unreachable_ping p clk b ping (n : FlowNode) :
  peer_writers n !! b = None →
  ∃ n', handle_event p clk (received b (MPing ping)) n = Ret (n', []).
Proof. intros Hb. unfold received. simpl. unfold handle_ping. simpl. rewrite Hb. by eexists. Qed.

(** C16. Losing one of two connections cuts the peer off from the control loop.  When two nodes
    have dialled each other, the second connection's channel replaces the first one's; the loss of
    either connection removes the channel; and the reconnection task ends at once because the other
    connection is registered.  From then on, whatever the control loop handles and until a new
    connection to the peer is made, it queues no message on the channel of either connection, finds
    no channel of the peer, and leaves the peer's pings unanswered.  (The connection that is left
    still has its own pinging task, [ping_tick], which holds the sender of its channel: a ping
    every second is all that reaches the peer over it.) *)
Theorem second_connection_cut_off p c1 c2 c3 b tx1 tx2 addr name (m : Manager) (n : FlowNode) :
  peer_addresses n !! b = Some (addr, name) → b ∉ reconnecting_peers n →
  (∀ peer, peer_writers n !! peer ≠ Some tx1 ∧ peer_writers n !! peer ≠ Some tx2) →
  is_connected b m = true →
  ∃ n', run_control_loop p [(c1, PeerConnected b tx1); (c2, PeerConnected b tx2);
          (c3, PeerDisconnected b)] n = Ret (n', [SpawnReconnect b addr name]) ∧
  (∀ jitter a d rounds (n'' : FlowNode),
     reconnect_task p jitter b addr name (mkRound m a d :: rounds) n'' =
       Ret (with_reconnecting (reconnecting_peers n'' ∖ {[b]}) n'', [], true)) ∧
  ∀ evs n'' eff,
    Forall (λ ce, elsewhere b tx1 ce.2 ∧ elsewhere b tx2 ce.2) evs →
    run_control_loop p evs n' = Ret (n'', eff) →
    peer_writers n'' !! b = None ∧
    (∀ msg, Send tx1 msg ∉ eff ∧ Send tx2 msg ∉ eff) ∧
    ∀ clk ping, ∃ n3, handle_event p clk (received b (MPing ping)) n'' = Ret (n3, []).
Proof using PS HS.
  intros Ha Hb Htx Hm. eexists. split; [|split].
  - simpl. unfold handle_peer_disconnected. simpl. rewrite Ha.
    by rewrite bool_decide_eq_true_2 by done.
  - intros. by apply reconnect_stops.
  - set (n' := with_reconnecting _ _). intros evs n'' eff He Hr.
    assert (∀ tx, tx = tx1 ∨ tx = tx2 → unreachable b tx n') as Hu.
    { intros tx Ht. split; simpl; [by rewrite lookup_delete_eq|].
      intros peer [Hne Hp]%lookup_delete_Some. rewrite !lookup_insert_ne in Hp by done.
      destruct (Htx peer), Ht; by subst. }
    assert (∀ tx, tx = tx1 ∨ tx = tx2 → unreachable b tx n'' ∧ ∀ msg, Send tx msg ∉ eff) as Hall.
    { intros tx Ht. apply (loop_unreachable p evs n' n'' eff b tx); [by apply Hu| |done].
      eapply Forall_impl; [exact He|]. intros ce [? ?]. by destruct Ht as [->| ->]. }
    destruct (Hall tx1 (or_introl eq_refl)) as [[Hn _] H1].
    destruct (Hall tx2 (or_intror eq_refl)) as [_ H2].
    split; [done|]. split; [done|]. intros. by apply unreachable_ping.
Qed.
End facts.
End lifecycle.
