(* ===== verification/SessionFacts.v ===== *)
(** * Sessions across nodes

    Last-write-wins convergence of session state, what a local write does to the
    other nodes, and the lifetime of sessions. *)
From S2P Require Import Prelude Proto Topic Graph GraphFacts Dijkstra Reconciliation.
From S2P Require Import Backpressure FlowNode FlowFacts ControlFacts.
From stdpp Require Import options.

(** ** Writes and their order *)

(** A write: its timestamp and version, and the data. *)
Abbreviation write := ((N * N) * bytes)%type.

Definition stamp_lt (a b : N * N) : Prop := (a.1 < b.1)%N ∨ a.1 = b.1 ∧ (a.2 < b.2)%N.

Global Instance stamp_lt_dec a b : Decision (stamp_lt a b).
Proof. unfold stamp_lt. apply _. Defined.

Lemma stamp_lt_trans a b c : stamp_lt a b → stamp_lt b c → stamp_lt a c.
Proof. unfold stamp_lt. lia. Qed.

Lemma stamp_lt_irrefl a : ¬ stamp_lt a a.
Proof. unfold stamp_lt. lia. Qed.

Lemma stamp_total a b : ¬ stamp_lt a b → ¬ stamp_lt b a → a = b.
Proof. destruct a, b. unfold stamp_lt. simpl. intros. f_equal; lia. Qed.

Definition lww (a b : write) : write := if decide (stamp_lt a.1 b.1) then b else a.

Lemma lww_max (l : list write) (a : write) :
  foldl lww a l ∈ a :: l ∧ ∀ x, x ∈ a :: l → ¬ stamp_lt (foldl lww a l).1 x.1.
Proof.
  revert a. induction l as [|b l IH]; intros a; simpl.
  - split; [by left|]. intros x ->%list_elem_of_singleton. apply stamp_lt_irrefl.
  - destruct (IH (lww a b)) as [Hin Hmax]. revert Hin Hmax.
    generalize (foldl lww (lww a b) l) as r. intros r Hin Hmax.
    assert (¬ stamp_lt r.1 (lww a b).1) as H0 by (apply Hmax; by left).
    assert (∀ x, x ∈ l → ¬ stamp_lt r.1 x.1) as Hl by (intros x Hx; apply Hmax; by right).
    unfold lww in Hin, H0. case_decide as Hab; (split; [set_solver|]);
      intros x [->|[->|Hx]%elem_of_cons]%elem_of_cons Hlt; try by (eapply Hl; eauto).
    + by eapply H0, stamp_lt_trans.
    + destruct (decide (stamp_lt b.1 a.1)) as [Hba|Hba].
      * by eapply H0, stamp_lt_trans.
      * apply H0. by rewrite (stamp_total _ _ Hab Hba).
Qed.

Lemma lww_set_eq (l1 l2 : list write) (a : write) :
  (∀ x, x ∈ l1 ↔ x ∈ l2) →
  (∀ x y, x ∈ a :: l1 → y ∈ a :: l1 → x.1 = y.1 → x.2 = y.2) →
  foldl lww a l1 = foldl lww a l2.
Proof.
  intros Heq Hcompat. destruct (lww_max l1 a) as [Hin1 Hm1], (lww_max l2 a) as [Hin2 Hm2].
  assert (∀ x, x ∈ a :: l1 ↔ x ∈ a :: l2) as Heq'.
  { intros x. rewrite !elem_of_cons, Heq. done. }
  assert ((foldl lww a l1).1 = (foldl lww a l2).1) as Hs.
  { apply stamp_total; [apply Hm1; by apply Heq'|apply Hm2; by apply Heq']. }
  assert ((foldl lww a l1).2 = (foldl lww a l2).2) as Hd.
  { apply Hcompat; [done|by apply Heq'|done]. }
  destruct (foldl lww a l1), (foldl lww a l2). simpl in *. congruence.
Qed.

Definition write_of (x : SessionStateSync) : write := ((ss_timestamp x, ss_version x), ss_data x).

Definition session_write (s : Session) : write :=
  ((state_timestamp s, state_version s), state_data s).

Lemma lww_wins_stamp t v s :
  lww_wins t v s = true ↔ stamp_lt (state_timestamp s, state_version s) (t, v).
Proof.
  unfold lww_wins, stamp_lt. simpl.
  rewrite orb_true_iff, andb_true_iff, !N.ltb_lt, N.eqb_eq. naive_solver.
Qed.

Section facts.
#[local] Set Default Proof Using "Type*".
Context `{PS : PetGraphSpec string LinkWeight} `{HS : HashOrderSpec} `{G : Governor}.
Context {SocketAddr : Type} `{Countable SocketAddr} {Handler : Type}.

Abbreviation FlowNode := (FlowNode (SocketAddr := SocketAddr) (Handler := Handler)).
Abbreviation Effect := (Effect (SocketAddr := SocketAddr)).
Implicit Types (n m : FlowNode) (eff : list Effect).

Definition sync_event (from : string) (x : SessionStateSync) : ControlEvent :=
  received from (session_payload (StateSync x)).

(** Handling one update of a session without a merge function. *)
Lemma handle_sync_lww p clk from x n s :
  sessions n !! ss_session_id x = Some s → merge_fns n !! ss_session_id x = None →
  ∃ n' eff s', handle_event p clk (sync_event from x) n = Ret (n', eff) ∧
    sessions n' !! ss_session_id x = Some s' ∧ session_write s' = lww (session_write s) (write_of x) ∧
    merge_fns n' = merge_fns n.
Proof.
  intros Hs Hm. unfold sync_event, received. simpl. unfold handle_state_sync. simpl.
  rewrite Hs, Hm. simpl. unfold lww. simpl.
  destruct (lww_wins (ss_timestamp x) (ss_version x) s) eqn:Ew; simpl.
  - apply lww_wins_stamp in Ew. eexists _, _, _. split; [done|]. simpl.
    rewrite lookup_insert_eq. split; [done|]. by rewrite decide_True by done.
  - eexists _, _, s. split; [done|]. simpl. split; [done|].
    rewrite decide_False; [done|]. rewrite <- lww_wins_stamp. congruence.
Qed.

Definition sync_events (l : list (Clock * string * SessionStateSync)) :
    list (Clock * ControlEvent) :=
  (λ c, (c.1.1, sync_event c.1.2 c.2)) <$> l.

Lemma run_syncs_lww p id l n s :
  sessions n !! id = Some s → merge_fns n !! id = None →
  Forall (λ c, ss_session_id c.2 = id) l →
  ∃ n' eff s', run_control_loop p (sync_events l) n = Ret (n', eff) ∧
    sessions n' !! id = Some s' ∧
    session_write s' = foldl lww (session_write s) ((λ c, write_of c.2) <$> l).
Proof.
  intros Hs Hm Hl. revert n s Hs Hm.
  induction Hl as [|[[clk from] x] l Hx Hl IH]; intros n s Hs Hm.
  - by eexists _, _, s.
  - simpl in Hx. subst id.
    change (sync_events ((clk, from, x) :: l)) with ((clk, sync_event from x) :: sync_events l).
    cbn [run_control_loop].
    destruct (handle_sync_lww p clk from x n s Hs Hm) as (n1 & eff1 & s1 & E & Hs1 & Hw & Hm1).
    rewrite E. simpl. destruct (IH n1 s1 Hs1) as (n2 & eff2 & s2 & E2 & Hs2 & Hw2);
      [by rewrite Hm1|]. rewrite E2. simpl.
    eexists _, _, s2. split; [done|]. split; [done|]. by rewrite Hw2, Hw.
Qed.

(** ** Theorems *)

(** Last write wins converges: two nodes whose copies of a session agree, that
    receive the same writes (in any order, from any peers, any number of times),
    end with the same state, provided no two different writes carry the same
    timestamp and version. *)
Lemma lww_converges p id l1 l2 n1 n2 s1 s2 :
  sessions n1 !! id = Some s1 → sessions n2 !! id = Some s2 →
  session_write s1 = session_write s2 →
  merge_fns n1 !! id = None → merge_fns n2 !! id = None →
  Forall (λ c, ss_session_id c.2 = id) l1 → Forall (λ c, ss_session_id c.2 = id) l2 →
  let w1 := (λ c : Clock * string * SessionStateSync, write_of c.2) <$> l1 in
  let w2 := (λ c : Clock * string * SessionStateSync, write_of c.2) <$> l2 in
  (∀ w, w ∈ w1 ↔ w ∈ w2) →
  (∀ x y, x ∈ session_write s1 :: w1 → y ∈ session_write s1 :: w1 → x.1 = y.1 → x.2 = y.2) →
  ∃ n1' eff1 n2' eff2 data,
    run_control_loop p (sync_events l1) n1 = Ret (n1', eff1) ∧
    run_control_loop p (sync_events l2) n2 = Ret (n2', eff2) ∧
    get_session_state id n1' = Some data ∧ get_session_state id n2' = Some data.
Proof.
  intros Hs1 Hs2 Hw Hm1 Hm2 Hl1 Hl2 w1 w2 Heq Hcompat.
  destruct (run_syncs_lww p id l1 n1 s1 Hs1 Hm1 Hl1) as (n1' & eff1 & s1' & E1 & Hs1' & Hw1).
  destruct (run_syncs_lww p id l2 n2 s2 Hs2 Hm2 Hl2) as (n2' & eff2 & s2' & E2 & Hs2' & Hw2).
  exists n1', eff1, n2', eff2, (state_data s1'). split; [done|]. split; [done|].
  unfold get_session_state. rewrite Hs1', Hs2'. split; [done|]. simpl. f_equal.
  rewrite <- Hw in Hw2. fold w1 in Hw1. fold w2 in Hw2.
  rewrite (lww_set_eq w1 w2) in Hw1 by done. rewrite <- Hw1 in Hw2.
  by injection Hw2.
Qed.

(** A tie is not resolved: when two nodes hold different data under the same
    timestamp and version, each ignores the other's write, and they stay
    different. *)
Lemma lww_tie_diverges p c1 c2 id n m s t x y :
  sessions n !! id = Some s → sessions m !! id = Some t →
  merge_fns n !! id = None → merge_fns m !! id = None →
  ss_session_id x = id → ss_session_id y = id →
  write_of x = session_write t → write_of y = session_write s →
  (session_write s).1 = (session_write t).1 → state_data s ≠ state_data t →
  ∃ n' m', handle_event p c1 (sync_event (node_id m) x) n = Ret (n', []) ∧
    handle_event p c2 (sync_event (node_id n) y) m = Ret (m', []) ∧
    get_session_state id n' = Some (state_data s) ∧
    get_session_state id m' = Some (state_data t).
Proof.
  intros Hs Ht Hn Hm <- Hy Hwx Hwy Hst _.
  assert (∀ (k : FlowNode) u z from clk, sessions k !! ss_session_id z = Some u →
    merge_fns k !! ss_session_id z = None → (write_of z).1 = (session_write u).1 →
    ∃ k', handle_event p clk (sync_event from z) k = Ret (k', []) ∧
      get_session_state (ss_session_id z) k' = Some (state_data u)) as Hsame.
  { intros k u z from clk Hu Hk Hz. unfold sync_event, received. simpl.
    unfold handle_state_sync. simpl. rewrite Hu, Hk. simpl.
    destruct (lww_wins (ss_timestamp z) (ss_version z) u) eqn:Ew; simpl.
    - apply lww_wins_stamp in Ew. unfold write_of, session_write in Hz. simpl in Hz.
      rewrite Hz in Ew. by apply stamp_lt_irrefl in Ew.
    - eexists. split; [done|]. unfold get_session_state. simpl. by rewrite Hu. }
  destruct (Hsame n s x (node_id m) c1) as (n' & E1 & G1); try done; [by rewrite Hwx|].
  destruct (Hsame m t y (node_id n) c2) as (m' & E2 & G2); try (by rewrite ?Hy).
  { by rewrite Hwy. }
  rewrite Hy in G2. eauto 10.
Qed.

(** *** Local writes *)

(** The update [sync_session_state] broadcasts. *)
Definition own_sync (clk : Clock) (id : string) (data : bytes) (s : Session) (n : FlowNode) :
    SessionStateSync :=
  mkSessionStateSync id (node_id n) SNAPSHOT (system clk 0) (state_version s + 1) data CODEC_RAW.

Lemma sync_session_state_eq p clk id data n s :
  sessions n !! id = Some s → merge_fns n !! id = None → (state_version s < u64_max)%N →
  sync_session_state p clk id data n =
    Ret (with_sessions (<[id := with_state data (state_version s + 1) (system clk 0) s]>
           (sessions n)) n,
         Ok (broadcast_control_message
               (session_payload (StateSync (own_sync clk id data s n))) n)).
Proof.
  intros Hs Hm Hv. unfold sync_session_state, u64_add. rewrite Hs.
  destruct (N.leb_spec (state_version s + 1) u64_max); [|lia]. simpl. by rewrite Hm.
Qed.

(** A local write reaches the peers: when the clock is not behind the session's last
    timestamp, the node stores the new data and broadcasts it, and a peer whose
    copy had the same state as the node's takes it over; when the clock is behind
    (it was set back, or the last write came from a node with a faster clock), the
    node still overwrites its own copy and lowers its timestamp, but the peer
    rejects the broadcast, and the copies differ. *)
Lemma sync_reaches_peer p clk clk' id data n m s t :
  sessions n !! id = Some s → sessions m !! id = Some t → session_write s = session_write t →
  merge_fns n !! id = None → merge_fns m !! id = None → (state_version s < u64_max)%N →
  ∃ n' x m' eff,
    sync_session_state p clk id data n =
      Ret (n', Ok (broadcast_control_message (session_payload (StateSync x)) n)) ∧
    get_session_state id n' = Some data ∧
    handle_event p clk' (sync_event (node_id n) x) m = Ret (m', eff) ∧
    ((state_timestamp s <= system clk 0)%N → get_session_state id m' = Some data) ∧
    ((system clk 0 < state_timestamp s)%N → get_session_state id m' = Some (state_data t)).
Proof.
  intros Hs Ht Hw Hn Hm Hv. rewrite (sync_session_state_eq p clk id data n s) by done.
  destruct (handle_sync_lww p clk' (node_id n) (own_sync clk id data s n) m t)
    as (m' & eff & t' & E & Ht' & Hw' & _); try done.
  eexists _, (own_sync clk id data s n), m', eff. split; [done|].
  unfold get_session_state. simpl in Ht'. simpl. rewrite lookup_insert_eq, Ht'.
  split; [done|]. split; [done|]. simpl.
  rewrite <- Hw in Hw'. unfold lww, session_write, write_of in Hw', Hw. simpl in Hw', Hw.
  injection Hw as Hts Hvs Hds. split; intros Hle.
  - rewrite decide_True in Hw'; [by injection Hw' as _ _ ->|].
    unfold stamp_lt. simpl. lia.
  - rewrite decide_False in Hw'; [injection Hw' as _ _ ->; by rewrite Hds|].
    unfold stamp_lt. simpl. lia.
Qed.

(** When the application's merge function fails, [sync_session_state] returns the
    error and sends nothing, and the data stay, but the session keeps a version and
    a timestamp that were never published. *)
Lemma sync_merge_error p clk id data n s f e :
  sessions n !! id = Some s → merge_fns n !! id = Some f → f (state_data s) data = Err e →
  (state_version s < u64_max)%N →
  ∃ n' s', sync_session_state p clk id data n =
      Ret (n', Err (ESession ("Local merge error: " +:+ e))) ∧
    sessions n' !! id = Some s' ∧ state_data s' = state_data s ∧
    state_version s' = (state_version s + 1)%N ∧ state_timestamp s' = system clk 0.
Proof.
  intros Hs Hm Hf Hv. unfold sync_session_state, u64_add. rewrite Hs.
  destruct (N.leb_spec (state_version s + 1) u64_max); [|lia]. simpl. rewrite Hm, Hf.
  eexists _, _. split; [done|]. simpl. by rewrite lookup_insert_eq.
Qed.

(** *** Lifetime *)

(** Creating a session that exists already resets the creator's copy to an empty
    state, while the peers that know the session ignore the announcement and keep
    theirs; neither is passed on. *)
Lemma create_session_resets p clk clk' id flows meta n m s t :
  sessions n !! id = Some s → sessions m !! id = Some t →
  ∃ n' c m', create_session clk id flows meta n =
      (n', broadcast_control_message (session_payload (Create c)) n) ∧
    get_session_state id n' = Some [] ∧
    handle_event p clk' (received (node_id n) (session_payload (Create c))) m = Ret (m', []) ∧
    get_session_state id m' = Some (state_data t).
Proof.
  intros Hs Ht. unfold create_session.
  eexists _, (mkSessionCreate id (node_id n) flows (system clk 1) meta), _.
  split; [done|]. unfold get_session_state. simpl. rewrite lookup_insert_eq. split; [done|].
  unfold handle_create. simpl. rewrite Ht. split; [done|]. simpl. by rewrite Ht.
Qed.

(** A session announced by a peer is stored with an empty state and passed on
    exactly once: handling the same announcement again, from anybody, changes
    nothing and sends nothing, and so does announcing another session under the
    same identifier. *)
Lemma create_handled_once p clk clk' from from' c c' n :
  sessions n !! sc_session_id c = None → sc_session_id c' = sc_session_id c →
  ∃ n' eff seen, handle_event p clk (received from (session_payload (Create c))) n = Ret (n', eff) ∧
    get_session_state (sc_session_id c) n' = Some [] ∧
    (∀ e, e ∈ eff ↔ ∃ peer tx, e = Send tx (to_message (session_payload (Create c))) ∧
       peer_writers n !! peer = Some tx ∧ peer ≠ from ∧ peer ≠ sc_creator_node c) ∧
    handle_event p clk' (received from' (session_payload (Create c'))) n' =
      Ret (with_seen seen n', []).
Proof.
  intros Hc Hid. unfold received. simpl. unfold handle_create. simpl. rewrite Hc.
  eexists _, _, _. split; [done|]. unfold get_session_state. simpl.
  rewrite Hid, lookup_insert_eq. split; [done|]. split; [|done].
  intros e. by rewrite elem_of_gossip.
Qed.

(** Closing ends a session everywhere: the closing node forgets it and tells every
    peer, a peer that knows it forgets it and passes the message on, a peer that
    does not know it stops the message; closing an unknown session is an error and
    sends nothing. *)
Lemma close_session_handled p clk from id reason n m :
  (sessions n !! id = None →
   close_session id reason n = (n, Err (ESession ("Session " +:+ id +:+ " not found")))) ∧
  (is_Some (sessions n !! id) →
   ∃ n' c, close_session id reason n =
       (n', Ok (broadcast_control_message (session_payload (Close c)) n)) ∧
     get_session_state id n' = None ∧
     (node_id n ≠ node_id m →
      ∃ m' eff, handle_event p clk (received from (session_payload (Close c))) m = Ret (m', eff) ∧
       get_session_state id m' = None ∧
       ∀ e, e ∈ eff ↔ is_Some (sessions m !! id) ∧
         ∃ peer tx, e = Send tx (to_message (session_payload (Close c))) ∧
           peer_writers m !! peer = Some tx ∧ peer ≠ from ∧ peer ≠ node_id n)).
Proof.
  unfold close_session, get_session_state. split.
  { by intros ->. }
  intros [s Hs]. rewrite Hs. eexists _, (mkSessionClose id (node_id n) reason).
  split; [done|]. simpl. rewrite lookup_delete_eq. split; [done|]. intros Hne.
  unfold handle_close. simpl. rewrite (bool_decide_eq_false_2 (node_id n = node_id m)) by done.
  rewrite orb_false_r. case_bool_decide as Hm; eexists _, _; (split; [done|]); simpl;
    rewrite lookup_delete_eq; (split; [done|]); intros e.
  - rewrite elem_of_gossip. simpl. naive_solver.
  - split; [by intros ?%elem_of_nil|]. by intros [? _].
Qed.

(** The garbage collector also evicts the node's own sessions: the node's entry for
    itself is refreshed only by control messages that name it (its own subscription
    updates and closes, or a topology update that lists it), not by its being alive.
    Once it is more than 300 seconds old, a session the node created is removed and
    closed on every peer too. *)
Lemma gc_evicts_own_session p clk clk' id n s t :
  sessions n !! id = Some s → creator_node s = node_id n →
  node_last_seen n !! node_id n = Some t → (secs 300 < instant clk 0 - t)%N →
  let '(n', events) := gc_tick clk n in
  get_session_state id n' = None ∧
  ∃ ev c n'' eff, ev ∈ events ∧ handle_event p clk' ev n' = Ret (n'', eff) ∧
    scl_session_id c = id ∧
    ∀ peer tx, peer_writers n !! peer = Some tx → peer ≠ node_id n →
      Send tx (to_message (session_payload (Close c))) ∈ eff.
Proof.
  intros Hs Hc Hseen Ht. unfold gc_tick.
  pose proof (gc_exact (instant clk 0) (sessions n) (node_last_seen n) (secs 300)) as Hgc.
  destruct (gc_inactive_sessions _ _ _ _) as [kept evicted]. destruct Hgc as (Hk & He & _).
  assert (kept !! id = None) as Hnone.
  { destruct (kept !! id) as [s'|] eqn:E; [|done]. apply Hk in E as [E Hle].
    assert (s' = s) as -> by congruence. rewrite Hc in Hle. specialize (Hle t Hseen). lia. }
  split; [unfold get_session_state; simpl; by rewrite Hnone|].
  set (c := mkSessionClose id (node_id n) "Session TTL expired (creator inactive)").
  eexists (received (node_id n) (session_payload (Close c))), c, _, _. split_and!.
  - apply list_elem_of_fmap. exists id. split; [done|]. apply He. split; [by exists s|done].
  - unfold received. simpl. unfold handle_close. simpl. rewrite (bool_decide_eq_true_2 (node_id n = node_id n)) by done.
    rewrite orb_true_r. done.
  - done.
  - intros peer tx Hpeer Hne. rewrite elem_of_gossip. simpl. eauto 10.
Qed.
End facts.
