(* ===== verification/Network.v ===== *)
(** * A network of flow nodes

    Nodes joined by control streams: what a handler sends on a channel arrives, at
    some later time, as an event at the node on the other end.  A step lets one
    node handle one event.  Messages in flight are delivered in any order; a
    control stream delivers in order, so its runs are among these. *)
From S2P Require Import Prelude Proto Topic Graph GraphFacts Dijkstra Reconciliation.
From S2P Require Import Backpressure FlowNode FlowFacts ControlFacts.
From stdpp Require Import options.

Section network.
Context `{PG : PetGraph string LinkWeight} `{HO : HashOrder} `{G : Governor}.
Context {SocketAddr : Type} `{Countable SocketAddr} {Handler : Type}.

Abbreviation FlowNode := (FlowNode (SocketAddr := SocketAddr) (Handler := Handler)).
Abbreviation Effect := (Effect (SocketAddr := SocketAddr)).

Record Net := mkNet {
  members : gmap string FlowNode;
  flight : list (string * ControlEvent);
}.

(** [wires] gives, for a channel, the node that writes to it and the node at the
    other end. *)
Definition deliveries (wires : gmap nat (string * string)) (eff : list Effect) :
    list (string * ControlEvent) :=
  omap (λ e, match e with
             | Send tx msg =>
                 (λ ends : string * string, (ends.2, ControlMsgReceived ends.1 msg)) <$> wires !! tx
             | SpawnReconnect _ _ _ => None
             end) eff.

Inductive net_step (p : profile) (wires : gmap nat (string * string)) : Net → Net → Prop :=
| net_deliver clk dest ev n n' eff ns l1 l2 :
    ns !! dest = Some n → handle_event p clk ev n = Ret (n', eff) →
    net_step p wires (mkNet ns (l1 ++ (dest, ev) :: l2))
      (mkNet (<[dest := n']> ns) (l1 ++ l2 ++ deliveries wires eff)).

(** Every member is stored under its name, and its channels lead to members. *)
Record wired (wires : gmap nat (string * string)) (ns : gmap string FlowNode) : Prop := {
  wired_id a n : ns !! a = Some n → node_id n = a;
  wired_wf a n : ns !! a = Some n → node_wf n;
  wired_chan a n b tx : ns !! a = Some n → peer_writers n !! b = Some tx →
    wires !! tx = Some (a, b) ∧ is_Some (ns !! b);
}.

(** One hop along a control stream. *)
Definition peers (ns : gmap string FlowNode) (a b : string) : Prop :=
  ∃ n, ns !! a = Some n ∧ is_Some (peer_writers n !! b).

Lemma length_deliveries wires eff : length (deliveries wires eff) <= length eff.
Proof.
  unfold deliveries. induction eff as [|[tx msg|] eff IH]; csimpl; [lia| |lia].
  destruct (wires !! tx); simpl; lia.
Qed.

Lemma elem_of_deliveries wires eff d ev :
  (d, ev) ∈ deliveries wires eff ↔
  ∃ tx msg src, Send tx msg ∈ eff ∧ wires !! tx = Some (src, d) ∧ ev = ControlMsgReceived src msg.
Proof.
  unfold deliveries. rewrite list_elem_of_omap. split.
  - intros ([tx msg|] & Hin & Hd); [|done].
    destruct (wires !! tx) as [[src dst]|] eqn:E; [|done]. simpl in Hd. injection Hd as <- <-.
    eauto 10.
  - intros (tx & msg & src & Hin & Hw & ->). exists (Send tx msg). split; [done|].
    by rewrite Hw.
Qed.

(** One node changes and keeps its peers. *)
Lemma peers_insert ns d n n' a b :
  ns !! d = Some n → peer_writers n' = peer_writers n →
  peers (<[d := n']> ns) a b ↔ peers ns a b.
Proof.
  intros Hn Hpw. unfold peers. split.
  - intros (m & Ha & Hb). rewrite lookup_insert in Ha. case_decide as Hd; [|by eauto].
    subst a. injection Ha as <-. exists n. by rewrite <- Hpw.
  - intros (m & Ha & Hb). rewrite lookup_insert. case_decide as Hd; [|by eauto].
    subst a. exists n'. split; [done|]. rewrite Hpw. congruence.
Qed.

Lemma change_lookup (ns : gmap string FlowNode) d n' a m :
  <[d := n']> ns !! a = Some m → a = d ∧ m = n' ∨ a ≠ d ∧ ns !! a = Some m.
Proof. rewrite lookup_insert. case_decide; naive_solver. Qed.

Lemma change_member (ns : gmap string FlowNode) d n n' a :
  ns !! d = Some n → is_Some (<[d := n']> ns !! a) ↔ is_Some (ns !! a).
Proof. intros Hn. rewrite lookup_insert. case_decide; [subst; rewrite Hn|]; naive_solver. Qed.

Lemma wired_insert wires ns d n n' :
  wired wires ns → ns !! d = Some n → node_wf n' → node_id n' = node_id n →
  peer_writers n' = peer_writers n → wired wires (<[d := n']> ns).
Proof.
  intros [Hid Hwf Hch] Hn Hwf' Hid' Hpw. split.
  - intros a m [[-> ->]|[_ Ha]]%change_lookup; [rewrite Hid'|]; by apply Hid.
  - intros a m [[-> ->]|[_ Ha]]%change_lookup; [done|by eapply Hwf].
  - intros a m b tx [[-> ->]|[_ Ha]]%change_lookup Hb; rewrite (change_member ns d n n') by done;
      [rewrite Hpw in Hb|]; by eapply Hch.
Qed.
End network.

Section flood.
#[local] Set Default Proof Using "Type*".
Context `{PS : PetGraphSpec string LinkWeight} `{HS : HashOrderSpec} `{G : Governor}.
Context {SocketAddr : Type} `{Countable SocketAddr} {Handler : Type}.

Abbreviation FlowNode := (FlowNode (SocketAddr := SocketAddr) (Handler := Handler)).
Abbreviation Net := (Net (SocketAddr := SocketAddr) (Handler := Handler)).
Abbreviation members := (members (SocketAddr := SocketAddr) (Handler := Handler)).
Implicit Types (n : FlowNode) (ns : gmap string FlowNode) (net : Net)
  (eff : list (Effect (SocketAddr := SocketAddr))).

(** ** What arrives *)

Lemma elem_of_gossiped wires ns d n n' f o q b ev :
  wired wires ns → ns !! d = Some n → peer_writers n' = peer_writers n →
  (b, ev) ∈ deliveries wires (gossip f o q n') ↔
  ev = received d q ∧ is_Some (peer_writers n !! b) ∧ b ≠ f ∧ b ≠ o.
Proof.
  intros Hw Hn Hpw. rewrite elem_of_deliveries. split.
  - intros (tx & msg & src & (b' & tx' & [= -> ->] & Hb & Hne)%elem_of_gossip & Hs & ->).
    rewrite Hpw in Hb. destruct (wired_chan _ _ Hw d n b' tx' Hn Hb) as [Hs' _]. simplify_eq. eauto.
  - intros (-> & [tx Hb] & Hne). destruct (wired_chan _ _ Hw d n b tx Hn Hb) as [Hs _].
    exists tx, (to_message q), d. split; [|done]. apply elem_of_gossip. exists b, tx. by rewrite Hpw.
Qed.

Lemma elem_of_broadcasted wires ns d n n' q b ev :
  wired wires ns → ns !! d = Some n → peer_writers n' = peer_writers n →
  (b, ev) ∈ deliveries wires (broadcast_control_message q n') ↔
  ev = received d q ∧ is_Some (peer_writers n !! b).
Proof.
  intros Hw Hn Hpw. rewrite elem_of_deliveries. split.
  - intros (tx & msg & src & (b' & tx' & [= -> ->] & Hb)%elem_of_broadcast & Hs & ->).
    rewrite Hpw in Hb. destruct (wired_chan _ _ Hw d n b' tx' Hn Hb) as [Hs' _]. simplify_eq. eauto.
  - intros (-> & [tx Hb]). destruct (wired_chan _ _ Hw d n b tx Hn Hb) as [Hs _].
    exists tx, (to_message q), d. split; [|done]. apply elem_of_broadcast. exists b, tx. by rewrite Hpw.
Qed.

Lemma wired_peer wires ns d n b :
  wired wires ns → ns !! d = Some n → is_Some (peer_writers n !! b) → is_Some (ns !! b).
Proof. intros Hw Hn [tx Hb]. by apply (wired_chan _ _ Hw d n b tx). Qed.

(** A gossiped or broadcast message takes as many deliveries as there are peers, at most. *)
Lemma length_gossiped wires f o q n :
  length (deliveries (SocketAddr := SocketAddr) wires (gossip f o q n)) <= size (peer_writers n).
Proof.
  etrans; [apply length_deliveries|]. rewrite length_gossip.
  apply map_subseteq_size, map_filter_subseteq.
Qed.

(** ** Flooding of one subscription update *)

Section update.
Variable u : SubscriptionUpdate.

(** The node has not seen the update yet. *)
Definition behind (n : FlowNode) : bool :=
  is_newer (last_subscription_epochs n) (su_node_id u) (su_epoch u).

(** The node has taken the update over. *)
Definition knows (n : FlowNode) : Prop :=
  behind n = false ∧
  ∃ d, node_metadata (fgraph n) !! su_node_id u = Some d ∧
       nd_capabilities d = subscription_capabilities (su_entries u).

(** Only copies of the update are in flight, every node is behind or knows it, and
    a node that knows it has told its peers. *)
Record flooding (wires : gmap nat (string * string)) (net : Net) : Prop := {
  fl_wired : wired wires (members net);
  fl_split a n : members net !! a = Some n → behind n = true ∨ knows n;
  fl_flight d ev : (d, ev) ∈ flight net → is_Some (members net !! d) ∧
    ∃ f n, ev = received f (MSubscriptionUpdate u) ∧ members net !! f = Some n ∧ knows n;
  fl_origin n : members net !! su_node_id u = Some n → knows n;
  fl_told a n b tx : members net !! a = Some n → knows n → peer_writers n !! b = Some tx →
    (∃ m, members net !! b = Some m ∧ knows m) ∨ ∃ ev, (b, ev) ∈ flight net;
}.

(** What is left to do: the messages in flight and those still to be sent. *)
Definition work (net : Net) : nat :=
  length (flight net) +
  sum_map (λ _ n, if behind n then size (peer_writers n) else 0) (members net).

Lemma handle_update p clk f n n' eff :
  node_wf n → behind n = true ∨ knows n →
  handle_event p clk (received f (MSubscriptionUpdate u)) n = Ret (n', eff) →
  node_wf n' ∧ node_id n' = node_id n ∧ peer_writers n' = peer_writers n ∧ knows n' ∧
  if behind n then eff = gossip f (su_node_id u) (MSubscriptionUpdate u) n' else eff = [].
Proof.
  intros Hwf Hbk Hev. destruct (handle_event_wf _ _ _ _ _ _ Hwf Hev) as [Hwf' Hid].
  destruct (handle_subscription_eq p clk f u n) as [seen Heq]. rewrite Heq in Hev. clear Heq.
  unfold behind at 1. unfold behind in Hbk.
  destruct (is_newer (last_subscription_epochs n) _ _) eqn:En; injection Hev as <- <-.
  - split_and!; try done. split.
    + apply is_newer_false. simpl. rewrite lookup_insert_eq. by eexists.
    + cbn [fgraph with_graph with_subscription_epochs with_seen].
      rewrite add_node_metadata by apply Hwf. simpl. rewrite lookup_insert_eq. by eexists.
  - split_and!; try done. by destruct Hbk as [|[??]].
Qed.

Lemma work_deliver wires ns l1 l2 d ev n n' eff :
  ns !! d = Some n → knows n' →
  length eff <= (if behind n then size (peer_writers n) else 0) →
  work (mkNet (<[d := n']> ns) (l1 ++ l2 ++ deliveries wires eff)) <
  work (mkNet ns (l1 ++ (d, ev) :: l2)).
Proof.
  intros Hn [Hb _] Hlen. unfold work. cbn [Network.members flight].
  pose proof (length_deliveries wires eff). rewrite !length_app. cbn [length].
  rewrite sum_map_insert, (sum_map_delete _ ns d n Hn), Hb. destruct (behind n); lia.
Qed.

(** *** One delivery *)

Section delivery.
Variables (p : profile) (wires : gmap nat (string * string)) (ns : gmap string FlowNode).
Variables (l1 l2 : list (string * ControlEvent)) (d f : string) (clk : Clock).
Variables (n n' : FlowNode) (eff : list (Effect (SocketAddr := SocketAddr))).
Let ev := received f (MSubscriptionUpdate u).
Hypothesis Hfl : flooding wires (mkNet ns (l1 ++ (d, ev) :: l2)).
Hypothesis Hn : ns !! d = Some n.
Hypothesis Hev : handle_event p clk ev n = Ret (n', eff).

Lemma deliver_handled :
  node_wf n' ∧ node_id n' = d ∧ peer_writers n' = peer_writers n ∧ knows n' ∧
  if behind n then eff = gossip f (su_node_id u) (MSubscriptionUpdate u) n' else eff = [].
Proof.
  destruct (fl_wired _ _ Hfl) as [Hid Hwf _].
  destruct (handle_update p clk f n n' eff (Hwf d n Hn) (fl_split _ _ Hfl d n Hn) Hev)
    as (? & -> & ?). rewrite (Hid d n Hn). done.
Qed.

Lemma deliver_knows a m :
  ns !! a = Some m → knows m → ∃ m', <[d := n']> ns !! a = Some m' ∧ knows m'.
Proof.
  intros Ha Hm. rewrite lookup_insert. case_decide; [|by eauto].
  exists n'. split; [done|]. by destruct deliver_handled as (_ & _ & _ & ? & _).
Qed.

Lemma deliver_member a : is_Some (ns !! a) → is_Some (<[d := n']> ns !! a).
Proof. intros Ha. by apply (change_member ns d n n' a Hn). Qed.

Lemma deliver_arrivals b e :
  (b, e) ∈ deliveries wires eff ↔ behind n = true ∧ e = received d (MSubscriptionUpdate u) ∧
    is_Some (peer_writers n !! b) ∧ b ≠ f ∧ b ≠ su_node_id u.
Proof.
  destruct deliver_handled as (_ & _ & Hpw & _ & Heff). destruct (behind n); subst eff.
  - rewrite (elem_of_gossiped _ ns d n) by (try apply (fl_wired _ _ Hfl); done). naive_solver.
  - split; [by intros ?%elem_of_nil|by intros [? _]].
Qed.

Lemma deliver_wired : wired wires (<[d := n']> ns).
Proof.
  destruct deliver_handled as (Hwf' & Hid' & Hpw & _ & _).
  apply (wired_insert _ _ d n); try done; [apply (fl_wired _ _ Hfl)|].
  by rewrite (wired_id _ _ (fl_wired _ _ Hfl) d n Hn).
Qed.

Lemma deliver_flight d' ev' :
  (d', ev') ∈ l1 ++ l2 ++ deliveries wires eff → is_Some (<[d := n']> ns !! d') ∧
  ∃ f m, ev' = received f (MSubscriptionUpdate u) ∧ <[d := n']> ns !! f = Some m ∧ knows m.
Proof.
  intros Hin. rewrite app_assoc in Hin. apply elem_of_app in Hin as [Hin|Hin].
  - destruct (fl_flight _ _ Hfl d' ev') as (Hd' & f' & m & -> & Hf' & Hk); cbn [flight] in *.
    { set_solver. }
    split; [by apply deliver_member|]. destruct (deliver_knows f' m Hf' Hk) as (m' & ? & ?).
    by exists f', m'.
  - apply deliver_arrivals in Hin as (_ & -> & Hb & _).
    split; [apply deliver_member, (wired_peer _ _ _ _ _ (fl_wired _ _ Hfl) Hn Hb)|].
    exists d, n'. destruct deliver_handled as (_ & _ & _ & Hk & _).
    split_and!; [done|by rewrite lookup_insert_eq|done].
Qed.

(** The peers of a node that knew the update before. *)
Lemma deliver_told_before a m b tx :
  ns !! a = Some m → knows m → peer_writers m !! b = Some tx → b ≠ d →
  (∃ m', <[d := n']> ns !! b = Some m' ∧ knows m') ∨
  ∃ ev, (b, ev) ∈ l1 ++ l2 ++ deliveries wires eff.
Proof.
  intros Ha Hk Hb Hbd.
  destruct (fl_told _ _ Hfl a m b tx Ha Hk Hb) as [(m' & Hm' & Hk')|[ev' Hev']].
  - left. by eapply deliver_knows.
  - right. exists ev'. cbn [flight] in Hev'. rewrite !elem_of_app, elem_of_cons in *.
    destruct Hev' as [?|[[= ??]|?]]; [auto|done|auto].
Qed.

(** The peers of the node that has just learnt it. *)
Lemma deliver_told_now b tx :
  behind n = true → peer_writers n !! b = Some tx → b ≠ d →
  (∃ m', <[d := n']> ns !! b = Some m' ∧ knows m') ∨
  ∃ ev, (b, ev) ∈ l1 ++ l2 ++ deliveries wires eff.
Proof.
  intros Hbn Hb Hbd.
  destruct (wired_chan _ _ (fl_wired _ _ Hfl) d n b tx Hn Hb) as [Hw [m Hm]].
  destruct (decide (b = f)) as [->|Hbf].
  { destruct (fl_flight _ _ Hfl d ev) as (_ & f' & m' & Heq & Hf' & Hk'); cbn [flight]; [set_solver|].
    injection Heq as <-. left. by eapply deliver_knows. }
  destruct (decide (b = su_node_id u)) as [->|Hbo].
  { left. eapply deliver_knows; [done|]. by apply (fl_origin _ _ Hfl). }
  right. exists (received d (MSubscriptionUpdate u)). rewrite !elem_of_app, deliver_arrivals.
  right. right. split_and!; eauto.
Qed.

Lemma deliver_flooding :
  flooding wires (mkNet (<[d := n']> ns) (l1 ++ l2 ++ deliveries wires eff)).
Proof.
  destruct deliver_handled as (_ & _ & Hpw & Hk' & _). split; cbn [Network.members flight].
  - apply deliver_wired.
  - intros a m [[-> ->]|[_ Ha]]%change_lookup; [by right|by eapply (fl_split _ _ Hfl)].
  - apply deliver_flight.
  - intros m [[_ ->]|[_ Ha]]%change_lookup; [done|by apply (fl_origin _ _ Hfl)].
  - intros a m b tx Ha Hm Hb. destruct (decide (b = d)) as [->|Hbd].
    { left. exists n'. by rewrite lookup_insert_eq. }
    apply change_lookup in Ha as [[-> ->]|[_ Ha]]; [|by eapply deliver_told_before].
    rewrite Hpw in Hb. destruct (behind n) eqn:Hbn; [by eapply deliver_told_now|].
    destruct (fl_split _ _ Hfl d n Hn) as [|Hkn]; [congruence|].
    by eapply deliver_told_before.
Qed.

Lemma deliver_work :
  work (mkNet (<[d := n']> ns) (l1 ++ l2 ++ deliveries wires eff)) <
  work (mkNet ns (l1 ++ (d, ev) :: l2)).
Proof.
  destruct deliver_handled as (_ & _ & Hpw & Hk' & Heff).
  apply work_deliver with (n := n); try done. destruct (behind n); rewrite Heff; [|done].
  rewrite length_gossip, Hpw. apply map_subseteq_size, map_filter_subseteq.
Qed.

Lemma deliver_peers a b : peers (<[d := n']> ns) a b ↔ peers ns a b.
Proof.
  destruct deliver_handled as (_ & _ & Hpw & _). by apply (peers_insert ns d n).
Qed.
End delivery.

Lemma flooding_step p wires net net' :
  flooding wires net → net_step p wires net net' →
  flooding wires net' ∧ work net' < work net ∧
  (∀ a b, peers (members net') a b ↔ peers (members net) a b) ∧
  ∀ a, is_Some (members net !! a) → is_Some (members net' !! a).
Proof.
  intros Hfl Hstep. destruct Hstep as [clk d ev n n' eff ns l1 l2 Hn Hev].
  destruct (fl_flight _ _ Hfl d ev) as (_ & f & nf & -> & _); [cbn [flight]; set_solver|].
  split; [by eapply deliver_flooding|]. split; [by eapply deliver_work|].
  split; [intros a b; by eapply deliver_peers|].
  intros a. by eapply deliver_member.
Qed.

Lemma flooding_steps p wires k net net' :
  flooding wires net → nsteps (net_step p wires) k net net' →
  flooding wires net' ∧ k + work net' <= work net ∧
  (∀ a b, peers (members net') a b ↔ peers (members net) a b) ∧
  ∀ a, is_Some (members net !! a) → is_Some (members net' !! a).
Proof.
  intros Hfl Hs. induction Hs as [net|k net1 net2 net3 Hstep _ IH]; [done|].
  destruct (flooding_step p wires net1 net2 Hfl Hstep) as (Hfl2 & Hw & Hp & Hm).
  destruct (IH Hfl2) as (Hfl3 & Hw3 & Hp3 & Hm3). split; [done|]. split; [lia|].
  split; [intros a b; by rewrite Hp3, Hp|auto].
Qed.

(** When nothing is in flight, knowledge is closed under being a peer. *)
Lemma quiet_knows wires net a b n :
  flooding wires net → flight net = [] → rtc (peers (members net)) a b →
  members net !! a = Some n → knows n → ∃ m, members net !! b = Some m ∧ knows m.
Proof.
  intros Hfl Hq Hr. revert n. induction Hr as [a|a b c (n0 & Hn0 & [tx Htx]) _ IH]; intros n Ha Hk.
  - eauto.
  - assert (n0 = n) as -> by congruence.
    destruct (fl_told _ _ Hfl a n b tx Ha Hk Htx) as [(m & Hm & Hkm)|[ev Hin]].
    + by eapply IH.
    + rewrite Hq in Hin. by apply elem_of_nil in Hin.
Qed.

Lemma flooding_progress wires net :
  flooding wires net → flight net ≠ [] → ∃ net', net_step Release wires net net'.
Proof.
  intros Hfl Hne. destruct net as [ns [|[d ev] l]]; [done|].
  destruct (fl_flight _ _ Hfl d ev) as ([n Hn] & _); [by left|].
  destruct (handle_event_release (mkClock (λ _, 0%N) (λ _, 0%N)) ev n
    (wired_wf _ _ (fl_wired _ _ Hfl) d n Hn)) as [[n' eff] Hev].
  eexists. by apply (net_deliver Release wires _ d ev n n' eff ns [] l Hn Hev).
Qed.

(** C4. A subscription reaches the whole mesh.  While copies of one update spread,
    every run, in whatever order the messages arrive, ends: it takes no more steps
    than there are messages in flight and channels left to use, and it cannot get
    stuck before.  When nothing is in flight any more, every node that the origin
    reaches over control streams announces exactly the subscriptions of the
    update. *)
Theorem subscription_flood wires net o :
  flooding wires net → members net !! su_node_id u = Some o →
  (∀ p k net', nsteps (net_step p wires) k net net' → k <= work net) ∧
  (∀ net', rtc (net_step Release wires) net net' →
     flight net' ≠ [] → ∃ net'', net_step Release wires net' net'') ∧
  (∀ p net', rtc (net_step p wires) net net' → flight net' = [] →
     ∀ b, rtc (peers (members net)) (su_node_id u) b →
     ∃ m d, members net' !! b = Some m ∧
       node_metadata (fgraph m) !! su_node_id u = Some d ∧
       nd_capabilities d = subscription_capabilities (su_entries u)).
Proof.
  intros Hfl Ho. split_and!.
  - intros p k net' Hs. apply flooding_steps in Hs as (_ & Hw & _); [|done]. lia.
  - intros net' [k Hs]%rtc_nsteps Hne. apply flooding_steps in Hs as (Hfl' & _); [|done].
    by apply flooding_progress.
  - intros p net' [k Hs]%rtc_nsteps Hq b Hb.
    apply flooding_steps in Hs as (Hfl' & _ & Hp & Hm); [|done].
    assert (rtc (peers (members net')) (su_node_id u) b) as Hb'.
    { eapply rtc_subrel; [|exact Hb]. intros x y. apply Hp. }
    destruct (Hm (su_node_id u)) as [o' Ho']; [by eauto|].
    destruct (quiet_knows wires net' (su_node_id u) b o' Hfl' Hq Hb' Ho'
      (fl_origin _ _ Hfl' o' Ho')) as (m & Hbm & _ & d & Hd & Hc). eauto.
Qed.
End update.
End flood.
