(* ===== verification/TopologySync.v ===== *)
(** * The topology across a network

    Nodes of a network ([Network]) measure their links and announce the new ones, while
    announcements travel.  An announcement carries the whole graph of the node that makes
    it, and nothing in the control engine announces a removal.  The file shows that the
    announcements make the graphs of a settled mesh agree, that their traffic ends, and that a
    link, once known, is never given up. *)
From S2P Require Import Prelude Proto Topic Graph GraphFacts Dijkstra Reconciliation.
From S2P Require Import Backpressure FlowNode FlowFacts ControlFacts Network.
From stdpp Require Import options.

(** The links an update adds, in both directions. *)
Definition update_links (u : TopologyUpdate) : gset (string * string) :=
  list_to_set ((λ l, (node_a l, node_b l)) <$> links_added u) ∪
  list_to_set ((λ l, (node_b l, node_a l)) <$> links_added u).

(** The update takes nothing away. *)
Definition only_adds (u : TopologyUpdate) : Prop :=
  nodes_removed u = [] ∧ links_removed u = [].

Lemma mesh_add_links_dom ls m :
  dom (mesh_links (foldl (λ m l, mesh_add_link l m) m ls)) =
  dom (mesh_links m) ∪ (list_to_set ((λ l, (node_a l, node_b l)) <$> ls) ∪
                        list_to_set ((λ l, (node_b l, node_a l)) <$> ls)).
Proof.
  revert m. induction ls as [|l ls IH]; intros m; csimpl; [set_solver|].
  rewrite IH. simpl. rewrite !dom_insert_L. set_solver.
Qed.

Definition link_set `{PG : PetGraph string LinkWeight} (g : GlobalGraph) : gset (string * string) :=
  dom (links g).

Section graph.
#[local] Set Default Proof Using "Type*".
Context `{PS : PetGraphSpec string LinkWeight}.

Lemma apply_update_adds u g g' :
  wf g → only_adds u → apply_update u g = Ret g' →
  wf g' ∧ link_set g' = link_set g ∪ update_links u ∧ (symmetric (abs g) → symmetric (abs g')).
Proof.
  intros Hwf [Hn Hl] Hu. destruct (apply_update_refines u g Hwf) as (g0 & Hu0 & Hwf0 & Ha).
  assert (g0 = g') as -> by congruence. split; [done|].
  split; [|intros Hs; rewrite Ha; by apply mesh_apply_update_symmetric].
  change (link_set g') with (dom (mesh_links (abs g'))). rewrite Ha.
  unfold mesh_apply_update. rewrite Hn, Hl. cbn [foldl].
  by rewrite mesh_add_links_dom, mesh_add_nodes.
Qed.

Lemma link_exists_spec g a b :
  wf g → link_exists a b g = true ↔ (a, b) ∈ link_set g.
Proof.
  intros Hwf. unfold link_exists, link_set. rewrite elem_of_dom. split.
  - destruct (node_indices g !! a) as [i|] eqn:Ha; [|done].
    destruct (node_indices g !! b) as [j|] eqn:Hb; [|done].
    intros Hf%bool_decide_eq_true. destruct Hf as [e [w Hw]%find_edge_split].
    apply (wf_index g Hwf) in Ha as Ha', Hb as Hb'.
    rewrite <- (name_Some _ _ _ Ha'), <- (name_Some _ _ _ Hb').
    exists w. apply (links_edge g i j w Hwf); eauto using index_lt, list_elem_of_lookup_2.
  - intros [w (i & j & -> & -> & Hin)%links_nodes]; [|done].
    apply bool_decide_eq_true. destruct (pg_find_edge i j (graph g)) eqn:E; [by eexists|].
    apply pg_find_edge_None in E. destruct E. apply list_elem_of_fmap. by exists (i, j, w).
Qed.

Lemma add_link_dom l g g' :
  wf g → add_link l g = Ret g' →
  wf g' ∧ link_set g' = link_set g ∪ {[(node_a l, node_b l); (node_b l, node_a l)]} ∧
  (symmetric (abs g) → symmetric (abs g')).
Proof.
  intros Hwf Hl. destruct (add_link_refines g l Hwf) as (g0 & Hl0 & Hwf0 & Ha).
  assert (g0 = g') as -> by congruence. split; [done|].
  change (link_set g') with (dom (mesh_links (abs g'))). rewrite Ha. split.
  - simpl. rewrite !dom_insert_L. unfold link_set. set_solver.
  - intros Hs. unfold symmetric. simpl. intros a b. rewrite !lookup_insert.
    specialize (Hs a b). simpl in Hs. repeat case_decide; simplify_eq; congruence.
Qed.

Lemma link_set_sym g a b : symmetric (abs g) → (a, b) ∈ link_set g → (b, a) ∈ link_set g.
Proof. intros Hs. unfold link_set. rewrite !elem_of_dom. specialize (Hs a b). simpl in Hs. by rewrite Hs. Qed.

(** The full snapshot of a symmetric graph lists exactly its links. *)
Lemma get_descriptors_links `{HS : HashOrderSpec} g ds ls o e :
  wf g → symmetric (abs g) → get_descriptors g = Ret (ds, ls) →
  update_links (mkTopologyUpdate o e ds [] ls []) = link_set g.
Proof.
  intros Hwf Hs Hd. rewrite get_descriptors_spec in Hd by done. injection Hd as <- <-.
  assert (list_to_set ((λ l, (node_a l, node_b l)) <$> (descriptor_of g <$> pg_raw_edges (graph g))) =
    link_set g) as Hfwd.
  { unfold link_set, links. rewrite dom_list_to_map_L. f_equal. unfold named.
    rewrite <- !list_fmap_compose. done. }
  unfold update_links. cbn [links_added]. rewrite Hfwd.
  assert (list_to_set ((λ l, (node_b l, node_a l)) <$> (descriptor_of g <$> pg_raw_edges (graph g)))
    ⊆ link_set g); [|set_solver].
  intros [a b]. rewrite elem_of_list_to_set, list_elem_of_fmap. intros (l & [= -> ->] & Hl).
  assert ((node_a l, node_b l) ∈ link_set g) as Hab.
  { rewrite <- Hfwd. apply elem_of_list_to_set, list_elem_of_fmap. eauto. }
  by apply link_set_sym.
Qed.
End graph.

Lemma is_newer_insert_ne epochs o o' e e' :
  o ≠ o' → is_newer (<[o' := e']> epochs) o e = is_newer epochs o e.
Proof. intros Hne. unfold is_newer. by rewrite lookup_insert_ne. Qed.

(** ** What a node knows *)

Section knowledge.
Context `{PG : PetGraph string LinkWeight} `{G : Governor}.
Context {SocketAddr : Type} `{Countable SocketAddr} {Handler : Type}.

Abbreviation FlowNode := (FlowNode (SocketAddr := SocketAddr) (Handler := Handler)).
Implicit Types (n m : FlowNode) (u v : TopologyUpdate).

Definition known_links n : gset (string * string) := link_set (fgraph n).

(** The node has not seen the update, nor a later one of the same origin. *)
Definition topo_behind u n : bool := is_newer (last_epochs n) (origin_node_id u) (tu_epoch u).

(** The node has seen the update or a later one, and has its links. *)
Definition topo_knows u n : Prop :=
  topo_behind u n = false ∧ update_links u ⊆ known_links n.

Definition node_sound n : Prop := node_wf n ∧ symmetric (abs (fgraph n)).

(** The later announcement of an origin. *)
Definition supersedes v u : Prop :=
  origin_node_id v = origin_node_id u ∧ (tu_epoch u <= tu_epoch v)%N.

(** A node knows no less than before. *)
Definition learns n n' : Prop :=
  known_links n ⊆ known_links n' ∧
  ∀ o e, last_epochs n !! o = Some e → ∃ e', last_epochs n' !! o = Some e' ∧ (e <= e')%N.

Lemma learns_knows u n n' : learns n n' → topo_knows u n → topo_knows u n'.
Proof.
  intros [Hl He] [Hb Hu]. split; [|set_solver].
  apply is_newer_false in Hb as (e & Ho & Hle). apply is_newer_false.
  destruct (He _ _ Ho) as (e' & ? & ?). exists e'. split; [done|lia].
Qed.

Lemma knows_superseded u v n :
  supersedes v u → update_links u ⊆ update_links v → topo_knows v n → topo_knows u n.
Proof.
  intros [Ho Hle] Hl [Hb Hv]. split; [|set_solver].
  unfold topo_behind in *. rewrite Ho in Hb. apply is_newer_false in Hb as (e & ? & ?).
  apply is_newer_false. exists e. split; [done|lia].
Qed.

(** ** What is left to do

    A node that is behind an announcement will pass it on to its peers, and a peer whose
    link is not measured yet will cause one more announcement, which reaches every node
    and is passed on by every node once. *)

Definition pending (U : list TopologyUpdate) n : nat :=
  sum_list_with (λ u, if topo_behind u n then size (peer_writers n) else 0) U.

Definition unmeasured (a : string) n : nat :=
  size (filter (λ f, (a, f) ∉ known_links n) (dom (peer_writers n))).

Definition channels (ns : gmap string FlowNode) : nat := sum_map (λ _ n, size (peer_writers n)) ns.

Definition node_work (U : list TopologyUpdate) (T : nat) (a : string) n : nat :=
  pending U n + unmeasured a n * T.

Lemma learns_behind u n n' : learns n n' → topo_behind u n' = true → topo_behind u n = true.
Proof.
  intros [_ He]. unfold topo_behind. rewrite !is_newer_spec. intros Hb e Ho.
  destruct (He _ _ Ho) as (e' & Ho' & ?). specialize (Hb e' Ho'). lia.
Qed.

Lemma pending_le U n n' :
  learns n n' → peer_writers n' = peer_writers n → pending U n' <= pending U n.
Proof.
  intros Hl Hpw. unfold pending. rewrite Hpw. induction U as [|u U IH]; simpl; [done|].
  destruct (topo_behind u n') eqn:E'; [rewrite (learns_behind u n n' Hl E'); lia|lia].
Qed.

Lemma pending_lt U n n' u :
  learns n n' → peer_writers n' = peer_writers n → u ∈ U →
  topo_behind u n = true → topo_behind u n' = false →
  pending U n' + size (peer_writers n) <= pending U n.
Proof.
  intros Hl Hpw Hu Hb Hb'. induction U as [|v U IH]; [by apply elem_of_nil in Hu|].
  pose proof (pending_le U n n' Hl Hpw). unfold pending in *. rewrite Hpw in *. simpl.
  apply elem_of_cons in Hu as [<-|Hu]; [rewrite Hb, Hb'; lia|]. specialize (IH Hu).
  destruct (topo_behind v n') eqn:E'; [rewrite (learns_behind v n n' Hl E'); lia|lia].
Qed.

Lemma unmeasured_le a n n' :
  learns n n' → peer_writers n' = peer_writers n → unmeasured a n' <= unmeasured a n.
Proof.
  intros [Hl _] Hpw. unfold unmeasured. rewrite Hpw. apply subseteq_size.
  intros f. rewrite !elem_of_filter. set_solver.
Qed.

Lemma unmeasured_lt a n n' f :
  learns n n' → peer_writers n' = peer_writers n → is_Some (peer_writers n !! f) →
  (a, f) ∉ known_links n → (a, f) ∈ known_links n' → unmeasured a n' < unmeasured a n.
Proof.
  intros [Hl _] Hpw Hf Hin Hin'. unfold unmeasured. rewrite Hpw. apply subset_size.
  apply elem_of_dom in Hf. split; [intros g; rewrite !elem_of_filter; set_solver|].
  intros Hsub. specialize (Hsub f). rewrite !elem_of_filter in Hsub. naive_solver.
Qed.
End knowledge.

Section topology.
#[local] Set Default Proof Using "Type*".
Context `{PS : PetGraphSpec string LinkWeight} `{HS : HashOrderSpec} `{G : Governor}.
Context {SocketAddr : Type} `{Countable SocketAddr} {Handler : Type}.

Abbreviation FlowNode := (FlowNode (SocketAddr := SocketAddr) (Handler := Handler)).
Abbreviation Net := (Net (SocketAddr := SocketAddr) (Handler := Handler)).
Abbreviation members := (members (SocketAddr := SocketAddr) (Handler := Handler)).
Implicit Types (n m : FlowNode) (ns : gmap string FlowNode) (net : Net) (u v : TopologyUpdate)
  (eff : list (Effect (SocketAddr := SocketAddr))).

(** ** One event *)

Lemma handle_announcement p clk f u n n' eff :
  node_sound n → only_adds u → topo_behind u n = true ∨ topo_knows u n →
  handle_event p clk (received f (MTopologyUpdate u)) n = Ret (n', eff) →
  node_sound n' ∧ node_id n' = node_id n ∧ peer_writers n' = peer_writers n ∧
  learns n n' ∧ topo_knows u n' ∧
  if topo_behind u n
  then known_links n' = known_links n ∪ update_links u ∧
    last_epochs n' = <[origin_node_id u := tu_epoch u]> (last_epochs n) ∧
    eff = gossip f (origin_node_id u) (MTopologyUpdate u) n'
  else known_links n' = known_links n ∧ last_epochs n' = last_epochs n ∧ eff = [].
Proof.
  intros [Hwf Hs] Hadd Hbk Hev. destruct (handle_event_wf _ _ _ _ _ _ Hwf Hev) as [Hwf' Hid].
  unfold received in Hev. simpl in Hev.
  destruct (handle_topology_update_eq clk f u (touch f (instant clk 0) n)) as [seen Heq].
  rewrite Heq in Hev. clear Heq. simpl in Hev. unfold topo_behind in *.
  destruct (is_newer (last_epochs n) (origin_node_id u) (tu_epoch u)) eqn:En.
  - apply bind_Ret in Hev as (g & Hg & Hev). injection Hev as <- <-.
    apply apply_update_adds in Hg as (Hwfg & Hlg & Hsg); [|apply Hwf|done].
    split; [by split; [|apply Hsg]|]. split; [done|]. split; [done|].
    set (n' := with_graph g _).
    assert (known_links n' = known_links n ∪ update_links u) as Hk by done.
    split; [|split; [|done]].
    + split; [set_solver|]. intros o e. by apply insert_epoch_mono.
    + split; [|set_solver]. apply is_newer_false. simpl. rewrite lookup_insert_eq. by eexists.
  - injection Hev as <- <-. split; [by split|]. destruct Hbk as [|Hk]; [done|].
    do 2 (split; [done|]). split; [|split; [|done]]; [split; [done|eauto]|by destruct Hk].
Qed.

Lemma handle_measurement p clk f pong n n' eff :
  node_sound n → (default 0 (last_epochs n !! node_id n) < u64_max)%N →
  handle_event p clk (received f (MPong pong)) n = Ret (n', eff) →
  node_sound n' ∧ node_id n' = node_id n ∧ peer_writers n' = peer_writers n ∧ learns n n' ∧
  if decide ((node_id n, f) ∈ known_links n)
  then known_links n' = known_links n ∧ last_epochs n' = last_epochs n ∧ eff = []
  else (node_id n, f) ∈ known_links n' ∧ ∃ u, only_adds u ∧ origin_node_id u = node_id n ∧
    tu_epoch u = (default 0 (last_epochs n !! node_id n) + 1)%N ∧
    update_links u = known_links n' ∧
    last_epochs n' = <[node_id n := tu_epoch u]> (last_epochs n) ∧
    eff = broadcast_control_message (MTopologyUpdate u) n'.
Proof.
  intros [Hwf Hs] Hmax Hev. destruct (handle_event_wf _ _ _ _ _ _ Hwf Hev) as [Hwf' Hid].
  unfold received in Hev. simpl in Hev. unfold handle_pong in Hev. cbn [fgraph node_id touch with_seen] in Hev.
  apply bind_Ret in Hev as (rtt & _ & (g & Hg & Hev)%bind_Ret).
  apply add_link_dom in Hg as (Hwfg & Hlg & Hsg); [|apply Hwf]. cbn [node_a node_b] in Hlg.
  destruct (decide _) as [Hin|Hin].
  - rewrite (proj2 (link_exists_spec (fgraph n) (node_id n) f (nw_graph _ Hwf)) Hin) in Hev.
    injection Hev as <- <-. simpl.
    assert (known_links n = link_set g) as Hk.
    { rewrite Hlg. unfold known_links in *.
      pose proof (link_set_sym _ _ _ Hs Hin). set_solver. }
    split_and!; try done; [by split; [|apply Hsg]|]. split; [by rewrite Hk|eauto].
  - destruct (link_exists (node_id n) f (fgraph n)) eqn:Ex.
    { apply link_exists_spec in Ex; [done|apply Hwf]. }
    cbn [negb last_epochs node_id with_graph touch with_seen fgraph with_epochs] in Hev.
    apply bind_Ret in Hev as (e & He & ([ds ls] & Hd & Hev)%bind_Ret). injection Hev as <- <-.
    unfold u64_add in He. rewrite (proj2 (N.leb_le _ _)) in He by lia. injection He as <-.
    set (n' := with_epochs _ _).
    assert (known_links n' = known_links n ∪ {[(node_id n, f); (f, node_id n)]}) as Hk by done.
    split; [by split; [|apply Hsg]|]. split; [done|]. split; [done|]. split.
    + split; [set_solver|]. intros o e Ho. simpl. rewrite lookup_insert. case_decide; [|by eauto].
      subst o. rewrite Ho. simpl. eexists. split; [done|lia].
    + split; [set_solver|]. exists (mkTopologyUpdate (node_id n)
        (default 0 (last_epochs n !! node_id n) + 1)%N ds [] ls []).
      do 3 (split; [done|]). split; [|done].
      apply get_descriptors_links; [done|by apply Hsg|done].
Qed.
(** ** The network *)

(** A node receives the answer to its ping: it measures the link to a peer. *)
Inductive measure_step (p : profile) (wires : gmap nat (string * string)) : Net → Net → Prop :=
| measured clk a f pong n n' eff ns fl :
    ns !! a = Some n → is_Some (peer_writers n !! f) →
    (default 0 (last_epochs n !! a) < u64_max)%N →
    handle_event p clk (received f (MPong pong)) n = Ret (n', eff) →
    measure_step p wires (mkNet ns fl) (mkNet (<[a := n']> ns) (fl ++ deliveries wires eff)).

(** A run with [k] deliveries and measurements at any time. *)
Inductive topo_run (p : profile) (wires : gmap nat (string * string)) : nat → Net → Net → Prop :=
| topo_done net : topo_run p wires 0 net net
| topo_deliver k net1 net2 net3 :
    net_step p wires net1 net2 → topo_run p wires k net2 net3 → topo_run p wires (S k) net1 net3
| topo_measure k net1 net2 net3 :
    measure_step p wires net1 net2 → topo_run p wires k net2 net3 → topo_run p wires k net1 net3.

(** The node [b] knows the update, or one that supersedes it is on its way. *)
Definition informed (U : list TopologyUpdate) net (b : string) u : Prop :=
  (∃ m, members net !! b = Some m ∧ topo_knows u m) ∨
  ∃ f v, (b, received f (MTopologyUpdate v)) ∈ flight net ∧ v ∈ U ∧ supersedes v u.

(** [U]: the announcements made so far.  A later one of the same origin lists no fewer
    links; the origin knows its own; only announcements are in flight; every node is
    behind an announcement or knows it, and then has told its peers; no node has seen a
    later epoch of a member than the member itself.  [B]: what each node knew at the start, and
    the epoch it had counted; a node that has announced since has announced those links too. *)
Definition start := string → gset (string * string) * option N.

Record topo (B : start) (U : list TopologyUpdate)
    (wires : gmap nat (string * string)) net : Prop := {
  tp_wired : wired wires (members net);
  tp_sound a n : members net !! a = Some n → node_sound n;
  tp_adds u : u ∈ U → only_adds u;
  tp_mono u v : u ∈ U → v ∈ U → supersedes v u → update_links u ⊆ update_links v;
  tp_origin u n : u ∈ U → members net !! origin_node_id u = Some n → topo_knows u n;
  tp_split u a n : u ∈ U → members net !! a = Some n → topo_behind u n = true ∨ topo_knows u n;
  tp_flight d ev : (d, ev) ∈ flight net → is_Some (members net !! d) ∧
    ∃ f u n, ev = received f (MTopologyUpdate u) ∧ u ∈ U ∧ members net !! f = Some n ∧ topo_knows u n;
  tp_told u a b n : u ∈ U → members net !! a = Some n → topo_knows u n →
    is_Some (peer_writers n !! b) → informed U net b u;
  tp_epoch o a n m e : members net !! o = Some n → members net !! a = Some m →
    last_epochs m !! o = Some e → ∃ e', last_epochs n !! o = Some e' ∧ (e <= e')%N;
  tp_base a n : members net !! a = Some n → (B a).1 ⊆ known_links n;
  tp_own a n : members net !! a = Some n → last_epochs n !! a = (B a).2 ∨
    ∃ u, u ∈ U ∧ topo_knows u n ∧ (B a).1 ⊆ update_links u;
  tp_known a n l : members net !! a = Some n → l ∈ known_links n →
    l ∈ (B a).1 ∨ ∃ u, u ∈ U ∧ topo_knows u n ∧ l ∈ update_links u;
}.

Lemma changed_knows ns d n n' a m u :
  ns !! d = Some n → learns n n' → ns !! a = Some m → topo_knows u m →
  ∃ m', <[d := n']> ns !! a = Some m' ∧ topo_knows u m'.
Proof.
  intros Hn Hlearn Ha Hk. rewrite lookup_insert. case_decide as Hd; [|by eauto].
  subst a. assert (m = n) as -> by congruence. eauto using learns_knows.
Qed.

(** One node changes, learns, and perhaps announces: the announcements [U'] are the old
    ones and perhaps one of the node's own, and what is in flight is old or comes from
    the node. *)
Section change.
Variables (B : start) (U U' : list TopologyUpdate).
Variables (wires : gmap nat (string * string)) (ns : gmap string FlowNode).
Variables (fl fl' : list (string * ControlEvent)) (d : string) (n n' : FlowNode).
Hypothesis Htp : topo B U wires (mkNet ns fl).
Hypothesis Hn : ns !! d = Some n.
Hypothesis Hsound : node_sound n'.
Hypothesis Hid : node_id n' = node_id n.
Hypothesis Hpw : peer_writers n' = peer_writers n.
Hypothesis Hlearn : learns n n'.

Let net := mkNet ns fl.
Let net' := mkNet (<[d := n']> ns) fl'.

Hypothesis HU : ∀ u, u ∈ U → u ∈ U'.
Hypothesis Hnew : ∀ u, u ∈ U' → u ∈ U ∨
  only_adds u ∧ origin_node_id u = d ∧ update_links u = known_links n' ∧ topo_knows u n' ∧
  ∀ e, last_epochs n !! d = Some e → (e < tu_epoch u)%N.
Hypothesis Hfl : ∀ b ev, (b, ev) ∈ fl' → (b, ev) ∈ fl ∨
  is_Some (ns !! b) ∧ ∃ u, ev = received d (MTopologyUpdate u) ∧ u ∈ U' ∧ topo_knows u n'.
Hypothesis Hinf : ∀ b u, u ∈ U → informed U net b u → informed U' net' b u.
Hypothesis Hsplit : ∀ u, u ∈ U' → topo_behind u n' = true ∨ topo_knows u n'.
Hypothesis Htold : ∀ u b, u ∈ U' → topo_knows u n' → is_Some (peer_writers n !! b) → b ≠ d →
  u ∈ U ∧ topo_knows u n ∨ informed U' net' b u.
Hypothesis Hepoch : ∀ o e, o ≠ d → last_epochs n' !! o = Some e →
  ∀ m, ns !! o = Some m → ∃ e', last_epochs m !! o = Some e' ∧ (e <= e')%N.
Hypothesis Hknown : ∀ l, l ∈ known_links n' →
  l ∈ known_links n ∨ ∃ u, u ∈ U' ∧ topo_knows u n' ∧ l ∈ update_links u.
Hypothesis Hown : last_epochs n' !! d = last_epochs n !! d ∨
  ∃ u, u ∈ U' ∧ topo_knows u n' ∧ known_links n ⊆ update_links u.

Lemma fresh_behind u a m :
  origin_node_id u = d → (∀ e, last_epochs n !! d = Some e → (e < tu_epoch u)%N) →
  ns !! a = Some m → topo_behind u m = true.
Proof.
  intros Ho He Ha. apply is_newer_spec. rewrite Ho. intros e Hme.
  destruct (tp_epoch _ _ _ _ Htp d a n m e Hn Ha Hme) as (e' & Hne & Hle).
  specialize (He e' Hne). lia.
Qed.

Lemma changed_mono u v :
  u ∈ U' → v ∈ U' → supersedes v u → update_links u ⊆ update_links v.
Proof.
  intros Hu Hv [Ho Hle].
  destruct (Hnew v Hv) as [HvU|(_ & Hov & Hlv & _ & _)].
  - destruct (Hnew u Hu) as [HuU|(_ & Hou & _ & _ & He)]; [by apply (tp_mono _ _ _ _ Htp)|].
    destruct (tp_origin _ _ _ _ Htp v n HvU) as [Hb _].
    { cbn [Network.members]. by rewrite Ho, Hou. }
    apply is_newer_false in Hb as (e & Hne & Hve). rewrite Ho, Hou in Hne.
    specialize (He e Hne). lia.
  - rewrite Hlv. destruct (Hnew u Hu) as [HuU|(_ & _ & -> & _)]; [|done].
    destruct (tp_origin _ _ _ _ Htp u n HuU) as [_ Hl].
    { cbn [Network.members]. by rewrite <- Ho, Hov. }
    destruct Hlearn as [Hl' _]. by etrans.
Qed.

Lemma changed_topo : topo B U' wires net'.
Proof.
  pose proof (tp_wired _ _ _ _ Htp) as Hw. cbn [Network.members] in Hw.
  split; cbn [Network.members flight net'].
  - apply (wired_insert _ _ d n); try done. apply Hsound.
  - intros a m [[-> ->]|[_ Ha]]%change_lookup; [done|by eapply (tp_sound _ _ _ _ Htp)].
  - intros u [Hu|(? & _)]%Hnew; [by apply (tp_adds _ _ _ _ Htp)|done].
  - apply changed_mono.
  - intros u m Hu Hm. destruct (decide (origin_node_id u = d)) as [Hod|Hod].
    + rewrite Hod, lookup_insert_eq in Hm. injection Hm as <-.
      destruct (Hnew u Hu) as [HuU|(_ & _ & _ & ? & _)]; [|done].
      eapply learns_knows; [done|]. apply (tp_origin _ _ _ _ Htp u n HuU). by rewrite Hod.
    + rewrite lookup_insert_ne in Hm by done.
      destruct (Hnew u Hu) as [HuU|(_ & ? & _)]; [|done]. by apply (tp_origin _ _ _ _ Htp).
  - intros u a m Hu [[-> ->]|[Had Ha]]%change_lookup; [by apply Hsplit|].
    destruct (Hnew u Hu) as [HuU|(_ & Ho & _ & _ & He)];
      [by eapply (tp_split _ _ _ _ Htp)|left; by eapply fresh_behind].
  - intros b ev [Hin|(Hb & u & -> & Hu & Hk)]%Hfl; rewrite (change_member ns d n n') by done.
    + destruct (tp_flight _ _ _ _ Htp b ev Hin) as (Hb & f & u & m & -> & Hu & Hf & Hk).
      split; [done|]. destruct (changed_knows ns d n n' f m u Hn Hlearn Hf Hk) as (m' & ? & ?). eauto 10.
    + split; [done|]. exists d, u, n'. by rewrite lookup_insert_eq.
  - intros u a b m Hu [[-> ->]|[Had Ha]]%change_lookup Hk Hb.
    + rewrite Hpw in Hb. destruct (decide (b = d)) as [->|Hbd].
      { left. exists n'. split; [apply lookup_insert_eq|done]. }
      destruct (Htold u b Hu Hk Hb Hbd) as [[HuU Hkn]|]; [|done].
      apply Hinf; [done|]. by apply (tp_told _ _ _ _ Htp u d b n).
    + destruct (Hnew u Hu) as [HuU|(_ & Ho & _ & _ & He)].
      * apply Hinf; [done|]. by apply (tp_told _ _ _ _ Htp u a b m).
      * destruct Hk as [Hk _]. by rewrite (fresh_behind u a m) in Hk.
  - intros o a m m' e [[-> ->]|[Hod Ho]]%change_lookup Ha He.
    + apply change_lookup in Ha as [[-> ->]|[_ Ha]]; [by exists e|].
      destruct (tp_epoch _ _ _ _ Htp d a n m' e Hn Ha He) as (e1 & He1 & Hle).
      destruct Hlearn as [_ Hl]. destruct (Hl d e1 He1) as (e2 & ? & ?). exists e2. split; [done|lia].
    + apply change_lookup in Ha as [[-> ->]|[_ Ha]]; [by eapply Hepoch|].
      by eapply (tp_epoch _ _ _ _ Htp).
  - intros a m [[-> ->]|[_ Ha]]%change_lookup; [|by eapply (tp_base _ _ _ _ Htp)].
    destruct Hlearn. etrans; [by apply (tp_base _ _ _ _ Htp d n)|done].
  - intros a m [[-> ->]|[_ Ha]]%change_lookup.
    + pose proof (tp_base _ _ _ _ Htp d n Hn) as Hbase. destruct Hown as [->|(u & ? & ? & ?)].
      * destruct (tp_own _ _ _ _ Htp d n Hn) as [|(u & ? & ? & ?)]; [by left|right].
        exists u. eauto using learns_knows.
      * right. exists u. do 2 (split; [done|]). by etrans.
    + destruct (tp_own _ _ _ _ Htp a m Ha) as [|(u & ? & ? & ?)]; [by left|right]. eauto.
  - intros a m l [[-> ->]|[_ Ha]]%change_lookup Hl.
    + destruct (Hknown l Hl) as [Hln|]; [|by right].
      destruct (tp_known _ _ _ _ Htp d n l Hn Hln) as [|(u & ? & ? & ?)]; [by left|right].
      exists u. eauto using learns_knows.
    + destruct (tp_known _ _ _ _ Htp a m l Ha Hl) as [|(u & ? & ? & ?)]; [by left|right]. eauto.
Qed.
End change.
(** ** A delivery *)

Section delivery.
Variables (B : start) (U : list TopologyUpdate).
Variables (p : profile) (wires : gmap nat (string * string)) (ns : gmap string FlowNode).
Variables (l1 l2 : list (string * ControlEvent)) (d f : string) (clk : Clock) (u : TopologyUpdate).
Variables (n n' nf : FlowNode) (eff : list (Effect (SocketAddr := SocketAddr))).
Let fl := l1 ++ (d, received f (MTopologyUpdate u)) :: l2.
Let fl' := l1 ++ l2 ++ deliveries wires eff.
Hypothesis Htp : topo B U wires (mkNet ns fl).
Hypothesis Hn : ns !! d = Some n.
Hypothesis Hu : u ∈ U.
Hypothesis Hf : ns !! f = Some nf.
Hypothesis Hkf : topo_knows u nf.
Hypothesis Hev : handle_event p clk (received f (MTopologyUpdate u)) n = Ret (n', eff).

Lemma announcement_handled :
  node_sound n' ∧ node_id n' = node_id n ∧ peer_writers n' = peer_writers n ∧
  learns n n' ∧ topo_knows u n' ∧
  if topo_behind u n
  then known_links n' = known_links n ∪ update_links u ∧
    last_epochs n' = <[origin_node_id u := tu_epoch u]> (last_epochs n) ∧
    eff = gossip f (origin_node_id u) (MTopologyUpdate u) n'
  else known_links n' = known_links n ∧ last_epochs n' = last_epochs n ∧ eff = [].
Proof.
  apply (handle_announcement p clk f u n n' eff); try done.
  - by apply (tp_sound _ _ _ _ Htp d).
  - by apply (tp_adds _ _ _ _ Htp).
  - by apply (tp_split _ _ _ _ Htp u d).
Qed.

Lemma announcement_arrivals b ev :
  (b, ev) ∈ deliveries wires eff ↔ topo_behind u n = true ∧ ev = received d (MTopologyUpdate u) ∧
    is_Some (peer_writers n !! b) ∧ b ≠ f ∧ b ≠ origin_node_id u.
Proof.
  destruct announcement_handled as (_ & _ & Hpw & _ & _ & Heff). destruct (topo_behind u n).
  - destruct Heff as (_ & _ & ->).
    rewrite (elem_of_gossiped _ ns d n) by (try apply (tp_wired _ _ _ _ Htp); done). naive_solver.
  - destruct Heff as (_ & _ & ->). split; [by intros ?%elem_of_nil|by intros [? _]].
Qed.

Lemma announcement_informed b v :
  v ∈ U → informed U (mkNet ns fl) b v → informed U (mkNet (<[d := n']> ns) fl') b v.
Proof.
  destruct announcement_handled as (_ & _ & _ & Hlearn & Hk & _).
  intros Hv [(m & Hm & Hkm)|(g & w & Hin & Hw & Hs)].
  - left. by apply (changed_knows ns d n n' b m).
  - cbn [flight] in Hin. unfold fl in Hin. rewrite elem_of_app, elem_of_cons in Hin.
    assert ((b, received g (MTopologyUpdate w)) ∈ l1 ∨
            (b, received g (MTopologyUpdate w)) ∈ l2 →
            informed U (mkNet (<[d := n']> ns) fl') b v) as Hold.
    { intros Hin'. right. exists g, w. split; [|done]. cbn [flight]. unfold fl'.
      rewrite !elem_of_app. tauto. }
    destruct Hin as [Hin|[Heq|Hin]]; [by auto| |by auto].
    injection Heq as -> -> ->. left. exists n'. cbn [Network.members].
    rewrite lookup_insert_eq. split; [done|].
    apply (knows_superseded v u); [done| |done]. by apply (tp_mono _ _ _ _ Htp).
Qed.

(** The update was news: the other nodes' records of its origin's epoch are right. *)
Lemma announcement_epoch o e :
  o ≠ d → last_epochs n' !! o = Some e →
  ∀ m, ns !! o = Some m → ∃ e', last_epochs m !! o = Some e' ∧ (e <= e')%N.
Proof.
  intros Hod He m Hm. destruct announcement_handled as (_ & _ & _ & _ & _ & Heff).
  assert (last_epochs n !! o = Some e → ∃ e', last_epochs m !! o = Some e' ∧ (e <= e')%N) as Hold
    by (intros ?; by eapply (tp_epoch _ _ _ _ Htp o d m n)).
  destruct (topo_behind u n); destruct Heff as (_ & Hep & _); rewrite Hep in He; [|by auto].
  rewrite lookup_insert in He. case_decide as Ho; [|by auto]. injection He as <-. subst o.
  destruct (tp_origin _ _ _ _ Htp u m Hu Hm) as [Hb _].
  apply is_newer_false in Hb as (e' & ? & ?). eauto.
Qed.

Lemma announcement_told v b :
  v ∈ U → topo_knows v n' → is_Some (peer_writers n !! b) → b ≠ d →
  v ∈ U ∧ topo_knows v n ∨ informed U (mkNet (<[d := n']> ns) fl') b v.
Proof.
  intros Hv Hkv Hb Hbd. destruct (tp_split _ _ _ _ Htp v d n Hv Hn) as [Hbv|]; [right|by auto].
  destruct announcement_handled as (_ & _ & _ & Hlearn & Hk & Heff).
  (* the node has just passed [v], so [u] supersedes it *)
  assert (topo_behind u n = true ∧ supersedes u v) as [Hbu Hs].
  { destruct Hkv as [Hkv _]. unfold topo_behind in Hkv, Hbv.
    apply is_newer_false in Hkv as (e & He & Hle). rewrite is_newer_spec in Hbv.
    destruct (topo_behind u n); destruct Heff as (_ & Hep & _); rewrite Hep in He.
    - split; [done|]. rewrite lookup_insert in He. case_decide as Ho.
      + injection He as <-. by split.
      + specialize (Hbv e He). lia.
    - specialize (Hbv e He). lia. }
  assert (update_links v ⊆ update_links u) as Hl by by apply (tp_mono _ _ _ _ Htp).
  assert (∀ m, ns !! b = Some m → topo_knows u m →
    informed U (mkNet (<[d := n']> ns) fl') b v) as Hknown.
  { intros m Hm Hkm. left. apply (changed_knows ns d n n' b m); [done..|].
    by apply (knows_superseded v u). }
  destruct (decide (b = f)) as [->|Hbf]; [by apply (Hknown nf)|].
  destruct (wired_peer _ _ d n b (tp_wired _ _ _ _ Htp) Hn Hb) as [m Hm].
  cbn [Network.members] in Hm. destruct (decide (b = origin_node_id u)) as [->|Hbo].
  { apply (Hknown m); [done|]. by apply (tp_origin _ _ _ _ Htp). }
  right. exists d, u. split; [|done]. cbn [flight]. unfold fl'. rewrite !elem_of_app.
  right. right. by apply announcement_arrivals.
Qed.

Lemma announcement_topo : topo B U wires (mkNet (<[d := n']> ns) fl').
Proof.
  destruct announcement_handled as (Hsound & Hid & Hpw & Hlearn & Hk & Heff).
  apply (changed_topo B U U wires ns fl fl' d n n'); try done.
  - by left.
  - intros b ev. unfold fl', fl. rewrite !elem_of_app, elem_of_cons, announcement_arrivals.
    intros [?|[?|(_ & -> & Hb & _)]]; [by auto|by auto|right].
    split; [apply (wired_peer wires ns d n b); [apply (tp_wired _ _ _ _ Htp)|done..]|eauto].
  - apply announcement_informed.
  - intros v Hv. destruct (topo_behind v n') eqn:Eb; [by left|right].
    destruct (tp_split _ _ _ _ Htp v d n Hv Hn) as [Hb|Hkn]; [|by eapply learns_knows].
    unfold topo_behind in *. rewrite is_newer_spec in Hb.
    apply is_newer_false in Eb as (e & He & Hle).
    destruct (is_newer (last_epochs n) (origin_node_id u) _);
      destruct Heff as (_ & Hep & _); rewrite Hep in He; [|specialize (Hb e He); lia].
    rewrite lookup_insert in He. case_decide as Ho; [|specialize (Hb e He); lia].
    injection He as <-. apply (knows_superseded v u); [done| |done].
    by apply (tp_mono _ _ _ _ Htp).
  - apply announcement_told.
  - apply announcement_epoch.
  - intros l Hl. destruct (topo_behind u n); destruct Heff as (Hkl & _);
      rewrite Hkl in Hl; [|by left].
    apply elem_of_union in Hl as [?|?]; [by left|right; eauto].
  - left. destruct (topo_behind u n) eqn:Eb; destruct Heff as (_ & -> & _); [|done].
    apply lookup_insert_ne. intros Ho. destruct (tp_origin _ _ _ _ Htp u n Hu) as [Hb _]; [|congruence].
    cbn [Network.members]. by rewrite Ho.
Qed.
End delivery.
(** ** A measurement *)

Section measurement.
Variables (B : start) (U : list TopologyUpdate).
Variables (wires : gmap nat (string * string)) (ns : gmap string FlowNode).
Variables (fl : list (string * ControlEvent)) (a : string) (n n' : FlowNode).
Hypothesis Htp : topo B U wires (mkNet ns fl).
Hypothesis Hn : ns !! a = Some n.
Hypothesis Hsound : node_sound n'.
Hypothesis Hid : node_id n' = node_id n.
Hypothesis Hpw : peer_writers n' = peer_writers n.
Hypothesis Hlearn : learns n n'.

(** A link that is known already: only its weight changes. *)
Lemma remeasured_topo :
  known_links n' = known_links n → last_epochs n' = last_epochs n →
  topo B U wires (mkNet (<[a := n']> ns) fl).
Proof.
  intros Hk Hep. apply (changed_topo B U U wires ns fl fl a n n'); try done; eauto.
  - intros b u Hu [(m & Hm & Hkm)|?]; [left|by right]. by apply (changed_knows ns a n n' b m).
  - intros u Hu. destruct (tp_split _ _ _ _ Htp u a n Hu Hn) as [Hb|];
      [left; unfold topo_behind; by rewrite Hep|right; by eapply learns_knows].
  - intros u b Hu Hkn' Hb _. left. split; [done|]. unfold topo_knows, topo_behind in *.
    by rewrite Hep, Hk in Hkn'.
  - intros o e _. rewrite Hep. intros He m Hm. by apply (tp_epoch _ _ _ _ Htp o a m n e).
  - intros l. rewrite Hk. by left.
  - left. by rewrite Hep.
Qed.

(** A new link: the node announces its whole graph under its next epoch. *)
Lemma announced_topo u :
  only_adds u → origin_node_id u = a → tu_epoch u = (default 0 (last_epochs n !! a) + 1)%N →
  update_links u = known_links n' → last_epochs n' = <[a := tu_epoch u]> (last_epochs n) →
  topo_knows u n' ∧
  topo B (u :: U) wires (mkNet (<[a := n']> ns)
    (fl ++ deliveries wires (broadcast_control_message (MTopologyUpdate u) n'))).
Proof.
  intros Hadd Ho Hu Hlu Hep. pose proof (tp_wired _ _ _ _ Htp) as Hw. cbn [Network.members] in Hw.
  assert (topo_knows u n') as Hku.
  { split; [|by rewrite Hlu]. apply is_newer_false. rewrite Hep, Ho, lookup_insert_eq. by eexists. }
  split; [done|].
  assert (∀ v, v ∈ U → topo_behind v n = true → topo_behind v n' = true) as Hspl.
  { intros v Hv Hb. destruct (decide (origin_node_id v = a)) as [Hov|Hov].
    - destruct (tp_origin _ _ _ _ Htp v n Hv) as [Hb' _]; [by rewrite Hov|congruence].
    - unfold topo_behind in *. by rewrite Hep, is_newer_insert_ne. }
  apply (changed_topo B U (u :: U) wires ns fl _ a n n'); try done.
  - intros v Hv. by right.
  - intros v [->|Hv]%elem_of_cons; [right|by left]. do 4 (split; [done|]).
    intros e He. rewrite Hu, He. simpl. lia.
  - intros b ev. rewrite elem_of_app, (elem_of_broadcasted _ ns a n) by done.
    intros [?|(-> & Hb)]; [by left|right]. split; [by apply (wired_peer wires ns a n b)|].
    exists u. split; [done|]. split; [by left|done].
  - intros b v Hv [(m & Hm & Hkm)|(g & w & Hg & Hw' & Hs)].
    + left. by apply (changed_knows ns a n n' b m).
    + right. exists g, w. cbn [flight] in *. split; [apply elem_of_app; by left|].
      split; [by right|done].
  - intros v [->|Hv]%elem_of_cons; [by right|].
    destruct (tp_split _ _ _ _ Htp v a n Hv Hn); [left; by apply Hspl|right; by eapply learns_knows].
  - intros v b [->|Hv]%elem_of_cons Hkv Hb Hba.
    + right. right. exists a, u. split; [|split; [by left|done]].
      apply elem_of_app. right. by apply (elem_of_broadcasted _ ns a n).
    + destruct (tp_split _ _ _ _ Htp v a n Hv Hn) as [Hb'|]; [|by left].
      destruct Hkv as [Hkv _]. by rewrite Hspl in Hkv.
  - intros o e Ho' He m Hm. rewrite Hep, lookup_insert_ne in He by done.
    by apply (tp_epoch _ _ _ _ Htp o a m n e).
  - intros l Hl. right. exists u. rewrite Hlu. split; [by left|done].
  - right. exists u. rewrite Hlu. split; [by left|]. split; [done|]. apply Hlearn.
Qed.
End measurement.

(** The announcement of a new link, at the head of the list, or nothing. *)
Lemma measured_topo B U p wires clk a f pong n n' eff ns fl :
  topo B U wires (mkNet ns fl) → ns !! a = Some n → (default 0 (last_epochs n !! a) < u64_max)%N →
  handle_event p clk (received f (MPong pong)) n = Ret (n', eff) →
  learns n n' ∧ peer_writers n' = peer_writers n ∧
  ∃ U', topo B U' wires (mkNet (<[a := n']> ns) (fl ++ deliveries wires eff)) ∧
    (U' = U ∧ eff = [] ∨
     ∃ u, U' = u :: U ∧ topo_knows u n' ∧ (a, f) ∉ known_links n ∧ (a, f) ∈ known_links n' ∧
       length eff = size (peer_writers n)).
Proof.
  intros Htp Hn Hmax Hev.
  pose proof (wired_id _ _ (tp_wired _ _ _ _ Htp) a n Hn) as Hid. rewrite <- Hid in Hmax.
  destruct (handle_measurement p clk f pong n n' eff) as (Hsound & Hid' & Hpw & Hlearn & Hm);
    [by apply (tp_sound _ _ _ _ Htp a)|done|done|].
  split; [done|]. split; [done|]. rewrite Hid in Hm. destruct (decide _) as [Hin|Hin].
  - destruct Hm as (Hk & Hep & ->). exists U. split; [|by left]. simpl. rewrite app_nil_r.
    by apply (remeasured_topo B U wires ns fl a n n').
  - destruct Hm as (Hin' & u & Hadd & Ho & Hu & Hlu & Hep & ->).
    destruct (announced_topo B U wires ns fl a n n' Htp Hn Hsound Hid' Hpw Hlearn u) as [Hku Htp'];
      try done.
    exists (u :: U). split; [done|right]. exists u. rewrite length_broadcast, Hpw. by split_and!.
Qed.
(** ** Runs *)

Definition topo_work (U : list TopologyUpdate) net : nat :=
  length (flight net) + sum_map (node_work U (channels (members net))) (members net).

Lemma channels_insert ns d n n' :
  ns !! d = Some n → peer_writers n' = peer_writers n → channels (<[d := n']> ns) = channels ns.
Proof.
  intros Hn Hpw. unfold channels. by rewrite sum_map_insert, (sum_map_delete _ ns d n Hn), Hpw.
Qed.

Lemma announced_work B U p wires net net' :
  topo B U wires net → net_step p wires net net' → topo_work U net' < topo_work U net.
Proof.
  intros Htp Hstep. destruct Hstep as [clk d ev n n' eff ns l1 l2 Hn Hev].
  destruct (tp_flight _ _ _ _ Htp d ev) as (_ & f & u & nf & -> & Hu & Hf & Hkf);
    [cbn [flight]; set_solver|].
  destruct (announcement_handled B U p wires ns l1 l2 d f clk u n n' nf eff)
    as (_ & _ & Hpw & Hlearn & [Hb' _] & Heff); try done.
  unfold topo_work. cbn [Network.members flight]. rewrite (channels_insert ns d n) by done.
  rewrite sum_map_insert, (sum_map_delete _ ns d n Hn), !length_app. cbn [length].
  unfold node_work. pose proof (unmeasured_le d n n' Hlearn Hpw).
  destruct (topo_behind u n) eqn:Eb; destruct Heff as (_ & _ & ->).
  - pose proof (pending_lt U n n' u Hlearn Hpw Hu Eb Hb').
    pose proof (length_gossiped wires f (origin_node_id u) (MTopologyUpdate u) n') as Hlen.
    rewrite Hpw in Hlen. nia.
  - pose proof (pending_le U n n' Hlearn Hpw). simpl. nia.
Qed.

Lemma measured_work B U p wires net net' :
  topo B U wires net → measure_step p wires net net' →
  ∃ U', topo B U' wires net' ∧ topo_work U' net' <= topo_work U net.
Proof.
  intros Htp Hstep. destruct Hstep as [clk a f pong n n' eff ns fl Hn Hf Hmax Hev].
  destruct (measured_topo B U p wires clk a f pong n n' eff ns fl Htp Hn Hmax Hev)
    as (Hlearn & Hpw & U' & Htp' & Hcase). exists U'. split; [done|].
  unfold topo_work. cbn [Network.members flight]. rewrite (channels_insert ns a n) by done.
  rewrite sum_map_insert, (sum_map_delete _ ns a n Hn), length_app.
  pose proof (length_deliveries wires eff). pose proof (pending_le U n n' Hlearn Hpw).
  destruct Hcase as [[-> ->]|(u & -> & [Hb' _] & Hin & Hin' & Hlen)].
  - pose proof (unmeasured_le a n n' Hlearn Hpw). unfold node_work at 1 3. simpl. nia.
  - pose proof (unmeasured_lt a n n' f Hlearn Hpw Hf Hin Hin').
    assert (sum_map (node_work (u :: U) (channels ns)) (delete a ns) <=
            sum_map (node_work U (channels ns)) (delete a ns) +
            sum_map (λ _ m, size (peer_writers m)) (delete a ns)) as Hrest.
    { rewrite <- sum_map_add. apply sum_map_le. intros b m _. unfold node_work, pending. simpl.
      destruct (topo_behind u m); lia. }
    assert (channels ns = size (peer_writers n) + sum_map (λ _ m, size (peer_writers m)) (delete a ns))
      as Hch by (unfold channels; by rewrite (sum_map_delete _ ns a n Hn)).
    assert (node_work (u :: U) (channels ns) a n' + channels ns <= node_work U (channels ns) a n) as Hown.
    { unfold node_work. change (pending (u :: U) n') with
        ((if topo_behind u n' then size (peer_writers n') else 0) + pending U n').
      rewrite Hb'. nia. }
    lia.
Qed.

Definition net_learns net net' : Prop :=
  ∀ a n, members net !! a = Some n →
    ∃ n', members net' !! a = Some n' ∧ known_links n ⊆ known_links n'.

Lemma net_learns_insert ns fl fl' d n n' :
  ns !! d = Some n → learns n n' → net_learns (mkNet ns fl) (mkNet (<[d := n']> ns) fl').
Proof.
  intros Hn [Hl _] a m Ha. cbn [Network.members] in *. rewrite lookup_insert.
  case_decide as Hd; [|by eauto]. subst a. assert (m = n) as -> by congruence. eauto.
Qed.

Lemma net_learns_trans net1 net2 net3 :
  net_learns net1 net2 → net_learns net2 net3 → net_learns net1 net3.
Proof.
  intros H12 H23 a n1 (n2 & Hn2 & ?)%H12. destruct (H23 a n2 Hn2) as (n3 & ? & ?).
  exists n3. split; [done|by etrans].
Qed.

(** What every step keeps. *)
Lemma delivered_step B U p wires net net' :
  topo B U wires net → net_step p wires net net' →
  topo B U wires net' ∧ net_learns net net' ∧
  ∀ a b, peers (members net') a b ↔ peers (members net) a b.
Proof.
  intros Htp Hstep. destruct Hstep as [clk d ev n n' eff ns l1 l2 Hn Hev].
  destruct (tp_flight _ _ _ _ Htp d ev) as (_ & f & u & nf & -> & Hu & Hf & Hkf);
    [cbn [flight]; set_solver|].
  destruct (announcement_handled B U p wires ns l1 l2 d f clk u n n' nf eff)
    as (_ & _ & Hpw & Hlearn & _); try done.
  split; [by apply (announcement_topo B U p wires ns l1 l2 d f clk u n n' nf eff)|].
  split; [by apply (net_learns_insert _ _ _ _ n)|]. intros a b. by apply (peers_insert ns d n).
Qed.

Lemma measured_step B U p wires net net' :
  topo B U wires net → measure_step p wires net net' →
  net_learns net net' ∧ ∀ a b, peers (members net') a b ↔ peers (members net) a b.
Proof.
  intros Htp Hstep. destruct Hstep as [clk a f pong n n' eff ns fl Hn Hf Hmax Hev].
  destruct (measured_topo B U p wires clk a f pong n n' eff ns fl Htp Hn Hmax Hev)
    as (Hlearn & Hpw & _).
  split; [by apply (net_learns_insert _ _ _ _ n)|]. intros b c. by apply (peers_insert ns a n).
Qed.

Lemma topo_runs B U p wires k net net' :
  topo B U wires net → topo_run p wires k net net' →
  ∃ U', topo B U' wires net' ∧ k + topo_work U' net' <= topo_work U net ∧ net_learns net net' ∧
    ∀ a b, peers (members net') a b ↔ peers (members net) a b.
Proof.
  intros Htp Hr. revert U Htp.
  induction Hr as [net|k net1 net2 net3 Hs _ IH|k net1 net2 net3 Hs _ IH]; intros U Htp.
  - exists U. split; [done|]. split; [done|]. split; [|done]. intros a n Ha. eauto.
  - destruct (delivered_step B U p wires net1 net2 Htp Hs) as (Htp2 & Hl2 & Hp2).
    pose proof (announced_work B U p wires net1 net2 Htp Hs) as Hw.
    destruct (IH U Htp2) as (U' & ? & ? & Hl3 & Hp3). exists U'. split; [done|]. split; [lia|].
    split; [by eapply net_learns_trans|intros a b; by rewrite Hp3, Hp2].
  - destruct (measured_step B U p wires net1 net2 Htp Hs) as (Hl2 & Hp2).
    destruct (measured_work B U p wires net1 net2 Htp Hs) as (U2 & Htp2 & Hw).
    destruct (IH U2 Htp2) as (U' & ? & ? & Hl3 & Hp3). exists U'. split; [done|]. split; [lia|].
    split; [by eapply net_learns_trans|intros a b; by rewrite Hp3, Hp2].
Qed.

(** When nothing is in flight, an announcement that a node knows is known to all it reaches. *)
Lemma quiet_informed B U wires net a b n u :
  topo B U wires net → flight net = [] → u ∈ U → rtc (peers (members net)) a b →
  members net !! a = Some n → topo_knows u n → ∃ m, members net !! b = Some m ∧ topo_knows u m.
Proof.
  intros Htp Hq Hu Hr. revert n. induction Hr as [a|a b c (n0 & Hn0 & Hb) _ IH]; intros n Ha Hk.
  - eauto.
  - assert (n0 = n) as -> by congruence.
    destruct (tp_told _ _ _ _ Htp u a b n Hu Ha Hk Hb) as [(m & Hm & Hkm)|(f & v & Hin & _)].
    + by eapply IH.
    + rewrite Hq in Hin. by apply elem_of_nil in Hin.
Qed.

(** The start of a run: what each node knows, and the epoch it has counted. *)
Definition start_of net : start := λ a,
  from_option (λ n, (known_links n, last_epochs n !! a)) (∅, None) (members net !! a).

(** No member has recorded a later epoch of another one than that one has counted itself. *)
Definition epochs_led ns : Prop :=
  ∀ o a n m e, ns !! o = Some n → ns !! a = Some m → last_epochs m !! o = Some e →
  ∃ e', last_epochs n !! o = Some e' ∧ (e <= e')%N.

Lemma start_topo wires net :
  wired wires (members net) → (∀ a n, members net !! a = Some n → node_sound n) →
  flight net = [] → epochs_led (members net) → topo (start_of net) [] wires net.
Proof.
  intros Hw Hs Hq He. split; try done; try (by intros ? ?%elem_of_nil); try (by intros ? ? ?%elem_of_nil).
  - by intros ? ? ? ?%elem_of_nil.
  - rewrite Hq. by intros ? ? ?%elem_of_nil.
  - by intros ? ? ? ? ?%elem_of_nil.
  - intros a n Ha. unfold start_of. by rewrite Ha.
  - intros a n Ha. left. unfold start_of. by rewrite Ha.
  - intros a n l Ha Hl. left. unfold start_of. by rewrite Ha.
Qed.

(** An announcement that a node knows is known to all it reaches, once nothing is in flight. *)
Lemma quiet_links B U wires net a b n m :
  topo B U wires net → flight net = [] → rtc (peers (members net)) a b →
  members net !! a = Some n → members net !! b = Some m →
  known_links n ∖ (B a).1 ⊆ known_links m ∧
  (last_epochs n !! a ≠ (B a).2 → known_links n ⊆ known_links m).
Proof using All.
  intros Htp Hq Hab Ha Hb.
  assert (∀ u, u ∈ U → topo_knows u n → update_links u ⊆ known_links m) as Hall.
  { intros u Hu Hk. destruct (quiet_informed B U wires net a b n u) as (m' & Hm' & _ & ?); try done.
    by assert (m' = m) as -> by congruence. }
  assert (∀ l, l ∈ known_links n → l ∈ (B a).1 ∨ l ∈ known_links m) as Hl.
  { intros l Hl. destruct (tp_known _ _ _ _ Htp a n l Ha Hl) as [|(u & ? & ? & ?)]; [by left|right].
    by eapply Hall. }
  split; [set_solver|]. intros Hne.
  destruct (tp_own _ _ _ _ Htp a n Ha) as [|(u & Hu & Hk & Hsub)]; [done|].
  specialize (Hall u Hu Hk). set_solver.
Qed.

(** C6. The topology of a settled mesh becomes consistent.  The peers are fixed, only topology
    announcements travel, no epoch counter is at its maximum, nothing is in flight at the start, and
    no node has recorded a later epoch of a member than the member has counted itself.  (The last
    condition is a real restriction: it leaves out the bootstrap of a mesh, where the epoch-1
    snapshot sent to a new peer makes that peer drop the node's first announcement, as
    [first_link_announcement_lost] shows, and a node that restarts its count; it is met again when
    every node has announced a link of its own.)  From there, nodes measure the links to their peers at any time
    and announce the new ones, while announcements arrive in any order: a run delivers no more
    messages than a bound computed from the channels and the links not yet measured; it is never
    stuck while messages are in flight; no node ever gives up a link; and once nothing is in flight
    a node knows every link that a node reaching it has learnt since the start, and, if that
    node has announced anything since the start, every link that node knows. *)
Theorem topology_eventually_consistent wires net :
  wired wires (members net) → (∀ a n, members net !! a = Some n → node_sound n) →
  flight net = [] → epochs_led (members net) →
  (∀ p k net', topo_run p wires k net net' → k <= topo_work [] net) ∧
  (∀ k net', topo_run Release wires k net net' → flight net' ≠ [] →
     ∃ net'', net_step Release wires net' net'') ∧
  (∀ p k net', topo_run p wires k net net' → net_learns net net' ∧
     (flight net' = [] → ∀ a b n0 n m, rtc (peers (members net)) a b →
        members net !! a = Some n0 → members net' !! a = Some n → members net' !! b = Some m →
        known_links n ∖ known_links n0 ⊆ known_links m ∧
        (last_epochs n !! a ≠ last_epochs n0 !! a → known_links n ⊆ known_links m))).
Proof.
  intros Hw Hs Hq He. pose proof (start_topo wires net Hw Hs Hq He) as Htp.
  set (B := start_of net) in *. split_and!.
  - intros p k net' Hr. destruct (topo_runs B [] p wires k net net' Htp Hr) as (U' & _ & ? & _). lia.
  - intros k net' Hr Hne.
    destruct (topo_runs B [] Release wires k net net' Htp Hr) as (U' & Htp' & _).
    destruct net' as [ns [|[d ev] l]]; [done|].
    destruct (tp_flight _ _ _ _ Htp' d ev) as ([n Hn] & _); [by left|].
    destruct (handle_event_release (mkClock (λ _, 0%N) (λ _, 0%N)) ev n
      (wired_wf _ _ (tp_wired _ _ _ _ Htp') d n Hn)) as [[n' eff] Hev].
    eexists. by apply (net_deliver Release wires _ d ev n n' eff ns [] l Hn Hev).
  - intros p k net' Hr. destruct (topo_runs B [] p wires k net net' Htp Hr) as (U' & Htp' & _ & Hl & Hp).
    split; [done|]. intros Hq' a b n0 n m Hab Ha0 Ha Hb.
    destruct (quiet_links B U' wires net' a b n m) as [H1 H2]; try done.
    { eapply rtc_subrel; [|exact Hab]. intros x y. apply Hp. }
    unfold B, start_of in H1, H2. by rewrite Ha0 in H1, H2.
Qed.

(** ** Links are never given up *)

(** The message takes no node and no link away. *)
Definition message_adds (msg : ControlMessage) : Prop :=
  match message msg with
  | Some (MTopologyUpdate u) => only_adds u
  | _ => True
  end.

Definition event_adds (ev : ControlEvent) : Prop :=
  match ev with
  | ControlMsgReceived _ msg => message_adds msg
  | _ => True
  end.

Definition sends_add eff : Prop := ∀ tx msg, Send tx msg ∈ eff → message_adds msg.

Lemma sends_add_nil : sends_add [].
Proof. by intros tx msg ?%elem_of_nil. Qed.

Lemma sends_add_gossip f o q n : message_adds (to_message q) → sends_add (gossip f o q n).
Proof. by intros Hq tx msg (b & tx' & [= -> ->] & _)%elem_of_gossip. Qed.

Lemma sends_add_broadcast q n :
  message_adds (to_message q) → sends_add (broadcast_control_message q n).
Proof. by intros Hq tx msg (b & tx' & [= -> ->] & _)%elem_of_broadcast. Qed.

#[local] Hint Resolve sends_add_nil sends_add_gossip sends_add_broadcast : stric.

Lemma handle_payload_links p clk f q n n' eff :
  node_wf n → message_adds (to_message q) → handle_payload p clk f q n = Ret (n', eff) →
  known_links n ⊆ known_links n' ∧ sends_add eff.
Proof.
  intros Hwf Hq Hev. destruct q as [| | | |u|u|b|[[m|]]|pi|po]; simpl in Hev;
    try (injection Hev as <- <-; by auto with stric).
  - destruct (handle_topology_update_eq clk f u n) as [seen Heq]. rewrite Heq in Hev.
    destruct (is_newer _ _ _); [|injection Hev as <- <-; by auto with stric].
    apply bind_Ret in Hev as (g & Hg & Hev). injection Hev as <- <-.
    apply apply_update_adds in Hg as (_ & Hl & _); [|apply Hwf|done].
    split; [|by auto with stric]. unfold known_links. simpl. rewrite Hl. apply union_subseteq_l.
  - unfold handle_subscription_update in Hev. case_match; injection Hev as <- <-;
      [|by auto with stric]. split; [|by apply sends_add_gossip].
    unfold known_links, link_set. simpl.
    destruct (add_node_refines (fgraph n) (mkNodeDescriptor (su_node_id u) NODE_ROLE_FLOW
      (subscription_capabilities (su_entries u)) (system clk 0))) as [_ Ha]; [apply Hwf|].
    apply (f_equal mesh_links) in Ha. simpl in Ha. by rewrite Ha.
  - destruct m; simpl in Hev; unfold handle_create, handle_join, handle_leave, handle_close,
      handle_state_sync in Hev; cbn -[merge_state] in Hev; inv_ret Hev; split; try done;
      by auto with stric.
  - unfold handle_ping in Hev. case_match; injection Hev as <- <-; (split; [done|]); [|apply sends_add_nil].
    by intros tx' msg [= -> ->]%list_elem_of_singleton.
  - unfold handle_pong in Hev. apply bind_Ret in Hev as (rtt & _ & (g & Hg & Hev)%bind_Ret).
    apply add_link_dom in Hg as (_ & Hl & _); [|apply Hwf].
    assert (known_links n ⊆ link_set g) as Hsub by (rewrite Hl; apply union_subseteq_l).
    destruct (negb _); [|injection Hev as <- <-; by auto with stric].
    apply bind_Ret in Hev as (e & _ & ([ds ls] & _ & Hev)%bind_Ret). injection Hev as <- <-.
    split; [done|]. by apply sends_add_broadcast.
Qed.

Lemma handle_event_links p clk ev n n' eff :
  node_wf n → event_adds ev → handle_event p clk ev n = Ret (n', eff) →
  known_links n ⊆ known_links n' ∧ sends_add eff.
Proof.
  intros Hwf Ha Hev. destruct ev as [b tx|b|f [[q|]]]; simpl in Hev.
  - injection Hev as <- <-. by auto with stric.
  - unfold handle_peer_disconnected in Hev.
    repeat case_match; injection Hev as <- <-; (split; [done|]); try apply sends_add_nil;
      by intros ?? ?%list_elem_of_singleton.
  - change (known_links n) with (known_links (touch f (instant clk 0) n)).
    apply (handle_payload_links p clk f q); try done. by destruct Hwf; split.
  - injection Hev as <- <-. by auto with stric.
Qed.

(** C21. The mesh never forgets a link.  While the updates a node receives take nothing
    away, whatever else happens, a lost peer included, every link the node has known stays in
    its graph, and no update it sends takes anything away either: in a network of such
    nodes no link and no node is ever removed, and routes keep using those that are
    lost. *)
Theorem links_never_forgotten p events n n' eff :
  node_wf n → Forall (λ ce, event_adds ce.2) events →
  run_control_loop p events n = Ret (n', eff) →
  known_links n ⊆ known_links n' ∧ sends_add eff.
Proof.
  intros Hwf Hev. revert n n' eff Hwf. induction Hev as [|[clk ev] events Ha _ IH];
    intros n n' eff Hwf Hr; simpl in Hr.
  - injection Hr as <- <-. by auto with stric.
  - apply bind_Ret in Hr as ([n1 eff1] & E1 & ([n2 eff2] & E2 & Hr)%bind_Ret).
    injection Hr as <- <-. destruct (handle_event_wf _ _ _ _ _ _ Hwf E1) as [Hwf1 _].
    destruct (handle_event_links p clk ev n n1 eff1 Hwf Ha E1) as [Hl1 Hs1].
    destruct (IH n1 n2 eff2 Hwf1 E2) as [Hl2 Hs2]. split; [by etrans|].
    intros tx msg [?|?]%elem_of_app; eauto.
Qed.
End topology.
