(* ===== verification/NetworkSync.v ===== *)
(** * Consistency of sessions across a network

    The nodes of a network ([Network]) share the state of one session without a merge
    function.  Applications write at any node while updates travel; the file shows that,
    when no clock is behind the session it writes to and no two writes carry the same stamp,
    the copies become equal once nothing is in flight, that every node then holds a write as
    late as any it could have heard of, and that the traffic ends. *)
From S2P Require Import Prelude Proto Topic Graph GraphFacts Dijkstra Reconciliation.
From S2P Require Import Backpressure FlowNode FlowFacts ControlFacts SessionFacts Network.
From stdpp Require Import options.

(** ** The order of stamps *)

Definition stamp_le (a b : N * N) : Prop := ¬ stamp_lt b a.

Lemma stamp_le_refl a : stamp_le a a.
Proof. apply stamp_lt_irrefl. Qed.

Lemma stamp_le_trans a b c : stamp_le a b → stamp_le b c → stamp_le a c.
Proof. unfold stamp_le, stamp_lt. lia. Qed.

Lemma stamp_lt_le a b : stamp_lt a b → stamp_le a b.
Proof. unfold stamp_le, stamp_lt. lia. Qed.

Lemma stamp_lt_le_trans a b c : stamp_lt a b → stamp_le b c → stamp_lt a c.
Proof. unfold stamp_le, stamp_lt. lia. Qed.

Lemma lww_le_l (a b : write) : stamp_le a.1 (lww a b).1.
Proof. unfold lww. case_decide; [by apply stamp_lt_le|apply stamp_le_refl]. Qed.

Lemma lww_le_r (a b : write) : stamp_le b.1 (lww a b).1.
Proof. unfold lww. case_decide; [apply stamp_le_refl|done]. Qed.

#[local] Hint Resolve stamp_le_refl stamp_lt_le lww_le_l lww_le_r : stric.

(** The writes of [W] that are later than [w]. *)
Definition rank (W : list write) (w : write) : nat := length (filter (λ x, stamp_lt w.1 x.1) W).

Lemma rank_le W w w' : stamp_le w.1 w'.1 → rank W w' <= rank W w.
Proof.
  intros Hle. unfold rank. induction W as [|x W IH]; [done|]. rewrite !filter_cons.
  destruct (decide (stamp_lt w'.1 x.1)) as [H1|], (decide (stamp_lt w.1 x.1)) as [|H2]; simpl; try lia.
  destruct H2. unfold stamp_le, stamp_lt in *. lia.
Qed.

Lemma rank_lt W w w' : stamp_lt w.1 w'.1 → w' ∈ W → rank W w' < rank W w.
Proof.
  intros Hlt. unfold rank. induction W as [|x W IH]; intros Hin; [by apply elem_of_nil in Hin|].
  pose proof (rank_le W w w' (stamp_lt_le _ _ Hlt)) as Hle. unfold rank in Hle.
  rewrite !filter_cons. apply elem_of_cons in Hin as [<-|Hin].
  - rewrite decide_False by apply stamp_lt_irrefl. rewrite decide_True by done. simpl. lia.
  - specialize (IH Hin).
    destruct (decide (stamp_lt w'.1 x.1)), (decide (stamp_lt w.1 x.1)) as [|H2]; simpl; try lia.
    destruct H2. by eapply stamp_lt_trans.
Qed.

Section sync.
#[local] Set Default Proof Using "Type*".
Context `{PS : PetGraphSpec string LinkWeight} `{HS : HashOrderSpec} `{G : Governor}.
Context {SocketAddr : Type} `{Countable SocketAddr} {Handler : Type}.

Abbreviation FlowNode := (FlowNode (SocketAddr := SocketAddr) (Handler := Handler)).
Abbreviation Net := (Net (SocketAddr := SocketAddr) (Handler := Handler)).
Abbreviation members := (members (SocketAddr := SocketAddr) (Handler := Handler)).
Implicit Types (n : FlowNode) (ns : gmap string FlowNode) (net : Net)
  (eff : list (Effect (SocketAddr := SocketAddr))).

(** The session, the writes that may happen, and a bound on the number of peers. *)
Variables (id : string) (W : list write) (D : nat).

(** The write a node holds. *)
Definition held_in ns (a : string) : option write :=
  n ← ns !! a; session_write <$> sessions n !! id.
Abbreviation held net a := (held_in (members net) a).

(** A step of the network: a message is delivered, or an application writes the session at a
    node.  The code takes any write; [allowed] says which ones happen in the runs looked at. *)
Inductive sync_step (allowed : Clock → Session → bytes → Prop) (p : profile)
    (wires : gmap nat (string * string)) : Net → Net → Prop :=
| sync_deliver net net' : net_step p wires net net' → sync_step allowed p wires net net'
| sync_local clk a data n s n' eff ns fl :
    ns !! a = Some n → sessions n !! id = Some s → allowed clk s data →
    sync_session_state p clk id data n = Ret (n', Ok eff) →
    sync_step allowed p wires (mkNet ns fl)
      (mkNet (<[a := n']> ns) (fl ++ deliveries wires eff)).

(** A write at a node whose clock is not behind the session's timestamp, while the version has
    not reached its maximum; its stamp and data are among the writes of [W]. *)
Definition timely (clk : Clock) (s : Session) (data : bytes) : Prop :=
  (state_timestamp s <= system clk 0)%N ∧ (state_version s < u64_max)%N ∧
  ((system clk 0, state_version s + 1)%N, data) ∈ W.

(** The node [b] holds a write as late as [t], or one is on its way to it. *)
Definition covered net (b : string) (t : N * N) : Prop :=
  (∃ w, held net b = Some w ∧ stamp_le t w.1) ∨
  ∃ f x, (b, sync_event f x) ∈ flight net ∧ stamp_le t (write_of x).1.

(** Only updates of the session are in flight, none later than what its sender holds, and
    what a node holds is covered at its peers. *)
Record syncing (wires : gmap nat (string * string)) net : Prop := {
  sy_wired : wired wires (members net);
  sy_node a n : members net !! a = Some n →
    merge_fns n !! id = None ∧ size (peer_writers n) <= D;
  sy_held a : is_Some (members net !! a) → ∃ w, held net a = Some w ∧ w ∈ W;
  sy_flight d ev : (d, ev) ∈ flight net → is_Some (members net !! d) ∧
    ∃ f x w, ev = sync_event f x ∧ ss_session_id x = id ∧ ss_sender x = f ∧
      write_of x ∈ W ∧ held net f = Some w ∧ stamp_le (write_of x).1 w.1;
  sy_told a b w : peers (members net) a b → held net a = Some w → covered net b w.1;
}.

(** What is left to do. *)
Definition sync_work net : nat :=
  length (flight net) +
  sum_map (λ _ n, from_option (λ s, rank W (session_write s)) 0 (sessions n !! id) * (D + 1))
    (members net).

(** ** One node changes *)

Lemma held_insert ns d n' s' a :
  sessions n' !! id = Some s' →
  held_in (<[d := n']> ns) a = if decide (a = d) then Some (session_write s') else held_in ns a.
Proof.
  intros Hs'. unfold held_in. case_decide as Ha.
  - subst a. rewrite lookup_insert_eq. simpl. by rewrite Hs'.
  - by rewrite lookup_insert_ne.
Qed.

Lemma held_insert_le ns d n n' s s' a w :
  ns !! d = Some n → sessions n !! id = Some s → sessions n' !! id = Some s' →
  stamp_le (session_write s).1 (session_write s').1 → held_in ns a = Some w →
  ∃ w', held_in (<[d := n']> ns) a = Some w' ∧ stamp_le w.1 w'.1.
Proof.
  intros Hn Hs Hs' Hle Ha. rewrite (held_insert _ _ _ s') by done.
  case_decide as Hd; [|eauto with stric].
  subst a. unfold held_in in Ha. rewrite Hn in Ha. simpl in Ha.
  rewrite Hs in Ha. injection Ha as <-. eauto.
Qed.

Lemma work_insert ns fl fl' d n n' s s' :
  ns !! d = Some n → sessions n !! id = Some s → sessions n' !! id = Some s' →
  length fl' + rank W (session_write s') * (D + 1) < length fl + rank W (session_write s) * (D + 1) →
  sync_work (mkNet (<[d := n']> ns) fl') < sync_work (mkNet ns fl).
Proof.
  intros Hn Hs Hs' Hlt. unfold sync_work. cbn [Network.members flight].
  rewrite sum_map_insert, (sum_map_delete _ ns d n Hn), Hs, Hs'. simpl. lia.
Qed.

Section change.
Variables (wires : gmap nat (string * string)) (ns : gmap string FlowNode).
Variables (fl fl' : list (string * ControlEvent)) (d : string).
Variables (n n' : FlowNode) (s s' : Session).
Let net := mkNet ns fl.
Let net' := mkNet (<[d := n']> ns) fl'.

(** The node keeps its peers and its write does not go back; what is in flight was so
    before, or is the node's new write on its way to one of its peers. *)
Hypothesis Hsy : syncing wires net.
Hypothesis Hn : ns !! d = Some n.
Hypothesis Hs : sessions n !! id = Some s.
Hypothesis Hwf' : node_wf n'.
Hypothesis Hid' : node_id n' = node_id n.
Hypothesis Hpw : peer_writers n' = peer_writers n.
Hypothesis Hm' : merge_fns n' = merge_fns n.
Hypothesis Hs' : sessions n' !! id = Some s'.
Hypothesis HW : session_write s' ∈ W.
Hypothesis Hle : stamp_le (session_write s).1 (session_write s').1.
Hypothesis Hfl : ∀ b ev, (b, ev) ∈ fl' → (b, ev) ∈ fl ∨
  is_Some (ns !! b) ∧ ∃ x, ev = sync_event d x ∧ ss_session_id x = id ∧ ss_sender x = d ∧
    write_of x = session_write s'.
Hypothesis Hcov : ∀ b t, covered net b t → covered net' b t.
Hypothesis Htold : ∀ b, is_Some (peer_writers n !! b) → b ≠ d →
  session_write s' = session_write s ∨ covered net' b (session_write s').1.

Lemma change_syncing : syncing wires net'.
Proof.
  destruct (sy_wired _ _ Hsy) as [Hid Hwf Hch]. split; cbn [Network.members flight net'].
  - by apply (wired_insert _ _ d n); [apply (sy_wired _ _ Hsy)|..].
  - intros a m [[-> ->]|[_ Ha]]%change_lookup; [rewrite Hpw, Hm'|]; by eapply (sy_node _ _ Hsy).
  - intros a. rewrite (change_member ns d n n') by done. intros Ha. rewrite (held_insert _ _ _ s') by done.
    case_decide; [eauto|by apply (sy_held _ _ Hsy)].
  - intros b ev [Hin|(Hb & x & -> & Hx & Hsd & Hw)]%Hfl; rewrite (change_member ns d n n') by done.
    + destruct (sy_flight _ _ Hsy b ev Hin) as (Hb & f & x & w & -> & Hx & Hsd & Hw & Hf & Hxw).
      split; [done|]. destruct (held_insert_le ns d n n' s s' f w) as (w' & ? & ?); try done.
      exists f, x, w'. split_and!; try done. by eapply stamp_le_trans.
    + split; [done|]. exists d, x, (session_write s'). rewrite (held_insert _ _ _ s'), decide_True by done.
      rewrite Hw. split_and!; eauto with stric.
  - intros a b w Hp Ha. rewrite (peers_insert _ _ n) in Hp by done.
    rewrite (held_insert _ _ _ s') in Ha by done. case_decide as Had.
    + subst a. injection Ha as <-. destruct Hp as (m & Hm & Hb).
      assert (m = n) as -> by congruence. destruct (decide (b = d)) as [->|Hbd].
      { left. exists (session_write s'). cbn [Network.members net'].
        rewrite (held_insert _ _ _ s'), decide_True by done.
        eauto with stric. }
      destruct (Htold b Hb Hbd) as [->|?]; [|done]. apply Hcov, (sy_told _ _ Hsy d).
      * by exists n.
      * unfold held_in. cbn [Network.members net]. rewrite Hn. simpl. by rewrite Hs.
    + apply Hcov. by apply (sy_told _ _ Hsy a).
Qed.
End change.

(** ** A delivery *)

Lemma handle_sync_net p clk f x n s n' eff :
  node_wf n → sessions n !! id = Some s → merge_fns n !! id = None → ss_session_id x = id →
  handle_event p clk (sync_event f x) n = Ret (n', eff) →
  node_wf n' ∧ node_id n' = node_id n ∧ peer_writers n' = peer_writers n ∧
  merge_fns n' = merge_fns n ∧
  ∃ s', sessions n' !! id = Some s' ∧ session_write s' = lww (session_write s) (write_of x) ∧
  if decide (stamp_lt (session_write s).1 (write_of x).1)
  then ∃ y, ss_session_id y = id ∧ ss_sender y = node_id n ∧ write_of y = session_write s' ∧
    eff = gossip f (ss_sender x) (session_payload (StateSync y)) n'
  else eff = [].
Proof.
  intros Hwf Hs Hm Hx Hev. destruct (handle_event_wf _ _ _ _ _ _ Hwf Hev) as [Hwf' Hid'].
  split; [done|]. split; [done|]. clear Hwf' Hid'. subst id.
  unfold sync_event, received in Hev. simpl in Hev. unfold handle_state_sync in Hev.
  simpl in Hev. rewrite Hs, Hm in Hev. simpl in Hev. unfold lww.
  destruct (decide (stamp_lt (session_write s).1 (write_of x).1)) as [Hlt|Hlt].
  - rewrite (proj2 (lww_wins_stamp _ _ _) Hlt) in Hev. injection Hev as <- <-. simpl.
    split; [done|]. split; [done|]. rewrite lookup_insert_eq. eexists.
    split; [done|]. split; [done|]. eexists. split_and!; [| | |reflexivity]; done.
  - destruct (lww_wins (ss_timestamp x) (ss_version x) s) eqn:Ew;
      [by apply lww_wins_stamp in Ew|]. injection Hev as <- <-. simpl. eauto 10.
Qed.

Section delivery.
Variables (p : profile) (wires : gmap nat (string * string)) (ns : gmap string FlowNode).
Variables (l1 l2 : list (string * ControlEvent)) (d f : string) (clk : Clock).
Variables (n n' : FlowNode) (s s' : Session) (x : SessionStateSync) (wf : write).
Variables (eff : list (Effect (SocketAddr := SocketAddr))).
Let fl := l1 ++ (d, sync_event f x) :: l2.
Let fl' := l1 ++ l2 ++ deliveries wires eff.
Hypothesis Hsy : syncing wires (mkNet ns fl).
Hypothesis Hn : ns !! d = Some n.
Hypothesis Hs : sessions n !! id = Some s.
Hypothesis Hs' : sessions n' !! id = Some s'.
Hypothesis Hpw : peer_writers n' = peer_writers n.
Hypothesis Hsd : ss_sender x = f.
Hypothesis Hf : held_in ns f = Some wf.
Hypothesis Hxf : stamp_le (write_of x).1 wf.1.
Hypothesis Hw' : session_write s' = lww (session_write s) (write_of x).
Hypothesis Heff : if decide (stamp_lt (session_write s).1 (write_of x).1)
  then ∃ y, ss_session_id y = id ∧ ss_sender y = node_id n ∧ write_of y = session_write s' ∧
    eff = gossip f (ss_sender x) (session_payload (StateSync y)) n'
  else eff = [].

Hypothesis Hle : stamp_le (session_write s).1 (session_write s').1.

Lemma delivered_covered b t :
  covered (mkNet ns fl) b t → covered (mkNet (<[d := n']> ns) fl') b t.
Proof.
  intros [(w & Hb & Ht)|(g & y & Hin & Ht)].
  - left. destruct (held_insert_le ns d n n' s s' b w) as (w' & ? & ?); try done.
    exists w'. split; [done|]. by eapply stamp_le_trans.
  - cbn [flight] in Hin. unfold fl in Hin. rewrite elem_of_app, elem_of_cons in Hin.
    destruct Hin as [Hin|[Heq|Hin]].
    + right. exists g, y. split; [|done]. cbn [flight]. apply elem_of_app. by left.
    + injection Heq as -> -> ->. left. exists (session_write s').
      cbn [Network.members]. rewrite (held_insert _ _ _ s'), decide_True by done.
      split; [done|]. eapply stamp_le_trans; [done|]. rewrite Hw'. auto with stric.
    + right. exists g, y. split; [|done]. cbn [flight]. unfold fl'. rewrite !elem_of_app. auto.
Qed.

Lemma delivered_flight b ev :
  (b, ev) ∈ fl' → (b, ev) ∈ fl ∨ is_Some (ns !! b) ∧
    ∃ y, ev = sync_event d y ∧ ss_session_id y = id ∧ ss_sender y = d ∧ write_of y = session_write s'.
Proof.
  unfold fl'. rewrite app_assoc, elem_of_app. intros [Hin|Hin]; [left; unfold fl; set_solver|right].
  pose proof (sy_wired _ _ Hsy) as Hwd. cbn [Network.members] in Hwd.
  pose proof (wired_id _ _ Hwd d n Hn) as Hid.
  case_decide; [|rewrite Heff in Hin; by apply elem_of_nil in Hin].
  destruct Heff as (y & Hy1 & Hy2 & Hy3 & Heq). rewrite Heq in Hin.
  apply (elem_of_gossiped _ ns d n) in Hin as (-> & Hb & _); [|done..].
  split; [by eapply wired_peer|]. exists y. rewrite <- Hid. done.
Qed.

Lemma delivered_told b :
  is_Some (peer_writers n !! b) → b ≠ d →
  session_write s' = session_write s ∨
  covered (mkNet (<[d := n']> ns) fl') b (session_write s').1.
Proof.
  intros [tx Hb] Hbd. case_decide as Hlt; [right|left].
  - destruct Heff as (y & Hy1 & Hy2 & Hy3 & Heq). destruct (decide (b = f)) as [->|Hbf].
    + left. destruct (held_insert_le ns d n n' s s' f wf) as (w' & Hw1 & ?); try done.
      exists w'. split; [done|]. eapply stamp_le_trans; [|done].
      rewrite Hw'. unfold lww. by rewrite decide_True.
    + right. exists d, y. split; [|rewrite Hy3; auto with stric]. cbn [flight].
      unfold fl'. rewrite !elem_of_app. right. right. rewrite Heq.
      apply (elem_of_gossiped _ ns d n); [apply (sy_wired _ _ Hsy)|done..|].
      rewrite Hsd. split_and!; [done|by eexists|done|done].
  - rewrite Hw'. unfold lww. by rewrite decide_False.
Qed.

Lemma delivered_work :
  session_write s' ∈ W → size (peer_writers n) <= D →
  length fl' + rank W (session_write s') * (D + 1) <
  length fl + rank W (session_write s) * (D + 1).
Proof.
  intros HW HD. pose proof (length_deliveries wires eff) as Hlen.
  unfold fl, fl'. rewrite !length_app. cbn [length]. case_decide as Hlt.
  - destruct Heff as (y & _ & _ & _ & Heq). rewrite Heq, length_gossip, Hpw in Hlen.
    assert (rank W (session_write s') < rank W (session_write s)).
    { apply rank_lt; [|done]. rewrite Hw'. unfold lww. by rewrite decide_True. }
    pose proof (map_subseteq_size _ _ (map_filter_subseteq
      (λ pt : string * nat, pt.1 ≠ f ∧ pt.1 ≠ ss_sender x) (peer_writers n))). rewrite Heq. nia.
  - pose proof (rank_le W _ _ Hle). rewrite Heff. simpl. nia.
Qed.
End delivery.

Lemma syncing_session wires net d n :
  syncing wires net → members net !! d = Some n →
  ∃ s, sessions n !! id = Some s ∧ session_write s ∈ W.
Proof.
  intros Hsy Hn. destruct (sy_held _ _ Hsy d) as (w & Hw & HwW); [by eexists|].
  unfold held_in in Hw. rewrite Hn in Hw. simpl in Hw.
  destruct (sessions n !! id) as [s|]; [|done]. injection Hw as <-. eauto.
Qed.

Definition sync_progress wires net net' : Prop :=
  syncing wires net' ∧ sync_work net' < sync_work net ∧
  (∀ a b, peers (members net') a b ↔ peers (members net) a b) ∧
  ∀ a w, held net a = Some w → ∃ w', held net' a = Some w' ∧ stamp_le w.1 w'.1.

Lemma deliver_syncing p wires net net' :
  syncing wires net → net_step p wires net net' → sync_progress wires net net'.
Proof.
  intros Hsy Hstep. destruct Hstep as [clk d ev n n' eff ns l1 l2 Hn Hev].
  destruct (sy_flight _ _ Hsy d ev) as (_ & f & x & wf & -> & Hx & Hsd & HxW & Hf & Hxf);
    [cbn [flight]; set_solver|]. cbn [Network.members] in Hf.
  destruct (syncing_session _ _ d n Hsy Hn) as (s & Hs & HsW).
  destruct (sy_node _ _ Hsy d n Hn) as [Hm HD].
  pose proof (wired_wf _ _ (sy_wired _ _ Hsy) d n Hn) as Hwf.
  destruct (handle_sync_net p clk f x n s n' eff Hwf Hs Hm Hx Hev)
    as (Hwf' & Hid' & Hpw & Hm' & s' & Hs' & Hw' & Heff).
  assert (session_write s' ∈ W) as HsW' by (rewrite Hw'; unfold lww; by case_decide).
  assert (stamp_le (session_write s).1 (session_write s').1) as Hle by (rewrite Hw'; auto with stric).
  split; [|split; [|split]].
  - eapply (change_syncing wires ns _ _ d n n' s s' Hsy Hn Hs); try done.
    + intros b ev. by eapply (delivered_flight wires ns l1 l2 d f n n' s s' x wf eff).
    + intros b t. by eapply (delivered_covered wires ns l1 l2 d f n n' s s' x wf eff).
    + intros b. by eapply (delivered_told wires ns l1 l2 d f n n' s s' x wf eff).
  - apply (work_insert ns _ _ d n n' s s' Hn Hs Hs').
    by eapply (delivered_work wires ns l1 l2 d f n n' s s' x wf eff).
  - intros a b. by apply (peers_insert _ _ n).
  - intros a w Ha. by eapply held_insert_le.
Qed.

(** ** A local write *)

Lemma local_syncing p wires clk a data n s n' eff ns fl :
  syncing wires (mkNet ns fl) →
  ns !! a = Some n → sessions n !! id = Some s →
  (state_timestamp s <= system clk 0)%N → (state_version s < u64_max)%N →
  ((system clk 0, state_version s + 1)%N, data) ∈ W →
  sync_session_state p clk id data n = Ret (n', Ok eff) →
  sync_progress wires (mkNet ns fl) (mkNet (<[a := n']> ns) (fl ++ deliveries wires eff)).
Proof.
  intros Hsy Hn Hs Ht Hv HW Hsync. destruct (sy_node _ _ Hsy a n Hn) as [Hm HD].
  rewrite (sync_session_state_eq p clk id data n s) in Hsync by done. injection Hsync as <- <-.
  set (s' := with_state data (state_version s + 1) (system clk 0) s).
  set (n' := with_sessions _ n). set (y := own_sync clk id data s n).
  set (eff := broadcast_control_message _ n).
  assert (sessions n' !! id = Some s') as Hs' by (simpl; by rewrite lookup_insert_eq).
  assert (stamp_lt (session_write s).1 (session_write s').1) as Hlt by (unfold stamp_lt; simpl; lia).
  assert (node_wf n') as Hwf'.
  { destruct (wired_wf _ _ (sy_wired _ _ Hsy) a n Hn) as [Hg Hss]. split; [done|].
    apply insert_session_wf; [done|exact (Hss id s Hs)]. }
  pose proof (wired_id _ _ (sy_wired _ _ Hsy) a n Hn) as Hid.
  assert (∀ b t, covered (mkNet ns fl) b t →
    covered (mkNet (<[a := n']> ns) (fl ++ deliveries wires eff)) b t) as Hcov.
  { intros b t [(w & Hb & Htw)|(g & z & Hin & Htw)].
    - left. destruct (held_insert_le ns a n n' s s' b w) as (w' & ? & ?); try done.
      { by apply stamp_lt_le. }
      exists w'. split; [done|]. by eapply stamp_le_trans.
    - right. exists g, z. split; [|done]. cbn [flight] in *. apply elem_of_app. by left. }
  split; [|split; [|split]].
  - eapply (change_syncing wires ns _ _ a n n' s s' Hsy Hn Hs); try done; [by apply stamp_lt_le| |].
    + intros b ev. rewrite elem_of_app. intros [Hin|Hin]; [by left|right].
      apply (elem_of_broadcasted _ ns a n) in Hin as (-> & Hb); [|apply (sy_wired _ _ Hsy)|done..].
      split; [by eapply wired_peer; [apply (sy_wired _ _ Hsy)|..]|]. by exists y.
    + intros b [tx Hb] _. right. right. exists a, y. split; [|apply stamp_le_refl].
      cbn [flight]. rewrite elem_of_app. right.
      apply (elem_of_broadcasted _ ns a n); [apply (sy_wired _ _ Hsy)|done..|].
      split; [done|by eexists].
  - apply (work_insert ns _ _ a n n' s s' Hn Hs Hs').
    pose proof (rank_lt W _ _ Hlt HW). pose proof (length_deliveries wires eff) as Hlen.
    unfold eff in Hlen at 2. rewrite length_broadcast in Hlen. rewrite length_app. nia.
  - intros b c. by apply (peers_insert _ _ n).
  - intros b w Hb. eapply held_insert_le; [done|done|done|by apply stamp_lt_le|done].
Qed.

(** ** Runs *)

Lemma sync_step_progress p wires net net' :
  syncing wires net → sync_step timely p wires net net' → sync_progress wires net net'.
Proof.
  intros Hsy Hstep. destruct Hstep as [|? ? ? ? ? ? ? ? ? ? ? (? & ? & ?)]; [by eapply deliver_syncing|by eapply local_syncing].
Qed.

Lemma sync_steps p wires k net net' :
  syncing wires net → nsteps (sync_step timely p wires) k net net' →
  syncing wires net' ∧ k + sync_work net' <= sync_work net ∧
  (∀ a b, peers (members net') a b ↔ peers (members net) a b) ∧
  ∀ a w, held net a = Some w → ∃ w', held net' a = Some w' ∧ stamp_le w.1 w'.1.
Proof.
  intros Hsy Hs. induction Hs as [net|k net1 net2 net3 Hstep _ IH].
  - split_and!; eauto with stric.
  - destruct (sync_step_progress p wires net1 net2 Hsy Hstep) as (Hsy2 & Hw & Hp & Hh).
    destruct (IH Hsy2) as (Hsy3 & Hw3 & Hp3 & Hh3). split; [done|]. split; [lia|].
    split; [intros a b; by rewrite Hp3, Hp|].
    intros a w (w2 & Hw2 & Hle)%Hh. destruct (Hh3 a w2 Hw2) as (w3 & ? & ?).
    exists w3. split; [done|]. by eapply stamp_le_trans.
Qed.

Lemma syncing_progress wires net :
  syncing wires net → flight net ≠ [] → ∃ net', net_step Release wires net net'.
Proof.
  intros Hsy Hne. destruct net as [ns [|[d ev] l]]; [done|].
  destruct (sy_flight _ _ Hsy d ev) as ([n Hn] & _); [by left|].
  destruct (handle_event_release (mkClock (λ _, 0%N) (λ _, 0%N)) ev n
    (wired_wf _ _ (sy_wired _ _ Hsy) d n Hn)) as [[n' eff] Hev].
  eexists. by apply (net_deliver Release wires _ d ev n n' eff ns [] l Hn Hev).
Qed.

(** When nothing is in flight, a node holds a write as late as any node that reaches it. *)
Lemma quiet_held wires net a b w :
  syncing wires net → flight net = [] → rtc (peers (members net)) a b → held net a = Some w →
  ∃ w', held net b = Some w' ∧ stamp_le w.1 w'.1.
Proof.
  intros Hsy Hq Hr. revert w. induction Hr as [a|a b c Hab _ IH]; intros w Ha.
  - eauto with stric.
  - destruct (sy_told _ _ Hsy a b w Hab Ha) as [(w1 & Hb & Hle)|(f & x & Hin & _)].
    + destruct (IH w1 Hb) as (w' & ? & ?). exists w'. split; [done|]. by eapply stamp_le_trans.
    + rewrite Hq in Hin. by apply elem_of_nil in Hin.
Qed.

End sync.
