(* ===== verification/Circulation.v ===== *)
(** * Messages that circulate for ever

    Control messages that a node passes on without remembering them: announcements that a
    node joins or leaves a session, and state updates of a session with a merge function.
    In a mesh with three nodes that are all peers of each other they never come to rest. *)
From S2P Require Import Prelude Proto Topic Graph GraphFacts Dijkstra Reconciliation.
From S2P Require Import Backpressure FlowNode FlowFacts ControlFacts SessionFacts Network.
From stdpp Require Import options.

(** Of three names one differs from any two given ones. *)
Lemma third_node (l : list string) (d f : string) :
  NoDup l → 3 <= length l → ∃ b, b ∈ l ∧ b ≠ d ∧ b ≠ f.
Proof.
  intros Hnd Hlen. destruct l as [|x [|y [|z l]]]; simpl in Hlen; try lia.
  inversion_clear Hnd as [|?? Hx Hnd']. inversion_clear Hnd' as [|?? Hy Hnd''].
  assert (x ≠ y ∧ x ≠ z ∧ y ≠ z) as (? & ? & ?) by set_solver.
  destruct (decide (x ≠ d ∧ x ≠ f)) as [|Hx']; [exists x; set_solver|].
  destruct (decide (y ≠ d ∧ y ≠ f)) as [|Hy']; [exists y; set_solver|].
  exists z. split; [set_solver|]. destruct (decide (z = d)), (decide (z = f)); naive_solver.
Qed.

Section circulation.
#[local] Set Default Proof Using "Type*".
Context `{PS : PetGraphSpec string LinkWeight} `{HS : HashOrderSpec} `{G : Governor}.
Context {SocketAddr : Type} `{Countable SocketAddr} {Handler : Type}.

Abbreviation FlowNode := (FlowNode (SocketAddr := SocketAddr) (Handler := Handler)).
Abbreviation Net := (Net (SocketAddr := SocketAddr) (Handler := Handler)).
Abbreviation members := (members (SocketAddr := SocketAddr) (Handler := Handler)).
Implicit Types (n : FlowNode) (ns : gmap string FlowNode) (net : Net)
  (eff : list (Effect (SocketAddr := SocketAddr))).

(** ** Messages of a kind that is always passed on *)

Section kind.
Variables (wires : gmap nat (string * string)) (tri : list string).
Variables (good : FlowNode → Prop) (kind : string → ControlMessage → Prop).

(** A node in a [good] state that gets a message of the [kind] from [f] stays good, keeps its
    peers, sends only messages of the kind, and sends one to every peer in [tri] but [f]. *)
Definition passes_on : Prop := ∀ p clk f msg n n' eff,
  good n → kind f msg → handle_event p clk (ControlMsgReceived f msg) n = Ret (n', eff) →
  good n' ∧ peer_writers n' = peer_writers n ∧
  (∀ tx m, Send tx m ∈ eff → kind (node_id n) m ∧ ∃ b, peer_writers n !! b = Some tx) ∧
  ∀ b tx, b ∈ tri → b ≠ f → peer_writers n !! b = Some tx → ∃ m, Send tx m ∈ eff.

(** Every two nodes of [tri] are peers, and a message of the kind is under way to one. *)
Record ring (net : Net) : Prop := {
  ring_wired : wired wires (members net);
  ring_good a n : members net !! a = Some n → good n;
  ring_members a : a ∈ tri → is_Some (members net !! a);
  ring_peers a b : a ∈ tri → b ∈ tri → a ≠ b → peers (members net) a b;
  ring_flight d ev : (d, ev) ∈ flight net → ∃ f m, ev = ControlMsgReceived f m ∧ kind f m;
  ring_alive : ∃ d ev, (d, ev) ∈ flight net ∧ d ∈ tri;
}.

Lemma ring_delivers p clk f msg n n' eff ns d l1 l2 :
  passes_on → NoDup tri → 3 <= length tri → ns !! d = Some n →
  ring (mkNet ns (l1 ++ (d, ControlMsgReceived f msg) :: l2)) → kind f msg →
  handle_event p clk (ControlMsgReceived f msg) n = Ret (n', eff) →
  ∃ d' ev', (d', ev') ∈ l1 ++ l2 ++ deliveries wires eff ∧ d' ∈ tri.
Proof.
  intros Hpass Hnd Hlen Hn Hr Hk Hev.
  destruct (Hpass p clk f msg n n' eff (ring_good _ Hr d n Hn) Hk Hev) as (_ & _ & _ & Hsend).
  destruct (ring_alive _ Hr) as (d0 & ev0 & Hin & Hd0). cbn [flight] in Hin.
  destruct (decide (d ∈ tri)) as [Hd|Hd].
  - destruct (third_node tri d f) as (b & Hb & Hbd & Hbf); try done.
    destruct (ring_peers _ Hr d b Hd Hb (not_eq_sym Hbd)) as (m & Hm & [tx Htx]).
    assert (m = n) as -> by (cbn [Network.members] in Hm; congruence).
    destruct (Hsend b tx Hb Hbf Htx) as [msg' Hmsg].
    exists b, (ControlMsgReceived d msg'). split; [|done]. rewrite !elem_of_app. right. right.
    apply elem_of_deliveries. exists tx, msg', d.
    destruct (wired_chan _ _ (ring_wired _ Hr) d n b tx Hn Htx). done.
  - exists d0, ev0. split; [|done]. rewrite !elem_of_app, elem_of_cons in *.
    destruct Hin as [?|[[= -> _]|?]]; [auto|done|auto].
Qed.

Lemma ring_step p net net' :
  passes_on → NoDup tri → 3 <= length tri → ring net → net_step p wires net net' → ring net'.
Proof.
  intros Hpass Hnd Hlen Hr Hstep. destruct Hstep as [clk d ev n n' eff ns l1 l2 Hn Hev].
  destruct (ring_flight _ Hr d ev) as (f & msg & -> & Hk); [cbn [flight]; set_solver|].
  pose proof (ring_delivers p clk f msg n n' eff ns d l1 l2 Hpass Hnd Hlen Hn Hr Hk Hev) as Halive'.
  destruct (Hpass p clk f msg n n' eff (ring_good _ Hr d n Hn) Hk Hev) as (Hg' & Hpw & Hsent & _).
  destruct Hr as [[Hid Hwf Hch] Hgood Hmem Hpeers Hflight _]. cbn [Network.members flight] in *.
  destruct (handle_event_wf _ _ _ _ _ _ (Hwf d n Hn) Hev) as [Hwf' Hid'].
  assert (∀ a m, <[d := n']> ns !! a = Some m → ∃ m', ns !! a = Some m' ∧ node_id m = node_id m' ∧
    node_wf m ∧ good m ∧ peer_writers m = peer_writers m') as Hold.
  { intros a m. rewrite lookup_insert. case_decide as Hd; [|by eauto 10].
    intros [= <-]. subst a. by exists n. }
  assert (∀ a, is_Some (ns !! a) → is_Some (<[d := n']> ns !! a)) as Hsome.
  { intros a Ha. rewrite lookup_insert. case_decide; eauto. }
  split; cbn [Network.members flight]; [split| | | | |done].
  - intros a m (m' & Ha & -> & _)%Hold. by apply Hid.
  - by intros a m (m' & _ & _ & Hw & _)%Hold.
  - intros a m b tx (m' & Ha & _ & _ & _ & ->)%Hold Hb. destruct (Hch a m' b tx Ha Hb). eauto.
  - by intros a m (m' & _ & _ & _ & Hg & _)%Hold.
  - eauto.
  - intros a b Ha Hb Hne. destruct (Hpeers a b Ha Hb Hne) as (m & Hm & Hp).
    unfold peers. rewrite lookup_insert. case_decide as Hd; [|by eauto].
    exists n'. split; [done|]. rewrite Hpw. congruence.
  - intros d' ev' Hin. rewrite app_assoc in Hin. apply elem_of_app in Hin as [Hin|Hin].
    + apply (Hflight d'). set_solver.
    + apply elem_of_deliveries in Hin as (tx & m & src & Hin & Hw & ->).
      destruct (Hsent tx m Hin) as (Hkm & b & Hb). destruct (Hch d n b tx Hn Hb) as [Hw' _].
      rewrite Hw in Hw'. injection Hw' as -> ->. rewrite (Hid d n Hn) in Hkm. eauto.
Qed.

(** Such a message is always in flight. *)
Lemma ring_circulates p net net' :
  passes_on → NoDup tri → 3 <= length tri → ring net → rtc (net_step p wires) net net' →
  flight net' ≠ [] ∧ ∃ net'', net_step Release wires net' net''.
Proof.
  intros Hpass Hnd Hlen Hr Hs.
  assert (ring net') as Hr'.
  { refine (rtc_ind_r (λ x, ring x) net _ _ net' Hs); [done|].
    intros net1 net2 _ Hstep Hr1. by eapply ring_step. }
  destruct (ring_alive _ Hr') as (d & ev & Hin & Hd). destruct net' as [ns fl].
  cbn [flight] in Hin |- *. split; [intros ->; by apply elem_of_nil in Hin|].
  destruct (ring_members _ Hr' d Hd) as [n Hn]. cbn [Network.members] in Hn.
  destruct (handle_event_release (mkClock (λ _, 0%N) (λ _, 0%N)) ev n
    (wired_wf _ _ (ring_wired _ Hr') d n Hn)) as [[n' eff] Hev].
  apply list_elem_of_split in Hin as (l1 & l2 & ->).
  eexists. by apply (net_deliver Release wires _ d ev n n' eff ns l1 l2 Hn Hev).
Qed.
End kind.

(** ** Joining and leaving a session *)

(** The node that an announcement is about. *)
Definition announced (m : SessionControlMessage) : option string :=
  match m with
  | Join j => Some (sj_node_id j)
  | Leave l => Some (sl_node_id l)
  | _ => None
  end.

Definition announcement (m : SessionControlMessage) (_ : string) (msg : ControlMessage) : Prop :=
  msg = to_message (session_payload m).

Lemma announcement_passed_on tri m o :
  announced m = Some o → o ∉ tri → passes_on tri (λ _, True) (announcement m).
Proof.
  intros Ho Hot p clk f msg n n' eff _ -> Hev.
  assert (n' = touch f (instant clk 0) n ∧ eff = gossip f o (session_payload m) n') as [-> ->]
    by (destruct m; try discriminate Ho; injection Ho as <-; by injection Hev as <- <-).
  split; [done|]. split; [done|]. split.
  - intros tx msg (b & tx' & [= -> ->] & Hb & _)%elem_of_gossip. split; [done|]. by exists b.
  - intros b tx Hb Hbf Htx. eexists. apply elem_of_gossip. exists b, tx.
    split_and!; try done. by intros ->.
Qed.

(** Announcements that a node joins or leaves a session have no duplicate check: in a
    mesh with three nodes that are all peers of each other, other than the announced
    node, an announcement that reaches one of them is passed on for ever.  Whatever the
    order of delivery, some copy is always in flight, and there is always a next
    step. *)
Lemma join_circulates m o wires tri p net net' :
  announced m = Some o → o ∉ tri → NoDup tri → 3 <= length tri →
  ring wires tri (λ _, True) (announcement m) net → rtc (net_step p wires) net net' →
  flight net' ≠ [] ∧ ∃ net'', net_step Release wires net' net''.
Proof.
  intros Ho Hot. apply ring_circulates. by eapply announcement_passed_on.
Qed.

(** ** Sessions with a merge function *)

(** The node has the session, with a merge function that never fails. *)
Definition merges (id : string) (n : FlowNode) : Prop :=
  is_Some (sessions n !! id) ∧
  ∃ f, merge_fns n !! id = Some f ∧ ∀ a b, ∃ c, f a b = Ok c.

(** An update of the session, sent by the node it comes from. *)
Definition update_of (id : string) (f : string) (msg : ControlMessage) : Prop :=
  ∃ x, msg = to_message (session_payload (StateSync x)) ∧ ss_session_id x = id ∧ ss_sender x = f.

Lemma merged_update_passed_on tri id : passes_on tri (merges id) (update_of id).
Proof.
  intros p clk f msg n n' eff [[s Hs] (g & Hg & Htotal)] (x & -> & Hx & Hsd) Hev. subst id.
  simpl in Hev. unfold handle_state_sync in Hev. simpl in Hev. rewrite Hs, Hg in Hev.
  cbn -[u64_add] in Hev. destruct (Htotal (state_data s) (ss_data x)) as [c Hc].
  rewrite Hc in Hev. apply bind_Ret in Hev as (u & Hu & Hev). inv_ret Hu. inv_ret Hev. split; [|split; [done|split]].
  - split; [simpl; rewrite lookup_insert_eq; by eexists|]. by exists g.
  - intros tx msg (b & tx' & [= -> ->] & Hb & _)%elem_of_gossip. split; [|by exists b].
    eexists. split; [done|]. done.
  - intros b tx Hb Hbf Htx. eexists. apply elem_of_gossip. exists b, tx. by split_and!.
Qed.

(** C32. Updates of a session with a merge function never come to rest: every node that merges an
    update sends the result on under a new version, even when the merge changed nothing.  In
    a mesh with three nodes that are all peers of each other and merge the session, one
    update that reaches them circulates for ever. *)
Theorem merged_update_circulates id wires tri p net net' :
  NoDup tri → 3 <= length tri →
  ring wires tri (merges id) (update_of id) net → rtc (net_step p wires) net net' →
  flight net' ≠ [] ∧ ∃ net'', net_step Release wires net' net''.
Proof. apply ring_circulates, merged_update_passed_on. Qed.
End circulation.
