(* ===== verification/MergeFacts.v ===== *)
(** * Sessions with a merge function

    [stric-flow/examples/session_custom_merge.rs]: the nodes of a session register the same
    merge function and one of them, or several, write.  What is sent is the written data, and
    every node merges it into its own copy.  The file also holds the runs of that example, of
    [session_lww_sync.rs] and of the session test of [node.rs]. *)
From S2P Require Import Prelude Proto Topic Graph GraphFacts Dijkstra Reconciliation.
From S2P Require Import Backpressure FlowNode FlowFacts ControlFacts SessionFacts Network.
From stdpp Require Import options.

(** What arrives at one node, in order. *)
Definition inbox (b : string) (l : list (string * ControlEvent)) : list ControlEvent :=
  omap (λ de : string * ControlEvent, if decide (de.1 = b) then Some de.2 else None) l.

Lemma inbox_app b l1 l2 : inbox b (l1 ++ l2) = inbox b l1 ++ inbox b l2.
Proof. apply omap_app. Qed.

(** The merge function of the example: the new bytes after the old ones. *)
Definition append_merge : StateMergeFn := λ old_state new_state, Ok (old_state ++ new_state).

Section merge.
#[local] Set Default Proof Using "Type*".
Context `{PS : PetGraphSpec string LinkWeight} `{HS : HashOrderSpec} `{G : Governor}.
Context {SocketAddr : Type} `{Countable SocketAddr} {Handler : Type}.

Abbreviation FlowNode := (FlowNode (SocketAddr := SocketAddr) (Handler := Handler)).
Abbreviation Effect := (Effect (SocketAddr := SocketAddr)).
Implicit Types (n m : FlowNode) (ns : gmap string FlowNode) (eff : list Effect).

(** An application writes one thing after the other. *)
Fixpoint write_seq (p : profile) (id : string) (ws : list (Clock * bytes)) n :
    outcome (FlowNode * list Effect) :=
  match ws with
  | [] => Ret (n, [])
  | (clk, data) :: ws =>
      '(n, r) ← sync_session_state p clk id data n;
      match r with
      | Ok eff => '(n, eff') ← write_seq p id ws n; Ret (n, eff ++ eff')
      | Err _ => Ret (n, [])
      end
  end.

Lemma broadcast_inbox wires ns a n n' q b :
  wired wires ns → ns !! a = Some n → peer_writers n' = peer_writers n →
  is_Some (peer_writers n !! b) →
  inbox b (deliveries wires (broadcast_control_message q n')) = [received a q].
Proof.
  intros Hw Hn Hpw Hb. unfold broadcast_control_message, get_peer_writers. rewrite Hpw.
  assert (∀ pt, pt ∈ map_iter (peer_writers n) → peer_writers n !! pt.1 = Some pt.2) as Hin.
  { intros [c tx] Hc. by rewrite (map_iter_perm (peer_writers n)), elem_of_map_to_list in Hc. }
  assert (NoDup (map_iter (peer_writers n)).*1) as Hnd.
  { rewrite (map_iter_perm (peer_writers n)). apply NoDup_fst_map_to_list. }
  assert (b ∈ (map_iter (peer_writers n)).*1) as Hbin.
  { destruct Hb as [tx Hb]. apply list_elem_of_fmap. exists (b, tx). split; [done|].
    by rewrite (map_iter_perm (peer_writers n)), elem_of_map_to_list. }
  clear Hb. induction (map_iter (peer_writers n)) as [|[c tx] l IH]; [by apply elem_of_nil in Hbin|].
  destruct (wired_chan _ _ Hw a n c tx Hn (Hin (c, tx) ltac:(by left))) as [Hs _].
  csimpl in *. unfold deliveries, inbox in *. csimpl. rewrite Hs. csimpl.
  apply NoDup_cons in Hnd as [Hc Hnd]. apply elem_of_cons in Hbin as [->|Hbin].
  - rewrite decide_True by done. f_equal. clear IH.
    assert (∀ pt, pt ∈ l → peer_writers n !! pt.1 = Some pt.2) as Hin'
      by (intros pt Hpt; apply Hin; by right).
    clear Hin Hnd. induction l as [|[d tx'] l IH]; [done|]. csimpl in *.
    destruct (wired_chan _ _ Hw a n d tx' Hn (Hin' (d, tx') ltac:(by left))) as [Hs' _].
    rewrite Hs'. csimpl. apply not_elem_of_cons in Hc as [Hcd Hc].
    rewrite decide_False by congruence. apply IH; [done|]. intros pt Hpt. apply Hin'. by right.
  - rewrite decide_False by (intros ->; done). apply IH; [|done|done].
    intros pt Hpt. apply Hin. by right.
Qed.

Lemma sync_merged clk id data n s f merged :
  sessions n !! id = Some s → merge_fns n !! id = Some f → f (state_data s) data = Ok merged →
  ∃ n' x, sync_session_state Release clk id data n =
      Ret (n', Ok (broadcast_control_message (session_payload (StateSync x)) n')) ∧
    ss_session_id x = id ∧ ss_data x = data ∧ ss_sender x = node_id n ∧
    node_id n' = node_id n ∧ peer_writers n' = peer_writers n ∧ merge_fns n' = merge_fns n ∧
    fgraph n' = fgraph n ∧ ∃ s', sessions n' = <[id := s']> (sessions n) ∧
      state_data s' = merged ∧ session_id s' = session_id s.
Proof.
  intros Hs Hm Hf. unfold sync_session_state. rewrite Hs.
  destruct (u64_release (state_version s) 1) as [[v ->] _]. simpl. rewrite Hm, Hf.
  eexists _, _. split; [reflexivity|]. do 7 (split; [done|]). eexists. split; [reflexivity|done].
Qed.

Lemma handle_merged clk from x n s f merged :
  sessions n !! ss_session_id x = Some s → merge_fns n !! ss_session_id x = Some f →
  f (state_data s) (ss_data x) = Ok merged →
  ∃ n' eff, handle_event Release clk (sync_event from x) n = Ret (n', eff) ∧
    merge_fns n' = merge_fns n ∧ ∃ s', sessions n' !! ss_session_id x = Some s' ∧ state_data s' = merged.
Proof.
  intros Hs Hm Hf. unfold sync_event, received. simpl. unfold handle_state_sync. simpl.
  rewrite Hs, Hm. simpl. rewrite Hf.
  destruct (u64_release (N.max (state_version s) (ss_version x)) 1) as [[v Hv] _]. rewrite Hv. simpl.
  eexists _, _. split; [done|]. split; [done|]. simpl. rewrite lookup_insert_eq. by eexists.
Qed.

Section agree.
Variables (id : string) (f : StateMergeFn) (g : bytes → bytes → bytes).
Hypothesis Hf : ∀ x y, f x y = Ok (g x y).

(** One node writes, and its peer receives the writes in order. *)
Lemma ordered_writes_fold wires ns a b n m s t ws clk :
  wired wires ns → ns !! a = Some n → is_Some (peer_writers n !! b) →
  sessions n !! id = Some s → sessions m !! id = Some t → state_data s = state_data t →
  merge_fns n !! id = Some f → merge_fns m !! id = Some f →
  ∃ n' eff m' eff', write_seq Release id ws n = Ret (n', eff) ∧
    run_control_loop Release (pair clk <$> inbox b (deliveries wires eff)) m = Ret (m', eff') ∧
    get_session_state id n' = Some (foldl g (state_data s) ws.*2) ∧
    get_session_state id m' = Some (foldl g (state_data s) ws.*2).
Proof.
  revert n m s t ns.
  induction ws as [|[c data] ws IH]; intros n m s t ns Hw Hn Hb Hs Ht Hst Hfn Hfm.
  + exists n, [], m, []. unfold get_session_state. simpl. rewrite Hs, Ht. simpl. by rewrite Hst.
  + destruct (sync_merged c id data n s f _ Hs Hfn (Hf _ _))
      as (n1 & z & E & Hz & Hd & _ & Hid1 & Hpw1 & Hf1 & Hg1 & s1 & Hss1 & Hd1 & Hi1).
    cbn [write_seq]. rewrite E. cbn [mbind outcome_bind].
    destruct (handle_merged clk a z m t f (g (state_data t) data))
      as (m1 & em1 & Em & Hfm1 & t1 & Ht1 & Hdt1); [by rewrite Hz|by rewrite Hz|by rewrite Hd|].
    rewrite Hz in Ht1.
    destruct (IH n1 m1 s1 t1 (<[a := n1]> ns)) as (n' & eff & m' & em & E1 & E2 & Hgn & Hgm).
    * apply (wired_insert _ _ a n); try done.
      destruct (wired_wf _ _ Hw a n Hn) as [Hwg Hws]. split; [by rewrite Hg1|].
      rewrite Hss1. apply insert_session_wf; [done|]. rewrite Hi1. by apply Hws.
    * by rewrite lookup_insert_eq.
    * by rewrite Hpw1.
    * by rewrite Hss1, lookup_insert_eq.
    * done.
    * by rewrite Hd1, Hdt1, Hst.
    * by rewrite Hf1.
    * by rewrite Hfm1.
    * rewrite E1. cbn [mbind outcome_bind]. eexists n', _, m', _. split; [reflexivity|].
      unfold deliveries at 1. rewrite omap_app. fold (deliveries wires eff).
      rewrite inbox_app, fmap_app.
      fold (deliveries (SocketAddr := SocketAddr) wires
        (broadcast_control_message (session_payload (StateSync z)) n1)).
      rewrite (broadcast_inbox wires ns a n n1) by done.
      cbn [fmap list_fmap app run_control_loop]. unfold sync_event in Em. rewrite Em.
      cbn [mbind outcome_bind]. rewrite E2. cbn [mbind outcome_bind].
      split; [reflexivity|]. simpl. by rewrite <- Hd1.
Qed.

(** Two nodes write at the same time. *)
Lemma concurrent_writes_merge wires ns a b n m s t clk ca cb x y :
  wired wires ns → ns !! a = Some n → ns !! b = Some m →
  is_Some (peer_writers n !! b) → is_Some (peer_writers m !! a) →
  sessions n !! id = Some s → sessions m !! id = Some t → state_data s = state_data t →
  merge_fns n !! id = Some f → merge_fns m !! id = Some f →
  ∃ n1 effn m1 effm n' en m' em,
    sync_session_state Release ca id x n = Ret (n1, Ok effn) ∧
    sync_session_state Release cb id y m = Ret (m1, Ok effm) ∧
    run_control_loop Release (pair clk <$> inbox a (deliveries wires effm)) n1 = Ret (n', en) ∧
    run_control_loop Release (pair clk <$> inbox b (deliveries wires effn)) m1 = Ret (m', em) ∧
    get_session_state id n' = Some (g (g (state_data s) x) y) ∧
    get_session_state id m' = Some (g (g (state_data s) y) x).
Proof.
  intros Hw Hn Hm Hb Ha Hs Ht Hst Hfn Hfm.
  destruct (sync_merged ca id x n s f _ Hs Hfn (Hf _ _))
    as (n1 & zx & En & Hzx & Hdx & _ & _ & Hpwn & Hfn1 & _ & s1 & Hsn1 & Hds1 & _).
  destruct (sync_merged cb id y m t f _ Ht Hfm (Hf _ _))
    as (m1 & zy & Em & Hzy & Hdy & _ & _ & Hpwm & Hfm1 & _ & t1 & Hsm1 & Hdt1 & _).
  destruct (handle_merged clk b zy n1 s1 f (g (g (state_data s) x) y))
    as (n' & en & En' & _ & s2 & Hs2 & Hds2).
  { by rewrite Hzy, Hsn1, lookup_insert_eq. }
  { by rewrite Hzy, Hfn1. }
  { by rewrite Hds1, Hdy, Hf. }
  destruct (handle_merged clk a zx m1 t1 f (g (g (state_data s) y) x))
    as (m' & em & Em' & _ & t2 & Ht2 & Hdt2).
  { by rewrite Hzx, Hsm1, lookup_insert_eq. }
  { by rewrite Hzx, Hfm1. }
  { by rewrite Hdt1, Hdx, Hf, Hst. }
  eexists n1, _, m1, _, n', (en ++ []), m', (em ++ []). split; [done|]. split; [done|].
  rewrite (broadcast_inbox wires ns b m m1), (broadcast_inbox wires ns a n n1) by done.
  cbn [fmap list_fmap run_control_loop]. unfold sync_event in *. rewrite En', Em'. simpl.
  split; [done|]. split; [done|]. unfold get_session_state. rewrite Hzy in Hs2. rewrite Hzx in Ht2.
  rewrite Hs2, Ht2. simpl. by rewrite Hds2, Hdt2.
Qed.

(** C20. A merge function folds the writes, at the writer and at its peers.  When one node writes
    and its peer receives the writes in order, as a control stream delivers them, both end
    with the same fold of the writes over their common state, whatever the function and
    the clocks.  Two nodes that write at the same time end with the two writes merged in
    opposite orders, so that their copies agree only when the merge function does not
    depend on the order. *)
Theorem merges_fold_writes wires ns a b n m s t ws clk ca cb x y :
  wired wires ns → ns !! a = Some n → ns !! b = Some m →
  is_Some (peer_writers n !! b) → is_Some (peer_writers m !! a) →
  sessions n !! id = Some s → sessions m !! id = Some t → state_data s = state_data t →
  merge_fns n !! id = Some f → merge_fns m !! id = Some f →
  (∃ n' eff m' eff', write_seq Release id ws n = Ret (n', eff) ∧
     run_control_loop Release (pair clk <$> inbox b (deliveries wires eff)) m = Ret (m', eff') ∧
     get_session_state id n' = Some (foldl g (state_data s) ws.*2) ∧
     get_session_state id m' = Some (foldl g (state_data s) ws.*2)) ∧
  (∃ n1 effn m1 effm n' en m' em,
     sync_session_state Release ca id x n = Ret (n1, Ok effn) ∧
     sync_session_state Release cb id y m = Ret (m1, Ok effm) ∧
     run_control_loop Release (pair clk <$> inbox a (deliveries wires effm)) n1 = Ret (n', en) ∧
     run_control_loop Release (pair clk <$> inbox b (deliveries wires effn)) m1 = Ret (m', em) ∧
     get_session_state id n' = Some (g (g (state_data s) x) y) ∧
     get_session_state id m' = Some (g (g (state_data s) y) x)).
Proof.
  intros. split; [by eapply ordered_writes_fold|by eapply concurrent_writes_merge].
Qed.
End agree.
End merge.
