(* ===== verification/KeepAlive.v ===== *)
(** * The keep-alive pool

    [stric-core/src/keep_alive.rs]: a manager task distributes streams over worker
    tasks, a worker pings its streams, and a worker with few streams hands them back
    and exits.

    A [Pool] is the state of all the tasks together.  Each channel is a queue (its
    bound of 100, at which a sender waits, is not modelled); a [WorkerHandle] is the
    worker's number, through which the manager reaches the worker's channel and its
    shared counter.  A step of a task runs from one await point to the next, so
    steps of different tasks interleave as they do between awaits. *)
From S2P Require Import Prelude Reconciliation.
From stdpp Require Import options.

Section pool.
Context {Stream : Type}.

Record ManagedStream := mkManaged {
  stream : Stream;
  interval : Duration;
  last_ping : Instant;
}.

Inductive PoolCommand :=
| PoolAddStream (s : Stream) (interval : Duration)
| WorkerUnderloaded (worker_id : N) (streams : list ManagedStream)
| WorkerDropped (worker_id : N).

Inductive WorkerCommand :=
| AddStream (s : ManagedStream)
| Drain
| Shutdown.

(** Where a worker task is: in its loop, about to send [WorkerUnderloaded] with its
    streams, about to send [WorkerDropped], or gone (its receiver is dropped). *)
Inductive phase :=
| Looping
| HandingOff (streams : list ManagedStream)
| Leaving
| Gone.

Record KeepAliveWorker := mkWorker {
  streams : list ManagedStream;
  receiver : list WorkerCommand;
  count : N;
  local_count : N;
  at_phase : phase;
}.

Record Pool := mkPool {
  limit : N;
  commands : list PoolCommand;
  workers : list N;
  next_worker_id : N;
  tasks : gmap N KeepAliveWorker;
}.

Definition new_pool (limit : N) : Pool := mkPool limit [] [] 0 ∅.

Definition with_commands (c : list PoolCommand) (p : Pool) : Pool :=
  mkPool (limit p) c (workers p) (next_worker_id p) (tasks p).

Definition with_task (k : N) (w : KeepAliveWorker) (p : Pool) : Pool :=
  mkPool (limit p) (commands p) (workers p) (next_worker_id p) (<[k := w]> (tasks p)).

(** [KeepAlivePool::add_stream]. *)
Definition add_stream (s : Stream) (i : Duration) (p : Pool) : Pool :=
  with_commands (commands p ++ [PoolAddStream s i]) p.

(** ** The manager *)

(** [self.limit == 0 || (count as u64) < self.limit]. *)
Definition has_capacity (p : Pool) (k : N) : bool :=
  (limit p =? 0)%N ||
  match tasks p !! k with
  | Some w => (count w <? limit p)%N
  | None => false
  end.

(** Sending on a worker's channel fails when the receiver is dropped. *)
Definition send_worker (k : N) (c : WorkerCommand) (p : Pool) : option Pool :=
  match tasks p !! k with
  | Some w =>
      match at_phase w with
      | Gone => None
      | ph => Some (with_task k (mkWorker (streams w) (receiver w ++ [c]) (count w)
                (local_count w) ph) p)
      end
  | None => None
  end.

Definition spawn_worker (s : ManagedStream) (p : Pool) : Pool :=
  let worker_id := next_worker_id p in
  mkPool (limit p) (commands p) (workers p ++ [worker_id]) (worker_id + 1)
    (<[worker_id := mkWorker [s] [] 1 1 Looping]> (tasks p)).

Definition handle_add_stream (s : ManagedStream) (p : Pool) : Pool :=
  match list_find (λ k, has_capacity p k = true) (workers p) with
  | Some (_, k) =>
      match send_worker k (AddStream s) p with
      | Some p => p
      | None => spawn_worker s p
      end
  | None => spawn_worker s p
  end.

Definition remove_worker (k : N) (p : Pool) : Pool :=
  mkPool (limit p) (commands p) (filter (λ k', k' ≠ k) (workers p)) (next_worker_id p) (tasks p).

Definition handle_underloaded (k : N) (ss : list ManagedStream) (p : Pool) : Pool :=
  foldl (λ p s, handle_add_stream s p) (remove_worker k p) ss.

(** One iteration of [PoolManager::run]. *)
Definition manager_step (now : Instant) (p : Pool) : option Pool :=
  match commands p with
  | [] => None
  | cmd :: rest =>
      let p := with_commands rest p in
      Some match cmd with
           | PoolAddStream s i => handle_add_stream (mkManaged s i now) p
           | WorkerUnderloaded k ss => handle_underloaded k ss p
           | WorkerDropped k => remove_worker k p
           end
  end.

(** ** The workers *)

Definition update_counts (w : KeepAliveWorker) : KeepAliveWorker :=
  let n := N.of_nat (length (streams w)) in
  mkWorker (streams w) (receiver w) n n (at_phase w).

(** The branch of the [select!] that receives.  With an empty queue [recv] returns
    [None] once the manager has dropped the worker's handle. *)
Definition worker_recv (k : N) (p : Pool) : option Pool :=
  match tasks p !! k with
  | Some w =>
      match at_phase w, receiver w with
      | Looping, AddStream s :: rest =>
          Some (with_task k (update_counts (mkWorker (streams w ++ [s]) rest (count w)
            (local_count w) Looping)) p)
      | Looping, (Drain | Shutdown) :: rest =>
          Some (with_task k (mkWorker (streams w) rest (count w) (local_count w) Leaving) p)
      | Looping, [] =>
          if decide (k ∈ workers p) then None
          else Some (with_task k (mkWorker (streams w) [] (count w) (local_count w) Leaving) p)
      | _, _ => None
      end
  | None => None
  end.

Definition due (now : Instant) (s : ManagedStream) : bool :=
  (interval s <=? now - last_ping s)%N.

(** The loop over the streams: [write_ok] tells on which streams writing works.
    [remove(i)] does not advance [i]. *)
Fixpoint ping_loop (fuel : nat) (now : Instant) (write_ok : Stream → bool) (i : nat)
    (ss : list ManagedStream) (changed : bool) : outcome (list ManagedStream * bool) :=
  match fuel with
  | O => OutOfFuel
  | S fuel' =>
      match ss !! i with
      | None => Ret (ss, changed)
      | Some s =>
          if due now s then
            if write_ok (stream s)
            then ping_loop fuel' now write_ok (S i)
                   (<[i := mkManaged (stream s) (interval s) now]> ss) changed
            else ping_loop fuel' now write_ok i (delete i ss) true
          else ping_loop fuel' now write_ok (S i) ss changed
      end
  end.

(** The branch of the [select!] for a tick of the timer. *)
Definition worker_tick (k : N) (now : Instant) (write_ok : Stream → bool) (p : Pool) :
    outcome (option Pool) :=
  match tasks p !! k with
  | Some w =>
      match at_phase w with
      | Looping =>
          '(ss, changed) ← ping_loop (S (length (streams w))) now write_ok 0 (streams w) false;
          let w := mkWorker ss (receiver w) (count w) (local_count w) Looping in
          let w := if changed : bool then update_counts w else w in
          if (0 <? limit p)%N && (0 <? local_count w)%N && (local_count w <? limit p / 2)%N
          then Ret (Some (with_task k
                 (update_counts (mkWorker [] (receiver w) (count w) (local_count w)
                    (HandingOff (streams w)))) p))
          else Ret (Some (with_task k w p))
      | _ => Ret None
      end
  | None => Ret None
  end.

(** The last message of a worker; the worker, its queue and its streams are then
    dropped. *)
Definition worker_exit (k : N) (p : Pool) : option Pool :=
  match tasks p !! k with
  | Some w =>
      let gone := mkWorker [] [] (count w) (local_count w) Gone in
      match at_phase w with
      | HandingOff ss =>
          Some (with_commands (commands p ++ [WorkerUnderloaded k ss]) (with_task k gone p))
      | Leaving => Some (with_commands (commands p ++ [WorkerDropped k]) (with_task k gone p))
      | _ => None
      end
  | None => None
  end.

(** ** The streams in the pool *)

Definition command_streams (c : PoolCommand) : list Stream :=
  match c with
  | PoolAddStream s _ => [s]
  | WorkerUnderloaded _ ss => stream <$> ss
  | WorkerDropped _ => []
  end.

Definition queued (w : KeepAliveWorker) : list Stream :=
  omap (λ c, match c with AddStream s => Some (stream s) | _ => None end) (receiver w).

Definition handing (w : KeepAliveWorker) : list Stream :=
  match at_phase w with HandingOff ss => stream <$> ss | _ => [] end.

Definition worker_streams (w : KeepAliveWorker) : list Stream :=
  (stream <$> streams w) ++ queued w ++ handing w.

Definition all_streams (p : Pool) : list Stream :=
  (commands p ≫= command_streams) ++ (map_to_list (tasks p) ≫= λ kw, worker_streams kw.2).

(** The streams of a worker whose ping fails. *)
Definition failed (now : Instant) (write_ok : Stream → bool) (ss : list ManagedStream) :
    list Stream :=
  stream <$> filter (λ s, due now s && negb (write_ok (stream s)) = true) ss.

(** A step, with the streams it adds to the pool and those it drops: those whose ping
    fails, and what an exiting worker still holds. *)
Inductive pool_step : Pool → list Stream → list Stream → Pool → Prop :=
| step_add s i p : pool_step p [s] [] (add_stream s i p)
| step_manager now p p' : manager_step now p = Some p' → pool_step p [] [] p'
| step_recv k p p' : worker_recv k p = Some p' → pool_step p [] [] p'
| step_tick k now write_ok p w p' :
    tasks p !! k = Some w → worker_tick k now write_ok p = Ret (Some p') →
    pool_step p [] (failed now write_ok (streams w)) p'
| step_exit k p w p' :
    tasks p !! k = Some w → worker_exit k p = Some p' →
    pool_step p [] ((stream <$> streams w) ++ queued w) p'.

Inductive pool_run : Pool → list Stream → list Stream → Pool → Prop :=
| run_nil p : pool_run p [] [] p
| run_step p1 added1 lost1 p2 added2 lost2 p3 :
    pool_step p1 added1 lost1 p2 → pool_run p2 added2 lost2 p3 →
    pool_run p1 (added1 ++ added2) (lost1 ++ lost2) p3.

(** Worker numbers are fresh, the manager's workers exist, and a worker's counters
    are the number of streams it holds. *)
Record pool_wf (p : Pool) : Prop := {
  pw_fresh k w : tasks p !! k = Some w → (k < next_worker_id p)%N;
  pw_workers k : k ∈ workers p → is_Some (tasks p !! k);
  pw_counts k w : tasks p !! k = Some w → at_phase w = Looping →
    local_count w = N.of_nat (length (streams w)) ∧ count w = local_count w;
}.
End pool.
