(* ===== verification/KeepAliveFacts.v ===== *)
(** * Facts about the keep-alive pool

    The ping loop, the pool's invariant and the accounting of its streams over all
    interleavings, and two runs that do not keep streams alive as intended. *)
From S2P Require Import Prelude Reconciliation KeepAlive.
From stdpp Require Import options.

Section facts.
Context {Stream : Type}.
Implicit Types (p : Pool (Stream := Stream)) (w : KeepAliveWorker (Stream := Stream)).

(** ** The ping loop *)

Definition after_ping (now : Instant) (write_ok : Stream → bool)
    (s : ManagedStream (Stream := Stream)) : option ManagedStream :=
  if due now s then
    if write_ok (stream s) then Some (mkManaged (stream s) (interval s) now) else None
  else Some s.

Definition ping_fails (now : Instant) (write_ok : Stream → bool)
    (s : ManagedStream (Stream := Stream)) : bool := due now s && negb (write_ok (stream s)).

Lemma ping_loop_from now write_ok fuel pre ss changed :
  length ss < fuel →
  ping_loop fuel now write_ok (length pre) (pre ++ ss) changed =
    Ret (pre ++ omap (after_ping now write_ok) ss,
         changed || existsb (ping_fails now write_ok) ss).
Proof.
  revert pre ss changed. induction fuel as [|fuel IH]; intros pre ss changed Hf; [lia|].
  destruct ss as [|s ss]; cbn [ping_loop].
  { rewrite app_nil_r, lookup_ge_None_2 by lia. simpl.
    by rewrite app_nil_r, orb_false_r. }
  rewrite list_lookup_middle by done. simpl in Hf.
  change (omap (after_ping now write_ok) (s :: ss)) with
    (match after_ping now write_ok s with
     | Some s' => s' :: omap (after_ping now write_ok) ss
     | None => omap (after_ping now write_ok) ss end).
  cbn [existsb]. unfold after_ping at 1, ping_fails at 1.
  assert (∀ s' c, ping_loop fuel now write_ok (S (length pre)) (pre ++ s' :: ss) c =
    Ret (pre ++ s' :: omap (after_ping now write_ok) ss,
         c || existsb (ping_fails now write_ok) ss)) as Hnext.
  { intros s' c. specialize (IH (pre ++ [s']) ss c ltac:(lia)).
    rewrite length_app, Nat.add_1_r in IH. rewrite <- !app_assoc in IH. exact IH. }
  destruct (due now s); [destruct (write_ok (stream s))|]; simpl.
  - by rewrite insert_app_r_alt, Nat.sub_diag by lia; simpl; rewrite Hnext.
  - rewrite delete_middle, IH by lia. by rewrite orb_true_r.
  - by rewrite Hnext.
Qed.

Lemma ping_loop_spec now write_ok ss :
  ping_loop (S (length ss)) now write_ok 0 ss false =
    Ret (omap (after_ping now write_ok) ss, existsb (ping_fails now write_ok) ss).
Proof. apply (ping_loop_from now write_ok _ [] ss false). lia. Qed.

(** ** Accounting for streams *)

(** Replacing a task trades its streams for those of the new one. *)
Lemma tasks_update (t : gmap N (KeepAliveWorker (Stream := Stream))) k w w' :
  t !! k = Some w →
  (map_to_list (<[k := w']> t) ≫= λ kw, worker_streams kw.2) ++ worker_streams w ≡ₚ
  (map_to_list t ≫= λ kw, worker_streams kw.2) ++ worker_streams w'.
Proof.
  intros Hk. rewrite <- (insert_delete_id t k w Hk) at 2. rewrite <- insert_delete_eq.
  rewrite !map_to_list_insert by apply lookup_delete_eq. simpl.
  solve_Permutation.
Qed.

Lemma tasks_spawn (t : gmap N (KeepAliveWorker (Stream := Stream))) k w :
  t !! k = None →
  (map_to_list (<[k := w]> t) ≫= λ kw, worker_streams kw.2) ≡ₚ
  worker_streams w ++ (map_to_list t ≫= λ kw, worker_streams kw.2).
Proof. intros Hk. by rewrite map_to_list_insert. Qed.

Lemma with_task_streams p k w w' lost :
  tasks p !! k = Some w → worker_streams w ≡ₚ worker_streams w' ++ lost →
  all_streams (with_task k w' p) ++ lost ≡ₚ all_streams p.
Proof.
  intros Hk Hw. unfold all_streams. cbn [commands tasks with_task].
  rewrite <- app_assoc. apply Permutation_app_head.
  pose proof (tasks_update (tasks p) k w w' Hk) as Hu. rewrite Hw in Hu.
  rewrite (Permutation_app_comm (worker_streams w') lost), app_assoc in Hu.
  by apply Permutation_app_inv_r in Hu.
Qed.

(** ** The manager *)

Lemma queued_snoc ss (q : list (WorkerCommand (Stream := Stream))) s c l ph :
  worker_streams (mkWorker ss (q ++ [AddStream s]) c l ph) ≡ₚ
  stream s :: worker_streams (mkWorker ss q c l ph).
Proof.
  unfold worker_streams, queued, handing. simpl. rewrite omap_app. simpl. solve_Permutation.
Qed.

Lemma spawn_streams s p :
  pool_wf p → all_streams (spawn_worker s p) ≡ₚ stream s :: all_streams p.
Proof.
  intros Hp. unfold all_streams. cbn [commands tasks spawn_worker].
  rewrite tasks_spawn; [|].
  - unfold worker_streams at 1. simpl. solve_Permutation.
  - destruct (tasks p !! next_worker_id p) as [w|] eqn:E; [|done].
    apply (pw_fresh p Hp) in E. lia.
Qed.

Lemma spawn_wf s p : pool_wf p → pool_wf (spawn_worker s p).
Proof.
  intros [Hf Hw Hc]. split; simpl.
  - intros k w [(<- & _)|(_ & Hk)]%lookup_insert_Some; [lia|]. apply Hf in Hk. lia.
  - intros k [Hk| ->%list_elem_of_singleton]%elem_of_app.
    + destruct (Hw k Hk) as [w ?]. rewrite lookup_insert. case_decide; by eexists.
    + rewrite lookup_insert_eq. by eexists.
  - intros k w [(_ & <-)|(_ & Hk)]%lookup_insert_Some; [done|]. by eapply Hc.
Qed.

(** Replacing a task keeps the pool well-formed if the new one counts its streams. *)
Lemma with_task_wf k w w' p :
  pool_wf p → tasks p !! k = Some w →
  (at_phase w' = Looping →
    local_count w' = N.of_nat (length (streams w')) ∧ count w' = local_count w') →
  pool_wf (with_task k w' p).
Proof.
  intros [Hf Hw Hc] Hk Hw'. split; simpl.
  - intros k' v [(<- & _)|(_ & Hv)]%lookup_insert_Some; by eapply Hf.
  - intros k' Hk'. rewrite lookup_insert. case_decide; [by eexists|by apply Hw].
  - intros k' v [(_ & <-)|(_ & Hv)]%lookup_insert_Some; [done|]. by eapply Hc.
Qed.

Lemma send_worker_spec k s p p' :
  pool_wf p → send_worker k (AddStream s) p = Some p' →
  pool_wf p' ∧ all_streams p' ≡ₚ stream s :: all_streams p ∧ limit p' = limit p.
Proof.
  intros Hp. unfold send_worker. destruct (tasks p !! k) as [w|] eqn:Hk; [|done].
  intros Hs. assert (p' = with_task k (mkWorker (streams w) (receiver w ++ [AddStream s])
    (count w) (local_count w) (at_phase w)) p) as -> by (destruct (at_phase w); congruence).
  split_and!; [|clear Hs|done].
  - apply (with_task_wf k w); [done..|]. apply (pw_counts p Hp k w Hk).
  - unfold all_streams. cbn [commands tasks with_task].
    pose proof (tasks_update (tasks p) k w (mkWorker (streams w) (receiver w ++ [AddStream s])
      (count w) (local_count w) (at_phase w)) Hk) as Hu.
    rewrite queued_snoc in Hu. destruct w as [ss q c l ph]. cbn [streams receiver count local_count at_phase] in *.
    rewrite (Permutation_app_comm _ (stream s :: _)) in Hu. cbn [app] in Hu.
    rewrite (Permutation_app_comm (worker_streams _)), app_comm_cons in Hu.
    apply Permutation_app_inv_r in Hu. rewrite Hu. solve_Permutation.
Qed.

Lemma handle_add_stream_spec s p :
  pool_wf p →
  pool_wf (handle_add_stream s p) ∧
  all_streams (handle_add_stream s p) ≡ₚ stream s :: all_streams p ∧
  limit (handle_add_stream s p) = limit p.
Proof.
  intros Hp. unfold handle_add_stream.
  assert (pool_wf (spawn_worker s p) ∧ all_streams (spawn_worker s p) ≡ₚ stream s :: all_streams p ∧
    limit (spawn_worker s p) = limit p) as Hspawn.
  { split_and!; [by apply spawn_wf|by apply spawn_streams|done]. }
  destruct (list_find _ _) as [[i k]|]; [|done].
  destruct (send_worker k (AddStream s) p) as [p'|] eqn:E; [|done].
  by apply (send_worker_spec k).
Qed.

Lemma remove_worker_wf k p : pool_wf p → pool_wf (remove_worker k p).
Proof.
  intros [Hf Hw Hc]. split; [done| |done]. intros k' Hk'. apply Hw.
  simpl in Hk'. by apply list_elem_of_filter in Hk' as [_ ?].
Qed.

Lemma redistribute_spec ss p :
  pool_wf p →
  pool_wf (foldl (λ p s, handle_add_stream s p) p ss) ∧
  all_streams (foldl (λ p s, handle_add_stream s p) p ss) ≡ₚ (stream <$> ss) ++ all_streams p.
Proof.
  revert p. induction ss as [|s ss IH]; intros p Hp; [done|].
  destruct (handle_add_stream_spec s p Hp) as (Hp' & Hs & _). simpl.
  destruct (IH _ Hp') as [H1 H2]. split; [done|]. rewrite H2, Hs. solve_Permutation.
Qed.

Lemma with_commands_wf c p : pool_wf p → pool_wf (with_commands c p).
Proof. by intros [Hf Hw Hc]. Qed.

#[local] Hint Resolve spawn_wf spawn_streams remove_worker_wf with_commands_wf : stric.

Lemma manager_step_spec now p p' :
  pool_wf p → manager_step now p = Some p' →
  pool_wf p' ∧ all_streams p' ≡ₚ all_streams p.
Proof.
  intros Hp. unfold manager_step. destruct (commands p) as [|cmd rest] eqn:Ec; [done|].
  intros [= <-]. assert (pool_wf (with_commands rest p)) as Hp' by eauto with stric.
  assert (all_streams p = command_streams cmd ++ all_streams (with_commands rest p)) as ->.
  { unfold all_streams at 1. rewrite Ec. simpl. by rewrite <- app_assoc. }
  destruct cmd as [s i|k ss|k]; simpl.
  - destruct (handle_add_stream_spec (mkManaged s i now) _ Hp') as (? & ? & _). done.
  - unfold handle_underloaded. apply (redistribute_spec ss (remove_worker k (with_commands rest p))).
    eauto with stric.
  - split; [eauto with stric|done].
Qed.

(** ** The workers *)

Lemma after_ping_streams now write_ok ss :
  stream <$> ss ≡ₚ (stream <$> omap (after_ping now write_ok) ss) ++ failed now write_ok ss.
Proof.
  unfold failed. induction ss as [|s ss IH]; [done|]. simpl. rewrite filter_cons.
  unfold after_ping at 1. destruct (due now s), (write_ok (stream s)); simpl;
    rewrite IH; solve_Permutation.
Qed.

Lemma after_ping_length now write_ok ss :
  existsb (ping_fails now write_ok) ss = false →
  length (omap (after_ping now write_ok) ss) = length ss.
Proof.
  induction ss as [|s ss IH]; [done|]. simpl. intros [Hs Hss]%orb_false_iff.
  unfold ping_fails in Hs. unfold after_ping at 1.
  destruct (due now s), (write_ok (stream s)); simpl in *; try done; f_equal; by apply IH.
Qed.

(** Whether a worker with [n] streams hands them back. *)
Definition underloaded (limit n : N) : bool :=
  ((0 <? limit) && (0 <? n) && (n <? limit / 2))%N.

Lemma worker_tick_spec k now write_ok p w :
  pool_wf p → tasks p !! k = Some w → at_phase w = Looping →
  let kept := omap (after_ping now write_ok) (streams w) in
  let n := N.of_nat (length kept) in
  worker_tick k now write_ok p = Ret (Some (with_task k
    (if underloaded (limit p) n
     then mkWorker [] (receiver w) 0 0 (HandingOff kept)
     else mkWorker kept (receiver w) n n Looping) p)).
Proof.
  intros Hp Hk Hl kept n. unfold worker_tick. rewrite Hk, Hl, ping_loop_spec. simpl.
  destruct (pw_counts p Hp k w Hk Hl) as [Hlc Hc]. unfold underloaded.
  assert ((if existsb (ping_fails now write_ok) (streams w)
    then update_counts (mkWorker kept (receiver w) (count w) (local_count w) Looping)
    else mkWorker kept (receiver w) (count w) (local_count w) Looping) =
    mkWorker kept (receiver w) n n Looping) as Hw.
  { destruct (existsb _ _) eqn:E; [done|]. rewrite Hc, Hlc.
    unfold n, kept. by rewrite (after_ping_length now write_ok) by done. }
  fold kept. rewrite Hw. cbn [local_count receiver streams count].
  by destruct (_ && _ && _).
Qed.


Lemma worker_tick_eq k now write_ok p w p' :
  pool_wf p → tasks p !! k = Some w → worker_tick k now write_ok p = Ret (Some p') →
  ∃ w', p' = with_task k w' p ∧
    worker_streams w ≡ₚ worker_streams w' ++ failed now write_ok (streams w) ∧
    (at_phase w' = Looping →
      local_count w' = N.of_nat (length (streams w')) ∧ count w' = local_count w').
Proof.
  intros Hp Hk Ht. destruct (at_phase w) eqn:Hl;
    try (unfold worker_tick in Ht; rewrite Hk, Hl in Ht; done).
  rewrite (worker_tick_spec k now write_ok p w) in Ht by done. injection Ht as <-.
  eexists. split; [done|]. pose proof (after_ping_streams now write_ok (streams w)) as Hs.
  unfold worker_streams, queued, handing. rewrite Hl, Hs.
  destruct (underloaded _ _); (split; [|done]); simpl; solve_Permutation.
Qed.

Lemma worker_recv_spec k p p' :
  pool_wf p → worker_recv k p = Some p' → pool_wf p' ∧ all_streams p' ≡ₚ all_streams p.
Proof.
  intros Hp. unfold worker_recv. destruct (tasks p !! k) as [w|] eqn:Hk; [|done].
  destruct w as [ss q c l ph]. cbn [at_phase receiver streams count local_count].
  assert (∀ w', (at_phase w' = Looping →
      local_count w' = N.of_nat (length (streams w')) ∧ count w' = local_count w') →
    worker_streams (mkWorker ss q c l ph) ≡ₚ worker_streams w' →
    pool_wf (with_task k w' p) ∧ all_streams (with_task k w' p) ≡ₚ all_streams p) as Hgen.
  { intros w' Hc Hs. split; [by eapply with_task_wf|].
    rewrite <- (app_nil_r (all_streams (with_task k w' p))).
    eapply with_task_streams; [done|]. by rewrite app_nil_r. }
  destruct ph; try done.
  destruct q as [|[s| |] q]; [case_decide; [done|]| | |]; intros [= <-]; apply Hgen; try done.
  unfold worker_streams, queued, handing, update_counts. simpl.
  rewrite fmap_app. simpl. solve_Permutation.
Qed.

Lemma worker_exit_spec k p w p' :
  pool_wf p → tasks p !! k = Some w → worker_exit k p = Some p' →
  pool_wf p' ∧ all_streams p' ++ (stream <$> streams w) ++ queued w ≡ₚ all_streams p.
Proof.
  intros Hp Hk. unfold worker_exit. rewrite Hk.
  set (gone := mkWorker [] [] (count w) (local_count w) Gone).
  assert (pool_wf (with_task k gone p)) as Hwf by by eapply with_task_wf.
  pose proof (with_task_streams p k w gone (worker_streams w) Hk ltac:(done)) as Hs.
  unfold worker_streams, handing in Hs.
  destruct (at_phase w) as [|ss| |]; try done; intros [= <-];
    (split; [eauto with stric|]); rewrite <- Hs; unfold all_streams;
    cbn [commands tasks with_commands with_task]; rewrite bind_app; simpl; solve_Permutation.
Qed.

Lemma pool_step_spec p added lost p' :
  pool_wf p → pool_step p added lost p' →
  pool_wf p' ∧ all_streams p' ++ lost ≡ₚ all_streams p ++ added.
Proof.
  intros Hp Hs. destruct Hs as [s i p|now p p' Hm|k p p' Hm|k now ok p w p' Hk Hm|k p w p' Hk Hm].
  - split; [unfold add_stream; eauto with stric|]. unfold all_streams, add_stream. simpl.
    rewrite bind_app. simpl. solve_Permutation.
  - rewrite !app_nil_r. by apply (manager_step_spec now).
  - rewrite !app_nil_r. by apply (worker_recv_spec k).
  - destruct (worker_tick_eq k now ok p w p' Hp Hk Hm) as (w' & -> & Hs & Hc).
    split; [by eapply with_task_wf|]. rewrite app_nil_r. by eapply with_task_streams.
  - rewrite app_nil_r. by apply (worker_exit_spec k).
Qed.

Lemma new_pool_wf limit : pool_wf (new_pool (Stream := Stream) limit).
Proof. split; simpl; [by intros ? ? ?|by intros ? ?%elem_of_nil|by intros ? ? ?]. Qed.

(** C25. The pool neither invents nor duplicates a stream, and accounts for every one:
    in every interleaving of the tasks, the streams in the pool together with those
    dropped (after a failed ping, or with an exiting worker) are exactly the streams
    that were added. *)
Theorem keep_alive_conserves p added lost p' :
  pool_wf p → pool_run p added lost p' →
  pool_wf p' ∧ all_streams p' ++ lost ≡ₚ all_streams p ++ added.
Proof.
  intros Hp Hr. induction Hr as [p|p1 a1 l1 p2 a2 l2 p3 Hs Hr IH].
  - by rewrite !app_nil_r.
  - destruct (pool_step_spec _ _ _ _ Hp Hs) as [Hp2 H1].
    destruct (IH Hp2) as [Hp3 H2]. split; [done|].
    transitivity ((all_streams p3 ++ l2) ++ l1); [solve_Permutation|]. rewrite H2.
    transitivity ((all_streams p2 ++ l1) ++ a2); [solve_Permutation|]. rewrite H1.
    solve_Permutation.
Qed.

(** ** A pool with one stream *)

Record lone (k : N) (s : Stream) p : Prop := {
  lone_worker : workers p = [k];
  lone_commands : commands p = [];
  lone_task : ∃ i t, tasks p !! k = Some (mkWorker [mkManaged s i t] [] 1 1 Looping);
}.

Lemma lone_round k s p now write_ok now' :
  pool_wf p → (4 <= limit p)%N → lone k s p → write_ok s = true →
  ∃ p1 p2 p3,
    worker_tick k now write_ok p = Ret (Some p1) ∧
    worker_exit k p1 = Some p2 ∧ manager_step now' p2 = Some p3 ∧
    (∃ w, tasks p1 !! k = Some w ∧ streams w = [] ∧ queued w = [] ∧ handing w = [s]) ∧
    lone (next_worker_id p) s p3 ∧ limit p3 = limit p ∧
    next_worker_id p3 = (next_worker_id p + 1)%N.
Proof.
  intros Hp Hl [Hw Hc (i & t & Hk)] Hok.
  rewrite (worker_tick_spec k now write_ok p _ Hp Hk eq_refl).
  assert (∃ t', omap (after_ping now write_ok) [mkManaged s i t] = [mkManaged s i t']) as [t' Ho].
  { unfold after_ping. simpl. rewrite Hok. destruct (due _ _); by eexists. }
  cbn [streams receiver]. rewrite Ho. cbn [length].
  replace (underloaded (limit p) (N.of_nat 1)) with true; cycle 1.
  { assert (2 <= limit p / 2)%N as H2 by (apply N.div_le_lower_bound; lia).
    unfold underloaded. symmetry. rewrite !andb_true_iff, !N.ltb_lt. lia. }
  eexists _, _, _. split; [done|].
  split. { unfold worker_exit. cbn [tasks with_task]. by rewrite lookup_insert_eq. }
  split. { unfold manager_step. simpl. rewrite Hc. done. }
  split. { simpl. rewrite lookup_insert_eq. by eexists. }
  assert (filter (λ k', k' ≠ k) (workers p) = []) as Hf.
  { rewrite Hw. rewrite filter_cons_False by naive_solver. done. }
  unfold handle_underloaded. simpl. unfold handle_add_stream. simpl. rewrite Hf. simpl.
  split_and!; try done. split; simpl; rewrite ?Hf; [done..|]. rewrite lookup_insert_eq. by eexists _, _.
Qed.

(** With a limit of four or more, a pool with a single stream never settles: every
    tick of its worker hands the stream back and ends the worker, and the manager
    starts a new worker for it; after any number of rounds that many workers have
    been started, with the same single stream. *)
Lemma lone_stream_respawns k s p rounds :
  pool_wf p → (4 <= limit p)%N → lone k s p →
  (∀ now write_ok, write_ok s = true →
    ∃ p1 w, worker_tick k now write_ok p = Ret (Some p1) ∧ tasks p1 !! k = Some w ∧
      handing w = [s]) ∧
  ∃ k' p', pool_run p [] [] p' ∧ lone k' s p' ∧
    next_worker_id p' = (next_worker_id p + N.of_nat rounds)%N.
Proof.
  intros Hp Hl H1. split.
  { intros now ok Hok. destruct (lone_round k s p now ok 0 Hp Hl H1 Hok)
      as (p1 & ? & ? & ? & ? & ? & (w & ? & ? & ? & ?) & _). by exists p1, w. }
  revert k p Hp Hl H1. induction rounds as [|rounds IH]; intros k p Hp Hl H1.
  { exists k, p. split; [constructor|]. split; [done|lia]. }
  destruct (lone_round k s p 0 (λ _, true) 0 Hp Hl H1 eq_refl)
    as (p1 & p2 & p3 & T & E & M & (w & Hw & Hs & Hq & _) & H3 & Hl3 & Hn).
  destruct (lone_task _ _ _ H1) as (i & t & Hk).
  assert (failed 0 (λ _, true) [mkManaged s i t] = []) as Hf.
  { unfold failed. rewrite filter_cons_False; [done|]. by rewrite andb_false_r. }
  pose proof (step_tick k 0 (λ _, true) p _ p1 Hk T) as S1. cbn [streams] in S1. rewrite Hf in S1.
  pose proof (step_exit k p1 w p2 Hw E) as S2. rewrite Hs, Hq in S2. simpl in S2.
  pose proof (step_manager 0 p2 p3 M) as S3.
  destruct (pool_step_spec _ _ _ _ Hp S1) as [Hp1 _].
  destruct (pool_step_spec _ _ _ _ Hp1 S2) as [Hp2 _].
  destruct (pool_step_spec _ _ _ _ Hp2 S3) as [Hp3 _].
  destruct (IH _ p3 Hp3 ltac:(lia) H3) as (k' & p' & Hr & Hlone & Hn').
  exists k', p'. split; [|split; [done|lia]].
  apply (run_step p [] [] p1 [] [] p' S1), (run_step p1 [] [] p2 [] [] p' S2),
    (run_step p2 [] [] p3 [] [] p' S3), Hr.
Qed.

(** Rebalancing can lose a stream that never failed: with a limit of 4, a stream
    that is queued for a worker when the worker hands its streams back is dropped
    with the worker. *)
Lemma rebalancing_loses_stream (a b : Stream) :
  ∃ p, pool_run (new_pool 4) [a; b] [b] p ∧ commands p = [] ∧ all_streams p = [a].
Proof.
  set (ma := mkManaged a (secs 15) 0). set (mb := mkManaged b (secs 15) 0).
  eexists. split.
  - refine (run_step _ [a] [] _ [b] [b] _ (step_add a (secs 15) _) _).
    refine (run_step _ [b] [] _ [] [b] _ (step_add b (secs 15) _) _).
    refine (run_step _ [] [] _ [] [b] _ (step_manager 0 _ _ _) _); [reflexivity|].
    refine (run_step _ [] [] _ [] [b] _ (step_manager 0 _ _ _) _); [reflexivity|].
    refine (run_step _ [] [] _ [] [b] _ (step_tick 0 0 (λ _, true) _
      (mkWorker [ma] [AddStream mb] 1 1 Looping) _ _ _) _); [reflexivity|reflexivity|].
    refine (run_step _ [] [b] _ [] [] _ (step_exit 0 _
      (mkWorker [] [AddStream mb] 0 0 (HandingOff [ma])) _ _ _) _); [reflexivity|reflexivity|].
    refine (run_step _ [] [] _ [] [] _ (step_manager 0 _ _ _) _); [reflexivity|].
    apply run_nil.
  - split; reflexivity.
Qed.
End facts.

#[export] Hint Resolve spawn_wf remove_worker_wf with_commands_wf new_pool_wf : stric.

(** ** A concrete pool *)

(** A worker with two streams, one of them closed. *)
Definition sample_pool : Pool (Stream := nat) :=
  mkPool 2 [] [0%N] 1 {[0%N := mkWorker [mkManaged 7 10 0; mkManaged 8 50 0] [] 2 2 Looping]}.

Lemma sample_pool_wf : pool_wf sample_pool.
Proof.
  split; simpl.
  - intros k w [<- _]%lookup_singleton_Some. lia.
  - intros k ->%list_elem_of_singleton. rewrite lookup_singleton_eq. by eexists.
  - by intros k w [_ <-]%lookup_singleton_Some.
Qed.


Lemma keep_alive_conserves_witness :
  ∃ p, pool_run (new_pool 4) [1; 2] [2] p ∧ all_streams p ++ [2] ≡ₚ [1; 2].
Proof.
  destruct (rebalancing_loses_stream 1 2) as (p & Hr & _).
  exists p. split; [exact Hr|].
  exact (proj2 (keep_alive_conserves (new_pool 4) [1; 2] [2] p (new_pool_wf 4) Hr)).
Defined.

Lemma lone_stream_respawns_witness :
  let p := spawn_worker (mkManaged 7 10 0) (new_pool (Stream := nat) 4) in
  ∃ k' p', pool_run p [] [] p' ∧ lone k' 7 p' ∧ next_worker_id p' = 101%N.
Proof.
  intros p. apply (lone_stream_respawns 0 7 p 100).
  - exact (spawn_wf (mkManaged 7 10 0) (new_pool 4) (new_pool_wf 4)).
  - simpl. lia.
  - split; [reflexivity|reflexivity|]. exists 10%N, 0%N. reflexivity.
Defined.
