(* ===== verification/Http.v ===== *)
(** * Requests, responses and the router of stric-tower

    [stric-tower/src/http.rs], [handler.rs] and [routing.rs]: the request and response
    types, what handlers may return and extract, the handlers themselves, the router,
    and the conversions to and from the [http] crate's types.

    The [http] crate is the class [HttpCrate] with the documented laws the code relies
    on in [HttpCrateSpec].  Serialisation formats are [Codec]s whose errors are their
    displayed text.  A request body of type [B] is collected by [collect]. *)
From S2P Require Import Prelude Proto Frame.
From Stdlib Require Import Strings.String.
From stdpp Require Import options.

(** ** The [http] crate *)

Class HttpCrate (HeaderName HeaderValue HeaderMap Uri : Type) := {
  hm_new : HeaderMap;
  hm_insert : HeaderName → HeaderValue → HeaderMap → HeaderMap;
  hm_get_all : HeaderMap → HeaderName → list HeaderValue;
  hm_into_iter : HeaderMap → list (option HeaderName * HeaderValue);
  hn_from_bytes : string → option HeaderName;
  hn_from_static : string → HeaderName;
  hn_to_string : HeaderName → string;
  hv_from_str : string → option HeaderValue;
  hv_from_static : string → HeaderValue;
  hv_to_str : HeaderValue → option string;
  uri_parse : string → option Uri;
  uri_default : Uri;
  uri_path : Uri → string;
  sc_from_u16 : N → option N;
}.

(** The entries [into_iter] yields for a name: the name comes with its first value
    only. *)
Definition name_entries {HeaderName HeaderValue : Type} (n : HeaderName)
    (vs : list HeaderValue) : list (option HeaderName * HeaderValue) :=
  match vs with
  | [] => []
  | v :: vs => (Some n, v) :: (pair None <$> vs)
  end.

Class HttpCrateSpec {HeaderName HeaderValue HeaderMap Uri : Type} `{EqDecision HeaderName}
    (H : HttpCrate HeaderName HeaderValue HeaderMap Uri) : Prop := {
  get_all_new n : hm_get_all hm_new n = [];
  get_all_insert n v m n' :
    hm_get_all (hm_insert n v m) n' = if decide (n = n') then [v] else hm_get_all m n';
  into_iter_groups m :
    ∃ ns, NoDup ns ∧ (∀ n, n ∈ ns ↔ hm_get_all m n ≠ []) ∧
      hm_into_iter m = ns ≫= λ n, name_entries n (hm_get_all m n);
  from_bytes_to_string n : hn_from_bytes (hn_to_string n) = Some n;
  from_str_to_str v s : hv_to_str v = Some s → hv_from_str s = Some v;
  default_path : uri_path uri_default = "/";
  from_u16_range s : sc_from_u16 s = if (100 <=? s)%N && (s <? 1000)%N then Some s else None;
}.

Section http.
Context `{HC : HttpCrate HeaderName HeaderValue HeaderMap Uri}.

(** ** Requests and responses *)

Record Request (B : Type) := mkRequest {
  path : string;
  req_headers : HeaderMap;
  req_body : B;
}.
#[global] Arguments mkRequest {B} _ _ _.
#[global] Arguments path {B} _.
#[global] Arguments req_headers {B} _.
#[global] Arguments req_body {B} _.

(** [status] is a [u16]. *)
Record Response (B : Type) := mkResponse {
  status : N;
  res_headers : HeaderMap;
  res_body : B;
}.
#[global] Arguments mkResponse {B} _ _ _.
#[global] Arguments status {B} _.
#[global] Arguments res_headers {B} _.
#[global] Arguments res_body {B} _.

Definition new_response {B} (status : N) (body : B) : Response B := mkResponse status hm_new body.

Definition empty_response (status : N) : Response bytes := mkResponse status hm_new [].

(** [Bytes::from(String)]. *)
Definition text (s : string) : bytes := list_byte_of_string s.

(** ** What handlers return *)

Class IntoResponse (T : Type) := into_response : T → Response bytes.

#[export] Instance response_into : IntoResponse (Response bytes) := λ r, r.

#[export] Instance unit_into : IntoResponse () := λ _, empty_response 200.

#[export] Instance string_into : IntoResponse string := λ s, mkResponse 200 hm_new (text s).

#[export] Instance result_into `{IntoResponse T, IntoResponse E} : IntoResponse (result T E) := λ r,
  match r with
  | Ok t => into_response t
  | Err e => into_response e
  end.

Record Json (T : Type) := mkJson { json_value : T }.
Record Bincode (T : Type) := mkBincode { bincode_value : T }.
Record Protobuf (T : Type) := mkProtobuf { protobuf_value : T }.
Record RawBytes := mkRawBytes { raw_bytes : bytes }.
Record StateOf (T : Type) := mkState { state_value : T }.
#[global] Arguments mkJson {T} _.
#[global] Arguments json_value {T} _.
#[global] Arguments mkBincode {T} _.
#[global] Arguments bincode_value {T} _.
#[global] Arguments mkProtobuf {T} _.
#[global] Arguments protobuf_value {T} _.
#[global] Arguments mkState {T} _.
#[global] Arguments state_value {T} _.

(** A response with a content type, or a 500 with the serialiser's error. *)
Definition encoded_response (content_type error : string) (r : result bytes string) :
    Response bytes :=
  match r with
  | Ok body =>
      mkResponse 200 (hm_insert (hn_from_static "content-type") (hv_from_static content_type) hm_new)
        body
  | Err e => mkResponse 500 hm_new (text (error +:+ e))
  end.

Definition json_into {T} (serde_json : Codec T string) (j : Json T) : Response bytes :=
  encoded_response "application/json" "JSON serialization error: " (encode (json_value j)).

Definition bincode_into {T} (bincode : Codec T string) (b : Bincode T) : Response bytes :=
  encoded_response "application/octet-stream" "Bincode serialization error: "
    (encode (bincode_value b)).

Definition protobuf_into {T} (prost : Codec T string) (p : Protobuf T) : Response bytes :=
  encoded_response "application/x-protobuf" "Protobuf encoding error: " (encode (protobuf_value p)).

Definition raw_bytes_into (r : RawBytes) : Response bytes := mkResponse 200 hm_new (raw_bytes r).

(** ** Extractors *)

Class FromRequest (S B T R : Type) := from_request : Request B → S → result T R.

Section extract.
Context {S B : Type} (collect : B → result bytes string).

(** [req.body.collect().await.map_err(..)?.to_bytes()]. *)
Definition collect_body (req : Request B) : result bytes (Response bytes) :=
  match collect (req_body req) with
  | Ok body => Ok body
  | Err e => Err (mkResponse 500 hm_new (text ("Body collection error: " +:+ e)))
  end.

(** The body decoded, or a 400 with the deserialiser's error. *)
Definition decoded_body {T} (c : Codec T string) (error : string) (req : Request B) :
    result T (Response bytes) :=
  match collect_body req with
  | Err r => Err r
  | Ok body =>
      match decode body with
      | Ok t => Ok t
      | Err e => Err (mkResponse 400 hm_new (text (error +:+ e)))
      end
  end.

Definition json_from {T} (serde_json : Codec T string) :
    FromRequest S B (Json T) (Response bytes) := λ req _,
  match decoded_body serde_json "Invalid JSON: " req with
  | Ok t => Ok (mkJson t)
  | Err r => Err r
  end.

Definition bincode_from {T} (bincode : Codec T string) :
    FromRequest S B (Bincode T) (Response bytes) := λ req _,
  match decoded_body bincode "Invalid Bincode: " req with
  | Ok t => Ok (mkBincode t)
  | Err r => Err r
  end.

Definition protobuf_from {T} (prost : Codec T string) :
    FromRequest S B (Protobuf T) (Response bytes) := λ req _,
  match decoded_body prost "Invalid Protobuf: " req with
  | Ok t => Ok (mkProtobuf t)
  | Err r => Err r
  end.

Definition raw_bytes_from : FromRequest S B RawBytes (Response bytes) := λ req _,
  match collect_body req with
  | Ok body => Ok (mkRawBytes body)
  | Err r => Err r
  end.

Definition state_from {T} (as_ref : S → T) : FromRequest S B (StateOf T) (Response bytes) :=
  λ _ s, Ok (mkState (as_ref s)).
End extract.

(** ** Handlers *)

(** An async function of any number of extracted arguments: [impl_handler!] expands to
    one [Extract] per argument, in order. *)
Inductive Handler (S B : Type) : Type :=
| Run (f : Response bytes)
| Extract (T R : Type) (extract : FromRequest S B T R) (rejection : IntoResponse R)
    (rest : T → Handler S B).
#[global] Arguments Run {S B} _.
#[global] Arguments Extract {S B T R} _ _ _.

(** [Handler::call]: the response, and whether the function ran. *)
Fixpoint handler_call {S B} (h : Handler S B) (req : Request B) (state : S) :
    Response bytes * bool :=
  match h with
  | Run f => (f, true)
  | Extract extract rejection rest =>
      match extract req state with
      | Ok value => handler_call (rest value) req state
      | Err r => (rejection r, false)
      end
  end.

(** ** The router *)

Record Router (S B : Type) := mkRouter {
  routes : gmap string (Handler S B);
  state : S;
}.
#[global] Arguments mkRouter {S B} _ _.
#[global] Arguments routes {S B} _.
#[global] Arguments state {S B} _.

Definition new_router : Router () bytes := mkRouter ∅ ().

Definition route {S B} (path : string) (handler : Handler S B) (r : Router S B) : Router S B :=
  mkRouter (<[path := handler]> (routes r)) (state r).

Definition with_state {S B S2} (s : S2) (r : Router S B) : Router S2 B := mkRouter ∅ s.

Definition router_call {S B} (r : Router S B) (req : Request B) : Response bytes :=
  match routes r !! path req with
  | Some h => (handler_call h req (state r)).1
  | None => empty_response 404
  end.

(** ** Conversions to and from the [http] crate's types *)

Inductive Method := GET | POST.

Record HttpRequest (B : Type) := mkHttpRequest {
  hr_method : Method;
  hr_uri : Uri;
  hr_headers : HeaderMap;
  hr_body : B;
}.
#[global] Arguments mkHttpRequest {B} _ _ _ _.
#[global] Arguments hr_method {B} _.
#[global] Arguments hr_uri {B} _.
#[global] Arguments hr_headers {B} _.
#[global] Arguments hr_body {B} _.

(** [http::Response], with the status code as a number. *)
Record HttpResponse (B : Type) := mkHttpResponse {
  hs_status : N;
  hs_headers : HeaderMap;
  hs_body : B;
}.
#[global] Arguments mkHttpResponse {B} _ _ _.
#[global] Arguments hs_status {B} _.
#[global] Arguments hs_headers {B} _.
#[global] Arguments hs_body {B} _.

Definition request_to_http {B} (r : Request B) : HttpRequest B :=
  mkHttpRequest POST (default uri_default (uri_parse (path r))) (req_headers r) (req_body r).

Definition request_of_http {B} (r : HttpRequest B) : Request B :=
  mkRequest (uri_path (hr_uri r)) (hr_headers r) (hr_body r).

Definition response_to_http {B} (r : Response B) : HttpResponse B :=
  mkHttpResponse (default 500%N (sc_from_u16 (status r))) (res_headers r) (res_body r).

Definition response_of_http {B} (r : HttpResponse B) : Response B :=
  mkResponse (hs_status r) (hs_headers r) (hs_body r).
End http.
