(* ===== verification/HttpTests.v ===== *)
(** * The unit tests of stric-tower

    The test functions inside [stric-tower/src/http.rs], as programs over the model: an
    [assert!] that fails panics.  serde_json is a codec, and the [http] crate any
    implementation with its documented laws. *)
From S2P Require Import Prelude Proto Frame Http.
From Stdlib Require Strings.String.
From stdpp Require Import options.

Section tests.
Context `{HC : HttpCrate HeaderName HeaderValue HeaderMap Uri}.

Abbreviation Request := (Request (HeaderMap := HeaderMap) bytes).
Abbreviation Response := (Response (HeaderMap := HeaderMap) bytes).

Record Payload := mkPayload { payload_value : string }.

#[export] Instance payload_eq : EqDecision Payload.
Proof. solve_decision. Defined.

Record AppState := mkAppState { app_state : string }.

Definition app_state_as_ref (s : AppState) : string := app_state s.

(** [headers[name]], which panics when there is no such header, against a text. *)
Definition assert_header (headers : HeaderMap) (name value : string) : outcome () :=
  match hm_get_all headers (hn_from_static name) with
  | v :: _ => assert (bool_decide (hv_to_str v = Some value))
  | [] => Panic
  end.

Definition string_into_response_uses_ok_status_and_utf8_body : outcome () :=
  let response : Response := into_response "hello" in
  _ ← assert (status response =? 200)%N;
  assert (bool_decide (res_body response = text "hello")).

Definition request_and_http_request_round_trip_preserves_path_and_headers : outcome () :=
  let headers := hm_insert (hn_from_static "x-test") (hv_from_static "present") hm_new in
  let request : Request := mkRequest "/hello" headers (text "payload") in
  let http_request := request_to_http request in
  _ ← assert (match hr_method http_request with POST => true | GET => false end);
  _ ← assert (bool_decide (uri_path (hr_uri http_request) = "/hello"));
  _ ← assert_header (hr_headers http_request) "x-test" "present";
  let round_tripped := request_of_http http_request in
  _ ← assert (bool_decide (path round_tripped = "/hello"));
  assert_header (req_headers round_tripped) "x-test" "present".

Definition invalid_response_status_defaults_to_internal_server_error : outcome () :=
  let response : Response := new_response 42 (text "bad") in
  assert (hs_status (response_to_http response) =? 500)%N.

Section json.
Context (serde_json : Codec Payload string).

Definition json_into_response_sets_content_type_and_serializes_body : outcome () :=
  let response : Response := json_into serde_json (mkJson (mkPayload "ok")) in
  _ ← assert (status response =? 200)%N;
  _ ← assert_header (res_headers response) "content-type" "application/json";
  match decode (T := Payload) (res_body response) with
  | Err _ => Panic
  | Ok decoded => assert (bool_decide (decoded = mkPayload "ok"))
  end.

(** [contains]. *)
Definition contains (pattern s : string) : bool :=
  match String.index 0 pattern s with Some _ => true | None => false end.

Definition invalid_json_extractor_returns_bad_request : outcome () :=
  let request : Request := mkRequest "/json" hm_new (text "{not-json") in
  match json_from Ok serde_json request () with
  | Ok _ => Panic
  | Err rejection =>
      _ ← assert (status rejection =? 400)%N;
      let body_text := String.string_of_list_byte (res_body rejection) in
      assert (contains "Invalid JSON" body_text)
  end.
End json.

Definition state_extractor_clones_from_router_state : outcome () :=
  let request : Request := mkRequest "/state" hm_new [] in
  match state_from app_state_as_ref request (mkAppState "shared") with
  | Err _ => Panic
  | Ok extracted => assert (bool_decide (state_value extracted = "shared"))
  end.

(** ** They pass *)

Lemma index_prefix a s : String.prefix a s = true → contains a s = true.
Proof.
  intros Hp. unfold contains. destruct s as [|c s].
  - by destruct a.
  - cbn [String.index]. by rewrite Hp.
Qed.

Context `{EqDecision HeaderName} `{HS : !HttpCrateSpec HC}.

Lemma http_tests_pass (serde_json : Codec Payload string) u body e :
  CodecSpec serde_json →
  hv_to_str (hv_from_static "present") = Some "present" →
  hv_to_str (hv_from_static "application/json") = Some "application/json" →
  uri_parse "/hello" = Some u → uri_path u = "/hello" →
  encode (mkPayload "ok") = Ok body → decode (T := Payload) (text "{not-json") = Err e →
  string_into_response_uses_ok_status_and_utf8_body = Ret () ∧
  request_and_http_request_round_trip_preserves_path_and_headers = Ret () ∧
  invalid_response_status_defaults_to_internal_server_error = Ret () ∧
  json_into_response_sets_content_type_and_serializes_body serde_json = Ret () ∧
  invalid_json_extractor_returns_bad_request serde_json = Ret () ∧
  state_extractor_clones_from_router_state = Ret ().
Proof using HS.
  intros HJ Hv1 Hv2 Hu Hp Hok Hbad. split_and!.
  - reflexivity.
  - unfold request_and_http_request_round_trip_preserves_path_and_headers, assert_header,
      request_of_http, request_to_http. simpl. rewrite Hu. simpl.
    rewrite get_all_insert, decide_True by done. rewrite Hv1, Hp. reflexivity.
  - unfold invalid_response_status_defaults_to_internal_server_error, response_to_http. simpl.
    by rewrite from_u16_range.
  - unfold json_into_response_sets_content_type_and_serializes_body, json_into, assert_header. simpl.
    rewrite Hok. simpl. rewrite get_all_insert, decide_True, Hv2 by done. simpl.
    by rewrite (decode_encode _ _ Hok).
  - unfold invalid_json_extractor_returns_bad_request, json_from, decoded_body, collect_body.
    cbn [req_body]. rewrite Hbad. cbn [status res_body mbind outcome_bind]. unfold text.
    rewrite String.string_of_list_byte_of_string, (index_prefix "Invalid JSON"); [done|].
    change ("Invalid JSON: " +:+ e) with ("Invalid JSON" +:+ ": " +:+ e).
    apply prefix_append. by eexists.
  - reflexivity.
Qed.
End tests.
