(* ===== verification/Tower.v ===== *)
(** * Serving and sending requests

    [stric-tower/src/server.rs], [client.rs], [adapter.rs] and [error.rs]: one
    request-response exchange on a bidirectional stream, from both sides, and the
    adapter that puts middleware for the [http] crate around a service.

    The envelopes of [wire.proto] go through [encode_message] and [decode_message] of
    [Frame].  A side of a stream is what it reads (bytes) and what it writes (a
    [Writer]); a service is its [ready] and its [call]. *)
From S2P Require Import Prelude Proto Frame Http.
From stdpp Require Import options.

Inductive TowerError :=
| TIo (e : string)
| TWrite
| TRead (e : string)
| TReadExact
| TConnection (e : string)
| TClosed
| TCodec (e : string)
| TProstDecode (e : string)
| TProstEncode (e : string)
| TBincode (e : string)
| TService (e : string)
| TAnyhow (e : string)
| TInternal (e : string)
| TUnknown.

(** The [From] conversions at the [?]s of the envelope functions. *)
Definition read_error (e : FrameError string) : TowerError :=
  match e with
  | Io _ => TReadExact
  | TooLarge _ => TUnknown
  | CodecError e => TProstDecode e
  end.

Definition write_error (e : FrameError string) : TowerError :=
  match e with
  | Io _ => TWrite
  | TooLarge _ => TUnknown
  | CodecError e => TProstEncode e
  end.

(** ** Wire messages *)

Record RequestEnvelope := mkRequestEnvelope {
  re_path : string;
  re_headers : gmap string string;
  re_payload : bytes;
}.

Record ResponseEnvelope := mkResponseEnvelope {
  rs_status_code : N;
  rs_headers : gmap string string;
  rs_payload : bytes;
}.

Section tower.
Context `{HC : HttpCrate HeaderName HeaderValue HeaderMap Uri} `{HO : HashOrder}.
Context {RC : Codec RequestEnvelope string} {SC : Codec ResponseEnvelope string}.

Abbreviation Request := (Request (HeaderMap := HeaderMap)).
Abbreviation Response := (Response (HeaderMap := HeaderMap)).
Abbreviation HttpRequest := (HttpRequest (HeaderMap := HeaderMap) (Uri := Uri)).
Abbreviation HttpResponse := (HttpResponse (HeaderMap := HeaderMap)).
Abbreviation Router := (Router (HeaderMap := HeaderMap)).

(** [HeaderMap] to the wire: values after a name's first come without a name and are
    skipped, values that are not text too. *)
Definition headers_to_wire (m : HeaderMap) : gmap string string :=
  foldl (λ acc '(name, value),
    match name with
    | Some name =>
        match hv_to_str value with
        | Some val_str => <[hn_to_string name := val_str]> acc
        | None => acc
        end
    | None => acc
    end) ∅ (hm_into_iter m).

(** The wire to [HeaderMap]: pairs that are not a header are skipped. *)
Definition headers_of_wire (m : gmap string string) : HeaderMap :=
  foldl (λ acc '(k, v),
    match hn_from_bytes k, hv_from_str v with
    | Some name, Some value => hm_insert name value acc
    | _, _ => acc
    end) hm_new (map_iter m).

(** ** The server *)

Record Service (Req Res E : Type) := mkService {
  ready : result () E;
  call : Req → result Res E;
}.
#[global] Arguments mkService {Req Res E} _ _.
#[global] Arguments ready {Req Res E} _.
#[global] Arguments call {Req Res E} _ _.

Definition request_of_envelope (env : RequestEnvelope) : Request bytes :=
  mkRequest (re_path env) (headers_of_wire (re_headers env)) (re_payload env).

(** [handle_stream_axum]: [collect] collects the response body, [finish] is what
    finishing the stream returns. *)
Definition handle_stream_axum {B} (collect : B → result bytes string)
    (service : Service (Request bytes) (Response B) TowerError)
    (finish : result () TowerError) (input : bytes) (w : Writer) :
    Writer * result () TowerError :=
  match decode_message (T := RequestEnvelope) input with
  | (_, Err e) => (w, Err (read_error e))
  | (_, Ok env) =>
      match ready service with
      | Err e => (w, Err e)
      | Ok _ =>
          match call service (request_of_envelope env) with
          | Err e => (w, Err e)
          | Ok res =>
              let headers := headers_to_wire (res_headers res) in
              match collect (res_body res) with
              | Err e => (w, Err (TInternal e))
              | Ok body =>
                  match encode_message (mkResponseEnvelope (status res) headers body) w with
                  | (w, Err e) => (w, Err (write_error e))
                  | (w, Ok _) => (w, finish)
                  end
              end
          end
      end
  end.

(** ** The client *)

(** [TowerClientService::poll_ready]. *)
Definition client_ready (close_reason : option string) : result () TowerError :=
  match close_reason with
  | Some e => Err (TConnection e)
  | None => Ok ()
  end.

(** [TowerClientService::call]: [opened] is what opening the stream returns, [reply]
    what the stream delivers after the request has been written. *)
Definition client_call (opened : result () TowerError)
    (req : Request bytes) (limit : option nat) (reply : bytes → bytes) :
    result (Response bytes) TowerError :=
  match opened with
  | Err e => Err e
  | Ok _ =>
      let envelope :=
        mkRequestEnvelope (path req) (headers_to_wire (req_headers req)) (req_body req) in
      match encode_message envelope (mkWriter [] limit) with
      | (_, Err e) => Err (write_error e)
      | (w, Ok _) =>
          match decode_message (T := ResponseEnvelope) (reply (w_sent w)) with
          | (_, Err e) => Err (read_error e)
          | (_, Ok env) =>
              Ok (mkResponse (rs_status_code env mod 65536)%N (headers_of_wire (rs_headers env))
                    (rs_payload env))
          end
      end
  end.

(** ** The adapter *)

Abbreviation Infallible := Empty_set (only parsing).

(** [HttpServiceShim]: a service of this crate as one of the [http] crate's. *)
Definition shim {B1 B2} (inner : Service (Request B1) (Response B2) Infallible) :
    Service (HttpRequest B1) (HttpResponse B2) TowerError :=
  mkService (match ready inner with Ok u => Ok u | Err e => match e with end end)
    (λ http_req,
      match call inner (request_of_http http_req) with
      | Ok res => Ok (response_to_http res)
      | Err _ => Err TUnknown
      end).

(** [HttpAdapter::call]: [layer] wraps the shim. *)
Definition adapter {B1 B2 B3}
    (layer : Service (HttpRequest B1) (HttpResponse B2) TowerError →
             Service (HttpRequest B1) (HttpResponse B3) TowerError)
    (inner : Service (Request B1) (Response B2) Infallible) :
    Service (Request B1) (Response B3) TowerError :=
  mkService (Ok ())
    (λ req,
      match call (layer (shim inner)) (request_to_http req) with
      | Ok res => Ok (response_of_http res)
      | Err e => Err e
      end).

(** [Router] as a service, and [layer_standard]. *)
Definition router_service {S B} (r : Router S B) :
    Service (Request B) (Response bytes) Infallible :=
  mkService (Ok ()) (λ req, Ok (router_call r req)).

(** [S::Error: Into<TowerError>] for a service that cannot fail. *)
Definition infallible_service {Req Res} (s : Service Req Res Infallible) :
    Service Req Res TowerError :=
  mkService (match ready s with Ok u => Ok u | Err e => match e with end end)
    (λ req, match call s req with Ok r => Ok r | Err e => match e with end end).
End tower.
