(* ===== verification/ServiceCodec.v ===== *)
(** * Codecs for services

    [ServiceCodec], [ProstCodec], [SerdeFormat], [BincodeFormat] and [SerdeCodec] of
    [stric-tower/src/codec.rs], and the functions that read and write the envelopes, over the
    bidirectional streams of [Stream].  prost's messages and bincode are the [Codec]s of
    [Frame]. *)
From S2P Require Import Prelude Proto Frame FrameFacts Stream Http Tower.
From stdpp Require Import options.

(** A computation on a bidirectional stream. *)
Definition bi_io (S R A : Type) : Type := BiStream S R → BiStream S R * result A TowerError.

Definition bi_ret {S R A} (a : A) : bi_io S R A := λ b, (b, Ok a).
Definition bi_fail {S R A} (e : TowerError) : bi_io S R A := λ b, (b, Err e).

(** [?] after an operation whose error converts to [TowerError]. *)
Definition bi_try {S R A B E} (conv : E → TowerError)
    (op : BiStream S R → BiStream S R * result A E) (f : A → bi_io S R B) : bi_io S R B := λ b,
  match op b with
  | (b', Ok a) => f a b'
  | (b', Err e) => (b', Err (conv e))
  end.

(** The trait [ServiceCodec]. *)
Class ServiceCodec (S R Req Res : Type) := {
  encode_request : Req → bi_io S R ();
  decode_request : bi_io S R Req;
  encode_response : Res → bi_io S R ();
  decode_response : bi_io S R Res;
}.

(** The trait [SerdeFormat], at one type. *)
Class SerdeFormat (T : Type) := {
  serialize : T → result bytes TowerError;
  deserialize : bytes → result T TowerError;
}.

Class SerdeFormatSpec {T} (F : SerdeFormat T) : Prop := {
  deserialize_serialize x buf : serialize x = Ok buf → deserialize buf = Ok x;
}.

Section codecs.
Context {S R : Type} {Q : QuinnStreams S R}.

(** ** Length-prefixed buffers *)

Definition bi_write_length_prefixed (buf : bytes) : bi_io S R () :=
  bi_try (λ _, TWrite) (bi_write_all (u32_to_be (len_u32 buf))) (λ _,
  bi_try (λ _, TWrite) (bi_write_all buf) (λ _, bi_ret ())).

Definition bi_read_length_prefixed : bi_io S R bytes :=
  bi_try (λ _, TReadExact) (bi_read_exact 4) (λ len_buf,
  bi_try (λ _, TReadExact) (bi_read_exact (N.to_nat (u32_from_be len_buf))) bi_ret).

Definition of_result {A} (r : result A TowerError) : bi_io S R A :=
  match r with Ok a => bi_ret a | Err e => bi_fail e end.

(** Serialise, then write; read, then deserialise. *)
Definition encode_with {T} (F : SerdeFormat T) (x : T) : bi_io S R () :=
  bi_try (λ e, e) (of_result (serialize x)) bi_write_length_prefixed.

Definition decode_with {T} (F : SerdeFormat T) : bi_io S R T :=
  bi_try (λ e, e) bi_read_length_prefixed (λ buf, of_result (deserialize buf)).

(** ** The codecs *)

(** prost's messages, with the conversions of their errors. *)
Definition prost_format {T} (C : Codec T string) : SerdeFormat T := {|
  serialize x := match encode x with Ok b => Ok b | Err e => Err (TProstEncode e) end;
  deserialize b := match decode b with Ok x => Ok x | Err e => Err (TProstDecode e) end;
|}.

Definition BincodeFormat {T} (C : Codec T string) : SerdeFormat T := {|
  serialize x := match encode x with Ok b => Ok b | Err e => Err (TBincode e) end;
  deserialize b := match decode b with Ok x => Ok x | Err e => Err (TBincode e) end;
|}.

Definition ProstCodec {Req Res} (CReq : Codec Req string) (CRes : Codec Res string) :
    ServiceCodec S R Req Res := {|
  encode_request := encode_with (prost_format CReq);
  decode_request := decode_with (prost_format CReq);
  encode_response := encode_with (prost_format CRes);
  decode_response := decode_with (prost_format CRes);
|}.

Definition SerdeCodec {Req Res} (FReq : SerdeFormat Req) (FRes : SerdeFormat Res) :
    ServiceCodec S R Req Res := {|
  encode_request := encode_with FReq;
  decode_request := decode_with FReq;
  encode_response := encode_with FRes;
  decode_response := decode_with FRes;
|}.

(** The envelopes of the router's protocol. *)
Definition write_request_envelope `{C : Codec RequestEnvelope string} := encode_with (prost_format C).
Definition read_request_envelope `{C : Codec RequestEnvelope string} := decode_with (prost_format C).
Definition write_response_envelope `{C : Codec ResponseEnvelope string} := encode_with (prost_format C).
Definition read_response_envelope `{C : Codec ResponseEnvelope string} := decode_with (prost_format C).

(** ** Round trip *)

Section facts.
Context {QS : QuinnStreamsSpec Q}.
#[local] Set Default Proof Using "Type*".

(** Two ends of a stream: what one side sends is, with [rest] behind it, what is left to
    read on the other side. *)
Definition linked (a b : BiStream S R) (rest : bytes) : Prop :=
  complete (recv_stream b) (sent (send_stream a) ++ rest).

Lemma bi_write_length_prefixed_sent buf a a' :
  bi_write_length_prefixed buf a = (a', Ok ()) →
  sent (send_stream a') = sent (send_stream a) ++ u32_to_be (len_u32 buf) ++ buf ∧
  recv_stream a' = recv_stream a.
Proof.
  unfold bi_write_length_prefixed, bi_try, bi_write_all, on_send_half.
  destruct (q_write_all _ (send_stream a)) as [s1 [[]|]] eqn:E1; [|done]. simpl.
  destruct (q_write_all buf s1) as [s2 [[]|]] eqn:E2; [|done]. intros [= <-]. simpl.
  apply q_write_all_ok in E1 as [E1 _]. apply q_write_all_ok in E2 as [E2 _].
  by rewrite E2, E1, <- (assoc_L (++)).
Qed.

Lemma bi_read_exact_complete n b data :
  complete (recv_stream b) data → n <= length data →
  ∃ b', bi_read_exact n b = (b', Ok (take n data)) ∧ complete (recv_stream b') (drop n data) ∧
    send_stream b' = send_stream b.
Proof.
  intros Hc Hn. destruct (q_read_exact_complete n _ _ Hc) as [Hok _].
  destruct (Hok Hn) as (r' & E & Hc'). unfold bi_read_exact, on_recv_half. rewrite E. eauto.
Qed.

Lemma bi_read_exact_cut n b data :
  complete (recv_stream b) data → length data < n →
  ∃ b', bi_read_exact n b = (b', Err (FinishedEarly (length data))).
Proof.
  intros Hc Hn. destruct (q_read_exact_complete n _ _ Hc) as [_ Hcut].
  destruct (Hcut Hn) as (r' & E). unfold bi_read_exact, on_recv_half. rewrite E. eauto.
Qed.

Lemma bi_read_length_prefixed_frame buf rest b :
  (N.of_nat (length buf) < 4294967296)%N →
  complete (recv_stream b) (u32_to_be (len_u32 buf) ++ buf ++ rest) →
  ∃ b', bi_read_length_prefixed b = (b', Ok buf) ∧ complete (recv_stream b') rest ∧
    send_stream b' = send_stream b.
Proof.
  intros Hlen Hc. pose proof (length_u32_to_be (len_u32 buf)) as H4.
  unfold bi_read_length_prefixed, bi_try.
  destruct (bi_read_exact_complete 4 b _ Hc) as (b1 & -> & Hc1 & Hs1);
    [rewrite length_app; lia|].
  rewrite take_app_length' by done. rewrite drop_app_length' in Hc1 by done.
  rewrite u32_round_trip, len_u32_small, Nat2N.id by (rewrite ?len_u32_small; done).
  destruct (bi_read_exact_complete (length buf) b1 _ Hc1) as (b2 & -> & Hc2 & Hs2);
    [rewrite length_app; lia|].
  rewrite take_app_length. rewrite drop_app_length in Hc2. exists b2. split; [done|].
  split; [done|congruence].
Qed.

Lemma bi_read_length_prefixed_cut buf k b :
  (N.of_nat (length buf) < 4294967296)%N → k < 4 + length buf →
  complete (recv_stream b) (take k (u32_to_be (len_u32 buf) ++ buf)) →
  ∃ b', bi_read_length_prefixed b = (b', Err TReadExact).
Proof.
  intros Hlen Hk Hc. pose proof (length_u32_to_be (len_u32 buf)) as H4.
  unfold bi_read_length_prefixed, bi_try. destruct (decide (k < 4)) as [Hk4|Hk4].
  - destruct (bi_read_exact_cut 4 b _ Hc) as (b1 & ->); [rewrite length_take; lia|]. eauto.
  - destruct (bi_read_exact_complete 4 b _ Hc) as (b1 & -> & Hc1 & _);
      [rewrite length_take, length_app; lia|].
    rewrite take_take, Nat.min_l, take_app_length' by (done || lia).
    rewrite u32_round_trip, len_u32_small, Nat2N.id by (rewrite ?len_u32_small; done).
    destruct (bi_read_exact_cut (length buf) b1 _ Hc1) as (b2 & ->); [|by eauto].
    rewrite length_drop, length_take, length_app. lia.
Qed.

(** What an encoder writes, its decoder reads; a message that is cut off anywhere is a read
    error. *)
Lemma encode_decode_with {T} (F : SerdeFormat T) {FS : SerdeFormatSpec F} x buf a a' :
  serialize x = Ok buf → (N.of_nat (length buf) < 4294967296)%N →
  sent (send_stream a) = [] → encode_with F x a = (a', Ok ()) →
  (∀ b rest, linked a' b rest → ∃ b', decode_with F b = (b', Ok x) ∧
     complete (recv_stream b') rest ∧ send_stream b' = send_stream b) ∧
  (∀ b k, k < length (sent (send_stream a')) →
     complete (recv_stream b) (take k (sent (send_stream a'))) →
     ∃ b', decode_with F b = (b', Err TReadExact)).
Proof.
  intros Hser Hlen H0 Henc. unfold encode_with, bi_try in Henc. rewrite Hser in Henc. simpl in Henc.
  destruct (bi_write_length_prefixed buf a) as [a1 [[]|]] eqn:Ew; [|done]. injection Henc as <-.
  apply bi_write_length_prefixed_sent in Ew as [Hs _]. rewrite H0, app_nil_l in Hs. split.
  - intros b rest Hl. unfold linked in Hl. rewrite Hs, <- (assoc_L (++)) in Hl.
    destruct (bi_read_length_prefixed_frame buf rest b Hlen Hl) as (b' & Hb & Hc & Hsb).
    exists b'. unfold decode_with, bi_try. rewrite Hb.
    by rewrite (deserialize_serialize x buf Hser).
  - intros b k Hk Hc. rewrite Hs in Hk, Hc. rewrite length_app, length_u32_to_be in Hk.
    destruct (bi_read_length_prefixed_cut buf k b Hlen Hk Hc) as [b' Hb]. exists b'.
    unfold decode_with, bi_try. by rewrite Hb.
Qed.

#[global] Instance prost_format_spec {T} (C : Codec T string) :
  CodecSpec C → SerdeFormatSpec (prost_format C).
Proof.
  intros HC. split. intros x buf. simpl. destruct (encode x) as [b|] eqn:E; [|done].
  intros [= <-]. by rewrite (decode_encode x b E).
Qed.

#[global] Instance bincode_format_spec {T} (C : Codec T string) :
  CodecSpec C → SerdeFormatSpec (BincodeFormat C).
Proof.
  intros HC. split. intros x buf. simpl. destruct (encode x) as [b|] eqn:E; [|done].
  intros [= <-]. by rewrite (decode_encode x b E).
Qed.

(** C19. A codec's two sides agree: over any bidirectional stream, a request that one side has
    encoded is decoded by the other to the same request and leaves what follows in the
    stream, and likewise a response, for the prost and the bincode codec; a request or a
    response that is cut off at any byte is a read error and never a wrong value.  The
    encoded messages are below 4 GiB, where the length prefix would be truncated. *)
Theorem service_codec_round_trip {Req Res} (CReq : Codec Req string) (CRes : Codec Res string)
    req res qbuf sbuf :
  CodecSpec CReq → CodecSpec CRes → encode req = Ok qbuf → encode res = Ok sbuf →
  (N.of_nat (length qbuf) < 4294967296)%N → (N.of_nat (length sbuf) < 4294967296)%N →
  Forall (λ codec : ServiceCodec S R Req Res,
    (∀ a a', sent (send_stream a) = [] → encode_request req a = (a', Ok ()) →
       (∀ b rest, linked a' b rest → ∃ b', decode_request b = (b', Ok req) ∧
          complete (recv_stream b') rest ∧ send_stream b' = send_stream b) ∧
       (∀ b k, k < length (sent (send_stream a')) →
          complete (recv_stream b) (take k (sent (send_stream a'))) →
          ∃ b', decode_request b = (b', Err TReadExact))) ∧
    (∀ a a', sent (send_stream a) = [] → encode_response res a = (a', Ok ()) →
       (∀ b rest, linked a' b rest → ∃ b', decode_response b = (b', Ok res) ∧
          complete (recv_stream b') rest ∧ send_stream b' = send_stream b) ∧
       (∀ b k, k < length (sent (send_stream a')) →
          complete (recv_stream b) (take k (sent (send_stream a'))) →
          ∃ b', decode_response b = (b', Err TReadExact))))
    [ProstCodec CReq CRes; SerdeCodec (BincodeFormat CReq) (BincodeFormat CRes)].
Proof.
  intros HCq HCs Hq Hs Hql Hsl.
  assert (serialize (SerdeFormat := prost_format CReq) req = Ok qbuf) as P1 by (simpl; by rewrite Hq).
  assert (serialize (SerdeFormat := prost_format CRes) res = Ok sbuf) as P2 by (simpl; by rewrite Hs).
  assert (serialize (SerdeFormat := BincodeFormat CReq) req = Ok qbuf) as B1 by (simpl; by rewrite Hq).
  assert (serialize (SerdeFormat := BincodeFormat CRes) res = Ok sbuf) as B2 by (simpl; by rewrite Hs).
  constructor; [|constructor; [|constructor]]; (split; intros a a' Ha Henc).
  - by apply (encode_decode_with _ req qbuf a a').
  - by apply (encode_decode_with _ res sbuf a a').
  - by apply (encode_decode_with _ req qbuf a a').
  - by apply (encode_decode_with _ res sbuf a a').
Qed.
End facts.
End codecs.

(** ** Over streams of bytes *)

(** The streams of [Tower], which read bytes and write to a [Writer], as an instance: the
    functions on envelopes are the codec of [Frame] with the errors converted. *)
Section bytes.
Context {T : Type} (C : Codec T string).
Abbreviation Bi := (BiStream (Writer * bool) bytes).

Lemma encode_with_bytes x (b : Bi) :
  encode_with (prost_format C) x b =
  match encode_message (C := C) x (send_stream b).1 with
  | (w, Ok _) => (new_bistream (responder_initiated b) (w, (send_stream b).2) (recv_stream b), Ok ())
  | (w, Err e) =>
      (new_bistream (responder_initiated b) (w, (send_stream b).2) (recv_stream b), Err (write_error e))
  end.
Proof.
  destruct b as [resp r [[out limit] f]]. unfold encode_with, bi_try, encode_message. simpl.
  destruct (encode x) as [buf|e]; [|done]. simpl.
  unfold bi_write_length_prefixed, write_length_prefixed, bi_try, bi_write_all, on_send_half.
  simpl. unfold write_all, mbind, io_bind. destruct limit as [n|]; [|done]. simpl.
  case_decide; [|done]. simpl. by case_decide.
Qed.

Lemma decode_with_bytes (b : Bi) :
  decode_with (prost_format C) b =
  match decode_message (C := C) (recv_stream b) with
  | (r, Ok x) => (new_bistream (responder_initiated b) (send_stream b) r, Ok x)
  | (r, Err e) => (new_bistream (responder_initiated b) (send_stream b) r, Err (read_error e))
  end.
Proof.
  destruct b as [resp r s]. unfold decode_with, decode_message, bi_read_length_prefixed,
    read_length_prefixed, bi_try, bi_read_exact, on_recv_half. simpl.
  unfold read_exact, mbind, io_bind. case_decide; [|done]. simpl.
  case_decide; [|done]. simpl. by destruct (decode _).
Qed.
End bytes.

(** Messages that are their own encoding, on a stream of bytes. *)
Definition text_codec : Codec bytes string := {| encode b := Ok b; decode b := Ok b |}.

Lemma text_codec_spec : CodecSpec text_codec.
Proof. split. intros m b H. injection H as ->. reflexivity. Qed.

Lemma service_codec_round_trip_witness :
  let a := new_bistream false (mkWriter [] None, false) ([] : bytes) in
  let codec : ServiceCodec (Writer * bool) bytes bytes bytes := ProstCodec text_codec text_codec in
  let a' := (encode_request [Byte.x01; Byte.x02] a).1 in
  let b := new_bistream false (mkWriter [] None, false) (w_sent (send_stream a').1 ++ [Byte.x09]) in
  ∃ b', decode_request b = (b', Ok [Byte.x01; Byte.x02]) ∧ recv_stream b' = [Byte.x09].
Proof.
  intros a codec a' b.
  pose proof (service_codec_round_trip text_codec text_codec [Byte.x01; Byte.x02] [Byte.x03]
    [Byte.x01; Byte.x02] [Byte.x03] text_codec_spec text_codec_spec eq_refl eq_refl eq_refl eq_refl) as H.
  inversion_clear H as [|? ? [Hreq _] _].
  destruct (proj1 (Hreq a a' eq_refl eq_refl) b [Byte.x09]) as (b' & H1 & H2 & _); [reflexivity|].
  exists b'. split; [exact H1|exact H2].
Defined.
