(* ===== verification/TowerFacts.v ===== *)
(** * Facts about stric-tower

    What headers survive the wire, one exchange between a client and a server, and
    the adapter for middleware of the [http] crate. *)
From S2P Require Import Prelude Proto Frame FrameFacts Http Tower.
From stdpp Require Import options.

(** ** Folding insertions *)

Lemma foldl_insert_lookup `{Countable K} {V} (l : list (K * V)) (m : gmap K V) k v :
  NoDup l.*1 →
  foldl (λ m kv, <[kv.1 := kv.2]> m) m l !! k = Some v ↔
  (k, v) ∈ l ∨ k ∉ l.*1 ∧ m !! k = Some v.
Proof.
  revert m. induction l as [|[k' v'] l IH]; intros m; simpl; [set_solver|].
  intros [Hk' Hl]%NoDup_cons. rewrite (IH _ Hl), lookup_insert.
  rewrite elem_of_cons, not_elem_of_cons.
  assert (∀ x, (k', x) ∈ l → False) as Hno.
  { intros x Hx. apply Hk', list_elem_of_fmap. by exists (k', x). }
  case_decide; subst; naive_solver.
Qed.

Section headers.
#[local] Set Default Proof Using "All".
Context `{HC : HttpCrate HeaderName HeaderValue HeaderMap Uri} `{EqDecision HeaderName}
  `{HS : !HttpCrateSpec HC} `{HO : HashOrderSpec}.
Implicit Types (m : HeaderMap) (n : HeaderName).

Lemma to_string_inj n n' : hn_to_string n = hn_to_string n' → n = n'.
Proof.
  intros E. pose proof (from_bytes_to_string n) as Hn. rewrite E, from_bytes_to_string in Hn.
  congruence.
Qed.

(** The pair that goes on the wire for a name. *)
Definition wire_entry m n : option (string * string) :=
  v ← head (hm_get_all m n); s ← hv_to_str v; Some (hn_to_string n, s).

(** The wire pairs of a list of header entries. *)
Definition wire_pairs (l : list (option HeaderName * HeaderValue)) : list (string * string) :=
  omap (λ nv : option HeaderName * HeaderValue,
    n ← nv.1; s ← hv_to_str nv.2; Some (hn_to_string n, s)) l.

Lemma headers_to_wire_pairs m :
  headers_to_wire m = foldl (λ acc kv, <[kv.1 := kv.2]> acc) ∅ (wire_pairs (hm_into_iter m)).
Proof.
  unfold headers_to_wire. generalize (∅ : gmap string string) as acc.
  induction (hm_into_iter m) as [|[[n|] v] l IH]; intros acc; [done| |]; simpl.
  - destruct (hv_to_str v) as [s|]; simpl; apply IH.
  - apply IH.
Qed.

Lemma wire_pairs_unnamed vs : wire_pairs (pair None <$> vs) = [].
Proof. by induction vs. Qed.

Lemma wire_pairs_name m n :
  wire_pairs (name_entries n (hm_get_all m n)) = option_list (wire_entry m n).
Proof.
  unfold wire_entry. destruct (hm_get_all m n) as [|v vs]; [done|]. cbn [head name_entries].
  transitivity (option_list (s ← hv_to_str v; Some (hn_to_string n, s)) ++
    wire_pairs (pair None <$> vs)).
  - unfold wire_pairs. simpl. by destruct (hv_to_str v).
  - by rewrite wire_pairs_unnamed, app_nil_r.
Qed.

Lemma wire_pairs_groups m ns :
  wire_pairs (ns ≫= λ n, name_entries n (hm_get_all m n)) = omap (wire_entry m) ns.
Proof.
  induction ns as [|n ns IH]; [done|].
  transitivity (wire_pairs (name_entries n (hm_get_all m n)) ++
    wire_pairs (ns ≫= λ n, name_entries n (hm_get_all m n))).
  - unfold wire_pairs. by rewrite <- omap_app.
  - rewrite wire_pairs_name, IH. simpl. by destruct (wire_entry m n).
Qed.

Lemma wire_entry_Some m n k s :
  wire_entry m n = Some (k, s) ↔
  ∃ v vs, hm_get_all m n = v :: vs ∧ hv_to_str v = Some s ∧ k = hn_to_string n.
Proof.
  unfold wire_entry. destruct (hm_get_all m n) as [|v vs]; simpl; [naive_solver|].
  destruct (hv_to_str v) eqn:E; simpl; naive_solver.
Qed.

Lemma wire_pairs_NoDup m ns : NoDup ns → NoDup (omap (wire_entry m) ns).*1.
Proof.
  induction 1 as [|n ns Hn Hns IH]; [constructor|]. simpl.
  destruct (wire_entry m n) as [[k s]|] eqn:E; simpl; [|done]. constructor; [|done].
  intros ([k' s'] & Hk & Hin)%list_elem_of_fmap. apply list_elem_of_omap in Hin as (n' & Hn' & E').
  apply wire_entry_Some in E as (? & ? & _ & _ & ->), E' as (? & ? & _ & _ & ->).
  simpl in Hk. apply to_string_inj in Hk as ->. done.
Qed.

(** What goes on the wire: the first value of each name, if it is text. *)
Lemma headers_to_wire_spec m k s :
  headers_to_wire m !! k = Some s ↔
  ∃ n v vs, hm_get_all m n = v :: vs ∧ hv_to_str v = Some s ∧ k = hn_to_string n.
Proof.
  destruct (into_iter_groups m) as (ns & Hnd & Hns & Hit).
  rewrite headers_to_wire_pairs, Hit, wire_pairs_groups.
  rewrite foldl_insert_lookup by by apply wire_pairs_NoDup.
  rewrite lookup_empty, list_elem_of_omap. split.
  - intros [(n & _ & E)|[_ ?]]; [|done]. exists n. by apply wire_entry_Some.
  - intros (n & v & vs & E). left. exists n. split.
    + apply Hns. by rewrite (proj1 E).
    + apply wire_entry_Some. by exists v, vs.
Qed.

(** ** Back from the wire *)

Lemma of_wire_fold n l acc :
  NoDup l.*1 →
  (∀ k s, (k, s) ∈ l → ∃ n' v, k = hn_to_string n' ∧ hv_from_str s = Some v) →
  let res := foldl (λ acc '(k, v),
    match hn_from_bytes k, hv_from_str v with
    | Some name, Some value => hm_insert name value acc
    | _, _ => acc
    end) acc l in
  (∀ s v, (hn_to_string n, s) ∈ l → hv_from_str s = Some v → hm_get_all res n = [v]) ∧
  (hn_to_string n ∉ l.*1 → hm_get_all res n = hm_get_all acc n).
Proof.
  revert acc. induction l as [|[k s] l IH]; intros acc; simpl.
  { intros _ _. split; [set_solver|done]. }
  intros [Hk Hl]%NoDup_cons Hall.
  destruct (Hall k s) as (n' & v' & -> & Ev); [by left|].
  rewrite from_bytes_to_string, Ev.
  destruct (IH (hm_insert n' v' acc) Hl) as [IH1 IH2]; [intros; apply Hall; by right|].
  split.
  - intros s1 v1 [[= E ->]|Hin]%elem_of_cons E1; [|by apply IH1 with s1].
    apply to_string_inj in E as ->. rewrite IH2 by done. rewrite get_all_insert, decide_True by done.
    congruence.
  - intros [Hne Hnin]%not_elem_of_cons. rewrite IH2 by done.
    rewrite get_all_insert, decide_False; [done|]. intros ->. done.
Qed.

(** C26. Of the headers of a message exactly the first value of every name arrives at
    the other side, if it is text: further values of a name and values that are not
    visible ASCII are dropped, and no header is invented or changed. *)
Theorem headers_round_trip m n :
  hm_get_all (headers_of_wire (headers_to_wire m)) n =
  match hm_get_all m n with
  | v :: _ => if hv_to_str v is Some _ then [v] else []
  | [] => []
  end.
Proof.
  set (w := headers_to_wire m).
  assert (∀ k s, (k, s) ∈ map_iter w ↔ w !! k = Some s) as Hw.
  { intros k s. rewrite map_iter_perm. apply elem_of_map_to_list. }
  destruct (of_wire_fold n (map_iter w) hm_new) as [H1 H2].
  - rewrite map_iter_perm. apply NoDup_fst_map_to_list.
  - intros k s (n' & v & vs & _ & E & ->)%Hw%headers_to_wire_spec.
    exists n', v. split; [done|]. by apply from_str_to_str.
  - assert (∀ s, (hn_to_string n, s) ∈ map_iter w ↔
      ∃ v vs, hm_get_all m n = v :: vs ∧ hv_to_str v = Some s) as Hn.
    { intros s. rewrite Hw. unfold w. rewrite headers_to_wire_spec. split.
      - intros (n' & v & vs & E1 & E2 & ->%to_string_inj). by exists v, vs.
      - intros (v & vs & ? & ?). by exists n, v, vs. }
    assert ((∀ v vs s, hm_get_all m n = v :: vs → hv_to_str v = Some s → False) →
      hm_get_all (headers_of_wire w) n = []) as Hnone.
    { intros Hno. rewrite <- (get_all_new n). apply H2.
      intros ([k s] & Hk & Hin)%list_elem_of_fmap. simpl in Hk. subst k.
      apply Hn in Hin as (v & vs & E1 & E2). by apply (Hno v vs s). }
    destruct (hm_get_all m n) as [|v vs]; [by apply Hnone|].
    destruct (hv_to_str v) as [s|] eqn:Es.
    + apply (H1 s); [apply Hn; by exists v, vs|by apply from_str_to_str].
    + apply Hnone. intros v' vs' s [= <- <-]. congruence.
Qed.
End headers.

(** ** One exchange *)

Section exchange.
#[local] Set Default Proof Using "Type*".
Context `{HC : HttpCrate HeaderName HeaderValue HeaderMap Uri} `{HO : HashOrder}.
Context `{RS : CodecSpec RequestEnvelope string} `{SS : CodecSpec ResponseEnvelope string}.

Abbreviation Request := (Request (HeaderMap := HeaderMap)).
Abbreviation Response := (Response (HeaderMap := HeaderMap)).

(** What a working server puts on the stream, given what the client sent. *)
Definition serve {B} (collect : B → result bytes string)
    (svc : Service (Request bytes) (Response B) TowerError) (sent : bytes) : bytes :=
  w_sent (handle_stream_axum collect svc (Ok ()) sent (mkWriter [] None)).1.

(** A message that encodes to less than 4 GiB. *)
Definition sendable {T} `{Codec T string} (msg : T) : Prop :=
  ∃ buf, encode msg = Ok buf ∧ (N.of_nat (length buf) < 4294967296)%N.

Definition request_envelope (req : Request bytes) : RequestEnvelope :=
  mkRequestEnvelope (path req) (headers_to_wire (req_headers req)) (req_body req).

Definition response_envelope (res : Response bytes) : ResponseEnvelope :=
  mkResponseEnvelope (status res) (headers_to_wire (res_headers res)) (res_body res).

(** The request and the response as the other side sees them. *)
Definition arrived (req : Request bytes) : Request bytes :=
  mkRequest (path req) (headers_of_wire (headers_to_wire (req_headers req))) (req_body req).

Definition returned (res : Response bytes) : Response bytes :=
  mkResponse (status res) (headers_of_wire (headers_to_wire (res_headers res))) (res_body res).

Lemma client_call_serve {B} (collect : B → result bytes string) svc req :
  sendable (request_envelope req) →
  client_call (Ok ()) req None (serve collect svc) =
  match ready svc with
  | Err _ => Err TReadExact
  | Ok _ =>
      match call svc (arrived req) with
      | Err _ => Err TReadExact
      | Ok res =>
          match collect (res_body res) with
          | Err _ => Err TReadExact
          | Ok body =>
              match encode (response_envelope (mkResponse (status res) (res_headers res) body)) with
              | Err _ => Err TReadExact
              | Ok buf =>
                  match decode_message (T := ResponseEnvelope) (frame_of buf) with
                  | (_, Err e) => Err (read_error e)
                  | (_, Ok env) =>
                      Ok (mkResponse (rs_status_code env mod 65536)%N
                            (headers_of_wire (rs_headers env)) (rs_payload env))
                  end
              end
          end
      end
  end.
Proof.
  intros (rbuf & Hr & Hlr). unfold client_call. fold (request_envelope req).
  rewrite (encode_message_sent _ rbuf [] Hr). cbn [w_sent app]. unfold serve, handle_stream_axum.
  pose proof (decode_message_frame _ rbuf [] Hr Hlr) as Hd. rewrite app_nil_r in Hd. rewrite Hd.
  change (request_of_envelope (request_envelope req)) with (arrived req).
  destruct (ready svc) as [_|e]; [|done].
  destruct (call svc (arrived req)) as [res|e]; [|done].
  destruct (collect (res_body res)) as [body|e]; [|done].
  change (mkResponseEnvelope (status res) (headers_to_wire (res_headers res)) body) with
    (response_envelope (mkResponse (status res) (res_headers res) body)).
  destruct (encode (response_envelope _)) as [buf|e] eqn:Es.
  - by rewrite (encode_message_sent _ buf [] Es).
  - unfold encode_message, mbind, io_bind. by rewrite Es.
Qed.

(** C17. A call over the network is a call of the service: the client gets the service's
    response to its request, with path, body and status unchanged and both sides'
    headers as the wire carries them.  If the service is not ready or fails, or the
    response body cannot be collected, the client gets a read error, and nothing
    else. *)
Theorem call_end_to_end {B} (collect : B → result bytes string) svc req :
  sendable (request_envelope req) →
  (∀ res body, ready svc = Ok () → call svc (arrived req) = Ok res →
     collect (res_body res) = Ok body → (status res < 65536)%N →
     let res' := mkResponse (status res) (res_headers res) body in
     sendable (response_envelope res') →
     client_call (Ok ()) req None (serve collect svc) = Ok (returned res')) ∧
  ((∃ e, ready svc = Err e) ∨ (∃ e, call svc (arrived req) = Err e) ∨
   (∃ res e, call svc (arrived req) = Ok res ∧ collect (res_body res) = Err e) →
   client_call (Ok ()) req None (serve collect svc) = Err TReadExact).
Proof.
  intros Hreq. rewrite client_call_serve by done. split.
  - intros res body -> -> -> Hst res' (buf & Hb & Hlt).
    fold res'. rewrite Hb. pose proof (decode_message_frame _ buf [] Hb Hlt) as Hd.
    rewrite app_nil_r in Hd. rewrite Hd. unfold returned, response_envelope. simpl.
    by rewrite N.mod_small.
  - destruct (ready svc) as [u|e]; [|done].
    destruct (call svc (arrived req)) as [res|e]; [|done].
    intros [[? [=]]|[[? [=]]|(r & e & [= <-] & He)]]. by rewrite He.
Qed.

(** ** A typed call *)

(** [async fn(Json(x): Json<X>) -> Json<Y>] around [f]. *)
Definition json_handler {S X Y} (jx : Codec X string) (jy : Codec Y string) (f : X → Y) :
    Handler (HeaderMap := HeaderMap) S bytes :=
  Extract (json_from Ok jx) response_into (λ j, Run (json_into jy (mkJson (f (json_value j))))).

Definition http_server {S} (r : Router (HeaderMap := HeaderMap) S bytes) :
    Service (Request bytes) (Response bytes) TowerError :=
  infallible_service (router_service r).

(** C33. A typed remote call works: when a JSON handler is routed at the request's path
    (whatever is routed elsewhere), a body that decodes to [x] gets status 200 and the
    encoding of [f x], a body that does not decode gets 400, and a path without a
    route gets 404. *)
Theorem json_call_round_trip {S X Y} (jx : Codec X string) (jy : Codec Y string) (f : X → Y)
    (r : Router S bytes) p req :
  sendable (request_envelope req) →
  let srv := http_server (route p (json_handler jx jy f) r) in
  sendable (response_envelope (router_call (route p (json_handler jx jy f) r) (arrived req))) →
  ∃ res, client_call (Ok ()) req None (serve Ok srv) = Ok res ∧
    (path req = p → ∀ x y, decode (req_body req) = Ok x → encode (f x) = Ok y →
       status res = 200%N ∧ res_body res = y) ∧
    (path req = p → ∀ e, decode (T := X) (req_body req) = Err e → status res = 400%N) ∧
    (path req ≠ p → routes r !! path req = None → status res = 404%N).
Proof.
  intros Hreq srv Hres. rewrite client_call_serve by done.
  set (res0 := router_call _ (arrived req)) in *.
  assert (call srv (arrived req) = Ok res0) as -> by done. cbn [ready srv http_server
    infallible_service router_service].
  assert (mkResponse (status res0) (res_headers res0) (res_body res0) = res0) as ->
    by by destruct res0.
  destruct Hres as (buf & Hb & Hlt). rewrite Hb.
  pose proof (decode_message_frame _ buf [] Hb Hlt) as Hd. rewrite app_nil_r in Hd. rewrite Hd.
  eexists. split; [done|]. simpl. unfold res0, router_call. simpl. rewrite lookup_insert. split_and!.
  - intros -> x y Hx Hy. rewrite decide_True by done. simpl.
    unfold json_from, decoded_body, collect_body. simpl. rewrite Hx. simpl.
    unfold json_into. simpl. by rewrite Hy.
  - intros -> e He. rewrite decide_True by done. simpl.
    unfold json_from, decoded_body, collect_body. simpl. by rewrite He.
  - intros Hp Hno. rewrite decide_False by congruence. by rewrite Hno.
Qed.
End exchange.

(** ** The adapter *)

Section adapter.
#[local] Set Default Proof Using "Type*".
Context `{HC : HttpCrate HeaderName HeaderValue HeaderMap Uri} `{EqDecision HeaderName}
  `{HS : !HttpCrateSpec HC}.

Abbreviation Request := (Request (HeaderMap := HeaderMap)).
Abbreviation Response := (Response (HeaderMap := HeaderMap)).

(** A service behind the adapter, with a layer that does nothing, answers like the
    service itself, except that it sees only the path of its URI (["/"] when the path
    is not a URI) and that a status outside 100 to 999 becomes 500. *)
Lemma adapter_transparent {B1 B2} (inner : Service (Request B1) (Response B2) Empty_set) req :
  let p := match uri_parse (path req) with Some u => uri_path u | None => "/" end in
  call (adapter (λ s, s) inner) req =
  match call inner (mkRequest p (req_headers req) (req_body req)) with
  | Ok res =>
      let st := if (100 <=? status res)%N && (status res <? 1000)%N then status res else 500%N in
      Ok (mkResponse st (res_headers res) (res_body res))
  | Err e => match e with end
  end.
Proof.
  intros p. unfold adapter, shim. simpl. unfold request_of_http, request_to_http. simpl.
  assert (uri_path (default uri_default (uri_parse (path req))) = p) as ->.
  { unfold p. destruct (uri_parse (path req)); [done|]. simpl. apply default_path. }
  destruct (call inner _) as [res|[]]. unfold response_of_http, response_to_http. simpl.
  rewrite from_u16_range. by destruct (_ && _).
Qed.
End adapter.
