(* ===== verification/TowerApps.v ===== *)
(** * Applications of stric-tower

    The programs of [stric-tower/examples]: their handlers and routers, the requests their
    clients build and how they read the answers, and the retry policy and the unreliable
    handler of the middleware example.

    serde_json and prost are codecs; tower's [Retry] is a parameter with the equation its
    documentation gives; the [TraceLayer] of tower-http is a layer that passes requests and
    responses through. *)
From S2P Require Import Prelude Proto Frame FrameFacts Http Tower TowerFacts.
From stdpp Require Import options.

(** ** Messages *)

Record EchoRequest := mkEchoRequest { echo_message : string }.
Record EchoResponse := mkEchoResponse { echoed_message : string }.

Record HelloRequest := mkHelloRequest { hello_name : string }.
Record HelloResponse := mkHelloResponse { greeting : string }.

Record SearchRequest := mkSearchRequest { query : string; search_limit : N }.
Record SearchResult := mkSearchResult { title : string; url : string }.
Record SearchResponse := mkSearchResponse { results : list SearchResult }.

(** ** Handlers *)

Definition echo_handler (req : EchoRequest) : EchoResponse :=
  mkEchoResponse ("Echo: " +:+ echo_message req).

Definition hello_handler (req : HelloRequest) : HelloResponse :=
  mkHelloResponse ("Hello, " +:+ hello_name req +:+ "! This is a Protobuf response.").

Definition search_handler (req : SearchRequest) : SearchResponse :=
  mkSearchResponse
    [mkSearchResult ("Result for " +:+ query req) ("https://example.com/search?q=" +:+ query req);
     mkSearchResult "Stric Framework" "https://github.com/stric-rs/stric"].

Section apps.
Context `{HC : HttpCrate HeaderName HeaderValue HeaderMap Uri}.
Context (json_echo : Codec EchoRequest string) (json_echoed : Codec EchoResponse string).
Context (prost_hello : Codec HelloRequest string) (prost_greeting : Codec HelloResponse string).
Context (json_search : Codec SearchRequest string) (prost_results : Codec SearchResponse string).

Abbreviation Request := (Request (HeaderMap := HeaderMap) bytes).
Abbreviation Response := (Response (HeaderMap := HeaderMap) bytes).
Abbreviation Router := (Router (HeaderMap := HeaderMap) () bytes).
Abbreviation Handler := (Handler (HeaderMap := HeaderMap) () bytes).

(** [async fn(From<X>) -> Into<Y>], for any two of the formats. *)
Definition typed_handler {J X Y : Type} (from : FromRequest (HeaderMap := HeaderMap) () bytes J Response)
    (value : J → X) (into : Y → Response) (f : X → Y) : Handler :=
  Extract from response_into (λ j, Run (into (f (value j)))).

(** The applications' routers. *)
Definition echo_app : Router :=
  route "/echo" (typed_handler (json_from Ok json_echo) json_value
    (λ y, json_into json_echoed (mkJson y)) echo_handler) new_router.

Definition hello_app : Router :=
  route "/hello" (typed_handler (protobuf_from Ok prost_hello) protobuf_value
    (λ y, protobuf_into prost_greeting (mkProtobuf y)) hello_handler) new_router.

Definition search_app : Router :=
  route "/search" (typed_handler (json_from Ok json_search) json_value
    (λ y, protobuf_into prost_results (mkProtobuf y)) search_handler) new_router.

(** ** The middleware example *)

(** [UNSTABLE_ATTEMPTS.fetch_add(1)]: the counter's next value and the response. *)
Definition unstable_handler (attempts : N) : N * Response :=
  (((attempts + 1) mod (u64_max + 1))%N,
   if decide (attempts = 0%N) then new_response 503 (text "retry me")
   else new_response 200 (text "recovered")).

Definition slow_handler : string := "slow response".

(** The router at a value of the counter. *)
Definition middleware_app (attempts : N) : Router :=
  route "/slow" (Run (into_response slow_handler))
    (route "/unstable" (Run (unstable_handler attempts).2) echo_app).

Definition build_echo_request (message : string) : result Request string :=
  match encode (mkEchoRequest message) with
  | Ok body => Ok (mkRequest "/echo" hm_new body)
  | Err e => Err e
  end.

Definition decode_echo_response (response : Response) : result EchoResponse string :=
  decode (res_body response).

(** *** The retry policy *)

Record RetryOnUnavailable := mkRetry { remaining : nat }.

(** [Policy::retry]: whether to try again. *)
Definition policy_retry {E} (pol : RetryOnUnavailable) (r : result Response E) :
    RetryOnUnavailable * bool :=
  if decide (remaining pol = 0) then (pol, false)
  else match r with
       | Ok response =>
           if decide (status response = 503%N) then (mkRetry (remaining pol - 1), true)
           else (pol, false)
       | Err _ => (pol, false)
       end.

Definition clone_request (req : Request) : option Request := Some req.

(** ** Clients *)

Inductive ClientError := CEncode (e : string) | CCall (e : TowerError) | CDecode (e : string).

Section clients.
(** The call over the connection. *)
Variable send : Request → result Response TowerError.

(** Encode, call, and decode the body of the answer. *)
Definition typed_client {X Y : Type} (cx : Codec X string) (cy : Codec Y string)
    (endpoint : string) (x : X) : result Y ClientError :=
  match encode x with
  | Err e => Err (CEncode e)
  | Ok body =>
      match send (mkRequest endpoint hm_new body) with
      | Err e => Err (CCall e)
      | Ok res =>
          match decode (res_body res) with
          | Ok y => Ok y
          | Err e => Err (CDecode e)
          end
      end
  end.

(** [protobuf.rs] and [mixed_codec.rs]. *)
Definition hello_client (name : string) : result HelloResponse ClientError :=
  typed_client prost_hello prost_greeting "/hello" (mkHelloRequest name).

Definition search_client (q : string) : result SearchResponse ClientError :=
  typed_client json_search prost_results "/search" (mkSearchRequest q 10).

(** [client.rs] takes the body of a JSON response as the body of its request: what a payload
    that does not serialise sends is the text of the error. *)
Definition echo_client (message : string) : result EchoResponse ClientError :=
  match send (mkRequest "/echo" hm_new (res_body (json_into json_echo (mkJson (mkEchoRequest message))))) with
  | Err e => Err (CCall e)
  | Ok res =>
      match decode (res_body res) with
      | Ok y => Ok y
      | Err e => Err (CDecode e)
      end
  end.
End clients.
End apps.

(** ** Retrying *)

Section retry.
Context `{HC : HttpCrate HeaderName HeaderValue HeaderMap Uri} {St E : Type}.
Abbreviation Request := (Request (HeaderMap := HeaderMap) bytes).
Abbreviation Response := (Response (HeaderMap := HeaderMap) bytes).

(** The wrapped service, on the state of whatever is behind it. *)
Variable inner : Request → St → St * result Response E.

(** tower's [Retry]: call the service; while the policy says so, call it again with the
    cloned request and the changed policy. *)
Variable retry_service : RetryOnUnavailable → Request → St → St * result Response E.
Hypothesis retry_call : ∀ pol req st,
  retry_service pol req st =
  match clone_request req with
  | None => inner req st
  | Some cloned =>
      let '(st, r) := inner req st in
      match policy_retry pol r with
      | (pol, true) => retry_service pol cloned st
      | (_, false) => (st, r)
      end
  end.

(** [tries req k st st' r]: the service is called [k + 1] times, the first [k] answers are
    503, and [r] is the last answer. *)
Inductive tries (req : Request) : nat → St → St → result Response E → Prop :=
| tries_last st st' r : inner req st = (st', r) → tries req 0 st st' r
| tries_again k st st1 st' response r :
    inner req st = (st1, Ok response) → status response = 503%N →
    tries req k st1 st' r → tries req (S k) st st' r.

Definition unavailable (r : result Response E) : Prop :=
  ∃ response, r = Ok response ∧ status response = 503%N.

Lemma retry_tries n req st :
  ∃ k st' r, retry_service (mkRetry n) req st = (st', r) ∧ tries req k st st' r ∧ k <= n ∧
    (k < n → ¬ unavailable r).
Proof using retry_call.
  revert st. induction n as [|n IH]; intros st; rewrite retry_call; simpl;
    destruct (inner req st) as [st1 r] eqn:Ei; unfold policy_retry; simpl.
  - exists 0, st1, r. split; [done|]. split; [by constructor|]. split; [done|lia].
  - destruct r as [response|e].
    + case_decide as Hs.
      * rewrite Nat.sub_0_r. destruct (IH st1) as (k & st' & r & E1 & Ht & Hk & Hu).
        exists (S k), st', r. split; [done|]. split; [by eapply tries_again|]. split; [lia|].
        intros Hlt. apply Hu. lia.
      * exists 0, st1, (Ok response). split; [done|]. split; [by constructor|]. split; [lia|].
        intros _ (res & [= <-] & ?). done.
    + exists 0, st1, (Err e). split; [done|]. split; [by constructor|]. split; [lia|].
      by intros _ (res & ? & _).
Qed.

(** C22. The retry policy tries a request as often as it should: for every service behind it, a
    policy with [n] retries calls the service at least once and at most [n + 1] times,
    calls it again exactly after a 503, never after a transport error or any other
    answer, and returns the last answer; it returns a 503 only when all its retries are
    used up. *)
Theorem retry_policy_exact n req st :
  (∃ k st' r, retry_service (mkRetry n) req st = (st', r) ∧ tries req k st st' r ∧ k <= n ∧
     (unavailable r → k = n)) ∧
  (∀ st' e, inner req st = (st', Err e) → retry_service (mkRetry n) req st = (st', Err e)).
Proof using retry_call.
  split.
  - destruct (retry_tries n req st) as (k & st' & r & E1 & Ht & Hk & Hu). exists k, st', r.
    split; [done|]. split; [done|]. split; [done|]. intros Hr.
    destruct (decide (k < n)) as [Hlt|]; [by destruct (Hu Hlt)|lia].
  - intros st' e Hi. rewrite retry_call. simpl. rewrite Hi. unfold policy_retry. by case_decide.
Qed.
End retry.

(** ** Over the network *)

Section network.
#[local] Set Default Proof Using "Type*".
Context `{HC : HttpCrate HeaderName HeaderValue HeaderMap Uri} `{HO : HashOrder}.
Context `{RS : CodecSpec RequestEnvelope string} `{SS : CodecSpec ResponseEnvelope string}.

Abbreviation Request := (Request (HeaderMap := HeaderMap) bytes).
Abbreviation Response := (Response (HeaderMap := HeaderMap) bytes).
Abbreviation Router := (Router (HeaderMap := HeaderMap) () bytes).

(** A client's call of a server that serves the router. *)
Definition call_router (r : Router) (req : Request) : result Response TowerError :=
  client_call (Ok ()) req None (serve Ok (http_server r)).

(** Both messages of the exchange can be sent. *)
Definition exchangeable (r : Router) (req : Request) : Prop :=
  sendable (request_envelope req) ∧
  sendable (response_envelope (router_call r (arrived req))) ∧
  (status (router_call r (arrived req)) < 65536)%N.

Lemma call_router_answer r req :
  exchangeable r req → call_router r req = Ok (returned (router_call r (arrived req))).
Proof.
  intros (Hreq & (buf & Hb & Hlt) & Hst). unfold call_router. rewrite client_call_serve by done.
  set (res := router_call r (arrived req)) in *.
  assert (call (http_server r) (arrived req) = Ok res) as -> by done.
  assert (mkResponse (status res) (res_headers res) (res_body res) = res) as -> by by destruct res.
  cbn [ready http_server infallible_service router_service]. rewrite Hb.
  pose proof (decode_message_frame _ buf [] Hb Hlt) as Hd. rewrite app_nil_r in Hd. rewrite Hd.
  unfold returned, response_envelope. cbn [rs_status_code rs_headers rs_payload].
  by rewrite N.mod_small.
Qed.

(** A typed handler behind the router, seen from a typed client. *)
Lemma typed_client_answer {X Y} (cx : Codec X string) (cy : Codec Y string) (r : Router) endpoint
    (f : X → Y) x body y :
  CodecSpec cy → encode x = Ok body → encode (f x) = Ok y →
  exchangeable r (mkRequest endpoint hm_new body) →
  res_body (router_call r (arrived (mkRequest endpoint hm_new body))) = y →
  typed_client (call_router r) cx cy endpoint x = Ok (f x).
Proof.
  intros Hcy Hx Hy Hex Hres. unfold typed_client. rewrite Hx, call_router_answer by done.
  unfold returned. cbn [res_body]. rewrite Hres. by rewrite (decode_encode _ _ Hy).
Qed.

Section examples.
Context (json_echo : Codec EchoRequest string) (json_echoed : Codec EchoResponse string).
Context (prost_hello : Codec HelloRequest string) (prost_greeting : Codec HelloResponse string).
Context (json_search : Codec SearchRequest string) (prost_results : Codec SearchResponse string).
Context `{!CodecSpec json_echo, !CodecSpec json_echoed, !CodecSpec prost_hello,
  !CodecSpec prost_greeting, !CodecSpec json_search, !CodecSpec prost_results}.

(** The clients of the examples get their handlers' answers over the network, in every pair of
    formats they use: an echo in JSON, a greeting in Protobuf, and a search whose request
    is JSON and whose answer is Protobuf, for all messages that serialise and fit a frame. *)
Lemma example_clients_answered message name q eb hb sb ey hy sy :
  encode (mkEchoRequest message) = Ok eb → encode (echo_handler (mkEchoRequest message)) = Ok ey →
  encode (mkHelloRequest name) = Ok hb → encode (hello_handler (mkHelloRequest name)) = Ok hy →
  encode (mkSearchRequest q 10) = Ok sb → encode (search_handler (mkSearchRequest q 10)) = Ok sy →
  exchangeable (echo_app json_echo json_echoed) (mkRequest "/echo" hm_new eb) →
  exchangeable (hello_app prost_hello prost_greeting) (mkRequest "/hello" hm_new hb) →
  exchangeable (search_app json_search prost_results) (mkRequest "/search" hm_new sb) →
  echo_client json_echo json_echoed (call_router (echo_app json_echo json_echoed)) message =
    Ok (mkEchoResponse ("Echo: " +:+ message)) ∧
  hello_client prost_hello prost_greeting (call_router (hello_app prost_hello prost_greeting)) name =
    Ok (mkHelloResponse ("Hello, " +:+ name +:+ "! This is a Protobuf response.")) ∧
  ∃ rs, search_client json_search prost_results (call_router (search_app json_search prost_results)) q =
    Ok (mkSearchResponse rs) ∧ length rs = 2 ∧ title <$> head rs = Some ("Result for " +:+ q).
Proof.
  intros Heb Hey Hhb Hhy Hsb Hsy Hex1 Hex2 Hex3. split_and!.
  - unfold echo_client. unfold json_into at 1. cbn [json_value]. rewrite Heb. cbn [encoded_response res_body].
    rewrite call_router_answer by done. unfold returned. cbn [res_body].
    assert (res_body (router_call (echo_app json_echo json_echoed)
      (arrived (mkRequest "/echo" hm_new eb))) = ey) as ->.
    { unfold router_call, echo_app. simpl. rewrite lookup_insert_eq. simpl.
      unfold json_from, decoded_body, collect_body. simpl. rewrite (decode_encode _ _ Heb). simpl.
      unfold json_into. simpl. by rewrite Hey. }
    by rewrite (decode_encode _ _ Hey).
  - change (mkHelloResponse _) with (hello_handler (mkHelloRequest name)).
    apply (typed_client_answer _ _ _ _ hello_handler _ hb hy); try done.
    unfold router_call, hello_app. simpl. rewrite lookup_insert_eq. simpl.
    unfold protobuf_from, decoded_body, collect_body. simpl. rewrite (decode_encode _ _ Hhb). simpl.
    unfold protobuf_into. simpl. by rewrite Hhy.
  - exists (results (search_handler (mkSearchRequest q 10))). split; [|done].
    change (mkSearchResponse _) with (search_handler (mkSearchRequest q 10)).
    apply (typed_client_answer _ _ _ _ search_handler _ sb sy); try done.
    unfold router_call, search_app. simpl. rewrite lookup_insert_eq. simpl.
    unfold json_from, decoded_body, collect_body. simpl. rewrite (decode_encode _ _ Hsb). simpl.
    unfold protobuf_into. simpl. by rewrite Hsy.
Qed.

End examples.
End network.
