(* ===== verification/TowerStack.v ===== *)
(** * The middleware examples

    The client of [tower_middleware.rs] puts a time limit, a retry policy, a concurrency limit
    of one and a buffer around the connection, and the server of [middleware.rs] puts a
    layer of tower-http around its router. The state behind the client is the server's
    attempt counter and the time; the handlers' delays and the network's latency move the
    time. tower's [Retry] and [Timeout] are parameters with what their documentation says;
    with one permit the calls of the buffered client run one after the other. *)
From S2P Require Import Prelude Proto Frame FrameFacts Http Tower TowerFacts TowerApps.
From stdpp Require Import options.

Section stack.
#[local] Set Default Proof Using "Type*".
Context `{HC : HttpCrate HeaderName HeaderValue HeaderMap Uri} `{HO : HashOrder}.
Context `{RS : CodecSpec RequestEnvelope string} `{SS : CodecSpec ResponseEnvelope string}.
Context (json_echo : Codec EchoRequest string) (json_echoed : Codec EchoResponse string).

Abbreviation Request := (Request (HeaderMap := HeaderMap) bytes).
Abbreviation Response := (Response (HeaderMap := HeaderMap) bytes).

(** ** The service behind the client *)

Record Behind := mkBehind { attempts : N; clock : N }.

(** How long the handler of a request sleeps, in milliseconds; [/echo] sleeps once its
    message is decoded. *)
Definition handler_delay (req : Request) : N :=
  if decide (path req = "/slow") then 500
  else if decide (path req = "/echo") then
    match decode (T := EchoRequest) (req_body req) with Ok _ => 100 | Err _ => 0 end
  else 0.

(** A request reaches the server when it can be encoded; the counter moves when [/unstable] is
    called. *)
Definition middleware_service (latency : N) (req : Request) (b : Behind) :
    Behind * result Response TowerError :=
  match encode (request_envelope req) with
  | Err _ => (b, call_router (middleware_app json_echo json_echoed (attempts b)) req)
  | Ok _ =>
      (mkBehind
         (if decide (path req = "/unstable") then (unstable_handler (attempts b)).1 else attempts b)
         (clock b + latency + handler_delay req),
       call_router (middleware_app json_echo json_echoed (attempts b)) req)
  end.

(** ** The stack *)

Inductive StackError := Elapsed | Inner (e : TowerError).

Abbreviation StackCall := (Request → Behind → Behind * result Response StackError).

Definition boxed (s : Request → Behind → Behind * result Response TowerError) : StackCall :=
  λ req b, let '(b, r) := s req b in (b, match r with Ok x => Ok x | Err e => Err (Inner e) end).

Section demos.
Variable latency : N.
Variable retry_service : RetryOnUnavailable → StackCall.
Hypothesis retry_call : ∀ pol req st,
  retry_service pol req st =
  match clone_request req with
  | None => boxed (middleware_service latency) req st
  | Some cloned =>
      let '(st, r) := boxed (middleware_service latency) req st in
      match policy_retry pol r with
      | (pol, true) => retry_service pol cloned st
      | (_, false) => (st, r)
      end
  end.

(** tower's [Timeout]: the inner answer when it comes in time, an error when it does not; at
    the limit either may win. *)
Variable timeout_service : N → StackCall → StackCall.
Hypothesis timeout_in_time : ∀ d s req b b' r,
  s req b = (b', r) → (clock b' < clock b + d)%N → timeout_service d s req b = (b', r).
Hypothesis timeout_late : ∀ d s req b b' r,
  s req b = (b', r) → (clock b + d < clock b')%N → (timeout_service d s req b).2 = Err Elapsed.

Definition client_stack : StackCall := timeout_service 250 (retry_service (mkRetry 2)).

Definition unstable_request : Request := mkRequest "/unstable" hm_new [].
Definition slow_request : Request := mkRequest "/slow" hm_new [].

(** [run_retry_demo]: the status and the body. *)
Definition run_retry_demo (b : Behind) : Behind * result (N * bytes) StackError :=
  let '(b, r) := client_stack unstable_request b in
  (b, match r with Ok res => Ok (status res, res_body res) | Err e => Err e end).

Inductive DemoError := DEncode (e : string) | DCall (e : StackError) | DDecode (e : string).

(** [run_buffer_and_limit_demo]: both requests are built before either is sent. *)
Definition run_buffer_and_limit_demo (b : Behind) :
    Behind * result (EchoResponse * EchoResponse) DemoError :=
  match build_echo_request json_echo "first buffered request",
        build_echo_request json_echo "second buffered request" with
  | Err e, _ | Ok _, Err e => (b, Err (DEncode e))
  | Ok request_a, Ok request_b =>
      let '(b, first) := client_stack request_a b in
      let '(b, second) := client_stack request_b b in
      (b, match first, second with
          | Err e, _ | Ok _, Err e => Err (DCall e)
          | Ok first, Ok second =>
              match decode_echo_response json_echoed first, decode_echo_response json_echoed second with
              | Err e, _ | Ok _, Err e => Err (DDecode e)
              | Ok first, Ok second => Ok (first, second)
              end
          end)
  end.

(** [run_timeout_demo]. *)
Definition run_timeout_demo (b : Behind) : result (N * bytes) StackError :=
  match (client_stack slow_request b).2 with
  | Ok res => Ok (status res, res_body res)
  | Err e => Err e
  end.

(** ** One call through the stack *)

Abbreviation app a := (middleware_app json_echo json_echoed a).

Lemma service_answer req b :
  exchangeable (app (attempts b)) req →
  boxed (middleware_service latency) req b =
  (mkBehind
     (if decide (path req = "/unstable") then (unstable_handler (attempts b)).1 else attempts b)
     (clock b + latency + handler_delay req),
   Ok (returned (router_call (app (attempts b)) (arrived req)))).
Proof.
  intros Hex. unfold boxed, middleware_service. pose proof Hex as ((buf & -> & _) & _).
  by rewrite (call_router_answer _ _ Hex).
Qed.

(** An answer other than 503 is the answer of the retrying client. *)
Lemma retry_answer n req b :
  exchangeable (app (attempts b)) req →
  status (returned (router_call (app (attempts b)) (arrived req))) ≠ 503%N →
  retry_service (mkRetry n) req b = boxed (middleware_service latency) req b.
Proof.
  intros Hex Hst. rewrite retry_call. cbn [clone_request]. rewrite service_answer by done.
  unfold policy_retry. case_decide; [done|]. by rewrite decide_False.
Qed.

(** The three demos' endpoints. *)
Lemma unstable_answer a :
  router_call (app a) (arrived unstable_request) = (unstable_handler a).2.
Proof.
  unfold router_call, middleware_app. simpl. rewrite lookup_insert_ne by done.
  by rewrite lookup_insert_eq.
Qed.

Lemma slow_answer a :
  router_call (app a) (arrived slow_request) = into_response slow_handler.
Proof. unfold router_call, middleware_app. simpl. by rewrite lookup_insert_eq. Qed.

Context `{!CodecSpec json_echo, !CodecSpec json_echoed}.

Lemma echo_answer a message body y :
  encode (mkEchoRequest message) = Ok body → encode (echo_handler (mkEchoRequest message)) = Ok y →
  router_call (app a) (arrived (mkRequest "/echo" hm_new body)) = json_into json_echoed (mkJson (echo_handler (mkEchoRequest message))).
Proof.
  intros Hb Hy. unfold router_call, middleware_app, echo_app. simpl.
  rewrite !lookup_insert_ne by done. rewrite lookup_insert_eq. simpl.
  unfold json_from, decoded_body, collect_body. simpl. by rewrite (decode_encode _ _ Hb).
Qed.

(** An echo through the stack. *)
Lemma stack_echo b message body y :
  (latency + 100 < 250)%N →
  encode (mkEchoRequest message) = Ok body → encode (echo_handler (mkEchoRequest message)) = Ok y →
  exchangeable (app (attempts b)) (mkRequest "/echo" hm_new body) →
  ∃ res, client_stack (mkRequest "/echo" hm_new body) b =
      (mkBehind (attempts b) (clock b + latency + 100), Ok res) ∧
    decode_echo_response json_echoed res = Ok (echo_handler (mkEchoRequest message)).
Proof.
  intros Hl Hb Hy Hex. eexists. split.
  - unfold client_stack. apply timeout_in_time; [|simpl; lia].
    assert (handler_delay (mkRequest "/echo" hm_new body) = 100%N) as Hd.
    { unfold handler_delay. simpl. by rewrite (decode_encode _ _ Hb). }
    rewrite retry_answer, service_answer, Hd; [done..|].
    rewrite (echo_answer _ _ _ _ Hb Hy). unfold json_into. simpl. by rewrite Hy.
  - unfold decode_echo_response, returned. rewrite (echo_answer _ _ _ _ Hb Hy).
    unfold json_into. simpl. rewrite Hy. simpl. by rewrite (decode_encode _ _ Hy).
Qed.

(** A slow request through the stack. *)
Lemma stack_slow b :
  exchangeable (app (attempts b)) slow_request → (client_stack slow_request b).2 = Err Elapsed.
Proof.
  intros Hex. unfold client_stack. eapply timeout_late.
  - rewrite retry_answer, service_answer by (done || by rewrite slow_answer). reflexivity.
  - simpl. unfold handler_delay. simpl. lia.
Qed.

(** The unreliable handler through the stack. *)
Lemma stack_unstable b :
  (2 * latency < 250)%N → attempts b = 0%N →
  exchangeable (app 0) unstable_request → exchangeable (app 1) unstable_request →
  client_stack unstable_request b =
    (mkBehind 2 (clock b + latency + latency), Ok (returned (unstable_handler 1).2)).
Proof.
  intros Hl Ha Hex0 Hex1. unfold client_stack. apply timeout_in_time; [|simpl; lia].
  rewrite retry_call. cbn [clone_request]. rewrite service_answer, Ha, unstable_answer by by rewrite Ha.
  unfold policy_retry at 1. simpl.
  rewrite retry_answer, service_answer, ?unstable_answer; [|done..|by rewrite unstable_answer].
  simpl. f_equal. f_equal. unfold handler_delay. simpl. lia.
Qed.

(** C23. The client stack of the middleware example does what the example announces. With a
    round trip of less than 125 ms the first 503 of [/unstable] is retried and the client
    sees [200 recovered] after exactly two calls; with one of less than 150 ms both
    buffered echoes are answered within their limits although only one call is in flight
    at a time; and [/slow] always fails with the time limit, whatever the latency. *)
Theorem middleware_demos b body_a body_b y_a y_b :
  encode (mkEchoRequest "first buffered request") = Ok body_a →
  encode (mkEchoRequest "second buffered request") = Ok body_b →
  encode (echo_handler (mkEchoRequest "first buffered request")) = Ok y_a →
  encode (echo_handler (mkEchoRequest "second buffered request")) = Ok y_b →
  exchangeable (app (attempts b)) (mkRequest "/echo" hm_new body_a) →
  exchangeable (app (attempts b)) (mkRequest "/echo" hm_new body_b) →
  exchangeable (app (attempts b)) slow_request →
  exchangeable (app 0) unstable_request → exchangeable (app 1) unstable_request →
  (attempts b = 0%N → (latency < 125)%N →
     run_retry_demo b = (mkBehind 2 (clock b + latency + latency), Ok (200%N, text "recovered"))) ∧
  ((latency < 150)%N →
     (run_buffer_and_limit_demo b).2 =
       Ok (mkEchoResponse "Echo: first buffered request", mkEchoResponse "Echo: second buffered request")) ∧
  run_timeout_demo b = Err Elapsed.
Proof.
  intros Ha Hb Hya Hyb Hexa Hexb Hexs Hex0 Hex1. split_and!.
  - intros H0 Hl. unfold run_retry_demo. rewrite stack_unstable by (done || lia). done.
  - intros Hl. unfold run_buffer_and_limit_demo, build_echo_request. rewrite Ha, Hb.
    destruct (stack_echo b _ _ _ ltac:(lia) Ha Hya Hexa) as (r1 & -> & D1).
    edestruct (stack_echo (mkBehind (attempts b) (clock b + latency + 100)) _ _ _ ltac:(lia) Hb Hyb)
      as (r2 & -> & D2); [done|]. simpl. by rewrite D1, D2.
  - unfold run_timeout_demo. by rewrite stack_slow.
Qed.
End demos.
End stack.

(** ** A traced router *)

Section traced.
Context `{EqDecision HeaderName} `{HC : HttpCrate HeaderName HeaderValue HeaderMap Uri}
  `{HS : !HttpCrateSpec HC}.

Record Message := mkMessage { message_text : string }.

Context (json_message : Codec Message string) `{!CodecSpec json_message}.

Definition traced_hello (req : Message) : Message :=
  mkMessage ("Hello, " +:+ message_text req +:+ "!").

Definition traced_router : Router (HeaderMap := HeaderMap) () bytes :=
  route "/hello" (typed_handler (json_from Ok json_message) json_value
    (λ y, json_into json_message (mkJson y)) traced_hello) new_router.

(** tower-http's [TraceLayer], which logs and passes on. *)
Abbreviation HttpService := (Service (HttpRequest (HeaderMap := HeaderMap) (Uri := Uri) bytes)
  (HttpResponse (HeaderMap := HeaderMap) bytes) TowerError).
Variable trace_layer : HttpService → HttpService.
Hypothesis trace_passes : ∀ s req, call (trace_layer s) req = call s req.

(** [router.layer_standard(TraceLayer::new_for_http())]. *)
Definition traced_app :
    Service (Request (HeaderMap := HeaderMap) bytes) (Response (HeaderMap := HeaderMap) bytes) TowerError :=
  adapter trace_layer (router_service traced_router).

(** The traced router greets as the router does. *)
Lemma traced_app_greets u headers m body y :
  uri_parse "/hello" = Some u → uri_path u = "/hello" →
  encode m = Ok body → encode (traced_hello m) = Ok y →
  call traced_app (mkRequest "/hello" headers body) =
    Ok (json_into json_message (mkJson (traced_hello m))).
Proof using All.
  intros Hu Hp Hb Hy.
  assert (call traced_app (mkRequest "/hello" headers body) =
    call (adapter (λ s, s) (router_service traced_router)) (mkRequest "/hello" headers body)) as ->.
  { unfold traced_app, adapter. simpl. by rewrite trace_passes. }
  rewrite adapter_transparent. simpl. rewrite Hu, Hp. unfold router_call, traced_router. simpl.
  rewrite lookup_insert_eq. simpl. unfold json_from, decoded_body, collect_body. simpl.
  rewrite (decode_encode _ _ Hb). simpl. unfold response_into, json_into. simpl. by rewrite Hy.
Qed.
End traced.
