(* ===== verification/TowerWitnesses.v ===== *)
(** * Concrete exchanges

    The theorems about stric-tower at concrete inputs: header maps are finite maps from
    names to lists of values, a value that is not text is [None], a URI is a string
    that starts with a slash, and a message is encoded as its position in a table. *)
From S2P Require Import Prelude Proto Frame FrameFacts Http Tower TowerFacts.
From stdpp Require Import options.

(** ** A codec *)

Section table.
Context {T : Type} `{EqDecision T} (table : list T).

Definition table_codec : Codec T string := {|
  encode m :=
    match list_find (λ x, x = m) table with
    | Some (i, _) => Ok [byte_of (N.of_nat i)]
    | None => Err "unknown message"
    end;
  decode b :=
    match b with
    | [x] => match table !! N.to_nat (Byte.to_N x) with
             | Some m => Ok m
             | None => Err "unknown code"
             end
    | _ => Err "not a code"
    end |}.

Lemma table_codec_spec : length table <= 256 → CodecSpec table_codec.
Proof.
  intros Hl. split. intros m b. simpl. destruct (list_find _ _) as [[i x]|] eqn:E; [|done].
  apply list_find_Some in E as (Hi & -> & _). intros [= <-].
  apply lookup_lt_Some in Hi as Hlt.
  rewrite byte_of_to_N, N.mod_small, Nat2N.id by lia. by rewrite Hi.
Qed.
End table.

(** ** Headers *)

Abbreviation Headers := (gmap string (list (option string))).

Definition header_names (m : Headers) : list string :=
  (map_to_list (filter (λ kv : string * list (option string), kv.2 ≠ []) m)).*1.

Definition sample_crate : HttpCrate string (option string) Headers string := {|
  hm_new := ∅;
  hm_insert n v m := <[n := [v]]> m;
  hm_get_all m n := default [] (m !! n);
  hm_into_iter m := header_names m ≫= λ n, name_entries n (default [] (m !! n));
  hn_from_bytes s := Some s;
  hn_from_static s := s;
  hn_to_string n := n;
  hv_from_str s := Some (Some s);
  hv_from_static s := Some s;
  hv_to_str v := v;
  uri_parse s := if String.prefix "/" s then Some s else None;
  uri_default := "/";
  uri_path u := u;
  sc_from_u16 s := if (100 <=? s)%N && (s <? 1000)%N then Some s else None |}.

Lemma sample_crate_spec : HttpCrateSpec sample_crate.
Proof.
  split; try done; simpl.
  - intros n v m n'. rewrite lookup_insert. by case_decide.
  - intros m. exists (header_names m). split; [apply NoDup_fst_map_to_list|]. split; [|done].
    intros n. unfold header_names. rewrite list_elem_of_fmap. split.
    + intros ([n' vs] & -> & Hin). apply elem_of_map_to_list in Hin.
      apply map_lookup_filter_Some in Hin as [Hm Hne]. simpl in *. by rewrite Hm.
    + destruct (m !! n) as [vs|] eqn:E; [|done]. simpl. intros Hne.
      exists (n, vs). split; [done|]. apply elem_of_map_to_list, map_lookup_filter_Some. done.
  - by intros v s ->.
Qed.

Section concrete.
#[local] Existing Instance sample_crate.
#[local] Existing Instance sample_crate_spec.
#[local] Existing Instance key_order.
#[local] Existing Instance key_order_spec.

Definition sample_headers : Headers :=
  {["accept" := [Some "text"; Some "json"]; "blob" := [None]; "id" := [Some "7"]]}.

Lemma headers_round_trip_witness :
  let h := headers_of_wire (headers_to_wire sample_headers) in
  hm_get_all h "accept" = [Some "text"] ∧ hm_get_all h "blob" = [] ∧ hm_get_all h "id" = [Some "7"].
Proof.
  intros h. split; [exact (headers_round_trip sample_headers "accept")|].
  split; [exact (headers_round_trip sample_headers "blob")|].
  exact (headers_round_trip sample_headers "id").
Defined.

(** ** A call *)

Instance request_envelope_eq : EqDecision RequestEnvelope.
Proof. solve_decision. Defined.
Instance response_envelope_eq : EqDecision ResponseEnvelope.
Proof. solve_decision. Defined.

Definition ping_request : Request (HeaderMap := Headers) bytes :=
  mkRequest "/double" ∅ [Byte.x03].

(** JSON numbers, one byte each. *)
Definition number_codec : Codec N string := {|
  encode n := if (n <? 256)%N then Ok [byte_of n] else Err "too large";
  decode b := match b with [x] => Ok (Byte.to_N x) | _ => Err "not a number" end |}.

Definition double_router : Router (HeaderMap := Headers) () bytes :=
  route "/double" (json_handler number_codec number_codec (λ n, 2 * n)%N) new_router.

Definition request_table : list RequestEnvelope := [request_envelope ping_request].
Definition response_table : list ResponseEnvelope :=
  [response_envelope (router_call double_router (arrived ping_request))].

#[local] Instance request_codec : Codec RequestEnvelope string := table_codec request_table.
#[local] Instance response_codec : Codec ResponseEnvelope string := table_codec response_table.
#[local] Instance request_codec_spec : CodecSpec request_codec.
Proof. apply table_codec_spec. simpl. lia. Qed.
#[local] Instance response_codec_spec : CodecSpec response_codec.
Proof. apply table_codec_spec. simpl. lia. Qed.

Lemma ping_sendable : sendable (request_envelope ping_request).
Proof. exists [Byte.x00]. split; vm_compute; reflexivity. Qed.

Lemma pong_sendable :
  sendable (response_envelope (router_call double_router (arrived ping_request))).
Proof. exists [Byte.x00]. split; vm_compute; reflexivity. Qed.

Lemma call_end_to_end_witness :
  ∃ res, client_call (Ok ()) ping_request None (serve Ok (http_server double_router)) = Ok res ∧
    status res = 200%N ∧ res_body res = [Byte.x06].
Proof.
  destruct (call_end_to_end Ok (http_server double_router) ping_request ping_sendable) as [H _].
  eexists. split.
  - apply (H (router_call double_router (arrived ping_request))
      (res_body (router_call double_router (arrived ping_request))));
      [reflexivity|reflexivity|reflexivity|vm_compute; reflexivity|exact pong_sendable].
  - split; vm_compute; reflexivity.
Defined.

Lemma json_call_round_trip_witness :
  ∃ res, client_call (Ok ()) ping_request None (serve Ok (http_server double_router)) = Ok res ∧
    status res = 200%N ∧ res_body res = [Byte.x06].
Proof.
  destruct (json_call_round_trip number_codec number_codec (λ n, 2 * n)%N new_router "/double"
    ping_request ping_sendable pong_sendable) as (res & H1 & H2 & _).
  exists res. split; [exact H1|]. apply (H2 eq_refl 3%N); vm_compute; reflexivity.
Defined.

Lemma adapter_transparent_witness :
  call (adapter (λ s, s) (mkService (Ok ()) (λ req : Request (HeaderMap := Headers) bytes,
      Ok (mkResponse 42 (req_headers req) (text (path req)))))) (mkRequest "no slash" ∅ [Byte.x01]) =
    Ok (mkResponse 500 ∅ (text "/")).
Proof.
  exact (adapter_transparent (mkService (Ok ()) (λ req : Request (HeaderMap := Headers) bytes,
    Ok (mkResponse 42 (req_headers req) (text (path req))))) (mkRequest "no slash" ∅ [Byte.x01])).
Defined.
End concrete.
