(* ===== verification/TowerAppWitnesses.v ===== *)
(** * Concrete applications

    The theorems about the applications of stric-tower at concrete inputs: a codec is a table,
    the retrying service is a recursive function, and the time limit compares clocks. *)
From S2P Require Import Prelude Proto Frame FrameFacts Http Tower TowerFacts TowerApps TowerStack TowerWitnesses.
From stdpp Require Import options.

(** ** A retrying service *)

Section retrying.
Context {HeaderMap St E : Type}.
Abbreviation Request := (Request (HeaderMap := HeaderMap) bytes).
Abbreviation Response := (Response (HeaderMap := HeaderMap) bytes).
Variable inner : Request → St → St * result Response E.

Fixpoint retry_times (n : nat) (req : Request) (st : St) : St * result Response E :=
  let '(st, r) := inner req st in
  match policy_retry (mkRetry n) r, n with
  | (_, true), S n => retry_times n req st
  | _, _ => (st, r)
  end.

Definition retrying (pol : RetryOnUnavailable) : Request → St → St * result Response E :=
  retry_times (remaining pol).

Lemma retrying_call pol req st :
  retrying pol req st =
  match clone_request req with
  | None => inner req st
  | Some cloned =>
      let '(st, r) := inner req st in
      match policy_retry pol r with
      | (pol, true) => retrying pol cloned st
      | (_, false) => (st, r)
      end
  end.
Proof.
  destruct pol as [[|n]]; unfold retrying; simpl; destruct (inner req st) as [st1 r]; [done|].
  unfold policy_retry. simpl. destruct r as [res|]; [|done]. case_decide; [|done].
  simpl. by rewrite Nat.sub_0_r.
Qed.
End retrying.

(** A service that is unavailable until its state is zero. *)
Definition warming_up (req : Request (HeaderMap := Headers) bytes) (st : nat) :
    nat * result (Response (HeaderMap := Headers) bytes) TowerError :=
  match st with
  | 0 => (0, Ok (mkResponse 200 ∅ []))
  | S st => (st, Ok (mkResponse 503 ∅ []))
  end.

Lemma retry_policy_exact_witness :
  (∃ k st' r, retrying warming_up (mkRetry 2) (mkRequest "/" ∅ []) 1 = (st', r) ∧
     tries warming_up (mkRequest "/" ∅ []) k 1 st' r ∧ k <= 2 ∧ (unavailable r → k = 2)) ∧
  retrying warming_up (mkRetry 2) (mkRequest "/" ∅ []) 1 = (0, Ok (mkResponse 200 ∅ [])).
Proof.
  split; [|vm_compute; reflexivity].
  exact (proj1 (retry_policy_exact warming_up (retrying warming_up) (retrying_call warming_up) 2
    (mkRequest "/" ∅ []) 1)).
Defined.

Section concrete.
#[local] Existing Instance sample_crate.
#[local] Existing Instance sample_crate_spec.
#[local] Existing Instance key_order.
#[local] Existing Instance key_order_spec.
#[local] Existing Instances request_envelope_eq response_envelope_eq.

Instance echo_request_eq : EqDecision EchoRequest.
Proof. solve_decision. Defined.
Instance echo_response_eq : EqDecision EchoResponse.
Proof. solve_decision. Defined.
Instance hello_request_eq : EqDecision HelloRequest.
Proof. solve_decision. Defined.
Instance hello_response_eq : EqDecision HelloResponse.
Proof. solve_decision. Defined.
Instance search_request_eq : EqDecision SearchRequest.
Proof. solve_decision. Defined.
Instance search_result_eq : EqDecision SearchResult.
Proof. solve_decision. Defined.
Instance search_response_eq : EqDecision SearchResponse.
Proof. solve_decision. Defined.

(** ** Tables of the messages *)

Definition echo_requests : list EchoRequest :=
  mkEchoRequest <$> ["hi"; "first buffered request"; "second buffered request"].
Definition json_echo : Codec EchoRequest string := table_codec echo_requests.
Definition json_echoed : Codec EchoResponse string := table_codec (echo_handler <$> echo_requests).
Definition prost_hello : Codec HelloRequest string := table_codec [mkHelloRequest "Ann"].
Definition prost_greeting : Codec HelloResponse string :=
  table_codec [hello_handler (mkHelloRequest "Ann")].
Definition json_search : Codec SearchRequest string := table_codec [mkSearchRequest "rust" 10].
Definition prost_results : Codec SearchResponse string :=
  table_codec [search_handler (mkSearchRequest "rust" 10)].

#[local] Instance json_echo_spec : CodecSpec json_echo.
Proof. apply table_codec_spec. simpl. lia. Qed.
#[local] Instance json_echoed_spec : CodecSpec json_echoed.
Proof. apply table_codec_spec. simpl. lia. Qed.
#[local] Instance prost_hello_spec : CodecSpec prost_hello.
Proof. apply table_codec_spec. simpl. lia. Qed.
#[local] Instance prost_greeting_spec : CodecSpec prost_greeting.
Proof. apply table_codec_spec. simpl. lia. Qed.
#[local] Instance json_search_spec : CodecSpec json_search.
Proof. apply table_codec_spec. simpl. lia. Qed.
#[local] Instance prost_results_spec : CodecSpec prost_results.
Proof. apply table_codec_spec. simpl. lia. Qed.

(** ** Tables of the envelopes *)

Abbreviation SampleRequest := (Request (HeaderMap := Headers) bytes).
Abbreviation SampleRouter := (Router (HeaderMap := Headers) () bytes).

Definition middleware : N → SampleRouter := middleware_app json_echo json_echoed.

Definition exchanges : list (SampleRouter * SampleRequest) :=
  [(echo_app json_echo json_echoed, mkRequest "/echo" ∅ [Byte.x00]);
   (hello_app prost_hello prost_greeting, mkRequest "/hello" ∅ [Byte.x00]);
   (search_app json_search prost_results, mkRequest "/search" ∅ [Byte.x00]);
   (middleware 0, mkRequest "/echo" ∅ [Byte.x01]);
   (middleware 0, mkRequest "/echo" ∅ [Byte.x02]);
   (middleware 0, slow_request);
   (middleware 0, unstable_request);
   (middleware 1, unstable_request)].

Definition exchange_requests : list RequestEnvelope :=
  (λ x, request_envelope x.2) <$> exchanges.
Definition exchange_responses : list ResponseEnvelope :=
  (λ x, response_envelope (router_call x.1 (arrived x.2))) <$> exchanges.

#[local] Instance app_request_codec : Codec RequestEnvelope string := table_codec exchange_requests.
#[local] Instance app_response_codec : Codec ResponseEnvelope string := table_codec exchange_responses.
#[local] Instance app_request_codec_spec : CodecSpec app_request_codec.
Proof. apply table_codec_spec. simpl. lia. Qed.
#[local] Instance app_response_codec_spec : CodecSpec app_response_codec.
Proof. apply table_codec_spec. simpl. lia. Qed.

Ltac exchange :=
  split; [eexists; split; [vm_compute; reflexivity|reflexivity]|];
  split; [eexists; split; [vm_compute; reflexivity|reflexivity]|vm_compute; reflexivity].

Lemma example_clients_answered_witness :
  echo_client json_echo json_echoed (call_router (echo_app json_echo json_echoed)) "hi" =
    Ok (mkEchoResponse "Echo: hi") ∧
  hello_client prost_hello prost_greeting (call_router (hello_app prost_hello prost_greeting)) "Ann" =
    Ok (mkHelloResponse "Hello, Ann! This is a Protobuf response.") ∧
  ∃ rs, search_client json_search prost_results (call_router (search_app json_search prost_results)) "rust" =
    Ok (mkSearchResponse rs) ∧ length rs = 2 ∧ title <$> head rs = Some "Result for rust".
Proof.
  apply (example_clients_answered json_echo json_echoed prost_hello prost_greeting json_search
    prost_results "hi" "Ann" "rust" [Byte.x00] [Byte.x00] [Byte.x00] [Byte.x00] [Byte.x00] [Byte.x00]);
    [vm_compute; reflexivity..|exchange|exchange|exchange].
Defined.

(** ** The stack *)

Abbreviation SampleCall :=
  (SampleRequest → Behind → Behind * result (Response (HeaderMap := Headers) bytes) StackError).

(** The limit itself counts as late. *)
Definition limited (d : N) (s : SampleCall) : SampleCall := λ req b,
  let '(b', r) := s req b in
  if (clock b' <? clock b + d)%N then (b', r)
  else (mkBehind (attempts b') (clock b + d), Err Elapsed).

Lemma limited_in_time d s req b b' r :
  s req b = (b', r) → (clock b' < clock b + d)%N → limited d s req b = (b', r).
Proof. unfold limited. intros -> Hlt. by apply N.ltb_lt in Hlt as ->. Qed.

Lemma limited_late d s req b b' r :
  s req b = (b', r) → (clock b + d < clock b')%N → (limited d s req b).2 = Err Elapsed.
Proof.
  unfold limited. intros -> Hlt. assert ((clock b' <? clock b + d)%N = false) as -> by (apply N.ltb_ge; lia).
  done.
Qed.

Definition sample_retry : RetryOnUnavailable → SampleCall :=
  retrying (boxed (middleware_service json_echo json_echoed 20)).

Lemma middleware_demos_witness :
  run_retry_demo sample_retry limited (mkBehind 0 0) = (mkBehind 2 40, Ok (200%N, text "recovered")) ∧
  (run_buffer_and_limit_demo json_echo json_echoed sample_retry limited (mkBehind 0 0)).2 =
    Ok (mkEchoResponse "Echo: first buffered request", mkEchoResponse "Echo: second buffered request") ∧
  run_timeout_demo sample_retry limited (mkBehind 0 0) = Err Elapsed.
Proof.
  destruct (middleware_demos json_echo json_echoed 20 sample_retry
    (retrying_call (boxed (middleware_service json_echo json_echoed 20))) limited limited_in_time
    limited_late (mkBehind 0 0) [Byte.x01] [Byte.x02] [Byte.x01] [Byte.x02]) as (H1 & H2 & H3);
    [vm_compute; reflexivity..|exchange|exchange|exchange|exchange|exchange|].
  split; [exact (H1 eq_refl eq_refl)|]. split; [exact (H2 eq_refl)|exact H3].
Defined.
End concrete.
