(* ===== verification/Serve.v ===== *)
(** * The tower server

    [TowerConnectionHandler] and [Server] of [stric-tower/src/server.rs] and
    [SkipServerVerification] of [client.rs]: the accept loop of a served connection, the
    configuration of the development server, and [serve] as the node of [Quic] driven until
    its [select!] returns.

    A connection whose [accept_bi] has failed has ended: [ended] collects them.  rcgen, which
    makes the certificate, is an argument. *)
From S2P Require Import Prelude Proto Frame Reconciliation Connection Stream Quic QuicFacts.
From S2P Require Import Http Tower.
From stdpp Require Import options.

Section handler.
Context `{HC : HttpCrate HeaderName HeaderValue HeaderMap Uri} `{HO : HashOrder}.
Context {RC : Codec RequestEnvelope string} {SC : Codec ResponseEnvelope string}.
Context {B E : Type} (collect : B → result bytes string)
  (service : Service (Request (HeaderMap := HeaderMap) bytes) (Response (HeaderMap := HeaderMap) B)
     TowerError).

(** [while let Ok((send, recv)) = conn.accept_bi().await]: the streams that get a task. *)
Fixpoint accept_loop (accepts : list (result (Writer * bytes) E)) : list (BiStream Writer bytes) :=
  match accepts with
  | Ok (send, recv) :: rest => new_bistream false send recv :: accept_loop rest
  | _ => []
  end.

(** The handler of a connection: every stream is served by a clone of the service, and the
    handler itself succeeds. *)
Definition into_handler {W Err} (finish : result () TowerError)
    (accepts : list (result (Writer * bytes) E)) (wrapper : W) :
    W * result () Err * list (Writer * result () TowerError) :=
  (wrapper, Ok (),
   (λ stream, handle_stream_axum collect service finish (recv_stream stream) (send_stream stream))
     <$> accept_loop accepts).
End handler.

(** The verifier for development accepts everything; [schemes] is what ring supports. *)
Definition SkipServerVerification `{TlsTypes} (schemes : list SignatureScheme) : ServerCertVerifier :=
  mkVerifier _ (λ _ _ _ _ _, Ok ()) (λ _ _ _, Ok ()) (λ _ _ _, Ok ()) schemes.

Section server.
Context `{Q : Quinn} {Conn : Type}.
Abbreviation NodeState := (NodeState Conn ()).
Abbreviation LogEntry := (LogEntry Conn ()).
Abbreviation NodeEvent := (NodeEvent Conn).

Definition default_context : ConnectionContext := mkContext 0 false false false false false.

(** [b"stric"]. *)
Definition stric_alpn : bytes := [Byte.x73; Byte.x74; Byte.x72; Byte.x69; Byte.x63].

Definition serve_config (cert : CertificateDer) (signing_key : PrivateKeyDer) (addr : SocketAddr) :
    NodeConfig :=
  mkNodeConfig _ _ (Some [cert]) (Some signing_key) addr [stric_alpn] 10 default_context 0
    (Some 60000000000%N) None false.

(** The tower handler as the node's handler: when it returns, it has succeeded. *)
Definition tower_handler : ConnectionHandlerFn Conn () := λ w, (w, Ok ()).

(** [serve] up to its [select!]; a certificate that cannot be made panics. *)
Definition serve_start (generate : option (CertificateDer * PrivateKeyDer)) (addr : SocketAddr) :
    outcome (result NodeState Error) :=
  match generate with
  | Some (cert, signing_key) =>
      n ← new (serve_config cert signing_key addr);
      n ←? n;
      Ret (Ok (Quic.mkState (on_inbound tower_handler n) []))
  | None => Panic
  end.

(** ** Serving *)

(** The node and the connections that have ended, or what [serve] has returned. *)
Inductive ServeState :=
| Serving (st : NodeState) (ended : gset N)
| Returned (r : result () Error).

(** What happens: a client's attempt, the end of its handshake, the end of a connection, the
    return of a handler (after its connection ended), and the two branches of [select!]. *)
Inductive serve_step : ServeState → option NodeEvent → ServeState → Prop :=
| serve_accept st ended :
    serve_step (Serving st ended) (Some Accept) (Serving (listen_accept st) ended)
| serve_handshake st ended i r st' entries :
    node_step () (HandshakeDone i r) st = Some (st', entries) →
    serve_step (Serving st ended) (Some (HandshakeDone i r)) (Serving st' ended)
| serve_end st ended k :
    serve_step (Serving st ended) None (Serving st ({[k]} ∪ ended))
| serve_handler st ended i c k h st' entries :
    tasks st !! i = Some (Setup c k h) → k ∈ ended →
    node_step () (HandlerDone i) st = Some (st', entries) →
    serve_step (Serving st ended) (Some (HandlerDone i)) (Serving st' ended)
| serve_error st ended e rest :
    queue (error_tx (node st)) = e :: rest →
    serve_step (Serving st ended) None (Returned (Err e))
| serve_closed st ended :
    serve_step (Serving st ended) None (Returned (Ok ())).

Inductive serve_run (st0 : NodeState) : list NodeEvent → ServeState → Prop :=
| serve_init : serve_run st0 [] (Serving st0 ∅)
| serve_next evs s ev s' :
    serve_run st0 evs s → serve_step s ev s' → serve_run st0 (evs ++ option_list ev) s'.

(** The errors of failed handshakes. *)
Definition handshake_errors (evs : list NodeEvent) : list Error :=
  omap (λ ev, match ev with HandshakeDone _ (Err e) => Some e | _ => None end) evs.

(** ** The server's invariant *)

Record serve_inv (evs : list NodeEvent) (st : NodeState) (ended : gset N) : Prop := {
  si_handler : inbound_handler (node st) = Some tower_handler;
  si_tasks : Forall (λ t, task_handler t = Some tower_handler) (tasks st);
  si_chan : receiver_alive (error_tx (node st)) = true ∧ capacity (error_tx (node st)) = 10%N;
  si_queue : queue (error_tx (node st)) = take 10 (handshake_errors evs);
  si_dead : ∀ k, is_Some (store (conn_manager (node st)) !! k) → k ∈ ended;
}.

Lemma handshake_errors_app l1 l2 :
  handshake_errors (l1 ++ l2) = handshake_errors l1 ++ handshake_errors l2.
Proof. apply omap_app. Qed.

(** The tower handler never fails, so finishing a setup registers the connection. *)
Lemma finish_setup_tower c k i (st : NodeState) :
  let '(st', entries) := finish_setup () c k (Some tower_handler) i st in
  inbound_handler (node st') = inbound_handler (node st) ∧
  error_tx (node st') = error_tx (node st) ∧ tasks st' = delete i (tasks st) ∧
  ∃ w, store (conn_manager (node st')) = <[k := w]> (store (conn_manager (node st))).
Proof.
  unfold finish_setup.
  pose proof (setup_connection_log () c k (Some tower_handler) (conn_manager (node st))) as Hlog.
  destruct (setup_connection c k () (Some tower_handler) _) as [[m spawned] errors].
  destruct Hlog as [-> Hs]; [by intros f w [= <-]|]. simpl in *. eauto.
Qed.

Lemma report_queue e (n : QuicNode Conn ()) errs :
  receiver_alive (error_tx n) = true → capacity (error_tx n) = 10%N →
  queue (error_tx n) = take 10 errs →
  let '(n', _) := report e n in
  inbound_handler n' = inbound_handler n ∧ conn_manager n' = conn_manager n ∧
  receiver_alive (error_tx n') = true ∧ capacity (error_tx n') = 10%N ∧
  queue (error_tx n') = take 10 (errs ++ [e]).
Proof.
  intros Ha Hc Hq. unfold report, try_send. rewrite Ha, Hc. cbn [andb].
  destruct (N.of_nat (length (queue (error_tx n))) <? 10)%N eqn:E;
    rewrite Hq, length_take in E; [apply N.ltb_lt in E|apply N.ltb_ge in E];
    cbn -[take]; rewrite Hq; repeat split; try done.
  - rewrite take_ge, (take_ge (errs ++ [e])); rewrite ?length_app; simpl; [done|lia|lia].
  - by rewrite take_app_le by lia.
Qed.

Lemma serve_step_inv evs st ended ev st' ended' :
  serve_inv evs st ended → serve_step (Serving st ended) ev (Serving st' ended') →
  serve_inv (evs ++ option_list ev) st' ended'.
Proof.
  intros [Hh Ht Hch Hq Hd] Hstep. inversion Hstep as [| ? ? i r ? entries E | | ? ? i c k h ? entries Ei Hk E | |]; subst;
    simpl; rewrite ?app_nil_r.
  - split; simpl; rewrite ?handshake_errors_app, ?app_nil_r; try done.
    by rewrite Forall_app, Forall_singleton.
  - simpl in E. destruct (tasks st !! i) as [[h|]|] eqn:Ei; try done. injection E as E.
    pose proof (Forall_lookup_1 _ _ _ _ Ht Ei) as Hth. simpl in Hth.
    destruct r as [[c k]|e]; simpl in E.
    + injection E as <- <-. split; simpl; rewrite ?handshake_errors_app, ?app_nil_r; try done.
      by apply Forall_insert.
    + pose proof (report_queue e (node st) _ (proj1 Hch) (proj2 Hch) Hq) as Hr.
      destruct (report e (node st)) as [n entry]. injection E as <- <-.
      destruct Hr as (Hr1 & Hr2 & Hr3 & Hr4 & Hr5).
      split; simpl; rewrite ?handshake_errors_app, ?Hr1, ?Hr2; try done. by apply Forall_delete.
  - split; try done. intros k' Hk'. apply Hd in Hk'. set_solver.
  - simpl in E. rewrite Ei in E. injection E as E.
    pose proof (Forall_lookup_1 _ _ _ _ Ht Ei) as Hth. simpl in Hth. subst h.
    pose proof (finish_setup_tower c k i st) as Hf. rewrite E in Hf.
    destruct Hf as (Hf1 & Hf2 & Hf3 & w & Hf4).
    split; rewrite ?Hf1, ?Hf2, ?Hf3, ?Hf4, ?handshake_errors_app, ?app_nil_r; try done.
    + by apply Forall_delete.
    + intros k'. rewrite lookup_insert. case_decide; [by subst|apply Hd].
Qed.

Lemma serve_run_inv st0 evs s :
  serve_inv [] st0 ∅ → serve_run st0 evs s →
  match s with
  | Serving st ended => serve_inv evs st ended
  | Returned (Err e) => head (handshake_errors evs) = Some e
  | Returned (Ok _) => True
  end.
Proof.
  intros H0 Hrun. induction Hrun as [|evs s ev s' _ IH Hstep]; [done|].
  destruct s as [st ended|r]; [|by inversion Hstep].
  destruct s' as [st' ended'|r]; [by eapply serve_step_inv|].
  inversion Hstep as [| | | | ? ? ? rest Hq|]; subst; [|done]. simpl. rewrite app_nil_r.
  rewrite (si_queue _ _ _ IH) in Hq. by destruct (handshake_errors evs); simplify_eq/=.
Qed.

Lemma serve_start_inv generate addr st0 :
  serve_start generate addr = Ret (Ok st0) → serve_inv [] st0 ∅.
Proof.
  unfold serve_start. destruct generate as [[cert k]|]; [|done].
  intros (n & Hn & (n' & -> & H)%and_then_Ok)%bind_Ret. inv_ret H.
  unfold new in Hn.
  apply bind_Ret in Hn as (? & _ & (? & _ & (? & _ & (? & _ & (? & _ & (ch & Hch & Hn)%bind_Ret)%and_then_Ok)%and_then_Ok)%bind_Ret)%and_then_Ok).
  inv_ret Hn. unfold channel in Hch. simpl in Hch. injection Hch as <-.
  split; simpl; try done. intros k'. rewrite lookup_empty. by intros [].
Qed.

(** C14. [serve] returns an error exactly when a client's handshake fails: while it serves, the
    error branch of its [select!] is ready if and only if some attempt has failed its
    handshake, whatever the other connections do, and the error it returns is that of the
    first failure.  One client that breaks off its handshake therefore ends the server
    for all. *)
Theorem serve_ends_at_failed_handshake generate addr st0 evs s :
  serve_start generate addr = Ret (Ok st0) → serve_run st0 evs s →
  match s with
  | Serving st ended =>
      (∃ e, serve_step s None (Returned (Err e))) ↔ handshake_errors evs ≠ []
  | Returned (Err e) => head (handshake_errors evs) = Some e
  | Returned (Ok _) => True
  end.
Proof.
  intros H0%serve_start_inv Hrun. pose proof (serve_run_inv _ _ _ H0 Hrun) as H.
  destruct s as [st ended|r]; [|done]. split.
  - intros [e He] Hnil. inversion He as [| | | | ? ? ? rest Hq|]; subst.
    by rewrite (si_queue _ _ _ H), Hnil in Hq.
  - intros Hne. destruct (handshake_errors evs) as [|e errs] eqn:E; [done|].
    exists e. eapply serve_error. by rewrite (si_queue _ _ _ H), E.
Qed.

(** The connections a server has in its connection manager are dead ones: a connection is
    registered when its handler returns, which is when it has ended, and nothing removes it;
    opening a stream on a connection that is being served fails. *)
Lemma served_connections_unregistered {S R E} (open : Conn → result (S * R) E)
    generate addr st0 evs st ended :
  serve_start generate addr = Ret (Ok st0) → serve_run st0 evs (Serving st ended) →
  (∀ k, is_Some (store (conn_manager (node st)) !! k) → k ∈ ended) ∧
  ∀ k, k ∉ ended → get_bistream open k (node st) = Err (StreamManager E (IdNotFound k)).
Proof.
  intros H0%serve_start_inv Hrun. pose proof (si_dead _ _ _ (serve_run_inv _ _ _ H0 Hrun)) as H.
  split; [done|]. intros k Hk. unfold get_bistream, get_stream.
  destruct (store (conn_manager (node st)) !! k) eqn:Es; [|done].
  destruct Hk. apply H. by rewrite Es.
Qed.
End server.

(** ** A concrete server *)

Definition sample_start : outcome (result (NodeState N ()) Error) :=
  serve_start (Q := sample_quinn) (Some (7%N, 7%N)) 4433%N.

Definition sample_failure : @Error sample_tls sample_types := "bad certificate".

Lemma serve_ends_at_failed_handshake_witness :
  ∃ st0 st, sample_start = Ret (Ok st0) ∧
    serve_run (Conn := N) st0 [Accept; HandshakeDone 0 (Err sample_failure)] (Serving st ∅) ∧
    ∃ e, serve_step (Serving st ∅) None (Returned (Err e)).
Proof.
  destruct (sample_start) as [[st0|]| |] eqn:E; try discriminate E.
  destruct (node_step () (HandshakeDone 0 (Err sample_failure)) (listen_accept st0))
    as [[st entries]|] eqn:Es; [|vm_compute in E; injection E as <-; discriminate Es].
  assert (serve_run st0 [Accept; HandshakeDone 0 (Err sample_failure)] (Serving st ∅)) as Hrun.
  { apply (serve_next st0 [Accept] (Serving (listen_accept st0) ∅) (Some _)).
    - exact (serve_next st0 [] _ (Some Accept) _ (serve_init st0) (serve_accept st0 ∅)).
    - exact (serve_handshake _ _ _ _ _ _ Es). }
  exists st0, st. split; [reflexivity|]. split; [exact Hrun|].
  apply (serve_ends_at_failed_handshake _ _ _ _ _ E Hrun). discriminate.
Defined.

Lemma served_connections_unregistered_witness :
  ∃ st0, sample_start = Ret (Ok st0) ∧
    get_bistream (λ _, Ok (E := string) ((), ())) 5 (node st0) = Err (StreamManager string (IdNotFound 5)).
Proof.
  destruct (sample_start) as [[st0|]| |] eqn:E; try discriminate E.
  exists st0. split; [reflexivity|].
  apply (proj2 (served_connections_unregistered (λ _, Ok ((), ())) _ _ _ _ _ _ E (serve_init st0))).
  intros H. apply elem_of_empty in H. destruct H.
Defined.
