(* ===== verification/FlowWitnesses.v ===== *)
(** * Concrete nodes and meshes

    The theorems about the control engine and the network of nodes at concrete
    inputs: the graph, the hash order, the heap and the rate limiter are the
    reference instances, an address is a string, a handler is a number. *)
From S2P Require Import Prelude Proto Topic Graph GraphFacts Dijkstra Reconciliation.
From S2P Require Import Backpressure Connection FlowNode Publish FlowFacts ControlFacts.
From S2P Require Import Handshake HandshakeFacts SessionFacts Network NetworkSync Circulation.
From S2P Require Import Stream Quic QuicFacts Lifecycle.
From stdpp Require Import options.

(** ** Reading off results

    A result is a large term; these read one fact off it without normalising the rest. *)

Definition is_ret {A} (o : outcome A) : bool := match o with Ret _ => true | _ => false end.

Lemma ret_val {A} (o : outcome A) : is_ret o = true → ∃ a, o = Ret a.
Proof. destruct o; [by eauto|done..]. Qed.

Definition out {A B} (f : A → B) (o : outcome A) : option B :=
  match o with Ret a => Some (f a) | _ => None end.

Lemma out_eq {A B} (f : A → B) o a b : o = Ret a → out f o = Some b → f a = b.
Proof. by intros -> [= <-]. Qed.

Section concrete.
#[local] Existing Instance list_petgraph_spec.
#[local] Existing Instance key_order.
#[local] Existing Instance key_order_spec.
#[local] Existing Instance second_governor.
#[local] Instance graph_impl : PetGraph string LinkWeight := list_petgraph string LinkWeight.

Abbreviation Node := (FlowNode (SocketAddr := string) (Handler := nat)).

Definition clock0 : Clock := mkClock (λ _, 0%N) (λ _, 5%N).

(** A node with the given peers and channels. *)
Definition node_with (id : string) (writers : gmap string nat) : Node :=
  with_writers writers (new_node id).

Lemma node_with_wf id writers : node_wf (node_with id writers).
Proof. split; [apply wf_new|]. intros ? ? Hs. simpl in Hs. by rewrite lookup_empty in Hs. Qed.

Lemma control_loop_total_witness :
  ∃ n' eff, run_control_loop Release
      [(clock0, received "B" (MPong (mkPong 1 2))); (clock0, PeerDisconnected "B")]
      (node_with "A" {["B" := 0]}) = Ret (n', eff) ∧ node_wf n' ∧ length eff = 1.
Proof.
  destruct (control_loop_total [(clock0, received "B" (MPong (mkPong 1 2)));
    (clock0, PeerDisconnected "B")] _ (node_with_wf "A" {["B" := 0]})) as (n' & eff & H1 & H2 & _).
  exists n', eff. split; [exact H1|]. split; [exact H2|].
  apply (out_eq (λ r, length r.2) _ _ _ H1). vm_compute. reflexivity.
Defined.

Lemma topology_update_handled_witness :
  ∃ n' eff, handle_event Debug clock0 (received "B" (MTopologyUpdate sample_update))
      (node_with "X" {["B" := 0; "C" := 1]}) = Ret (n', eff) ∧
    links (fgraph n') !! ("B", "C") = Some (mkLinkWeight 1 0) ∧ length eff = 1.
Proof.
  destruct (topology_update_handled Debug clock0 "B" sample_update _
    (node_with_wf "X" {["B" := 0; "C" := 1]})) as (n' & eff & H1 & _).
  exists n', eff. split; [exact H1|]. split.
  - apply (out_eq (λ r, links (fgraph r.1) !! ("B", "C")) _ _ _ H1). vm_compute. reflexivity.
  - apply (out_eq (λ r, length r.2) _ _ _ H1). vm_compute. reflexivity.
Defined.

Lemma topology_update_once_witness :
  ∃ n1 eff1 seen,
    handle_event Debug clock0 (received "B" (MTopologyUpdate sample_update))
      (node_with "X" {["B" := 0; "C" := 1]}) = Ret (n1, eff1) ∧
    handle_event Debug clock0 (received "C" (MTopologyUpdate sample_update)) n1 =
      Ret (with_seen seen n1, []).
Proof.
  destruct (ret_val (handle_event Debug clock0 (received "B" (MTopologyUpdate sample_update))
    (node_with "X" {["B" := 0; "C" := 1]})) ltac:(vm_compute; reflexivity)) as [[n1 eff1] E].
  destruct (topology_update_once Debug clock0 clock0 "B" "C" sample_update []
    _ n1 eff1 n1 [] (or_introl eq_refl) E eq_refl) as [seen H].
  exists n1, eff1, seen. split; [exact E|exact H].
Defined.

Lemma subscribe_announces_witness :
  ∃ n1 ev n2 eff d, subscribe_task Debug "sensor.*" (node_with "A" {["B" := 0]}) = Ret (n1, ev) ∧
    handle_event Debug clock0 ev n1 = Ret (n2, eff) ∧
    node_metadata (fgraph n2) !! "A" = Some d ∧ "sub:sensor.*" ∈ dom (nd_capabilities d).
Proof.
  destruct (subscribe_announces Debug clock0 "sensor.*" (node_with "A" {["B" := 0]}))
    as (n1 & ev & n2 & eff & u & H1 & H2 & (d & H3 & H4) & _).
  - exact (node_with_wf "A" {["B" := 0]}).
  - vm_compute. reflexivity.
  - exists n1, ev, n2, eff, d. split; [exact H1|]. split; [exact H2|]. split; [exact H3|].
    apply H4. exists "sensor.*". split; [reflexivity|left; reflexivity].
Defined.

Lemma second_subscription_lost_witness :
  ∃ n1 ev1 n2 ev2 n3 eff3 seen,
    subscribe_task Debug "a" (node_with "A" {["B" := 0]}) = Ret (n1, ev1) ∧
    subscribe_task Debug "b" n1 = Ret (n2, ev2) ∧
    handle_event Debug clock0 ev1 n2 = Ret (n3, eff3) ∧
    handle_event Debug clock0 ev2 n3 = Ret (with_seen seen n3, []).
Proof.
  destruct (second_subscription_lost Debug clock0 clock0 "a" "b" (node_with "A" {["B" := 0]}))
    as (n1 & ev1 & n2 & ev2 & n3 & eff3 & seen & H1 & H2 & H3 & H4 & _).
  - exact (node_with_wf "A" {["B" := 0]}).
  - vm_compute. reflexivity.
  - discriminate.
  - apply not_elem_of_empty.
  - exists n1, ev1, n2, ev2, n3, eff3, seen.
    split; [exact H1|]. split; [exact H2|]. split; [exact H3|exact H4].
Defined.

Lemma backpressure_handled_witness :
  ∃ n' l, handle_event Debug clock0 (received "B" (MBackpressure (mkBackpressureSignal "f" "" 2 9)))
      (node_with "A" ∅) = Ret (n', []) ∧
    flow_limiters n' !! "f" = Some l ∧ is_paused l = false ∧ get_rate l = 9%N.
Proof.
  destruct (backpressure_handled Debug clock0 "B" (mkBackpressureSignal "f" "" 2 9)
    (node_with "A" ∅)) as (n' & l & H1 & H2 & _ & _ & H3 & H4).
  exists n', l. split; [exact H1|]. split; [rewrite H2; reflexivity|]. split; [exact H3|exact H4].
Defined.

(** ** Handshakes *)

(** A stream that works, on which the peer's messages are [hs] and [ack]. *)
Definition working (hs ack : ControlMessage) : Transcript :=
  mkTranscript (Ok ()) (Ok ()) (λ _, Ok ())
    (λ i, match i with O => Ok hs | 1 => Ok ack | _ => Err "closed" end).

Lemma handshake_agrees_witness :
  let a := node_with "A" ∅ in let b := node_with "B" ∅ in
  let ack := to_message (MHandshakeAck accept_ack) in
  exchange a (working (hello b) ack) = ([hello a; ack], Ok "B") ∧
  exchange b (working (hello a) ack) = ([hello b; ack], Ok "A").
Proof.
  intros a b ack. apply (handshake_agrees a b (working (hello b) ack) (working (hello a) ack)).
  - intros i. reflexivity.
  - intros i. reflexivity.
  - intros i m H. destruct i as [|[|i]]; [injection H as <-; reflexivity..|discriminate H].
  - intros i m H. destruct i as [|[|i]]; [injection H as <-; reflexivity..|discriminate H].
Defined.

Lemma peering_needs_handshake_witness :
  let a := node_with "A" ∅ in
  let t := working (hello (node_with "B" ∅)) (to_message (MHandshakeAck accept_ack)) in
  ∃ n' written pe, handle_new_connection a "10.0.0.2:1" 7 true t = Ret (n', written, Ok pe) ∧
    peering_event pe = PeerConnected "B" 7 ∧ fst <$> peer_addresses n' !! "B" = Some "10.0.0.2:1".
Proof.
  intros a t. destruct (peering_needs_handshake a "10.0.0.2:1" 7 true t (node_with_wf "A" ∅))
    as (n' & written & res & H1 & H2).
  destruct res as [pe|e];
    [|discriminate (out_eq (λ r, match r.2 with Ok _ => true | Err _ => false end) _ _ true H1
        ltac:(vm_compute; reflexivity))].
  exists n', written, pe. split; [exact H1|]. destruct H2 as (h & _ & Hh & _ & H2 & H3 & _).
  destruct Hh as (_ & _ & _ & (m1 & R & M) & _). simpl in R. injection R as <-.
  simpl in M. injection M as <-. split; [exact H2|exact H3].
Defined.

Lemma reconnect_snapshot_ignored_witness :
  let a := node_with "A" ∅ in
  let b := with_epochs {["A" := 3%N]} (node_with "B" {["A" := 0]}) in
  ∃ u seen, topology_snapshot a = Ret (MTopologyUpdate u) ∧
    handle_event Debug clock0 (received "A" (MTopologyUpdate u)) b = Ret (with_seen seen b, []).
Proof.
  intros a b. set (u := mkTopologyUpdate "A" 1 [] [] [] []).
  assert (topology_snapshot a = Ret (MTopologyUpdate u)) as Hu by (vm_compute; reflexivity).
  destruct (reconnect_snapshot_ignored Debug clock0 a b u 3 (node_with_wf "A" ∅) Hu) as [seen H].
  - reflexivity.
  - lia.
  - exists u, seen. split; [exact Hu|exact H].
Defined.

Lemma first_link_announcement_lost_witness :
  let a := node_with "A" {["B" := 0]} in let b := node_with "B" {["A" := 0]} in
  ∃ u b1 eff1 n1 u1 seen, topology_snapshot a = Ret (MTopologyUpdate u) ∧
    handle_event Debug clock0 (received "A" (MTopologyUpdate u)) b = Ret (b1, eff1) ∧
    handle_event Debug clock0 (received "B" (MPong (mkPong 1 2))) a =
      Ret (n1, broadcast_control_message (MTopologyUpdate u1) n1) ∧
    handle_event Debug clock0 (received "A" (MTopologyUpdate u1)) b1 = Ret (with_seen seen b1, []).
Proof.
  intros a b. set (u := mkTopologyUpdate "A" 1 [] [] [] []).
  assert (topology_snapshot a = Ret (MTopologyUpdate u)) as Hu by (vm_compute; reflexivity).
  destruct (ret_val (handle_event Debug clock0 (received "A" (MTopologyUpdate u)) b)
    ltac:(vm_compute; reflexivity)) as [[b1 eff1] Hb].
  destruct (first_link_announcement_lost Debug clock0 clock0 clock0 a b b1 eff1 u "B" (mkPong 1 2)
    (node_with_wf "A" {["B" := 0]})) as (n1 & u1 & seen & H1 & H2).
  - reflexivity.
  - vm_compute. reflexivity.
  - vm_compute. discriminate.
  - exact Hu.
  - exact Hb.
  - exists u, b1, eff1, n1, u1, seen. split; [exact Hu|]. split; [exact Hb|].
    split; [exact H1|exact H2].
Defined.

(** The first dial fails, the second works. *)
Lemma reconnect_until_connected_witness :
  let m := new_manager (Conn := nat) (Metadata := FlowConnectionMetadata)
    (mkContext 0 false true true true true) 0 None in
  let n := with_reconnecting {["B"]} (node_with "A" ∅) in
  ∃ n' delays, reconnect_task Debug (λ d, d) "B" "10.0.0.2:1" "b"
      [mkRound m m (Err "refused"); mkRound m m (Ok 4%N)] n = Ret (n', delays, true) ∧
    reconnecting_peers n' = {["B"]} ∖ {["B"]}.
Proof.
  intros m n. destruct (reconnect_until_connected Debug (λ d, d) "B" "10.0.0.2:1" "b"
    [mkRound m m (Err "refused"); mkRound m m (Ok 4%N)] n) as (n' & ds & over & H1 & H2 & H3 & _).
  - vm_compute. discriminate.
  - assert (over = true) as ->.
    { apply H2. exists (mkRound m m (Ok 4%N)). split; [right; left; reflexivity|].
      right. right. exists 4%N. reflexivity. }
    exists n', ds. split; [exact H1|exact H3].
Defined.

(** ** Sessions *)

Definition sample_session (data : bytes) (version timestamp : N) : Session :=
  mkSession "s" "A" [] 0 ∅ data version timestamp.

Definition session_node (id : string) (s : Session) : Node :=
  with_sessions {["s" := s]} (node_with id {["P" := 0]}).

Definition sample_sync (timestamp version : N) (data : bytes) : SessionStateSync :=
  mkSessionStateSync "s" "P" SNAPSHOT timestamp version data CODEC_RAW.

Lemma lww_converges_witness :
  let a := sample_sync 10 1 [Byte.x01] in
  let b := sample_sync 20 1 [Byte.x02] in
  ∃ n1' eff1 n2' eff2 data,
    run_control_loop Debug (sync_events [(clock0, "P", a); (clock0, "P", b)])
      (session_node "N" (sample_session [] 0 0)) = Ret (n1', eff1) ∧
    run_control_loop Debug (sync_events [(clock0, "Q", b); (clock0, "P", a); (clock0, "P", b)])
      (session_node "M" (sample_session [] 0 0)) = Ret (n2', eff2) ∧
    get_session_state "s" n1' = Some data ∧ get_session_state "s" n2' = Some data.
Proof.
  intros a b.
  apply (lww_converges Debug "s" [(clock0, "P", a); (clock0, "P", b)]
    [(clock0, "Q", b); (clock0, "P", a); (clock0, "P", b)]
    (session_node "N" (sample_session [] 0 0)) (session_node "M" (sample_session [] 0 0))
    (sample_session [] 0 0) (sample_session [] 0 0)); try reflexivity.
  - repeat constructor.
  - repeat constructor.
  - intros w. simpl. set_solver.
  - intros x y Hx Hy. unfold a, b in Hx, Hy. cbn in Hx, Hy.
    rewrite !elem_of_cons, elem_of_nil in Hx, Hy.
    destruct Hx as [->|[->|[->|[]]]], Hy as [->|[->|[->|[]]]]; simpl; congruence.
Defined.

Lemma lww_tie_diverges_witness :
  ∃ n' m',
    handle_event Debug clock0 (sync_event "M" (sample_sync 10 1 [Byte.x02]))
      (session_node "N" (sample_session [Byte.x01] 1 10)) = Ret (n', []) ∧
    handle_event Debug clock0 (sync_event "N" (sample_sync 10 1 [Byte.x01]))
      (session_node "M" (sample_session [Byte.x02] 1 10)) = Ret (m', []) ∧
    get_session_state "s" n' = Some [Byte.x01] ∧ get_session_state "s" m' = Some [Byte.x02].
Proof.
  apply (lww_tie_diverges Debug clock0 clock0 "s"
    (session_node "N" (sample_session [Byte.x01] 1 10))
    (session_node "M" (sample_session [Byte.x02] 1 10))
    (sample_session [Byte.x01] 1 10) (sample_session [Byte.x02] 1 10)
    (sample_sync 10 1 [Byte.x02]) (sample_sync 10 1 [Byte.x01])); try reflexivity.
  simpl. discriminate.
Defined.

Lemma sync_reaches_peer_witness :
  ∃ n' x m' eff,
    sync_session_state Debug clock0 "s" [Byte.x07]
      (session_node "N" (sample_session [Byte.x01] 1 4)) =
      Ret (n', Ok (broadcast_control_message (session_payload (StateSync x))
             (session_node "N" (sample_session [Byte.x01] 1 4)))) ∧
    handle_event Debug clock0 (sync_event "N" x)
      (session_node "M" (sample_session [Byte.x01] 1 4)) = Ret (m', eff) ∧
    get_session_state "s" m' = Some [Byte.x07].
Proof.
  destruct (sync_reaches_peer Debug clock0 clock0 "s" [Byte.x07]
    (session_node "N" (sample_session [Byte.x01] 1 4))
    (session_node "M" (sample_session [Byte.x01] 1 4))
    (sample_session [Byte.x01] 1 4) (sample_session [Byte.x01] 1 4))
    as (n' & x & m' & eff & H1 & _ & H2 & H3 & _); try (vm_compute; reflexivity).
  exists n', x, m', eff. split; [exact H1|]. split; [exact H2|]. apply H3. simpl. lia.
Defined.

Lemma sync_merge_error_witness :
  ∃ n', sync_session_state Debug clock0 "s" [Byte.x07]
      (register_merge_fn "s" (λ _ _, Err "conflict")
        (session_node "N" (sample_session [Byte.x01] 1 4))) =
      Ret (n', Err (ESession "Local merge error: conflict")).
Proof.
  destruct (sync_merge_error Debug clock0 "s" [Byte.x07]
    (register_merge_fn "s" (λ _ _, Err "conflict")
      (session_node "N" (sample_session [Byte.x01] 1 4)))
    (sample_session [Byte.x01] 1 4) (λ _ _, Err "conflict") "conflict")
    as (n' & s' & H & _); try (vm_compute; reflexivity).
  exists n'. exact H.
Defined.

Lemma create_session_resets_witness :
  ∃ n' c m', create_session clock0 "s" [] ∅ (session_node "N" (sample_session [Byte.x01] 1 4)) =
      (n', broadcast_control_message (session_payload (Create c))
             (session_node "N" (sample_session [Byte.x01] 1 4))) ∧
    get_session_state "s" n' = Some [] ∧
    handle_event Debug clock0 (received "N" (session_payload (Create c)))
      (session_node "M" (sample_session [Byte.x01] 1 4)) = Ret (m', []) ∧
    get_session_state "s" m' = Some [Byte.x01].
Proof.
  apply (create_session_resets Debug clock0 clock0 "s" [] ∅
    (session_node "N" (sample_session [Byte.x01] 1 4))
    (session_node "M" (sample_session [Byte.x01] 1 4))
    (sample_session [Byte.x01] 1 4) (sample_session [Byte.x01] 1 4)); reflexivity.
Defined.

Lemma create_handled_once_witness :
  let c := mkSessionCreate "s" "A" [] 0 ∅ in
  ∃ n' eff seen, handle_event Debug clock0 (received "A" (session_payload (Create c)))
      (node_with "N" {["A" := 0; "B" := 1]}) = Ret (n', eff) ∧
    handle_event Debug clock0 (received "B" (session_payload (Create c))) n' =
      Ret (with_seen seen n', []).
Proof.
  intros c. destruct (create_handled_once Debug clock0 clock0 "A" "B" c c
    (node_with "N" {["A" := 0; "B" := 1]})) as (n' & eff & seen & H1 & _ & _ & H2);
    try reflexivity.
  exists n', eff, seen. split; [exact H1|exact H2].
Defined.

Lemma close_session_handled_witness :
  ∃ n' c, close_session "s" "done" (session_node "N" (sample_session [] 0 0)) =
      (n', Ok (broadcast_control_message (session_payload (Close c))
                 (session_node "N" (sample_session [] 0 0)))) ∧
    get_session_state "s" n' = None.
Proof.
  destruct (close_session_handled Debug clock0 "N" "s" "done"
    (session_node "N" (sample_session [] 0 0)) (session_node "M" (sample_session [] 0 0)))
    as (_ & H).
  destruct H as (n' & c & H1 & H2 & _); [eexists; reflexivity|].
  exists n', c. split; [exact H1|exact H2].
Defined.

Lemma gc_evicts_own_session_witness :
  let n := with_seen {["A" := 0%N]} (session_node "A" (sample_session [] 0 0)) in
  let '(n', events) := gc_tick (mkClock (λ _, secs 301) (λ _, 0%N)) n in
  get_session_state "s" n' = None ∧ length events = 1.
Proof.
  intros n. pose proof (gc_evicts_own_session Debug (mkClock (λ _, secs 301) (λ _, 0%N)) clock0
    "s" n (sample_session [] 0 0) 0 eq_refl eq_refl eq_refl eq_refl) as H.
  destruct (gc_tick _ n) as [n' events] eqn:E. split; [exact (proj1 H)|].
  change events with (n', events).2. rewrite <- E. vm_compute. reflexivity.
Defined.

(** ** Networks *)

(** Two nodes, [A] and [B]; [A] has just subscribed and its update is in flight. *)
Definition pair_wires : gmap nat (string * string) := {[0 := ("A", "B"); 1 := ("B", "A")]}.

Definition pair_update : SubscriptionUpdate :=
  mkSubscriptionUpdate "A" [mkSubscriptionEntry "" "x" SUBSCRIBE] 1.

Definition pair_net : Net :=
  match handle_event Release clock0 (received "A" (MSubscriptionUpdate pair_update))
          (node_with "A" {["B" := 0]}) with
  | Ret (n, eff) => mkNet {["A" := n; "B" := node_with "B" {["A" := 1]}]} (deliveries pair_wires eff)
  | _ => mkNet ∅ []
  end.

Lemma pair_net_eq :
  ∃ n, handle_event Release clock0 (received "A" (MSubscriptionUpdate pair_update))
         (node_with "A" {["B" := 0]}) =
       Ret (n, gossip "A" "A" (MSubscriptionUpdate pair_update) n) ∧
    node_wf n ∧ node_id n = "A" ∧ peer_writers n = {["B" := 0]} ∧ knows pair_update n ∧
    pair_net = mkNet {["A" := n; "B" := node_with "B" {["A" := 1]}]}
                 [("B", received "A" (MSubscriptionUpdate pair_update))].
Proof.
  destruct (ret_val (handle_event Release clock0 (received "A" (MSubscriptionUpdate pair_update))
    (node_with "A" {["B" := 0]})) ltac:(vm_compute; reflexivity)) as [[n eff] E].
  pose proof E as Eh. apply handle_update in Eh as (Hwf & Hid & Hpw & Hk & Heff);
    [|apply node_with_wf|left; reflexivity].
  exists n. assert (behind pair_update (node_with "A" {["B" := 0]}) = true) as Hb by reflexivity.
  rewrite Hb in Heff. subst eff. split_and!; try done.
  unfold pair_net. rewrite E. f_equal. unfold gossip, get_peer_writers. rewrite Hpw.
  vm_compute. reflexivity.
Qed.

Lemma pair_flooding : flooding pair_update pair_wires pair_net.
Proof.
  destruct pair_net_eq as (n & _ & Hwf & Hid & Hpw & Hk & ->).
  set (b := node_with "B" {["A" := 1]}).
  assert (∀ a m, ({["A" := n; "B" := b]} : gmap string Node) !! a = Some m →
    a = "A" ∧ m = n ∨ a = "B" ∧ m = b) as Hcases.
  { intros a m. rewrite lookup_insert. case_decide; [left; naive_solver|].
    intros [? ?]%lookup_singleton_Some. right. naive_solver. }
  split; cbn [Network.members flight].
  - split.
    + by intros a m [[-> ->]|[-> ->]]%Hcases.
    + intros a m [[-> ->]|[-> ->]]%Hcases; [done|apply node_with_wf].
    + intros a m c tx [[-> ->]|[-> ->]]%Hcases.
      * rewrite Hpw. intros [<- <-]%lookup_singleton_Some. by split.
      * change (peer_writers b) with ({["A" := 1]} : gmap string nat).
        intros [<- <-]%lookup_singleton_Some. by split.
  - intros a m [[-> ->]|[-> ->]]%Hcases; [by right|by left].
  - intros d ev [= -> ->]%list_elem_of_singleton. split; [done|]. by exists "A", n.
  - intros m [[_ ->]|[Hab _]]%Hcases; [done|discriminate].
  - intros a m c tx [[-> ->]|[-> ->]]%Hcases Hm.
    + rewrite Hpw. intros [<- <-]%lookup_singleton_Some. right. eexists. by left.
    + by destruct Hm as [Hm _].
Qed.

Lemma subscription_flood_witness :
  ∃ net', rtc (net_step Release pair_wires) pair_net net' ∧ flight net' = [] ∧
    ∃ m d, members net' !! "B" = Some m ∧ node_metadata (fgraph m) !! "A" = Some d ∧
      nd_capabilities d = {["sub:x" := ""]}.
Proof.
  destruct pair_net_eq as (n & _ & _ & _ & Hpw & _ & Heq).
  destruct (subscription_flood pair_update pair_wires pair_net n pair_flooding) as (_ & _ & H).
  { rewrite Heq. reflexivity. }
  assert (∃ net', rtc (net_step Release pair_wires) pair_net net' ∧ flight net' = [])
    as (net' & Hr & Hq).
  { destruct (ret_val (handle_event Release clock0 (received "A" (MSubscriptionUpdate pair_update))
      (node_with "B" {["A" := 1]})) ltac:(vm_compute; reflexivity)) as [[m eff] E].
    eexists. split.
    - rewrite Heq. apply rtc_once. exact (net_deliver Release pair_wires clock0 "B" _
        (node_with "B" {["A" := 1]}) m eff
        {["A" := n; "B" := node_with "B" {["A" := 1]}]} [] [] eq_refl E).
    - apply (out_eq (λ r, [] ++ [] ++ deliveries pair_wires r.2) _ _ _ E). vm_compute. reflexivity. }
  exists net'. split; [exact Hr|]. split; [exact Hq|].
  destruct (H Release net' Hr Hq "B") as (m & d & H1 & H2 & H3).
  - rewrite Heq. apply rtc_once. exists n. split; [reflexivity|].
    cbn [su_node_id pair_update]. rewrite Hpw. eexists. reflexivity.
  - exists m, d. split; [exact H1|]. split; [exact H2|]. rewrite H3. vm_compute. reflexivity.
Defined.

(** Three nodes that are all peers, and a message on its way to [B]. *)
Definition ring_wires : gmap nat (string * string) :=
  {[0 := ("B", "C"); 1 := ("B", "D"); 2 := ("C", "B"); 3 := ("C", "D"); 4 := ("D", "B");
    5 := ("D", "C")]}.

Definition ring_net (add : Node → Node) (from : string) (msg : ControlMessage) : Net :=
  mkNet {["B" := add (node_with "B" {["C" := 0; "D" := 1]});
          "C" := add (node_with "C" {["B" := 2; "D" := 3]});
          "D" := add (node_with "D" {["B" := 4; "C" := 5]})]}
    [("B", ControlMsgReceived from msg)].

(** The session's nodes. *)
Definition empty_session (id : string) : Session := mkSession id "A" [] 0 ∅ [] 0 0.
Definition with_session (id : string) (n : Node) : Node :=
  with_sessions {[id := empty_session id]} n.
Definition with_merge (id : string) (n : Node) : Node :=
  with_merge_fns {[id := λ a b, Ok (a ++ b)]} (with_session id n).

Lemma with_session_wf id n : node_wf n → node_wf (with_session id n).
Proof.
  intros [Hg _]. split; [exact Hg|]. intros id' s'. simpl.
  by intros [<- <-]%lookup_singleton_Some.
Qed.

Lemma ring_net_ring add good (kind : string → ControlMessage → Prop) from msg :
  (∀ id w, good (add (node_with id w)) ∧ node_wf (add (node_with id w)) ∧
     node_id (add (node_with id w)) = id ∧ peer_writers (add (node_with id w)) = w) →
  kind from msg → ring ring_wires ["B"; "C"; "D"] good kind (ring_net add from msg).
Proof.
  intros Hadd Hk.
  assert (∀ a m, members (ring_net add from msg) !! a = Some m →
    a = "B" ∧ m = add (node_with "B" {["C" := 0; "D" := 1]}) ∨
    a = "C" ∧ m = add (node_with "C" {["B" := 2; "D" := 3]}) ∨
    a = "D" ∧ m = add (node_with "D" {["B" := 4; "C" := 5]})) as Hcases.
  { intros a m. cbn [Network.members ring_net]. rewrite !lookup_insert.
    repeat (case_decide; [naive_solver|]). intros [? ?]%lookup_singleton_Some. naive_solver. }
  assert (∀ (x y : string) (i k : nat) c tx, ({[x := i; y := k]} : gmap string nat) !! c = Some tx →
    c = x ∧ tx = i ∨ c = y ∧ tx = k) as Htwo.
  { intros x y i k c tx. rewrite lookup_insert. case_decide; [naive_solver|].
    intros [? ?]%lookup_singleton_Some. naive_solver. }
  split.
  - split.
    + intros a m [[-> ->]|[[-> ->]|[-> ->]]]%Hcases; apply Hadd.
    + intros a m [[-> ->]|[[-> ->]|[-> ->]]]%Hcases; apply Hadd.
    + intros a m c tx [[-> ->]|[[-> ->]|[-> ->]]]%Hcases;
        rewrite (proj2 (proj2 (proj2 (Hadd _ _)))); intros [[-> ->]|[-> ->]]%Htwo;
        (split; [reflexivity|eexists; reflexivity]).
  - intros a m [[-> ->]|[[-> ->]|[-> ->]]]%Hcases; apply Hadd.
  - intros a Ha. rewrite !elem_of_cons, elem_of_nil in Ha.
    destruct Ha as [->|[->|[->|[]]]]; eexists; reflexivity.
  - intros a b Ha Hb Hne. rewrite !elem_of_cons, elem_of_nil in Ha, Hb.
    destruct Ha as [->|[->|[->|[]]]], Hb as [->|[->|[->|[]]]]; try done;
      eexists; (split; [reflexivity|]); rewrite (proj2 (proj2 (proj2 (Hadd _ _))));
      eexists; reflexivity.
  - intros d ev [= -> ->]%list_elem_of_singleton. eauto.
  - eexists "B", _. split; [by left|by left].
Qed.

Definition join_net : Net :=
  ring_net (λ n, n) "A" (to_message (session_payload (Join (mkSessionJoin "s" "A")))).

Lemma join_circulates_witness :
  flight join_net ≠ [] ∧ ∃ net', net_step Release ring_wires join_net net'.
Proof.
  apply (join_circulates (Join (mkSessionJoin "s" "A")) "A" ring_wires ["B"; "C"; "D"] Debug
    join_net join_net).
  - reflexivity.
  - apply (bool_decide_unpack _). vm_compute. exact I.
  - apply (bool_decide_unpack _). vm_compute. exact I.
  - simpl. lia.
  - apply ring_net_ring; [|reflexivity]. intros id w. split; [exact I|].
    split; [apply node_with_wf|]. split; reflexivity.
  - apply rtc_refl.
Defined.

Definition merge_net : Net :=
  ring_net (with_merge "s") "A" (to_message (session_payload (StateSync
    (mkSessionStateSync "s" "A" SNAPSHOT 5 1 [Byte.x01] CODEC_RAW)))).

Lemma merged_update_circulates_witness :
  flight merge_net ≠ [] ∧ ∃ net', net_step Release ring_wires merge_net net'.
Proof.
  apply (merged_update_circulates "s" ring_wires ["B"; "C"; "D"] Release merge_net merge_net).
  - apply (bool_decide_unpack _). vm_compute. exact I.
  - simpl. lia.
  - apply ring_net_ring.
    + intros id w. split; [|split; [|split; reflexivity]].
      * split; [eexists; reflexivity|]. eexists. split; [reflexivity|]. intros a b. eexists. reflexivity.
      * destruct (with_session_wf "s" _ (node_with_wf id w)) as [Hg Hs]. split; [exact Hg|exact Hs].
    + eexists. split; [reflexivity|]. split; reflexivity.
  - apply rtc_refl.
Defined.

(** Two nodes that share a session; [A] writes at time 5. *)
Definition session_a : Node := with_session "s" (node_with "A" {["B" := 0]}).
Definition session_b : Node := with_session "s" (node_with "B" {["A" := 1]}).
Definition session_net : Net := mkNet {["A" := session_a; "B" := session_b]} [].
Definition session_writes : list write := [((0%N, 0%N), []); ((5%N, 1%N), [Byte.x01])].

Lemma session_net_syncing : syncing "s" session_writes 1 pair_wires session_net.
Proof.
  assert (∀ a m, members session_net !! a = Some m →
    a = "A" ∧ m = session_a ∨ a = "B" ∧ m = session_b) as Hcases.
  { intros a m. cbn [Network.members session_net]. rewrite lookup_insert.
    case_decide; [left; naive_solver|].
    intros [? ?]%lookup_singleton_Some. right. naive_solver. }
  split.
  - split.
    + by intros a m [[-> ->]|[-> ->]]%Hcases.
    + intros a m [[-> ->]|[-> ->]]%Hcases; apply with_session_wf, node_with_wf.
    + intros a m c tx [[-> ->]|[-> ->]]%Hcases Hc; simpl in Hc;
        apply lookup_singleton_Some in Hc as [<- <-]; (split; [reflexivity|eexists; reflexivity]).
  - intros a m [[-> ->]|[-> ->]]%Hcases; (split; [reflexivity|vm_compute; lia]).
  - intros a [m [[-> ->]|[-> ->]]%Hcases]; exists ((0%N, 0%N), []); (split; [reflexivity|by left]).
  - intros d ev Hin. by apply elem_of_nil in Hin.
  - intros a b w (m & Hm & tx & Hb) Hw. left. exists ((0%N, 0%N), []).
    destruct (Hcases a m Hm) as [[-> ->]|[-> ->]]; simpl in Hb;
      apply lookup_singleton_Some in Hb as [<- <-]; (split; [reflexivity|]);
      vm_compute in Hw; injection Hw as <-; apply stamp_le_refl.
Qed.

(** ** The life of a connection *)

(** Every connection meets a peer [B] that completes the handshake. *)
Definition sample_transcript : Transcript :=
  mkTranscript (Ok ()) (Ok ()) (λ _, Ok ())
    (λ i, if decide (i = 0) then Ok (to_message (MHandshake (mkFlowHandshake 1 "B" NODE_ROLE_FLOW ∅
            [] [] IDENTITY_TLS_DERIVED)))
          else Ok (to_message (MHandshakeAck accept_ack))).

Definition sample_meets (_ : N) : Node * string * nat * Transcript :=
  (node_with "A" ∅, "10.0.0.2", 0, sample_transcript).

Definition sample_anyhow : string → @Error sample_tls sample_types := λ e, e.

Definition sample_flow : outcome (result (Node * QuicNode N FlowConnectionMetadata) Error) :=
  flow_new (Q := sample_quinn) sample_anyhow sample_meets "A" sample_config.

Lemma flow_node_configured_witness :
  ∃ n core, sample_flow = Ret (Ok (n, core)) ∧
    inbound_handler core = Some (flow_handler sample_anyhow sample_meets false).
Proof.
  destruct sample_flow as [[[n core]|]| |] eqn:E; try discriminate E.
  exists n, core. split; [reflexivity|].
  destruct (flow_node_configured sample_anyhow sample_meets "A" sample_config n core E)
    as (_ & _ & H & _). exact H.
Defined.

(** A dialled connection whose control stream ends before it is registered. *)
Definition flow_core : NodeState N FlowConnectionMetadata :=
  Quic.mkState (mkNode (4433%N, None, None) (new_manager sample_context 0 None) None
    (Some (flow_handler sample_anyhow sample_meets true)) (mkChannel 2 [] true)) [].

Definition early_end : list (NodeEvent N) :=
  [Dialled (Ok (7%N, 70%N)); RemoveConnection 70; HandlerDone 0].

Lemma unremoved_connection_not_redialled_witness :
  ∃ st log, node_run (mkFlowMetadata None) flow_core early_end log st ∧
    Removed 70 ∈ log ∧ "B" ∈ peer_connections (conn_manager (node st)).
Proof.
  destruct (node_exec (mkFlowMetadata None) early_end flow_core) as [[st log]|] eqn:E;
    [|discriminate E].
  pose proof (node_exec_run _ _ _ _ _ E flow_core [] [] (run_nil _ _)) as Hrun.
  simpl app in Hrun. exists st, log. split; [exact Hrun|].
  assert (∃ w, log = [ConnectReturned (Ok 70%N); Removed 70] ++ Registered w [] :: [] ∧
    peer_node_id (metadata w) = Some "B") as (w & Hlog & Hp).
  { vm_compute in E. injection E as _ <-. eexists. split; reflexivity. }
  split; [rewrite Hlog; right; left|].
  refine (proj1 (unremoved_connection_not_redialled _ _ _ w [] [] flow_core st "B" Release
    (λ d, d) "10.0.0.2" "B" (conn_manager (node st)) (Err "x") [] (node_with "A" ∅) _ Hrun Hlog Hp _)).
  - split; [intros f v Hf; discriminate Hf|]. split; [apply flow_handler_keeps_id|].
    split; [reflexivity|]. split; [reflexivity|]. split; reflexivity.
  - intros e He. apply elem_of_nil in He. destruct He.
Defined.

Lemma second_connection_cut_off_witness :
  ∃ n', run_control_loop Release [(clock0, PeerConnected "B" 1); (clock0, PeerConnected "B" 2);
      (clock0, PeerDisconnected "B")]
      (with_addresses {["B" := ("10.0.0.2", "b")]} ∅ (node_with "A" ∅)) =
      Ret (n', [SpawnReconnect "B" "10.0.0.2" "b"]) ∧ peer_writers n' !! "B" = None.
Proof.
  destruct (second_connection_cut_off Release clock0 clock0 clock0 "B" 1 2 "10.0.0.2" "b"
    (add_connection (mkWrapper 7%N (mkContext 70 false true true true true) (mkFlowMetadata (Some "B")))
       (new_manager sample_context 0 None))
    (with_addresses {["B" := ("10.0.0.2", "b")]} ∅ (node_with "A" ∅))) as (n' & H1 & _ & H2).
  - reflexivity.
  - apply not_elem_of_empty.
  - intros peer. simpl. rewrite lookup_empty. split; discriminate.
  - reflexivity.
  - exists n'. split; [exact H1|]. apply (H2 [] n' []); [constructor|reflexivity].
Defined.
End concrete.
