(* ===== verification/FlowApps.v ===== *)
(** * Applications of stric-flow: handlers, messages and metrics

    The programs of [stric-flow/examples]: their message handlers, the message type and the
    decoders they register, the handler with statistics, and the routing metric by latency.

    A Rust [String] is a [string] of bytes that is valid UTF-8, an [f32] is its 32 bits,
    an [f64] is a [spec_float] of the Standard Library (IEEE 754 binary64), and a bounded
    channel is its queue. *)
From S2P Require Import Prelude Proto Topic Graph Dijkstra Reconciliation Backpressure.
From S2P Require Import Frame FrameFacts Registry Connection FlowNode Publish Lifecycle.
From Stdlib Require Import Floats.SpecFloat.
From Stdlib Require Strings.String.
From stdpp Require Import options.

(** ** [String::from_utf8] *)

Definition in_range (lo hi : N) (b : Byte.byte) : bool :=
  (lo <=? Byte.to_N b)%N && (Byte.to_N b <=? hi)%N.

Definition continuation : Byte.byte → bool := in_range 128 191.

(** The two first bytes of sequences of three and of four bytes: no overlong encoding, no
    surrogate, nothing beyond U+10FFFF. *)
Definition three_byte_start (b0 b1 : Byte.byte) : bool :=
  (in_range 224 224 b0 && in_range 160 191 b1) ||
  ((in_range 225 236 b0 || in_range 238 239 b0) && continuation b1) ||
  (in_range 237 237 b0 && in_range 128 159 b1).

Definition four_byte_start (b0 b1 : Byte.byte) : bool :=
  (in_range 240 240 b0 && in_range 144 191 b1) ||
  (in_range 241 243 b0 && continuation b1) ||
  (in_range 244 244 b0 && in_range 128 143 b1).

Fixpoint utf8_valid (l : bytes) : bool :=
  match l with
  | [] => true
  | b0 :: r0 =>
      if in_range 0 127 b0 then utf8_valid r0 else
      match r0 with
      | [] => false
      | b1 :: r1 =>
          if in_range 194 223 b0 then continuation b1 && utf8_valid r1 else
          match r1 with
          | [] => false
          | b2 :: r2 =>
              if three_byte_start b0 b1 then continuation b2 && utf8_valid r2 else
              match r2 with
              | [] => false
              | b3 :: r3 =>
                  four_byte_start b0 b1 && continuation b2 && continuation b3 && utf8_valid r3
              end
          end
      end
  end.

(** ** Bounded channels *)

Record Channel (A : Type) := mkChannel { ch_queue : list A; ch_capacity : nat; ch_open : bool }.
Arguments mkChannel {A} _ _ _.
Arguments ch_queue {A} _.
Arguments ch_capacity {A} _.
Arguments ch_open {A} _.

(** [let _ = tx.send(x).await]: [None] while there is no room; a dropped receiver is
    ignored. *)
Definition ch_send {A} (x : A) (c : Channel A) : option (Channel A) :=
  if ch_open c then
    if decide (length (ch_queue c) < ch_capacity c)
    then Some (mkChannel (ch_queue c ++ [x]) (ch_capacity c) true) else None
  else Some c.

(** ** Sensor readings *)

(** [f32] by its bits. *)
Record SensorReading := mkSensorReading { device_id : N; temperature : N }.

Definition serialize (r : SensorReading) : bytes :=
  u32_to_be (device_id r) ++ u32_to_be (temperature r).

Definition deserialize (b : bytes) : result SensorReading string :=
  if decide (length b < 8) then Err "Payload too short for SensorReading"
  else Ok (mkSensorReading (u32_from_be (take 4 b)) (u32_from_be (take 4 (drop 4 b)))).

(** Equality of [f32]: not a number differs from everything, the zeros are equal. *)
Definition f32_nan (x : N) : bool :=
  (N.land (N.shiftr x 23) 255 =? 255)%N && negb (N.land x 8388607 =? 0)%N.

Definition f32_eq (x y : N) : bool :=
  negb (f32_nan x) && negb (f32_nan y) &&
  ((x =? y)%N || ((N.land x 2147483647 =? 0)%N && (N.land y 2147483647 =? 0)%N)).

(** The derived [PartialEq]. *)
Definition reading_eq (a b : SensorReading) : bool :=
  (device_id a =? device_id b)%N && f32_eq (temperature a) (temperature b).

(** ** Message types and registries *)

Inductive AppTag := TagString | TagReading.

#[export] Instance app_tag_eq_dec : EqDecision AppTag.
Proof. solve_decision. Defined.

Definition app_type (tag : AppTag) : Type :=
  match tag with TagString => string | TagReading => SensorReading end.

Abbreviation Message := (Any app_type).
Abbreviation AppRegistry := (gmap string (bytes → result Message string)).

Section registries.
(** The text of [FromUtf8Error]. *)
Variable utf8_error : bytes → string.

Definition from_utf8 (b : bytes) : result string string :=
  if utf8_valid b then Ok (String.string_of_list_byte b) else Err (utf8_error b).

Definition text_registry : AppRegistry :=
  register app_type TagString "my_app.TextMessage" from_utf8 (new_registry app_type).

Definition reading_registry : AppRegistry :=
  register app_type TagReading "custom.SensorReading" deserialize (new_registry app_type).
End registries.

(** ** Handlers

    [None]: the handler waits for room in its channel. *)

Definition SimpleHandler (flow_id topic_id : string) (message : Message) (tx : Channel string) :
    option (Channel string * result () string) :=
  match downcast_ref app_type TagString message with
  | Some msg_str => (λ tx, (tx, Ok ())) <$> ch_send msg_str tx
  | None => Some (tx, Ok ())
  end.

Definition SimpleStringHandler (flow_id topic_id : string) (message : Message)
    (tx : Channel string) : option (Channel string * result () string) :=
  match downcast_ref app_type TagString message with
  | Some msg_str => (λ tx, (tx, Ok ())) <$> ch_send msg_str tx
  | None => Some (tx, Err "Failed to downcast message to String")
  end.

Definition ReceiverHandler (flow_id topic_id : string) (message : Message) (tx : Channel string) :
    option (Channel string * result () string) :=
  match downcast_ref app_type TagString message with
  | Some msg_str => (λ tx, (tx, Ok ())) <$> ch_send msg_str tx
  | None => Some (tx, Err "Failed to downcast")
  end.

Definition FinalHandler (flow_id topic_id : string) (message : Message) (tx : Channel string) :
    option (Channel string * result () string) :=
  match downcast_ref app_type TagString message with
  | Some msg_str => (λ tx, (tx, Ok ())) <$> ch_send msg_str tx
  | None => Some (tx, Err "Failed downcast")
  end.

Definition CustomReadingHandler (flow_id topic_id : string) (message : Message)
    (tx : Channel SensorReading) : option (Channel SensorReading * result () string) :=
  match downcast_ref app_type TagReading message with
  | Some reading => (λ tx, (tx, Ok ())) <$> ch_send reading tx
  | None => Some (tx, Err "Failed to downcast received message to SensorReading")
  end.

(** ** Statistics *)

(** An [AtomicU32], an [AtomicUsize] of 64 bits and a mutex. *)
Record Stats := mkStats {
  message_count : N;
  total_bytes : N;
  last_topic : option string;
}.

(** The three effects of a call, each atomic; [fetch_add] wraps. *)
Definition count_message (s : Stats) : Stats :=
  mkStats ((message_count s + 1) mod (u32_max + 1))%N (total_bytes s) (last_topic s).

Definition count_bytes (len : N) (s : Stats) : Stats :=
  mkStats (message_count s) ((total_bytes s + len) mod (u64_max + 1))%N (last_topic s).

Definition record_topic (topic_id : string) (s : Stats) : Stats :=
  mkStats (message_count s) (total_bytes s) (Some topic_id).

Definition StatefulStatsHandler (flow_id topic_id : string) (message : Message) (s : Stats) :
    Stats * result () string :=
  match downcast_ref app_type TagString message with
  | Some msg_str =>
      let len := N.of_nat (String.length msg_str) in
      (record_topic topic_id (count_bytes len (count_message s)), Ok ())
  | None => (s, Err "Expected String message payload")
  end.

(** Calls run concurrently: a call and how far it has come. *)
Record StatsCall := mkStatsCall { call_topic : string; call_len : N; call_stage : nat }.

Definition call_step (c : StatsCall) (s : Stats) : option (StatsCall * Stats) :=
  let next := mkStatsCall (call_topic c) (call_len c) (S (call_stage c)) in
  match call_stage c with
  | 0 => Some (next, count_message s)
  | 1 => Some (next, count_bytes (call_len c) s)
  | 2 => Some (next, record_topic (call_topic c) s)
  | _ => None
  end.

Inductive stats_step : list StatsCall * Stats → list StatsCall * Stats → Prop :=
| stats_call i c c' calls s s' :
    calls !! i = Some c → call_step c s = Some (c', s') →
    stats_step (calls, s) (<[i := c']> calls, s').

(** The calls a list of messages leads to. *)
Definition calls_of (messages : list (string * string)) : list StatsCall :=
  (λ m, mkStatsCall m.1 (N.of_nat (String.length m.2)) 0) <$> messages.

(** ** The routing metric by latency *)

Definition f64_of_Z (z : Z) : spec_float := binary_normalize 53 1024 z 0 false.

(** [as u32]: towards zero and saturating; not a number is zero. *)
Definition f64_as_u32 (x : spec_float) : N :=
  match x with
  | S754_finite false m e => N.min u32_max (Z.to_N (Z.shiftl (Z.pos m) e))
  | S754_infinity false => u32_max
  | _ => 0%N
  end.

Definition latency_penalty (latency_penalty_factor : spec_float) (rtt_micros : N) : N :=
  let rtt_ms := SFdiv 53 1024 (f64_of_Z (Z.of_N rtt_micros)) (f64_of_Z 1000) in
  f64_as_u32 (SFmul 53 1024 rtt_ms latency_penalty_factor).

Definition LatencyRoutingMetric (p : profile) (latency_penalty_factor : spec_float) :
    RoutingMetric :=
  {| estimate_cost _ _ base_hop_cost rtt_micros :=
       u32_add p base_hop_cost (latency_penalty latency_penalty_factor rtt_micros) |}.

(** ** Text *)

Lemma length_list_byte_of_string s : length (String.list_byte_of_string s) = String.length s.
Proof.
  unfold String.list_byte_of_string. rewrite length_map.
  induction s as [|a s IH]; simpl; [done|]. by rewrite IH.
Qed.

Lemma from_utf8_text utf8_error s :
  utf8_valid (String.list_byte_of_string s) = true →
  from_utf8 utf8_error (String.list_byte_of_string s) = Ok s.
Proof. intros Hv. unfold from_utf8. by rewrite Hv, String.string_of_list_byte_of_string. Qed.

(** ** Sensor readings *)

Definition reading_fits (r : SensorReading) : Prop :=
  (device_id r < 4294967296)%N ∧ (temperature r < 4294967296)%N.

Lemma deserialize_app a b rest :
  length a = 4 → length b = 4 →
  deserialize (a ++ b ++ rest) = Ok (mkSensorReading (u32_from_be a) (u32_from_be b)).
Proof.
  intros Ha Hb. unfold deserialize. rewrite !length_app, decide_False by lia.
  by rewrite take_app_length', drop_app_length', take_app_length' by done.
Qed.

Lemma reading_eq_refl r : reading_eq r r = negb (f32_nan (temperature r)).
Proof.
  unfold reading_eq, f32_eq. by rewrite !N.eqb_refl, orb_true_l, andb_true_l, andb_true_r, andb_diag.
Qed.

(** Sensor readings survive the wire.  A reading comes back bit for bit, whatever follows
    it in the payload, and is equal, by the comparison of the type, to what was sent
    unless its temperature is not a number; a payload is accepted exactly when it has
    eight bytes or more; and readings are determined by their encoding. *)
Lemma sensor_reading_round_trip r rest b :
  reading_fits r →
  deserialize (serialize r ++ rest) = Ok r ∧
  length (serialize r) = 8 ∧
  reading_eq r r = negb (f32_nan (temperature r)) ∧
  (8 <= length b → ∃ r', reading_fits r' ∧ deserialize b = Ok r' ∧ serialize r' = take 8 b) ∧
  (length b < 8 → deserialize b = Err "Payload too short for SensorReading").
Proof.
  intros [Hd Ht]. split_and!.
  - unfold serialize. rewrite <- app_assoc.
    rewrite deserialize_app, !u32_round_trip by (done || apply length_u32_to_be). by destruct r.
  - unfold serialize. by rewrite length_app, !length_u32_to_be.
  - apply reading_eq_refl.
  - intros Hb. unfold deserialize. rewrite decide_False by lia. eexists. split; [|split; [done|]].
    + split; simpl; apply u32_from_be_bound; rewrite ?length_take, ?length_drop; lia.
    + unfold serialize. cbn [device_id temperature].
      rewrite !u32_to_from by (rewrite ?length_take, ?length_drop; lia).
      rewrite <- (take_drop 4 (take 8 b)), take_take, skipn_firstn_comm. done.
  - intros Hb. unfold deserialize. by rewrite decide_True.
Qed.

Lemma sensor_reading_round_trip_witness :
  deserialize (serialize (mkSensorReading 9942 1103022490)) = Ok (mkSensorReading 9942 1103022490) ∧
  reading_eq (mkSensorReading 9942 1103022490) (mkSensorReading 9942 1103022490) = true.
Proof.
  destruct (sensor_reading_round_trip (mkSensorReading 9942 1103022490) [] [])
    as (H1 & _ & H2 & _); [split; reflexivity|].
  rewrite app_nil_r in H1. split; [exact H1|]. rewrite H2. vm_compute. reflexivity.
Defined.

(** ** Statistics *)

Definition sum_N {A} (f : A → N) (l : list A) : N := foldr (λ x acc, (f x + acc)%N) 0%N l.

Lemma sum_N_insert {A} (f : A → N) l i x y :
  l !! i = Some x → (sum_N f (<[i := y]> l) + f x = sum_N f l + f y)%N.
Proof.
  revert i. induction l as [|z l IH]; intros [|i] Hi; simpl in *; try done.
  - injection Hi as ->. lia.
  - specialize (IH i Hi). lia.
Qed.

(** What the calls have contributed, and how many steps they have left. *)
Definition counted (calls : list StatsCall) : N :=
  sum_N (λ c, if decide (1 <= call_stage c) then 1%N else 0%N) calls.
Definition counted_bytes (calls : list StatsCall) : N :=
  sum_N (λ c, if decide (2 <= call_stage c) then call_len c else 0%N) calls.
Definition stages_left (calls : list StatsCall) : N :=
  sum_N (λ c, N.of_nat (3 - call_stage c)) calls.

Record stats_inv (messages : list (string * string)) (s0 : Stats) (st : list StatsCall * Stats) :
    Prop := {
  st_calls : (λ c, (call_topic c, call_len c)) <$> st.1 =
             (λ m, (m.1, N.of_nat (String.length m.2))) <$> messages;
  st_count : message_count st.2 = ((message_count s0 + counted st.1) mod (u32_max + 1))%N;
  st_bytes : total_bytes st.2 = ((total_bytes s0 + counted_bytes st.1) mod (u64_max + 1))%N;
  st_topic : last_topic st.2 = last_topic s0 ∧ Forall (λ c, call_stage c < 3) st.1 ∨
             ∃ m, m ∈ messages ∧ last_topic st.2 = Some m.1;
}.

Lemma add_mod_wrap a b m : ((a mod (m + 1) + b) mod (m + 1) = (a + b) mod (m + 1))%N.
Proof. by rewrite N.Div0.add_mod_idemp_l. Qed.

Lemma stats_inv_step messages s0 st st' :
  stats_inv messages s0 st → stats_step st st' →
  stats_inv messages s0 st' ∧ (stages_left st'.1 + 1 = stages_left st.1)%N.
Proof.
  intros [Hc Hn Hb Ht] Hs. destruct Hs as [i c c' calls s s' Hi Hstep]. cbn [fst snd] in *.
  pose proof (sum_N_insert (λ c, if decide (1 <= call_stage c) then 1%N else 0%N) calls i c c' Hi) as E1.
  pose proof (sum_N_insert (λ c, if decide (2 <= call_stage c) then call_len c else 0%N) calls i c c' Hi) as E2.
  pose proof (sum_N_insert (λ c, N.of_nat (3 - call_stage c)) calls i c c' Hi) as E3.
  fold (counted calls) (counted (<[i:=c']> calls)) in E1.
  fold (counted_bytes calls) (counted_bytes (<[i:=c']> calls)) in E2.
  fold (stages_left calls) (stages_left (<[i:=c']> calls)) in E3.
  assert (∃ m, m ∈ messages ∧ call_topic c = m.1) as Htopic.
  { assert ((call_topic c, call_len c) ∈ (λ c, (call_topic c, call_len c)) <$> calls) as Hin
      by (apply list_elem_of_fmap; eauto using list_elem_of_lookup_2).
    rewrite Hc in Hin. apply list_elem_of_fmap in Hin as (m & [= -> _] & ?). eauto. }
  assert (call_topic c' = call_topic c ∧ call_len c' = call_len c) as [Htc Hlc].
  { unfold call_step in Hstep. destruct (call_stage c) as [|[|[|]]]; by simplify_eq. }
  assert ((λ c, (call_topic c, call_len c)) <$> <[i := c']> calls =
          (λ m : string * string, (m.1, N.of_nat (String.length m.2))) <$> messages) as Hc'.
  { rewrite list_fmap_insert, Htc, Hlc, list_insert_id; [done|]. by rewrite list_lookup_fmap, Hi. }
  assert (∀ n, call_stage c' = S n → n < 2 →
    last_topic s = last_topic s0 ∧ Forall (λ c, call_stage c < 3) (<[i:=c']> calls) ∨
    ∃ m, m ∈ messages ∧ last_topic s = Some m.1) as Hkeep.
  { intros n Hs' Hlt. destruct Ht as [[Hl Hf]|]; [left|by right]. split; [done|].
    apply Forall_insert; [done|lia]. }
  unfold call_step in Hstep. destruct (call_stage c) as [|[|[|]]] eqn:Es; [| | |done];
    injection Hstep as <- <-; cbn [call_stage call_len] in *;
    (repeat case_decide; try lia); (split; [|lia]); split;
    cbn [fst snd message_count total_bytes last_topic count_message count_bytes record_topic];
    rewrite ?Hn, ?Hb, ?add_mod_wrap; try done; try (f_equal; lia).
  - by apply (Hkeep 0); [|lia].
  - by apply (Hkeep 1); [|lia].
  - right. destruct Htopic as (m & ? & ?). exists m. split; [done|]. simpl. congruence.
Qed.

Lemma stats_inv_init messages s0 :
  (message_count s0 <= u32_max)%N → (total_bytes s0 <= u64_max)%N →
  stats_inv messages s0 (calls_of messages, s0).
Proof.
  intros Hc Hb.
  assert (counted (calls_of messages) = 0%N ∧ counted_bytes (calls_of messages) = 0%N) as [E1 E2].
  { unfold counted, counted_bytes, calls_of. split; by induction messages. }
  split; cbn [fst snd].
  - unfold calls_of. by rewrite <- list_fmap_compose.
  - by rewrite E1, N.add_0_r, N.mod_small by lia.
  - by rewrite E2, N.add_0_r, N.mod_small by lia.
  - left. split; [done|]. unfold calls_of. apply Forall_fmap, Forall_true. intros m. simpl. lia.
Qed.

Lemma stats_inv_steps messages s0 k st st' :
  stats_inv messages s0 st → nsteps stats_step k st st' →
  stats_inv messages s0 st' ∧ (stages_left st'.1 + N.of_nat k = stages_left st.1)%N.
Proof.
  intros Hi Hs. induction Hs as [st|k st1 st2 st3 Hs _ IH]; [split; [done|lia]|].
  destruct (stats_inv_step messages s0 st1 st2 Hi Hs) as [Hi2 ?]. destruct (IH Hi2). split; [done|lia].
Qed.

Lemma stuck_calls_done calls s :
  ¬ (∃ st, stats_step (calls, s) st) → Forall (λ c, 3 <= call_stage c) calls.
Proof.
  intros Hstuck. apply Forall_forall. intros c [i Hi]%list_elem_of_lookup.
  destruct (decide (3 <= call_stage c)); [done|]. destruct Hstuck.
  assert (∃ c' s', call_step c s = Some (c', s')) as (c' & s' & E).
  { unfold call_step. destruct (call_stage c) as [|[|[|]]]; eauto; lia. }
  exists (<[i := c']> calls, s'). by apply (stats_call i c).
Qed.

Lemma done_counted messages calls :
  (λ c, (call_topic c, call_len c)) <$> calls =
    (λ m : string * string, (m.1, N.of_nat (String.length m.2))) <$> messages →
  Forall (λ c, 3 <= call_stage c) calls →
  counted calls = N.of_nat (length messages) ∧
  counted_bytes calls = sum_N (λ m, N.of_nat (String.length m.2)) messages.
Proof.
  intros Heq Hd. revert messages Heq. unfold counted, counted_bytes.
  induction Hd as [|c calls Hc _ IH]; intros [|m messages] Heq; simpl in Heq; try done.
  injection Heq as _ Hl Heq. destruct (IH messages Heq) as [E1 E2]. cbn [sum_N foldr length].
  rewrite decide_True by lia. rewrite decide_True by lia.
  fold (sum_N (λ c, if decide (1 <= call_stage c) then 1%N else 0%N) calls).
  fold (sum_N (λ c, if decide (2 <= call_stage c) then call_len c else 0%N) calls).
  fold (sum_N (λ m : string * string, N.of_nat (String.length m.2)) messages).
  split; [rewrite E1; lia|by rewrite E2, Hl].
Qed.

(** C24. The statistics are exact under concurrency.  However the calls for a list of messages
    interleave, three steps each, they end, and then the counters have grown by exactly the
    number of messages and the bytes of their texts, modulo their widths, and the last
    topic is one of the messages' topics. *)
Theorem stats_exact messages s0 :
  (message_count s0 <= u32_max)%N → (total_bytes s0 <= u64_max)%N →
  (∀ k st, nsteps stats_step k (calls_of messages, s0) st → k <= 3 * length messages) ∧
  (∀ calls s, rtc stats_step (calls_of messages, s0) (calls, s) →
     ¬ (∃ st, stats_step (calls, s) st) →
     message_count s = ((message_count s0 + N.of_nat (length messages)) mod (u32_max + 1))%N ∧
     total_bytes s = ((total_bytes s0 + sum_N (λ m, N.of_nat (String.length m.2)) messages)
                        mod (u64_max + 1))%N ∧
     (messages = [] ∧ last_topic s = last_topic s0 ∨
      ∃ m, m ∈ messages ∧ last_topic s = Some m.1)).
Proof.
  intros Hc Hb. pose proof (stats_inv_init messages s0 Hc Hb) as Hi. split.
  - intros k st Hs. apply (stats_inv_steps messages s0) in Hs as [_ Hk]; [|done]. cbn [fst] in Hk.
    assert (stages_left (calls_of messages) = N.of_nat (3 * length messages)) as E.
    { clear. induction messages as [|m ms IH]; [done|].
      change (stages_left (calls_of (m :: ms))) with (3 + stages_left (calls_of ms))%N.
      rewrite IH. cbn [length]. lia. }
    lia.
  - intros calls s [k Hs]%rtc_nsteps Hstuck.
    apply (stats_inv_steps messages s0) in Hs as [[Hcs Hn Hby Ht] _]; [|done]. cbn [fst snd] in *.
    apply stuck_calls_done in Hstuck as Hd.
    destruct (done_counted messages calls Hcs Hd) as [E1 E2]. rewrite E1 in Hn. rewrite E2 in Hby.
    split; [done|]. split; [done|]. destruct Ht as [[Hl Hlt]|]; [left|by right]. split; [|done].
    destruct calls as [|c calls]; [by destruct messages|].
    inversion Hlt; inversion Hd; subst. lia.
Qed.

(** The example's three alerts, handled one after the other. *)
Definition alerts : list (string * string) :=
  [("sensors.alerts", "Danger: Overheating"); ("sensors.alerts", "Warning: Battery low");
   ("sensors.alerts", "Info: Normal")].

Lemma stats_run_calls calls s k :
  (∀ c, c ∈ calls → call_stage c = 0) → k = length calls →
  ∃ done s', Forall (λ c, call_stage c = 3) done ∧ length done = k ∧
    rtc stats_step (calls, s) (done, s') ∧ ¬ (∃ st, stats_step (done, s') st).
Proof.
  intros Hz ->.
  assert (∀ front back s, Forall (λ c, call_stage c = 3) front → (∀ c, c ∈ back → call_stage c = 0) →
    ∃ done s', Forall (λ c, call_stage c = 3) done ∧ length done = length front + length back ∧
      rtc stats_step (front ++ back, s) (done, s')) as Hrun.
  { intros front back. revert front. induction back as [|c back IH]; intros front s1 Hf Hb.
    - exists front, s1. rewrite app_nil_r. simpl. split; [done|]. split; [lia|done].
    - pose proof (Hb c ltac:(by left)) as Hc. destruct c as [t l st]. simpl in Hc. subst st.
      set (c1 := mkStatsCall t l 1). set (c2 := mkStatsCall t l 2). set (c3 := mkStatsCall t l 3).
      destruct (IH (front ++ [c3]) (record_topic t (count_bytes l (count_message s1))))
        as (done & s' & ? & Hlen & Hr).
      { apply Forall_app. split; [done|]. by constructor. }
      { intros c Hc. apply Hb. by right. }
      exists done, s'. split; [done|]. rewrite length_app in Hlen. simpl in *. split; [lia|].
      assert (∀ a b sa sb, call_step a sa = Some (b, sb) →
        stats_step (front ++ a :: back, sa) (front ++ b :: back, sb)) as Hst.
      { intros a b sa sb E. change (b :: back) with (<[0 := b]> (a :: back)).
        rewrite <- insert_app_r. apply (stats_call _ a); [|done].
        by rewrite Nat.add_0_r, list_lookup_middle. }
      eapply rtc_l; [by apply (Hst _ c1)|]. eapply rtc_l; [by apply (Hst _ c2)|].
      eapply rtc_l; [by apply (Hst _ c3)|]. by rewrite <- app_assoc in Hr. }
  destruct (Hrun [] calls s (Forall_nil_2 _) Hz) as (done & s' & Hd & Hlen & Hr).
  exists done, s'. split; [done|]. split; [done|]. split; [done|].
  intros [st Hs]. inversion Hs as [i c c' ? ? ? Hi Hstep]; subst.
  rewrite Forall_lookup in Hd. specialize (Hd i c Hi). unfold call_step in Hstep. by rewrite Hd in Hstep.
Qed.

Lemma stats_exact_witness :
  ∃ calls s, rtc stats_step (calls_of alerts, mkStats 0 0 None) (calls, s) ∧
    message_count s = 3%N ∧ total_bytes s = (19 + 20 + 12)%N ∧ last_topic s = Some "sensors.alerts".
Proof.
  destruct (stats_run_calls (calls_of alerts) (mkStats 0 0 None) 3) as (calls & s & _ & _ & Hr & Hst).
  { intros c Hc. unfold calls_of in Hc. by apply list_elem_of_fmap in Hc as (m & -> & _). }
  { reflexivity. }
  destruct (stats_exact alerts (mkStats 0 0 None)) as [_ H]; [discriminate|discriminate|].
  destruct (H calls s Hr Hst) as (H1 & H2 & H3). exists calls, s. split; [exact Hr|].
  split; [exact H1|]. split; [exact H2|]. destruct H3 as [[H3 _]|(m & Hm & Ht)]; [discriminate|].
  rewrite Ht. unfold alerts in Hm. rewrite !elem_of_cons, elem_of_nil in Hm.
  destruct Hm as [->|[->|[->|[]]]]; reflexivity.
Defined.

(** ** The routing metric *)

(** A link whose penalty saturates costs less than its hop cost (release), or estimating it
    panics (debug). *)
Lemma latency_cost_wraps factor a b base rtt :
  (0 < base <= u32_max)%N → latency_penalty factor rtt = u32_max →
  estimate_cost (RoutingMetric := LatencyRoutingMetric Release factor) a b base rtt =
    Ret (base - 1)%N ∧
  estimate_cost (RoutingMetric := LatencyRoutingMetric Debug factor) a b base rtt = Panic.
Proof.
  intros Hb Hp. simpl. unfold u32_add. rewrite Hp.
  destruct (N.leb_spec (base + u32_max) u32_max); [lia|]. split; [|done]. f_equal.
  replace (base + u32_max)%N with (base - 1 + 1 * (u32_max + 1))%N by lia.
  rewrite N.Div0.mod_add, N.mod_small by lia. done.
Qed.

(** The factor of the example is 1.5: its assertion, and a round trip of 40 days. *)
Definition factor_1_5 : spec_float := SFdiv 53 1024 (f64_of_Z 3) (f64_of_Z 2).

Lemma latency_example p :
  estimate_cost (RoutingMetric := LatencyRoutingMetric p factor_1_5) "node_a" "node_b" 10 2500 =
    Ret (10 + 3)%N ∧
  latency_penalty factor_1_5 3456000000000 = u32_max.
Proof. split; [by destruct p; vm_compute|by vm_compute]. Qed.

Lemma latency_cost_wraps_witness :
  estimate_cost (RoutingMetric := LatencyRoutingMetric Release factor_1_5) "a" "b" 10 3456000000000 =
    Ret 9%N.
Proof.
  destruct (latency_cost_wraps factor_1_5 "a" "b" 10 3456000000000) as [H _];
    [split; reflexivity || discriminate|vm_compute; reflexivity|exact H].
Qed.
