(* ===== verification/UnitTests.v ===== *)
(** * The unit tests of stric-flow

    The [#[test]] functions inside the sources of stric-flow, as programs over the model: an
    [assert!] that fails panics.  They pass on the reference instances of the graph, the
    heap and the hash order; where a test depends on a hash, a random draw or a codec it
    passes for all of them that do what is documented. *)
From S2P Require Import Prelude Proto Topic Frame FrameFacts Graph Dijkstra.
From S2P Require Import Reconciliation Backpressure Registry Discovery DiscoveryFacts FlowApps.
From stdpp Require Import options.

(** ** [routing.rs] *)

Definition test_wildcard_topic_matching : outcome () :=
  _ ← assert (match_topic "sensor.*" "sensor.temperature");
  _ ← assert (match_topic "sensor.*" "sensor.humidity");
  _ ← assert (negb (match_topic "sensor.*" "sensor.temperature.celsius"));
  _ ← assert (match_topic "sensor.#" "sensor.temperature");
  _ ← assert (match_topic "sensor.#" "sensor.temperature.celsius");
  _ ← assert (negb (match_topic "sensor.#" "actuator.motor"));
  _ ← assert (match_topic "sensor.*.celsius" "sensor.temperature.celsius");
  _ ← assert (negb (match_topic "sensor.*.celsius" "sensor.temperature"));
  _ ← assert (match_topic "*" "sensor");
  _ ← assert (negb (match_topic "*" "sensor.temperature"));
  assert (match_topic "#" "sensor.temperature.celsius").

Definition unwrap {A} (o : option A) : outcome A :=
  match o with Some a => Ret a | None => Panic end.

Definition test_dijkstra_routing_tree `{PetGraph string LinkWeight, BinaryHeap DijkstraState, HashOrder}
    (p : profile) : outcome () :=
  let graph := foldl (λ g x, add_node (flow_node x) g) new_graph ["A"; "B"; "C"; "D"] in
  graph ← add_link (unit_link "A" "B") graph;
  graph ← add_link (unit_link "B" "C") graph;
  graph ← add_link (unit_link "B" "D") graph;
  let subscribers : gset string := {["C"; "D"]} in
  table ← compute_forwarding_table p 4 graph "A" subscribers;
  _ ← assert (size table =? 2);
  a_targets ← unwrap (table !! "A");
  _ ← assert (length (send_to a_targets) =? 1);
  _ ← assert (bool_decide ("B" ∈ send_to a_targets));
  b_targets ← unwrap (table !! "B");
  _ ← assert (length (send_to b_targets) =? 2);
  _ ← assert (bool_decide ("C" ∈ send_to b_targets));
  assert (bool_decide ("D" ∈ send_to b_targets)).

(** ** [registry.rs] *)

Definition test_message_registry (utf8_error : bytes → string) : outcome () :=
  let registry := register app_type TagString "test_msg" (from_utf8 utf8_error)
    (new_registry app_type) in
  match registry_decode app_type registry "test_msg" (String.list_byte_of_string "hello") with
  | Err _ => Panic
  | Ok decoded =>
      val ← unwrap (downcast_ref app_type TagString decoded);
      _ ← assert (bool_decide (val = "hello"));
      match registry_decode app_type registry "unknown" (String.list_byte_of_string "hello") with
      | Ok _ => Panic
      | Err _ => Ret ()
      end
  end.

(** ** [reconciliation.rs] *)

Definition millis (n : N) : Duration := (n * 1000000)%N.

(** [jitter i] is the jitter of the [i]-th call. *)
Definition test_exponential_backoff (p : profile) (jitter : nat → Duration → Duration) : outcome () :=
  let eb := new_backoff (secs 1) (secs 60) in
  '(eb, b1) ← next_backoff p (jitter 0) eb;
  _ ← assert ((millis 900 <=? b1) && (b1 <=? millis 1100))%N;
  '(eb, b2) ← next_backoff p (jitter 1) eb;
  _ ← assert ((millis 1800 <=? b2) && (b2 <=? millis 2200))%N;
  let eb := reset eb in
  '(_, b3) ← next_backoff p (jitter 2) eb;
  assert ((millis 900 <=? b3) && (b3 <=? millis 1100))%N.

(** [Instant - Duration] panics below the start of the clock. *)
Definition instant_sub (t : Instant) (d : Duration) : outcome Instant :=
  if (d <=? t)%N then Ret (t - d)%N else Panic.

Definition test_session_gc `{HashOrder} (now : Instant) : outcome () :=
  let sessions : gmap string Session :=
    {["sess1" := mkSession "sess1" "node_a" [] 0 ∅ [] 0 0]} in
  seen ← instant_sub now (secs 400);
  let node_last_seen : gmap string Instant := {["node_a" := seen]} in
  let '(sessions, evicted) := gc_inactive_sessions now sessions node_last_seen (secs 300) in
  _ ← assert (length evicted =? 1);
  _ ← assert (bool_decide (head evicted = Some "sess1"));
  assert (bool_decide (sessions = ∅)).

(** ** [frame.rs] *)

Definition test_write_and_read_frame `{Codec Ping E} : outcome () :=
  let ping := mkPing 42 in
  match write_frame ping (mkWriter [] None) with
  | (_, Err _) => Panic
  | (buffer, Ok _) =>
      match read_frame (E := E) (w_sent buffer) with
      | (_, Err _) => Panic
      | (_, Ok bytes) =>
          match decode (T := Ping) bytes with
          | Err _ => Panic
          | Ok decoded => assert (ping_at decoded =? 42)%N
          end
      end
  end.

(** ** [backpressure.rs] *)

Definition test_rate_limiter_pause_resume `{Governor} : outcome () :=
  let limiter := pause (new_limiter 1000) in
  _ ← assert (is_paused limiter);
  let limiter := resume limiter in
  assert (negb (is_paused limiter)).

(** ** [discovery.rs] *)

Section discovery.
Variable sha256 : string → bytes.

Definition test_xor_distance_and_leading_zeros : outcome () :=
  let dist := xor_distance (sha256 "node_a") (sha256 "node_b") in
  assert (leading_zeros dist <? 256).

Definition test_routing_table : outcome () :=
  let table := new_table string sha256 "local" in
  table ← update string sha256 "peer1" "127.0.0.1:8001" table;
  table ← update string sha256 "peer2" "127.0.0.1:8002" table;
  let closest := find_closest_nodes string sha256 "peer1" 1 table in
  _ ← assert (length closest =? 1);
  n ← unwrap (closest !! 0);
  assert (bool_decide (node_id string n = "peer1")).

(** The example [node_discovery.rs]. *)
Definition node_discovery : outcome () :=
  let table := new_table string sha256 "local_node" in
  table ← update string sha256 "peer_1" "127.0.0.1:8001" table;
  table ← update string sha256 "peer_2" "127.0.0.1:8002" table;
  table ← update string sha256 "peer_3" "127.0.0.1:8003" table;
  let closest := find_closest_nodes string sha256 "peer_1" 1 table in
  _ ← assert (negb (length closest =? 0));
  n ← unwrap (closest !! 0);
  _ ← assert (bool_decide (node_id string n = "peer_1"));
  assert (bool_decide (addr string n = "127.0.0.1:8001")).
End discovery.

(** ** They pass *)

Lemma byte_log2 x : (N.log2 (Byte.to_N x) < 8)%N.
Proof.
  pose proof (Byte.to_N_bounded x). destruct (decide (Byte.to_N x = 0%N)) as [->|]; [done|].
  apply N.log2_lt_pow2; lia.
Qed.

Lemma lxor_byte_zero x y : byte_xor x y = Byte.x00 → x = y.
Proof.
  unfold byte_xor. intros H. apply (f_equal Byte.to_N) in H. rewrite byte_of_to_N in H.
  change (Byte.to_N Byte.x00) with 0%N in H.
  rewrite N.mod_small in H.
  - apply N.lxor_eq in H. apply (f_equal Byte.of_N) in H. rewrite !Byte.of_to_N in H. congruence.
  - destruct (decide (N.lxor (Byte.to_N x) (Byte.to_N y) = 0%N)) as [->|Hne]; [done|].
    apply (N.log2_lt_cancel _ (2 ^ 8)). rewrite N.log2_pow2 by done.
    eapply N.le_lt_trans; [apply N.log2_lxor|]. apply N.max_lub_lt; apply byte_log2.
Qed.

Lemma xor_self a : xor_distance a a = replicate (length a) Byte.x00.
Proof.
  induction a as [|x a IH]; [done|]. unfold xor_distance in *. cbn [zip_with length replicate].
  rewrite IH. f_equal. unfold byte_xor. by rewrite N.lxor_nilpotent.
Qed.

Lemma xor_zero a b :
  length a = length b → u32_from_be (xor_distance a b) = 0%N → a = b.
Proof.
  revert b. induction a as [|x a IH]; intros [|y b] Hl; try done. injection Hl as Hl.
  unfold xor_distance in *. cbn [zip_with]. rewrite from_be_cons. intros H0.
  assert (0 < 256 ^ N.of_nat (length (zip_with byte_xor a b)))%N by (apply N.neq_0_lt_0, N.pow_nonzero; done).
  rewrite (IH b) by (done || lia). f_equal. apply lxor_byte_zero.
  assert (Byte.to_N (byte_xor x y) = 0%N) as Hz by nia.
  apply (f_equal Byte.of_N) in Hz. rewrite Byte.of_to_N in Hz. by injection Hz.
Qed.

Lemma leading_zeros_bound bs : u32_from_be bs ≠ 0%N → leading_zeros bs < 8 * length bs.
Proof.
  induction bs as [|b bs IH]; [done|]. rewrite from_be_cons. cbn [leading_zeros length].
  case_decide as Hb.
  - subst b. change (Byte.to_N Byte.x00) with 0%N. rewrite N.mul_0_l. intros H.
    specialize (IH H). lia.
  - intros _. unfold byte_leading_zeros.
    assert (0 < N.size_nat (Byte.to_N b)); [|lia].
    destruct (Byte.to_N b) as [|q] eqn:E; [|destruct q; simpl; lia].
    destruct Hb. apply (f_equal Byte.of_N) in E. rewrite Byte.of_to_N in E. by injection E.
Qed.

Section hashes.
Context (sha256 : string → bytes) (sha_len : ∀ s, length (sha256 s) = 32).

Lemma test_xor_passes :
  sha256 "node_a" ≠ sha256 "node_b" → test_xor_distance_and_leading_zeros sha256 = Ret ().
Proof using sha_len.
  intros Hne. unfold test_xor_distance_and_leading_zeros.
  set (d := xor_distance _ _).
  assert (leading_zeros d < 8 * length d) as Hlt.
  { apply leading_zeros_bound. intros H0. apply Hne, xor_zero; [by rewrite !sha_len|done]. }
  assert (length d = 32) as Hd by (unfold d, xor_distance; by rewrite length_zip_with, !sha_len).
  rewrite Hd in Hlt. by assert ((leading_zeros d <? 256) = true) as -> by (apply Nat.ltb_lt; lia).
Qed.

Lemma new_contacts id n : n ∉ contacts string (new_table string sha256 id).
Proof.
  rewrite (elem_of_contacts string sha256). intros (i & b & Hb & Hn).
  apply lookup_replicate in Hb as [-> _]. by apply not_elem_of_nil in Hn.
Qed.

Lemma update_local id a t t' :
  update string sha256 id a t = Ret t' → local_node_id string t' = local_node_id string t.
Proof.
  unfold update, on_bucket. case_decide; [by intros [= <-]|].
  destruct (buckets string t !! _); [|done]. by intros [= <-].
Qed.

(** A table that is told of at most [K] nodes knows exactly these. *)
Lemma updates_contacts id (l : list (string * string)) :
  NoDup l.*1 → id ∉ l.*1 → length l <= K →
  ∃ t, foldM (λ t x, update string sha256 x.1 x.2 t) (new_table string sha256 id) l = Ret t ∧
    table_wf string sha256 t ∧ local_node_id string t = id ∧
    ∀ n, n ∈ contacts string t ↔ (node_id string n, addr string n) ∈ l.
Proof using sha_len.
  induction l as [|[x a] l IH] using rev_ind; intros Hnd Hid Hlen.
  - eexists. split; [done|]. split; [apply new_table_wf|]. split; [done|].
    intros n. split; [by intros ?%new_contacts|by intros ?%not_elem_of_nil].
  - rewrite fmap_app in Hnd, Hid. apply NoDup_app in Hnd as (Hnd & Hx & _).
    rewrite length_app in Hlen. cbn [length] in Hlen.
    destruct IH as (t & Et & Hwf & Hloc & Hc); [done|set_solver|lia|].
    destruct (update_spec string sha256 x a t Hwf) as (t' & Eu & Hwf' & Hc' & _).
    exists t'. rewrite foldM_app, Et. cbn [mbind outcome_bind foldM fst snd]. rewrite Eu.
    split; [done|]. split; [done|]. split; [by rewrite (update_local _ _ _ _ Eu)|].
    assert (x ∉ l.*1) as Hnew by (intros Hin; apply (Hx x Hin); set_solver).
    intros n. rewrite Hc', Hc, elem_of_app, list_elem_of_singleton. split.
    + intros [?|(-> & _)]; [by left|by right].
    + intros [?|Heq]; [by left|]. right. destruct n as [? ?]. injection Heq as -> ->.
      split; [done|]. split; [rewrite Hloc; set_solver|]. split.
      { intros (n & -> & Hn%Hc)%list_elem_of_fmap. apply Hnew.
        apply list_elem_of_fmap. by exists (node_id string n, addr string n). }
      destruct (bucket_exists string sha256 t x Hwf) as [b Hb]. exists b. split; [done|].
      apply Nat.le_lt_trans with (length l); [|lia].
      rewrite <- (length_fmap (node_id string) b), <- (length_fmap fst l).
      apply submseteq_length, NoDup_submseteq.
      { apply (wf_distinct _ _ t Hwf). by apply list_elem_of_lookup_2 in Hb. }
      intros y (n & -> & Hn)%list_elem_of_fmap.
      apply list_elem_of_fmap. exists (node_id string n, addr string n). split; [done|].
      apply Hc, (elem_of_contacts string sha256). eauto.
Qed.

(** The closest node to a known node is that node, when no other known node has its hash. *)
Lemma closest_is_target t target a (l : list (string * string)) :
  (∀ n, n ∈ contacts string t ↔ (node_id string n, addr string n) ∈ l) →
  (target, a) ∈ l → (∀ x b, (x, b) ∈ l → sha256 x = sha256 target → x = target ∧ b = a) →
  find_closest_nodes string sha256 target 1 t = [mkNodeInfo string target a].
Proof using sha_len.
  intros Hc Hin Hdist.
  destruct (closest_spec string sha256 sha_len target 1 t) as (others & Hp & Hlen & _ & Hle).
  assert (mkNodeInfo string target a ∈ contacts string t) as Ht by by apply Hc.
  destruct (find_closest_nodes string sha256 target 1 t) as [|n [|? ?]]; cbn [length] in Hlen; [| |lia].
  { destruct (contacts string t); [by apply not_elem_of_nil in Ht|cbn [length] in Hlen; lia]. }
  assert (n ∈ contacts string t) as Hn by (rewrite <- Hp; left). apply Hc in Hn.
  assert (sha256 (node_id string n) = sha256 target) as Hsame.
  { rewrite <- Hp in Ht. apply elem_of_cons in Ht as [<-|Ho]; [done|].
    specialize (Hle _ _ (list_elem_of_here n []) Ho). unfold distance in Hle. simpl in Hle.
    rewrite xor_self in Hle. symmetry. apply xor_zero; [by rewrite !sha_len|].
    assert (∀ k, u32_from_be (replicate k Byte.x00) = 0%N) as Hz; [|rewrite Hz in Hle; lia].
    intros k. induction k as [|k IH]; [done|]. cbn [replicate]. rewrite from_be_cons, IH.
    by change (Byte.to_N Byte.x00) with 0%N. }
  destruct n as [x b]. by destruct (Hdist x b Hn Hsame) as [-> ->].
Qed.

Lemma test_routing_table_passes :
  sha256 "peer1" ≠ sha256 "peer2" → test_routing_table sha256 = Ret ().
Proof using sha_len.
  intros Hne. set (l := [("peer1", "127.0.0.1:8001"); ("peer2", "127.0.0.1:8002")]).
  destruct (updates_contacts "local" l) as (t & Et & _ & _ & Hc);
    [by apply (bool_decide_unpack _)|by apply (bool_decide_unpack _)|unfold K; simpl; lia|].
  assert (find_closest_nodes string sha256 "peer1" 1 t = [mkNodeInfo string "peer1" "127.0.0.1:8001"])
    as Hf.
  { apply (closest_is_target t _ _ l Hc); [left|].
    intros x b Hx Hs. set_unfold. naive_solver. }
  unfold test_routing_table. simpl in Et.
  destruct (update _ _ "peer1" _ _) as [t1| |]; [|done..]. simpl in Et |- *.
  destruct (update _ _ "peer2" _ _) as [t2| |]; [|done..]. simpl in Et |- *.
  injection Et as ->. by rewrite Hf.
Qed.

(** The example finds its node when the hash tells the three names apart. *)
Lemma node_discovery_succeeds :
  sha256 "peer_1" ≠ sha256 "peer_2" → sha256 "peer_1" ≠ sha256 "peer_3" →
  node_discovery sha256 = Ret ().
Proof using sha_len.
  intros Hne2 Hne3.
  set (l := [("peer_1", "127.0.0.1:8001"); ("peer_2", "127.0.0.1:8002"); ("peer_3", "127.0.0.1:8003")]).
  destruct (updates_contacts "local_node" l) as (t & Et & _ & _ & Hc);
    [by apply (bool_decide_unpack _)|by apply (bool_decide_unpack _)|unfold K; simpl; lia|].
  assert (find_closest_nodes string sha256 "peer_1" 1 t = [mkNodeInfo string "peer_1" "127.0.0.1:8001"])
    as Hf.
  { apply (closest_is_target t _ _ l Hc); [left|].
    intros x b Hx Hs. set_unfold. naive_solver. }
  unfold node_discovery. simpl in Et.
  destruct (update _ _ "peer_1" _ _) as [t1| |]; [|done..]. simpl in Et |- *.
  destruct (update _ _ "peer_2" _ _) as [t2| |]; [|done..]. simpl in Et |- *.
  destruct (update _ _ "peer_3" _ _) as [t3| |]; [|done..]. simpl in Et |- *.
  injection Et as ->. by rewrite Hf.
Qed.
End hashes.

(** The jitter of [next_backoff] is at most a tenth either way. *)
Definition tenth (jitter : Duration → Duration) : Prop :=
  ∀ d, (9 * d <= 10 * jitter d <= 11 * d)%N.

Lemma first_backoffs p n j :
  (n < 2)%N →
  next_backoff p j (mkBackoff (secs 1) (secs 60) n) =
    Ret (mkBackoff (secs 1) (secs 60) (n + 1), j (if decide (n = 0%N) then 1000000000 else 2000000000)%N).
Proof.
  intros Hn. assert (n = 0%N ∨ n = 1%N) as [->| ->] by lia; unfold next_backoff.
  - assert (raw_backoff (mkBackoff (secs 1) (secs 60) 1) = 1000000000%N) as E by (vm_compute; reflexivity).
    change (u32_add p _ _) with (Ret 1%N). cbn [mbind outcome_bind base max]. by rewrite E.
  - assert (raw_backoff (mkBackoff (secs 1) (secs 60) 2) = 2000000000%N) as E by (vm_compute; reflexivity).
    change (u32_add p _ _) with (Ret 2%N). cbn [mbind outcome_bind base max]. by rewrite E.
Qed.

Lemma assert_between d lo hi : (lo <= d)%N → (d <= hi)%N → assert ((lo <=? d) && (d <=? hi))%N = Ret ().
Proof. intros Hlo Hhi. apply N.leb_le in Hlo as ->. by apply N.leb_le in Hhi as ->. Qed.

Lemma test_backoff_passes p jitter :
  (∀ i, tenth (jitter i)) → test_exponential_backoff p jitter = Ret ().
Proof.
  intros Hj. pose proof (Hj 0 1000000000%N) as H0. pose proof (Hj 1 2000000000%N) as H1.
  pose proof (Hj 2 1000000000%N) as H2. unfold test_exponential_backoff, new_backoff, millis.
  rewrite first_backoffs by done. rewrite decide_True by done. cbn [mbind outcome_bind].
  rewrite assert_between by lia. cbn [mbind outcome_bind].
  rewrite first_backoffs by done. rewrite decide_False by done. cbn [mbind outcome_bind].
  rewrite assert_between by lia. cbn [mbind outcome_bind]. unfold reset. cbn [base max].
  rewrite first_backoffs by done. rewrite decide_True by done. cbn [mbind outcome_bind].
  apply assert_between; lia.
Qed.

Lemma test_frame_passes `{CodecSpec Ping E} buf :
  encode (mkPing 42) = Ok buf → fits buf → test_write_and_read_frame (E := E) = Ret ().
Proof.
  intros He Hf. unfold test_write_and_read_frame.
  destruct (write_frame_spec (mkPing 42) buf (mkWriter [] None) He I)
    as [[_ ->]|(n & ? & [=] & _)]. cbn [w_sent].
  pose proof (read_frame_frame_of (E := E) buf [] Hf) as Hr. rewrite app_nil_r in Hr.
  cbn [app]. rewrite Hr. by rewrite (decode_encode _ _ He).
Qed.

Lemma test_gc_passes `{HS : HashOrderSpec} now :
  (secs 400 <= now)%N → test_session_gc now = Ret ().
Proof.
  intros Hnow. unfold test_session_gc, instant_sub. apply N.leb_le in Hnow as Hb. rewrite Hb.
  cbn [mbind outcome_bind]. unfold gc_inactive_sessions.
  set (s := mkSession _ _ _ _ _ _ _ _).
  assert (expired now {["node_a" := (now - secs 400)%N]} (secs 300) s = true) as Hexp.
  { unfold expired. simpl. rewrite lookup_singleton_eq. apply N.ltb_lt. unfold secs in *. lia. }
  assert (map_iter ({["sess1" := s]} : gmap string Session) = [("sess1", s)]) as ->.
  { apply Permutation_singleton_r. rewrite (map_iter_perm (H := _)). by rewrite map_to_list_singleton. }
  rewrite map_filter_singleton_False, filter_cons_True, filter_nil by (simpl; by rewrite Hexp).
  done.
Qed.

(** The unit tests inside the sources pass in the model: on the reference graph, heap and hash
    order for topics, forwarding tables and the registry; for every rate limiter; for every
    jitter of at most a tenth; for every iteration order and every clock that has run 400
    seconds; for every codec that decodes what it encodes; and for every hash of 32 bytes
    that tells the names of the tests apart. *)
Lemma unit_tests_pass `{HashOrderSpec} `{Governor} `{CodecSpec Ping E} p utf8_error jitter now buf
    (sha256 : string → bytes) :
  (∀ i, tenth (jitter i)) → (secs 400 <= now)%N →
  encode (mkPing 42) = Ok buf → fits buf →
  (∀ s, length (sha256 s) = 32) → sha256 "node_a" ≠ sha256 "node_b" → sha256 "peer1" ≠ sha256 "peer2" →
  test_wildcard_topic_matching = Ret () ∧
  test_dijkstra_routing_tree (H := list_petgraph string LinkWeight) (H0 := list_heap ds_cmp)
    (H1 := key_order) p = Ret () ∧
  test_message_registry utf8_error = Ret () ∧
  test_exponential_backoff p jitter = Ret () ∧
  test_session_gc now = Ret () ∧
  test_write_and_read_frame (E := E) = Ret () ∧
  test_rate_limiter_pause_resume = Ret () ∧
  test_xor_distance_and_leading_zeros sha256 = Ret () ∧
  test_routing_table sha256 = Ret ().
Proof.
  intros Hj Hnow He Hf Hlen Hab H12. split_and!.
  - vm_compute. reflexivity.
  - destruct p; vm_compute; reflexivity.
  - vm_compute. reflexivity.
  - by apply test_backoff_passes.
  - by apply test_gc_passes.
  - by apply (test_frame_passes buf).
  - reflexivity.
  - by apply test_xor_passes.
  - by apply test_routing_table_passes.
Qed.

(** ** A witness *)

(** One byte, for numbers below 256. *)
#[local] Instance ping_codec : Codec Ping string := {|
  encode p := if (ping_at p <? 256)%N then Ok [byte_of (ping_at p)] else Err "too large";
  decode b := match b with [x] => Ok (mkPing (Byte.to_N x)) | _ => Err "not a ping" end |}.

#[local] Instance ping_codec_spec : CodecSpec ping_codec.
Proof.
  split. intros [n] b. simpl. destruct (N.ltb_spec n 256); [|done]. intros [= <-].
  by rewrite byte_of_to_N, N.mod_small.
Qed.

Lemma unit_tests_pass_witness :
  test_exponential_backoff Debug (λ _ d, d) = Ret () ∧
  test_session_gc (H := key_order) (secs 400) = Ret () ∧
  test_write_and_read_frame (E := string) = Ret () ∧
  test_routing_table pad_hash = Ret ().
Proof.
  destruct (unit_tests_pass (H0 := key_order_spec) (H1 := second_governor) Debug (λ _, "")
    (λ _ d, d) (secs 400) [Byte.x2a] pad_hash) as (_ & _ & _ & H1 & H2 & H3 & _ & _ & H4).
  - intros i d. lia.
  - reflexivity.
  - reflexivity.
  - discriminate.
  - exact pad_hash_length.
  - discriminate.
  - discriminate.
  - split; [exact H1|]. split; [exact H2|]. split; [exact H3|exact H4].
Defined.
