(* ===== verification/FlowWorld.v ===== *)
(** * Programs over a mesh of flow nodes

    The programs of [stric-flow/examples] and the session test of [node.rs] create nodes,
    connect them, let some time pass, call the public interface and look at the result.  A
    [World] holds the nodes, their connections, the messages in flight and the handler
    calls; letting time pass delivers what is in flight, in order, pings every peer and
    delivers the answers.  Every component runs as it is modelled: the handshake, the
    control engine, the rate limiter's pause and the data plane.

    A connection is the pair of its ends, an address is the name of the node that listens
    there, and a handler is a number. *)
From S2P Require Import Prelude Proto Topic Graph Dijkstra Reconciliation Backpressure.
From S2P Require Import Registry Connection FlowNode Publish ControlFacts Handshake Network.
From S2P Require Import Frame FrameFacts Lifecycle FlowApps MergeFacts.
From S2P Require Import GraphFacts DijkstraFacts TreeFacts RoutingFacts.
From stdpp Require Import options pretty.

Section world.
Context `{PG : PetGraph string LinkWeight} `{BH : BinaryHeap DijkstraState} `{HO : HashOrder}.
Context `{G : Governor}.

Abbreviation FlowNode := (FlowNode (SocketAddr := string) (Handler := nat)).
Abbreviation Effect := (Effect (SocketAddr := string)).
Abbreviation Conn := (string * string)%type.
Abbreviation Manager := (ConnectionManager (Conn := Conn) (Metadata := FlowConnectionMetadata)).
Abbreviation DataEffect := (DataEffect (Handler := nat) (Conn := Conn) app_type).

(** A call of a handler: where, which, with what. *)
Record HandlerCall := mkCall {
  hc_node : string;
  hc_handler : nat;
  hc_flow : string;
  hc_topic : string;
  hc_message : Message;
}.

Record World := mkWorld {
  w_net : Net (SocketAddr := string) (Handler := nat);
  w_managers : gmap string Manager;
  w_wires : gmap nat (string * string);
  w_waiting : list (string * Conn * Envelope);
  w_calls : list HandlerCall;
}.

Definition new_world : World := mkWorld (mkNet ∅ []) ∅ ∅ [] [].

Definition with_net (net : Net) (w : World) : World :=
  mkWorld net (w_managers w) (w_wires w) (w_waiting w) (w_calls w).

Definition node_of (a : string) (w : World) : outcome FlowNode :=
  match members (w_net w) !! a with Some n => Ret n | None => Panic end.

Definition manager_of (a : string) (w : World) : outcome Manager :=
  match w_managers w !! a with Some m => Ret m | None => Panic end.

Definition set_node (a : string) (n : FlowNode) (w : World) : World :=
  with_net (mkNet (<[a := n]> (members (w_net w))) (flight (w_net w))) w.

Definition post (l : list (string * ControlEvent)) (w : World) : World :=
  with_net (mkNet (members (w_net w)) (flight (w_net w) ++ l)) w.

Definition send_all (eff : list Effect) (w : World) : World := post (deliveries (w_wires w) eff) w.

(** [FlowNode::new] and [start]. *)
Definition spawn (a : string) (w : World) : World :=
  mkWorld (mkNet (<[a := new_node a]> (members (w_net w))) (flight (w_net w)))
    (<[a := mkManager ∅ (mkContext 0 true true true true true) 0 30]> (w_managers w))
    (w_wires w) (w_waiting w) (w_calls w).

(** ** Connecting *)

(** What a node reads from a peer that completes the handshake. *)
Definition peer_transcript (peer : FlowNode) : Transcript :=
  mkTranscript (Ok ()) (Ok ()) (λ _, Ok ())
    (λ i, Ok (to_message (if decide (i = 0) then MHandshake (local_handshake peer)
                          else MHandshakeAck accept_ack))).

(** One side of a new connection: [handle_new_connection], and the registration. *)
Definition join (a b : string) (tx : nat) (is_initiator : bool) (w : World) : outcome World :=
  n ← node_of a w;
  peer ← node_of b w;
  m ← manager_of a w;
  '(n, _, r) ← handle_new_connection n b tx is_initiator (peer_transcript peer);
  match r with
  | Ok peering =>
      let m := add_connection (mkWrapper (a, b)
        (mkContext (N.of_nat tx) true true true true true) (peering_metadata peering)) m in
      let w := mkWorld (w_net w) (<[a := m]> (w_managers w)) (<[tx := (a, b)]> (w_wires w))
        (w_waiting w) (w_calls w) in
      let w := post [(a, peering_event peering)] (set_node a n w) in
      Ret (send_all (peering_sent peering) w)
  | Err _ => Panic
  end.

(** [node_a.connect(addr_b, ..).await.unwrap()]. *)
Definition connect_nodes (a b : string) (w : World) : outcome World :=
  n ← node_of a w;
  let tx := size (w_wires w) in
  let w := set_node a (fst (connect b "localhost" (Ok (N.of_nat tx)) n)) w in
  w ← join a b tx true w;
  join b a (S tx) false w.

(** ** Time *)

(** The messages in flight are delivered in order until none is left. *)
Fixpoint settle (fuel : nat) (p : profile) (clk : Clock) (wires : gmap nat (string * string))
    (net : Net) : outcome (Net (SocketAddr := string) (Handler := nat)) :=
  match flight net with
  | [] => Ret net
  | (d, ev) :: l =>
      match fuel with
      | 0 => OutOfFuel
      | S fuel =>
          match members net !! d with
          | Some n =>
              '(n, eff) ← handle_event p clk ev n;
              settle fuel p clk wires (mkNet (<[d := n]> (members net)) (l ++ deliveries wires eff))
          | None => Panic
          end
      end
  end.

(** The ping task of every connection. *)
Definition ping_all (clk : Clock) (w : World) : World :=
  send_all (map_iter (members (w_net w)) ≫= λ an,
    (λ pt : string * nat, ping_tick clk pt.2) <$> get_peer_writers an.2) w.

Definition flow_paused (flow_id : string) (n : FlowNode) : bool :=
  match flow_limiters n !! flow_id with Some l => is_paused l | None => false end.

Definition envelope_flow (env : Envelope) : string :=
  match env_header env with Some h => rh_flow_id h | None => "" end.

(** The effects of the data plane: a send waits for its flow's limiter. *)
Definition run_data (a : string) (effs : list DataEffect) (w : World) : World :=
  mkWorld (w_net w) (w_managers w) (w_wires w)
    (w_waiting w ++ omap (λ e, match e with
                               | SendEnvelope _ c env => Some (a, c, env)
                               | HandleMessage _ _ _ _ _ => None
                               end) effs)
    (w_calls w ++ omap (λ e, match e with
                             | SendEnvelope _ _ _ => None
                             | HandleMessage _ h flow topic msg => Some (mkCall a h flow topic msg)
                             end) effs).

Definition with_waiting (l : list (string * Conn * Envelope)) (w : World) : World :=
  mkWorld (w_net w) (w_managers w) (w_wires w) l (w_calls w).

(** The sends that are not held back arrive, and what they cause too. *)
Fixpoint transmit (fuel : nat) (reg : AppRegistry) (held : list (string * Conn * Envelope))
    (w : World) : outcome World :=
  match w_waiting w with
  | [] => Ret (with_waiting held w)
  | (a, c, env) :: l =>
      match fuel with
      | 0 => OutOfFuel
      | S fuel =>
          n ← node_of a w;
          if flow_paused (envelope_flow env) n
          then transmit fuel reg (held ++ [(a, c, env)]) (with_waiting l w)
          else
            d ← node_of c.2 w;
            m ← manager_of c.2 w;
            transmit fuel reg held (run_data c.2 (receive_envelope app_type reg d m env) (with_waiting l w))
      end
  end.

Definition world_fuel : nat := 200.

(** [tokio::time::sleep], long enough for what is under way and a round of pings. *)
Definition sleep_for (fuel : nat) (p : profile) (clk : Clock) (reg : AppRegistry) (w : World) :
    outcome World :=
  net ← settle fuel p clk (w_wires w) (w_net w);
  let w := ping_all clk (with_net net w) in
  net ← settle fuel p clk (w_wires w) (w_net w);
  transmit fuel reg [] (with_net net w).

Definition sleep : profile → Clock → AppRegistry → World → outcome World := sleep_for world_fuel.

(** ** The public interface *)

Definition subscribe_at (p : profile) (a pattern : string) (h : nat) (w : World) : outcome World :=
  n ← node_of a w;
  '(n, ev) ← subscribe_task p pattern (subscribe pattern h n);
  Ret (post [(a, ev)] (set_node a n w)).

Definition publish_at (p : profile) (reg : AppRegistry) (a flow_id topic_id message_type : string)
    (payload : bytes) (w : World) : outcome World :=
  n ← node_of a w;
  m ← manager_of a w;
  effs ← publish app_type p world_fuel "" 0 reg n m flow_id topic_id message_type CODEC_RAW payload;
  Ret (run_data a effs w).

Definition create_session_at (clk : Clock) (a id : string) (flows : list string)
    (meta : gmap string string) (w : World) : outcome World :=
  n ← node_of a w;
  let '(n, eff) := create_session clk id flows meta n in
  Ret (send_all eff (set_node a n w)).

(** [.await.unwrap()] on a result. *)
Definition unwrap_send (a : string) (r : FlowNode * result (list Effect) FlowError) (w : World) :
    outcome World :=
  match r with
  | (n, Ok eff) => Ret (send_all eff (set_node a n w))
  | (_, Err _) => Panic
  end.

Definition sync_at (p : profile) (clk : Clock) (a id : string) (data : bytes) (w : World) :
    outcome World :=
  n ← node_of a w;
  r ← sync_session_state p clk id data n;
  unwrap_send a r w.

Definition close_at (a id reason : string) (w : World) : outcome World :=
  n ← node_of a w;
  unwrap_send a (close_session id reason n) w.

Definition register_merge_at (a id : string) (f : StateMergeFn) (w : World) : outcome World :=
  n ← node_of a w;
  Ret (set_node a (register_merge_fn id f n) w).

Definition backpressure_at (a flow_id : string) (action : Z) (rate : N) (w : World) : outcome World :=
  n ← node_of a w;
  Ret (send_all (send_backpressure flow_id action rate n) w).

Definition state_at (a id : string) (w : World) : outcome (option bytes) :=
  n ← node_of a w;
  Ret (get_session_state id n).

(** ** The programs *)

Abbreviation txt := String.list_byte_of_string.

Definition contains (x : string) (l : list string) : bool := existsb (String.eqb x) l.

Definition sessions_of (a : string) (w : World) : outcome (list string) :=
  n ← node_of a w; Ret (session_ids n).

Definition peers_of (a : string) (w : World) : outcome (list string) :=
  m ← manager_of a w; Ret (peer_connections m).

(** Two nodes; the first connects to the second. *)
Definition start_pair (p : profile) (clk : Clock) (reg : AppRegistry) (a b : string) : outcome World :=
  let w := spawn b (spawn a new_world) in
  w ← connect_nodes a b w;
  sleep p clk reg w.

Definition assert_state (a id : string) (data : bytes) (w : World) : outcome () :=
  s ← state_at a id w;
  assert (bool_decide (s = Some data)).

(** [simple_connection.rs]. *)
Definition simple_connection (p : profile) (clk : Clock) : outcome () :=
  let reg := new_registry app_type in
  w ← start_pair p clk reg "node_b" "node_a";
  pa ← peers_of "node_a" w;
  _ ← assert (contains "node_b" pa);
  pb ← peers_of "node_b" w;
  assert (contains "node_a" pb).

(** [session_lww_sync.rs]. *)
Definition session_lww_sync (p : profile) (clk : Clock) : outcome () :=
  let reg := new_registry app_type in
  w ← start_pair p clk reg "node_a" "node_b";
  w ← create_session_at clk "node_a" "sess_lww" ["flow1"] ∅ w;
  w ← sleep p clk reg w;
  ids ← sessions_of "node_b" w;
  _ ← assert (contains "sess_lww" ids);
  w ← sync_at p clk "node_a" "sess_lww" (txt "initial_value") w;
  w ← sleep p clk reg w;
  _ ← assert_state "node_b" "sess_lww" (txt "initial_value") w;
  w ← sync_at p clk "node_b" "sess_lww" (txt "updated_value") w;
  w ← sleep p clk reg w;
  assert_state "node_a" "sess_lww" (txt "updated_value") w.

(** [session_custom_merge.rs]. *)
Definition session_custom_merge (p : profile) (clk : Clock) : outcome () :=
  let reg := new_registry app_type in
  w ← start_pair p clk reg "node_a" "node_b";
  w ← create_session_at clk "node_a" "sess_custom" ["flow1"] ∅ w;
  w ← sleep p clk reg w;
  w ← register_merge_at "node_a" "sess_custom" append_merge w;
  w ← register_merge_at "node_b" "sess_custom" append_merge w;
  w ← sync_at p clk "node_a" "sess_custom" (txt "A") w;
  w ← sleep p clk reg w;
  w ← sync_at p clk "node_a" "sess_custom" (txt "B") w;
  w ← sleep p clk reg w;
  _ ← assert_state "node_a" "sess_custom" (txt "AB") w;
  assert_state "node_b" "sess_custom" (txt "AB") w.

(** [test_flow_node_sessions_and_reconciliation] of [node.rs]. *)
Definition test_sessions_and_reconciliation (p : profile) (clk : Clock) : outcome () :=
  let reg := new_registry app_type in
  w ← start_pair p clk reg "node_b" "node_a";
  pa ← peers_of "node_a" w;
  _ ← assert (contains "node_b" pa);
  pb ← peers_of "node_b" w;
  _ ← assert (contains "node_a" pb);
  w ← create_session_at clk "node_a" "sess_123" ["flow1"] {["key" := "val"]} w;
  w ← sleep p clk reg w;
  n ← node_of "node_b" w;
  _ ← assert (bool_decide (creator_node <$> sessions n !! "sess_123" = Some "node_a"));
  w ← sync_at p clk "node_a" "sess_123" (txt "hello_version_1") w;
  w ← sleep p clk reg w;
  _ ← assert_state "node_b" "sess_123" (txt "hello_version_1") w;
  w ← register_merge_at "node_a" "sess_123" append_merge w;
  w ← register_merge_at "node_b" "sess_123" append_merge w;
  w ← sync_at p clk "node_a" "sess_123" (txt "_appended") w;
  w ← sleep p clk reg w;
  _ ← assert_state "node_b" "sess_123" (txt "hello_version_1_appended") w;
  w ← close_at "node_a" "sess_123" "done" w;
  w ← sleep p clk reg w;
  ia ← sessions_of "node_a" w;
  _ ← assert (negb (contains "sess_123" ia));
  ib ← sessions_of "node_b" w;
  assert (negb (contains "sess_123" ib)).

(** *** Messages *)

(** The texts a channel handler has passed on: the calls of the handler at a node. *)
Definition calls_at (a : string) (h : nat) (w : World) : list HandlerCall :=
  filter (λ c, hc_node c = a ∧ hc_handler c = h) (w_calls w).

(** [handle_message] on every call, with the handler's channel. *)
Fixpoint run_handler {A} (handle : string → string → Message → Channel A →
    option (Channel A * result () string)) (cs : list HandlerCall) (tx : Channel A) :
    option (Channel A) :=
  match cs with
  | [] => Some tx
  | c :: cs =>
      match handle (hc_flow c) (hc_topic c) (hc_message c) tx with
      | Some (tx, _) => run_handler handle cs tx
      | None => None
      end
  end.

(** [mpsc::channel(10)], and what its receiver gets. *)
Definition received_by {A} (handle : string → string → Message → Channel A →
    option (Channel A * result () string)) (a : string) (w : World) : outcome (list A) :=
  match run_handler handle (calls_at a 0 w) (mkChannel [] 10 true) with
  | Some tx => Ret (ch_queue tx)
  | None => OutOfFuel
  end.

Variable utf8_error : bytes → string.

(** [subscription_delivery.rs]: a node that subscribes to its own messages. *)
Definition subscription_delivery (p : profile) (clk : Clock) : outcome () :=
  let reg := text_registry utf8_error in
  let w := spawn "my_node" new_world in
  w ← subscribe_at p "my_node" "sensors.temp.#" 0 w;
  w ← sleep p clk reg w;
  w ← publish_at p reg "my_node" "flow_001" "sensors.temp.room_1" "my_app.TextMessage"
        (txt "Temperature: 22.5 C") w;
  w ← sleep p clk reg w;
  l ← received_by SimpleStringHandler "my_node" w;
  assert (bool_decide (l = ["Temperature: 22.5 C"])).

(** [multihop_forwarding.rs]: [node_a] and [node_c] both connect to [node_b]. *)
Definition multihop_forwarding (p : profile) (clk : Clock) : outcome () :=
  let reg := text_registry utf8_error in
  let w := spawn "node_c" (spawn "node_b" (spawn "node_a" new_world)) in
  w ← connect_nodes "node_a" "node_b" w;
  w ← connect_nodes "node_c" "node_b" w;
  w ← sleep p clk reg w;
  w ← subscribe_at p "node_c" "data/topic" 0 w;
  w ← sleep p clk reg w;
  w ← publish_at p reg "node_a" "flow_x" "data/topic" "my_app.TextMessage"
        (txt "Hello through transit node_b!") w;
  w ← sleep p clk reg w;
  l ← received_by ReceiverHandler "node_c" w;
  assert (bool_decide (l = ["Hello through transit node_b!"])).

(** [backpressure_throttle.rs]: nothing arrives while the flow is paused. *)
Definition backpressure_throttle (p : profile) (clk : Clock) : outcome () :=
  let reg := text_registry utf8_error in
  w ← start_pair p clk reg "node_a" "node_b";
  w ← subscribe_at p "node_b" "sensors.temp" 0 w;
  w ← sleep p clk reg w;
  w ← backpressure_at "node_b" "flow_1" 0 0 w;
  w ← sleep p clk reg w;
  w ← publish_at p reg "node_a" "flow_1" "sensors.temp" "my_app.TextMessage"
        (txt "Temp data (paused)") w;
  w ← sleep p clk reg w;
  l ← received_by SimpleHandler "node_b" w;
  _ ← assert (bool_decide (l = []));
  w ← backpressure_at "node_b" "flow_1" 1 0 w;
  w ← sleep p clk reg w;
  l ← received_by SimpleHandler "node_b" w;
  assert (bool_decide (l = ["Temp data (paused)"])).

(** [message_serialization_registry.rs]: 23.85 is the [f32] with the bits [1103022490]. *)
Definition message_serialization_registry (p : profile) (clk : Clock) : outcome () :=
  let reg := reading_registry in
  let sent_reading := mkSensorReading 9942 1103022490 in
  w ← start_pair p clk reg "node_a" "node_b";
  w ← subscribe_at p "node_b" "sensors.readings" 0 w;
  w ← sleep p clk reg w;
  w ← publish_at p reg "node_a" "flow_custom_msg" "sensors.readings" "custom.SensorReading"
        (serialize sent_reading) w;
  w ← sleep p clk reg w;
  l ← received_by CustomReadingHandler "node_b" w;
  match l with
  | received_reading :: _ => assert (reading_eq received_reading sent_reading)
  | [] => Panic
  end.

(** [custom_flow_handler.rs]: the statistics after three alerts. *)
Definition custom_flow_handler (p : profile) (clk : Clock) : outcome () :=
  let reg := text_registry utf8_error in
  w ← start_pair p clk reg "node_a" "node_b";
  w ← subscribe_at p "node_b" "sensors.alerts" 0 w;
  w ← sleep p clk reg w;
  w ← foldM (λ w (m : string * string),
        w ← publish_at p reg "node_a" "flow_alerts" m.1 "my_app.TextMessage" (txt m.2) w;
        sleep p clk reg w) w alerts;
  let s := foldl (λ s c, (StatefulStatsHandler (hc_flow c) (hc_topic c) (hc_message c) s).1)
             (mkStats 0 0 None) (calls_at "node_b" 0 w) in
  _ ← assert (message_count s =? 3)%N;
  _ ← assert (total_bytes s =? 19 + 20 + 12)%N;
  assert (bool_decide (last_topic s = Some "sensors.alerts")).

(** [custom_routing_metric.rs]: two connected nodes, and the metric at one link. *)
Definition custom_routing_metric (p : profile) (clk : Clock) : outcome () :=
  let reg := new_registry app_type in
  w ← start_pair p clk reg "node_b" "node_a";
  pa ← peers_of "node_a" w;
  _ ← assert (contains "node_b" pa);
  pb ← peers_of "node_b" w;
  _ ← assert (contains "node_a" pb);
  cost ← estimate_cost (RoutingMetric := LatencyRoutingMetric p factor_1_5) "node_a" "node_b" 10 2500;
  assert (cost =? 10 + 3)%N.

(** *** The large network *)

Definition numbered (i : nat) : string := "node_" +:+ pretty i.

(** The connections in the order they are made: a chain, then for every node the chord of
    length 5 and the chord of length 13. *)
Definition simulation_links (num_nodes : nat) : list (nat * nat) :=
  ((λ i, (i, i + 1)) <$> seq 0 (num_nodes - 1)) ++
  (seq 0 num_nodes ≫= λ i,
    (let target := (i + 5) mod num_nodes in
     if decide (i mod 3 = 0 ∧ i < target) then [(i, target)] else []) ++
    (let target := (i + 13) mod num_nodes in
     if decide (i mod 7 = 0 ∧ i < target) then [(i, target)] else [])).

Definition large_network_simulation (fuel num_nodes : nat) (p : profile) (clk : Clock) : outcome () :=
  let reg := text_registry utf8_error in
  let msg := "Hello from node_0 to node_39 across the mesh!" in
  let w := foldl (λ w i, spawn (numbered i) w) new_world (seq 0 num_nodes) in
  w ← foldM (λ w l, connect_nodes (numbered l.1) (numbered l.2) w) w (simulation_links num_nodes);
  w ← sleep_for fuel p clk reg w;
  w ← subscribe_at p (numbered (num_nodes - 1)) "chain/data" 0 w;
  w ← sleep_for fuel p clk reg w;
  w ← publish_at p reg (numbered 0) "flow_large" "chain/data" "my_app.TextMessage" (txt msg) w;
  w ← sleep_for fuel p clk reg w;
  l ← received_by FinalHandler (numbered (num_nodes - 1)) w;
  match l with
  | received :: _ => assert (bool_decide (received = msg))
  | [] => Panic
  end.
End world.

(** ** Settling is a run of the network *)

Section settled.
Context `{PG : PetGraph string LinkWeight} `{HO : HashOrder} `{G : Governor}.

Lemma settle_run fuel p clk wires net net' :
  settle fuel p clk wires net = Ret net' → rtc (net_step p wires) net net' ∧ flight net' = [].
Proof.
  revert net. induction fuel as [|fuel IH]; intros [ns [|[d ev] l]]; simpl;
    try (intros [= <-]; by split); try done.
  destruct (ns !! d) as [n|] eqn:Hn; [|done].
  intros ([n' eff] & Hev & [Hr Hq]%IH)%bind_Ret. split; [|done].
  eapply rtc_l; [|exact Hr]. exact (net_deliver p wires clk d ev n n' eff ns [] l Hn Hev).
Qed.
End settled.

(** ** The programs run to their end *)

Section runs.
#[local] Existing Instance key_order.
#[local] Existing Instance second_governor.
#[local] Instance world_graph : PetGraph string LinkWeight := list_petgraph string LinkWeight.
#[local] Instance world_heap : BinaryHeap DijkstraState := list_heap ds_cmp.

(** The wall clock of the runs. *)
Definition program_clock : Clock := mkClock (λ _, 0%N) (λ _, 1700000000000%N).

(** The programs of the repository run on the model to their end: every assertion of the
    session test and of the example programs holds, in both build profiles: two nodes
    become peers, sessions reach the other node and the last write wins, appending merges add up, a message is
    delivered to a local subscriber, over one link and over two, a paused flow delivers
    nothing until it is resumed, custom message types are decoded, the statistics and
    the metric have the asserted values. *)
Lemma programs_succeed p :
  simple_connection p program_clock = Ret () ∧
  session_lww_sync p program_clock = Ret () ∧
  session_custom_merge p program_clock = Ret () ∧
  test_sessions_and_reconciliation p program_clock = Ret () ∧
  subscription_delivery (λ _, "") p program_clock = Ret () ∧
  multihop_forwarding (λ _, "") p program_clock = Ret () ∧
  backpressure_throttle (λ _, "") p program_clock = Ret () ∧
  message_serialization_registry p program_clock = Ret () ∧
  custom_flow_handler (λ _, "") p program_clock = Ret () ∧
  custom_routing_metric p program_clock = Ret ().
Proof. destruct p; split_and!; vm_compute; reflexivity. Qed.

(** The large network too, with 14 nodes; with the 40 of the example it has 55 connections. *)
Lemma large_network_succeeds :
  length (simulation_links 40) = 55 ∧
  large_network_simulation (λ _, "") (2 ^ 13) 14 Release program_clock = Ret ().
Proof. split; vm_compute; reflexivity. Qed.
End runs.

(** ** Routing in the large network *)

Section simulation.
#[local] Set Default Proof Using "Type*".
Context `{PS : PetGraphSpec string LinkWeight} `{BH : BinaryHeap DijkstraState}.
Context `{BS : !BinaryHeapSpec BH ds_cmp} `{HS : HashOrderSpec}.

Lemma simulation_chain n i : i + 1 < n → (i, i + 1) ∈ simulation_links n.
Proof.
  intros Hi. unfold simulation_links. apply elem_of_app. left. apply list_elem_of_fmap.
  exists i. split; [done|]. apply elem_of_seq. lia.
Qed.

(** The large network routes whatever its size: in any graph that knows the connections the
    program makes between its [n] nodes, with path costs that fit 32 bits, the forwarding
    table of node 0 leads to every other node, in particular to the last one, along a
    cheapest route. *)
Lemma simulation_delivers p fuel (g : GlobalGraph) n j :
  j < n → wf g → costs_fit g → is_Some (node_indices g !! numbered 0) →
  length (nodes g) < 2 ^ fuel →
  (∀ l, l ∈ simulation_links n → is_Some (links g !! (numbered l.1, numbered l.2))) →
  ∃ table path cost,
    compute_forwarding_table p fuel g (numbered 0) {[numbered j]} = Ret table ∧
    delivery table (numbered 0) (numbered j :: path) ∧
    route g (numbered 0) (numbered j :: path) cost ∧
    ∀ path' cost', route g (numbered 0) (numbered j :: path') cost' → (cost <= cost')%N.
Proof.
  intros Hj Hwf Hfit H0 Hfuel Hlinks.
  destruct (forwarding_table_correct p fuel g (numbered 0) {[numbered j]} Hwf Hfit H0 Hfuel)
    as (table & E & Hd & _).
  assert (reachable g (numbered 0) (numbered j)) as Hr.
  { clear -Hj Hlinks. induction j as [|j IH]; [exists [], 0%N; constructor|].
    destruct IH as (l & c & Hr); [lia|].
    destruct (Hlinks (j, j + 1)) as [w Hw]; [by apply simulation_chain; lia|].
    rewrite Nat.add_1_r in Hw. eexists _, _. by apply (route_link g _ (numbered j) _ w l c). }
  destruct (Hd (numbered j)) as (l & c & ? & ? & ?); [set_solver|done|]. eauto 10.
Qed.
End simulation.
