(* ===== verification/MeshWitnesses.v ===== *)
(** * Concrete meshes that measure their links

    The theorems about the topology of a network, at a mesh of two nodes and at the mesh
    of the routing test. *)
From S2P Require Import Prelude Proto Topic Graph GraphFacts Dijkstra Reconciliation.
From S2P Require Import Backpressure FlowNode FlowFacts ControlFacts Network TopologySync.
From S2P Require Import FlowWitnesses DijkstraFacts TreeFacts RoutingFacts SessionFacts.
From S2P Require Import MergeFacts FlowApps FlowWorld.
From stdpp Require Import options.

Section concrete.
#[local] Existing Instance list_petgraph_spec.
#[local] Existing Instance key_order.
#[local] Existing Instance key_order_spec.
#[local] Existing Instance second_governor.
#[local] Existing Instance graph_impl.
#[local] Instance heap_impl : BinaryHeap DijkstraState := list_heap ds_cmp.

Abbreviation Node := (FlowNode (SocketAddr := string) (Handler := nat)).

(** Two nodes that know no link yet, and merge in the tests below. *)
Definition link_a : Node := node_with "A" {["B" := 0]}.
Definition link_b : Node := node_with "B" {["A" := 1]}.

(** The same two after the exchange of their snapshots: each has counted one epoch of its own and
    recorded one of the other. *)
Definition settled_a : Node := with_epochs {["A" := 1%N; "B" := 1%N]} link_a.
Definition settled_b : Node := with_epochs {["A" := 1%N; "B" := 1%N]} link_b.
Definition link_net : Net := mkNet {["A" := settled_a; "B" := settled_b]} [].

Lemma link_net_cases a m :
  members link_net !! a = Some m → a = "A" ∧ m = settled_a ∨ a = "B" ∧ m = settled_b.
Proof.
  cbn [Network.members link_net]. rewrite lookup_insert. case_decide; [left; naive_solver|].
  intros [? ?]%lookup_singleton_Some. right. naive_solver.
Qed.

Lemma link_net_wired : wired pair_wires (members link_net).
Proof.
  split.
  - by intros a m [[-> ->]|[-> ->]]%link_net_cases.
  - intros a m [[-> ->]|[-> ->]]%link_net_cases;
      [destruct (node_with_wf "A" {["B" := 0]})|destruct (node_with_wf "B" {["A" := 1]})]; by split.
  - intros a m c tx [[-> ->]|[-> ->]]%link_net_cases Hc; simpl in Hc;
      apply lookup_singleton_Some in Hc as [<- <-]; (split; [reflexivity|eexists; reflexivity]).
Qed.

Lemma link_net_sound a m : members link_net !! a = Some m → node_sound m.
Proof.
  intros Hm. split; [by apply (wired_wf _ _ link_net_wired a)|].
  destruct (link_net_cases a m Hm) as [[_ ->]|[_ ->]]; apply symmetric_new.
Qed.

Lemma link_net_led : epochs_led (members link_net).
Proof.
  intros o a n m e Hn Hm He. exists 1%N.
  assert (e = 1%N) as ->.
  { destruct (link_net_cases a m Hm) as [[_ ->]|[_ ->]]; simpl in He; rewrite lookup_insert in He;
      case_decide; [congruence| |congruence|]; by apply lookup_singleton_Some in He as [_ <-]. }
  split; [|done]. by destruct (link_net_cases o n Hn) as [[-> ->]|[-> ->]].
Qed.

Lemma topology_eventually_consistent_witness :
  ∃ net' n m, topo_run Release pair_wires 1 link_net net' ∧ 1 <= topo_work [] link_net ∧
    flight net' = [] ∧ members net' !! "A" = Some n ∧ members net' !! "B" = Some m ∧
    ("A", "B") ∈ known_links n ∧ ("A", "B") ∈ known_links m.
Proof.
  destruct (topology_eventually_consistent pair_wires link_net link_net_wired link_net_sound
    eq_refl link_net_led)
    as (Hbound & _ & Hcons).
  destruct (ret_val (handle_event Release clock0 (received "B" (MPong (mkPong 1 2))) settled_a)
    ltac:(vm_compute; reflexivity)) as [[n eff] E].
  assert (∃ u, deliveries pair_wires eff = [("B", received "A" (MTopologyUpdate u))] ∧
    is_ret (handle_event Release clock0 (received "A" (MTopologyUpdate u)) settled_b) = true ∧
    out (λ r, deliveries pair_wires r.2)
      (handle_event Release clock0 (received "A" (MTopologyUpdate u)) settled_b) = Some [])
    as (u & Hfl & Hret & Hnone).
  { eexists. split; [|split].
    - apply (out_eq (λ r, deliveries pair_wires r.2) _ _ _ E). vm_compute. reflexivity.
    - vm_compute. reflexivity.
    - vm_compute. reflexivity. }
  destruct (ret_val _ Hret) as [[m eff'] E2].
  pose proof (out_eq _ _ _ _ E2 Hnone) as Heff'. simpl in Heff'.
  assert (measure_step Release pair_wires link_net
    (mkNet (<["A" := n]> (members link_net)) [("B", received "A" (MTopologyUpdate u))])) as Hs1.
  { rewrite <- Hfl. apply (measured Release pair_wires clock0 "A" "B" (mkPong 1 2) settled_a n eff
      (members link_net) []); [reflexivity|eexists; reflexivity|reflexivity|exact E]. }
  assert (net_step Release pair_wires
    (mkNet (<["A" := n]> (members link_net)) [("B", received "A" (MTopologyUpdate u))])
    (mkNet (<["B" := m]> (<["A" := n]> (members link_net))) [])) as Hs2.
  { replace [] with (([] : list (string * ControlEvent)) ++ [] ++ deliveries pair_wires eff') at 2
      by (rewrite Heff'; reflexivity).
    apply (net_deliver Release pair_wires clock0 "B" _ settled_b m eff' _ [] []); [|exact E2].
    rewrite lookup_insert_ne; [reflexivity|discriminate]. }
  set (net' := mkNet (<["B" := m]> (<["A" := n]> (members link_net))) []) in *.
  assert (topo_run Release pair_wires 1 link_net net') as Hr
    by (eapply topo_measure; [exact Hs1|]; eapply topo_deliver; [exact Hs2|apply topo_done]).
  assert (("A", "B") ∈ known_links n) as Hk.
  { apply (out_eq (λ r, bool_decide (("A", "B") ∈ known_links r.1)) _ _ true) in E;
      [|vm_compute; reflexivity]. by apply bool_decide_eq_true in E. }
  exists net', n, m. split; [exact Hr|]. split; [exact (Hbound _ _ _ Hr)|].
  split; [reflexivity|]. split; [reflexivity|]. split; [reflexivity|]. split; [exact Hk|].
  destruct (Hcons Release 1 net' Hr) as [_ Hq].
  refine (proj1 (Hq eq_refl "A" "B" settled_a n m _ eq_refl eq_refl eq_refl) _ _).
  2: { apply elem_of_difference. split; [exact Hk|]. apply (bool_decide_unpack _). vm_compute. exact I. }
  apply rtc_once. exists settled_a. split; [reflexivity|]. eexists. reflexivity.
Defined.

(** The node [A] of the routing test, connected to [B]. *)
Definition routed_node : Node := with_graph sample_graph (node_with "A" {["B" := 0]}).

Lemma routed_node_wf : node_wf routed_node.
Proof. split; [apply sample_graph_wf|apply (node_with_wf "A" {["B" := 0]})]. Qed.

(** The connection to [B] is lost; routes still lead over [B]. *)
Lemma links_never_forgotten_witness :
  ∃ n' eff, run_control_loop Release [(clock0, PeerDisconnected "B")] routed_node = Ret (n', eff) ∧
    peer_writers n' !! "B" = None ∧ ("A", "B") ∈ known_links n' ∧
    out (λ t, send_to <$> t !! "A") (compute_forwarding_table Release 5 (fgraph n') "A" {["C"]}) =
      Some (Some ["B"]).
Proof.
  destruct (ret_val (run_control_loop Release [(clock0, PeerDisconnected "B")] routed_node)
    ltac:(vm_compute; reflexivity)) as [[n' eff] E].
  exists n', eff. split; [exact E|].
  split; [apply (out_eq (λ r, peer_writers r.1 !! "B") _ _ _ E); vm_compute; reflexivity|].
  split.
  - destruct (links_never_forgotten Release [(clock0, PeerDisconnected "B")] routed_node n' eff
      routed_node_wf ltac:(repeat constructor) E) as [Hl _].
    apply Hl, (bool_decide_eq_true_1 (_ ∈ known_links routed_node)). vm_compute. reflexivity.
  - apply (out_eq (λ r, out (λ t, send_to <$> t !! "A")
      (compute_forwarding_table Release 5 (fgraph r.1) "A" {["C"]})) _ _ _ E). vm_compute. reflexivity.
Defined.

(** ** Merging *)

(** Two peers that share a session and append. *)
Definition merging (n : Node) : Node := register_merge_fn "s" append_merge (with_session "s" n).

Definition merging_nodes : gmap string Node := {["A" := merging link_a; "B" := merging link_b]}.

Lemma merging_wired : wired pair_wires merging_nodes.
Proof.
  assert (∀ a m, merging_nodes !! a = Some m →
    a = "A" ∧ m = merging link_a ∨ a = "B" ∧ m = merging link_b) as Hcases.
  { intros a m. unfold merging_nodes. rewrite lookup_insert. case_decide; [left; naive_solver|].
    intros [? ?]%lookup_singleton_Some. right. naive_solver. }
  split.
  - by intros a m [[-> ->]|[-> ->]]%Hcases.
  - intros a m [[-> ->]|[-> ->]]%Hcases;
      [destruct (with_session_wf "s" _ (node_with_wf "A" {["B" := 0]})) as [Hg Hs]
      |destruct (with_session_wf "s" _ (node_with_wf "B" {["A" := 1]})) as [Hg Hs]];
      (split; [exact Hg|exact Hs]).
  - intros a m c tx [[-> ->]|[-> ->]]%Hcases Hc; simpl in Hc;
      apply lookup_singleton_Some in Hc as [<- <-]; (split; [reflexivity|eexists; reflexivity]).
Qed.

(** Appending: in order the copies agree, concurrently they do not. *)
Lemma merges_fold_writes_witness :
  ∃ n' eff m' eff' (na ma : Node), write_seq Release "s" [(clock0, [Byte.x41]); (clock0, [Byte.x42])]
      (merging link_a) = Ret (n', eff) ∧
    run_control_loop Release (pair clock0 <$> inbox "B" (deliveries pair_wires eff)) (merging link_b) =
      Ret (m', eff') ∧
    get_session_state "s" n' = Some [Byte.x41; Byte.x42] ∧
    get_session_state "s" m' = Some [Byte.x41; Byte.x42] ∧
    get_session_state "s" na = Some [Byte.x41; Byte.x42] ∧
    get_session_state "s" ma = Some [Byte.x42; Byte.x41].
Proof.
  destruct (merges_fold_writes "s" append_merge (λ x y, x ++ y) (λ x y, eq_refl) pair_wires
    merging_nodes "A" "B" (merging link_a) (merging link_b) (empty_session "s") (empty_session "s")
    [(clock0, [Byte.x41]); (clock0, [Byte.x42])] clock0 clock0 clock0 [Byte.x41] [Byte.x42]
    merging_wired eq_refl eq_refl (mk_is_Some _ _ eq_refl) (mk_is_Some _ _ eq_refl)
    eq_refl eq_refl eq_refl eq_refl eq_refl)
    as [(n' & eff & m' & eff' & H1 & H2 & H3 & H4)
        (? & ? & ? & ? & na & ? & ma & ? & _ & _ & _ & _ & H5 & H6)].
  exists n', eff, m', eff', na, ma. split; [exact H1|]. split; [exact H2|].
  split; [exact H3|]. split; [exact H4|]. split; [exact H5|exact H6].
Defined.

(** ** The large network with eight nodes *)

#[local] Existing Instance list_heap_spec.

Definition eight_update : TopologyUpdate :=
  mkTopologyUpdate (numbered 0) 1 (flow_node <$> (numbered <$> seq 0 8)) []
    ((λ l, unit_link (numbered l.1) (numbered l.2)) <$> simulation_links 8) [].

Definition eight_graph : GlobalGraph :=
  match apply_update eight_update new_graph with
  | Ret g => g
  | _ => new_graph
  end.

Lemma eight_graph_wf : wf eight_graph.
Proof.
  destruct (apply_update_refines eight_update new_graph wf_new) as (g & Hg & Hwf & _).
  unfold eight_graph. by rewrite Hg.
Qed.

Lemma simulation_delivers_witness :
  ∃ table path cost, compute_forwarding_table Debug 4 eight_graph (numbered 0) {[numbered 7]} = Ret table ∧
    delivery table (numbered 0) (numbered 7 :: path) ∧
    route eight_graph (numbered 0) (numbered 7 :: path) cost.
Proof.
  destruct (simulation_delivers Debug 4 eight_graph 8 7) as (table & path & cost & H1 & H2 & H3 & _).
  - lia.
  - exact eight_graph_wf.
  - exists 1%N. split; [|by vm_compute]. apply (bool_decide_unpack _). vm_compute. exact I.
  - vm_compute. eexists. reflexivity.
  - vm_compute. lia.
  - assert (forallb (λ l, bool_decide (is_Some (links eight_graph !! (numbered l.1, numbered l.2))))
      (simulation_links 8) = true) as Hall by (vm_compute; reflexivity).
    intros l Hl. rewrite forallb_forall in Hall.
    apply (bool_decide_eq_true_1 _ (Hall l (proj1 (list_elem_of_In _ _) Hl))).
  - exists table, path, cost. split; [exact H1|]. split; [exact H2|exact H3].
Defined.
End concrete.
